(* ===== verification/_CoqProject ===== *)
-Q . S2P
Prelude.v
Maths.v
Bitmap.v
Random.v
Pmm.v
PmmProofs.v
PmmSafety.v
PmmInit.v
PmmInitProofs.v
PmmInitSpec.v
RBTree.v
RBTreeProofs.v
RBTreeFix.v
RBTreeOps.v
RBTreeRemove.v
RBTreeSpec.v
Flags.v
PageTable.v
PmmMem.v
HatX86.v
HatX86Proofs.v
HatX86Spec.v
HatRiscv.v
VmmMeta.v
Vmm.v
VmmTree.v
VmmProofs.v
VmmAlloc.v
VmmOps.v
VmmSplit.v
VmDrivers.v
VmDriversProofs.v
KernelWorld.v
VmmSafety.v
VmmSpec.v
VmmDevice.v
VmmDefects.v
Queue.v
QueueProofs.v
IntrList.v
Clock.v
ClockProofs.v
ClockSpec.v
Tasking.v
SchedProofs.v
SchedOps.v
SchedSafety.v
SchedSpec.v
SchedClaims.v
Locks.v
LocksProofs.v
LocksSpec.v
SyslibSpec.v
Wait.v
WaitProofs.v
WaitOps.v
WaitMany.v
WaitSpec.v
Ipi.v
