(* ===== verification/Prelude.v ===== *)
(** Northport kernel: shared prelude. *)

From stdpp Require Export base tactics list numbers gmap fin_maps.
From Stdlib Require Export ZArith Lia.

Open Scope Z_scope.
#[export] Set Warnings "-clear-no-such-hyp".

(** ** Machine integers *)

Definition two8 : Z := 256.
Definition two16 : Z := 65536.
Definition two32 : Z := 4294967296.
Definition two64 : Z := 18446744073709551616.

(** The value an unsigned C++ integer of the given width takes. *)
Definition u8 (z : Z) : Z := z mod two8.
Definition u16 (z : Z) : Z := z mod two16.
Definition u32 (z : Z) : Z := z mod two32.
Definition u64 (z : Z) : Z := z mod two64.

(** [~x] on a 64-bit operand. *)
Definition not64 (z : Z) : Z := two64 - 1 - z.

(** ** Outcomes of code that may hit a failed assertion or run on

    [Panic] is a failed [ASSERT] (the kernel logs at level Fatal and stops) or
    the dereference of a null pointer; [OutOfFuel] is a loop that did not end
    within the number of iterations the model was given. *)

Inductive res (A : Type) : Type :=
| Ok (a : A)
| Panic
| OutOfFuel.
Arguments Ok {_} _.
Arguments Panic {_}.
Arguments OutOfFuel {_}.

#[export] Instance res_ret : MRet res := fun A a => Ok a.
#[export] Instance res_bind : MBind res := fun A B f m =>
  match m with
  | Ok a => f a
  | Panic => Panic
  | OutOfFuel => OutOfFuel
  end.

(** [ASSERT(cond, ...)]: continue when the condition holds, panic otherwise. *)
Definition assert_ (b : bool) : res unit := if b then Ok tt else Panic.

(** Dereference of a pointer; [nullptr] is [None]. *)
Definition deref {A} (p : option A) : res A :=
  match p with Some a => Ok a | None => Panic end.

(** ** Tactics *)

(** Linear arithmetic after unfolding the widths and the divisions. *)
Ltac width_lia :=
  unfold u8, u16, u32, u64, not64, two8, two16, two32, two64 in *;
  Z.div_mod_to_equations; lia.

(** Case analysis on one integer comparison of the goal or of a hypothesis. *)
Ltac case_cmp :=
  match goal with
  | |- context [Z.ltb ?a ?b] => destruct (Z.ltb_spec a b)
  | |- context [Z.leb ?a ?b] => destruct (Z.leb_spec a b)
  | |- context [Z.eqb ?a ?b] => destruct (Z.eqb_spec a b)
  | H : context [Z.ltb ?a ?b] |- _ => destruct (Z.ltb_spec a b)
  | H : context [Z.leb ?a ?b] |- _ => destruct (Z.leb_spec a b)
  | H : context [Z.eqb ?a ?b] |- _ => destruct (Z.eqb_spec a b)
  end.
Ltac case_cmps := repeat (case_cmp; simpl in *; try lia; try congruence).

(** Peel the binds of a computation that is known to return. *)
Ltac res_inv H :=
  repeat match type of H with
  | mbind _ ?m = Ok _ =>
      let E := fresh "E" in destruct m eqn:E; simpl in H; [| discriminate H | discriminate H]
  | context [assert_ ?b] => let E := fresh "E" in destruct b eqn:E; simpl in H; [| discriminate H]
  end.

(** ** Arithmetic lemmas *)

Lemma u64_small z : 0 <= z < two64 -> u64 z = z.
Proof. apply Z.mod_small. Qed.

Lemma u64_range z : 0 <= u64 z < two64.
Proof. apply Z.mod_pos_bound. reflexivity. Qed.

Lemma u32_small z : 0 <= z < two32 -> u32 z = z.
Proof. apply Z.mod_small. Qed.

Lemma u32_range z : 0 <= u32 z < two32.
Proof. apply Z.mod_pos_bound. reflexivity. Qed.

Lemma u8_small z : 0 <= z < two8 -> u8 z = z.
Proof. apply Z.mod_small. Qed.

Lemma u64_u64 z : u64 (u64 z) = u64 z.
Proof. apply u64_small, u64_range. Qed.

(** A number below [2 ^ k] has no bit at or above [k]. *)
Lemma testbit_high k a i : 0 <= a < 2 ^ k -> 0 <= k <= i -> Z.testbit a i = false.
Proof. intros Ha Hi. rewrite <- (Z.mod_small a (2 ^ k)), Z.mod_pow2_bits_high by lia. reflexivity. Qed.

(** A number cut at bit [k] is read field by field. *)
Lemma testbit_fields k a b i :
  0 <= k -> 0 <= a < 2 ^ k -> 0 <= i ->
  Z.testbit (a + 2 ^ k * b) i = if i <? k then Z.testbit a i else Z.testbit b (i - k).
Proof.
  intros Hk Ha Hi.
  assert (Hz : Z.land a (b * 2 ^ k) = 0).
  { apply Z.bits_inj'. intros n Hn. rewrite Z.land_spec, Z.bits_0.
    destruct (Z.ltb_spec n k).
    - rewrite Z.mul_pow2_bits_low by lia. apply andb_false_r.
    - rewrite (testbit_high k) by lia. reflexivity. }
  pose proof (Z.add_lor_land a (b * 2 ^ k)) as E. rewrite Hz, Z.add_0_r in E.
  rewrite (Z.mul_comm (2 ^ k)), <- E, Z.lor_spec.
  destruct (Z.ltb_spec i k).
  - rewrite Z.mul_pow2_bits_low, orb_false_r by lia. reflexivity.
  - rewrite Z.mul_pow2_bits, (testbit_high k) by lia. reflexivity.
Qed.

Lemma bits_below k a : 0 <= k -> 0 <= a -> (forall i, k <= i -> Z.testbit a i = false) -> a < 2 ^ k.
Proof.
  intros Hk Ha Hb. destruct (Z.eq_dec a 0) as [-> | Hne]; [lia |].
  destruct (Z.lt_ge_cases a (2 ^ k)) as [| Hge]; [assumption | exfalso].
  specialize (Hb (Z.log2 a)). rewrite Z.bit_log2 in Hb by lia.
  assert (k <= Z.log2 a) by (apply Z.log2_le_pow2; lia). intuition discriminate.
Qed.

Lemma land_width k a b : 0 <= k -> 0 <= a < 2 ^ k -> 0 <= b -> 0 <= Z.land a b < 2 ^ k.
Proof.
  intros Hk Ha Hb. assert (0 <= Z.land a b) by (apply Z.land_nonneg; lia).
  split; [assumption |]. apply bits_below; [assumption .. |].
  intros i Hi. rewrite Z.land_spec, (testbit_high k) by lia. reflexivity.
Qed.

Lemma lor_width k a b : 0 <= k -> 0 <= a < 2 ^ k -> 0 <= b < 2 ^ k -> 0 <= Z.lor a b < 2 ^ k.
Proof.
  intros Hk Ha Hb. assert (0 <= Z.lor a b) by (apply Z.lor_nonneg; lia).
  split; [assumption |]. apply bits_below; [assumption .. |].
  intros i Hi. rewrite Z.lor_spec, !(testbit_high k) by lia. reflexivity.
Qed.

(** Two numbers cut at the same bit combine field by field. *)
Lemma land_fields k a b c d :
  0 <= k -> 0 <= a < 2 ^ k -> 0 <= c < 2 ^ k ->
  Z.land (a + 2 ^ k * b) (c + 2 ^ k * d) = Z.land a c + 2 ^ k * Z.land b d.
Proof.
  intros Hk Ha Hc. apply Z.bits_inj'. intros i Hi.
  rewrite Z.land_spec, !testbit_fields by (first [lia | apply land_width; lia]).
  destruct (Z.ltb_spec i k); rewrite Z.land_spec; reflexivity.
Qed.

Lemma lor_fields2 k a b c d :
  0 <= k -> 0 <= a < 2 ^ k -> 0 <= c < 2 ^ k ->
  Z.lor (a + 2 ^ k * b) (c + 2 ^ k * d) = Z.lor a c + 2 ^ k * Z.lor b d.
Proof.
  intros Hk Ha Hc. apply Z.bits_inj'. intros i Hi.
  rewrite Z.lor_spec, !testbit_fields by (first [lia | apply lor_width; lia]).
  destruct (Z.ltb_spec i k); rewrite Z.lor_spec; reflexivity.
Qed.

(** A power-of-two mask keeps the remainder. *)
Lemma land_mask_mod z k : 0 <= k -> Z.land z (2 ^ k - 1) = z mod 2 ^ k.
Proof. intros. rewrite <- Z.land_ones, Z.ones_equiv by lia. f_equal. Qed.

(** A disjunction of disjoint fields is a sum. *)
Lemma lor_fields k a b : 0 <= k -> 0 <= a < 2 ^ k -> Z.lor a (2 ^ k * b) = a + 2 ^ k * b.
Proof.
  intros Hk Ha. pose proof (lor_fields2 k a 0 0 b Hk Ha ltac:(lia)) as H.
  rewrite Z.mul_0_r, Z.add_0_r, Z.add_0_l, Z.lor_0_r, Z.lor_0_l in H. assumption.
Qed.

(** ** Hint databases *)

Create HintDb width.
#[export] Hint Resolve u64_range u32_range : width.
Create Rewrite HintDb width_rw.
#[export] Hint Rewrite u64_u64 : width_rw.
