(* ===== verification/Maths.v ===== *)
(** [libs/np-syslib/include/Maths.h]: alignment, clamping, byte order, integer
    square root and bit counting on the 64-bit [size_t] of x86_64 and riscv64. *)

From S2P Require Import Prelude.

(** ** Alignment *)

Definition KiB : Z := 1024.
Definition MiB : Z := KiB * KiB.
Definition GiB : Z := MiB * KiB.
Definition TiB : Z := GiB * KiB.
Definition PiB : Z := TiB * KiB.

Definition AlignDown (addr alignment : Z) : Z := u64 ((addr / alignment) * alignment).

Definition AlignUp (addr alignment : Z) : Z :=
  u64 ((u64 (addr + alignment - 1) / alignment) * alignment).

(** The pointer overloads: the addition in [AlignUp(T*, size_t)] happens on the
    pointer, so it advances by whole elements of [sizeof(T)] bytes. *)
Definition AlignDownPtr (addr alignment : Z) : Z := u64 ((addr / alignment) * alignment).

Definition AlignUpPtr (sizeofT addr alignment : Z) : Z :=
  u64 ((u64 (addr + (alignment - 1) * sizeofT) / alignment) * alignment).

Definition Min (a b : Z) : Z := if a <? b then a else b.
Definition Max (a b : Z) : Z := if b <? a then a else b.
Definition Clamp (value low high : Z) : Z :=
  if value <? low then low else if high <? value then high else value.

(** ** Byte order *)

Definition ByteSwap8 (value : Z) : Z := value.

Definition ByteSwap16 (value : Z) : Z :=
  u16 (Z.lor (Z.shiftl value 8) (Z.shiftr value 8)).

Definition ByteSwap32 (value : Z) : Z :=
  let result := 0 in
  let result := Z.lor result (u32 (Z.shiftl (Z.land value 0x000000FF) 24)) in
  let result := Z.lor result (u32 (Z.shiftl (Z.land value 0x0000FF00) 8)) in
  let result := Z.lor result (Z.shiftr (Z.land value 0x00FF0000) 8) in
  let result := Z.lor result (Z.shiftr (Z.land value 0xFF000000) 24) in
  result.

Definition ByteSwap64 (value : Z) : Z :=
  let result := 0 in
  let result := Z.lor result (u64 (Z.shiftl (Z.land value 0x00000000000000FF) 56)) in
  let result := Z.lor result (u64 (Z.shiftl (Z.land value 0x000000000000FF00) 40)) in
  let result := Z.lor result (u64 (Z.shiftl (Z.land value 0x0000000000FF0000) 24)) in
  let result := Z.lor result (u64 (Z.shiftl (Z.land value 0x00000000FF000000) 8)) in
  let result := Z.lor result (Z.shiftr (Z.land value 0x000000FF00000000) 8) in
  let result := Z.lor result (Z.shiftr (Z.land value 0x0000FF0000000000) 24) in
  let result := Z.lor result (Z.shiftr (Z.land value 0x00FF000000000000) 40) in
  let result := Z.lor result (Z.shiftr (Z.land value 0xFF00000000000000) 56) in
  result.

(** The host conversions; [little] is [__BYTE_ORDER__ == __ORDER_LITTLE_ENDIAN__]. *)
Definition LeToHost16 (little : bool) (value : Z) : Z := if little then value else ByteSwap16 value.
Definition LeToHost32 (little : bool) (value : Z) : Z := if little then value else ByteSwap32 value.
Definition LeToHost64 (little : bool) (value : Z) : Z := if little then value else ByteSwap64 value.
Definition HostToLe16 := LeToHost16.
Definition HostToLe32 := LeToHost32.
Definition HostToLe64 := LeToHost64.
Definition BeToHost16 (little : bool) (value : Z) : Z := if little then ByteSwap16 value else value.
Definition BeToHost32 (little : bool) (value : Z) : Z := if little then ByteSwap32 value else value.
Definition BeToHost64 (little : bool) (value : Z) : Z := if little then ByteSwap64 value else value.
Definition HostToBe16 := BeToHost16.
Definition HostToBe32 := BeToHost32.
Definition HostToBe64 := BeToHost64.

(** ** Integer square root *)

(** The [while (left <= right)] loop of [SquareRoot]. *)
Fixpoint SquareRoot_loop (fuel : nat) (value left right res : Z) : option Z :=
  match fuel with
  | O => None
  | S fuel' =>
      if left <=? right then
        let mid := left + (right - left) / 2 in
        if mid <=? value / mid
        then SquareRoot_loop fuel' value (mid + 1) right mid
        else SquareRoot_loop fuel' value left (mid - 1) res
      else Some res
  end.

Definition SquareRoot (fuel : nat) (value : Z) : option Z :=
  if value =? 0 then Some 0
  else SquareRoot_loop fuel value 1 (value / 2 + 1) 0.

(** [StandardDeviation] on unsigned 64-bit samples; dividing by
    [dataCount - 1 = 0] or by [dataCount = 0] traps. *)
Definition StandardDeviation (fuel : nat) (data : list Z) : option Z :=
  let dataCount := Z.of_nat (length data) in
  let total := fold_left (fun mean d => u64 (mean + d)) data 0 in
  if dataCount =? 0 then None else
  let mean := total / dataCount in
  if dataCount - 1 =? 0 then None else
  let variance :=
    fold_left (fun variance d =>
      u64 (variance + u64 (u64 (d - mean) * u64 (d - mean)) / (dataCount - 1))) data 0 in
  SquareRoot fuel variance.

(** ** Bit tests *)

Definition IsPowerOfTwo (test : Z) : bool :=
  negb (test =? 0) && (Z.land test (u64 (test - 1)) =? 0).

Definition PopCount (test : Z) : Z :=
  let x2 := test in
  let x2 := u64 (x2 - Z.land (Z.shiftr x2 1) 0x5555555555555555) in
  let x2 := u64 (Z.land (Z.shiftr x2 2) 0x3333333333333333 + Z.land x2 0x3333333333333333) in
  let x2 := Z.land (u64 (x2 + Z.shiftr x2 4)) 0x0F0F0F0F0F0F0F0F in
  let x := u32 (u64 (x2 + Z.shiftr x2 32)) in
  let x := u32 (x + Z.shiftr x 16) in
  Z.land (u32 (x + Z.shiftr x 8)) 0x0000007F.

(** ** Alignment, minima and powers of two *)

Lemma AlignUp_spec addr a :
  0 < a -> 0 <= addr -> addr + a - 1 < two64 ->
  addr <= AlignUp addr a < addr + a /\ (AlignUp addr a) mod a = 0.
Proof.
  intros Ha H0 Hlt. unfold AlignUp.
  rewrite (u64_small (addr + a - 1)) by lia.
  assert (Hq : (addr + a - 1) / a * a <= addr + a - 1 < (addr + a - 1) / a * a + a).
  { pose proof (Z.mul_div_le (addr + a - 1) a Ha).
    pose proof (Z.mul_succ_div_gt (addr + a - 1) a Ha). lia. }
  assert (0 <= (addr + a - 1) / a) by (apply Z.div_pos; lia).
  rewrite u64_small by nia. split; [lia | apply Z_mod_mult].
Qed.

Lemma AlignDown_spec addr a :
  0 < a -> 0 <= addr < two64 ->
  AlignDown addr a <= addr < AlignDown addr a + a /\ (AlignDown addr a) mod a = 0.
Proof.
  intros Ha H0. unfold AlignDown.
  pose proof (Z.mul_div_le addr a Ha). pose proof (Z.mul_succ_div_gt addr a Ha).
  assert (0 <= addr / a) by (apply Z.div_pos; lia).
  rewrite u64_small by nia. split; [lia | apply Z_mod_mult].
Qed.

Lemma Min_spec a b : Min a b = Z.min a b.
Proof. unfold Min. case_cmps. Qed.

Lemma Max_spec a b : Max a b = Z.max a b.
Proof. unfold Max. case_cmps. Qed.

Lemma IsPowerOfTwo_spec test :
  0 <= test < two64 ->
  IsPowerOfTwo test = true <-> exists k, 0 <= k < 64 /\ test = 2 ^ k.
Proof.
  intros Ht. unfold IsPowerOfTwo. rewrite andb_true_iff, negb_true_iff, Z.eqb_neq, Z.eqb_eq.
  split.
  - intros [Hne Hl]. rewrite u64_small in Hl by lia.
    exists (Z.log2 test). pose proof (Z.log2_spec test ltac:(lia)) as [Hlo Hhi].
    pose proof (Z.log2_nonneg test).
    split; [split; [lia |] |].
    { apply Z.log2_lt_pow2; [lia |]. change (2 ^ 64) with two64. lia. }
    destruct (Z.eq_dec test (2 ^ Z.log2 test)) as [| Hd]; [assumption | exfalso].
    assert (Hb : Z.testbit (Z.land test (test - 1)) (Z.log2 test) = true).
    { rewrite Z.land_spec, Z.bit_log2 by lia. simpl.
      replace (Z.log2 test) with (Z.log2 (test - 1)).
      - apply Z.bit_log2. lia.
      - apply Z.log2_unique; lia. }
    rewrite Hl, Z.bits_0 in Hb. discriminate.
  - intros (k & Hk & ->). split; [lia |].
    assert (0 < 2 ^ k) by lia.
    rewrite u64_small by lia.
    rewrite land_mask_mod by lia. apply Z_mod_same_full.
Qed.

(** ** Square root *)

Lemma SquareRoot_loop_spec n : forall fuel v l r res,
  1 <= l -> l - 1 <= r -> res = l - 1 -> res * res <= v -> v < (r + 1) * (r + 1) ->
  r - l + 1 < 2 ^ Z.of_nat n -> (n < fuel)%nat ->
  SquareRoot_loop fuel v l r res = Some (Z.sqrt v).
Proof.
  induction n as [| n IH]; intros fuel v l r res Hl Hlr0 Hres Hlo Hhi Hsz Hf;
    (destruct fuel as [| fuel]; [lia |]); cbn [SquareRoot_loop].
  - rewrite (proj2 (Z.leb_gt l r)) by (change (2 ^ Z.of_nat 0) with 1 in Hsz; lia).
    f_equal. symmetry. apply Z.sqrt_unique. change (2 ^ Z.of_nat 0) with 1 in Hsz. nia.
  - destruct (Z.leb_spec l r) as [Hlr | Hlr].
    2: { f_equal. symmetry. apply Z.sqrt_unique. nia. }
    set (mid := l + (r - l) / 2).
    assert (Hmid : l <= mid <= r) by (subst mid; Z.div_mod_to_equations; lia).
    assert (Hpow : 2 ^ Z.of_nat (S n) = 2 * 2 ^ Z.of_nat n).
    { rewrite Nat2Z.inj_succ, Z.pow_succ_r; lia. }
    destruct (Z.leb_spec mid (v / mid)) as [Hc | Hc].
    + apply IH; try lia.
      * pose proof (Z.mul_div_le v mid). nia.
      * subst mid. Z.div_mod_to_equations. lia.
    + apply IH; try lia.
      * pose proof (Z.mul_succ_div_gt v mid). nia.
      * subst mid. Z.div_mod_to_equations. lia.
Qed.

Lemma SquareRoot_spec value :
  0 <= value < two64 -> SquareRoot 65 value = Some (Z.sqrt value).
Proof.
  intros Hv. unfold SquareRoot. destruct (Z.eqb_spec value 0) as [-> | Hne]; [reflexivity |].
  apply (SquareRoot_loop_spec 64); width_lia.
Qed.

(** ** Little-endian fields *)

(** [k]-bit digits, least significant first. *)
Fixpoint digits (k : Z) (ds : list Z) : Z :=
  match ds with
  | [] => 0
  | d :: ds' => d + 2 ^ k * digits k ds'
  end.

Definition in_width (k d : Z) : Prop := 0 <= d < 2 ^ k.

Lemma digits_land k ds : forall ms,
  0 <= k -> Forall (in_width k) ds -> Forall (in_width k) ms -> length ds = length ms ->
  Z.land (digits k ds) (digits k ms) = digits k (zip_with Z.land ds ms).
Proof.
  induction ds as [| d ds IH]; intros [| m ms] Hk Hd Hm Hlen; simplify_eq/=; [reflexivity |].
  inversion Hd; inversion Hm; subst. rewrite land_fields by assumption. f_equal. f_equal. auto.
Qed.

Lemma shiftr_mask_field k j d v m mm :
  0 <= j <= k -> in_width k d -> in_width (k - j) m ->
  Z.land (Z.shiftr (d + 2 ^ k * v) j) (m + 2 ^ k * mm) =
  Z.land (d / 2 ^ j) m + 2 ^ k * Z.land (Z.shiftr v j) mm.
Proof.
  intros Hj Hd Hm. unfold in_width in *.
  assert (Hp : 2 ^ k = 2 ^ j * 2 ^ (k - j)) by (rewrite <- Z.pow_add_r by lia; f_equal; lia).
  assert (0 < 2 ^ j /\ 0 < 2 ^ (k - j)) as [Hpj Hpkj] by lia.
  assert (Hdj : 0 <= d / 2 ^ j < 2 ^ (k - j)).
  { split; [apply Z.div_pos; lia | apply Z.div_lt_upper_bound; lia]. }
  assert (Hv : Z.shiftr (d + 2 ^ k * v) j =
    (d / 2 ^ j + 2 ^ (k - j) * (v mod 2 ^ j)) + 2 ^ k * Z.shiftr v j).
  { rewrite !Z.shiftr_div_pow2 by lia.
    replace (d + 2 ^ k * v) with (d + (2 ^ (k - j) * v) * 2 ^ j) by nia.
    rewrite Z.div_add by lia. rewrite Hp at 1.
    pose proof (Z.div_mod v (2 ^ j)). nia. }
  assert (Hvm : 0 <= v mod 2 ^ j < 2 ^ j) by (apply Z.mod_pos_bound; lia).
  rewrite Hv, land_fields; try lia.
  - f_equal. pose proof (land_fields (k - j) (d / 2 ^ j) (v mod 2 ^ j) m 0) as H.
    rewrite Z.mul_0_r, Z.add_0_r, Z.land_0_r in H. rewrite H by lia. lia.
  - nia.
  - nia.
Qed.

Lemma digits_shiftr_land k j ds : forall ms,
  0 <= j <= k -> Forall (in_width k) ds -> Forall (in_width (k - j)) ms -> length ds = length ms ->
  Z.land (Z.shiftr (digits k ds) j) (digits k ms) =
  digits k (zip_with (fun d m => Z.land (d / 2 ^ j) m) ds ms).
Proof.
  induction ds as [| d ds IH]; intros [| m ms] Hj Hd Hm Hlen; simplify_eq/=.
  { apply Z.land_0_r. }
  inversion Hd; inversion Hm; subst. rewrite shiftr_mask_field by assumption.
  rewrite IH by assumption. reflexivity.
Qed.

(** The bytes of a 64-bit value. *)
Fixpoint to_bytes (n : nat) (v : Z) : list Z :=
  match n with
  | O => []
  | S n' => v mod 256 :: to_bytes n' (v / 256)
  end.

Lemma to_bytes_width n : forall v, Forall (in_width 8) (to_bytes n v).
Proof.
  induction n as [| n IH]; intros v; constructor; [| apply IH].
  apply Z.mod_pos_bound. lia.
Qed.

Lemma length_to_bytes n : forall v, length (to_bytes n v) = n.
Proof. induction n as [| n IH]; intros v; simpl; [| rewrite IH]; reflexivity. Qed.

Lemma digits_to_bytes n : forall v, 0 <= v < 2 ^ (8 * Z.of_nat n) -> digits 8 (to_bytes n v) = v.
Proof.
  induction n as [| n IH]; intros v Hv.
  - change (2 ^ (8 * Z.of_nat 0)) with 1 in Hv. simpl. lia.
  - cbn [to_bytes digits]. change (2 ^ 8) with 256.
    rewrite IH; [Z.div_mod_to_equations; lia |].
    replace (8 * Z.of_nat (S n)) with (8 + 8 * Z.of_nat n) in Hv by lia.
    rewrite Z.pow_add_r in Hv by lia. change (2 ^ 8) with 256 in Hv.
    split; [apply Z.div_pos; lia | apply Z.div_lt_upper_bound; lia].
Qed.

(** ** Population count *)

(** Reference: the number of set bits among the low [n]. *)
Fixpoint ones (n : nat) (x : Z) : Z :=
  match n with
  | O => 0
  | S n' => ones n' x + Z.b2z (Z.testbit x (Z.of_nat n'))
  end.

(** The first three steps of [PopCount], on one byte. *)
Definition pop_byte1 (b : Z) : Z := b - Z.land (b / 2) 0x55.
Definition pop_byte2 (b : Z) : Z := Z.land (b / 4) 0x33 + Z.land b 0x33.
Definition pop_byte (b : Z) : Z := let b := pop_byte2 (pop_byte1 b) in (b + b / 16) mod 16.

Lemma byte_forall (P : Z -> bool) :
  forallb P (map Z.of_nat (seq 0 256)) = true -> forall b, in_width 8 b -> P b = true.
Proof.
  intros H b Hb. rewrite forallb_forall in H. apply H.
  apply in_map_iff. exists (Z.to_nat b). unfold in_width in Hb. change (2 ^ 8) with 256 in Hb.
  split; [lia |]. apply in_seq. lia.
Qed.

Lemma pop_byte_facts b : in_width 8 b ->
  0 <= pop_byte1 b < 256 /\
  0 <= pop_byte2 (pop_byte1 b) < 256 /\
  pop_byte2 (pop_byte1 b) mod 16 <= 4 /\ pop_byte2 (pop_byte1 b) / 16 <= 4 /\
  pop_byte b = ones 8 b /\ 0 <= pop_byte b <= 8.
Proof.
  intros Hb.
  pose proof (byte_forall (fun b =>
    (0 <=? pop_byte1 b) && (pop_byte1 b <? 256) &&
    (0 <=? pop_byte2 (pop_byte1 b)) && (pop_byte2 (pop_byte1 b) <? 256) &&
    (pop_byte2 (pop_byte1 b) mod 16 <=? 4) && (pop_byte2 (pop_byte1 b) / 16 <=? 4) &&
    (pop_byte b =? ones 8 b) && (0 <=? pop_byte b) && (pop_byte b <=? 8))
    ltac:(vm_compute; reflexivity) b Hb) as H.
  cbv beta in H. rewrite !andb_true_iff, !Z.leb_le, !Z.ltb_lt, Z.eqb_eq in H. tauto.
Qed.

Lemma ones_fields n : forall m a b,
  0 <= a < 2 ^ Z.of_nat n -> ones (n + m) (a + 2 ^ Z.of_nat n * b) = ones n a + ones m b.
Proof.
  induction m as [| m IH]; intros a b Ha.
  - rewrite Nat.add_0_r. simpl. rewrite Z.add_0_r.
    assert (Hle : forall j, (j <= n)%nat -> ones j (a + 2 ^ Z.of_nat n * b) = ones j a).
    { induction j as [| j IHj]; intros Hj; simpl; [reflexivity |].
      rewrite IHj, testbit_fields by lia. rewrite (proj2 (Z.ltb_lt _ _)) by lia. reflexivity. }
    apply Hle. lia.
  - rewrite Nat.add_succ_r. cbn [ones]. rewrite IH, testbit_fields by lia.
    rewrite (proj2 (Z.ltb_ge _ _)) by lia.
    replace (Z.of_nat (n + m) - Z.of_nat n) with (Z.of_nat m) by lia. lia.
Qed.

Lemma ones_digits bs : Forall (in_width 8) bs ->
  ones (8 * length bs) (digits 8 bs) = fold_right Z.add 0 (map pop_byte bs).
Proof.
  induction bs as [| b bs IH]; intros Hb; [reflexivity |].
  inversion Hb; subst. cbn [length digits map fold_right].
  replace (8 * S (length bs))%nat with (8 + 8 * length bs)%nat by lia.
  pose proof (ones_fields 8 (8 * length bs) b (digits 8 bs)) as E.
  change (Z.of_nat 8) with 8 in E. rewrite E, IH by assumption. f_equal. symmetry. apply pop_byte_facts. assumption.
Qed.

(** Each SWAR step of [PopCount] is a step on every byte. *)
Lemma pop_step1 bs : Forall (in_width 8) bs -> length bs = 8%nat ->
  digits 8 bs - Z.land (Z.shiftr (digits 8 bs) 1) 0x5555555555555555 =
  digits 8 (map pop_byte1 bs).
Proof.
  intros Hb Hlen. change 0x5555555555555555 with (digits 8 (repeat 0x55 8)).
  rewrite digits_shiftr_land; [| lia | assumption | repeat constructor; unfold in_width; lia | assumption].
  do 8 (destruct bs as [| ? bs]; [discriminate |]). destruct bs; [| discriminate].
  cbn [digits map zip_with repeat]. unfold pop_byte1. change (2 ^ 1) with 2. lia.
Qed.

Lemma pop_step2 bs : Forall (in_width 8) bs -> length bs = 8%nat ->
  Z.land (Z.shiftr (digits 8 bs) 2) 0x3333333333333333 + Z.land (digits 8 bs) 0x3333333333333333 =
  digits 8 (map pop_byte2 bs).
Proof.
  intros Hb Hlen. change 0x3333333333333333 with (digits 8 (repeat 0x33 8)).
  rewrite digits_shiftr_land, digits_land; try lia; try assumption;
    try (repeat constructor; unfold in_width; lia).
  do 8 (destruct bs as [| ? bs]; [discriminate |]). destruct bs; [| discriminate].
  cbn [digits map zip_with repeat]. unfold pop_byte2. change (2 ^ 2) with 4. lia.
Qed.

Lemma digits_bound bs : Forall (in_width 8) bs -> length bs = 8%nat -> 0 <= digits 8 bs < two64.
Proof.
  intros Hb Hlen.
  do 8 (destruct bs as [| ? bs]; [discriminate |]). destruct bs; [| discriminate].
  unfold in_width in Hb. change (2 ^ 8) with 256 in Hb.
  repeat match goal with H : Forall _ (_ :: _) |- _ => inversion H; clear H; subst end.
  cbn [digits]. change (2 ^ 8) with 256. unfold two64. lia.
Qed.

Definition small_nibbles (d : Z) : Prop := 0 <= d < 256 /\ d mod 16 <= 4 /\ d / 16 <= 4.

Lemma pop_step3 bs : Forall small_nibbles bs -> length bs = 8%nat ->
  Z.land (u64 (digits 8 bs + Z.shiftr (digits 8 bs) 4)) 0x0F0F0F0F0F0F0F0F =
  digits 8 (map (fun b => (b + b / 16) mod 16) bs).
Proof.
  intros Hb Hlen.
  do 8 (destruct bs as [| ? bs]; [discriminate |]). destruct bs; [| discriminate].
  repeat match goal with H : Forall _ (_ :: _) |- _ => inversion H; clear H; subst end.
  unfold small_nibbles in *.
  assert (E : digits 8 [z; z0; z1; z2; z3; z4; z5; z6] +
      Z.shiftr (digits 8 [z; z0; z1; z2; z3; z4; z5; z6]) 4 =
    digits 8 [z + z / 16 + 16 * (z0 mod 16); z0 + z0 / 16 + 16 * (z1 mod 16);
              z1 + z1 / 16 + 16 * (z2 mod 16); z2 + z2 / 16 + 16 * (z3 mod 16);
              z3 + z3 / 16 + 16 * (z4 mod 16); z4 + z4 / 16 + 16 * (z5 mod 16);
              z5 + z5 / 16 + 16 * (z6 mod 16); z6 + z6 / 16]).
  { rewrite Z.shiftr_div_pow2 by lia. change (2 ^ 4) with 16.
    cbn [digits]. change (2 ^ 8) with 256. Z.div_mod_to_equations. lia. }
  assert (W : Forall (in_width 8)
             [z + z / 16 + 16 * (z0 mod 16); z0 + z0 / 16 + 16 * (z1 mod 16);
              z1 + z1 / 16 + 16 * (z2 mod 16); z2 + z2 / 16 + 16 * (z3 mod 16);
              z3 + z3 / 16 + 16 * (z4 mod 16); z4 + z4 / 16 + 16 * (z5 mod 16);
              z5 + z5 / 16 + 16 * (z6 mod 16); z6 + z6 / 16]).
  { unfold in_width. change (2 ^ 8) with 256.
    repeat constructor; Z.div_mod_to_equations; lia. }
  rewrite E, u64_small by (apply digits_bound; [assumption | reflexivity]).
  change 0x0F0F0F0F0F0F0F0F with (digits 8 (repeat 15 8)).
  rewrite digits_land; [| lia | assumption | repeat constructor; unfold in_width; lia | reflexivity].
  cbn [map zip_with repeat]. change 15 with (2 ^ 4 - 1). rewrite !land_mask_mod by lia.
  change (2 ^ 4) with 16.
  repeat match goal with |- context [(?a + 16 * ?b) mod 16] =>
    replace ((a + 16 * b) mod 16) with (a mod 16) by (Z.div_mod_to_equations; lia) end.
  reflexivity.
Qed.

(** The last three additions gather the eight byte counts. *)
Lemma pop_step4 bs : Forall (fun p => 0 <= p <= 8) bs -> length bs = 8%nat ->
  (let x := u32 (u64 (digits 8 bs + Z.shiftr (digits 8 bs) 32)) in
   let x := u32 (x + Z.shiftr x 16) in
   Z.land (u32 (x + Z.shiftr x 8)) 0x0000007F) = fold_right Z.add 0 bs.
Proof.
  intros Hb Hlen.
  do 8 (destruct bs as [| ? bs]; [discriminate |]). destruct bs; [| discriminate].
  repeat match goal with H : Forall _ (_ :: _) |- _ => inversion H; clear H; subst end.
  cbn [digits fold_right]. change 0x7F with (2 ^ 7 - 1).
  rewrite land_mask_mod, !Z.shiftr_div_pow2 by lia.
  change (2 ^ 8) with 256. change (2 ^ 32) with 4294967296.
  change (2 ^ 16) with 65536. change (2 ^ 7) with 128.
  set (lo := z + 256 * (z0 + 256 * (z1 + 256 * z2))).
  set (hi := z3 + 256 * (z4 + 256 * (z5 + 256 * z6))).
  replace (z + 256 * (z0 + 256 * (z1 + 256 * (z2 + 256 * (z3 + 256 * (z4 + 256 * (z5 +
    256 * (z6 + 256 * 0)))))))) with (lo + 4294967296 * hi) by (subst lo hi; lia).
  replace ((lo + 4294967296 * hi) / 4294967296) with hi
    by (subst lo hi; Z.div_mod_to_equations; lia).
  replace (u32 (u64 (lo + 4294967296 * hi + hi))) with (lo + hi)
    by (subst lo hi; width_lia).
  replace (u32 (lo + hi + (lo + hi) / 65536)) with
    ((z + z3 + z1 + z5) + 256 * (z0 + z4 + z2 + z6) + 65536 * (z1 + z5) + 16777216 * (z2 + z6))
    by (subst lo hi; width_lia).
  clear lo hi.
  remember (z + z3 + z1 + z5) as a eqn:Ea. remember (z0 + z4 + z2 + z6) as b eqn:Eb.
  assert (Hd : (a + 256 * b + 65536 * (z1 + z5) + 16777216 * (z2 + z6)) / 256 =
               b + 256 * (z1 + z5) + 65536 * (z2 + z6)) by (Z.div_mod_to_equations; lia).
  rewrite Hd, u32_small by (unfold two32; lia).
  replace (_ + _) with (a + b + (2 * (b + (z1 + z5) + 256 * (z1 + z5) + 256 * (z2 + z6) +
    65536 * (z2 + z6))) * 128) by lia.
  rewrite Z_mod_plus_full, Z.mod_small; lia.
Qed.

Lemma PopCount_spec test : 0 <= test < two64 -> PopCount test = ones 64 test.
Proof.
  intros Ht. unfold PopCount.
  pose proof (to_bytes_width 8 test) as W. pose proof (length_to_bytes 8 test) as L.
  rewrite <- (digits_to_bytes 8 test) by (change (2 ^ (8 * Z.of_nat 8)) with two64; lia).
  set (bs := to_bytes 8 test) in *.
  assert (F : Forall (fun b => in_width 8 (pop_byte1 b) /\ small_nibbles (pop_byte2 (pop_byte1 b)) /\
                               0 <= pop_byte b <= 8) bs).
  { eapply Forall_impl; [exact W |]. intros b Hb. cbv beta.
    pose proof (pop_byte_facts b Hb). unfold in_width, small_nibbles. change (2 ^ 8) with 256. tauto. }
  assert (W1 : Forall (in_width 8) (map pop_byte1 bs)).
  { apply Forall_map. eapply Forall_impl; [exact F |]. cbv beta. tauto. }
  assert (W2 : Forall small_nibbles (map pop_byte2 (map pop_byte1 bs))).
  { rewrite map_map. apply Forall_map. eapply Forall_impl; [exact F |]. cbv beta. tauto. }
  assert (W2' : Forall (in_width 8) (map pop_byte2 (map pop_byte1 bs))).
  { eapply Forall_impl; [exact W2 |]. intros b [? _]. exact H. }
  rewrite pop_step1 by assumption.
  rewrite (u64_small (digits 8 (map pop_byte1 bs))) by (apply digits_bound; rewrite ?length_map; assumption).
  rewrite pop_step2 by (rewrite ?length_map; assumption).
  rewrite (u64_small (digits 8 (map pop_byte2 _))) by (apply digits_bound; rewrite ?length_map; assumption).
  rewrite pop_step3 by (rewrite ?length_map; assumption).
  rewrite !map_map. change (map _ bs) with (map pop_byte bs).
  rewrite pop_step4; [| apply Forall_map; eapply Forall_impl; [exact F |]; cbv beta; tauto
                      | rewrite length_map; assumption].
  replace 64%nat with (8 * length bs)%nat by (rewrite L; reflexivity).
  symmetry. apply ones_digits. assumption.
Qed.

(** ** Byte order *)

Lemma digits_lor k ds : forall ms,
  0 <= k -> Forall (in_width k) ds -> Forall (in_width k) ms -> length ds = length ms ->
  Z.lor (digits k ds) (digits k ms) = digits k (zip_with Z.lor ds ms).
Proof.
  induction ds as [| d ds IH]; intros [| m ms] Hk Hd Hm Hlen; simplify_eq/=; [reflexivity |].
  inversion Hd; inversion Hm; subst. rewrite lor_fields2 by assumption. f_equal. f_equal. auto.
Qed.

Lemma byte_mask b : in_width 8 b -> Z.land b 255 = b.
Proof. intros Hb. change 255 with (2 ^ 8 - 1). rewrite land_mask_mod by lia. apply Z.mod_small, Hb. Qed.

(** Prove an equation between explicit byte sequences. *)
Ltac bytes_lia :=
  unfold in_width in *; change (2 ^ 8) with 256 in *;
  rewrite ?Z.shiftl_mul_pow2, ?Z.shiftr_div_pow2 by lia; cbn [digits];
  change (2 ^ 8) with 256; cbn [Z.pow Z.pow_pos Pos.iter Z.mul Pos.mul]; width_lia.

Lemma ByteSwap16_bytes b0 b1 :
  in_width 8 b0 -> in_width 8 b1 ->
  ByteSwap16 (digits 8 [b0; b1]) = digits 8 [b1; b0].
Proof.
  intros H0 H1. unfold ByteSwap16.
  replace (Z.shiftl (digits 8 [b0; b1]) 8) with (digits 8 [0; b0; b1]) by bytes_lia.
  replace (Z.shiftr (digits 8 [b0; b1]) 8) with (digits 8 [b1; 0; 0]) by bytes_lia.
  rewrite digits_lor; [| lia | repeat constructor; unfold in_width in *; lia ..  | reflexivity].
  cbn [zip_with]. rewrite Z.lor_0_l, !Z.lor_0_r. bytes_lia.
Qed.

Lemma ByteSwap32_bytes b0 b1 b2 b3 :
  in_width 8 b0 -> in_width 8 b1 -> in_width 8 b2 -> in_width 8 b3 ->
  ByteSwap32 (digits 8 [b0; b1; b2; b3]) = digits 8 [b3; b2; b1; b0].
Proof.
  intros H0 H1 H2 H3. unfold ByteSwap32. cbv zeta.
  change 0x000000FF with (digits 8 [255; 0; 0; 0]).
  change 0x0000FF00 with (digits 8 [0; 255; 0; 0]).
  change 0x00FF0000 with (digits 8 [0; 0; 255; 0]).
  change 0xFF000000 with (digits 8 [0; 0; 0; 255]).
  rewrite !digits_land by (first [lia | reflexivity | repeat constructor; unfold in_width in *; lia]).
  cbn [zip_with]. rewrite !Z.land_0_r, !byte_mask by assumption.
  replace (u32 (Z.shiftl (digits 8 [b0; 0; 0; 0]) 24)) with (digits 8 [0; 0; 0; b0]) by bytes_lia.
  replace (u32 (Z.shiftl (digits 8 [0; b1; 0; 0]) 8)) with (digits 8 [0; 0; b1; 0]) by bytes_lia.
  replace (Z.shiftr (digits 8 [0; 0; b2; 0]) 8) with (digits 8 [0; b2; 0; 0]) by bytes_lia.
  replace (Z.shiftr (digits 8 [0; 0; 0; b3]) 24) with (digits 8 [b3; 0; 0; 0]) by bytes_lia.
  rewrite Z.lor_0_l.
  repeat (rewrite digits_lor by (first [lia | reflexivity | repeat constructor; unfold in_width in *; lia]);
          cbn [zip_with]; rewrite ?Z.lor_0_l, ?Z.lor_0_r).
  reflexivity.
Qed.

Lemma ByteSwap64_bytes b0 b1 b2 b3 b4 b5 b6 b7 :
  in_width 8 b0 -> in_width 8 b1 -> in_width 8 b2 -> in_width 8 b3 ->
  in_width 8 b4 -> in_width 8 b5 -> in_width 8 b6 -> in_width 8 b7 ->
  ByteSwap64 (digits 8 [b0; b1; b2; b3; b4; b5; b6; b7]) = digits 8 [b7; b6; b5; b4; b3; b2; b1; b0].
Proof.
  intros H0 H1 H2 H3 H4 H5 H6 H7. unfold ByteSwap64. cbv zeta.
  change 0x00000000000000FF with (digits 8 [255; 0; 0; 0; 0; 0; 0; 0]).
  change 0x000000000000FF00 with (digits 8 [0; 255; 0; 0; 0; 0; 0; 0]).
  change 0x0000000000FF0000 with (digits 8 [0; 0; 255; 0; 0; 0; 0; 0]).
  change 0x00000000FF000000 with (digits 8 [0; 0; 0; 255; 0; 0; 0; 0]).
  change 0x000000FF00000000 with (digits 8 [0; 0; 0; 0; 255; 0; 0; 0]).
  change 0x0000FF0000000000 with (digits 8 [0; 0; 0; 0; 0; 255; 0; 0]).
  change 0x00FF000000000000 with (digits 8 [0; 0; 0; 0; 0; 0; 255; 0]).
  change 0xFF00000000000000 with (digits 8 [0; 0; 0; 0; 0; 0; 0; 255]).
  rewrite !digits_land by (first [lia | reflexivity | repeat constructor; unfold in_width in *; lia]).
  cbn [zip_with]. rewrite !Z.land_0_r, !byte_mask by assumption.
  replace (u64 (Z.shiftl (digits 8 [b0; 0; 0; 0; 0; 0; 0; 0]) 56))
    with (digits 8 [0; 0; 0; 0; 0; 0; 0; b0]) by bytes_lia.
  replace (u64 (Z.shiftl (digits 8 [0; b1; 0; 0; 0; 0; 0; 0]) 40))
    with (digits 8 [0; 0; 0; 0; 0; 0; b1; 0]) by bytes_lia.
  replace (u64 (Z.shiftl (digits 8 [0; 0; b2; 0; 0; 0; 0; 0]) 24))
    with (digits 8 [0; 0; 0; 0; 0; b2; 0; 0]) by bytes_lia.
  replace (u64 (Z.shiftl (digits 8 [0; 0; 0; b3; 0; 0; 0; 0]) 8))
    with (digits 8 [0; 0; 0; 0; b3; 0; 0; 0]) by bytes_lia.
  replace (Z.shiftr (digits 8 [0; 0; 0; 0; b4; 0; 0; 0]) 8)
    with (digits 8 [0; 0; 0; b4; 0; 0; 0; 0]) by bytes_lia.
  replace (Z.shiftr (digits 8 [0; 0; 0; 0; 0; b5; 0; 0]) 24)
    with (digits 8 [0; 0; b5; 0; 0; 0; 0; 0]) by bytes_lia.
  replace (Z.shiftr (digits 8 [0; 0; 0; 0; 0; 0; b6; 0]) 40)
    with (digits 8 [0; b6; 0; 0; 0; 0; 0; 0]) by bytes_lia.
  replace (Z.shiftr (digits 8 [0; 0; 0; 0; 0; 0; 0; b7]) 56)
    with (digits 8 [b7; 0; 0; 0; 0; 0; 0; 0]) by bytes_lia.
  rewrite Z.lor_0_l.
  repeat (rewrite digits_lor by (first [lia | reflexivity | repeat constructor; unfold in_width in *; lia]);
          cbn [zip_with]; rewrite ?Z.lor_0_l, ?Z.lor_0_r).
  reflexivity.
Qed.

(** A 32- or 64-bit value as its bytes, for the two lemmas above. *)
Lemma u32_as_bytes v : 0 <= v < two32 -> exists b0 b1 b2 b3,
  v = digits 8 [b0; b1; b2; b3] /\
  in_width 8 b0 /\ in_width 8 b1 /\ in_width 8 b2 /\ in_width 8 b3.
Proof.
  intros Hv. pose proof (digits_to_bytes 4 v Hv) as E. pose proof (to_bytes_width 4 v) as W.
  cbn [to_bytes] in *. do 4 eexists. split; [symmetry; exact E |].
  rewrite !Forall_cons in W. tauto.
Qed.

Lemma u64_as_bytes v : 0 <= v < two64 -> exists b0 b1 b2 b3 b4 b5 b6 b7,
  v = digits 8 [b0; b1; b2; b3; b4; b5; b6; b7] /\
  in_width 8 b0 /\ in_width 8 b1 /\ in_width 8 b2 /\ in_width 8 b3 /\
  in_width 8 b4 /\ in_width 8 b5 /\ in_width 8 b6 /\ in_width 8 b7.
Proof.
  intros Hv. pose proof (digits_to_bytes 8 v Hv) as E. pose proof (to_bytes_width 8 v) as W.
  cbn [to_bytes] in *. do 8 eexists. split; [symmetry; exact E |].
  rewrite !Forall_cons in W. tauto.
Qed.
