(* ===== verification/Bitmap.v ===== *)
(** [libs/np-syslib/include/Bitmap.h]: bit get, set, clear and the byte-skipping
    search for a clear bit. A bitmap is its list of bytes; an access outside the
    list is undefined behaviour in the source and [Panic] here. *)

From S2P Require Import Prelude.

(** ** The operations *)

Definition BitmapGet (bitmap : list Z) (index : Z) : res bool :=
  let byte := Z.to_nat (index / 8) in
  let bit := Z.land index 7 in
  b ← deref (bitmap !! byte);
  Ok (negb (Z.land b (Z.shiftl 1 bit) =? 0)).

(** Returns whether a change was made, with the updated bitmap. *)
Definition BitmapSet (bitmap : list Z) (index : Z) : res (bool * list Z) :=
  let byte := Z.to_nat (index / 8) in
  let bit := Z.land index 7 in
  b ← deref (bitmap !! byte);
  let prev := negb (Z.land b (Z.shiftl 1 bit) =? 0) in
  Ok (negb prev, <[byte := u8 (Z.lor b (Z.shiftl 1 bit))]> bitmap).

Definition BitmapClear (bitmap : list Z) (index : Z) : res (bool * list Z) :=
  let byte := Z.to_nat (index / 8) in
  let bit := Z.land index 7 in
  b ← deref (bitmap !! byte);
  let prev := negb (Z.land b (Z.shiftl 1 bit) =? 0) in
  Ok (prev, <[byte := u8 (Z.land b (Z.lnot (Z.shiftl 1 bit)))]> bitmap).

(** The [for] loop of [BitmapFindClear] from index [i]; [fuel] bounds its
    iterations, of which there are at most [limit - i]. *)
Fixpoint BitmapFindClear_loop (fuel : nat) (bitmap : list Z) (limit i : Z) : res Z :=
  if i <? limit then
    match fuel with
    | O => OutOfFuel
    | S fuel' =>
        b ← deref (bitmap !! Z.to_nat (i / 8));
        if b =? 0xFF then BitmapFindClear_loop fuel' bitmap limit (i + 7 + 1)
        else
          g ← BitmapGet bitmap i;
          if (g : bool) then BitmapFindClear_loop fuel' bitmap limit (i + 1)
          else Ok i
    end
  else Ok limit.

Definition BitmapFindClear (bitmap : list Z) (limit : Z) : res Z :=
  BitmapFindClear_loop (Z.to_nat limit) bitmap limit 0.

(** ** The abstract bitmap *)

(** Bit [i] of the map. *)
Definition bit (bitmap : list Z) (i : Z) : bool :=
  match bitmap !! Z.to_nat (i / 8) with
  | Some b => Z.testbit b (i mod 8)
  | None => false
  end.

(** Every element is a byte. *)
Definition bytes_ok (bitmap : list Z) : Prop := Forall (fun b => 0 <= b < 256) bitmap.

(** Number of bits the map holds. *)
Definition capacity (bitmap : list Z) : Z := 8 * Z.of_nat (length bitmap).

Lemma land_bit b k : 0 <= k -> negb (Z.land b (Z.shiftl 1 k) =? 0) = Z.testbit b k.
Proof.
  intros Hk. rewrite Z.shiftl_1_l.
  destruct (Z.testbit b k) eqn:E; destruct (Z.eqb_spec (Z.land b (2 ^ k)) 0) as [Hz | Hz]; try reflexivity.
  - apply (f_equal (fun z => Z.testbit z k)) in Hz.
    rewrite Z.land_spec, Z.pow2_bits_true, E, Z.bits_0 in Hz by lia. discriminate.
  - exfalso. apply Hz. apply Z.bits_inj'. intros i Hi. rewrite Z.land_spec, Z.bits_0, Z.pow2_bits_eqb by lia.
    destruct (Z.eqb_spec k i) as [-> |]; [rewrite E |]; apply andb_false_r || reflexivity.
Qed.

Lemma land_7 i : Z.land i 7 = i mod 8.
Proof. change 7 with (2 ^ 3 - 1). rewrite land_mask_mod by lia. reflexivity. Qed.

Lemma byte_in_range bm i :
  0 <= i < capacity bm -> exists b, bm !! Z.to_nat (i / 8) = Some b.
Proof.
  unfold capacity. intros Hi. apply lookup_lt_is_Some.
  assert (i / 8 < Z.of_nat (length bm)) by (apply Z.div_lt_upper_bound; lia).
  assert (0 <= i / 8) by (apply Z.div_pos; lia). lia.
Qed.

Lemma BitmapGet_spec bm i : 0 <= i < capacity bm -> BitmapGet bm i = Ok (bit bm i).
Proof.
  intros Hi. unfold BitmapGet, bit. destruct (byte_in_range bm i Hi) as [b ->]. simpl.
  rewrite land_7, land_bit; [reflexivity |]. apply Z.mod_pos_bound. lia.
Qed.

(** The bit written by an update of one byte, and the bits it leaves. *)
Lemma bit_update bm i b v j :
  0 <= i -> 0 <= j -> bm !! Z.to_nat (i / 8) = Some b ->
  (forall k, 0 <= k < 8 -> k <> i mod 8 -> Z.testbit v k = Z.testbit b k) ->
  bit (<[Z.to_nat (i / 8) := v]> bm) j =
  if j =? i then Z.testbit v (i mod 8) else bit bm j.
Proof.
  intros Hi Hj Hb Hv. unfold bit.
  assert (0 <= i / 8 /\ 0 <= j / 8) as [? ?] by (split; apply Z.div_pos; lia).
  destruct (decide (i / 8 = j / 8)) as [E | E].
  - rewrite <- E, list_lookup_insert_eq by (eapply lookup_lt_Some; eassumption).
    rewrite Hb. destruct (Z.eqb_spec j i) as [-> | Hne]; [reflexivity |].
    apply Hv; [apply Z.mod_pos_bound; lia |]. Z.div_mod_to_equations. lia.
  - rewrite list_lookup_insert_ne by lia.
    destruct (Z.eqb_spec j i) as [-> | Hne]; [lia | reflexivity].
Qed.

(** A result describing the update of bit [i] to [v]. *)
Definition updated (bm : list Z) (i : Z) (v : bool) (bm' : list Z) : Prop :=
  (forall j, 0 <= j -> bit bm' j = if j =? i then v else bit bm j) /\
  bytes_ok bm' /\ length bm' = length bm.

Lemma byte_ok_lookup bm n b : bytes_ok bm -> bm !! n = Some b -> 0 <= b < 256.
Proof. intros Hok Hb. exact (Forall_lookup_1 _ _ _ _ Hok Hb). Qed.

Lemma u8_range z : 0 <= u8 z < 256.
Proof. apply Z.mod_pos_bound. reflexivity. Qed.

Lemma u8_testbit z k : 0 <= k < 8 -> Z.testbit (u8 z) k = Z.testbit z k.
Proof. intros Hk. unfold u8, two8. change 256 with (2 ^ 8). apply Z.mod_pow2_bits_low. lia. Qed.

Lemma BitmapSet_spec bm i :
  bytes_ok bm -> 0 <= i < capacity bm ->
  exists bm', BitmapSet bm i = Ok (negb (bit bm i), bm') /\ updated bm i true bm'.
Proof.
  intros Hok Hi. unfold BitmapSet.
  assert (Hm : 0 <= i mod 8 < 8) by (apply Z.mod_pos_bound; lia).
  destruct (byte_in_range bm i Hi) as [b Hb]. rewrite Hb. simpl.
  rewrite land_7, land_bit by lia. eexists. split.
  { f_equal. f_equal. unfold bit. rewrite Hb. reflexivity. }
  split; [| split; [| apply length_insert]].
  - intros j Hj. rewrite (bit_update _ _ b) by
      (try lia; try assumption; intros k Hk Hne;
       rewrite u8_testbit, Z.lor_spec, Z.shiftl_1_l, Z.pow2_bits_false, orb_false_r by lia; reflexivity).
    destruct (Z.eqb_spec j i); [| reflexivity].
    rewrite u8_testbit, Z.lor_spec, Z.shiftl_1_l, Z.pow2_bits_true by lia. apply orb_true_r.
  - apply Forall_insert; [assumption | apply u8_range].
Qed.

Lemma BitmapClear_spec bm i :
  bytes_ok bm -> 0 <= i < capacity bm ->
  exists bm', BitmapClear bm i = Ok (bit bm i, bm') /\ updated bm i false bm'.
Proof.
  intros Hok Hi. unfold BitmapClear.
  assert (Hm : 0 <= i mod 8 < 8) by (apply Z.mod_pos_bound; lia).
  destruct (byte_in_range bm i Hi) as [b Hb]. rewrite Hb. simpl.
  rewrite land_7, land_bit by lia. eexists. split.
  { f_equal. f_equal. unfold bit. rewrite Hb. reflexivity. }
  split; [| split; [| apply length_insert]].
  - intros j Hj. rewrite (bit_update _ _ b) by
      (try lia; try assumption; intros k Hk Hne;
       rewrite u8_testbit, Z.land_spec, Z.lnot_spec, Z.shiftl_1_l, Z.pow2_bits_false by lia;
       apply andb_true_r).
    destruct (Z.eqb_spec j i); [| reflexivity].
    rewrite u8_testbit, Z.land_spec, Z.lnot_spec, Z.shiftl_1_l, Z.pow2_bits_true by lia.
    apply andb_false_r.
  - apply Forall_insert; [assumption | apply u8_range].
Qed.

(** [r] is the first clear bit below [limit], or [limit] when there is none. *)
Definition first_clear (bm : list Z) (limit r : Z) : Prop :=
  0 <= r <= limit /\ (forall j, 0 <= j < r -> bit bm j = true) /\ (r < limit -> bit bm r = false).

Lemma full_byte bm i b j :
  bm !! Z.to_nat (i / 8) = Some b -> b = 255 -> 0 <= i -> j / 8 = i / 8 -> bit bm j = true.
Proof.
  intros Hb -> Hi E. unfold bit. rewrite E, Hb.
  assert (Hm : 0 <= j mod 8 < 8) by (apply Z.mod_pos_bound; lia).
  change 255 with (Z.ones 8). apply Z.ones_spec_low. lia.
Qed.

Lemma BitmapFindClear_loop_spec fuel : forall bm limit i,
  0 <= i -> limit <= capacity bm -> limit - i <= Z.of_nat fuel ->
  (i mod 8 = 0 \/ bm !! Z.to_nat (i / 8) <> Some 255) ->
  (forall j, 0 <= j < Z.min i limit -> bit bm j = true) -> 0 <= limit ->
  exists r, BitmapFindClear_loop fuel bm limit i = Ok r /\ first_clear bm limit r.
Proof.
  induction fuel as [| fuel IH]; intros bm limit i Hi Hcap Hf Hal Hset Hl;
    cbn [BitmapFindClear_loop]; destruct (Z.ltb_spec i limit) as [Hlt | Hge]; try lia;
    try (exists limit; split; [reflexivity |]; split; [lia |]; split; [| lia]; intros; apply Hset; lia).
  destruct (byte_in_range bm i ltac:(lia)) as [b Hb]. rewrite Hb.
  change (deref (Some b)) with (Ok b). cbn [mbind res_bind].
  destruct (Z.eqb_spec b 255) as [Hff | Hff].
  - assert (Hi8 : i mod 8 = 0) by (destruct Hal; [assumption | congruence]).
    apply IH; try lia.
    + left. Z.div_mod_to_equations. lia.
    + intros j Hj. destruct (Z.lt_ge_cases j i); [apply Hset; lia |].
      eapply full_byte; [exact Hb | exact Hff | exact Hi |]. Z.div_mod_to_equations. lia.
  - rewrite BitmapGet_spec by lia. cbn [mbind res_bind].
    destruct (bit bm i) eqn:Ebit.
    + apply IH; try lia.
      * destruct (decide ((i + 1) mod 8 = 0)) as [E | E]; [left; exact E | right].
        replace ((i + 1) / 8) with (i / 8) by (Z.div_mod_to_equations; lia).
        rewrite Hb. congruence.
      * intros j Hj. destruct (decide (j = i)) as [-> |]; [exact Ebit | apply Hset; lia].
    + exists i. split; [reflexivity |]. split; [lia |]. split; [| auto]. intros. apply Hset. lia.
Qed.

Lemma BitmapFindClear_spec bm limit :
  0 <= limit <= capacity bm ->
  exists r, BitmapFindClear bm limit = Ok r /\ first_clear bm limit r.
Proof.
  intros Hl. apply BitmapFindClear_loop_spec; try lia. left. reflexivity.
Qed.
