(* ===== verification/Random.v ===== *)
(** [libs/np-syslib/Random.cpp]: the xoshiro256** generator the allocators use to
    overwrite memory, and the splitmix64 sequence that seeds it. *)

From S2P Require Import Prelude.

(** ** State *)

Record XoshiroRng : Type := mkRng { s0 : Z; s1 : Z; s2 : Z; s3 : Z }.

(** The static [initState] at program start. *)
Definition initState0 : Z := 0x6E6F727468706F72.

Definition NextInitValue (initState : Z) : Z * Z :=
  let initState := u64 (initState + 0x9e3779b97f4a7c15) in
  let z := initState in
  let z := u64 (Z.lxor z (Z.shiftr z 30) * 0xbf58476d1ce4e5b9) in
  let z := u64 (Z.lxor z (Z.shiftr z 27) * 0x94d049bb133111eb) in
  (Z.lxor z (Z.shiftr z 31), initState).

(** The constructor: four seed values, and the advanced [initState]. *)
Definition XoshiroRng_ctor (initState : Z) : XoshiroRng * Z :=
  let '(a, initState) := NextInitValue initState in
  let '(b, initState) := NextInitValue initState in
  let '(c, initState) := NextInitValue initState in
  let '(d, initState) := NextInitValue initState in
  (mkRng a b c d, initState).

Definition Rotl (x k : Z) : Z := Z.lor (u64 (Z.shiftl x k)) (Z.shiftr x (64 - k)).

Definition Next (st : XoshiroRng) : Z * XoshiroRng :=
  let result := u64 (Rotl (u64 (s1 st * 5)) 7 * 9) in
  let t := u64 (Z.shiftl (s1 st) 17) in
  let state2 := Z.lxor (s2 st) (s0 st) in
  let state3 := Z.lxor (s3 st) (s1 st) in
  let state1 := Z.lxor (s1 st) state2 in
  let state0 := Z.lxor (s0 st) state3 in
  let state2 := Z.lxor state2 t in
  let state3 := Rotl state3 45 in
  (result, mkRng state0 state1 state2 state3).

(** ** The generator never reaches the all-zero state *)

Definition rng_zero : XoshiroRng := mkRng 0 0 0 0.

Definition rng_ok (st : XoshiroRng) : Prop :=
  0 <= s0 st < two64 /\ 0 <= s1 st < two64 /\ 0 <= s2 st < two64 /\ 0 <= s3 st < two64.

Lemma Rotl_zero_inv x k : 0 <= x < two64 -> 0 < k < 64 -> Rotl x k = 0 -> x = 0.
Proof.
  intros Hx Hk H. apply Z.lor_eq_0_iff in H as [Hl Hr].
  rewrite Z.shiftr_div_pow2 in Hr by lia.
  unfold u64 in Hl. rewrite Z.shiftl_mul_pow2 in Hl by lia.
  assert (Hp : two64 = 2 ^ k * 2 ^ (64 - k)).
  { rewrite <- Z.pow_add_r by lia. replace (k + (64 - k)) with 64 by lia. reflexivity. }
  assert (0 < 2 ^ k /\ 0 < 2 ^ (64 - k)) as [? ?] by lia.
  assert (x < 2 ^ (64 - k)).
  { pose proof (Z.mul_succ_div_gt x (2 ^ (64 - k))). nia. }
  rewrite Z.mod_small in Hl; nia.
Qed.

(** No non-zero word is fixed by a left shift. *)
Lemma shl_fixed_zero x k : 0 < k -> 0 <= x < two64 -> x = u64 (Z.shiftl x k) -> x = 0.
Proof.
  intros Hk Hx E. apply Z.bits_inj_0. intros i.
  destruct (Z.lt_ge_cases i 0) as [Hn | Hi]; [apply Z.testbit_neg_r; exact Hn |].
  revert i Hi. apply (Z_lt_induction (fun i => Z.testbit x i = false)).
  intros i IH. destruct (Z.lt_ge_cases i 0) as [Hn | Hi]; [apply Z.testbit_neg_r; exact Hn |].
  rewrite E. unfold u64. change two64 with (2 ^ 64).
  destruct (Z.lt_ge_cases i 64); [| apply Z.mod_pow2_bits_high; lia].
  rewrite Z.mod_pow2_bits_low, Z.shiftl_spec by lia.
  destruct (Z.lt_ge_cases (i - k) 0); [apply Z.testbit_neg_r; lia |].
  apply IH; lia.
Qed.

Lemma lxor_width k a b : 0 <= k -> 0 <= a < 2 ^ k -> 0 <= b < 2 ^ k -> 0 <= Z.lxor a b < 2 ^ k.
Proof.
  intros Hk Ha Hb. assert (0 <= Z.lxor a b) by (apply Z.lxor_nonneg; lia).
  split; [assumption |]. apply bits_below; [assumption .. |].
  intros i Hi. rewrite Z.lxor_spec, !(testbit_high k) by lia. reflexivity.
Qed.

Lemma Rotl_range x k : 0 <= x < two64 -> 0 <= k <= 64 -> 0 <= Rotl x k < two64.
Proof.
  intros Hx Hk. unfold Rotl. change two64 with (2 ^ 64). apply lor_width; [lia | apply u64_range |].
  rewrite Z.shiftr_div_pow2 by lia. change (2 ^ 64) with two64.
  assert (0 < 2 ^ (64 - k)) by lia.
  split; [apply Z.div_pos; lia |]. apply Z.div_lt_upper_bound; nia.
Qed.

Lemma Next_ok st : rng_ok st -> 0 <= fst (Next st) < two64 /\ rng_ok (snd (Next st)).
Proof.
  intros (H0 & H1 & H2 & H3). split; [apply u64_range |].
  assert (X : forall a b, 0 <= a < two64 -> 0 <= b < two64 -> 0 <= Z.lxor a b < two64).
  { intros a b. apply (lxor_width 64). lia. }
  unfold rng_ok, Next; cbn [snd s0 s1 s2 s3].
  split; [| split; [| split]]; try apply Rotl_range; try lia; repeat apply X; try assumption; apply u64_range.
Qed.

(** The transition has no way back to the dead state: a live generator stays live. *)
Lemma Next_nonzero st : rng_ok st -> snd (Next st) = rng_zero -> st = rng_zero.
Proof.
  intros (H0 & H1 & H2 & H3) H. unfold Next, rng_zero in H. cbn [snd] in H.
  injection H as E0 E1 E2 E3.
  assert (E31 : Z.lxor (s3 st) (s1 st) = 0).
  { eapply Rotl_zero_inv; [| | exact E3]; [| lia].
    change two64 with (2 ^ 64) in *. apply lxor_width; lia. }
  rewrite E31, Z.lxor_0_r in E0. rewrite E0, Z.lxor_0_r in E1, E2.
  apply Z.lxor_eq in E31, E1, E2.
  assert (Hs1 : s1 st = 0).
  { eapply (shl_fixed_zero _ 17); [lia | exact H1 |]. rewrite E1 at 1. exact E2. }
  destruct st as [a b c d]; simpl in *. unfold rng_zero. congruence.
Qed.
