(* ===== verification/Pmm.v ===== *)
(** [kernel/memory/Pmm.cpp], [kernel/include/memory/Pmm.h]: the physical memory
    manager after initialisation. A freelist of page runs threaded through the
    free pages themselves serves single-page requests, bitmaped contiguous zones
    serve longer ones. [PmmInit.v] models how the structures are built. *)

From S2P Require Import Prelude Maths Bitmap Random.

Definition PageSize : Z := 0x1000.

(** ** Data *)

(** Zones and segments are singly linked in the source and only ever pushed or
    walked: they are lists in link order here. The bitmap of a zone is its bytes. *)
Record PmContigZone : Type := mkZone {
  zbitmap : list Z;
  zbase : Z;
  zcount : Z
}.

Record PmInfoSegment : Type := mkSegment {
  segbase : Z;
  seglength : Z;
  seginfo : Z    (* address of the first PageInfo *)
}.

(** [mem] holds the 64-bit words of the direct-mapped (HHDM) physical memory by
    virtual address: the [PmFreeEntry] at address [a] has [next] in the word at
    [a] and [runLength] in the word at [a + 8]. A null pointer is 0. *)
Record PMM : Type := mkPMM {
  zones : list PmContigZone;
  segments : list PmInfoSegment;
  freelist_head : Z;
  mem : gmap Z Z;
  rng : XoshiroRng;
  trashAfterUse : bool;
  trashBeforeUse : bool
}.

Definition load (m : gmap Z Z) (a : Z) : Z := default 0 (m !! a).
Definition entry_next (m : gmap Z Z) (e : Z) : Z := load m e.
Definition entry_runLength (m : gmap Z Z) (e : Z) : Z := load m (e + 8).

Definition set_freelist (s : PMM) (h : Z) (m : gmap Z Z) (r : XoshiroRng) : PMM :=
  mkPMM (zones s) (segments s) h m r (trashAfterUse s) (trashBeforeUse s).
Definition set_zones (s : PMM) (z : list PmContigZone) (m : gmap Z Z) (r : XoshiroRng) : PMM :=
  mkPMM z (segments s) (freelist_head s) m r (trashAfterUse s) (trashBeforeUse s).

(** [for (i = 0; i < n; i++) access[i] = rng.Next();] *)
Fixpoint trash_words (n : nat) (access : Z) (m : gmap Z Z) (r : XoshiroRng) : gmap Z Z * XoshiroRng :=
  match n with
  | O => (m, r)
  | S n' =>
      let '(v, r) := Next r in
      trash_words n' (access + 8) (<[access := v]> m) r
  end.

(** Words of a page: [PageSize / sizeof(uint64_t)]. *)
Definition PageWords : nat := 512.

Definition trash_page (access : Z) (m : gmap Z Z) (r : XoshiroRng) : gmap Z Z * XoshiroRng :=
  trash_words PageWords access m r.

(** ** Lookup *)

Section Sizes.
(** [sizeof(PageInfo)]. *)
Variable sizeofPageInfo : Z.

Fixpoint Lookup_scan (segs : list PmInfoSegment) (physAddr : Z) : option Z :=
  match segs with
  | [] => None
  | scan :: rest =>
      if (physAddr <? segbase scan) || (u64 (segbase scan + seglength scan) <=? physAddr)
      then Lookup_scan rest physAddr
      else
        let index := (physAddr - segbase scan) / PageSize in
        Some (u64 (seginfo scan + index * sizeofPageInfo))
  end.

Definition Lookup (s : PMM) (physAddr : Z) : option Z := Lookup_scan (segments s) physAddr.
End Sizes.

(** ** Allocation *)

(** The bit scan of one contiguous zone: [n] is the number of bits left, the
    result is the final [(runningCount, runStartIndex)]. *)
Fixpoint zone_scan (n : nat) (bitmap : list Z) (i count runningCount runStartIndex : Z)
  : res (Z * Z) :=
  match n with
  | O => Ok (runningCount, runStartIndex)
  | S n' =>
      b ← BitmapGet bitmap i;
      if (b : bool) then zone_scan n' bitmap (i + 1) count 0 runStartIndex
      else
        let runStartIndex := if runningCount =? 0 then i else runStartIndex in
        let runningCount := runningCount + 1 in
        if runningCount =? count then Ok (runningCount, runStartIndex)
        else zone_scan n' bitmap (i + 1) count runningCount runStartIndex
  end.

(** [for (i = start; i < start + n; i++) BitmapSet(bitmap, i);] *)
Fixpoint set_bits (n : nat) (bitmap : list Z) (i : Z) : res (list Z) :=
  match n with
  | O => Ok bitmap
  | S n' => '(_, bitmap) ← BitmapSet bitmap i; set_bits n' bitmap (i + 1)
  end.

(** The search over the zones: the chosen page and the updated zone list, or
    [None] when no zone has [count] consecutive clear bits. *)
Fixpoint zones_alloc (zs : list PmContigZone) (count : Z) : res (option (Z * list PmContigZone)) :=
  match zs with
  | [] => Ok None
  | zone :: rest =>
      '(runningCount, runStartIndex) ← zone_scan (Z.to_nat (zcount zone)) (zbitmap zone) 0 count 0 0;
      if negb (runningCount =? count) then
        r ← zones_alloc rest count;
        Ok (match r with
            | Some (p, rest') => Some (p, zone :: rest')
            | None => None
            end)
      else
        bm ← set_bits (Z.to_nat count) (zbitmap zone) runStartIndex;
        Ok (Some (u64 (zbase zone + runStartIndex * PageSize),
                  mkZone bm (zbase zone) (zcount zone) :: rest))
  end.

Section Hhdm.
(** The base of the higher-half direct map. *)
Variable hhdmBase : Z.

(** The single-page path of [PMM::Alloc]. *)
Definition Alloc_one (s : PMM) : res (Z * PMM) :=
  let freeEntry := freelist_head s in
  assert_ (negb (freeEntry =? 0));;
  let m := mem s in
  let '(h, m) :=
    if 1 <? entry_runLength m freeEntry then
      let nextHead := u64 (freeEntry + PageSize) in
      let m1 := <[nextHead + 8 := u64 (entry_runLength m freeEntry - 1)]> m in
      let m2 := <[nextHead := entry_next m1 freeEntry]> m1 in
      (nextHead, m2)
    else (entry_next m freeEntry, m) in
  let '(m, r) := if trashBeforeUse s then trash_page freeEntry m (rng s) else (m, rng s) in
  Ok (u64 (freeEntry - hhdmBase), set_freelist s h m r).

(** [uintptr_t PMM::Alloc(size_t count)]; address 0 means failure. *)
Definition Alloc (s : PMM) (count : Z) : res (Z * PMM) :=
  if count =? 0 then Ok (0, s)
  else if count =? 1 then Alloc_one s
  else
    found ← zones_alloc (zones s) count;
    match found with
    | None => Ok (0, s)
    | Some (page, zs) =>
        let '(m, r) := if trashBeforeUse s then trash_page page (mem s) (rng s) else (mem s, rng s) in
        Ok (page, set_zones s zs m r)
    end.

(** ** Free *)

(** The loop over the [count] pages being returned to a zone. *)
Fixpoint zone_free (n : nat) (trash : bool) (base i : Z) (bitmap : list Z)
    (m : gmap Z Z) (r : XoshiroRng) : res (list Z * gmap Z Z * XoshiroRng) :=
  match n with
  | O => Ok (bitmap, m, r)
  | S n' =>
      '(_, bitmap) ← BitmapClear bitmap i;
      let '(m, r) := if trash then trash_page (u64 (base + hhdmBase)) m r else (m, r) in
      zone_free n' trash base (i + 1) bitmap m r
  end.

(** Whether [base] lies in the zone. *)
Definition in_zone (zone : PmContigZone) (base : Z) : bool :=
  negb ((base <? zbase zone) || (u64 (zbase zone + zcount zone * PageSize) <=? base)).

Fixpoint zones_free (zs : list PmContigZone) (trash : bool) (base count : Z)
    (m : gmap Z Z) (r : XoshiroRng) : res (option (list PmContigZone * gmap Z Z * XoshiroRng)) :=
  match zs with
  | [] => Ok None
  | zone :: rest =>
      if in_zone zone base then
        let beginIndex := (base - zbase zone) / PageSize in
        '(bm, m, r) ← zone_free (Z.to_nat count) trash base beginIndex (zbitmap zone) m r;
        Ok (Some (mkZone bm (zbase zone) (zcount zone) :: rest, m, r))
      else
        x ← zones_free rest trash base count m r;
        Ok (match x with
            | Some (rest', m, r) => Some (zone :: rest', m, r)
            | None => None
            end)
  end.

(** [void PMM::Free(uintptr_t base, size_t count)]. *)
Definition Free (s : PMM) (base count : Z) : res PMM :=
  if (base =? 0) || (count =? 0) then Ok s
  else
    let base :=
      if negb (Z.land base (PageSize - 1) =? 0) then Z.land base (not64 (PageSize - 1)) else base in
    x ← zones_free (zones s) (trashAfterUse s) base count (mem s) (rng s);
    match x with
    | Some (zs, m, r) => Ok (set_zones s zs m r)
    | None =>
        if negb (count =? 1) then Ok s
        else
          let freeEntry := u64 (base + hhdmBase) in
          let m := <[freeEntry + 8 := 1]> (mem s) in
          let m := <[freeEntry := freelist_head s]> m in
          let h := freeEntry in
          let '(m, r) :=
            if trashAfterUse s then trash_page (u64 (base + hhdmBase)) m (rng s) else (m, rng s) in
          Ok (set_freelist s h m r)
    end.
End Hhdm.
