(* ===== verification/PmmProofs.v ===== *)
(** Correctness of the physical memory manager of [Pmm.v] against an abstract
    allocator whose state is the set of free page frames. *)

From S2P Require Import Prelude Maths Bitmap Random Pmm.

(** ** Word memory *)

Lemma load_insert_eq m a v : load (<[a := v]> m) a = v.
Proof. unfold load. rewrite lookup_insert_eq. reflexivity. Qed.

Lemma load_insert_ne m a b v : a <> b -> load (<[a := v]> m) b = load m b.
Proof. intros H. unfold load. rewrite lookup_insert_ne by assumption. reflexivity. Qed.

Lemma trash_words_frame n : forall access m r x,
  (x < access \/ access + 8 * Z.of_nat n <= x) ->
  load (fst (trash_words n access m r)) x = load m x.
Proof.
  induction n as [| n IH]; intros access m r x Hx; [reflexivity |]. cbn [trash_words].
  destruct (Next r) as [v r']. rewrite IH by lia. apply load_insert_ne. lia.
Qed.

Lemma trash_page_frame a m r x :
  (x < a \/ a + PageSize <= x) -> load (fst (trash_page a m r)) x = load m x.
Proof. intros Hx. apply trash_words_frame. unfold PageSize, PageWords in *. lia. Qed.

(** The optional trashing leaves the words outside the page alone. *)
Lemma trash_if_frame (b : bool) a m r x :
  (x < a \/ a + PageSize <= x) ->
  load (fst (if b then trash_page a m r else (m, r))) x = load m x.
Proof. destruct b; [apply trash_page_frame | reflexivity]. Qed.

(** ** The freelist as a list of runs *)

Inductive chain (m : gmap Z Z) : Z -> list (Z * Z) -> Prop :=
| chain_nil : chain m 0 []
| chain_cons a rest :
    a <> 0 -> chain m (entry_next m a) rest ->
    chain m a ((a, entry_runLength m a) :: rest).

(** The page addresses of a run, and of all runs. *)
Definition run_pages (run : Z * Z) : list Z :=
  (fun i => run.1 + Z.of_nat i * PageSize) <$> (seq 0 (Z.to_nat run.2)).
Definition list_pages (runs : list (Z * Z)) : list Z := concat (run_pages <$> runs).

Lemma run_pages_cons a n : 0 < n -> run_pages (a, n) = a :: run_pages (a + PageSize, n - 1).
Proof.
  intros Hn. unfold run_pages. simpl. replace (Z.to_nat n) with (S (Z.to_nat (n - 1))) by lia.
  cbn [seq fmap list_fmap]. f_equal; [lia |]. rewrite <- fmap_S_seq, <- list_fmap_compose.
  apply list_fmap_ext. intros i x _. simpl. lia.
Qed.

Lemma run_pages_one a : run_pages (a, 1) = [a].
Proof. rewrite run_pages_cons by lia. reflexivity. Qed.

(** A chain only depends on the two words of each run's first page. *)
Lemma chain_frame m m' h runs :
  chain m h runs ->
  (forall a n, (a, n) ∈ runs -> load m' a = load m a /\ load m' (a + 8) = load m (a + 8)) ->
  chain m' h runs.
Proof.
  induction 1 as [| a rest Ha Hc IH]; intros Hf; [constructor |].
  destruct (Hf a _ (list_elem_of_here _ _)) as [E1 E2].
  assert (En : entry_next m a = entry_next m' a) by (symmetry; exact E1).
  assert (Er : entry_runLength m a = entry_runLength m' a) by (symmetry; exact E2).
  rewrite Er. constructor; [assumption |]. rewrite <- En. apply IH.
  intros b n Hb. apply (Hf b n). apply list_elem_of_further. assumption.
Qed.

Lemma chain_inv m h a n rest :
  chain m h ((a, n) :: rest) ->
  h = a /\ a <> 0 /\ n = entry_runLength m a /\ chain m (entry_next m a) rest.
Proof. inversion 1; subst. auto. Qed.

Lemma list_pages_cons run runs : list_pages (run :: runs) = run_pages run ++ list_pages runs.
Proof. reflexivity. Qed.

Lemma run_pages_elem a n i : 0 <= i < n -> a + i * PageSize ∈ run_pages (a, n).
Proof.
  intros Hi. unfold run_pages. apply list_elem_of_fmap. exists (Z.to_nat i). simpl.
  split; [rewrite Z2Nat.id by lia; reflexivity |]. apply elem_of_seq. lia.
Qed.

Section Hhdm.
Variable hhdmBase : Z.

(** A direct-mapped page frame other than frame 0. *)
Definition page_ok (a : Z) : Prop :=
  hhdmBase < a /\ a + PageSize <= two64 /\ a mod PageSize = 0.

Record freelist_ok (m : gmap Z Z) (h : Z) (runs : list (Z * Z)) : Prop := {
  fl_chain : chain m h runs;
  fl_runs : Forall (fun run => 0 < run.2) runs;
  fl_pages : Forall page_ok (list_pages runs);
  fl_nodup : NoDup (list_pages runs)
}.

(** The direct map starts on a page boundary. *)
Definition hhdm_ok : Prop := 0 <= hhdmBase /\ hhdmBase mod PageSize = 0.

Lemma run_head_page runs a n :
  Forall (fun run => 0 < run.2) runs -> (a, n) ∈ runs -> a ∈ list_pages runs.
Proof.
  intros Hr Hin. unfold list_pages. apply list_elem_of_In, in_concat.
  rewrite Forall_forall in Hr. specialize (Hr _ Hin). simpl in Hr.
  exists (run_pages (a, n)). split.
  - apply in_map_iff. exists (a, n). split; [reflexivity | apply list_elem_of_In, Hin].
  - rewrite run_pages_cons by assumption. left. reflexivity.
Qed.

(** Distinct pages are at least a page apart. *)
Lemma pages_apart a b : page_ok a -> page_ok b -> a <> b ->
  a + PageSize <= b \/ b + PageSize <= a.
Proof. intros (_ & _ & Ha) (_ & _ & Hb) Hne. unfold PageSize in *. Z.div_mod_to_equations. lia. Qed.

(** The freelist survives a memory change that spares its pages. *)
Lemma freelist_frame m m' h runs :
  freelist_ok m h runs ->
  (forall a, a ∈ list_pages runs -> load m' a = load m a /\ load m' (a + 8) = load m (a + 8)) ->
  freelist_ok m' h runs.
Proof.
  intros [Hc Hr Hp Hnd] Hf. split; try assumption.
  eapply chain_frame; [exact Hc |]. intros a n Hin. apply Hf. eapply run_head_page; eassumption.
Qed.

(** Changes confined to one page outside the list are spared. *)
Lemma freelist_frame_page m m' h runs p :
  freelist_ok m h runs -> page_ok p -> p ∉ list_pages runs ->
  (forall x, x < p \/ p + PageSize <= x -> load m' x = load m x) ->
  freelist_ok m' h runs.
Proof.
  intros Hf Hp Hni Hx. eapply freelist_frame; [exact Hf |]. intros a Ha.
  assert (Hpa : page_ok a) by (destruct Hf as [_ _ Hall _]; rewrite Forall_forall in Hall; auto).
  pose proof (pages_apart a p Hpa Hp ltac:(congruence)). unfold PageSize in *.
  split; apply Hx; lia.
Qed.

Lemma freelist_cons m a runs next :
  freelist_ok m next runs -> page_ok a -> a ∉ list_pages runs -> 0 <= hhdmBase ->
  load m a = next -> load m (a + 8) = 1 -> freelist_ok m a ((a, 1) :: runs).
Proof.
  intros [Hc Hr Hp Hnd] Ha Hni H0 En Er. split.
  - rewrite <- Er. constructor; [destruct Ha; lia |]. unfold entry_next. rewrite En. assumption.
  - constructor; [simpl; lia | assumption].
  - rewrite list_pages_cons, run_pages_one. constructor; assumption.
  - rewrite list_pages_cons, run_pages_one. apply NoDup_cons. auto.
Qed.

(** The list after its first page is cut off. *)
Definition pop_runs (runs : list (Z * Z)) : list (Z * Z) :=
  match runs with
  | [] => []
  | (a, n) :: rest => if 1 <? n then ((a + PageSize, n - 1) :: rest) else rest
  end.

Lemma pop_runs_pages a n rest :
  0 < n -> list_pages ((a, n) :: rest) = a :: list_pages (pop_runs ((a, n) :: rest)).
Proof.
  intros Hn. rewrite list_pages_cons, run_pages_cons by assumption. simpl.
  destruct (Z.ltb_spec 1 n); [reflexivity |]. replace n with 1 by lia. reflexivity.
Qed.

Lemma freelist_pop m h a n rest :
  0 <= hhdmBase -> freelist_ok m h ((a, n) :: rest) ->
  page_ok a /\ h = a /\ (a ∉ list_pages (pop_runs ((a, n) :: rest))) /\ 0 < n < two64 /\
  n = entry_runLength m a /\ chain m (entry_next m a) rest /\
  Forall (fun run => 0 < run.2) (pop_runs ((a, n) :: rest)) /\
  Forall page_ok (list_pages (pop_runs ((a, n) :: rest))) /\
  NoDup (list_pages (pop_runs ((a, n) :: rest))) /\
  (1 < n -> page_ok (a + PageSize)).
Proof.
  intros H0 [Hc Hr Hp Hnd]. apply chain_inv in Hc as (-> & Ha & Hn & Hc).
  apply Forall_cons in Hr as [Hn0 Hr]. simpl in Hn0.
  assert (Hpage : forall i, 0 <= i < n -> page_ok (a + i * PageSize)).
  { intros i Hi. rewrite Forall_forall in Hp. apply Hp. rewrite list_pages_cons.
    apply elem_of_app. left. apply run_pages_elem. assumption. }
  rewrite pop_runs_pages in Hp, Hnd by assumption.
  apply Forall_cons in Hp as [Hpa Hp]. apply NoDup_cons in Hnd as [Hni Hnd].
  assert (Hn64 : 0 < n < two64).
  { pose proof (Hpage (n - 1) ltac:(lia)) as (_ & Hy & _). destruct Hpa as (Hz & _).
    unfold PageSize in *. lia. }
  assert (Hnext : 1 < n -> page_ok (a + PageSize)).
  { intros H1. pose proof (Hpage 1 ltac:(lia)) as X. rewrite Z.mul_1_l in X. exact X. }
  assert (Hruns : Forall (fun run => 0 < run.2) (pop_runs ((a, n) :: rest))).
  { simpl. destruct (Z.ltb_spec 1 n); [constructor; [simpl; lia |] |]; assumption. }
  auto 20.
Qed.

(** The first run of a well-formed freelist fits the address space. *)
Lemma freelist_head_bound m h runs :
  0 <= hhdmBase -> freelist_ok m h runs -> h <> 0 -> entry_runLength m h <= 2 ^ 52.
Proof.
  intros H0 [Hc Hr Hp _] Hh. inversion Hc as [Hz | a rest Ha Hc' E1 E2]; [congruence |]. subst.
  apply Forall_cons in Hr as [Hn _]. simpl in Hn. set (n := entry_runLength m h) in *.
  rewrite Forall_forall in Hp. destruct (Hp (h + (n - 1) * PageSize)) as (_ & Hb & _).
  { rewrite list_pages_cons. apply elem_of_app. left. apply run_pages_elem. lia. }
  destruct (Hp (h + 0 * PageSize)) as (Hlo & _).
  { rewrite list_pages_cons. apply elem_of_app. left. apply run_pages_elem. lia. }
  unfold PageSize, two64 in *. lia.
Qed.

(** Memory and head after the freelist part of [Alloc_one]. *)
Lemma pop_memory m a n rest :
  0 <= hhdmBase -> freelist_ok m a ((a, n) :: rest) ->
  let '(h, m') :=
    if 1 <? entry_runLength m a then
      let nextHead := u64 (a + PageSize) in
      let m1 := <[nextHead + 8 := u64 (entry_runLength m a - 1)]> m in
      let m2 := <[nextHead := entry_next m1 a]> m1 in
      (nextHead, m2)
    else (entry_next m a, m) in
  freelist_ok m' h (pop_runs ((a, n) :: rest)).
Proof.
  intros H0 Hf. destruct (freelist_pop _ _ _ _ _ H0 Hf)
    as (Hpa & _ & Hni & Hn & En & Hc & Hr & Hp & Hnd & Hnext).
  rewrite <- En. destruct (Z.ltb_spec 1 n) as [Hlt | Hge].
  2: { simpl in *. rewrite (proj2 (Z.ltb_ge 1 n)) in * by lia. split; assumption. }
  specialize (Hnext Hlt). cbv zeta.
  rewrite (u64_small (a + PageSize)) by (destruct Hnext, Hpa; unfold PageSize in *; lia).
  rewrite (u64_small (n - 1)) by lia.
  set (b := a + PageSize) in *.
  assert (Hne : entry_next (<[b + 8 := n - 1]> m) a = entry_next m a).
  { apply load_insert_ne. subst b. unfold PageSize. lia. }
  rewrite Hne. set (m' := <[b := entry_next m a]> (<[b + 8 := n - 1]> m)).
  assert (Epop : pop_runs ((a, n) :: rest) = (b, n - 1) :: rest).
  { simpl. rewrite (proj2 (Z.ltb_lt 1 n)) by lia. reflexivity. }
  rewrite Epop in *. split; try assumption.
  assert (Er : entry_runLength m' b = n - 1).
  { unfold entry_runLength, m'. rewrite load_insert_ne, load_insert_eq by lia. reflexivity. }
  rewrite <- Er. constructor; [destruct Hnext; lia |].
  replace (entry_next m' b) with (entry_next m a) by (symmetry; apply load_insert_eq).
  eapply chain_frame; [exact Hc |]. intros c k Hin.
  apply Forall_cons in Hr as [_ Hr]. pose proof (run_head_page _ _ _ Hr Hin) as Hcp.
  rewrite list_pages_cons in Hp, Hnd. apply Forall_app in Hp as [_ Hp].
  assert (Hcok : page_ok c) by (rewrite Forall_forall in Hp; auto).
  assert (Hcb : c <> b).
  { intros ->. apply NoDup_app in Hnd as (_ & Hd & _). apply (Hd b); [| assumption].
    rewrite run_pages_cons by lia. apply list_elem_of_here. }
  pose proof (pages_apart c b Hcok Hnext Hcb). unfold m', PageSize in *.
  split; rewrite !load_insert_ne by lia; reflexivity.
Qed.

(** A single page is taken from the front of the freelist. *)
Lemma Alloc_one_spec s a n rest :
  hhdm_ok -> freelist_ok (mem s) (freelist_head s) ((a, n) :: rest) ->
  exists s',
    Alloc_one hhdmBase s = Ok (a - hhdmBase, s') /\
    freelist_ok (mem s') (freelist_head s') (pop_runs ((a, n) :: rest)) /\
    zones s' = zones s /\ segments s' = segments s /\
    trashAfterUse s' = trashAfterUse s /\ trashBeforeUse s' = trashBeforeUse s.
Proof.
  intros [H0 _] Hf. destruct (freelist_pop _ _ _ _ _ H0 Hf)
    as (Hpa & Hh & Hni & Hn & En & _ & _ & _ & _ & _).
  rewrite Hh in Hf. pose proof (pop_memory _ _ _ _ H0 Hf) as Hpop.
  unfold Alloc_one. rewrite Hh.
  destruct Hpa as (Ha1 & Ha2 & Ha3). rewrite (proj2 (Z.eqb_neq a 0)) by lia.
  cbn [assert_ negb mbind res_bind].
  rewrite (u64_small (a - hhdmBase)) by (unfold PageSize in *; lia).
  destruct (if 1 <? entry_runLength (mem s) a then _ else _) as [h m'].
  destruct (if trashBeforeUse s then trash_page a m' (rng s) else (m', rng s)) as [m2 r2] eqn:Et.
  eexists. split; [reflexivity |]. simpl. split; [| auto].
  eapply freelist_frame_page; [exact Hpop | repeat split; eassumption | exact Hni |].
  intros x Hx. pose proof (trash_if_frame (trashBeforeUse s) a m' (rng s) x Hx) as E.
  rewrite Et in E. exact E.
Qed.
End Hhdm.

(** ** Contiguous zones *)

Definition free_run (bm : list Z) (st count : Z) : Prop :=
  forall j, st <= j < st + count -> bit bm j = false.

Record zone_ok (z : PmContigZone) : Prop := {
  z_bytes : bytes_ok (zbitmap z);
  z_count : 0 <= zcount z <= capacity (zbitmap z);
  z_base : 0 < zbase z;
  z_top : zbase z + zcount z * PageSize < two64;
  z_align : zbase z mod PageSize = 0
}.

(** First fit: the scan ends on the lowest run of [count] clear bits, or shows
    that the zone has none. *)
Definition scan_result (bm : list Z) (zcount count rc st : Z) : Prop :=
  if rc =? count
  then 0 <= st /\ st + count <= zcount /\ free_run bm st count /\
       (forall st', 0 <= st' < st -> ~ free_run bm st' count)
  else forall st', 0 <= st' -> st' + count <= zcount -> ~ free_run bm st' count.

Lemma zone_scan_spec n : forall bm i zc count rc st,
  0 <= i -> i + Z.of_nat n = zc -> zc <= capacity bm ->
  0 <= rc < count -> (rc = 0 \/ st = i - rc) -> rc <= i ->
  free_run bm (i - rc) rc ->
  (forall st', 0 <= st' < i - rc -> ~ free_run bm st' count) ->
  exists rc' st', zone_scan n bm i count rc st = Ok (rc', st') /\ scan_result bm zc count rc' st'.
Proof.
  induction n as [| n IH]; intros bm i zc count rc st Hi Hn Hcap Hrc Hst Hle Hrun Hno; cbn [zone_scan].
  { exists rc, st. split; [reflexivity |]. unfold scan_result.
    rewrite (proj2 (Z.eqb_neq rc count)) by lia. intros st' H0 H1. apply Hno. lia. }
  rewrite BitmapGet_spec by lia. cbn [mbind res_bind].
  destruct (bit bm i) eqn:Eb.
  - apply IH; try lia.
    + intros j Hj. lia.
    + intros st' Hs Hfree. destruct (Z.lt_ge_cases st' (i - rc)) as [Hlt | Hge].
      * apply (Hno st'); [lia | exact Hfree].
      * specialize (Hfree i). rewrite Eb in Hfree. discriminate Hfree. lia.
  - assert (Hrun' : free_run bm (i - rc) (rc + 1)).
    { intros j Hj. destruct (decide (j = i)) as [-> | Hne]; [exact Eb | apply Hrun; lia]. }
    assert (Est : (if rc =? 0 then i else st) = i - rc) by case_cmps.
    rewrite Est. destruct (Z.eqb_spec (rc + 1) count) as [E | E].
    + exists (rc + 1), (i - rc). split; [reflexivity |]. unfold scan_result.
      rewrite (proj2 (Z.eqb_eq _ _) E). rewrite <- E. repeat split; try lia; [assumption |].
      intros st' Hs. rewrite E. apply Hno. lia.
    + apply IH; try lia.
      * replace (i + 1 - (rc + 1)) with (i - rc) by lia. assumption.
      * intros st' Hs. apply Hno. lia.
Qed.

Lemma set_bits_spec n : forall bm i,
  bytes_ok bm -> 0 <= i -> i + Z.of_nat n <= capacity bm ->
  exists bm', set_bits n bm i = Ok bm' /\ bytes_ok bm' /\ length bm' = length bm /\
    forall j, 0 <= j ->
      bit bm' j = if (i <=? j) && (j <? i + Z.of_nat n) then true else bit bm j.
Proof.
  induction n as [| n IH]; intros bm i Hok Hi Hcap; cbn [set_bits].
  { exists bm. repeat split; try assumption. intros j Hj. case_cmps; try reflexivity. }
  destruct (BitmapSet_spec bm i Hok ltac:(lia)) as (bm1 & -> & Hb & Hok1 & Hlen1).
  cbn [mbind res_bind].
  destruct (IH bm1 (i + 1) Hok1 ltac:(lia)) as (bm2 & -> & Hok2 & Hlen2 & Hb2).
  { unfold capacity in *. rewrite Hlen1. lia. }
  exists bm2. repeat split; try assumption; [congruence |].
  intros j Hj. rewrite Hb2, Hb by assumption. case_cmps; reflexivity.
Qed.

(** The page frames of a zone with a clear bit. *)
Definition zone_free_page (z : PmContigZone) (p : Z) : Prop :=
  exists i, 0 <= i < zcount z /\ p = zbase z + i * PageSize /\ bit (zbitmap z) i = false.

Definition zone_has (z : PmContigZone) (p : Z) : Prop :=
  zbase z <= p < zbase z + zcount z * PageSize.

Definition zones_free_page (zs : list PmContigZone) (p : Z) : Prop :=
  exists z, z ∈ zs /\ zone_free_page z p.

Fixpoint zones_disjoint (zs : list PmContigZone) : Prop :=
  match zs with
  | [] => True
  | z :: rest =>
      (forall z' p, z' ∈ rest -> zone_has z p -> zone_has z' p -> False) /\ zones_disjoint rest
  end.

(** [p] is one of the [count] frames from [base]. *)
Definition in_block (base count p : Z) : Prop :=
  exists i, 0 <= i < count /\ p = base + i * PageSize.

(** [z'] is [z] with some bits of its map changed. *)
Definition same_zone (z z' : PmContigZone) : Prop := zbase z' = zbase z /\ zcount z' = zcount z.

Lemma zone_alloc_spec z count :
  zone_ok z -> 1 < count ->
  exists rc st, zone_scan (Z.to_nat (zcount z)) (zbitmap z) 0 count 0 0 = Ok (rc, st) /\
    scan_result (zbitmap z) (zcount z) count rc st.
Proof.
  intros [Hb Hc _ _ _] Hn. apply zone_scan_spec; try lia.
  - intros j Hj. lia.
Qed.

(** Taking a run out of a zone removes exactly its frames from the free ones. *)
Lemma zone_take_spec z st count :
  zone_ok z -> 0 <= st -> 0 < count -> st + count <= zcount z -> free_run (zbitmap z) st count ->
  exists bm', set_bits (Z.to_nat count) (zbitmap z) st = Ok bm' /\
    zone_ok (mkZone bm' (zbase z) (zcount z)) /\
    (forall p, in_block (zbase z + st * PageSize) count p -> zone_free_page z p) /\
    (forall p, zone_free_page (mkZone bm' (zbase z) (zcount z)) p <->
               zone_free_page z p /\ ~ in_block (zbase z + st * PageSize) count p).
Proof.
  intros [Hb Hc Hba Ht Ha] Hst Hcnt Hle Hfree.
  destruct (set_bits_spec (Z.to_nat count) (zbitmap z) st Hb Hst ltac:(lia)) as (bm' & -> & Hb' & Hlen & Hbits).
  exists bm'. split; [reflexivity |]. split.
  { split; simpl; try assumption. unfold capacity in *. rewrite Hlen. assumption. }
  split.
  { intros p (i & Hi & ->). exists (st + i). repeat split; [lia | lia | | apply Hfree; lia].
    unfold PageSize. lia. }
  intros p. unfold zone_free_page. simpl. split.
  - intros (i & Hi & -> & Ebit). rewrite Hbits in Ebit by lia.
    destruct (Z.leb_spec st i); destruct (Z.ltb_spec i (st + Z.of_nat (Z.to_nat count))); simpl in Ebit;
      try discriminate; (split; [exists i; auto |]); intros (k & Hk & E); unfold PageSize in *; lia.
  - intros [(i & Hi & -> & Ebit) Hnot]. exists i. repeat split; try lia. rewrite Hbits by lia.
    destruct (Z.leb_spec st i); destruct (Z.ltb_spec i (st + Z.of_nat (Z.to_nat count))); simpl; try assumption.
    exfalso. apply Hnot. exists (i - st). split; [lia |]. unfold PageSize. lia.
Qed.

Lemma zone_free_has z p : zone_free_page z p -> zone_has z p.
Proof. intros (i & Hi & -> & _). unfold zone_has, PageSize. lia. Qed.

Lemma zones_free_cons z zs p :
  zones_free_page (z :: zs) p <-> zone_free_page z p \/ zones_free_page zs p.
Proof.
  unfold zones_free_page. split.
  - intros (z' & [-> | Hin]%elem_of_cons & Hf); eauto.
  - intros [Hf | (z' & Hin & Hf)]; [exists z | exists z']; split; try assumption;
      [apply list_elem_of_here | apply list_elem_of_further; assumption].
Qed.

Lemma same_zone_refl zs : Forall2 same_zone zs zs.
Proof. induction zs; constructor; [split; reflexivity | assumption]. Qed.

Lemma same_zone_has z z' p : same_zone z z' -> zone_has z' p <-> zone_has z p.
Proof. intros [Hb Hc]. unfold zone_has. rewrite Hb, Hc. reflexivity. Qed.

Lemma same_zone_disjoint zs zs' :
  Forall2 same_zone zs zs' -> zones_disjoint zs -> zones_disjoint zs'.
Proof.
  induction 1 as [| z z' zs zs' Hs Hss IH]; [trivial |]. intros [Hd Hrest]. split; [| auto].
  intros y p Hy Hz Hyp. apply list_elem_of_lookup in Hy as [i Hi].
  destruct (Forall2_lookup_r _ _ _ _ _ Hss Hi) as (x & Hx & Hxy).
  apply (Hd x p); [apply list_elem_of_lookup; eauto | |].
  - apply (same_zone_has _ _ _ Hs), Hz.
  - apply (same_zone_has _ _ _ Hxy), Hyp.
Qed.

Lemma zones_free_has zs p : zones_free_page zs p -> exists z, z ∈ zs /\ zone_has z p.
Proof. intros (z & Hin & Hf). exists z. split; [assumption | apply zone_free_has; assumption]. Qed.

(** The block at index [st] of zone [z] is the lowest fit for [count] frames. *)
Definition first_fit (z : PmContigZone) (st count : Z) : Prop :=
  0 <= st /\ st + count <= zcount z /\ free_run (zbitmap z) st count /\
  (forall st', 0 <= st' < st -> ~ free_run (zbitmap z) st' count).

Lemma first_fit_has z st count p :
  first_fit z st count -> in_block (zbase z + st * PageSize) count p -> zone_has z p.
Proof. intros (H0 & Hle & _) (i & Hi & ->). unfold zone_has, PageSize. lia. Qed.

(** What one multi-page request does to the zones. *)
Definition zones_alloc_post (zs : list PmContigZone) (count : Z)
    (r : option (Z * list PmContigZone)) : Prop :=
  match r with
  | None => forall z st, z ∈ zs -> 0 <= st -> st + count <= zcount z -> ~ free_run (zbitmap z) st count
  | Some (page, zs') =>
      Forall zone_ok zs' /\ Forall2 same_zone zs zs' /\ 0 < page /\
      (exists z st, z ∈ zs /\ page = zbase z + st * PageSize /\ first_fit z st count) /\
      (forall p, in_block page count p -> zones_free_page zs p) /\
      (forall p, zones_free_page zs' p <-> zones_free_page zs p /\ ~ in_block page count p)
  end.

Lemma zones_alloc_here z zs count st bm' :
  zone_ok z -> zones_disjoint (z :: zs) -> Forall zone_ok zs -> first_fit z st count ->
  zone_ok (mkZone bm' (zbase z) (zcount z)) ->
  (forall p, in_block (zbase z + st * PageSize) count p -> zone_free_page z p) ->
  (forall p, zone_free_page (mkZone bm' (zbase z) (zcount z)) p <->
             zone_free_page z p /\ ~ in_block (zbase z + st * PageSize) count p) ->
  zones_alloc_post (z :: zs) count
    (Some (zbase z + st * PageSize, mkZone bm' (zbase z) (zcount z) :: zs)).
Proof.
  intros Hz [Hd _] Hzs Hst Hok Hblk Hiff. repeat split.
  - constructor; assumption.
  - constructor; [split; reflexivity | apply same_zone_refl].
  - destruct Hz, Hst. unfold PageSize. lia.
  - exists z, st. split; [apply list_elem_of_here | auto].
  - intros p Hp. apply zones_free_cons. left. apply Hblk, Hp.
  - apply zones_free_cons. apply zones_free_cons in H as [H | H]; [left; apply Hiff, H | right; exact H].
  - intros Hin. apply zones_free_cons in H as [H | H]; [apply Hiff in H; tauto |].
    apply zones_free_has in H as (z' & Hz' & Hhas).
    apply (Hd z' p Hz'); [apply zone_free_has, Hblk, Hin | exact Hhas].
  - intros [H Hni]. apply zones_free_cons. apply zones_free_cons in H as [H | H]; [left | right; exact H].
    apply Hiff. tauto.
Qed.

Lemma zones_alloc_skip z zs count r :
  zone_ok z -> zones_disjoint (z :: zs) ->
  (forall st, 0 <= st -> st + count <= zcount z -> ~ free_run (zbitmap z) st count) ->
  zones_alloc_post zs count r ->
  zones_alloc_post (z :: zs) count
    (match r with Some (p, rest') => Some (p, z :: rest') | None => None end).
Proof.
  intros Hz [Hd _] Hno. destruct r as [[page zs'] |]; simpl.
  - intros (Hok & Hsame & Hpos & (y & st & Hy & Hpg & Hyp) & Hblk & Hiff). repeat split.
    + constructor; assumption.
    + constructor; [split; reflexivity | assumption].
    + assumption.
    + exists y, st. split; [apply list_elem_of_further; assumption | auto].
    + intros p Hp. apply zones_free_cons. right. apply Hblk, Hp.
    + apply zones_free_cons. apply zones_free_cons in H as [H | H]; [left; exact H | right; apply Hiff, H].
    + intros Hin. apply zones_free_cons in H as [H | H]; [| apply Hiff in H; tauto].
      apply (Hd y p Hy); [apply zone_free_has, H |]. subst page. eapply first_fit_has; eassumption.
    + intros [H Hni]. apply zones_free_cons. apply zones_free_cons in H as [H | H]; [left; exact H | right].
      apply Hiff. tauto.
  - intros H y st [-> | Hy]%elem_of_cons; [apply Hno | apply H, Hy].
Qed.

Lemma zones_alloc_spec zs count :
  Forall zone_ok zs -> zones_disjoint zs -> 1 < count ->
  exists r, zones_alloc zs count = Ok r /\ zones_alloc_post zs count r.
Proof.
  intros Hok Hd Hc. induction Hok as [| z zs Hz Hzs IH]; cbn [zones_alloc].
  { exists None. split; [reflexivity |]. intros z st Hin. apply elem_of_nil in Hin. tauto. }
  destruct (zone_alloc_spec z count Hz Hc) as (rc & st & -> & Hscan). cbn [mbind res_bind].
  unfold scan_result in Hscan. destruct (Z.eqb_spec rc count) as [E | E]; cbn [negb].
  - destruct Hscan as (Hst & Hle & Hfree & Hlow).
    destruct (zone_take_spec z st count Hz Hst ltac:(lia) Hle Hfree) as (bm' & -> & Hok' & Hblk & Hiff).
    cbn [mbind res_bind]. rewrite u64_small by (destruct Hz; unfold PageSize in *; lia).
    eexists. split; [reflexivity |]. apply zones_alloc_here; try assumption.
    repeat split; assumption.
  - destruct Hd as [Hd1 Hd2]. destruct (IH Hd2) as (r & -> & Hr). cbn [mbind res_bind].
    eexists. split; [reflexivity |]. apply zones_alloc_skip; try assumption. split; assumption.
Qed.

(** ** Returning pages to a zone *)

Section ZoneFree.
Variable hhdmBase : Z.

Lemma zone_free_spec n : forall trash base bm i m r,
  bytes_ok bm -> 0 <= i -> i + Z.of_nat n <= capacity bm ->
  exists bm' m' r', zone_free hhdmBase n trash base i bm m r = Ok (bm', m', r') /\
    bytes_ok bm' /\ length bm' = length bm /\
    (forall j, 0 <= j ->
      bit bm' j = if (i <=? j) && (j <? i + Z.of_nat n) then false else bit bm j) /\
    (forall x, x < u64 (base + hhdmBase) \/ u64 (base + hhdmBase) + PageSize <= x ->
      load m' x = load m x).
Proof.
  induction n as [| n IH]; intros trash base bm i m r Hok Hi Hcap; cbn [zone_free].
  { exists bm, m, r. repeat split; try assumption. intros j Hj. case_cmps; reflexivity. }
  destruct (BitmapClear_spec bm i Hok ltac:(lia)) as (bm1 & -> & Hb & Hok1 & Hlen1).
  cbn [mbind res_bind].
  destruct (if trash then trash_page (u64 (base + hhdmBase)) m r else (m, r)) as [m1 r1] eqn:Et.
  destruct (IH trash base bm1 (i + 1) m1 r1 Hok1 ltac:(lia)) as (bm2 & m2 & r2 & -> & Hok2 & Hlen2 & Hb2 & Hm2).
  { unfold capacity in *. rewrite Hlen1. lia. }
  exists bm2, m2, r2. split; [reflexivity |]. split; [assumption |]. split; [congruence |]. split.
  - intros j Hj. rewrite Hb2, Hb by assumption. case_cmps; reflexivity.
  - intros x Hx. rewrite Hm2 by assumption.
    pose proof (trash_if_frame trash (u64 (base + hhdmBase)) m r x Hx) as E. rewrite Et in E. exact E.
Qed.

Lemma in_zone_spec z base : zone_ok z -> in_zone z base = true <-> zone_has z base.
Proof.
  intros [_ Hc Hb Ht _]. unfold in_zone, zone_has.
  rewrite u64_small by (unfold PageSize in *; lia).
  rewrite negb_true_iff, orb_false_iff, Z.ltb_ge, Z.leb_gt. reflexivity.
Qed.

(** Giving [count] frames back to a zone adds exactly them to the free ones. *)
Lemma zone_give_spec z base count bm' :
  zone_ok z -> 0 < count -> zone_has z base -> base mod PageSize = 0 ->
  (base - zbase z) / PageSize + count <= zcount z -> bytes_ok bm' ->
  length bm' = length (zbitmap z) ->
  (forall j, 0 <= j -> bit bm' j =
     if ((base - zbase z) / PageSize <=? j) && (j <? (base - zbase z) / PageSize + Z.of_nat (Z.to_nat count))
     then false else bit (zbitmap z) j) ->
  zone_ok (mkZone bm' (zbase z) (zcount z)) /\
  (forall p, in_block base count p -> zone_has z p) /\
  (forall p, zone_free_page (mkZone bm' (zbase z) (zcount z)) p <->
             zone_free_page z p \/ in_block base count p).
Proof.
  intros [Hb Hc Hba Ht Ha] Hcnt [Hlo Hhi] Hal Hle Hb' Hlen Hbits.
  set (k := (base - zbase z) / PageSize) in *.
  assert (Hbase : base = zbase z + k * PageSize).
  { subst k. unfold PageSize in *. Z.div_mod_to_equations. lia. }
  assert (0 <= k) by (apply Z.div_pos; unfold PageSize; lia).
  split; [split; simpl; try assumption; unfold capacity in *; rewrite Hlen; assumption |].
  split; [intros p (i & Hi & ->); unfold zone_has, PageSize in *; lia |].
  intros p. unfold zone_free_page. simpl. split.
  - intros (i & Hi & -> & Ebit). rewrite Hbits in Ebit by lia.
    destruct (Z.leb_spec k i); destruct (Z.ltb_spec i (k + Z.of_nat (Z.to_nat count))); simpl in Ebit;
      try (left; exists i; auto; fail).
    right. exists (i - k). split; [lia |]. rewrite Hbase. unfold PageSize. lia.
  - intros [(i & Hi & -> & Ebit) | (i & Hi & ->)].
    + exists i. repeat split; try lia. rewrite Hbits, Ebit by lia. case_match; reflexivity.
    + exists (k + i). split; [lia |]. split; [rewrite Hbase; unfold PageSize; lia |].
      rewrite Hbits by lia. case_cmps.
Qed.

Definition zones_free_post (zs : list PmContigZone) (base count : Z) (m m' : gmap Z Z)
    (zs' : list PmContigZone) : Prop :=
  Forall zone_ok zs' /\ Forall2 same_zone zs zs' /\
  (forall p, zones_free_page zs' p <-> zones_free_page zs p \/ in_block base count p) /\
  (forall x, x < u64 (base + hhdmBase) \/ u64 (base + hhdmBase) + PageSize <= x -> load m' x = load m x).

Lemma zones_free_hit zs z trash base count m r :
  Forall zone_ok zs -> zones_disjoint zs -> 0 < count -> z ∈ zs -> zone_has z base ->
  base mod PageSize = 0 -> (base - zbase z) / PageSize + count <= zcount z ->
  exists zs' m' r', zones_free hhdmBase zs trash base count m r = Ok (Some (zs', m', r')) /\
    zones_free_post zs base count m m' zs'.
Proof.
  intros Hok Hd Hc Hin Hhas Hal Hle. induction Hok as [| y zs Hy Hzs IH]; [apply elem_of_nil in Hin; tauto |].
  cbn [zones_free]. destruct (in_zone y base) eqn:Ey.
  - apply (in_zone_spec y base Hy) in Ey.
    assert (z = y) as -> by (apply elem_of_cons in Hin as [-> | Hin]; [reflexivity |];
      destruct Hd as [Hd _]; exfalso; eapply Hd; eassumption).
    set (k := (base - zbase y) / PageSize).
    assert (0 <= k) by (apply Z.div_pos; [destruct Ey; lia | unfold PageSize; lia]).
    destruct (zone_free_spec (Z.to_nat count) trash base (zbitmap y) k m r) as (bm' & m' & r' & -> & Hb' & Hlen & Hbits & Hm).
    { apply Hy. } { assumption. } { destruct Hy. fold k in Hle. lia. }
    cbn [mbind res_bind]. do 3 eexists. split; [reflexivity |].
    destruct (zone_give_spec y base count bm' Hy Hc Ey Hal Hle Hb' Hlen Hbits) as (Hok' & Hhas' & Hiff).
    split; [constructor; assumption |].
    split; [constructor; [split; reflexivity | apply same_zone_refl] |].
    split; [| assumption].
    intros p. rewrite !zones_free_cons, Hiff. tauto.
  - apply elem_of_cons in Hin as [-> | Hin].
    { apply (in_zone_spec y base Hy) in Hhas. congruence. }
    destruct Hd as [_ Hd]. destruct (IH Hd Hin) as (zs' & m' & r' & -> & Hzok & Hsame & Hiff & Hm).
    cbn [mbind res_bind]. do 3 eexists. split; [reflexivity |].
    split; [constructor; assumption |].
    split; [constructor; [split; reflexivity | assumption] |].
    split; [| assumption]. intros p. rewrite !zones_free_cons, Hiff. tauto.
Qed.

Lemma zones_free_miss zs trash base count m r :
  Forall zone_ok zs -> (forall z, z ∈ zs -> ~ zone_has z base) ->
  zones_free hhdmBase zs trash base count m r = Ok None.
Proof.
  intros Hok Hno. induction Hok as [| y zs Hy Hzs IH]; [reflexivity |]. cbn [zones_free].
  destruct (in_zone y base) eqn:Ey.
  { apply (in_zone_spec y base Hy) in Ey. exfalso. apply (Hno y); [apply list_elem_of_here | assumption]. }
  rewrite IH; [reflexivity |]. intros z Hz. apply Hno. apply list_elem_of_further. assumption.
Qed.
End ZoneFree.

(** ** The whole manager *)

Lemma chain_det m h runs : chain m h runs -> forall runs', chain m h runs' -> runs = runs'.
Proof.
  induction 1 as [| a rest Ha Hc IH]; intros runs' H'; inversion H'; subst; try congruence.
  f_equal. apply IH. assumption.
Qed.

Section Manager.
Variable hhdmBase : Z.

(** Frame [p] is free: on the freelist, or a clear bit of a zone. *)
Definition page_free (s : PMM) (p : Z) : Prop :=
  (exists runs, chain (mem s) (freelist_head s) runs /\ p + hhdmBase ∈ list_pages runs) \/
  zones_free_page (zones s) p.

Record pmm_inv_runs (s : PMM) (runs : list (Z * Z)) : Prop := {
  inv_hhdm : hhdm_ok hhdmBase;
  inv_list : freelist_ok hhdmBase (mem s) (freelist_head s) runs;
  inv_zones : Forall zone_ok (zones s);
  inv_disjoint : zones_disjoint (zones s);
  (* zones are physical memory below the direct map, and are direct-mapped *)
  inv_zone_phys : forall z, z ∈ zones s ->
    zbase z + zcount z * PageSize <= hhdmBase /\ hhdmBase + zbase z + zcount z * PageSize <= two64;
  inv_apart : forall a z, a ∈ list_pages runs -> z ∈ zones s -> ~ zone_has z (a - hhdmBase)
}.

Definition pmm_inv (s : PMM) : Prop := exists runs, pmm_inv_runs s runs.

Lemma page_free_runs s runs p :
  pmm_inv_runs s runs ->
  page_free s p <-> p + hhdmBase ∈ list_pages runs \/ zones_free_page (zones s) p.
Proof.
  intros [_ [Hc _ _ _] _ _ _ _]. unfold page_free. split; intros [H | H]; try tauto.
  - destruct H as (runs' & Hc' & Hin). rewrite (chain_det _ _ _ Hc _ Hc'). tauto.
  - left. exists runs. tauto.
Qed.

(** Replacing zones by ones of the same extent keeps the invariant. *)
Lemma pmm_inv_zones s runs zs m r :
  pmm_inv_runs s runs -> Forall zone_ok zs -> Forall2 same_zone (zones s) zs ->
  freelist_ok hhdmBase m (freelist_head s) runs ->
  pmm_inv_runs (set_zones s zs m r) runs.
Proof.
  intros [Hh Hl Hz Hd Hp Ha] Hok Hsame Hm.
  assert (Hback : forall z', z' ∈ zs -> exists z, z ∈ zones s /\ same_zone z z').
  { intros z' [i Hi]%list_elem_of_lookup. destruct (Forall2_lookup_r _ _ _ _ _ Hsame Hi) as (z & Hx & Hs).
    exists z. split; [apply list_elem_of_lookup; eauto | assumption]. }
  split; simpl; try assumption.
  - eapply same_zone_disjoint; eassumption.
  - intros z' [z [Hin [E1 E2]]]%Hback. rewrite E1, E2. apply Hp, Hin.
  - intros a z' Hin [z [Hz' Hs]]%Hback Hhas. apply (Ha a z Hin Hz'). apply (same_zone_has _ _ _ Hs), Hhas.
Qed.

(** The zones keep their extent and the debug switches stay. *)
Definition same_layout (s s' : PMM) : Prop :=
  Forall2 same_zone (zones s) (zones s') /\ trashAfterUse s' = trashAfterUse s.

(** A block that [Free] accepts: inside one zone, or a lone frame outside all. *)
Definition returnable (s : PMM) (b c : Z) : Prop :=
  0 < b < two64 /\ b mod PageSize = 0 /\ 0 < c /\
  ((exists z, z ∈ zones s /\ zone_has z b /\ (b - zbase z) / PageSize + c <= zcount z) \/
   c = 1 /\ page_ok hhdmBase (b + hhdmBase) /\ forall z, z ∈ zones s -> ~ zone_has z b).

(** What an allocation promises. *)
Definition alloc_post (s : PMM) (count p : Z) (s' : PMM) : Prop :=
  p <> 0 /\ returnable s p count /\ (forall q, in_block p count q -> page_free s q) /\
  (forall q, page_free s' q <-> page_free s q /\ ~ in_block p count q).

Lemma Alloc_single s runs :
  pmm_inv_runs s runs -> runs <> [] ->
  exists p s', Alloc hhdmBase s 1 = Ok (p, s') /\ pmm_inv s' /\ same_layout s s' /\ alloc_post s 1 p s'.
Proof.
  intros Hinv Hne. pose proof Hinv as [Hh Hl Hz Hd Hp Ha]. destruct runs as [| [a n] rest]; [congruence |].
  destruct (Alloc_one_spec hhdmBase s a n rest Hh Hl) as (s' & E & Hl' & Hzs & _ & Hta & _).
  destruct (freelist_pop hhdmBase _ _ _ _ _ (proj1 Hh) Hl) as (Hpa & _ & Hni & Hn & _).
  exists (a - hhdmBase), s'. split; [exact E |].
  assert (Hpages : forall x, x ∈ list_pages ((a, n) :: rest) <->
                             x = a \/ x ∈ list_pages (pop_runs ((a, n) :: rest))).
  { intros x. rewrite pop_runs_pages by lia. apply elem_of_cons. }
  assert (Hinv' : pmm_inv_runs s' (pop_runs ((a, n) :: rest))).
  { split; rewrite ?Hzs; try assumption. intros x z Hx Hzin. apply Ha; [apply Hpages |]; tauto. }
  split; [eexists; exact Hinv' |].
  assert (Hblk : forall q, in_block (a - hhdmBase) 1 q <-> q = a - hhdmBase).
  { intros q. split; [intros (i & Hi & ->); unfold PageSize; lia | intros ->; exists 0; lia]. }
  split; [split; [rewrite Hzs; apply same_zone_refl | exact Hta] |].
  split; [destruct Hpa; lia |].
  assert (Hhere : a ∈ list_pages ((a, n) :: rest)) by (apply Hpages; tauto).
  split.
  { destruct Hpa as (P1 & P2 & P3), Hh as [Hh1 Hh2]. assert (0 < PageSize) by reflexivity.
    split; [lia |]. split; [rewrite Zminus_mod, P3, Hh2; reflexivity |]. split; [lia |]. right.
    split; [reflexivity |]. split; [rewrite Z.sub_add; repeat split; assumption |].
    intros z Hzin. apply Ha; assumption. }
  split.
  - intros q ->%Hblk. apply (page_free_runs _ _ _ Hinv). left. apply Hpages. left. lia.
  - intros q. rewrite (page_free_runs _ _ _ Hinv), (page_free_runs _ _ _ Hinv'), Hpages, Hblk, Hzs. split.
    + intros [H | H]; (split; [tauto |]); intros ->.
      * apply Hni. rewrite Z.sub_add in H. exact H.
      * apply zones_free_has in H as (z & Hzin & Hhas). apply (Ha a z); [| assumption ..].
        apply Hpages. tauto.
    + intros [[[Hq | H] | H] Hneq]; [lia | tauto | tauto].
Qed.

(** A run of free frames inside one zone can be given back. *)
Lemma block_returnable s runs page count y :
  pmm_inv_runs s runs -> 1 < count -> 0 < page -> y ∈ zones s ->
  (forall q, in_block page count q -> zone_has y q) ->
  (forall q, in_block page count q -> zones_free_page (zones s) q) -> returnable s page count.
Proof.
  intros [_ _ Hz Hd _ _] Hc Hpos Hy Hyp Hfree.
  assert (Hfirst : zone_has y page) by (apply Hyp; exists 0; lia).
  pose proof (proj1 (Forall_forall _ _) Hz y Hy) as [_ Yc Yb Yt Ya].
  assert (Hlast : zone_has y (page + (count - 1) * PageSize)) by (apply Hyp; exists (count - 1); lia).
  assert (Hal : page mod PageSize = 0).
  { destruct (Hfree page) as (z & Hzin & i & Hi & -> & _); [exists 0; lia |].
    pose proof (proj1 (Forall_forall _ _) Hz z Hzin) as [_ _ _ _ Za].
    rewrite Z_mod_plus_full. assumption. }
  destruct Hfirst as [F1 F2], Hlast as [L1 L2].
  split; [lia |]. split; [assumption |]. split; [lia |]. left. exists y.
  split; [assumption |]. split; [split; assumption |].
  unfold PageSize in *. Z.div_mod_to_equations. lia.
Qed.

Lemma Alloc_multi s count :
  pmm_inv s -> 1 < count ->
  exists p s', Alloc hhdmBase s count = Ok (p, s') /\ pmm_inv s' /\ same_layout s s' /\
    (alloc_post s count p s' /\
       (exists z st, z ∈ zones s /\ p = zbase z + st * PageSize /\ first_fit z st count) \/
     p = 0 /\ s' = s /\ forall z st, z ∈ zones s -> 0 <= st -> st + count <= zcount z ->
                                   ~ free_run (zbitmap z) st count).
Proof.
  intros [runs Hinv] Hc. pose proof Hinv as [Hh Hl Hz Hd Hp Ha].
  destruct (zones_alloc_spec (zones s) count Hz Hd Hc) as (r & E & Hpost).
  unfold Alloc. rewrite (proj2 (Z.eqb_neq count 0)), (proj2 (Z.eqb_neq count 1)), E by lia.
  cbn [mbind res_bind]. destruct r as [[page zs'] |].
  2: { exists 0, s. split; [reflexivity |]. split; [exists runs; assumption |].
       split; [split; [apply same_zone_refl | reflexivity] |]. right. auto. }
  destruct Hpost as (Hok & Hsame & Hpos & (y & st & Hy & Hpeq & Hfit) & Hblk & Hiff).
  assert (Hyp : forall q, in_block page count q -> zone_has y q)
    by (subst page; intros q; apply first_fit_has; assumption).
  destruct (if trashBeforeUse s then trash_page page (mem s) (rng s) else (mem s, rng s)) as [m r] eqn:Et.
  exists page, (set_zones s zs' m r). split; [reflexivity |].
  assert (Hinv' : pmm_inv_runs (set_zones s zs' m r) runs).
  { apply pmm_inv_zones; try assumption. eapply freelist_frame; [exact Hl |]. intros a Hin.
    assert (Hpa : page_ok hhdmBase a) by (destruct Hl as [_ _ Hall _]; rewrite Forall_forall in Hall; auto).
    assert (Hpg : page + PageSize <= hhdmBase).
    { destruct (Hp y Hy) as [Hph _]. destruct (Hyp (page + PageSize)) as [_ X].
      - exists 1. lia.
      - lia. }
    destruct Hpa as (Hlt & _).
    pose proof (trash_if_frame (trashBeforeUse s) page (mem s) (rng s)) as Hf. rewrite Et in Hf.
    simpl in Hf. split; apply Hf; lia. }
  split; [exists runs; exact Hinv' |]. split; [split; [exact Hsame | reflexivity] |].
  left. split; [| eauto]. split; [lia |]. split; [eapply block_returnable; eassumption |]. split.
  - intros q Hq. apply (page_free_runs _ _ _ Hinv). right. apply Hblk, Hq.
  - intros q. rewrite (page_free_runs _ _ _ Hinv), (page_free_runs _ _ _ Hinv'). simpl. rewrite Hiff. split.
    + intros [H | H]; [| tauto]. split; [tauto |]. intros Hin.
      apply (Ha _ y H Hy). replace (q + hhdmBase - hhdmBase) with q by lia. apply Hyp, Hin.
    + tauto.
Qed.

(** [base & ~(PageSize - 1)] is the frame that holds [base]. *)
Lemma page_round base :
  0 <= base < two64 ->
  (if negb (Z.land base (PageSize - 1) =? 0) then Z.land base (not64 (PageSize - 1)) else base)
    = base / PageSize * PageSize.
Proof.
  intros Hb. change (PageSize - 1) with (2 ^ 12 - 1). rewrite land_mask_mod by lia.
  change (2 ^ 12) with PageSize.
  destruct (Z.eqb_spec (base mod PageSize) 0) as [E | E]; cbn [negb].
  { unfold PageSize in *. Z.div_mod_to_equations. lia. }
  assert (Eb : base = base mod PageSize + 2 ^ 12 * (base / PageSize)).
  { change (2 ^ 12) with PageSize. pose proof (Z.div_mod base PageSize). unfold PageSize in *. lia. }
  rewrite Eb at 1. change (not64 (PageSize - 1)) with (0 + 2 ^ 12 * (2 ^ 52 - 1)).
  rewrite land_fields by (try lia; apply Z.mod_pos_bound; reflexivity).
  rewrite Z.land_0_r, land_mask_mod by lia. rewrite Z.mod_small; [change (2 ^ 12) with PageSize; lia |].
  unfold PageSize, two64 in *. Z.div_mod_to_equations. lia.
Qed.

Definition free_post (s : PMM) (base count : Z) (s' : PMM) : Prop :=
  forall q, page_free s' q <-> page_free s q \/ in_block base count q.

Lemma Free_zone s base count z :
  pmm_inv s -> 0 < count -> 0 < base < two64 -> z ∈ zones s ->
  zone_has z (base / PageSize * PageSize) ->
  (base / PageSize * PageSize - zbase z) / PageSize + count <= zcount z ->
  exists s', Free hhdmBase s base count = Ok s' /\ pmm_inv s' /\ same_layout s s' /\
    free_post s (base / PageSize * PageSize) count s'.
Proof.
  intros [runs Hinv] Hc Hb Hin Hhas Hfit. pose proof Hinv as [Hh Hl Hz Hd Hp Ha].
  set (b := base / PageSize * PageSize) in *.
  assert (Hal : b mod PageSize = 0) by apply Z_mod_mult.
  destruct (zones_free_hit hhdmBase (zones s) z (trashAfterUse s) b count (mem s) (rng s)
    Hz Hd Hc Hin Hhas Hal Hfit) as (zs' & m' & r' & E & Hok & Hsame & Hiff & Hm).
  unfold Free. rewrite (proj2 (Z.eqb_neq base 0)), (proj2 (Z.eqb_neq count 0)) by lia. cbn [orb].
  rewrite page_round by lia. fold b. rewrite E. cbn [mbind res_bind].
  eexists. split; [reflexivity |].
  destruct (Hp z Hin) as [Hph Hhd]. destruct Hhas as [Hlo Hhi].
  assert (Hb0 : 0 < b) by (pose proof (proj1 (Forall_forall _ _) Hz z Hin) as [_ _ ? _ _]; lia).
  assert (Hinv' : pmm_inv_runs (set_zones s zs' m' r') runs).
  { apply pmm_inv_zones; try assumption.
    assert (Hbok : page_ok hhdmBase (b + hhdmBase)).
    { pose proof (proj1 (Forall_forall _ _) Hz z Hin) as [_ _ _ _ Hza]. destruct Hh as [Hh1 Hh2].
      split; [lia |]. unfold PageSize in *. split; Z.div_mod_to_equations; lia. }
    eapply (freelist_frame_page hhdmBase); [exact Hl | exact Hbok | |].
    - intros Hx. apply (Ha _ z Hx Hin). rewrite Z.add_simpl_r. split; assumption.
    - destruct Hh as [Hh1 _]. rewrite u64_small in Hm by (unfold PageSize in *; lia). exact Hm. }
  split; [exists runs; exact Hinv' |]. split; [split; [exact Hsame | reflexivity] |]. intros q.
  rewrite (page_free_runs _ _ _ Hinv), (page_free_runs _ _ _ Hinv'). simpl. rewrite Hiff. tauto.
Qed.

Lemma Free_single s base :
  pmm_inv s -> trashAfterUse s = false -> 0 < base < two64 ->
  page_ok hhdmBase (base / PageSize * PageSize + hhdmBase) ->
  ~ page_free s (base / PageSize * PageSize) ->
  (forall z, z ∈ zones s -> ~ zone_has z (base / PageSize * PageSize)) ->
  exists s', Free hhdmBase s base 1 = Ok s' /\ pmm_inv s' /\ same_layout s s' /\
    free_post s (base / PageSize * PageSize) 1 s'.
Proof.
  intros [runs Hinv] Htr Hb Hpg Hnf Hnz. pose proof Hinv as [Hh Hl Hz Hd Hp Ha].
  set (b := base / PageSize * PageSize) in *.
  unfold Free. rewrite (proj2 (Z.eqb_neq base 0)) by lia. cbn [orb Z.eqb].
  rewrite page_round by lia. fold b. rewrite zones_free_miss by assumption.
  cbn [mbind res_bind negb Pos.eqb]. rewrite Htr.
  rewrite u64_small by (destruct Hpg as (X & Y & _), Hh; unfold PageSize in *; lia).
  eexists. split; [reflexivity |]. set (a := b + hhdmBase) in *.
  assert (Hni : a ∉ list_pages runs).
  { intros X. apply Hnf. apply (page_free_runs _ _ _ Hinv). left. exact X. }
  assert (Hinv' : pmm_inv_runs (set_freelist s a
      (<[a := freelist_head s]> (<[a + 8 := 1]> (mem s))) (rng s)) ((a, 1) :: runs)).
  { split; simpl; try assumption.
    - apply (freelist_cons hhdmBase _ _ _ (freelist_head s)); try assumption.
      + eapply (freelist_frame_page hhdmBase); [exact Hl | exact Hpg | exact Hni |]. intros x Hx.
        unfold PageSize in Hx. rewrite !load_insert_ne by lia. reflexivity.
      + apply Hh.
      + apply load_insert_eq.
      + rewrite load_insert_ne, load_insert_eq by lia. reflexivity.
    - intros x z Hx Hzin. rewrite list_pages_cons, run_pages_one in Hx.
      apply elem_of_cons in Hx as [-> | Hx]; [| apply Ha; assumption].
      unfold a. rewrite Z.add_simpl_r. apply Hnz, Hzin. }
  split; [eexists; exact Hinv' |].
  split; [split; [apply same_zone_refl | reflexivity] |]. intros q.
  rewrite (page_free_runs _ _ _ Hinv), (page_free_runs _ _ _ Hinv'). simpl.
  rewrite list_pages_cons, run_pages_one. cbn [app]. rewrite elem_of_cons.
  assert (Hblk : in_block b 1 q <-> q + hhdmBase = a).
  { unfold a. split; [intros (i & Hi & ->); unfold PageSize; lia | intros ?; exists 0; lia]. }
  rewrite Hblk. tauto.
Qed.
End Manager.
