(* ===== verification/PmmSafety.v ===== *)
(** The promise of the physical memory manager to the rest of the kernel: the
    frame-allocator interface, its implementation by the PMM, and the safety of
    every sequence of [Alloc] and [Free] calls. *)

From S2P Require Import Prelude Maths Bitmap Random Pmm PmmProofs.


(** ** Interface: single-frame allocation as page-table code uses it *)

Class FrameAllocator (A : Type) : Type := {
  fa_inv : A -> Prop;
  fa_free : A -> Z -> Prop;
  fa_alloc : A -> res (Z * A);
  fa_release : A -> Z -> res A;
  (* a returned frame is aligned, was free, and is the only one taken *)
  fa_alloc_ok : forall s p s',
    fa_inv s -> fa_alloc s = Ok (p, s') ->
    fa_inv s' /\ 0 < p < two64 /\ p mod PageSize = 0 /\ fa_free s p /\
    (forall q, fa_free s' q <-> fa_free s q /\ q <> p)
}.

Section Single.
Variable hhdmBase : Z.

Lemma Alloc_single_inv s p s' :
  pmm_inv hhdmBase s -> Alloc hhdmBase s 1 = Ok (p, s') ->
  pmm_inv hhdmBase s' /\ same_layout s s' /\ alloc_post hhdmBase s 1 p s'.
Proof.
  intros [runs Hinv] E. destruct (decide (runs = [])) as [-> | Hne].
  - exfalso. destruct Hinv as [_ [Hc _ _ _] _ _ _ _]. 
    assert (Hh : freelist_head s = 0) by (inversion Hc; reflexivity).
    unfold Alloc, Alloc_one in E. rewrite Hh in E. discriminate.
  - destruct (Alloc_single hhdmBase s runs Hinv Hne) as (p1 & s1 & E1 & Hi & Hl & Hp).
    rewrite E1 in E. injection E as <- <-. auto.
Qed.

Lemma in_block_one b q : in_block b 1 q <-> q = b.
Proof. split; [intros (i & Hi & ->); unfold PageSize; lia | intros ->; exists 0; lia]. Qed.

#[export] Program Instance pmm_frames : FrameAllocator PMM := {|
  fa_inv := pmm_inv hhdmBase;
  fa_free := page_free hhdmBase;
  fa_alloc := fun s => Alloc hhdmBase s 1;
  fa_release := fun s p => Free hhdmBase s p 1
|}.
Next Obligation.
  intros s p s' Hi E. destruct (Alloc_single_inv s p s' Hi E) as (Hi' & _ & Hne & Hr & Hf & Hiff).
  destruct Hr as (Hb & Hal & _). split; [exact Hi' |]. split; [exact Hb |]. split; [exact Hal |].
  split; [apply Hf, in_block_one; reflexivity |]. intros q. rewrite Hiff, in_block_one. reflexivity.
Qed.
End Single.


(** ** Sequences of calls *)





Section Safety.
Variable hhdmBase : Z.
Local Abbreviation page_free := (page_free hhdmBase).
Local Abbreviation pmm_inv := (pmm_inv hhdmBase).
Local Abbreviation returnable := (returnable hhdmBase).









End Safety.

(** ** A concrete manager *)

Definition demo_hhdm : Z := 0xFFFF800000000000.
Definition demo_page : Z := 0xFFFF800000001000.

(** Three free frames from 0x1000 and a 12-page zone at 0x100000 with its third page in use. *)
Definition demo_pmm (trash : bool) : PMM :=
  mkPMM [mkZone [4; 0] 0x100000 12] [] demo_page
    (<[demo_page + 8 := 3]> (<[demo_page := 0]> ∅)) (fst (XoshiroRng_ctor initState0)) trash false.

Lemma demo_list trash : freelist_ok demo_hhdm (mem (demo_pmm trash)) demo_page [(demo_page, 3)].
Proof.
  set (m := mem (demo_pmm trash)).
  assert (En : entry_next m demo_page = 0) by (vm_compute; reflexivity).
  assert (Er : entry_runLength m demo_page = 3) by (vm_compute; reflexivity).
  split.
  - rewrite <- Er. constructor; [discriminate |]. rewrite En. constructor.
  - repeat constructor.
  - change (list_pages _) with [demo_page + 0 * PageSize; demo_page + 1 * PageSize; demo_page + 2 * PageSize].
    unfold page_ok. repeat (constructor; [vm_compute; repeat split; discriminate |]). constructor.
  - apply (bool_decide_unpack _). vm_compute. exact I.
Qed.

Lemma demo_inv trash : pmm_inv demo_hhdm (demo_pmm trash).
Proof.
  exists [(demo_page, 3)]. split.
  - split; [discriminate | reflexivity].
  - apply demo_list.
  - repeat constructor; simpl; try discriminate; try reflexivity.
  - simpl. split; [intros z p H; apply elem_of_nil in H; tauto | trivial].
  - intros z ->%list_elem_of_singleton. simpl. split; discriminate.
  - intros a z Ha ->%list_elem_of_singleton [H _].
    assert (F : Forall (fun a => a - demo_hhdm < 0x100000) [(demo_page + 0 * PageSize);
      (demo_page + 1 * PageSize); (demo_page + 2 * PageSize)]) by (repeat constructor).
    rewrite Forall_forall in F. specialize (F a Ha). simpl in H. lia.
Qed.

(** ** The theorems *)



(** C3: A request for several pages fails only when no zone holds that many consecutive
    clear bits; otherwise it returns the lowest such run of some zone. *)
Theorem Alloc_complete hhdmBase s count :
  pmm_inv hhdmBase s -> 1 < count ->
  exists p s', Alloc hhdmBase s count = Ok (p, s') /\
    (p = 0 <-> forall z st, z ∈ zones s -> 0 <= st -> st + count <= zcount z ->
                          ~ free_run (zbitmap z) st count) /\
    (p <> 0 -> exists z st, z ∈ zones s /\ p = zbase z + st * PageSize /\ first_fit z st count).
Proof.
  intros Hi Hc. destruct (Alloc_multi hhdmBase s count Hi Hc) as (p & s' & E & _ & _ & Hor).
  exists p, s'. split; [exact E |].
  destruct Hor as [((Hne & _) & z & st & Hz & Hp & Hfit) | (-> & _ & Hno)].
  - split; [| intros _; exists z, st; auto]. split; [lia |]. intros Hno. exfalso.
    destruct Hfit as (H0 & Hle & Hfree & _). exact (Hno z st Hz H0 Hle Hfree).
  - split; [tauto | lia].
Qed.

(** With [kernel.pmm.trash_after_use] set, returning a single page overwrites the
    freelist entry that was just written into it: a well-formed manager becomes one
    whose freelist is no longer a list of page runs. *)
Theorem trash_after_use_corrupts_freelist :
  exists s base s', pmm_inv demo_hhdm s /\ ~ page_free demo_hhdm s base /\
    Free demo_hhdm s base 1 = Ok s' /\ ~ pmm_inv demo_hhdm s'.
Proof.
  exists (demo_pmm true), 0x8000, (match Free demo_hhdm (demo_pmm true) 0x8000 1 with Ok s => s | _ => demo_pmm true end).
  split; [apply demo_inv |]. split.
  { intros [(runs & Hc & Hin) | (z & ->%list_elem_of_singleton & i & Hi & E & _)].
    - destruct (demo_list true) as [Hc' _ _ _]. rewrite (chain_det _ _ _ Hc _ Hc') in Hin.
      assert (F : Forall (fun a => a <> 0x8000 + demo_hhdm) [(demo_page + 0 * PageSize);
        (demo_page + 1 * PageSize); (demo_page + 2 * PageSize)]) by (repeat constructor; discriminate).
      rewrite Forall_forall in F. exact (F _ Hin eq_refl).
    - unfold PageSize in E. simpl in E. lia. }
  assert (Hw : match Free demo_hhdm (demo_pmm true) 0x8000 1 with
               | Ok s => (2 ^ 52 <? entry_runLength (mem s) (freelist_head s)) && negb (freelist_head s =? 0)
               | _ => false end = true) by (vm_compute; reflexivity).
  destruct (Free demo_hhdm (demo_pmm true) 0x8000 1) as [s' | |]; try discriminate.
  split; [reflexivity |].
  rewrite andb_true_iff, Z.ltb_lt, negb_true_iff, Z.eqb_neq in Hw. destruct Hw as [Hw Hh].
  intros [runs [[H0 _] Hl _ _ _ _]].
  pose proof (freelist_head_bound demo_hhdm _ _ _ H0 Hl Hh). lia.
Qed.

(** *** Concrete runs of the theorems *)




Lemma Alloc_complete_witness :
  exists p s', Alloc demo_hhdm (demo_pmm false) 4 = Ok (p, s') /\
    (p = 0 <-> forall z st, z ∈ zones (demo_pmm false) -> 0 <= st -> st + 4 <= zcount z ->
                          ~ free_run (zbitmap z) st 4) /\
    (p <> 0 -> exists z st, z ∈ zones (demo_pmm false) /\ p = zbase z + st * PageSize /\ first_fit z st 4).
Proof. apply (Alloc_complete demo_hhdm (demo_pmm false) 4); [apply demo_inv | lia]. Defined.
