(* ===== verification/PmmInit.v ===== *)
(** [PMM::Init], [ReclaimBootMemory] and [IngestMemory] of [kernel/memory/Pmm.cpp]: how the
    memory map of the loader becomes zones, segments and the freelist. *)

From S2P Require Import Prelude Maths Bitmap Random Pmm.

Record MemmapEntry : Type := mkEntry { me_base : Z; me_length : Z }.
#[export] Instance MemmapEntry_inhabited : Inhabited MemmapEntry := populate (mkEntry 0 0).

Definition PmMaxContiguousPages : Z := 64 * MiB / PageSize.
Definition PmMinContiguousPages : Z := 0.
Definition PmContiguousPagesRatio : Z := 10.
Definition MemmapProcessSize : nat := 32.

(** [sizeof] on the 64-bit targets: a zone holds a lock of 24 bytes and four words. *)
Definition sizeof_PmContigZone : Z := 56.
Definition sizeof_PmInfoSegment : Z := 32.
Definition sizeof_PageInfo : Z := 16.

(** An access to a span outside its bounds is a [Panic]. *)
Definition get (es : list MemmapEntry) (i : Z) : res MemmapEntry := deref (es !! Z.to_nat i).
Definition put (es : list MemmapEntry) (i : Z) (e : MemmapEntry) : list MemmapEntry := <[Z.to_nat i := e]> es.

(** [for (j = 0; j < bound; j++)] of the bubble sort. *)
Fixpoint sort_inner (fuel : nat) (es : list MemmapEntry) (j bound : Z) : res (list MemmapEntry) :=
  if j <? bound then
    match fuel with
    | O => OutOfFuel
    | S fuel' =>
        a ← get es j;
        b ← get es (j + 1);
        let es := if me_length a <? me_length b then put (put es j b) (j + 1) a else es in
        sort_inner fuel' es (j + 1) bound
    end
  else Ok es.

Fixpoint sort_outer (fuel : nat) (es : list MemmapEntry) (i : Z) : res (list MemmapEntry) :=
  let size := Z.of_nat (length es) in
  if i <? u64 (size - 1) then
    match fuel with
    | O => OutOfFuel
    | S fuel' =>
        es ← sort_inner (S (length es)) es 0 (u64 (size - i - 1));
        sort_outer fuel' es (i + 1)
    end
  else Ok es.

Definition SortMemoryMapBySize (es : list MemmapEntry) : res (list MemmapEntry) := sort_outer (S (length es)) es 0.

Fixpoint claim_loop (i : nat) (es : list MemmapEntry) (bytes : Z) : res (Z * list MemmapEntry) :=
  match i with
  | O => Ok (0, es)
  | S idx =>
      e ← deref (es !! idx);
      if me_length e <? bytes then claim_loop idx es bytes
      else Ok (me_base e, <[idx := mkEntry (u64 (me_base e + bytes)) (u64 (me_length e - bytes))]> es)
  end.

Definition ClaimFromSmallest (es : list MemmapEntry) (pages : Z) : res (Z * list MemmapEntry) :=
  claim_loop (length es) es (u64 (pages * PageSize)).

(** The loop that reserves contiguous zones; the zone and its bitmap live in the claimed
    pages. *)
Fixpoint reserve_zones (fuel : nat) (es : list MemmapEntry) (quota i : Z) (zs : list PmContigZone)
  : res (list MemmapEntry * list PmContigZone) :=
  if i <? quota then
    match fuel with
    | O => OutOfFuel
    | S fuel' =>
        e0 ← get es 0;
        let count := Min (quota - i) (me_length e0 / PageSize) in
        let i := i + count in
        let es := put es 0 (mkEntry (me_base e0) (u64 (me_length e0 - count * PageSize))) in
        let bitmapBytes := AlignUp count 8 / 8 in
        let metadataBytes := bitmapBytes + 2 * sizeof_PmContigZone in
        '(metadataAddr, es) ← ClaimFromSmallest es (AlignUp metadataBytes PageSize / PageSize);
        _ ← assert_ (negb (metadataAddr =? 0));
        e0 ← get es 0;
        let zone := mkZone (replicate (Z.to_nat bitmapBytes) 0) (u64 (me_base e0 + me_length e0)) count in
        es ← SortMemoryMapBySize es;
        reserve_zones fuel' es quota i (zone :: zs)
    end
  else Ok (es, zs).

(** The segments of the [PageInfo] database, in the order they are made. *)
Fixpoint make_segments (regions : list (Z * Z)) (infoStore infoIndex : Z) : list PmInfoSegment :=
  match regions with
  | [] => []
  | (b, len) :: regions =>
      mkSegment b len (u64 (infoStore + infoIndex * sizeof_PageInfo)) ::
      make_segments regions infoStore (u64 (infoIndex + len / PageSize))
  end.

Definition used_regions (es : list MemmapEntry) : list (Z * Z) :=
  (fun e => (me_base e, me_length e)) <$> filter (fun e => me_length e <> 0) es.
Definition zone_regions (zs : list PmContigZone) : list (Z * Z) := (fun z => (zbase z, zcount z * PageSize)) <$> zs.

(** The memory map of the loader: entries with their type. *)
Definition MEMMAP_USABLE : Z := 0.
Definition MEMMAP_RECLAIMABLE : Z := 5.

Definition GetMemmapEntries (memmap : list (Z * MemmapEntry)) (size offset : nat) (type : Z) : list MemmapEntry :=
  take size (snd <$> filter (fun e => fst e = type) (drop offset memmap)).

Section Ingest.
Variable hhdmBase : Z.

Fixpoint push_entries (es : list MemmapEntry) (head : Z) (m : gmap Z Z) : Z * gmap Z Z :=
  match es with
  | [] => (head, m)
  | e :: es =>
      if me_length e =? 0 then push_entries es head m
      else
        let a := u64 (me_base e + hhdmBase) in
        push_entries es a (<[a := head]> (<[a + 8 := me_length e / PageSize]> m))
  end.

(** [segments] is reset at the start and becomes the tail of the chain of new segments. *)
Definition IngestMemory (s : PMM) (es : list MemmapEntry) (contiguousQuota : Z) : res PMM :=
  let totalPages := u64 (foldl (fun n e => n + me_length e / PageSize) 0 es) in
  es ← SortMemoryMapBySize es;
  '(es, zs) ← reserve_zones (S (Z.to_nat contiguousQuota)) es contiguousQuota 0 [];
  let contigZones := Z.of_nat (length zs) in
  let segmentStoreBytes := u64 (sizeof_PmInfoSegment * (Z.of_nat (length es) + contigZones + 1)) in
  let infoStoreSize := u64 (segmentStoreBytes + sizeof_PageInfo * (totalPages + 1)) in
  '(infoStoreAddr, es) ← ClaimFromSmallest es (AlignUp infoStoreSize PageSize / PageSize);
  _ ← assert_ (negb (infoStoreAddr =? 0));
  let infoStoreAddr := u64 (AlignUp infoStoreAddr sizeof_PmInfoSegment + hhdmBase) in
  let infoStore := AlignUp (u64 (infoStoreAddr + segmentStoreBytes)) sizeof_PageInfo in
  let made := make_segments (used_regions es ++ zone_regions zs) infoStore 0 in
  let tail := match last made with Some t => [t] | None => [] end in
  let '(head, m) := push_entries es 0 (mem s) in
  Ok (mkPMM zs tail head m (rng s) (trashAfterUse s) (trashBeforeUse s)).

(** [while (true)] over the batches of the memory map. *)
Fixpoint ingest_batches (fuel : nat) (s : PMM) (memmap : list (Z * MemmapEntry)) (type : Z) (accum : nat) (quota : Z) : res PMM :=
  match fuel with
  | O => OutOfFuel
  | S fuel' =>
      let entries := GetMemmapEntries memmap MemmapProcessSize accum type in
      s ← IngestMemory s entries quota;
      if (length entries <? MemmapProcessSize)%nat then Ok s
      else ingest_batches fuel' s memmap type (accum + length entries) quota
  end.

Fixpoint count_usable (fuel : nat) (memmap : list (Z * MemmapEntry)) (accum : nat) (usable : Z) : res Z :=
  match fuel with
  | O => OutOfFuel
  | S fuel' =>
      let entries := GetMemmapEntries memmap MemmapProcessSize accum MEMMAP_USABLE in
      let usable := foldl (fun n e => u64 (n + me_length e)) usable entries in
      if (length entries <? MemmapProcessSize)%nat then Ok usable
      else count_usable fuel' memmap (accum + length entries) usable
  end.

(** How many pages [Init] reserves for contiguous allocations. *)
Definition contiguous_pages (usablePages : Z) : Z :=
  let contiguousPages := usablePages / PmContiguousPagesRatio in
  let contiguousPages := Min PmMaxContiguousPages (Max PmMinContiguousPages contiguousPages) in
  Min contiguousPages usablePages.

(** [trashAfter] and [trashBefore] are the configuration numbers [Init] reads. *)
Definition Init (fuel : nat) (s : PMM) (memmap : list (Z * MemmapEntry)) (trashAfter trashBefore : bool) : res PMM :=
  bytes ← count_usable fuel memmap 0 0;
  let r := if trashAfter || trashBefore then fst (XoshiroRng_ctor initState0) else rng s in
  ingest_batches fuel (mkPMM (zones s) (segments s) (freelist_head s) (mem s) r trashAfter trashBefore) memmap MEMMAP_USABLE 0
    (contiguous_pages (bytes / PageSize)).

Definition ReclaimBootMemory (fuel : nat) (s : PMM) (memmap : list (Z * MemmapEntry)) : res PMM :=
  ingest_batches fuel s memmap MEMMAP_RECLAIMABLE 0 0.
End Ingest.
