(* ===== verification/PmmInitProofs.v ===== *)
(** What [IngestMemory] makes of a memory map: the sort, the claims and the zones as moves of
    page frames, and the invariant of the physical memory manager at the end. *)

From Stdlib Require Import Sorting.Sorted.
From S2P Require Import Prelude Maths Bitmap Random Pmm PmmProofs PmmSafety PmmInit.

(** ** The sort *)

Definition longer (a b : MemmapEntry) : Prop := me_length b <= me_length a.

(** One pass of the inner loop over the first [k] neighbours. *)
Fixpoint bubble (k : nat) (a : MemmapEntry) (rest : list MemmapEntry) : list MemmapEntry :=
  match k, rest with
  | S k, b :: rest => if me_length a <? me_length b then b :: bubble k a rest else a :: bubble k b rest
  | _, _ => a :: rest
  end.

Lemma sort_inner_bubble k : forall fuel l a rest, (k <= length rest)%nat -> (k <= fuel)%nat ->
  sort_inner fuel (l ++ a :: rest) (Z.of_nat (length l)) (Z.of_nat (length l + k)) = Ok (l ++ bubble k a rest).
Proof.
  induction k as [| k IH]; intros fuel l a rest Hk Hf.
  - destruct fuel; cbn [sort_inner]; rewrite (proj2 (Z.ltb_ge _ _)) by lia; reflexivity.
  - destruct fuel as [| fuel]; [lia |]. destruct rest as [| b rest]; [simpl in Hk; lia |].
    cbn [sort_inner]. rewrite (proj2 (Z.ltb_lt _ _)) by lia. unfold get.
    replace (Z.to_nat (Z.of_nat (length l) + 1)) with (S (length l)) by lia. rewrite Nat2Z.id.
    assert (E1 : (l ++ a :: b :: rest) !! length l = Some a) by (apply list_lookup_middle; reflexivity).
    assert (E2 : (l ++ a :: b :: rest) !! S (length l) = Some b).
    { replace (l ++ a :: b :: rest) with ((l ++ [a]) ++ b :: rest) by (rewrite <- app_assoc; reflexivity).
      apply list_lookup_middle. rewrite length_app. simpl. lia. }
    rewrite E1. cbn [mbind res_bind deref]. rewrite E2. cbn [mbind res_bind deref].
    assert (Hcut : forall x y, sort_inner fuel (l ++ x :: y :: rest) (Z.of_nat (length l) + 1) (Z.of_nat (length l + S k)) = Ok (l ++ x :: bubble k y rest)).
    { intros x y. replace (l ++ x :: y :: rest) with ((l ++ [x]) ++ y :: rest) by (rewrite <- app_assoc; reflexivity).
      replace (Z.of_nat (length l) + 1) with (Z.of_nat (length (l ++ [x]))) by (rewrite length_app; simpl; lia).
      replace (Z.of_nat (length l + S k)) with (Z.of_nat (length (l ++ [x]) + k)) by (rewrite length_app; simpl; lia).
      rewrite IH by (simpl in Hk; lia). rewrite <- app_assoc. reflexivity. }
    cbn [bubble]. destruct (me_length a <? me_length b).
    + assert (Es : put (put (l ++ a :: b :: rest) (Z.of_nat (length l)) b) (Z.of_nat (length l) + 1) a = l ++ b :: a :: rest).
      { unfold put. replace (Z.to_nat (Z.of_nat (length l) + 1)) with (length l + 1)%nat by lia.
        rewrite Nat2Z.id. replace (<[length l := b]> (l ++ a :: b :: rest)) with (l ++ b :: b :: rest).
        - rewrite insert_app_r. reflexivity.
        - pose proof (insert_app_r l (a :: b :: rest) 0 b) as Hi. rewrite Nat.add_0_r in Hi. rewrite Hi. reflexivity. }
      rewrite Es. apply Hcut.
    + apply Hcut.
Qed.

(** A pass moves the shortest of the entries it looks at to their end. *)
Lemma bubble_spec k : forall a rest, (k <= length rest)%nat ->
  exists l m, bubble k a rest = l ++ m :: drop k rest /\ l ++ [m] ≡ₚ a :: take k rest /\ Forall (fun x => longer x m) l.
Proof.
  induction k as [| k IH]; intros a rest Hk; [exists [], a; split_and!; [destruct rest; reflexivity | reflexivity | constructor] |].
  destruct rest as [| b rest]; [simpl in Hk; lia |]. cbn [bubble]. simpl in Hk.
  destruct (Z.ltb_spec (me_length a) (me_length b)) as [Hlt | Hge].
  - destruct (IH a rest ltac:(lia)) as (l & m & E & Hp & Hall). exists (b :: l), m. rewrite E. split; [reflexivity |]. split.
    + simpl. rewrite Hp. constructor.
    + constructor; [| assumption]. assert (Hin : a ∈ l ++ [m]) by (rewrite Hp; left).
      apply elem_of_app in Hin as [Hin | ->%list_elem_of_singleton]; unfold longer in *; [| lia].
      rewrite Forall_forall in Hall. specialize (Hall a Hin). simpl in Hall. lia.
  - destruct (IH b rest ltac:(lia)) as (l & m & E & Hp & Hall). exists (a :: l), m. rewrite E. split; [reflexivity |]. split.
    + simpl. rewrite Hp. reflexivity.
    + constructor; [| assumption]. assert (Hin : b ∈ l ++ [m]) by (rewrite Hp; left).
      apply elem_of_app in Hin as [Hin | ->%list_elem_of_singleton]; unfold longer in *; [| lia].
      rewrite Forall_forall in Hall. specialize (Hall b Hin). simpl in Hall. lia.
Qed.

Lemma sort_outer_spec n : forall fuel front back,
  length front = n -> (n <= fuel)%nat -> front ++ back <> [] -> Z.of_nat (length (front ++ back)) < two64 ->
  StronglySorted longer back -> (forall x y, x ∈ front -> y ∈ back -> longer x y) ->
  exists es', sort_outer fuel (front ++ back) (Z.of_nat (length back)) = Ok es' /\ es' ≡ₚ front ++ back /\ StronglySorted longer es'.
Proof.
  induction n as [| n IH]; intros fuel front back Hn Hf Hne Hsz Hs Hle.
  - destruct front; [| discriminate]. exists back. destruct fuel; cbn [sort_outer]; rewrite u64_small by (rewrite length_app in *; simpl in *; destruct back; [congruence | simpl in *; lia]);
      rewrite (proj2 (Z.ltb_ge _ _)) by (simpl; lia); split_and!; reflexivity || assumption.
  - destruct front as [| a front]; [discriminate |]. simpl in Hn. injection Hn as Hn.
    assert (Hlen : Z.of_nat (length ((a :: front) ++ back)) = 1 + Z.of_nat n + Z.of_nat (length back))
      by (rewrite length_app; simpl; lia).
    destruct front as [| b front].
    { (* a single unsorted entry is the longest *)
      exists ((a :: []) ++ back). destruct fuel as [| fuel]; [lia |]. cbn [sort_outer]. rewrite Hlen in *. simpl in Hn. subst n.
      rewrite u64_small by lia. rewrite (proj2 (Z.ltb_ge _ _)) by lia. split_and!; try reflexivity.
      simpl. constructor; [assumption |]. rewrite Forall_forall. intros y Hy. apply Hle; [left | assumption]. }
    remember (b :: front) as front' eqn:Ef'.
    destruct fuel as [| fuel]; [lia |]. cbn [sort_outer]. rewrite Hlen.
    rewrite (u64_small (1 + _ + _ - 1)) by lia. rewrite (proj2 (Z.ltb_lt _ _)) by (subst front'; simpl in Hn; lia).
    rewrite u64_small by lia.
    replace (1 + Z.of_nat n + Z.of_nat (length back) - Z.of_nat (length back) - 1) with (Z.of_nat (length (@nil MemmapEntry) + n)) by (simpl; lia).
    assert (Ei : sort_inner (S (length ((a :: front') ++ back))) ((a :: front') ++ back) 0 (Z.of_nat (length (@nil MemmapEntry) + n)) =
      Ok (bubble n a (front' ++ back))).
    { apply (sort_inner_bubble n _ [] a (front' ++ back)); rewrite ?length_app; simpl; rewrite ?length_app; lia. }
    rewrite Ei. cbn [mbind res_bind].
    destruct (bubble_spec n a (front' ++ back)) as (l & m & E & Hp & Hall); [rewrite length_app; lia |].
    rewrite take_app_le, take_ge in Hp by lia. rewrite drop_app_le, drop_ge in E by lia. simpl in E.
    rewrite E. replace (Z.of_nat (length back) + 1) with (Z.of_nat (length (m :: back))) by (simpl; lia).
    assert (Hlm : length l = n) by (apply Permutation_length in Hp; rewrite length_app in Hp; simpl in Hp; lia).
    destruct (IH fuel l (m :: back)) as (es' & Es & Hpe & Hse); auto; try lia.
    + destruct l; discriminate.
    + rewrite length_app. simpl. lia.
    + constructor; [assumption |]. rewrite Forall_forall. intros y Hy. apply Hle; [| assumption].
      change (m ∈ a :: front'). rewrite <- Hp. apply elem_of_app. right. left.
    + intros x y Hx [-> | Hy]%elem_of_cons; [rewrite Forall_forall in Hall; apply Hall, Hx |].
      apply Hle; [| assumption]. change (x ∈ a :: front'). rewrite <- Hp. apply elem_of_app. left. assumption.
    + exists es'. split; [exact Es |]. split; [| assumption]. rewrite Hpe.
      replace (l ++ m :: back) with ((l ++ [m]) ++ back) by (rewrite <- app_assoc; reflexivity). rewrite Hp. reflexivity.
Qed.

Lemma sort_spec es : es <> [] -> Z.of_nat (length es) < two64 ->
  exists es', SortMemoryMapBySize es = Ok es' /\ es' ≡ₚ es /\ StronglySorted longer es'.
Proof.
  intros Hne Hsz. unfold SortMemoryMapBySize.
  destruct (sort_outer_spec (length es) (S (length es)) es []) as (es' & E & Hp & Hs); rewrite ?app_nil_r in *; auto; [constructor | intros x y _ Hy; inversion Hy |].
  eauto.
Qed.

(** On an empty span the bounds of the loops wrap around and the first access is out of
    bounds. *)
Lemma sort_empty : SortMemoryMapBySize [] = Panic.
Proof. reflexivity. Qed.

(** ** Page frames *)

Definition runs_of (es : list MemmapEntry) : list (Z * Z) := (fun e => (me_base e, me_length e / PageSize)) <$> es.
(** The page frames of a memory map, and of zones. *)
Definition map_pages (es : list MemmapEntry) : list Z := list_pages (runs_of es).
Definition zone_pages (zs : list PmContigZone) : list Z := list_pages ((fun z => (zbase z, zcount z)) <$> zs).

Lemma elem_of_run_pages a n p : p ∈ run_pages (a, n) <-> exists i, 0 <= i < n /\ p = a + i * PageSize.
Proof.
  split; [| intros (i & Hi & ->); apply run_pages_elem; assumption].
  unfold run_pages. intros (i & -> & Hi%elem_of_seq)%list_elem_of_fmap. simpl in *. exists (Z.of_nat i). split; [lia | reflexivity].
Qed.

Lemma run_pages_split x a b : 0 <= a -> 0 <= b -> run_pages (x, a + b) = run_pages (x, a) ++ run_pages (x + a * PageSize, b).
Proof.
  intros Ha Hb. unfold run_pages. cbn [fst snd]. rewrite Z2Nat.inj_add, seq_app, fmap_app by assumption. f_equal.
  rewrite Nat.add_0_l. rewrite <- (Nat.add_0_r (Z.to_nat a)) at 1. rewrite <- fmap_add_seq, <- list_fmap_compose.
  apply list_fmap_ext. intros i j _. simpl. unfold PageSize. lia.
Qed.

Lemma list_pages_perm runs runs' : runs ≡ₚ runs' -> list_pages runs ≡ₚ list_pages runs'.
Proof. intros H. unfold list_pages. rewrite H. reflexivity. Qed.

Lemma map_pages_perm es es' : es ≡ₚ es' -> map_pages es ≡ₚ map_pages es'.
Proof. intros H. apply list_pages_perm. unfold runs_of. rewrite H. reflexivity. Qed.

Lemma map_pages_cons e es : map_pages (e :: es) = run_pages (me_base e, me_length e / PageSize) ++ map_pages es.
Proof. reflexivity. Qed.

Lemma delete_insert (es : list MemmapEntry) i e : delete i (<[i := e]> es) = delete i es.
Proof. revert i. induction es as [| x es IH]; intros [| i]; simpl; [reflexivity.. |]. f_equal. apply IH. Qed.

(** Changing one entry changes its own pages. *)
Lemma map_pages_insert es i e e' : es !! i = Some e ->
  exists rest, map_pages es ≡ₚ run_pages (me_base e, me_length e / PageSize) ++ rest /\
    map_pages (<[i := e']> es) ≡ₚ run_pages (me_base e', me_length e' / PageSize) ++ rest.
Proof.
  intros Hi. exists (map_pages (delete i es)). split.
  - rewrite <- map_pages_cons. apply map_pages_perm. apply delete_Permutation. assumption.
  - rewrite <- map_pages_cons. apply map_pages_perm.
    rewrite <- (delete_insert es i e'). apply delete_Permutation. apply list_lookup_insert_eq. eapply lookup_lt_Some, Hi.
Qed.

Section Ingested.
Variable hhdmBase : Z.

(** An entry of usable memory: whole pages, not frame 0, below and inside the direct map. *)
Record entry_ok (e : MemmapEntry) : Prop := mkEntryOk {
  eo_base : 0 < me_base e;
  eo_align : me_base e mod PageSize = 0;
  eo_length : 0 <= me_length e;
  eo_pages : me_length e mod PageSize = 0;
  eo_phys : me_base e + me_length e <= hhdmBase;
  eo_mapped : hhdmBase + me_base e + me_length e <= two64
}.

(** Taking pages off the front or the back of an entry. *)
Lemma page_parts len n : 0 <= n -> n * PageSize <= len -> len mod PageSize = 0 ->
  (len - n * PageSize) mod PageSize = 0 /\ len / PageSize = n + (len - n * PageSize) / PageSize /\ 0 <= (len - n * PageSize) / PageSize.
Proof.
  intros Hn Hle Hm. unfold PageSize in *. rewrite Zminus_mod, Z_mod_mult, Hm. split; [reflexivity |].
  replace (len - n * 4096) with (len + (- n) * 4096) by lia. rewrite Z.div_add by lia. split; [lia |].
  assert (n <= len / 4096) by (apply Z.div_le_lower_bound; lia). lia.
Qed.

Lemma claim_loop_spec pages : 0 < pages -> pages * PageSize < two64 -> forall i es addr es',
  (i <= length es)%nat -> Forall entry_ok es -> hhdmBase < two64 -> claim_loop i es (pages * PageSize) = Ok (addr, es') -> addr <> 0 ->
  map_pages es ≡ₚ run_pages (addr, pages) ++ map_pages es' /\ Forall entry_ok es' /\ length es' = length es /\
  (forall j e', es' !! j = Some e' -> exists e, es !! j = Some e /\ me_base e' + me_length e' = me_base e + me_length e).
Proof.
  intros Hp Hb. induction i as [| i IH]; intros es addr es' Hi Hok Hh E Ha; cbn [claim_loop] in E; [congruence |].
  destruct (es !! i) as [e |] eqn:Ee; [| discriminate]. cbn [mbind res_bind deref] in E.
  destruct (Z.ltb_spec (me_length e) (pages * PageSize)) as [Hlt | Hge]; [apply (IH es addr es'); auto; lia |].
  injection E as <- <-. pose proof (proj1 (Forall_lookup _ _) Hok _ _ Ee) as [E1 E2 E3 E4 E5 E6].
  destruct (page_parts (me_length e) pages ltac:(lia) Hge E4) as (P1 & P2 & P3). unfold PageSize in *.
  rewrite !u64_small by lia.
  destruct (map_pages_insert es i e (mkEntry (me_base e + pages * 4096) (me_length e - pages * 4096)) Ee) as (rest & R1 & R2).
  split_and!; [| | apply length_insert |].
  - rewrite R1, R2. cbn [me_base me_length]. unfold PageSize in *. rewrite P2, run_pages_split by lia. unfold PageSize. rewrite app_assoc. reflexivity.
  - apply Forall_insert; [assumption |]. constructor; cbn [me_base me_length]; unfold PageSize; try lia.
    rewrite Z_mod_plus_full. assumption.
  - intros j e' [(<- & <- & _) | (Hne & Hj)]%list_lookup_insert_Some; [| eauto]. exists e. split; [assumption |]. simpl. lia.
Qed.

(** A zone as [IngestMemory] makes it: no page in use. *)
Record fresh_zone (z : PmContigZone) : Prop := mkFresh {
  fz_ok : zone_ok z;
  fz_phys : zbase z + zcount z * PageSize <= hhdmBase /\ hhdmBase + zbase z + zcount z * PageSize <= two64;
  fz_clear : forall i, bit (zbitmap z) i = false
}.

Lemma bit_replicate n i : bit (replicate n 0) i = false.
Proof.
  unfold bit. destruct (replicate n 0 !! Z.to_nat (i / 8)) eqn:E; [| reflexivity].
  apply lookup_replicate in E as [-> _]. apply Z.bits_0.
Qed.

(** The bytes of a bitmap of [count] bits, and the pages its zone's metadata takes. *)
Lemma bitmap_bytes count : 0 <= count < 2 ^ 60 -> count <= 8 * (AlignUp count 8 / 8) /\ 0 <= AlignUp count 8 / 8 <= count + 1.
Proof.
  intros Hc. destruct (AlignUp_spec count 8) as [Hr Ha]; [lia | lia | unfold two64; lia |]. Z.div_mod_to_equations. lia.
Qed.

Lemma page_count bytes : 0 < bytes -> bytes + PageSize <= two64 ->
  let pages := AlignUp bytes PageSize / PageSize in 0 < pages /\ pages * PageSize < two64 /\ bytes <= pages * PageSize.
Proof.
  intros Hb Ht pages. unfold pages, PageSize in *.
  destruct (AlignUp_spec bytes 4096) as [Hr Ha]; [lia | lia | lia |]. Z.div_mod_to_equations. lia.
Qed.

(** Every page of the map is metadata, part of a zone, or still in an entry. *)
Record divided_up (P meta : list Z) (zs : list PmContigZone) (es : list MemmapEntry) : Prop := mkDividedUp {
  du_pages : P ≡ₚ meta ++ zone_pages zs ++ map_pages es;
  du_entries : Forall entry_ok es;
  du_zones : Forall fresh_zone zs;
  du_some : es <> [];
  du_size : Z.of_nat (length es) < 2 ^ 32
}.

Lemma divided_up_sort P meta zs es es' : divided_up P meta zs es -> SortMemoryMapBySize es = Ok es' -> divided_up P meta zs es'.
Proof.
  intros [D1 D2 D3 D4 D5] E. destruct (sort_spec es D4 ltac:(unfold two64; lia)) as (es2 & E2 & Hp & _). rewrite E in E2. injection E2 as <-. split.
  - rewrite D1, (map_pages_perm es' es Hp). reflexivity.
  - rewrite Hp. assumption.
  - assumption.
  - intros ->. apply D4. apply Permutation_nil. rewrite Hp. reflexivity.
  - rewrite Hp. assumption.
Qed.

Lemma divided_up_claim P meta zs es bytes addr es' : divided_up P meta zs es -> 0 < bytes -> bytes + PageSize <= two64 -> hhdmBase < two64 ->
  ClaimFromSmallest es (AlignUp bytes PageSize / PageSize) = Ok (addr, es') -> addr <> 0 ->
  divided_up P (meta ++ run_pages (addr, AlignUp bytes PageSize / PageSize)) zs es' /\
  (forall j e', es' !! j = Some e' -> exists e, es !! j = Some e /\ me_base e' + me_length e' = me_base e + me_length e).
Proof.
  intros [D1 D2 D3 D4 D5] Hb Ht Hh E Ha. destruct (page_count bytes Hb Ht) as (P1 & P2 & _). unfold ClaimFromSmallest in E.
  rewrite u64_small in E by (unfold PageSize in *; lia).
  destruct (claim_loop_spec _ P1 P2 _ es addr es' (le_n _) D2 Hh E Ha) as (C1 & C2 & C3 & C4). split; [| assumption]. split; auto.
  - rewrite D1, C1. solve_Permutation.
  - intros ->. destruct es; [congruence | discriminate].
  - lia.
Qed.

Lemma zone_pages_cons z zs : zone_pages (z :: zs) = run_pages (zbase z, zcount z) ++ zone_pages zs.
Proof. reflexivity. Qed.

(** The pages cut off the end of the first entry become a zone. *)
Lemma cut_zone P meta zs es e0 count : divided_up P meta zs es -> es !! 0%nat = Some e0 -> hhdmBase < two64 ->
  0 <= count <= me_length e0 / PageSize ->
  let zone := mkZone (replicate (Z.to_nat (AlignUp count 8 / 8)) 0) (me_base e0 + me_length e0 - count * PageSize) count in
  divided_up P meta (zone :: zs) (<[0%nat := mkEntry (me_base e0) (me_length e0 - count * PageSize)]> es).
Proof.
  intros [D1 D2 D3 D4 D5] E0 Hh Hc zone. pose proof (proj1 (Forall_lookup _ _) D2 _ _ E0) as [E1 E2 E3 E4 E5 E6].
  assert (Hcb : count * PageSize <= me_length e0) by (unfold PageSize in *; Z.div_mod_to_equations; lia).
  assert (Hsmall : count < 2 ^ 60) by (unfold PageSize, two64 in *; lia).
  destruct (bitmap_bytes count ltac:(lia)) as [B1 B2].
  destruct (page_parts (me_length e0) count ltac:(lia) Hcb E4) as (P1 & P2 & P3).
  destruct (map_pages_insert es 0 e0 (mkEntry (me_base e0) (me_length e0 - count * PageSize)) E0) as (rest & R1 & R2).
  assert (Hpages : run_pages (me_base e0, me_length e0 / PageSize) =
    run_pages (me_base e0, (me_length e0 - count * PageSize) / PageSize) ++ run_pages (zbase zone, count)).
  { rewrite P2, Z.add_comm, run_pages_split by lia. f_equal. unfold zone; simpl. f_equal. f_equal.
    assert (He : me_length e0 - count * PageSize = (me_length e0 - count * PageSize) / PageSize * PageSize)
      by (unfold PageSize in *; Z.div_mod_to_equations; lia). lia. }
  assert (Hbase : (me_base e0 + me_length e0 - count * PageSize) mod PageSize = 0)
    by (replace (me_base e0 + me_length e0 - count * PageSize) with (me_base e0 + (me_length e0 - count * PageSize)) by lia;
        rewrite Z.add_mod, E2, P1 by (unfold PageSize; lia); reflexivity).
  split.
  - rewrite D1, zone_pages_cons, R1, R2. cbn [me_base me_length]. rewrite Hpages. change (zcount zone) with count. solve_Permutation.
  - apply Forall_insert; [assumption |]. constructor; simpl; unfold PageSize in *; lia || assumption.
  - constructor; [| assumption]. constructor; [| simpl; lia | apply bit_replicate].
    constructor; simpl; unfold capacity; rewrite ?length_replicate; try (unfold PageSize, two64 in *; lia).
    apply Forall_replicate. lia.
  - destruct es; [congruence | discriminate].
  - rewrite length_insert. assumption.
Qed.

(** The pages that hold a zone's structure and bitmap. *)
Definition zone_meta_pages (count : Z) : Z := AlignUp (AlignUp count 8 / 8 + 2 * sizeof_PmContigZone) PageSize / PageSize.
Definition meta_pages (zs : list PmContigZone) : Z := foldr (fun z n => zone_meta_pages (zcount z) + n) 0 zs.

Lemma length_run_pages a n : 0 <= n -> Z.of_nat (length (run_pages (a, n))) = n.
Proof. intros Hn. unfold run_pages. rewrite length_fmap, length_seq. simpl. lia. Qed.

Lemma reserve_zones_spec quota : hhdmBase < two64 -> quota < 2 ^ 60 -> forall fuel P meta zs es i es' zs',
  divided_up P meta zs es -> 0 <= i <= quota \/ quota <= i -> Z.of_nat (length meta) = meta_pages zs ->
  reserve_zones fuel es quota i zs = Ok (es', zs') ->
  exists meta', divided_up P meta' zs' es' /\ Z.of_nat (length meta') = meta_pages zs'.
Proof.
  intros Hh Hq. induction fuel as [| fuel IH]; intros P meta zs es i es' zs' D Hi Hml E; cbn [reserve_zones] in E;
    destruct (Z.ltb_spec i quota) as [Hlt | Hge]; try (injection E as <- <-; eauto); try discriminate.
  unfold get in E. change (Z.to_nat 0) with 0%nat in E.
  destruct (es !! 0%nat) as [e0 |] eqn:E0; [| discriminate]. cbn [mbind res_bind deref] in E.
  pose proof (proj1 (Forall_lookup _ _) (du_entries _ _ _ _ D) _ _ E0) as [X1 X2 X3 X4 X5 X6].
  set (count := Min (quota - i) (me_length e0 / PageSize)) in *.
  assert (Hdiv : 0 <= me_length e0 / PageSize) by (apply Z.div_pos; unfold PageSize; lia).
  assert (Hcount : 0 <= count <= me_length e0 / PageSize /\ count <= quota - i) by (unfold count; rewrite Min_spec; lia).
  assert (Hcb : count * PageSize <= me_length e0) by (unfold PageSize in *; Z.div_mod_to_equations; lia).
  rewrite u64_small in E by (unfold PageSize, two64 in *; lia).
  destruct (bitmap_bytes count ltac:(lia)) as [B1 B2].
  pose proof (cut_zone P meta zs es e0 count D E0 Hh ltac:(lia)) as D1. cbv zeta in D1.
  unfold put in E. change (Z.to_nat 0) with 0%nat in E.
  set (es1 := <[0%nat := _]> es) in *. set (zone := mkZone _ (me_base e0 + _ - _) _) in D1.
  destruct (ClaimFromSmallest es1 _) as [[addr es2] | |] eqn:Ec; cbn [mbind res_bind] in E; try discriminate.
  destruct (Z.eqb_spec addr 0) as [-> | Ha]; [discriminate |]. cbn [negb assert_ mbind res_bind] in E.
  destruct (divided_up_claim P meta (zone :: zs) es1 (AlignUp count 8 / 8 + 2 * sizeof_PmContigZone) addr es2 D1 ltac:(unfold sizeof_PmContigZone; lia)
    ltac:(unfold sizeof_PmContigZone, PageSize, two64; lia) Hh Ec Ha) as [D2 Hsum].
  destruct (es2 !! 0%nat) as [e2 |] eqn:E2; [| discriminate]. cbn [mbind res_bind deref] in E.
  destruct (Hsum 0%nat e2 E2) as (e1 & E1 & Hs). unfold es1 in E1.
  rewrite list_lookup_insert_eq in E1 by (eapply lookup_lt_Some, E0). injection E1 as <-. simpl in Hs.
  destruct (SortMemoryMapBySize es2) as [es3 | |] eqn:Es; cbn [mbind res_bind] in E; try discriminate.
  replace (u64 (me_base e2 + me_length e2)) with (me_base e0 + me_length e0 - count * PageSize) in E
    by (rewrite Hs, u64_small; [lia | unfold PageSize, two64 in *; lia]).
  apply (IH P _ (zone :: zs) es3 (i + count) es' zs' (divided_up_sort _ _ _ _ _ D2 Es)); [lia | | exact E].
  destruct (page_count (AlignUp count 8 / 8 + 2 * sizeof_PmContigZone) ltac:(unfold sizeof_PmContigZone; lia)
    ltac:(unfold sizeof_PmContigZone, PageSize, two64; lia)) as (Hpos & _).
  rewrite length_app, Nat2Z.inj_add, Hml, length_run_pages by lia. unfold meta_pages. simpl. unfold zone_meta_pages at 2. lia.
Qed.

(** ** The freelist *)

Lemma freelist_push m next runs a n : hhdm_ok hhdmBase -> freelist_ok hhdmBase m next runs -> 0 < n ->
  Forall (page_ok hhdmBase) (run_pages (a, n)) -> NoDup (run_pages (a, n) ++ list_pages runs) ->
  freelist_ok hhdmBase (<[a := next]> (<[a + 8 := n]> m)) a ((a, n) :: runs).
Proof.
  intros [Hh _] Hf Hn Hp Hnd.
  assert (Ha : a ∈ run_pages (a, n)) by (rewrite run_pages_cons by assumption; left).
  assert (Hpa : page_ok hhdmBase a) by (rewrite Forall_forall in Hp; auto).
  assert (Hni : a ∉ list_pages runs) by (intros Hin; apply NoDup_app in Hnd as (_ & Hd & _); exact (Hd a Ha Hin)).
  set (m' := <[a := next]> (<[a + 8 := n]> m)).
  assert (Hf' : freelist_ok hhdmBase m' next runs).
  { eapply (freelist_frame_page hhdmBase m m' next runs a); auto. intros x Hx. unfold m', PageSize in *. rewrite !load_insert_ne by lia. reflexivity. }
  destruct Hf' as [Hc Hr Hpp _]. assert (En : entry_next m' a = next) by apply load_insert_eq.
  assert (Er : entry_runLength m' a = n) by (unfold entry_runLength, m'; rewrite load_insert_ne, load_insert_eq by lia; reflexivity).
  split.
  - rewrite <- Er at 1. constructor; [destruct Hpa; lia | rewrite En; assumption].
  - constructor; assumption.
  - rewrite list_pages_cons. apply Forall_app. auto.
  - rewrite list_pages_cons. assumption.
Qed.

Definition mapped (p : Z) : Z := p + hhdmBase.

Lemma run_pages_mapped b n : run_pages (b + hhdmBase, n) = mapped <$> run_pages (b, n).
Proof. unfold run_pages. rewrite <- list_fmap_compose. apply list_fmap_ext. intros i x _. unfold mapped. simpl. lia. Qed.

Lemma entry_pages_ok e : hhdm_ok hhdmBase -> entry_ok e -> Forall (page_ok hhdmBase) (run_pages (me_base e + hhdmBase, me_length e / PageSize)).
Proof.
  intros [H1 H2] [E1 E2 E3 E4 E5 E6]. rewrite Forall_forall. intros p (i & Hi & ->)%elem_of_run_pages. unfold page_ok, PageSize in *.
  split; [lia |]. split; [Z.div_mod_to_equations; lia |]. rewrite Z_mod_plus_full, Z.add_mod, E2, H2 by lia. reflexivity.
Qed.

Lemma push_entries_spec es : hhdm_ok hhdmBase -> forall head m runs,
  freelist_ok hhdmBase m head runs -> Forall entry_ok es -> NoDup ((mapped <$> map_pages es) ++ list_pages runs) ->
  exists runs', freelist_ok hhdmBase (snd (push_entries hhdmBase es head m)) (fst (push_entries hhdmBase es head m)) runs' /\
    list_pages runs' ≡ₚ (mapped <$> map_pages es) ++ list_pages runs.
Proof.
  intros Hh. induction es as [| e es IH]; intros head m runs Hf Hok Hnd; cbn [push_entries]; [eauto |].
  apply Forall_cons in Hok as [He Hok]. rewrite map_pages_cons, fmap_app in *.
  destruct (Z.eqb_spec (me_length e) 0) as [Ez | Hne].
  - rewrite Ez in *. apply IH; auto.
  - pose proof (entry_pages_ok e Hh He) as Hp. destruct He as [E1 E2 E3 E4 E5 E6].
    rewrite u64_small by (destruct Hh; lia).
    assert (Hn : 0 < me_length e / PageSize) by (unfold PageSize in *; Z.div_mod_to_equations; lia).
    rewrite <- run_pages_mapped, <- app_assoc in Hnd.
    destruct (IH (me_base e + hhdmBase) _ ((me_base e + hhdmBase, me_length e / PageSize) :: runs)
      (freelist_push m head runs _ _ Hh Hf Hn Hp ltac:(eapply sublist_NoDup; [exact Hnd |]; apply sublist_app; [reflexivity |]; apply sublist_inserts_l; reflexivity)) Hok)
      as (runs' & Hf' & Hperm).
    + rewrite list_pages_cons. rewrite app_assoc, (Permutation_app_comm (mapped <$> _)), <- app_assoc. exact Hnd.
    + exists runs'. split; [exact Hf' |]. rewrite Hperm, list_pages_cons, <- run_pages_mapped. solve_Permutation.
Qed.

(** ** The manager *)

Lemma fresh_zone_free z p : fresh_zone z -> zone_free_page z p <-> p ∈ run_pages (zbase z, zcount z).
Proof.
  intros [_ _ Hc]. unfold zone_free_page. rewrite elem_of_run_pages. split; [intros (i & Hi & -> & _) | intros (i & Hi & ->)]; eauto.
Qed.

(** An address of a zone lies in one of its pages. *)
Lemma zone_has_page z p : zone_ok z -> zone_has z p -> p / PageSize * PageSize ∈ run_pages (zbase z, zcount z).
Proof.
  intros [_ Z2 Z3 Z4 Z5] [H1 H2]. apply elem_of_run_pages. exists ((p - zbase z) / PageSize). unfold PageSize in *.
  Z.div_mod_to_equations. lia.
Qed.

Lemma elem_of_zone_pages zs p : p ∈ zone_pages zs <-> exists z, z ∈ zs /\ p ∈ run_pages (zbase z, zcount z).
Proof.
  unfold zone_pages, list_pages. rewrite list_elem_of_In, in_concat. split.
  - intros (l & Hl & Hp). apply list_elem_of_In in Hl, Hp. rewrite <- list_fmap_compose in Hl.
    apply list_elem_of_fmap in Hl as (z & -> & Hz). eauto.
  - intros (z & Hz & Hp). exists (run_pages (zbase z, zcount z)). rewrite <- !list_elem_of_In, <- list_fmap_compose.
    split; [apply list_elem_of_fmap; eauto | assumption].
Qed.

Lemma fresh_zones_free zs p : Forall fresh_zone zs -> zones_free_page zs p <-> p ∈ zone_pages zs.
Proof.
  intros Hz. rewrite elem_of_zone_pages. unfold zones_free_page. rewrite Forall_forall in Hz.
  split; intros (z & Hin & Hp); exists z; (split; [assumption |]); apply (fresh_zone_free z p (Hz z Hin)); assumption.
Qed.

Lemma fresh_zones_disjoint zs : Forall fresh_zone zs -> NoDup (zone_pages zs) -> zones_disjoint zs.
Proof.
  induction 1 as [| z zs Hz Hzs IH]; intros Hnd; [exact I |]. rewrite zone_pages_cons in Hnd. apply NoDup_app in Hnd as (_ & Hd & Hnd).
  split; [| auto]. intros z' p Hin H1 H2. apply (Hd (p / PageSize * PageSize)); [apply zone_has_page; [apply Hz | assumption] |].
  apply elem_of_zone_pages. exists z'. split; [assumption |]. rewrite Forall_forall in Hzs. apply zone_has_page; [apply (Hzs z' Hin) | assumption].
Qed.

(** All that is left of the map becomes the manager's free memory. *)
Lemma divided_up_inv P meta zs es m r t1 t2 segs : hhdm_ok hhdmBase -> NoDup P -> divided_up P meta zs es ->
  let '(head, m') := push_entries hhdmBase es 0 m in
  let s := mkPMM zs segs head m' r t1 t2 in
  pmm_inv hhdmBase s /\ forall p, page_free hhdmBase s p <-> p ∈ zone_pages zs ++ map_pages es.
Proof.
  intros Hh HP [D1 D2 D3 _ _]. rewrite D1 in HP. apply NoDup_app in HP as (_ & _ & Hnd).
  pose proof Hnd as (Hz & Hd & He)%NoDup_app.
  destruct (push_entries_spec es Hh 0 m []) as (runs & Hf & Hperm); auto.
  { split; constructor. }
  { simpl. rewrite app_nil_r. apply NoDup_fmap_2; [intros x y; unfold mapped; lia | assumption]. }
  destruct (push_entries hhdmBase es 0 m) as [head m']. simpl in Hf, Hperm. rewrite app_nil_r in Hperm.
  assert (Hinv : pmm_inv_runs hhdmBase (mkPMM zs segs head m' r t1 t2) runs).
  { split; simpl; auto.
    - eapply Forall_impl; [exact D3 |]. intros z Hz'. apply Hz'.
    - apply fresh_zones_disjoint; assumption.
    - intros z Hin. rewrite Forall_forall in D3. apply (D3 z Hin).
    - intros a z Ha Hin Hhas. rewrite Hperm in Ha. apply list_elem_of_fmap in Ha as (p & -> & Hp). unfold mapped in Hhas.
      replace (p + hhdmBase - hhdmBase) with p in Hhas by lia.
      rewrite Forall_forall in D3. pose proof (zone_has_page z p (fz_ok _ (D3 z Hin)) Hhas) as Hpg.
      assert (Hal : p mod PageSize = 0).
      { unfold map_pages, list_pages in Hp. apply list_elem_of_In, in_concat in Hp as (l & Hl & Hp). apply list_elem_of_In in Hl, Hp.
        unfold runs_of in Hl. rewrite <- list_fmap_compose in Hl. apply list_elem_of_fmap in Hl as (e & -> & Hin').
        apply elem_of_run_pages in Hp as (i & _ & ->). rewrite Forall_forall in D2. pose proof (eo_align _ (D2 e Hin')).
        unfold PageSize in *. rewrite Z_mod_plus_full. assumption. }
      replace (p / PageSize * PageSize) with p in Hpg by (unfold PageSize in *; Z.div_mod_to_equations; lia).
      apply (Hd p); [| assumption]. apply elem_of_zone_pages. eauto. }
  split; [exists runs; assumption |]. intros p. rewrite (page_free_runs _ _ _ _ Hinv), Hperm, elem_of_app. simpl.
  rewrite fresh_zones_free by assumption. split; [intros [Hp | ?]; auto | intros [? | ?]; auto].
  - apply list_elem_of_fmap in Hp as (q & Hq & Hin). unfold mapped in Hq. right. replace p with q by lia. assumption.
  - left. apply list_elem_of_fmap. exists p. auto.
Qed.
End Ingested.
