(* ===== verification/PmmInitSpec.v ===== *)
(** The promise of [IngestMemory] and [Init], and where memory is lost. *)

From Stdlib Require Import Sorting.Sorted.
From S2P Require Import Prelude Maths Bitmap Random Pmm PmmProofs PmmSafety PmmInit PmmInitProofs.

Lemma reserve_zones_count quota : forall fuel es i zs es' zs', reserve_zones fuel es quota i zs = Ok (es', zs') ->
  (length zs' <= length zs + fuel)%nat.
Proof.
  induction fuel as [| fuel IH]; intros es i zs es' zs' E; cbn [reserve_zones] in E;
    (destruct (i <? quota); [| injection E as <- <-; lia]); [discriminate |].
  destruct (get es 0) as [e0 | |]; cbn [mbind res_bind] in E; try discriminate.
  destruct (ClaimFromSmallest _ _) as [[addr es1] | |]; cbn [mbind res_bind] in E; try discriminate.
  destruct (assert_ _); cbn [mbind res_bind] in E; try discriminate.
  destruct (get es1 0) as [e1 | |]; cbn [mbind res_bind] in E; try discriminate.
  destruct (SortMemoryMapBySize es1) as [es2 | |]; cbn [mbind res_bind] in E; try discriminate.
  apply IH in E. simpl in E. lia.
Qed.

Lemma claim_length i : forall es bytes addr es', claim_loop i es bytes = Ok (addr, es') -> length es' = length es.
Proof.
  induction i as [| i IH]; intros es bytes addr es' E; cbn [claim_loop] in E; [injection E as _ <-; reflexivity |].
  destruct (es !! i) as [e |]; cbn [mbind res_bind deref] in E; [| discriminate].
  destruct (_ <? _); [apply (IH _ _ _ _ E) |]. injection E as _ <-. apply length_insert.
Qed.

(** No entry is lost or added. *)
Lemma reserve_zones_length quota : forall fuel es i zs es' zs', es <> [] -> Z.of_nat (length es) < 2 ^ 32 ->
  reserve_zones fuel es quota i zs = Ok (es', zs') -> length es' = length es.
Proof.
  induction fuel as [| fuel IH]; intros es i zs es' zs' Hne Hs E; cbn [reserve_zones] in E;
    (destruct (i <? quota); [| injection E as <- <-; lia]); [discriminate |].
  destruct (get es 0) as [e0 | |]; cbn [mbind res_bind] in E; try discriminate.
  destruct (ClaimFromSmallest _ _) as [[addr es1] | |] eqn:Ec; cbn [mbind res_bind] in E; try discriminate.
  apply claim_length in Ec. unfold put in Ec. rewrite length_insert in Ec.
  destruct (assert_ _); cbn [mbind res_bind] in E; try discriminate.
  destruct (get es1 0) as [e1 | |]; cbn [mbind res_bind] in E; try discriminate.
  assert (Hne1 : es1 <> []) by (intros ->; destruct es; [congruence | discriminate]).
  destruct (sort_spec es1 Hne1 ltac:(unfold two64; lia)) as (es2 & Es & Hp & _). rewrite Es in E. cbn [mbind res_bind] in E.
  assert (Hl : length es2 = length es1) by (rewrite Hp; reflexivity).
  rewrite (IH es2 _ _ _ _ ltac:(intros ->; destruct es1; [congruence | discriminate]) ltac:(lia) E). lia.
Qed.

Lemma total_pages_range es : Forall (fun e => 0 <= me_length e) es -> forall n, 0 <= n -> 0 <= foldl (fun n e => n + me_length e / PageSize) n es.
Proof.
  induction 1 as [| e es He Hes IH]; intros n Hn; simpl; [assumption |]. apply IH.
  assert (0 <= me_length e / PageSize) by (apply Z.div_pos; unfold PageSize; lia). lia.
Qed.

(** The sizes a 64-bit machine can have. *)
Record map_size (es : list MemmapEntry) (quota : Z) : Prop := mkMapSize {
  ms_entries : (0 < length es)%nat /\ Z.of_nat (length es) < 2 ^ 32;
  ms_quota : 0 <= quota < 2 ^ 40;
  ms_pages : foldl (fun n e => n + me_length e / PageSize) 0 es < 2 ^ 52
}.

(** The pages of the page database. *)
Definition info_pages (es : list MemmapEntry) (zs : list PmContigZone) : Z :=
  AlignUp (sizeof_PmInfoSegment * (Z.of_nat (length es) + Z.of_nat (length zs) + 1) +
    sizeof_PageInfo * (foldl (fun n e => n + me_length e / PageSize) 0 es + 1)) PageSize / PageSize.

Lemma ingest_frames hhdmBase s es quota s' :
  hhdm_ok hhdmBase -> hhdmBase < two64 -> Forall (entry_ok hhdmBase) es -> NoDup (map_pages es) -> map_size es quota ->
  IngestMemory hhdmBase s es quota = Ok s' ->
  pmm_inv hhdmBase s' /\ exists metadata free, map_pages es ≡ₚ metadata ++ free /\
    Z.of_nat (length metadata) = meta_pages (zones s') + info_pages es (zones s') /\ forall p, page_free hhdmBase s' p <-> p ∈ free.
Proof.
  intros Hh Hlt Hok Hnd [[Hne Hlen] Hq Htot] E. unfold IngestMemory in E.
  assert (Htp : 0 <= foldl (fun n e => n + me_length e / PageSize) 0 es)
    by (apply total_pages_range; [eapply Forall_impl; [exact Hok |]; intros e He; apply He | lia]).
  rewrite (u64_small (foldl _ 0 es)) in E by (unfold two64; lia). set (total := foldl _ 0 es) in *.
  assert (D0 : divided_up hhdmBase (map_pages es) [] [] es).
  { split; auto. destruct es; simpl in Hne; [lia | discriminate]. }
  destruct (SortMemoryMapBySize es) as [es1 | |] eqn:Es; cbn [mbind res_bind] in E; try discriminate.
  pose proof (divided_up_sort _ _ _ _ _ _ D0 Es) as D1.
  destruct (reserve_zones _ es1 quota 0 []) as [[es2 zs] | |] eqn:Er; cbn [mbind res_bind] in E; try discriminate.
  destruct (reserve_zones_spec hhdmBase quota Hlt ltac:(lia) _ _ _ _ _ 0 _ _ D1 ltac:(lia) eq_refl Er) as (meta & D2 & Hml).
  pose proof (reserve_zones_count quota _ _ _ _ _ _ Er) as Hz. simpl in Hz.
  pose proof (du_size _ _ _ _ _ D2) as Hl2.
  assert (Hl1 : length es1 = length es).
  { destruct (sort_spec es (du_some _ _ _ _ _ D0) ltac:(unfold two64; lia)) as (x & Ex & Hp & _). rewrite Es in Ex. injection Ex as <-. rewrite Hp. reflexivity. }
  pose proof (reserve_zones_length quota _ _ _ _ _ _ (du_some _ _ _ _ _ D1) (du_size _ _ _ _ _ D1) Er) as Hl2'.
  rewrite (u64_small (sizeof_PmInfoSegment * _)) in E by (unfold sizeof_PmInfoSegment, two64; lia).
  rewrite u64_small in E by (unfold sizeof_PmInfoSegment, sizeof_PageInfo, two64; lia).
  destruct (ClaimFromSmallest es2 _) as [[addr es3] | |] eqn:Ec; cbn [mbind res_bind] in E; try discriminate.
  destruct (Z.eqb_spec addr 0) as [-> | Ha]; [discriminate |]. cbn [negb assert_ mbind res_bind] in E.
  destruct (divided_up_claim _ _ _ _ _ (sizeof_PmInfoSegment * (Z.of_nat (length es2) + Z.of_nat (length zs) + 1) + sizeof_PageInfo * (total + 1)) addr es3 D2
    ltac:(unfold sizeof_PmInfoSegment, sizeof_PageInfo; lia) ltac:(unfold sizeof_PmInfoSegment, sizeof_PageInfo, PageSize, two64; lia) Hlt Ec Ha) as [D3 _].
  pose proof (divided_up_inv hhdmBase _ _ zs es3 (mem s) (rng s) (trashAfterUse s) (trashBeforeUse s)
    (match last (make_segments (used_regions es3 ++ zone_regions zs)
       (AlignUp (u64 (u64 (AlignUp addr sizeof_PmInfoSegment + hhdmBase) + sizeof_PmInfoSegment * (Z.of_nat (length es2) + Z.of_nat (length zs) + 1))) sizeof_PageInfo) 0)
     with Some t => [t] | None => [] end) Hh Hnd D3) as Hinv.
  destruct (push_entries hhdmBase es3 0 (mem s)) as [head m]. injection E as <-. destruct Hinv as [Hi Hf]. split; [exact Hi |].
  eexists _, _. split; [apply D3 |]. split; [| exact Hf]. cbn [zones].
  rewrite length_app, Nat2Z.inj_add, Hml, length_run_pages by (apply Z.div_pos; [apply u64_range | unfold PageSize; lia]).
  unfold info_pages. fold total. rewrite <- Hl1, <- Hl2'. reflexivity.
Qed.

(** ** Batches *)




(** ** A concrete map: two regions *)

Definition demo_map : list MemmapEntry := [mkEntry 0x100000 0x4000; mkEntry 0x200000 0x10000].
Definition blank_pmm : PMM := mkPMM [] [] 0 ∅ (fst (XoshiroRng_ctor initState0)) false false.

Lemma demo_map_ok : Forall (entry_ok demo_hhdm) demo_map /\ NoDup (map_pages demo_map) /\ map_size demo_map 4.
Proof.
  split; [| split].
  - repeat constructor; simpl; vm_compute; congruence || reflexivity.
  - apply (bool_decide_unpack _). vm_compute. exact I.
  - constructor; vm_compute; repeat split; congruence || lia.
Qed.

Lemma demo_hhdm_ok : hhdm_ok demo_hhdm.
Proof. split; [discriminate | reflexivity]. Qed.

(** ** The theorems *)

(** C22: [IngestMemory] accounts for every page frame of a memory map of whole, distinct pages:
    each becomes metadata, exactly as many as the zones, their bitmaps and the page database
    need, or free memory, and the manager starts in the state [Alloc] and [Free] rely on. *)
Theorem pmm_ingest_frames hhdmBase s es quota s' :
  hhdm_ok hhdmBase -> hhdmBase < two64 -> Forall (entry_ok hhdmBase) es -> NoDup (map_pages es) -> map_size es quota ->
  IngestMemory hhdmBase s es quota = Ok s' ->
  pmm_inv hhdmBase s' /\ exists metadata free, map_pages es ≡ₚ metadata ++ free /\
    Z.of_nat (length metadata) = meta_pages (zones s') + info_pages es (zones s') /\ forall p, page_free hhdmBase s' p <-> p ∈ free.
Proof. exact (ingest_frames hhdmBase s es quota s'). Qed.



(** C25: reclaiming boot memory forgets all other free memory: a frame that was free and is not
    part of the reclaimed map is free no more. *)
Theorem reclaim_forgets_free_memory hhdmBase s memmap s' p :
  let es := GetMemmapEntries memmap MemmapProcessSize 0 MEMMAP_RECLAIMABLE in
  hhdm_ok hhdmBase -> hhdmBase < two64 -> Forall (entry_ok hhdmBase) es -> NoDup (map_pages es) -> map_size es 0 ->
  (length es < MemmapProcessSize)%nat -> ReclaimBootMemory hhdmBase 1 s memmap = Ok s' ->
  page_free hhdmBase s p -> (p ∉ map_pages es) -> ~ page_free hhdmBase s' p.
Proof.
  intros es Hh Hlt Hok Hnd Hms Hlen E _ Hp Hfree. unfold ReclaimBootMemory in E. cbn [ingest_batches] in E. fold es in E.
  destruct (IngestMemory hhdmBase s es 0) as [s1 | |] eqn:Ei; cbn [mbind res_bind] in E; try discriminate.
  rewrite (proj2 (Nat.ltb_lt _ _)) in E by assumption. injection E as ->.
  destruct (ingest_frames hhdmBase s es 0 s' Hh Hlt Hok Hnd Hms Ei) as (_ & meta & free & Hperm & _ & Hf).
  apply Hp. rewrite Hperm. apply elem_of_app. right. apply Hf. assumption.
Qed.

(** Of the page database only the last segment can be reached: the information of a page of
    an ingested region is not found. *)
Theorem lookup_misses_ingested_page :
  match IngestMemory demo_hhdm blank_pmm demo_map 0 with
  | Ok s => page_free demo_hhdm s 0x200000 /\ Lookup sizeof_PageInfo s 0x200000 = None
  | _ => False
  end.
Proof.
  destruct (IngestMemory demo_hhdm blank_pmm demo_map 0) as [s | |] eqn:E.
  2,3: assert (H : match IngestMemory demo_hhdm blank_pmm demo_map 0 with Ok _ => True | _ => False end) by (vm_compute; exact I);
       rewrite E in H; exact H.
  assert (H : match IngestMemory demo_hhdm blank_pmm demo_map 0 with
    | Ok s => Lookup sizeof_PageInfo s 0x200000 = None /\ entry_runLength (mem s) (0x200000 + demo_hhdm) = 16 /\
        entry_next (mem s) (freelist_head s) = 0x200000 + demo_hhdm /\ freelist_head s <> 0 /\ entry_next (mem s) (0x200000 + demo_hhdm) = 0
    | _ => False end) by (vm_compute; repeat split; congruence || discriminate).
  rewrite E in H. destruct H as (Hl & Hr & Hn & Hh & Hn2). split; [| assumption]. left.
  exists [(freelist_head s, entry_runLength (mem s) (freelist_head s)); (0x200000 + demo_hhdm, 16)]. split.
  - constructor; [assumption |]. rewrite Hn, <- Hr. constructor; [discriminate |]. rewrite Hn2. constructor.
  - rewrite list_pages_cons. apply elem_of_app. right. rewrite list_pages_cons. apply elem_of_app. left.
    apply elem_of_run_pages. exists 0. split; [lia | unfold PageSize; lia].
Qed.

Lemma pmm_ingest_frames_witness : exists s, IngestMemory demo_hhdm blank_pmm demo_map 4 = Ok s /\ pmm_inv demo_hhdm s.
Proof.
  assert (H : match IngestMemory demo_hhdm blank_pmm demo_map 4 with Ok _ => True | _ => False end) by (vm_compute; exact I).
  destruct (IngestMemory demo_hhdm blank_pmm demo_map 4) as [s | |] eqn:E; try contradiction. exists s. split; [reflexivity |].
  destruct demo_map_ok as (H1 & H2 & H3).
  exact (proj1 (pmm_ingest_frames demo_hhdm blank_pmm demo_map 4 s demo_hhdm_ok ltac:(reflexivity) H1 H2 H3 E)).
Defined.




(** The demo manager of [PmmSafety] has free frames from 0x1000 that a reclaimed region at
    0x800000 does not contain. *)
Definition boot_map : list (Z * MemmapEntry) := [(MEMMAP_RECLAIMABLE, mkEntry 0x800000 0x8000)].

Lemma reclaim_forgets_free_memory_witness : exists s', ReclaimBootMemory demo_hhdm 1 (demo_pmm false) boot_map = Ok s' /\
  page_free demo_hhdm (demo_pmm false) 0x1000 /\ ~ page_free demo_hhdm s' 0x1000.
Proof.
  assert (H : match ReclaimBootMemory demo_hhdm 1 (demo_pmm false) boot_map with Ok _ => True | _ => False end) by (vm_compute; exact I).
  destruct (ReclaimBootMemory demo_hhdm 1 (demo_pmm false) boot_map) as [s' | |] eqn:E; try contradiction. exists s'. split; [reflexivity |].
  assert (Hf : page_free demo_hhdm (demo_pmm false) 0x1000).
  { left. exists [(demo_page, 3)]. split; [apply (demo_list false) |]. rewrite list_pages_cons. apply elem_of_app. left.
    apply elem_of_run_pages. exists 0. split; [lia | reflexivity]. }
  split; [assumption |].
  apply (reclaim_forgets_free_memory demo_hhdm (demo_pmm false) boot_map s' 0x1000); auto.
  - apply demo_hhdm_ok.
  - reflexivity.
  - repeat constructor; simpl; vm_compute; congruence || reflexivity.
  - apply (bool_decide_unpack _). vm_compute. exact I.
  - constructor; vm_compute; repeat split; congruence || lia.
  - simpl. unfold MemmapProcessSize. lia.
  - apply (bool_decide_unpack _). vm_compute. exact I.
Defined.
