(* ===== verification/RBTree.v ===== *)
(** [libs/np-syslib/include/containers/RBTree.h]: the intrusive red-black tree with
    parent pointers, threaded predecessor and successor links and an aggregator
    callback. This file holds the pointer-level operations, [RBTreeProofs.v] their
    correctness against ordered sequences. *)

From S2P Require Import Prelude.

(** ** Data *)

(** A tree item is identified by its address; a link that may be [nullptr] is an option. *)
Definition ptr : Type := positive.

Inductive ColorType : Type := Null | Red | Black.

#[export] Instance ColorType_eq_dec : EqDecision ColorType.
Proof. solve_decision. Defined.

(** The [HookStruct] fields of every item, one map per field, and the tree's root. *)
Record hooks : Type := mkHooks {
  parent : ptr -> option ptr;
  left : ptr -> option ptr;
  right : ptr -> option ptr;
  predecessor : ptr -> option ptr;
  successor : ptr -> option ptr;
  color : ptr -> ColorType;
  root : option ptr
}.

(** The hooks of items that were constructed and never inserted. *)
Definition no_hooks : hooks :=
  mkHooks (fun _ => None) (fun _ => None) (fun _ => None) (fun _ => None) (fun _ => None)
    (fun _ => Null) None.

Definition upd {A} (f : ptr -> A) (p : ptr) (v : A) : ptr -> A :=
  fun x => if decide (x = p) then v else f x.

Definition set_parent (p : ptr) (v : option ptr) (h : hooks) : hooks :=
  mkHooks (upd (parent h) p v) (left h) (right h) (predecessor h) (successor h) (color h) (root h).
Definition set_left (p : ptr) (v : option ptr) (h : hooks) : hooks :=
  mkHooks (parent h) (upd (left h) p v) (right h) (predecessor h) (successor h) (color h) (root h).
Definition set_right (p : ptr) (v : option ptr) (h : hooks) : hooks :=
  mkHooks (parent h) (left h) (upd (right h) p v) (predecessor h) (successor h) (color h) (root h).
Definition set_predecessor (p : ptr) (v : option ptr) (h : hooks) : hooks :=
  mkHooks (parent h) (left h) (right h) (upd (predecessor h) p v) (successor h) (color h) (root h).
Definition set_successor (p : ptr) (v : option ptr) (h : hooks) : hooks :=
  mkHooks (parent h) (left h) (right h) (predecessor h) (upd (successor h) p v) (color h) (root h).
Definition set_color (p : ptr) (v : ColorType) (h : hooks) : hooks :=
  mkHooks (parent h) (left h) (right h) (predecessor h) (successor h) (upd (color h) p v) (root h).
Definition set_root (v : option ptr) (h : hooks) : hooks :=
  mkHooks (parent h) (left h) (right h) (predecessor h) (successor h) (color h) v.

(** [if (p) h(p)->field = v;] *)
Definition if_set (set : ptr -> option ptr -> hooks -> hooks) (p v : option ptr) (h : hooks) : hooks :=
  match p with Some x => set x v h | None => h end.

Definition GetParent (h : hooks) (item : ptr) : option ptr := parent h item.
Definition GetLeft (h : hooks) (item : ptr) : option ptr := left h item.
Definition GetRight (h : hooks) (item : ptr) : option ptr := right h item.
Definition Predecessor (h : hooks) (item : ptr) : option ptr := predecessor h item.
Definition Successor (h : hooks) (item : ptr) : option ptr := successor h item.
Definition GetRoot (h : hooks) : option ptr := root h.

Definition IsRed (h : hooks) (node : option ptr) : bool :=
  match node with None => false | Some n => bool_decide (color h n = Red) end.
Definition IsBlack (h : hooks) (node : option ptr) : bool :=
  match node with None => true | Some n => bool_decide (color h n = Black) end.

(** [First()]: the leftmost item. *)
Fixpoint First_loop (fuel : nat) (h : hooks) (current : ptr) : res ptr :=
  match fuel with
  | O => OutOfFuel
  | S fuel' =>
      match GetLeft h current with
      | Some l => First_loop fuel' h l
      | None => Ok current
      end
  end.

Definition First (fuel : nat) (h : hooks) : res (option ptr) :=
  match GetRoot h with
  | None => Ok None
  | Some current => r ← First_loop fuel h current; Ok (Some r)
  end.

(** The link from above: [root], or the child pointer of [w] that was [old]. *)
Definition replace_child (w : option ptr) (old : ptr) (new : option ptr) (h : hooks) : hooks :=
  match w with
  | None => set_root new h
  | Some w => if decide (GetLeft h w = Some old) then set_left w new h else set_right w new h
  end.

Section Tree.
(** [D] is the state of the items outside their hooks; [Aggregate] is [A::Aggregate]
    and returns whether it changed the item; [less] compares two items. *)
Context {D : Type}.
Variable Aggregate : hooks -> D -> ptr -> D * bool.
Variable less : D -> ptr -> ptr -> bool.

Definition AggregateNode (h : hooks) (d : D) (node : ptr) : D := fst (Aggregate h d node).

Fixpoint AggregatePath (fuel : nat) (h : hooks) (d : D) (node : option ptr) : res D :=
  match node with
  | None => Ok d
  | Some current =>
      match fuel with
      | O => OutOfFuel
      | S fuel' =>
          let '(d, changed) := Aggregate h d current in
          if (changed : bool) then AggregatePath fuel' h d (GetParent h current) else Ok d
      end
  end.

(** ** Rotations *)

Definition RotateLeft (n : ptr) (h : hooks) (d : D) : res (hooks * D) :=
  u ← deref (GetParent h n);
  let v := GetLeft h n in
  let w := GetParent h u in
  let h := if_set set_parent v (Some u) h in
  let h := set_right u v h in
  let h := set_parent u (Some n) h in
  let h := set_left n (Some u) h in
  let h := set_parent n w h in
  let h := replace_child w u (Some n) h in
  let d := AggregateNode h d u in
  let d := AggregateNode h d n in
  Ok (h, d).

Definition RotateRight (n : ptr) (h : hooks) (d : D) : res (hooks * D) :=
  u ← deref (GetParent h n);
  let v := GetRight h n in
  let w := GetParent h u in
  let h := if_set set_parent v (Some u) h in
  let h := set_left u v h in
  let h := set_parent u (Some n) h in
  let h := set_right n (Some u) h in
  let h := set_parent n w h in
  let h := replace_child w u (Some n) h in
  let d := AggregateNode h d u in
  let d := AggregateNode h d n in
  Ok (h, d).

(** ** Insertion *)

(** The two recolouring cases share the recursive call on [grand]; the rotation
    cases are the two sides of [parent == GetLeft(grand)]. *)
Fixpoint FixInsert (fuel : nat) (n : ptr) (h : hooks) (d : D) : res (hooks * D) :=
  match fuel with
  | O => OutOfFuel
  | S fuel' =>
      match GetParent h n with
      | None => Ok (set_color n Black h, d)
      | Some par =>
          let h := set_color n Red h in
          if decide (color h par = Black) then Ok (h, d)
          else
            grand ← deref (GetParent h par);
            if bool_decide (GetLeft h grand = Some par) && IsRed h (GetRight h grand) then
              let h := set_color grand Red h in
              let h := set_color par Black h in
              uncle ← deref (GetRight h grand);
              let h := set_color uncle Black h in
              FixInsert fuel' grand h d
            else if bool_decide (GetRight h grand = Some par) && IsRed h (GetLeft h grand) then
              let h := set_color grand Red h in
              let h := set_color par Black h in
              uncle ← deref (GetLeft h grand);
              let h := set_color uncle Black h in
              FixInsert fuel' grand h d
            else if decide (Some par = GetLeft h grand) then
              '(h, d) ←
                (if decide (Some n = GetRight h par) then
                   '(h, d) ← RotateLeft n h d;
                   '(h, d) ← RotateRight n h d;
                   Ok (set_color n Black h, d)
                 else
                   '(h, d) ← RotateRight par h d;
                   Ok (set_color par Black h, d));
              Ok (set_color grand Red h, d)
            else
              '(h, d) ←
                (if decide (Some n = GetLeft h par) then
                   '(h, d) ← RotateRight n h d;
                   '(h, d) ← RotateLeft n h d;
                   Ok (set_color n Black h, d)
                 else
                   '(h, d) ← RotateLeft par h d;
                   Ok (set_color par Black h, d));
              Ok (set_color grand Red h, d)
      end
  end.

Definition InsertRoot (fuel : nat) (node : ptr) (h : hooks) (d : D) : res (hooks * D) :=
  let h := set_root (Some node) h in
  let d := AggregateNode h d node in
  FixInsert fuel node h d.

Definition InsertLeft (fuel : nat) (par node : ptr) (h : hooks) (d : D) : res (hooks * D) :=
  let h := set_left par (Some node) h in
  let h := set_parent node (Some par) h in
  let pred := Predecessor h par in
  let h := if_set set_successor pred (Some node) h in
  let h := set_predecessor node pred h in
  let h := set_successor node (Some par) h in
  let h := set_predecessor par (Some node) h in
  let d := AggregateNode h d node in
  d ← AggregatePath fuel h d (Some par);
  FixInsert fuel node h d.

Definition InsertRight (fuel : nat) (par node : ptr) (h : hooks) (d : D) : res (hooks * D) :=
  let h := set_right par (Some node) h in
  let h := set_parent node (Some par) h in
  let succ := Successor h par in
  let h := set_successor par (Some node) h in
  let h := set_predecessor node (Some par) h in
  let h := set_successor node succ h in
  let h := if_set set_predecessor succ (Some node) h in
  let d := AggregateNode h d node in
  d ← AggregatePath fuel h d (Some par);
  FixInsert fuel node h d.

(** The descent of [TreeStruct::Insert]. *)
Fixpoint Insert_loop (fuel fuel0 : nat) (node current : ptr) (h : hooks) (d : D) : res (hooks * D) :=
  match fuel with
  | O => OutOfFuel
  | S fuel' =>
      if less d node current then
        match GetLeft h current with
        | None => InsertLeft fuel0 current node h d
        | Some l => Insert_loop fuel' fuel0 node l h d
        end
      else
        match GetRight h current with
        | None => InsertRight fuel0 current node h d
        | Some r => Insert_loop fuel' fuel0 node r h d
        end
  end.

Definition Insert (fuel : nat) (node : ptr) (h : hooks) (d : D) : res (hooks * D) :=
  match GetRoot h with
  | None => InsertRoot fuel node h d
  | Some current => Insert_loop fuel fuel node current h d
  end.

(** ** Removal *)

Fixpoint FixRemove (fuel : nat) (n : ptr) (h : hooks) (d : D) : res (hooks * D) :=
  match fuel with
  | O => OutOfFuel
  | S fuel' =>
      match GetParent h n with
      | None => Ok (h, d)
      | Some par =>
          '(h, d, s) ←
            (if decide (GetLeft h par = Some n) then
               r ← deref (GetRight h par);
               '(h, d) ←
                 (if decide (color h r = Red) then
                    '(h, d) ← RotateLeft r h d;
                    let h := set_color par Red h in
                    Ok (set_color r Black h, d)
                  else Ok (h, d));
               s ← deref (GetRight h par);
               Ok (h, d, s)
             else
               l ← deref (GetLeft h par);
               '(h, d) ←
                 (if decide (color h l = Red) then
                    '(h, d) ← RotateRight l h d;
                    let h := set_color par Red h in
                    Ok (set_color l Black h, d)
                  else Ok (h, d));
               s ← deref (GetLeft h par);
               Ok (h, d, s));
          if IsBlack h (GetLeft h s) && IsBlack h (GetRight h s) then
            if decide (color h par = Black) then
              FixRemove fuel' par (set_color s Red h) d
            else
              let h := set_color par Black h in
              Ok (set_color s Red h, d)
          else
            let parentColor := color h par in
            if decide (GetLeft h par = Some n) then
              '(h, d, s) ←
                (if IsRed h (GetLeft h s) && IsBlack h (GetRight h s) then
                   child ← deref (GetLeft h s);
                   '(h, d) ← RotateRight child h d;
                   let h := set_color s Red h in
                   let h := set_color child Black h in
                   Ok (h, d, child)
                 else Ok (h, d, s));
              '(h, d) ← RotateLeft s h d;
              let h := set_color par Black h in
              let h := set_color s parentColor h in
              x ← deref (GetRight h s);
              Ok (set_color x Black h, d)
            else
              '(h, d, s) ←
                (if IsRed h (GetRight h s) && IsBlack h (GetLeft h s) then
                   child ← deref (GetRight h s);
                   '(h, d) ← RotateLeft child h d;
                   let h := set_color s Red h in
                   let h := set_color child Black h in
                   Ok (h, d, child)
                 else Ok (h, d, s));
              '(h, d) ← RotateRight s h d;
              let h := set_color par Black h in
              let h := set_color s parentColor h in
              x ← deref (GetLeft h s);
              Ok (set_color x Black h, d)
      end
  end.

(** The hook fields an unlinked item is left with; its color stays. *)
Definition clear_links (node : ptr) (h : hooks) : hooks :=
  set_successor node None (set_predecessor node None
    (set_parent node None (set_right node None (set_left node None h)))).

Definition RemoveHalfLeaf (fuel : nat) (node : ptr) (child : option ptr) (h : hooks) (d : D)
  : res (hooks * D) :=
  let pred := Predecessor h node in
  let succ := Successor h node in
  let h := if_set set_successor pred succ h in
  let h := if_set set_predecessor succ pred h in
  '(h, d) ←
    (if decide (color h node = Black) then
       if IsRed h child then
         c ← deref child;
         Ok (set_color c Black h, d)
       else FixRemove fuel node h d
     else Ok (h, d));
  let par := GetParent h node in
  let h := replace_child par node child h in
  let h := if_set set_parent child par h in
  let h := clear_links node h in
  d ← AggregatePath fuel h d par;
  Ok (h, d).

Definition ReplaceNode (fuel : nat) (node replacement : ptr) (h : hooks) (d : D) : res (hooks * D) :=
  let par := GetParent h node in
  let lft := GetLeft h node in
  let rgt := GetRight h node in
  let h := replace_child par node (Some replacement) h in
  let h := set_parent replacement par h in
  let h := set_color replacement (color h node) h in
  let h := set_left replacement lft h in
  let h := if_set set_parent lft (Some replacement) h in
  let h := set_right replacement rgt h in
  let h := if_set set_parent rgt (Some replacement) h in
  let h := if_set set_successor (Predecessor h node) (Some replacement) h in
  let h := set_predecessor replacement (Predecessor h node) h in
  let h := set_successor replacement (Successor h node) h in
  let h := if_set set_predecessor (Successor h node) (Some replacement) h in
  let h := clear_links node h in
  let d := AggregateNode h d replacement in
  d ← AggregatePath fuel h d par;
  Ok (h, d).

Definition Remove (fuel : nat) (node : ptr) (h : hooks) (d : D) : res (hooks * D) :=
  match GetLeft h node with
  | None => RemoveHalfLeaf fuel node (GetRight h node) h d
  | Some l =>
      match GetRight h node with
      | None => RemoveHalfLeaf fuel node (Some l) h d
      | Some _ =>
          pred ← deref (Predecessor h node);
          '(h, d) ← RemoveHalfLeaf fuel pred (GetLeft h pred) h d;
          ReplaceNode fuel node pred h d
      end
  end.

(** [TreeOrderStruct::Insert]: in front of [before], or at the end. *)
Fixpoint rightmost (fuel : nat) (h : hooks) (current : ptr) : res ptr :=
  match fuel with
  | O => OutOfFuel
  | S fuel' =>
      match GetRight h current with
      | Some r => rightmost fuel' h r
      | None => Ok current
      end
  end.

Definition InsertBefore (fuel : nat) (before : option ptr) (node : ptr) (h : hooks) (d : D)
  : res (hooks * D) :=
  match before with
  | None =>
      match GetRoot h with
      | None => InsertRoot fuel node h d
      | Some current => current ← rightmost fuel h current; InsertRight fuel current node h d
      end
  | Some before =>
      match GetLeft h before with
      | None => InsertLeft fuel before node h d
      | Some current => current ← rightmost fuel h current; InsertRight fuel current node h d
      end
  end.

(** ** The checker the header carries

    [CheckInvariant(node, blackDepth, minimal, maximal)]: [None] is [return false],
    [Some (blackDepth, minimal, maximal)] is [return true] with the reference
    parameters it filled; [AggregateCheck] is [A::CheckInvariant]. *)
Variable AggregateCheck : hooks -> D -> ptr -> bool.

Fixpoint CheckInvariant_node (fuel : nat) (h : hooks) (d : D) (node : ptr)
  : res (option (Z * ptr * ptr)) :=
  match fuel with
  | O => OutOfFuel
  | S fuel' =>
      if bool_decide (color h node = Red)
           && (negb (IsBlack h (GetLeft h node)) || negb (IsBlack h (GetRight h node)))
      then Ok None
      else
        lft ← (match GetLeft h node with
               | Some l =>
                   o ← CheckInvariant_node fuel' h d l;
                   Ok (match o with
                       | None => None
                       | Some (leftBlackDepth, minimal, pred) =>
                           if negb (bool_decide (Successor h pred = Some node)) then None
                           else if negb (bool_decide (Predecessor h node = Some pred)) then None
                           else Some (leftBlackDepth, minimal)
                       end)
               | None => Ok (Some (0, node))
               end);
        match lft with
        | None => Ok None
        | Some (leftBlackDepth, minimal) =>
            rgt ← (match GetRight h node with
                   | Some r =>
                       o ← CheckInvariant_node fuel' h d r;
                       Ok (match o with
                           | None => None
                           | Some (rightBlackDepth, succ, maximal) =>
                               if negb (bool_decide (Successor h node = Some succ)) then None
                               else if negb (bool_decide (Predecessor h succ = Some node)) then None
                               else Some (rightBlackDepth, maximal)
                           end)
                   | None => Ok (Some (0, node))
                   end);
            match rgt with
            | None => Ok None
            | Some (rightBlackDepth, maximal) =>
                if negb (leftBlackDepth =? rightBlackDepth) then Ok None
                else
                  let blackDepth := leftBlackDepth in
                  let blackDepth :=
                    if decide (color h node = Black) then blackDepth + 1 else blackDepth in
                  if negb (AggregateCheck h d node) then Ok None
                  else Ok (Some (blackDepth, minimal, maximal))
            end
        end
  end.

Definition CheckInvariant (fuel : nat) (h : hooks) (d : D) : res bool :=
  match GetRoot h with
  | None => Ok true
  | Some r =>
      o ← CheckInvariant_node fuel h d r;
      Ok (match o with Some _ => true | None => false end)
  end.
End Tree.

(** [NullAggregator]. *)
Definition NullAggregate {D} (_ : hooks) (d : D) (_ : ptr) : D * bool := (d, false).
Definition NullAggregateCheck {D} (_ : hooks) (_ : D) (_ : ptr) : bool := true.
