(* ===== verification/RBTreeProofs.v ===== *)
(** Shape lemmas for [RBTree.v]: hooks that represent a binary tree in a context, the
    balance predicate, the aggregates, and what rotations, recolouring and the two
    fix-up loops do to them. *)

From S2P Require Import Prelude RBTree.

(** ** Trees and contexts *)

Inductive tree : Type := E | T (c : ColorType) (l : tree) (p : ptr) (r : tree).

Definition rootp (t : tree) : option ptr := match t with E => None | T _ _ p _ => Some p end.
Definition tcolor (t : tree) : ColorType := match t with E => Black | T c _ _ _ => c end.

Fixpoint inorder (t : tree) : list ptr :=
  match t with E => [] | T _ l p r => inorder l ++ p :: inorder r end.

Fixpoint height (t : tree) : nat :=
  match t with E => 0 | T _ l _ r => S (height l `max` height r) end.

(** The path to a subtree, innermost frame first: the hole is the left child of [p]
    with sibling [r], or the right child of [p] with sibling [l]. *)
Inductive frame : Type :=
| FL (c : ColorType) (p : ptr) (r : tree)
| FR (c : ColorType) (l : tree) (p : ptr).

Fixpoint plug (k : list frame) (t : tree) : tree :=
  match k with
  | [] => t
  | FL c p r :: k => plug k (T c t p r)
  | FR c l p :: k => plug k (T c l p t)
  end.

Definition ctx_parent (k : list frame) : option ptr :=
  match k with [] => None | FL _ p _ :: _ => Some p | FR _ _ p :: _ => Some p end.

Fixpoint ctx_l (k : list frame) : list ptr :=
  match k with
  | [] => []
  | FL _ _ _ :: k => ctx_l k
  | FR _ l p :: k => ctx_l k ++ inorder l ++ [p]
  end.

Fixpoint ctx_r (k : list frame) : list ptr :=
  match k with
  | [] => []
  | FL _ p r :: k => p :: inorder r ++ ctx_r k
  | FR _ _ _ :: k => ctx_r k
  end.

Lemma inorder_plug k t : inorder (plug k t) = ctx_l k ++ inorder t ++ ctx_r k.
Proof.
  revert t. induction k as [| [c p r | c l p] k IH]; intros t; simpl.
  - rewrite app_nil_r. reflexivity.
  - rewrite IH. simpl. rewrite <- app_assoc. reflexivity.
  - rewrite IH. simpl. rewrite <- !app_assoc. simpl. reflexivity.
Qed.

Lemma height_plug k t : (length k + height t <= height (plug k t))%nat.
Proof.
  revert t. induction k as [| [c p r | c l p] k IH]; intros t; simpl; [lia | |];
    (etrans; [| apply IH]); simpl; lia.
Qed.

(** Every element is the root of a subtree. *)
Lemma in_plug p t : p ∈ inorder t -> exists k c l r, t = plug k (T c l p r).
Proof.
  enough (H : forall k0 t, p ∈ inorder t -> exists k c l r, plug k0 t = plug k (T c l p r))
    by exact (H [] t).
  intros k0 u. revert k0.
  induction u as [| c l IHl q r IHr]; intros k0 Hin; simpl in Hin.
  - inversion Hin.
  - apply elem_of_app in Hin as [Hin | Hin].
    + apply (IHl (FL c q r :: k0)), Hin.
    + apply elem_of_cons in Hin as [-> | Hin].
      * exists k0, c, l, r. reflexivity.
      * apply (IHr (FR c l q :: k0)), Hin.
Qed.

(** ** Representation *)

Fixpoint rep (h : hooks) (par : option ptr) (t : tree) : Prop :=
  match t with
  | E => True
  | T c l p r =>
      parent h p = par /\ left h p = rootp l /\ right h p = rootp r /\ color h p = c /\
      rep h (Some p) l /\ rep h (Some p) r
  end.

Fixpoint rep_ctx (h : hooks) (k : list frame) (child : option ptr) : Prop :=
  match k with
  | [] => root h = child
  | FL c p r :: k =>
      parent h p = ctx_parent k /\ left h p = child /\ right h p = rootp r /\ color h p = c /\
      rep h (Some p) r /\ rep_ctx h k (Some p)
  | FR c l p :: k =>
      parent h p = ctx_parent k /\ left h p = rootp l /\ right h p = child /\ color h p = c /\
      rep h (Some p) l /\ rep_ctx h k (Some p)
  end.

(** The hooks agree on the tree fields of an item. *)
Definition same_node (h h' : hooks) (x : ptr) : Prop :=
  parent h' x = parent h x /\ left h' x = left h x /\ right h' x = right h x /\ color h' x = color h x.

(** A subtree that keeps its fields, its root's parent link apart. *)
Lemma rep_move h h' par par' t :
  (forall x, x ∈ inorder t -> left h' x = left h x /\ right h' x = right h x /\ color h' x = color h x) ->
  (forall x, x ∈ inorder t -> rootp t <> Some x -> parent h' x = parent h x) ->
  (forall x, rootp t = Some x -> parent h' x = par') ->
  NoDup (inorder t) ->
  rep h par t -> rep h' par' t.
Proof.
  revert par par'. induction t as [| c l IHl p r IHr]; intros par par' Hf Hp Hr Hnd H; [exact I |].
  simpl in *. destruct H as (H1 & H2 & H3 & H4 & H5 & H6).
  apply NoDup_app in Hnd as (Hndl & Hdis & Hndr). apply NoDup_cons in Hndr as [Hpr Hndr].
  destruct (Hf p) as (E1 & E2 & E3); [set_solver |].
  rewrite E1, E2, E3. repeat split; auto.
  - apply (IHl (Some p)); [set_solver | | | assumption | assumption].
    + intros x Hx _. apply Hp; [set_solver |]. intros [= ->]. set_solver.
    + intros x Hx. destruct l as [| cl ll q lr]; [discriminate |]. injection Hx as <-.
      simpl in H5. rewrite Hp; [tauto | set_solver |]. intros [= ->]. set_solver.
  - apply (IHr (Some p)); [set_solver | | | assumption | assumption].
    + intros x Hx _. apply Hp; [set_solver |]. intros [= ->]. set_solver.
    + intros x Hx. destruct r as [| cr rl q rr]; [discriminate |]. injection Hx as <-.
      simpl in H6. rewrite Hp; [tauto | set_solver |]. intros [= ->]. set_solver.
Qed.

Lemma rep_frame h h' par t : (forall x, x ∈ inorder t -> same_node h h' x) -> rep h par t -> rep h' par t.
Proof.
  unfold same_node. revert par. induction t as [| c l IHl p r IHr]; intros par Hf H; [exact I |].
  simpl in *. destruct H as (H1 & H2 & H3 & H4 & H5 & H6).
  destruct (Hf p) as (E1 & E2 & E3 & E4); [set_solver |]. rewrite E1, E2, E3, E4.
  repeat split; auto; [apply IHl | apply IHr]; set_solver.
Qed.

(** A context that keeps its fields, the link to the hole apart. *)
Lemma rep_ctx_frame h h' k child :
  root h' = root h ->
  (forall x, x ∈ ctx_l k ++ ctx_r k -> same_node h h' x) ->
  rep_ctx h k child -> rep_ctx h' k child.
Proof.
  unfold same_node. revert child.
  induction k as [| [c p r | c l p] k IH]; intros child Hroot Hf H; simpl in *; [congruence | |];
    destruct H as (H1 & H2 & H3 & H4 & H5 & H6);
    (destruct (Hf p) as (E1 & E2 & E3 & E4); [set_solver |]); rewrite E1, E2, E3, E4;
    repeat split; auto; first [apply (rep_frame h); [unfold same_node; set_solver | assumption]
                              | apply IH; [assumption | set_solver | assumption]].
Qed.

Lemma rep_elem_parent h par t x : rep h par t -> x ∈ inorder t -> rootp t <> Some x ->
  exists q, parent h x = Some q /\ q ∈ inorder t.
Proof.
  revert par. induction t as [| c l IHl p r IHr]; intros par H Hx Hne; simpl in *; [inversion Hx |].
  destruct H as (_ & _ & _ & _ & Hl & Hr).
  apply elem_of_app in Hx as [Hx | Hx]; [| apply elem_of_cons in Hx as [-> | Hx]; [congruence |]].
  - destruct (decide (rootp l = Some x)) as [E0 |].
    + destruct l; [discriminate |]. injection E0 as ->. exists p. simpl in Hl.
      split; [tauto | set_solver].
    + destruct (IHl _ Hl Hx) as (q & ? & ?); [assumption | exists q; set_solver].
  - destruct (decide (rootp r = Some x)) as [E0 |].
    + destruct r; [discriminate |]. injection E0 as ->. exists p. simpl in Hr.
      split; [tauto | set_solver].
    + destruct (IHr _ Hr Hx) as (q & ? & ?); [assumption | exists q; set_solver].
Qed.

(** ** Aggregates

    What the tree asks of its aggregator, and gives back for it: the aggregate
    [value] of an item is a sum, in a monoid, of the weights of the items of its subtree;
    [Aggregate] recomputes it from the two children, reports whether it changed, and keeps
    the [info] of every item. *)
Class Aggregator {D V J : Type} (Aggregate : hooks -> D -> ptr -> D * bool) := {
  info : D -> ptr -> J;
  weight : J -> V;
  value : D -> ptr -> V;
  agg_op : V -> V -> V;
  agg_unit : V;
  agg_assoc : forall a b c, agg_op a (agg_op b c) = agg_op (agg_op a b) c;
  agg_unit_l : forall a, agg_op agg_unit a = a;
  agg_unit_r : forall a, agg_op a agg_unit = a;
  agg_info : forall h d p x, info (fst (Aggregate h d p)) x = info d x;
  agg_value : forall h d p, value (fst (Aggregate h d p)) p =
    agg_op (from_option (value d) agg_unit (left h p))
      (agg_op (weight (info d p)) (from_option (value d) agg_unit (right h p)));
  agg_other : forall h d p x, x <> p -> value (fst (Aggregate h d p)) x = value d x;
  agg_unchanged : forall h d p, snd (Aggregate h d p) = false ->
    value (fst (Aggregate h d p)) p = value d p
}.

(** The tree without an aggregator carries the trivial one, which keeps all data. *)
#[export, program] Instance NullAggregator {D} : Aggregator (D := D) (V := unit) (J := D) NullAggregate := {
  info := fun d _ => d; weight := fun _ => tt; value := fun _ _ => tt; agg_op := fun _ _ => tt; agg_unit := tt
}.
Solve Obligations with (intros; repeat match goal with a : unit |- _ => destruct a end; reflexivity).

Section Aggregates.
Context {D V J : Type} (Aggregate : hooks -> D -> ptr -> D * bool) `{!Aggregator (V := V) (J := J) Aggregate}.

Definition own (d : D) (x : ptr) : V := weight (info d x).

Definition msum (d : D) (xs : list ptr) : V := foldr (fun x acc => agg_op (own d x) acc) agg_unit xs.

Lemma msum_app d xs ys : msum d (xs ++ ys) = agg_op (msum d xs) (msum d ys).
Proof.
  induction xs as [| x xs IH]; simpl; [rewrite agg_unit_l; reflexivity |].
  rewrite IH, agg_assoc. reflexivity.
Qed.

(** Every subtree's root holds the sum over the subtree. *)
Fixpoint aggd (d : D) (t : tree) : Prop :=
  match t with
  | E => True
  | T c l p r => value d p = msum d (inorder l ++ p :: inorder r) /\ aggd d l /\ aggd d r
  end.

Fixpoint aggk (d : D) (k : list frame) (xs : list ptr) : Prop :=
  match k with
  | [] => True
  | FL c p r :: k =>
      value d p = msum d (xs ++ p :: inorder r) /\ aggd d r /\ aggk d k (xs ++ p :: inorder r)
  | FR c l p :: k =>
      value d p = msum d (inorder l ++ p :: xs) /\ aggd d l /\ aggk d k (inorder l ++ p :: xs)
  end.

(** Two states that hold the same of an item. *)
Definition same_data (d d' : D) (x : ptr) : Prop := value d' x = value d x.
Definition same_own (d d' : D) : Prop := forall x, info d' x = info d x.

Lemma msum_own d d' xs : same_own d d' -> msum d' xs = msum d xs.
Proof. intros H. induction xs as [| x xs IH]; simpl; [reflexivity |].
  unfold own. rewrite IH, H. reflexivity. Qed.

Lemma aggd_frame d d' t :
  same_own d d' -> (forall x, x ∈ inorder t -> same_data d d' x) -> aggd d t -> aggd d' t.
Proof.
  unfold same_data. intros Ho. induction t as [| c l IHl p r IHr]; intros Hv H; [exact I |].
  simpl in *. destruct H as (H1 & H2 & H3).
  rewrite Hv, (msum_own d d') by (assumption || set_solver).
  split; [assumption | split; [apply IHl | apply IHr]]; set_solver.
Qed.

Lemma aggk_frame d d' k xs :
  same_own d d' -> (forall x, x ∈ ctx_l k ++ ctx_r k -> same_data d d' x) -> aggk d k xs -> aggk d' k xs.
Proof.
  intros Ho. revert xs. induction k as [| [c p r | c l p] k IH]; intros xs Hv H; [exact I | |];
    simpl in *; destruct H as (H1 & H2 & H3); rewrite (msum_own d d') by assumption;
    (split; [rewrite <- H1; apply Hv; set_solver | split;
      [apply (aggd_frame d); [assumption | set_solver | assumption] | apply IH; [set_solver | assumption]]]).
Qed.

(** A context sees its hole through the hole's sum only. *)
Lemma aggk_sum d k xs ys : msum d xs = msum d ys -> aggk d k xs -> aggk d k ys.
Proof.
  revert xs ys. induction k as [| [c p r | c l p] k IH]; intros xs ys Heq H; [exact I | |];
    simpl in *; destruct H as (H1 & H2 & H3).
  - assert (Heq' : msum d (xs ++ p :: inorder r) = msum d (ys ++ p :: inorder r))
      by (rewrite !msum_app, Heq; reflexivity).
    rewrite <- Heq'. split; [assumption | split; [assumption | exact (IH _ _ Heq' H3)]].
  - assert (Heq' : msum d (inorder l ++ p :: xs) = msum d (inorder l ++ p :: ys))
      by (rewrite !msum_app; simpl; rewrite Heq; reflexivity).
    rewrite <- Heq'. split; [assumption | split; [assumption | exact (IH _ _ Heq' H3)]].
Qed.

(** The value [Aggregate] reads for a child. *)
Lemma child_value d t : aggd d t -> from_option (value d) agg_unit (rootp t) = msum d (inorder t).
Proof. destruct t as [| c l p r]; simpl; [reflexivity | tauto]. Qed.

Lemma AggregateNode_own h d p : same_own d (AggregateNode Aggregate h d p).
Proof. intros x. apply agg_info. Qed.

Lemma AggregateNode_other h d p x : x <> p -> same_data d (AggregateNode Aggregate h d p) x.
Proof. apply agg_other. Qed.

(** Aggregating an item whose subtrees are aggregated. *)
Lemma AggregateNode_at h d c l p r :
  left h p = rootp l -> right h p = rootp r -> aggd d l -> aggd d r ->
  (p ∉ inorder l) -> (p ∉ inorder r) ->
  aggd (AggregateNode Aggregate h d p) (T c l p r).
Proof.
  intros Hl Hr Al Ar Nl Nr. simpl. split; [| split].
  - rewrite (msum_own d) by apply AggregateNode_own.
    unfold AggregateNode. rewrite agg_value, Hl, Hr, !child_value, msum_app by assumption. reflexivity.
  - apply (aggd_frame d); [apply AggregateNode_own | | assumption].
    intros x Hx. apply AggregateNode_other. intros ->. contradiction.
  - apply (aggd_frame d); [apply AggregateNode_own | | assumption].
    intros x Hx. apply AggregateNode_other. intros ->. contradiction.
Qed.

End Aggregates.
Arguments own {_ _ _ _ _} _ _.
Arguments msum {_ _ _ _ _} _ _.
Arguments aggd {_ _ _ _ _} _ _.
Arguments aggk {_ _ _ _ _} _ _ _.
Arguments same_data {_ _ _ _ _} _ _ _.
Arguments same_own {_ _ _ _ _} _ _.

(** ** Links from above *)

Ltac upd_cases :=
  unfold upd in *; repeat case_decide; simplify_eq; auto.

Lemma replace_child_other h k old new x :
  x ∉ ctx_l k ++ ctx_r k -> same_node h (replace_child (ctx_parent k) old new h) x.
Proof.
  unfold same_node, replace_child. intros Hx.
  destruct k as [| [c p r | c l p] k]; simpl in *; [auto | |];
    (case_decide; simpl; repeat split; auto; unfold upd; case_decide; auto; set_solver).
Qed.

Lemma replace_child_ctx h k old new :
  NoDup (ctx_l k ++ old :: ctx_r k) ->
  rep_ctx h k (Some old) -> rep_ctx (replace_child (ctx_parent k) old new h) k new.
Proof.
  destruct k as [| [c p r | c l p] k]; intros Hnd H; simpl in *; [reflexivity | |];
    destruct H as (H1 & H2 & H3 & H4 & H5 & H6).
  - rewrite decide_True by assumption.
    assert (p ∉ inorder r ++ ctx_l k ++ ctx_r k) by (apply NoDup_app in Hnd as (? & ? & Hnd);
      apply NoDup_cons in Hnd as [? Hnd]; apply NoDup_cons in Hnd as [? Hnd]; set_solver).
    repeat split; simpl; auto.
    + unfold upd. rewrite decide_True by reflexivity. reflexivity.
    + apply (rep_frame h); [| assumption]. intros x Hx. unfold same_node; simpl.
      repeat split. unfold upd. case_decide; [set_solver | reflexivity].
    + apply (rep_ctx_frame h); [reflexivity | | assumption]. intros x Hx. unfold same_node; simpl.
      repeat split. unfold upd. case_decide; [set_solver | reflexivity].
  - assert (GetLeft h p <> Some old).
    { unfold GetLeft. rewrite H2. destruct l; simpl; [discriminate |]. intros [= ->].
      apply NoDup_app in Hnd as (? & Hd & ?). apply (Hd old); [set_solver | set_solver]. }
    rewrite decide_False by assumption.
    assert (p ∉ inorder l ++ ctx_l k ++ ctx_r k).
    { rewrite <- !app_assoc in Hnd. apply NoDup_app in Hnd as (? & ? & Hnd).
      apply NoDup_app in Hnd as (? & ? & Hnd). simpl in Hnd.
      apply NoDup_cons in Hnd as [? Hnd]. set_solver. }
    repeat split; simpl; auto.
    + unfold upd. rewrite decide_True by reflexivity. reflexivity.
    + apply (rep_frame h); [| assumption]. intros x Hx. unfold same_node; simpl.
      repeat split. unfold upd. case_decide; [set_solver | reflexivity].
    + apply (rep_ctx_frame h); [reflexivity | | assumption]. intros x Hx. unfold same_node; simpl.
      repeat split. unfold upd. case_decide; [set_solver | reflexivity].
Qed.

Lemma replace_child_threads w old new h :
  predecessor (replace_child w old new h) = predecessor h /\
  successor (replace_child w old new h) = successor h /\
  color (replace_child w old new h) = color h /\
  parent (replace_child w old new h) = parent h.
Proof. unfold replace_child. destruct w; [case_decide |]; auto. Qed.

(** ** A focused tree *)

Definition clean (h : hooks) (x : ptr) : Prop :=
  parent h x = None /\ left h x = None /\ right h x = None.

Section Focus.
Context {D V J : Type} (Aggregate : hooks -> D -> ptr -> D * bool) `{!Aggregator (V := V) (J := J) Aggregate}.
Local Abbreviation RotateLeft := (RotateLeft Aggregate).
Local Abbreviation RotateRight := (RotateRight Aggregate).

(** The hooks hold the tree [plug k t], every item outside it is unlinked, and all
    aggregates are up to date. *)
Record at_ (h : hooks) (d : D) (k : list frame) (t : tree) : Prop := mkAt {
  at_ctx : rep_ctx h k (rootp t);
  at_rep : rep h (ctx_parent k) t;
  at_nodup : NoDup (inorder (plug k t));
  at_clean : forall x, x ∉ inorder (plug k t) -> clean h x;
  at_agg : aggd d t;
  at_aggk : aggk d k (inorder t)
}.

Lemma at_FL h d c p r k t : at_ h d (FL c p r :: k) t <-> at_ h d k (T c t p r).
Proof. split; intros [H1 H2 H3 H4 H5 H6]; simpl in *; constructor; simpl; tauto. Qed.

Lemma at_FR h d c l p k t : at_ h d (FR c l p :: k) t <-> at_ h d k (T c l p t).
Proof. split; intros [H1 H2 H3 H4 H5 H6]; simpl in *; constructor; simpl; tauto. Qed.

Lemma at_plug h d k t : at_ h d k t <-> at_ h d [] (plug k t).
Proof.
  revert t. induction k as [| [c p r | c l p] k IH]; intros t; [reflexivity | |]; simpl.
  - rewrite at_FL. apply IH.
  - rewrite at_FR. apply IH.
Qed.

Lemma at_fields h d k c l p r :
  at_ h d k (T c l p r) ->
  parent h p = ctx_parent k /\ left h p = rootp l /\ right h p = rootp r /\ color h p = c.
Proof. intros [_ H _ _ _ _]. simpl in H. tauto. Qed.

(** What a step that only restructures leaves alone. *)
Definition threads_kept (h h' : hooks) : Prop :=
  predecessor h' = predecessor h /\ successor h' = successor h.

Lemma at_nodup_split h d k c l p r :
  at_ h d k (T c l p r) ->
  NoDup (inorder l) /\ NoDup (inorder r) /\ (p ∉ inorder l) /\ (p ∉ inorder r) /\
  (forall x, x ∈ inorder l -> (x ∉ inorder r)) /\
  (forall x, x ∈ ctx_l k ++ ctx_r k -> x <> p /\ (x ∉ inorder l) /\ (x ∉ inorder r)) /\
  NoDup (ctx_l k ++ p :: ctx_r k).
Proof.
  intros [_ _ H _ _ _]. rewrite inorder_plug in H. simpl in H.
  assert (Hp : ctx_l k ++ (inorder l ++ p :: inorder r) ++ ctx_r k
            ≡ₚ p :: (inorder l ++ inorder r ++ ctx_l k ++ ctx_r k)) by solve_Permutation.
  rewrite Hp in H. apply NoDup_cons in H as [Hn H]. apply NoDup_app in H as (Hl & Hd & H).
  apply NoDup_app in H as (Hr & Hd2 & H).
  split_and!; [assumption | assumption | set_solver | set_solver | set_solver | |].
  - intros x Hx. split_and!; [set_solver | |]; intros Hx2; [apply (Hd x Hx2); set_solver | apply (Hd2 x Hx2 Hx)].
  - assert (Hp2 : ctx_l k ++ p :: ctx_r k ≡ₚ p :: (ctx_l k ++ ctx_r k)) by solve_Permutation.
    rewrite Hp2. apply NoDup_cons. split; [set_solver | assumption].
Qed.

(** Recolouring the focused item. *)
Lemma set_color_at h d k c c' l p r :
  at_ h d k (T c l p r) ->
  at_ (set_color p c' h) d k (T c' l p r) /\ threads_kept h (set_color p c' h).
Proof.
  intros H. destruct (at_nodup_split _ _ _ _ _ _ _ H) as (_ & _ & Nl & Nr & _ & Nk & _).
  destruct H as [H1 H2 H3 H4 H5 H6]. simpl in H2. destruct H2 as (? & ? & ? & ? & Rl & Rr).
  assert (Hs : forall x, x <> p -> same_node h (set_color p c' h) x).
  { intros x Hx. unfold same_node; simpl. repeat split. unfold upd. rewrite decide_False by assumption. reflexivity. }
  split; [| split; reflexivity].
  constructor; simpl in *; auto.
  - apply (rep_ctx_frame h); [reflexivity | | assumption]. intros x Hx. apply Hs. apply Nk, Hx.
  - repeat split; auto.
    + unfold upd. rewrite decide_True; reflexivity.
    + apply (rep_frame h); [| assumption]. intros x Hx. apply Hs. congruence.
    + apply (rep_frame h); [| assumption]. intros x Hx. apply Hs. congruence.
  - rewrite inorder_plug in *. assumption.
  - intros x. specialize (H4 x). rewrite inorder_plug in *. assumption.
Qed.

(** ** Rotations

    What the pointer writes of a rotation around [u] and its child [n] do, whichever
    side [n] is on: [v] is the subtree that changes sides. *)
Record rotated (h h2 : hooks) (k : list frame) (u n : ptr) (v : option ptr) : Prop := mkRotated {
  rot_ctx : rep_ctx h2 k (Some n);
  rot_other : forall x, (x ∉ ctx_l k ++ ctx_r k) -> x <> u -> x <> n -> v <> Some x -> same_node h h2 x;
  rot_child : forall x, v = Some x ->
    parent h2 x = Some u /\ left h2 x = left h x /\ right h2 x = right h x /\ color h2 x = color h x;
  rot_u : parent h2 u = Some n /\ color h2 u = color h u;
  rot_n : parent h2 n = ctx_parent k /\ color h2 n = color h n;
  rot_threads : threads_kept h h2
}.

Ltac upd_step :=
  simpl; unfold upd;
  repeat (first [rewrite decide_True by congruence | rewrite decide_False by congruence]); auto.

Lemma rotate_writes h k u n v (f g : ptr -> option ptr -> hooks -> hooks) :
  (f = set_right /\ g = set_left) \/ (f = set_left /\ g = set_right) ->
  rep_ctx h k (Some u) -> NoDup (ctx_l k ++ u :: ctx_r k) ->
  u <> n -> (n ∉ ctx_l k ++ ctx_r k) ->
  (forall x, v = Some x -> x <> u /\ x <> n /\ (x ∉ ctx_l k ++ ctx_r k)) ->
  let h1 := set_parent n (ctx_parent k) (g n (Some u) (set_parent u (Some n)
              (f u v (if_set set_parent v (Some u) h)))) in
  let h2 := replace_child (ctx_parent k) u (Some n) h1 in
  rotated h h2 k u n v /\ same_node h1 h2 u /\ same_node h1 h2 n.
Proof.
  intros Hfg Hctx Hnd Hun Hn Hv h1 h2.
  assert (Hu : u ∉ ctx_l k ++ ctx_r k).
  { apply NoDup_app in Hnd as (? & Hd & Hnd). apply NoDup_cons in Hnd as [? _].
    intros [Hx | Hx]%elem_of_app; [apply (Hd u Hx); set_solver | contradiction]. }
  assert (S1 : forall x, x <> u -> x <> n -> v <> Some x -> same_node h h1 x).
  { intros x ? ? ?. unfold h1, same_node. destruct Hfg as [[-> ->] | [-> ->]], v; upd_step. }
  assert (Sc : forall x, v = Some x -> parent h1 x = Some u /\ left h1 x = left h x /\
                right h1 x = right h x /\ color h1 x = color h x).
  { intros x ->. destruct (Hv x eq_refl) as (? & ? & _). unfold h1.
    destruct Hfg as [[-> ->] | [-> ->]]; upd_step. }
  assert (S2 : forall x, x ∉ ctx_l k ++ ctx_r k -> same_node h1 h2 x)
    by (intros; apply replace_child_other; assumption).
  split; [| split; apply S2; assumption].
  constructor.
  - apply replace_child_ctx; [assumption |].
    apply (rep_ctx_frame h); [unfold h1; destruct Hfg as [[-> ->] | [-> ->]], v; reflexivity | | assumption].
    intros x Hx. apply S1; [congruence | congruence |]. intros Hvx. destruct (Hv x Hvx) as (_ & _ & ?).
    contradiction.
  - intros x Hx ? ? ?. destruct (S2 x Hx) as (E1 & E2 & E3 & E4).
    destruct (S1 x) as (E5 & E6 & E7 & E8); auto. unfold same_node. rewrite E1, E2, E3, E4; auto.
  - intros x Hx. destruct (Hv x Hx) as (_ & _ & Hk). destruct (S2 x Hk) as (-> & -> & -> & ->). auto.
  - destruct (S2 u Hu) as (-> & _ & _ & ->). unfold h1. destruct Hfg as [[-> ->] | [-> ->]], v; upd_step.
  - destruct (S2 n Hn) as (-> & _ & _ & ->). unfold h1. destruct Hfg as [[-> ->] | [-> ->]], v; upd_step.
  - unfold threads_kept, h2.
    destruct (replace_child_threads (ctx_parent k) u (Some n) h1) as (-> & -> & _).
    unfold h1. destruct Hfg as [[-> ->] | [-> ->]], v; split; reflexivity.
Qed.

(** A subtree that is not the one changing sides keeps its representation; the one
    that changes sides gets its new parent. *)
Lemma rotated_sub h h2 k u n v par t :
  rotated h h2 k u n v ->
  (forall x, x ∈ inorder t -> (x ∉ ctx_l k ++ ctx_r k) /\ x <> u /\ x <> n /\ v <> Some x) ->
  rep h par t -> rep h2 par t.
Proof. intros R Hx. apply rep_frame. intros x Hin. apply (rot_other _ _ _ _ _ _ R); apply Hx, Hin. Qed.

Lemma rotated_moved h h2 k u n par t :
  rotated h h2 k u n (rootp t) ->
  (forall x, x ∈ inorder t -> (x ∉ ctx_l k ++ ctx_r k) /\ x <> u /\ x <> n) ->
  NoDup (inorder t) -> rep h par t -> rep h2 (Some u) t.
Proof.
  intros R Hx. apply rep_move.
  - intros x Hin. destruct (decide (rootp t = Some x)) as [Ht | Ht].
    + apply (rot_child _ _ _ _ _ _ R x Ht).
    + apply (rot_other _ _ _ _ _ _ R); [apply Hx, Hin .. | assumption].
  - intros x Hin Hne. apply (rot_other _ _ _ _ _ _ R); [apply Hx, Hin .. | assumption].
  - intros x Ht. apply (rot_child _ _ _ _ _ _ R x Ht).
Qed.

(** The tree after the rotation and the two aggregations that end it. *)
Lemma rotated_at h h2 d k u n v t c l r :
  rotated h h2 k u n v -> at_ h d k t ->
  inorder (T c l n r) = inorder t -> (u ∈ inorder t) -> (n ∈ inorder t) ->
  (forall x, v = Some x -> x ∈ inorder t) ->
  rep h2 (ctx_parent k) (T c l n r) ->
  let d1 := AggregateNode Aggregate h2 d u in
  aggd d1 l -> aggd d1 r ->
  at_ h2 (AggregateNode Aggregate h2 d1 n) k (T c l n r) /\
  same_own d (AggregateNode Aggregate h2 d1 n).
Proof.
  intros R [Hctx Hrep Hnd Hcl Hag Hagk] Eq Hu Hn Hv Hrep' d1 Al Ar.
  assert (Hk : forall x, x ∈ inorder t -> x ∉ ctx_l k ++ ctx_r k).
  { rewrite inorder_plug in Hnd. apply NoDup_app in Hnd as (_ & D1 & Hnd).
    apply NoDup_app in Hnd as (_ & D2 & _). intros x Hx [Hxk | Hxk]%elem_of_app;
    [apply (D1 x Hxk) | apply (D2 x Hx Hxk)]. set_solver. }
  split; [constructor |].
  - apply (rot_ctx _ _ _ _ _ _ R).
  - assumption.
  - rewrite inorder_plug, Eq, <- inorder_plug. assumption.
  - intros x Hx. rewrite inorder_plug, Eq, <- inorder_plug in Hx. pose proof (Hcl x Hx) as Hc.
    rewrite inorder_plug in Hx.
    destruct (rot_other _ _ _ _ _ _ R x) as (E1 & E2 & E3 & _);
      [set_solver | set_solver | set_solver | intros ?%Hv; set_solver |].
    unfold clean. rewrite E1, E2, E3. assumption.
  - simpl in Hrep'. apply AggregateNode_at; try tauto;
      rewrite <- Eq, inorder_plug in *; clear - Hnd Eq; rewrite <- Eq in Hnd; simpl in Hnd;
      apply NoDup_app in Hnd as (_ & _ & Hnd); apply NoDup_app in Hnd as (Hnd & _ & _);
      apply NoDup_app in Hnd as (_ & D1 & Hnd); apply NoDup_cons in Hnd as [? _]; set_solver.
  - rewrite Eq. apply (aggk_frame _ d1); [apply AggregateNode_own | |].
    { intros x Hx. apply AggregateNode_other. intros ->. apply (Hk n); assumption. }
    apply (aggk_frame _ d); [apply AggregateNode_own | | assumption].
    intros x Hx. apply AggregateNode_other. intros ->. apply (Hk u); assumption.
  - intros x. unfold d1. rewrite !(AggregateNode_own Aggregate). reflexivity.
Qed.

(** The facts both rotation lemmas start from. *)
Lemma two_nodes h d k c1 c2 a u b n c :
  at_ h d k (T c1 a u (T c2 b n c)) \/ at_ h d k (T c1 (T c2 a n b) u c) ->
  u <> n /\ (u ∉ inorder a ++ inorder b ++ inorder c) /\ (n ∉ inorder a ++ inorder b ++ inorder c) /\
  (forall x, x ∈ inorder a -> x ∉ inorder b ++ inorder c) /\ (forall x, x ∈ inorder b -> x ∉ inorder c) /\
  NoDup (inorder b) /\ NoDup (ctx_l k ++ u :: ctx_r k) /\
  (forall x, x = u \/ x = n \/ x ∈ inorder a ++ inorder b ++ inorder c -> x ∉ ctx_l k ++ ctx_r k).
Proof.
  intros H.
  assert (Hnd : NoDup (u :: n :: inorder a ++ inorder b ++ inorder c ++ ctx_l k ++ ctx_r k)).
  { destruct H as [[_ _ H _ _ _] | [_ _ H _ _ _]]; rewrite inorder_plug in H; simpl in H;
      (eapply NoDup_Permutation_proper; [| exact H]; solve_Permutation). }
  assert (Hk : NoDup (ctx_l k ++ u :: ctx_r k))
    by (destruct H as [H | H]; apply (at_nodup_split _ _ _ _ _ _ _ H)).
  apply NoDup_cons in Hnd as [Hu Hnd]. apply NoDup_cons in Hnd as [Hn Hnd].
  apply NoDup_app in Hnd as (_ & Da & Hnd). apply NoDup_app in Hnd as (? & Db & Hnd).
  apply NoDup_app in Hnd as (_ & Dc & Hnd).
  split_and!; [set_solver.. | assumption | assumption |].
  intros x [-> | [-> | Hx]]; [set_solver | set_solver |].
  apply elem_of_app in Hx as [Hx | Hx]; [intros ?; apply (Da x Hx); set_solver |].
  apply elem_of_app in Hx as [Hx | Hx]; [intros ?; apply (Db x Hx); set_solver | apply (Dc x Hx)].
Qed.

Lemma rootp_in t x : rootp t = Some x -> x ∈ inorder t.
Proof. destruct t; simpl; [discriminate | intros [= ->]; set_solver]. Qed.

Lemma RotateLeft_at h d k cu a u cn b n c :
  at_ h d k (T cu a u (T cn b n c)) ->
  exists h' d', RotateLeft n h d = Ok (h', d') /\
    at_ h' d' k (T cn (T cu a u b) n c) /\ threads_kept h h' /\ same_own d d'.
Proof.
  intros H.
  destruct (two_nodes _ _ _ _ _ _ _ _ _ _ (or_introl H)) as (Hun & Nu & Nn & Da & Db & NDb & NDk & Kx).
  pose proof H as [Hctx Hrep _ _ Hag _]. simpl in Hrep, Hag, Hctx.
  destruct Hrep as (Pu & Lu & Ru & Cu & Ra & Pn & Ln & Rn & Cn & Rb & Rc), Hag as (_ & Aa & _ & Ab & Ac).
  unfold RBTree.RotateLeft, GetParent, GetLeft. rewrite Pn. cbn [deref mbind res_bind]. rewrite Pu, Ln.
  pose proof (rootp_in b) as Hb.
  destruct (rotate_writes h k u n (rootp b) set_right set_left) as (R & Su & Sn); [auto.. | | |].
  { apply Kx; auto. } { intros x Hx%Hb. split_and!; [| | apply Kx]; set_solver. }
  set (h2 := replace_child _ _ _ _) in *.
  assert (Hrep2 : rep h2 (ctx_parent k) (T cn (T cu a u b) n c)).
  { destruct Su as (_ & E1 & E2 & _), Sn as (_ & E3 & E4 & _).
    destruct (rot_u _ _ _ _ _ _ R) as [E5 E6], (rot_n _ _ _ _ _ _ R) as [E7 E8].
    simpl. rewrite E1, E2, E3, E4, E5, E6, E7, E8.
    assert (forall x, x ∈ inorder a ++ inorder c -> rootp b <> Some x) by (intros x Hx ?%Hb; set_solver).
    split_and!; auto; try (destruct (rootp b); upd_step; fail).
    - apply (rotated_sub _ _ _ _ _ _ _ _ R); [| assumption].
      intros x Hx. split_and!; [apply Kx | | | ]; set_solver.
    - apply (rotated_moved h h2 k u n (Some n) b R); [| eassumption..].
      intros x Hx. split_and!; [apply Kx | | ]; set_solver.
    - apply (rotated_sub _ _ _ _ _ _ _ _ R); [| assumption].
      intros x Hx. split_and!; [apply Kx | | | ]; set_solver. }
  exists h2. eexists. split; [reflexivity |].
  pose proof (rot_threads _ _ _ _ _ _ R).
  match goal with |- ?A /\ _ /\ ?C => enough (A /\ C) by tauto end.
  apply (rotated_at h h2 d k u n (rootp b) _ cn _ _ R H);
    [simpl; rewrite <- app_assoc; reflexivity | set_solver | set_solver | set_solver | assumption | |].
  - simpl in Hrep2. apply AggregateNode_at; try tauto; set_solver.
  - apply (aggd_frame _ d); [apply AggregateNode_own | | assumption].
    intros x Hx. apply AggregateNode_other. set_solver.
Qed.

Lemma RotateRight_at h d k cu a u cn b n c :
  at_ h d k (T cu (T cn a n b) u c) ->
  exists h' d', RotateRight n h d = Ok (h', d') /\
    at_ h' d' k (T cn a n (T cu b u c)) /\ threads_kept h h' /\ same_own d d'.
Proof.
  intros H.
  destruct (two_nodes _ _ _ _ _ _ _ _ _ _ (or_intror H)) as (Hun & Nu & Nn & Da & Db & NDb & NDk & Kx).
  pose proof H as [Hctx Hrep _ _ Hag _]. simpl in Hrep, Hag, Hctx.
  destruct Hrep as (Pu & Lu & Ru & Cu & (Pn & Ln & Rn & Cn & Ra & Rb) & Rc), Hag as (_ & (_ & Aa & Ab) & Ac).
  unfold RBTree.RotateRight, GetParent, GetRight. rewrite Pn. cbn [deref mbind res_bind]. rewrite Pu, Rn.
  pose proof (rootp_in b) as Hb.
  destruct (rotate_writes h k u n (rootp b) set_left set_right) as (R & Su & Sn); [auto.. | | |].
  { apply Kx; auto. } { intros x Hx%Hb. split_and!; [| | apply Kx]; set_solver. }
  set (h2 := replace_child _ _ _ _) in *.
  assert (Hrep2 : rep h2 (ctx_parent k) (T cn a n (T cu b u c))).
  { destruct Su as (_ & E1 & E2 & _), Sn as (_ & E3 & E4 & _).
    destruct (rot_u _ _ _ _ _ _ R) as [E5 E6], (rot_n _ _ _ _ _ _ R) as [E7 E8].
    simpl. rewrite E1, E2, E3, E4, E5, E6, E7, E8.
    assert (forall x, x ∈ inorder a ++ inorder c -> rootp b <> Some x) by (intros x Hx ?%Hb; set_solver).
    split_and!; auto; try (destruct (rootp b); upd_step; fail).
    - apply (rotated_sub _ _ _ _ _ _ _ _ R); [| assumption].
      intros x Hx. split_and!; [apply Kx | | | ]; set_solver.
    - apply (rotated_moved h h2 k u n (Some n) b R); [| eassumption..].
      intros x Hx. split_and!; [apply Kx | | ]; set_solver.
    - apply (rotated_sub _ _ _ _ _ _ _ _ R); [| assumption].
      intros x Hx. split_and!; [apply Kx | | | ]; set_solver. }
  exists h2. eexists. split; [reflexivity |].
  pose proof (rot_threads _ _ _ _ _ _ R).
  match goal with |- ?A /\ _ /\ ?C => enough (A /\ C) by tauto end.
  apply (rotated_at h h2 d k u n (rootp b) _ cn _ _ R H);
    [simpl; rewrite <- app_assoc; reflexivity | set_solver | set_solver | set_solver | assumption | |].
  - apply (aggd_frame _ d); [apply AggregateNode_own | | assumption].
    intros x Hx. apply AggregateNode_other. set_solver.
  - simpl in Hrep2. apply AggregateNode_at; try tauto; set_solver.
Qed.
End Focus.
