(* ===== verification/RBTreeFix.v ===== *)
(** The balance invariant of [RBTree.v] and the two loops that restore it,
    [FixInsert] and [FixRemove]. *)

From S2P Require Import Prelude RBTree RBTreeProofs.

(** ** Balance *)

(** [rb c n t]: every red item has black children, every path holds [n] black items,
    and the root's color is [c]. *)
Inductive rb : ColorType -> nat -> tree -> Prop :=
| rb_E : rb Black 0 E
| rb_R n l p r : rb Black n l -> rb Black n r -> rb Red n (T Red l p r)
| rb_B cl cr n l p r : rb cl n l -> rb cr n r -> rb Black (S n) (T Black l p r).

(** [rbk b n k]: the context is balanced around a hole of black height [n], which may
    be red when [b]. *)
Inductive rbk : bool -> nat -> list frame -> Prop :=
| rbk_nil n : rbk false n []
| rbk_LR n p r k : rb Black n r -> rbk true n k -> rbk false n (FL Red p r :: k)
| rbk_RR n l p k : rb Black n l -> rbk true n k -> rbk false n (FR Red l p :: k)
| rbk_LB c b n p r k : rb c n r -> rbk b (S n) k -> rbk true n (FL Black p r :: k)
| rbk_RB c b n l p k : rb c n l -> rbk b (S n) k -> rbk true n (FR Black l p :: k).

Create HintDb rbtree.
#[export] Hint Constructors rb rbk : rbtree.

Lemma rb_tcolor c n t : rb c n t -> tcolor t = c.
Proof. destruct 1; reflexivity. Qed.

Lemma rb_plug c b n t k :
  rb c n t -> rbk b n k -> (c = Red -> b = true) -> exists m, rb Black m (plug k t).
Proof.
  intros Ht Hk. revert c t Ht.
  induction Hk as [n | n p r k Hr Hk IH | n l p k Hr Hk IH | cs b n p r k Hr Hk IH | cs b n l p k Hr Hk IH];
    intros c t Ht Hc; simpl.
  - destruct c; [inversion Ht | discriminate Hc; reflexivity | eauto].
  - destruct c; [inversion Ht | discriminate Hc; reflexivity |]. apply (IH Red); eauto with rbtree.
  - destruct c; [inversion Ht | discriminate Hc; reflexivity |]. apply (IH Red); eauto with rbtree.
  - apply (IH Black); [eauto with rbtree | discriminate].
  - apply (IH Black); [eauto with rbtree | discriminate].
Qed.

Lemma rb_unplug k t m : rb Black m (plug k t) ->
  exists c b n, rb c n t /\ rbk b n k /\ (c = Red -> b = true).
Proof.
  revert t. induction k as [| f k IH]; intros t H.
  - exists Black, false, m. split_and!; [assumption | constructor | discriminate].
  - destruct f as [fc p r | fc l p]; simpl in H; apply IH in H as (c & b & n & Ht & Hk & Hc);
      inversion Ht; subst.
    + destruct b; [| discriminate Hc; reflexivity]. exists Black, false, n.
      split_and!; [assumption | eauto with rbtree | discriminate].
    + eexists _, true, _. eauto with rbtree.
    + destruct b; [| discriminate Hc; reflexivity]. exists Black, false, n.
      split_and!; [assumption | eauto with rbtree | discriminate].
    + eexists _, true, _. eauto with rbtree.
Qed.

(** The height of a balanced tree is logarithmic in its size. *)
Lemma rb_height c n t : rb c n t -> (height t <= 2 * n + if decide (c = Red) then 1 else 0)%nat.
Proof. induction 1; simpl in *; repeat case_decide; simplify_eq; lia. Qed.

Lemma rb_size c n t : rb c n t -> (2 ^ n <= S (length (inorder t)))%nat.
Proof.
  induction 1; simpl in *; [lia | |]; rewrite length_app; simpl; lia.
Qed.

Lemma rb_log n t : rb Black n t -> (height t <= 2 * Nat.log2 (S (length (inorder t))))%nat.
Proof.
  intros H. pose proof (rb_height _ _ _ H) as Hh. pose proof (rb_size _ _ _ H) as Hs.
  rewrite decide_False in Hh by discriminate.
  assert (n <= Nat.log2 (S (length (inorder t))))%nat by (apply Nat.log2_le_pow2; lia). lia.
Qed.

Section Fix.
Context {D V J : Type} (Aggregate : hooks -> D -> ptr -> D * bool) `{!Aggregator (V := V) (J := J) Aggregate}.
Local Abbreviation at_ := (at_ Aggregate).
Local Abbreviation RotateLeft := (RotateLeft Aggregate).
Local Abbreviation RotateRight := (RotateRight Aggregate).
Local Abbreviation FixInsert := (FixInsert Aggregate).
Local Abbreviation FixRemove := (FixRemove Aggregate).

Lemma threads_kept_trans h1 h2 h3 : threads_kept h1 h2 -> threads_kept h2 h3 -> threads_kept h1 h3.
Proof. intros [] []; split; congruence. Qed.

Lemma same_own_trans d1 d2 d3 : same_own d1 d2 -> same_own d2 d3 -> same_own d1 d3.
Proof. intros H1 H2 x. rewrite H2, H1. reflexivity. Qed.

Lemma threads_kept_refl h : threads_kept h h.
Proof. split; reflexivity. Qed.

Lemma same_own_refl d : same_own d d.
Proof. intros x; reflexivity. Qed.

(** The result [r] of a restructuring step from [h], [d]: hooks of a balanced tree with
    the items of [t0] in the same order; threads and items' own data are as before. *)
Definition restored (h : hooks) (d : D) (t0 : tree) (r : res (hooks * D)) : Prop :=
  exists h' d' t' m, r = Ok (h', d') /\ at_ h' d' [] t' /\ rb Black m t' /\
    inorder t' = inorder t0 /\ threads_kept h h' /\ same_own d d'.

Lemma restored_step h d t0 h1 d1 t1 r :
  threads_kept h h1 -> same_own d d1 -> inorder t1 = inorder t0 ->
  restored h1 d1 t1 r -> restored h d t0 r.
Proof.
  intros K O Ht (h' & d' & t' & m & -> & Hat & Hrb & Hin & K' & O').
  exists h', d', t', m. rewrite Hin, Ht.
  eauto 8 using threads_kept_trans, same_own_trans.
Qed.

Lemma restored_done h d c b n k t :
  at_ h d k t -> rb c n t -> rbk b n k -> (c = Red -> b = true) -> restored h d (plug k t) (Ok (h, d)).
Proof.
  intros Hat Ht Hk Hc. destruct (rb_plug _ _ _ _ _ Ht Hk Hc) as [m Hm].
  exists h, d, (plug k t), m.
  rewrite <- (at_plug Aggregate). eauto 8 using threads_kept_refl, same_own_refl.
Qed.

(** A sibling is another item. *)
Lemma at_sibling h d k c l p r x : at_ h d k (T c l p r) -> rootp l = Some x -> rootp r <> Some x.
Proof.
  intros H Hl%rootp_in Hr%rootp_in. apply at_nodup_split in H as (_ & _ & _ & _ & Hd & _).
  exact (Hd x Hl Hr).
Qed.

Lemma IsRed_rep h d k c l p r :
  at_ h d k (T c l p r) -> IsRed h (rootp l) = bool_decide (tcolor l = Red) /\
                           IsRed h (rootp r) = bool_decide (tcolor r = Red).
Proof.
  intros [_ H _ _ _ _]. simpl in H. destruct H as (_ & _ & _ & _ & Hl & Hr).
  destruct l, r; simpl in *; unfold IsRed; split; try reflexivity;
    (destruct Hl as (_ & _ & _ & -> & _) || destruct Hr as (_ & _ & _ & -> & _)); reflexivity.
Qed.

Lemma IsBlack_rep h d k c l p r :
  at_ h d k (T c l p r) -> IsBlack h (rootp l) = bool_decide (tcolor l = Black) /\
                           IsBlack h (rootp r) = bool_decide (tcolor r = Black).
Proof.
  intros [_ H _ _ _ _]. simpl in H. destruct H as (_ & _ & _ & _ & Hl & Hr).
  destruct l, r; simpl in *; unfold IsBlack; split; try reflexivity;
    (destruct Hl as (_ & _ & _ & -> & _) || destruct Hr as (_ & _ & _ & -> & _)); reflexivity.
Qed.

(** Steps of the proofs below: move the focus to the parent or to a child, recolour or
    rotate around the focused item, and carry on from the resulting hooks. *)
Ltac up H := first [rewrite (at_FL Aggregate) in H | rewrite (at_FR Aggregate) in H].
Ltac down_l H := rewrite <- (at_FL Aggregate) in H.
Ltac down_r H := rewrite <- (at_FR Aggregate) in H.

Ltac recolor H p c :=
  match type of H with
  | RBTreeProofs.at_ _ ?h ?d ?k (T ?c0 ?l p ?r) =>
      let H' := fresh "Hat" in let K := fresh "K" in
      destruct (set_color_at Aggregate h d k c0 c l p r H) as [H' K];
      generalize dependent (set_color p c h); clear H;
      let h' := fresh "h" in intros h' H K
  end.

Ltac rotate H lem :=
  let h' := fresh "h" in let d' := fresh "d" in let Eq := fresh "Eq" in
  let H' := fresh "Hat" in let K := fresh "K" in let O := fresh "O" in
  apply lem in H; destruct H as (h' & d' & Eq & H & K & O);
  rewrite Eq; cbn [mbind res_bind]; clear Eq.

(** Close a goal [restored] from the facts collected on the way. *)
Ltac settle := eapply restored_step;
  [repeat (eapply threads_kept_trans; [eassumption |]); apply threads_kept_refl
  |repeat (eapply same_own_trans; [eassumption |]); apply same_own_refl | |].
Ltac inorder_eq := rewrite ?inorder_plug; simpl; repeat (rewrite <- ?app_assoc; simpl); reflexivity.
Ltac finish c b m k := settle;
  [| apply (restored_done _ _ c b m k);
     [eassumption | eauto with rbtree | eauto with rbtree | first [discriminate | intros _; reflexivity]]];
  inorder_eq.

(** The four rotation cases of [FixInsert]. *)
Lemma FixInsert_LL h d k a n c p e g u b m :
  at_ h d k (T Black (T Red (T Red a n c) p e) g u) ->
  rb Black m a -> rb Black m c -> rb Black m e -> rb Black m u -> rbk b (S m) k ->
  restored h d (plug k (T Black (T Red (T Red a n c) p e) g u))
    ('(h, d) ← ('(h, d) ← RotateRight p h d; Ok (set_color p Black h, d)); Ok (set_color g Red h, d)).
Proof.
  intros H Ha Hc He Hu Hk.
  rotate H (RotateRight_at Aggregate). recolor H p Black.
  down_r H. recolor H g Red. up H. finish Black b (S m) k.
Qed.

Lemma FixInsert_LR h d k a p c n e g u b m :
  at_ h d k (T Black (T Red a p (T Red c n e)) g u) ->
  rb Black m a -> rb Black m c -> rb Black m e -> rb Black m u -> rbk b (S m) k ->
  restored h d (plug k (T Black (T Red a p (T Red c n e)) g u))
    ('(h, d) ← ('(h, d) ← RotateLeft n h d; '(h, d) ← RotateRight n h d; Ok (set_color n Black h, d));
     Ok (set_color g Red h, d)).
Proof.
  intros H Ha Hc He Hu Hk. down_l H.
  rotate H (RotateLeft_at Aggregate). up H.
  rotate H (RotateRight_at Aggregate). recolor H n Black.
  down_r H. recolor H g Red. up H. finish Black b (S m) k.
Qed.

Lemma FixInsert_RR h d k u g a p c n e b m :
  at_ h d k (T Black u g (T Red a p (T Red c n e))) ->
  rb Black m a -> rb Black m c -> rb Black m e -> rb Black m u -> rbk b (S m) k ->
  restored h d (plug k (T Black u g (T Red a p (T Red c n e))))
    ('(h, d) ← ('(h, d) ← RotateLeft p h d; Ok (set_color p Black h, d)); Ok (set_color g Red h, d)).
Proof.
  intros H Ha Hc He Hu Hk.
  rotate H (RotateLeft_at Aggregate). recolor H p Black.
  down_l H. recolor H g Red. up H. finish Black b (S m) k.
Qed.

Lemma FixInsert_RL h d k u g a n c p e b m :
  at_ h d k (T Black u g (T Red (T Red a n c) p e)) ->
  rb Black m a -> rb Black m c -> rb Black m e -> rb Black m u -> rbk b (S m) k ->
  restored h d (plug k (T Black u g (T Red (T Red a n c) p e)))
    ('(h, d) ← ('(h, d) ← RotateRight n h d; '(h, d) ← RotateLeft n h d; Ok (set_color n Black h, d));
     Ok (set_color g Red h, d)).
Proof.
  intros H Ha Hc He Hu Hk. down_r H.
  rotate H (RotateRight_at Aggregate). up H.
  rotate H (RotateLeft_at Aggregate). recolor H n Black.
  down_l H. recolor H g Red. up H. finish Black b (S m) k.
Qed.

(** The recolouring cases of [FixInsert]: the red uncle and the parent turn black. *)
Lemma FixInsert_uncle_L h d k l p r g a u c :
  at_ h d k (T Black (T Red l p r) g (T Red a u c)) ->
  let h' := set_color p Black (set_color g Red h) in
  right h' g = Some u /\ at_ (set_color u Black h') d k (T Red (T Black l p r) g (T Black a u c)) /\
  threads_kept h (set_color u Black h').
Proof.
  intros H. cbn zeta. recolor H g Red. down_l H. recolor H p Black. up H.
  destruct (at_fields _ _ _ _ _ _ _ _ H) as (_ & _ & -> & _).
  down_r H. recolor H u Black. up H. eauto 6 using threads_kept_trans.
Qed.

Lemma FixInsert_uncle_R h d k l p r g a u c :
  at_ h d k (T Black (T Red a u c) g (T Red l p r)) ->
  let h' := set_color p Black (set_color g Red h) in
  left h' g = Some u /\ at_ (set_color u Black h') d k (T Red (T Black a u c) g (T Black l p r)) /\
  threads_kept h (set_color u Black h').
Proof.
  intros H. cbn zeta. recolor H g Red. down_r H. recolor H p Black. up H.
  destruct (at_fields _ _ _ _ _ _ _ _ H) as (_ & -> & _ & _).
  down_l H. recolor H u Black. up H. eauto 6 using threads_kept_trans.
Qed.

(** The facts [FixInsert] reads below a red parent. *)
Ltac read_parents H n p :=
  pose proof H as Hp; up Hp;
  destruct (at_fields _ _ _ _ _ _ _ _ Hp) as (Pp & Lp & Rp & Cp);
  pose proof (fun x E => at_sibling _ _ _ _ _ _ _ x Hp E) as Sp;
  pose proof Hp as Hg; up Hg;
  destruct (at_fields _ _ _ _ _ _ _ _ Hg) as (Pg & Lg & Rg & Cg);
  pose proof (fun x E => at_sibling _ _ _ _ _ _ _ x Hg E) as Sg;
  destruct (IsRed_rep _ _ _ _ _ _ _ Hg) as (IRl & IRr).

Ltac decide_facts :=
  unfold GetParent, GetLeft, GetRight in *; simpl in *;
  repeat first
    [ progress simpl
    | match goal with
      | E : parent ?h ?x = _ |- context [parent ?h ?x] => rewrite E
      | E : left ?h ?x = _ |- context [left ?h ?x] => rewrite E
      | E : right ?h ?x = _ |- context [right ?h ?x] => rewrite E
      | E : color ?h ?x = _ |- context [color ?h ?x] => rewrite E
      | E : IsRed ?h ?x = _ |- context [IsRed ?h ?x] => rewrite E
      | E : bool_decide ?P = _ |- context [bool_decide ?P] => rewrite E
      | |- context [decide (?a = ?a)] => rewrite (decide_True (P := a = a)) by reflexivity
      | |- context [bool_decide (?a = ?a)] => rewrite (bool_decide_eq_true_2 (a = a)) by reflexivity
      | |- context [decide (?a = ?b)] => rewrite (decide_False (P := a = b)) by (congruence || naive_solver)
      | |- context [bool_decide (?a = ?b)] => rewrite (bool_decide_eq_false_2 (a = b)) by (congruence || naive_solver)
      end ].

Lemma FixInsert_spec fuel : forall k c0 l n r m b h d,
  at_ h d k (T c0 l n r) -> rb Black m l -> rb Black m r -> rbk b m k -> (length k < fuel)%nat ->
  restored h d (plug k (T c0 l n r)) (FixInsert fuel n h d).
Proof.
  induction fuel as [| fuel IH]; intros k c0 l n r m b h d H Hl Hr Hk Hf; [lia |].
  destruct (at_fields _ _ _ _ _ _ _ _ H) as (Pn & _).
  cbn [RBTree.FixInsert]. unfold GetParent at 1. rewrite Pn.
  destruct Hk as [m | m p s k Hs Hk | m s p k Hs Hk | cs b m p s k Hs Hk | cs b m s p k Hs Hk];
    simpl ctx_parent; cbn iota.
  - recolor H n Black. finish Black false (S m) ([] : list frame).
  - recolor H n Red. inversion Hk as [| | | cu b0 ? g u k2 Hu Hk2 | cu b0 ? u g k2 Hu Hk2]; subst.
    + inversion Hu; subst; read_parents H n p; decide_facts;
        [settle; [| eapply FixInsert_LL; eauto with rbtree]; inorder_eq | |
         settle; [| eapply FixInsert_LL; eauto with rbtree]; inorder_eq].
      destruct (FixInsert_uncle_L _ _ _ _ _ _ _ _ _ _ Hg) as (_ & Hat & K2).
      settle; [| eapply IH; eauto with rbtree; lia]; inorder_eq.
    + inversion Hu; subst; read_parents H n p; decide_facts;
        [settle; [| eapply FixInsert_RL; eauto with rbtree]; inorder_eq | |
         settle; [| eapply FixInsert_RL; eauto with rbtree]; inorder_eq].
      destruct (FixInsert_uncle_R _ _ _ _ _ _ _ _ _ _ Hg) as (_ & Hat & K2).
      settle; [| eapply IH; eauto with rbtree; lia]; inorder_eq.
  - recolor H n Red. inversion Hk as [| | | cu b0 ? g u k2 Hu Hk2 | cu b0 ? u g k2 Hu Hk2]; subst.
    + inversion Hu; subst; read_parents H n p; decide_facts;
        [settle; [| eapply FixInsert_LR; eauto with rbtree]; inorder_eq | |
         settle; [| eapply FixInsert_LR; eauto with rbtree]; inorder_eq].
      destruct (FixInsert_uncle_L _ _ _ _ _ _ _ _ _ _ Hg) as (_ & Hat & K2).
      settle; [| eapply IH; eauto with rbtree; lia]; inorder_eq.
    + inversion Hu; subst; read_parents H n p; decide_facts;
        [settle; [| eapply FixInsert_RR; eauto with rbtree]; inorder_eq | |
         settle; [| eapply FixInsert_RR; eauto with rbtree]; inorder_eq].
      destruct (FixInsert_uncle_R _ _ _ _ _ _ _ _ _ _ Hg) as (_ & Hat & K2).
      settle; [| eapply IH; eauto with rbtree; lia]; inorder_eq.
  - recolor H n Red. pose proof H as Hp. up Hp.
    destruct (at_fields _ _ _ _ _ _ _ _ Hp) as (_ & _ & _ & ->). cbn. finish Red true m (FL Black p s :: k).
  - recolor H n Red. pose proof H as Hp. up Hp.
    destruct (at_fields _ _ _ _ _ _ _ _ Hp) as (_ & _ & _ & ->). cbn. finish Red true m (FR Black s p :: k).
Qed.

(** ** Removal *)

(** The result [r] of rebalancing the context [k] of the subtree [t], which is about to
    lose one black item: a context for a hole of black height [m], around the same
    subtree, with the same items before and after it. *)
Definition shrunk (h : hooks) (d : D) (k : list frame) (t : tree) (m : nat) (r : res (hooks * D)) : Prop :=
  exists h' d' k' b', r = Ok (h', d') /\ at_ h' d' k' t /\ rbk b' m k' /\
    ctx_l k' = ctx_l k /\ ctx_r k' = ctx_r k /\ threads_kept h h' /\ same_own d d'.

Lemma shrunk_step h d k h1 d1 k1 t m r :
  threads_kept h h1 -> same_own d d1 -> ctx_l k1 = ctx_l k -> ctx_r k1 = ctx_r k ->
  shrunk h1 d1 k1 t m r -> shrunk h d k t m r.
Proof.
  intros K O E1 E2 (h' & d' & k' & b' & -> & Hat & Hk & F1 & F2 & K' & O').
  exists h', d', k', b'. rewrite F1, F2, E1, E2. eauto 10 using threads_kept_trans, same_own_trans.
Qed.

Lemma shrunk_done h d k t b m : at_ h d k t -> rbk b m k -> shrunk h d k t m (Ok (h, d)).
Proof. intros. exists h, d, k, b. eauto 10 using threads_kept_refl, same_own_refl. Qed.

Ltac settle_ctx := eapply shrunk_step;
  [repeat (eapply threads_kept_trans; [eassumption |]); apply threads_kept_refl
  |repeat (eapply same_own_trans; [eassumption |]); apply same_own_refl | | |].
Ltac ctx_eq := simpl; repeat (rewrite <- ?app_assoc; simpl); reflexivity.

(** An item of color [c] over children of black height [m] fits into [k]. *)
Definition fits (c : ColorType) (m : nat) (k : list frame) : Prop :=
  (c = Red /\ rbk true m k) \/ (c = Black /\ exists b, rbk b (S m) k).

Lemma fits_L c m k p s : fits c m k -> rb Black m s -> exists b, rbk b m (FL c p s :: k).
Proof. intros [[-> H] | [-> [b H]]] Hs; eauto with rbtree. Qed.

Lemma fits_R c m k p s : fits c m k -> rb Black m s -> exists b, rbk b m (FR c s p :: k).
Proof. intros [[-> H] | [-> [b H]]] Hs; eauto with rbtree. Qed.

(** [FixRemove] from the point where the sibling [s] is black; [rec] is the recursive call. *)
Definition FixRemove_tail (rec : ptr -> hooks -> D -> res (hooks * D)) (n par s : ptr) (h : hooks) (d : D)
  : res (hooks * D) :=
  if IsBlack h (GetLeft h s) && IsBlack h (GetRight h s) then
    if decide (color h par = Black) then rec par (set_color s Red h) d
    else Ok (set_color s Red (set_color par Black h), d)
  else
    let parentColor := color h par in
    if decide (GetLeft h par = Some n) then
      '(h, d, s) ←
        (if IsRed h (GetLeft h s) && IsBlack h (GetRight h s) then
           child ← deref (GetLeft h s);
           '(h, d) ← RotateRight child h d;
           Ok (set_color child Black (set_color s Red h), d, child)
         else Ok (h, d, s));
      '(h, d) ← RotateLeft s h d;
      let h := set_color s parentColor (set_color par Black h) in
      x ← deref (GetRight h s);
      Ok (set_color x Black h, d)
    else
      '(h, d, s) ←
        (if IsRed h (GetRight h s) && IsBlack h (GetLeft h s) then
           child ← deref (GetRight h s);
           '(h, d) ← RotateLeft child h d;
           Ok (set_color child Black (set_color s Red h), d, child)
         else Ok (h, d, s));
      '(h, d) ← RotateRight s h d;
      let h := set_color s parentColor (set_color par Black h) in
      x ← deref (GetLeft h s);
      Ok (set_color x Black h, d).

(** The last rotation, towards the hole. *)
Lemma FixRemove_rotate_L h d k c t p a s b x e m :
  at_ h d k (T c t p (T Black a s (T Red b x e))) ->
  fits c (S m) k -> rb (tcolor a) m a -> rb Black m b -> rb Black m e ->
  shrunk h d (FL c p (T Black a s (T Red b x e)) :: k) t m
    ('(h, d) ← RotateLeft s h d;
     let h := set_color s c (set_color p Black h) in
     x ← deref (GetRight h s);
     Ok (set_color x Black h, d)).
Proof.
  intros H Hf Ha Hb He. rotate H (RotateLeft_at Aggregate).
  down_l H. recolor H p Black. up H. recolor H s c.
  unfold GetRight. destruct (at_fields _ _ _ _ _ _ _ _ H) as (_ & _ & -> & _). cbn.
  down_r H. recolor H x Black. up H. down_l H. down_l H.
  destruct (fits_L c (S m) k s (T Black b x e) Hf) as [b0 Hb0]; [eauto with rbtree |].
  settle_ctx; [| | eapply shrunk_done; eauto with rbtree]; ctx_eq.
Qed.

Lemma FixRemove_rotate_R h d k c t p a s b x e m :
  at_ h d k (T c (T Black (T Red b x e) s a) p t) ->
  fits c (S m) k -> rb (tcolor a) m a -> rb Black m b -> rb Black m e ->
  shrunk h d (FR c (T Black (T Red b x e) s a) p :: k) t m
    ('(h, d) ← RotateRight s h d;
     let h := set_color s c (set_color p Black h) in
     x ← deref (GetLeft h s);
     Ok (set_color x Black h, d)).
Proof.
  intros H Hf Ha Hb He. rotate H (RotateRight_at Aggregate).
  down_r H. recolor H p Black. up H. recolor H s c.
  unfold GetLeft. destruct (at_fields _ _ _ _ _ _ _ _ H) as (_ & -> & _ & _). cbn.
  down_l H. recolor H x Black. up H. down_r H. down_r H.
  destruct (fits_R c (S m) k s (T Black b x e) Hf) as [b0 Hb0]; [eauto with rbtree |].
  settle_ctx; [| | eapply shrunk_done; eauto with rbtree]; ctx_eq.
Qed.

(** Both children of the sibling are black: it turns red, and the parent either takes
    the missing black or passes the loss on. *)
Lemma FixRemove_recolor_L rec h d k c t p a s b m :
  at_ h d k (T c t p (T Black a s b)) -> fits c (S m) k -> rb Black m a -> rb Black m b ->
  (c = Black -> forall h d t, at_ h d k t -> rootp t = Some p -> shrunk h d k t (S m) (rec p h d)) ->
  shrunk h d (FL c p (T Black a s b) :: k) t m
    (if decide (color h p = Black) then rec p (set_color s Red h) d
     else Ok (set_color s Red (set_color p Black h), d)).
Proof.
  intros H Hf Ha Hb Hrec. destruct (at_fields _ _ _ _ _ _ _ _ H) as (_ & _ & _ & ->).
  destruct Hf as [[-> Hk] | [-> [b0 Hk]]]; cbn.
  - recolor H p Black. down_r H. recolor H s Red. up H. down_l H.
    settle_ctx; [| | eapply shrunk_done; eauto with rbtree]; ctx_eq.
  - down_r H. recolor H s Red. up H.
    destruct (Hrec eq_refl _ _ _ H eq_refl) as (h' & d' & k' & b' & -> & Hat & Hk' & E1 & E2 & K' & O').
    down_l Hat. settle_ctx; [| | eapply shrunk_done; eauto with rbtree];
    simpl; rewrite ?E1, ?E2; reflexivity.
Qed.

Lemma FixRemove_recolor_R rec h d k c t p a s b m :
  at_ h d k (T c (T Black a s b) p t) -> fits c (S m) k -> rb Black m a -> rb Black m b ->
  (c = Black -> forall h d t, at_ h d k t -> rootp t = Some p -> shrunk h d k t (S m) (rec p h d)) ->
  shrunk h d (FR c (T Black a s b) p :: k) t m
    (if decide (color h p = Black) then rec p (set_color s Red h) d
     else Ok (set_color s Red (set_color p Black h), d)).
Proof.
  intros H Hf Ha Hb Hrec. destruct (at_fields _ _ _ _ _ _ _ _ H) as (_ & _ & _ & ->).
  destruct Hf as [[-> Hk] | [-> [b0 Hk]]]; cbn.
  - recolor H p Black. down_l H. recolor H s Red. up H. down_r H.
    settle_ctx; [| | eapply shrunk_done; eauto with rbtree]; ctx_eq.
  - down_l H. recolor H s Red. up H.
    destruct (Hrec eq_refl _ _ _ H eq_refl) as (h' & d' & k' & b' & -> & Hat & Hk' & E1 & E2 & K' & O').
    down_r Hat. settle_ctx; [| | eapply shrunk_done; eauto with rbtree];
    simpl; rewrite ?E1, ?E2; reflexivity.
Qed.

(** A subtree's color and black height, as a decision. *)
Lemma rb_cases c m t : rb c m t ->
  (c = Black /\ rb Black m t) \/
  (exists l x r, c = Red /\ t = T Red l x r /\ rb Black m l /\ rb Black m r).
Proof. intros H. inversion H; subst; eauto 10. Qed.

Lemma FixRemove_tail_L rec h d k c t n p a s b ca cb m :
  at_ h d (FL c p (T Black a s b) :: k) t -> rootp t = Some n ->
  fits c (S m) k -> rb ca m a -> rb cb m b ->
  (c = Black -> forall h d t, at_ h d k t -> rootp t = Some p -> shrunk h d k t (S m) (rec p h d)) ->
  shrunk h d (FL c p (T Black a s b) :: k) t m (FixRemove_tail rec n p s h d).
Proof.
  intros H Hn Hf Ha Hb Hrec. up H. destruct (at_fields _ _ _ _ _ _ _ _ H) as (_ & Lp & _ & Cp).
  pose proof H as Hs. down_r Hs. destruct (at_fields _ _ _ _ _ _ _ _ Hs) as (_ & Ls & Rs & _).
  destruct (IsBlack_rep _ _ _ _ _ _ _ Hs) as [Ba Bb], (IsRed_rep _ _ _ _ _ _ _ Hs) as [Ra _].
  unfold FixRemove_tail, GetLeft, GetRight. rewrite Ls, Rs, Lp, Hn, Ba, Bb, Ra.
  rewrite (rb_tcolor _ _ _ Ha), (rb_tcolor _ _ _ Hb), (decide_True (P := Some n = Some n)) by reflexivity.
  destruct (rb_cases _ _ _ Hb) as [[-> Hb'] | (b1 & x & b2 & -> & -> & Hb1 & Hb2)].
  - destruct (rb_cases _ _ _ Ha) as [[-> Ha'] | (a1 & x & a2 & -> & -> & Ha1 & Ha2)]; cbn.
    + apply FixRemove_recolor_L; assumption.
    + rewrite Cp. rotate Hs (RotateRight_at Aggregate).
      down_r Hs. recolor Hs s Red. up Hs. recolor Hs x Black. up Hs.
      settle_ctx; [| | apply FixRemove_rotate_L; [eassumption .. | | |]]; eauto; try ctx_eq.
      rewrite (rb_tcolor _ _ _ Ha1). assumption.
  - rewrite andb_false_r, andb_false_r. cbn. rewrite Cp.
    apply FixRemove_rotate_L; try assumption. rewrite (rb_tcolor _ _ _ Ha). assumption.
Qed.

Lemma FixRemove_tail_R rec h d k c t n p a s b ca cb m :
  at_ h d (FR c (T Black a s b) p :: k) t -> rootp t = Some n ->
  fits c (S m) k -> rb ca m a -> rb cb m b ->
  (c = Black -> forall h d t, at_ h d k t -> rootp t = Some p -> shrunk h d k t (S m) (rec p h d)) ->
  shrunk h d (FR c (T Black a s b) p :: k) t m (FixRemove_tail rec n p s h d).
Proof.
  intros H Hn Hf Ha Hb Hrec. up H. destruct (at_fields _ _ _ _ _ _ _ _ H) as (_ & Lp & _ & Cp).
  assert (Some s <> Some n) by (intros E0; exact (at_sibling _ _ _ _ _ _ _ n H E0 Hn)).
  pose proof H as Hs. down_l Hs. destruct (at_fields _ _ _ _ _ _ _ _ Hs) as (_ & Ls & Rs & _).
  destruct (IsBlack_rep _ _ _ _ _ _ _ Hs) as [Ba Bb], (IsRed_rep _ _ _ _ _ _ _ Hs) as [_ Rb].
  unfold FixRemove_tail, GetLeft, GetRight. rewrite Ls, Rs, Lp, Ba, Bb, Rb.
  rewrite (rb_tcolor _ _ _ Ha), (rb_tcolor _ _ _ Hb). simpl rootp. rewrite (decide_False (P := Some s = _)) by assumption.
  destruct (rb_cases _ _ _ Ha) as [[-> Ha'] | (a1 & x & a2 & -> & -> & Ha1 & Ha2)].
  - destruct (rb_cases _ _ _ Hb) as [[-> Hb'] | (b1 & x & b2 & -> & -> & Hb1 & Hb2)]; cbn.
    + apply FixRemove_recolor_R; assumption.
    + rewrite Cp. rotate Hs (RotateLeft_at Aggregate).
      down_l Hs. recolor Hs s Red. up Hs. recolor Hs x Black. up Hs.
      settle_ctx; [| | apply FixRemove_rotate_R; [eassumption .. | | |]]; eauto; try ctx_eq.
      rewrite (rb_tcolor _ _ _ Hb2). assumption.
  - rewrite andb_false_r. cbn. rewrite Cp.
    apply FixRemove_rotate_R; try assumption. rewrite (rb_tcolor _ _ _ Hb). assumption.
Qed.

(** [FixRemove] with its head, which turns a red sibling into a black one, and its tail. *)
Lemma FixRemove_S fuel n h d : FixRemove (S fuel) n h d =
  match GetParent h n with
  | None => Ok (h, d)
  | Some par =>
      '(h, d, s) ←
        (if decide (GetLeft h par = Some n) then
           r ← deref (GetRight h par);
           '(h, d) ←
             (if decide (color h r = Red) then
                '(h, d) ← RotateLeft r h d;
                Ok (set_color r Black (set_color par Red h), d)
              else Ok (h, d));
           s ← deref (GetRight h par);
           Ok (h, d, s)
         else
           l ← deref (GetLeft h par);
           '(h, d) ←
             (if decide (color h l = Red) then
                '(h, d) ← RotateRight l h d;
                Ok (set_color l Black (set_color par Red h), d)
              else Ok (h, d));
           s ← deref (GetLeft h par);
           Ok (h, d, s));
      FixRemove_tail (FixRemove fuel) n par s h d
  end.
Proof. reflexivity. Qed.

(** The two shapes of a sibling that balances a black item. *)
Lemma rb_sibling c m t : rb c (S m) t -> exists a s b,
  (t = T Black a s b /\ c = Black /\ exists ca cb, rb ca m a /\ rb cb m b) \/
  (t = T Red a s b /\ c = Red /\ rb Black (S m) a /\ rb Black (S m) b).
Proof. intros H. inversion H; subst; eauto 15. Qed.

Lemma FixRemove_black_L fuel h d k c t n p s cs m :
  (forall h d t b m, at_ h d k t -> rootp t = Some p -> rbk b (S m) k ->
     shrunk h d k t m (FixRemove fuel p h d)) ->
  at_ h d (FL c p s :: k) t -> rootp t = Some n -> rb cs (S m) s -> fits c (S m) k ->
  (c = Red -> cs = Black) ->
  shrunk h d (FL c p s :: k) t m (FixRemove (S fuel) n h d).
Proof.
  intros IH H Hn Hs Hf Hc. rewrite FixRemove_S. destruct t as [| ct tl n' tr]; [discriminate |].
  injection Hn as ->. unfold GetParent, GetLeft, GetRight.
  destruct (at_fields _ _ _ _ _ _ _ _ H) as (-> & _ & _ & _). simpl ctx_parent. cbn iota.
  pose proof H as Hp. up Hp. destruct (at_fields _ _ _ _ _ _ _ _ Hp) as (_ & Lp & Rp & _).
  rewrite Lp, Rp, decide_True by reflexivity.
  destruct (rb_sibling _ _ _ Hs) as (a & x & b & [(-> & -> & ca & cb & Ha & Hb) | (-> & -> & Ha & Hb)]);
    cbn [rootp deref mbind res_bind]; pose proof Hp as Hx; down_r Hx;
    destruct (at_fields _ _ _ _ _ _ _ _ Hx) as (_ & _ & _ & ->).
  - cbn [decide decide_rel ColorType_eq_dec mbind res_bind]. simpl. rewrite Rp. cbn.
    eapply FixRemove_tail_L; eauto. intros -> h1 d1 t1 H1 Ht1.
    destruct Hf as [[? _] | [_ [b0 Hk]]]; [discriminate | eauto].
  - destruct Hf as [[-> _] | [-> [b0 Hk]]]; [discriminate Hc; reflexivity |].
    simpl. clear Hx Lp Rp H. rotate Hp (RotateLeft_at Aggregate).
    down_l Hp. recolor Hp p Red. up Hp. recolor Hp x Black. down_l Hp.
    destruct (at_fields _ _ _ _ _ _ _ _ Hp) as (_ & _ & -> & _).
    destruct (rb_sibling _ _ _ Ha) as (a1 & s & a2 & [(-> & _ & ca & cb & Ha1 & Ha2) | (-> & ? & _)]);
      [| discriminate].
    cbn. down_l Hp. settle_ctx; [| | eapply FixRemove_tail_L; eauto]; [ctx_eq | ctx_eq | | discriminate].
    left. eauto with rbtree.
Qed.

Lemma FixRemove_black_R fuel h d k c t n p s cs m :
  (forall h d t b m, at_ h d k t -> rootp t = Some p -> rbk b (S m) k ->
     shrunk h d k t m (FixRemove fuel p h d)) ->
  at_ h d (FR c s p :: k) t -> rootp t = Some n -> rb cs (S m) s -> fits c (S m) k ->
  (c = Red -> cs = Black) ->
  shrunk h d (FR c s p :: k) t m (FixRemove (S fuel) n h d).
Proof.
  intros IH H Hn Hs Hf Hc. rewrite FixRemove_S. destruct t as [| ct tl n' tr]; [discriminate |].
  injection Hn as ->. unfold GetParent, GetLeft, GetRight.
  destruct (at_fields _ _ _ _ _ _ _ _ H) as (-> & _ & _ & _). simpl ctx_parent. cbn iota.
  pose proof H as Hp. up Hp. destruct (at_fields _ _ _ _ _ _ _ _ Hp) as (_ & Lp & Rp & _).
  assert (rootp s <> Some n) by (intros E0; exact (at_sibling _ _ _ _ _ _ _ n Hp E0 eq_refl)).
  rewrite Lp, decide_False by assumption.
  destruct (rb_sibling _ _ _ Hs) as (a & x & b & [(-> & -> & ca & cb & Ha & Hb) | (-> & -> & Ha & Hb)]);
    cbn [rootp deref mbind res_bind]; pose proof Hp as Hx; down_l Hx;
    destruct (at_fields _ _ _ _ _ _ _ _ Hx) as (_ & _ & _ & ->).
  - simpl. rewrite Lp. cbn.
    eapply FixRemove_tail_R; eauto. intros -> h1 d1 t1 H1 Ht1.
    destruct Hf as [[? _] | [_ [b0 Hk]]]; [discriminate | eauto].
  - destruct Hf as [[-> _] | [-> [b0 Hk]]]; [discriminate Hc; reflexivity |].
    simpl. clear Hx Lp Rp H. rotate Hp (RotateRight_at Aggregate).
    down_r Hp. recolor Hp p Red. up Hp. recolor Hp x Black. down_r Hp.
    destruct (at_fields _ _ _ _ _ _ _ _ Hp) as (_ & -> & _ & _).
    destruct (rb_sibling _ _ _ Hb) as (b1 & s & b2 & [(-> & _ & ca & cb & Hb1 & Hb2) | (-> & ? & _)]);
      [| discriminate].
    cbn. down_r Hp. settle_ctx; [| | eapply FixRemove_tail_R; eauto]; [ctx_eq | ctx_eq | | discriminate].
    left. eauto with rbtree.
Qed.

Lemma FixRemove_spec fuel : forall k t n b m h d,
  at_ h d k t -> rootp t = Some n -> rbk b (S m) k -> (length k < fuel)%nat ->
  shrunk h d k t m (FixRemove fuel n h d).
Proof.
  induction fuel as [| fuel IH]; intros k t n b m h d H Hn Hk Hf; [lia |].
  inversion Hk as [| ? p s k1 Hs Hk1 | ? s p k1 Hs Hk1 | cs b1 ? p s k1 Hs Hk1 | cs b1 ? s p k1 Hs Hk1]; subst;
    simpl in Hf.
  - rewrite FixRemove_S. destruct t; [discriminate |]. injection Hn as ->.
    unfold GetParent. destruct (at_fields _ _ _ _ _ _ _ _ H) as (-> & _). cbn.
    eapply shrunk_done; eauto with rbtree.
  - eapply FixRemove_black_L; eauto; [intros; eapply IH; eauto; lia | left; auto].
  - eapply FixRemove_black_R; eauto; [intros; eapply IH; eauto; lia | left; auto].
  - eapply FixRemove_black_L; eauto; [intros; eapply IH; eauto; lia | right; eauto | discriminate].
  - eapply FixRemove_black_R; eauto; [intros; eapply IH; eauto; lia | right; eauto | discriminate].
Qed.
End Fix.
