(* ===== verification/RBTreeOps.v ===== *)
(** The operations of [RBTree.v] against the sequence of items the tree holds: insertion,
    removal, the threaded links, the aggregates, and the header's own checker. *)

From S2P Require Import Prelude RBTree RBTreeProofs RBTreeFix.

(** ** Sequences *)

(** A position in a list without duplicates is determined by its element. *)
Lemma split_unique {A} (x : A) l1 r1 l2 r2 :
  NoDup (l1 ++ x :: r1) -> l1 ++ x :: r1 = l2 ++ x :: r2 -> l1 = l2 /\ r1 = r2.
Proof.
  revert l2. induction l1 as [| a l1 IH]; intros [| b l2] Hnd Heq; simpl in *;
    apply NoDup_cons in Hnd as [Hn Hnd]; inversion Heq; subst.
  - auto.
  - set_solver.
  - set_solver.
  - destruct (IH l2) as [-> ->]; auto.
Qed.

(** The two sides of an element, found in a concatenation. *)
Lemma split_cases {A} (l r l' r' : list A) y z :
  l ++ y :: r = l' ++ z :: r' ->
  (exists m, l = l' ++ z :: m /\ r' = m ++ y :: r) \/ (l' = l /\ z = y /\ r' = r) \/
  (exists m, r = m ++ z :: r' /\ l' = l ++ y :: m).
Proof.
  intros H. apply app_eq_inv in H as [(m & -> & H) | (m & -> & H)].
  - destruct m as [| w m]; simpl in H; simplify_eq; [right; left; rewrite app_nil_r; auto | left; eauto].
  - destruct m as [| w m]; simpl in H; simplify_eq; [right; left; rewrite app_nil_r; auto | right; right; eauto].
Qed.

(** A list cut where a predicate turns from false to true. *)
Lemma cut_unique {A} (P : A -> bool) l1 r1 l2 r2 :
  l1 ++ r1 = l2 ++ r2 ->
  (forall x, x ∈ l1 -> P x = false) -> (forall x, x ∈ r1 -> P x = true) ->
  (forall x, x ∈ l2 -> P x = false) -> (forall x, x ∈ r2 -> P x = true) -> l1 = l2 /\ r1 = r2.
Proof.
  intros H Hl1 Hr1 Hl2 Hr2. apply app_eq_inv in H as [(m & -> & ->) | (m & -> & ->)];
    (destruct m as [| x m]; [rewrite app_nil_r; auto |]); exfalso.
  - specialize (Hl1 x). specialize (Hr2 x). rewrite Hr2 in Hl1 by left.
    discriminate Hl1. set_solver +.
  - specialize (Hl2 x). specialize (Hr1 x). rewrite Hr1 in Hl2 by left.
    discriminate Hl2. set_solver +.
Qed.

Lemma cut_around {A} (P : A -> bool) l1 r1 l y r :
  l1 ++ r1 = l ++ y :: r ->
  (forall x, x ∈ l1 -> P x = false) -> (forall x, x ∈ r1 -> P x = true) ->
  if P y then forall x, x ∈ r -> P x = true else forall x, x ∈ l -> P x = false.
Proof.
  intros H Hl Hr. apply app_eq_inv in H as [(m & -> & H) | (m & -> & ->)].
  - destruct m as [| z m]; simpl in H.
    + subst r1. rewrite Hr by left. intros x Hx. apply Hr. right. assumption.
    + injection H as <- ->. rewrite Hl by set_solver +. intros x Hx. apply Hl. set_solver +Hx.
  - rewrite Hr by set_solver +. intros x Hx. apply Hr. set_solver +Hx.
Qed.

Lemma last_Some_split {A} (l : list A) x : last l = Some x -> exists l', l = l' ++ [x].
Proof.
  destruct l as [| a l _] using rev_ind; [discriminate |]. rewrite last_snoc. intros [= ->]. eauto.
Qed.

Lemma head_Some_split {A} (l : list A) x : head l = Some x -> exists l', l = x :: l'.
Proof. destruct l; simpl; [discriminate | intros [= ->]; eauto]. Qed.

(** ** Threads *)

(** Every item is linked to its neighbours in the sequence. *)
Definition threaded (h : hooks) (xs : list ptr) : Prop :=
  (forall l x r, xs = l ++ x :: r -> predecessor h x = last l /\ successor h x = head r) /\
  (forall x, x ∉ xs -> predecessor h x = None /\ successor h x = None).

Lemma threaded_kept h h' xs : threads_kept h h' -> threaded h xs -> threaded h' xs.
Proof. intros [H1 H2]. unfold threaded. rewrite H1, H2. auto. Qed.

Lemma last_in {A} (l : list A) x : last l = Some x -> x ∈ l.
Proof. intros (l' & ->)%last_Some_split. set_solver. Qed.

Lemma head_in {A} (l : list A) x : head l = Some x -> x ∈ l.
Proof. intros (l' & ->)%head_Some_split. set_solver. Qed.

Lemma threaded_insert h h' l y r :
  NoDup (l ++ y :: r) -> threaded h (l ++ r) ->
  (forall x, successor h' x =
     if decide (x = y) then head r else if decide (last l = Some x) then Some y else successor h x) ->
  (forall x, predecessor h' x =
     if decide (x = y) then last l else if decide (head r = Some x) then Some y else predecessor h x) ->
  threaded h' (l ++ y :: r).
Proof.
  intros Hnd [Hin Hout] Hs Hp. apply NoDup_app in Hnd as (Nl & Dl & Nr).
  apply NoDup_cons in Nr as [Ny Nr]. split.
  - intros l' z r' Heq. rewrite Hp, Hs.
    apply split_cases in Heq as [(m & -> & ->) | [(-> & -> & ->) | (m & -> & ->)]].
    + rewrite !(decide_False (P := z = y)), (decide_False (P := head r = Some z)) by
        (first [intros ->%eq_sym | intros ?%head_in]; apply (Dl z); set_solver).
      destruct (Hin l' z (m ++ r)) as [-> Hh]; [rewrite <- app_assoc; reflexivity |].
      split; [reflexivity |]. destruct m as [| w m]; simpl in *.
      * rewrite last_snoc, decide_True by reflexivity. reflexivity.
      * rewrite decide_False; [assumption |]. rewrite last_app_cons, last_cons_cons. intros Hl%last_in.
        apply NoDup_app in Nl as (_ & _ & Nl). apply NoDup_cons in Nl as [? _]. contradiction.
    + rewrite !decide_True by reflexivity. auto.
    + rewrite !(decide_False (P := z = y)) by set_solver.
      rewrite (decide_False (P := last l = Some z)) by (intros ?%last_in; apply (Dl z); set_solver).
      destruct (Hin (l ++ m) z r') as [Hl ->]; [rewrite <- app_assoc; reflexivity |].
      split; [| reflexivity]. destruct m as [| w m _] using rev_ind.
      * simpl. rewrite decide_True by reflexivity. rewrite last_snoc. reflexivity.
      * rewrite app_assoc in Hl. rewrite last_snoc in Hl.
        rewrite decide_False.
        -- rewrite Hl, app_comm_cons, app_assoc, last_snoc. reflexivity.
        -- intros Hh. apply NoDup_app in Nr as (_ & Dm & _). apply (Dm z); [| left].
           destruct m as [| v m]; simpl in Hh; injection Hh as ->; left.
  - intros x Hx. rewrite Hs, Hp, !(decide_False (P := x = y)) by set_solver.
    rewrite !decide_False by (first [intros ?%last_in | intros ?%head_in]; set_solver).
    apply Hout. set_solver.
Qed.

Lemma threaded_remove h h' l y r :
  NoDup (l ++ y :: r) -> threaded h (l ++ y :: r) ->
  (forall x, successor h' x =
     if decide (x = y) then None else if decide (last l = Some x) then head r else successor h x) ->
  (forall x, predecessor h' x =
     if decide (x = y) then None else if decide (head r = Some x) then last l else predecessor h x) ->
  threaded h' (l ++ r).
Proof.
  intros Hnd [Hin Hout] Hs Hp. apply NoDup_app in Hnd as (Nl & Dl & Nr).
  apply NoDup_cons in Nr as [Ny Nr].
  assert (Nyl : y ∉ l) by (intros ?; apply (Dl y); [assumption | left]). split.
  - intros l' z r' Heq. rewrite Hp, Hs. apply app_eq_inv in Heq as [(m & -> & Hm) | (m & -> & ->)].
    + destruct m as [| w m]; simpl in Hm.
      * subst r. rewrite app_nil_r in *. rewrite !(decide_False (P := z = y)) by set_solver +Ny.
        rewrite decide_True by reflexivity.
        rewrite decide_False by (intros ?%last_in; apply (Dl z); [assumption | right; left]).
        split; [reflexivity |]. apply (Hin (l' ++ [y]) z r'). rewrite <- app_assoc. reflexivity.
      * injection Hm as <- ->. rewrite !(decide_False (P := z = y)) by set_solver +Nyl.
        rewrite (decide_False (P := head r = Some z)) by
          (intros ?%head_in; apply (Dl z); [set_solver + | right; assumption]).
        destruct (Hin l' z (m ++ y :: r)) as [-> Hh]; [rewrite <- app_assoc; reflexivity |].
        split; [reflexivity |]. destruct m as [| w m]; simpl in *.
        -- rewrite last_snoc, decide_True by reflexivity. reflexivity.
        -- rewrite decide_False; [assumption |]. rewrite last_app_cons, last_cons_cons. intros Hl%last_in.
           apply NoDup_app in Nl as (_ & _ & Nl). apply NoDup_cons in Nl as [? _]. contradiction.
    + rewrite !(decide_False (P := z = y)) by set_solver +Ny.
      rewrite (decide_False (P := last l = Some z)) by
        (intros ?%last_in; apply (Dl z); [assumption | right; set_solver +]).
      destruct (Hin (l ++ y :: m) z r') as [Hl ->]; [rewrite <- app_assoc; reflexivity |].
      split; [| reflexivity]. destruct m as [| w m _] using rev_ind.
      * simpl. rewrite decide_True, app_nil_r by reflexivity. reflexivity.
      * rewrite app_comm_cons, app_assoc, last_snoc in Hl. rewrite decide_False.
        -- rewrite Hl, app_assoc, last_snoc. reflexivity.
        -- intros Hh. apply NoDup_app in Nr as (_ & Dm & _). apply (Dm z); [| left].
           destruct m as [| v m]; simpl in Hh; injection Hh as ->; left.
  - intros x Hx. rewrite Hs, Hp. case_decide; [auto |].
    rewrite !decide_False by (first [intros ?%last_in | intros ?%head_in]; set_solver).
    apply Hout. set_solver.
Qed.

Lemma threaded_replace h h' l y z r :
  NoDup (l ++ y :: r) -> NoDup (l ++ z :: r) -> threaded h (l ++ y :: r) ->
  (forall x, successor h' x =
     if decide (x = z) then head r else if decide (last l = Some x) then Some z
     else if decide (x = y) then None else successor h x) ->
  (forall x, predecessor h' x =
     if decide (x = z) then last l else if decide (head r = Some x) then Some z
     else if decide (x = y) then None else predecessor h x) ->
  threaded h' (l ++ z :: r).
Proof.
  intros Hy Hz Ht Hs Hp.
  set (h1 := mkHooks (parent h) (left h) (right h)
    (fun x => if decide (x = y) then None else if decide (head r = Some x) then last l else predecessor h x)
    (fun x => if decide (x = y) then None else if decide (last l = Some x) then head r else successor h x)
    (color h) (root h)).
  apply (threaded_insert h1); [assumption | apply (threaded_remove h _ l y r); auto | |].
  - intros x. rewrite Hs. simpl. repeat case_decide; try congruence; reflexivity.
  - intros x. rewrite Hp. simpl. repeat case_decide; try congruence; reflexivity.
Qed.

Section Ops.
Context {D V J : Type} (Aggregate : hooks -> D -> ptr -> D * bool) `{!Aggregator (V := V) (J := J) Aggregate}.
Local Abbreviation at_ := (at_ Aggregate).
Local Abbreviation AggregatePath := (AggregatePath Aggregate).
Local Abbreviation AggregateNode := (AggregateNode Aggregate).

(** ** Aggregation up a path *)

(** From a hole whose new contents are aggregated, [AggregatePath] brings the context up
    to date, whatever the hole held before; it may stop early. *)
Lemma AggregatePath_spec fuel h : forall k t d xs,
  rep_ctx h k (rootp t) -> NoDup (inorder (plug k t)) -> aggd d t -> aggk d k xs ->
  (length k <= fuel)%nat ->
  exists d', AggregatePath fuel h d (ctx_parent k) = Ok d' /\ aggd d' t /\ aggk d' k (inorder t) /\
    same_own d d'.
Proof.
  induction fuel as [| fuel IH]; intros k t d xs Hctx Hnd Ht Hk Hf.
  { destruct k; simpl in *; [| lia]. exists d. eauto using same_own_refl. }
  destruct k as [| f k]; [exists d; simpl; eauto using same_own_refl |].
  assert (exists c l p r, ctx_parent (f :: k) = Some p /\ plug (f :: k) t = plug k (T c l p r) /\
    left h p = rootp l /\ right h p = rootp r /\ aggd d l /\ aggd d r /\ rep_ctx h k (Some p) /\
    (forall d', aggd d' (T c l p r) /\ aggk d' k (inorder (T c l p r)) ->
                aggd d' t /\ aggk d' (f :: k) (inorder t)) /\
    exists ys, value d p = msum d ys /\ aggk d k ys)
    as (c & l & p & r & Ep & Epl & Lp & Rp & Al & Ar & Hctx' & Hfin & ys & Hv & Hk').
  { destruct f as [c p r | c l p]; simpl in *.
    - exists c, t, p, r. destruct Hk as (? & ? & ?). split_and!; try tauto. eauto.
    - exists c, l, p, t. destruct Hk as (? & ? & ?). split_and!; try tauto. eauto. }
  rewrite Ep. rewrite Epl in Hnd. simpl. destruct (Aggregate h d p) as [d1 ch] eqn:Ea.
  assert (Ed1 : d1 = AggregateNode h d p) by (unfold RBTree.AggregateNode; rewrite Ea; reflexivity).
  assert (Hp : (p ∉ inorder l) /\ (p ∉ inorder r) /\ (p ∉ ctx_l k ++ ctx_r k)).
  { rewrite inorder_plug in Hnd. simpl in Hnd.
    assert (Hq : ctx_l k ++ (inorder l ++ p :: inorder r) ++ ctx_r k ≡ₚ
                 p :: (inorder l ++ inorder r ++ ctx_l k ++ ctx_r k)) by solve_Permutation.
    rewrite Hq in Hnd. apply NoDup_cons in Hnd as [? _]. set_solver. }
  assert (At : aggd d1 (T c l p r)) by (subst d1; apply AggregateNode_at; tauto).
  assert (O1 : same_own d d1) by (subst d1; apply AggregateNode_own).
  assert (Hk1 : aggk d1 k ys).
  { apply (aggk_frame _ d); [assumption | | assumption]. intros x Hx. subst d1.
    apply AggregateNode_other. intros ->. tauto. }
  destruct ch.
  - unfold GetParent. assert (Epk : parent h p = ctx_parent k).
    { destruct f; simpl in *; simplify_eq; tauto. }
    rewrite Epk. simpl in Hf.
    destruct (IH k (T c l p r) d1 ys) as (d' & -> & A & B & O'); auto; [lia |].
    exists d'. destruct (Hfin d') as [? ?]; [auto |]. eauto using same_own_trans.
  - exists d1. split; [reflexivity |]. pose proof (agg_unchanged h d p) as Hu. rewrite Ea in Hu.
    specialize (Hu eq_refl). simpl in Hu.
    destruct (Hfin d1) as [? ?]; [| auto]. split; [assumption |].
    apply (aggk_sum _ d1 k ys); [| assumption].
    rewrite (msum_own _ d d1 ys) by assumption. rewrite <- Hv, <- Hu. simpl in At. tauto.
Qed.

(** New contents for the hole of an aggregated tree. *)
Lemma refill h h' d d1 k t t' fuel :
  at_ h d k t -> rep_ctx h' k (rootp t') -> rep h' (ctx_parent k) t' ->
  NoDup (inorder (plug k t')) -> (forall x, x ∉ inorder (plug k t') -> clean h' x) ->
  aggd d1 t' -> (forall x, x ∈ ctx_l k ++ ctx_r k -> same_data d d1 x) -> same_own d d1 ->
  (length k <= fuel)%nat ->
  exists d', AggregatePath fuel h' d1 (ctx_parent k) = Ok d' /\ at_ h' d' k t' /\ same_own d d'.
Proof.
  intros H Hctx Hrep Hnd Hcl Ag Hsd Ho Hf.
  destruct (AggregatePath_spec fuel h' k t' d1 (inorder t)) as (d' & -> & A & B & O'); auto.
  { apply (aggk_frame _ d); auto. apply (at_aggk _ _ _ _ _ H). }
  exists d'. split; [reflexivity |]. split; [constructor; auto | eauto using same_own_trans].
Qed.

(** The hooks hold a balanced tree of the items [xs], in this order, threaded in this
    order; items outside are unlinked; all aggregates are up to date. *)
Definition tree_of (h : hooks) (d : D) (xs : list ptr) : Prop :=
  exists t m, at_ h d [] t /\ rb Black m t /\ inorder t = xs /\ threaded h xs.

Lemma restored_tree_of h d t0 r xs :
  restored Aggregate h d t0 r -> inorder t0 = xs -> threaded h xs ->
  exists h' d', r = Ok (h', d') /\ tree_of h' d' xs /\ same_own d d'.
Proof.
  intros (h' & d' & t' & m & -> & Hat & Hrb & Hin & K & O) <- Ht.
  exists h', d'. split; [reflexivity |]. split; [| assumption].
  exists t', m. rewrite Hin. eauto using threaded_kept.
Qed.

(** The hooks of a context after its hole was linked to a new item. *)
Lemma link_ctx h h' k node :
  rep_ctx h k None -> NoDup (ctx_l k ++ ctx_r k) -> k <> [] ->
  (forall x, x ∈ ctx_l k ++ ctx_r k -> ctx_parent k <> Some x -> same_node h h' x) ->
  root h' = root h ->
  (forall c p r k', k = FL c p r :: k' -> parent h' p = parent h p /\ left h' p = Some node /\
                    right h' p = right h p /\ color h' p = color h p) ->
  (forall c l p k', k = FR c l p :: k' -> parent h' p = parent h p /\ left h' p = left h p /\
                    right h' p = Some node /\ color h' p = color h p) ->
  rep_ctx h' k (Some node).
Proof.
  intros Hctx Hnd Hne Hs Hroot HL HR.
  destruct k as [| [c p r | c l p] k]; [congruence | |]; simpl in *; clear Hne;
    destruct Hctx as (H1 & H2 & H3 & H4 & H5 & H6).
  - destruct (HL _ _ _ _ eq_refl) as (-> & -> & -> & ->).
    assert (Np : p ∉ inorder r ++ ctx_l k ++ ctx_r k).
    { assert (Hq : ctx_l k ++ p :: inorder r ++ ctx_r k ≡ₚ p :: inorder r ++ ctx_l k ++ ctx_r k) by solve_Permutation.
      rewrite Hq in Hnd. apply NoDup_cons in Hnd as [? _]. assumption. }
    split_and!; auto.
    + apply (rep_frame h); [| assumption]. intros x Hx. apply Hs; set_solver.
    + apply (rep_ctx_frame h); [assumption | | assumption]. intros x Hx. apply Hs; set_solver.
  - destruct (HR _ _ _ _ eq_refl) as (-> & -> & -> & ->).
    assert (Np : p ∉ inorder l ++ ctx_l k ++ ctx_r k).
    { assert (Hq : (ctx_l k ++ inorder l ++ [p]) ++ ctx_r k ≡ₚ p :: inorder l ++ ctx_l k ++ ctx_r k) by solve_Permutation.
      rewrite Hq in Hnd. apply NoDup_cons in Hnd as [? _]. assumption. }
    split_and!; auto.
    + apply (rep_frame h); [| assumption]. intros x Hx. apply Hs; set_solver.
    + apply (rep_ctx_frame h); [assumption | | assumption]. intros x Hx. apply Hs; set_solver.
Qed.

(** Both insertions, from the hooks after their pointer writes. *)
Lemma insert_linked h h' d k b node fuel :
  at_ h d k E -> rbk b 0 k -> k <> [] -> (node ∉ ctx_l k ++ ctx_r k) ->
  (forall x, x <> node -> ctx_parent k <> Some x -> same_node h h' x) -> root h' = root h ->
  rep_ctx h' k (Some node) ->
  parent h' node = ctx_parent k -> left h' node = None -> right h' node = None ->
  threaded h (ctx_l k ++ ctx_r k) ->
  (forall x, successor h' x = if decide (x = node) then head (ctx_r k)
     else if decide (last (ctx_l k) = Some x) then Some node else successor h x) ->
  (forall x, predecessor h' x = if decide (x = node) then last (ctx_l k)
     else if decide (head (ctx_r k) = Some x) then Some node else predecessor h x) ->
  (length k < fuel)%nat ->
  exists h2 d2, (d1 ← AggregatePath fuel h' (AggregateNode h' d node) (ctx_parent k);
                 FixInsert Aggregate fuel node h' d1) = Ok (h2, d2) /\
    tree_of h2 d2 (ctx_l k ++ node :: ctx_r k) /\ same_own d d2.
Proof.
  intros H Hk Hne Hn Hs Hroot Hctx Pn Ln Rn Hth Hsu Hpr Hf.
  pose proof (at_nodup _ _ _ _ _ H) as Hnd. rewrite inorder_plug in Hnd. simpl in Hnd.
  assert (Hnd' : NoDup (ctx_l k ++ node :: ctx_r k)).
  { assert (Hq : ctx_l k ++ node :: ctx_r k ≡ₚ node :: ctx_l k ++ ctx_r k) by solve_Permutation.
    rewrite Hq. apply NoDup_cons; auto. }
  destruct (refill h h' d (AggregateNode h' d node) k E (T (color h' node) E node E) fuel)
    as (d1 & -> & Hat & O1); auto.
  - simpl. tauto.
  - rewrite inorder_plug. assumption.
  - intros x Hx. rewrite inorder_plug in Hx. simpl in Hx.
    destruct (Hs x) as (E1 & E2 & E3 & _).
    + set_solver.
    + destruct k as [| [] ]; simpl in *; set_solver.
    + unfold clean. rewrite E1, E2, E3. apply (at_clean _ _ _ _ _ H). rewrite inorder_plug. set_solver.
  - apply AggregateNode_at; simpl; auto; set_solver.
  - intros x Hx. apply AggregateNode_other. set_solver.
  - apply AggregateNode_own.
  - lia.
  - cbn [mbind res_bind].
    destruct (restored_tree_of h' d1 _ (FixInsert Aggregate fuel node h' d1) (ctx_l k ++ node :: ctx_r k)
      (FixInsert_spec Aggregate fuel k _ E node E 0 b h' d1 Hat rb_E rb_E Hk Hf)) as (h2 & d2 & -> & Ht & O2).
    + rewrite inorder_plug. reflexivity.
    + apply (threaded_insert h); assumption.
    + exists h2, d2. eauto using same_own_trans.
Qed.

Ltac hooks_step :=
  unfold same_node in *; simpl in *; unfold upd; simpl;
  repeat (first [rewrite decide_True by congruence | rewrite decide_False by congruence]); auto.

Lemma InsertLeft_spec fuel h d c par r k b node :
  let k' := FL c par r :: k in
  at_ h d k' E -> rbk b 0 k' -> (node ∉ ctx_l k' ++ ctx_r k') ->
  threaded h (ctx_l k' ++ ctx_r k') -> (length k' < fuel)%nat ->
  exists h2 d2, InsertLeft Aggregate fuel par node h d = Ok (h2, d2) /\
    tree_of h2 d2 (ctx_l k' ++ node :: ctx_r k') /\ same_own d d2.
Proof.
  intros k' H Hk Hn Hth Hf.
  assert (Hpn : par <> node) by (simpl in Hn; set_solver).
  assert (Hpred : predecessor h par = last (ctx_l k')) by apply (proj1 Hth _ _ _ eq_refl).
  assert (Hcl : clean h node) by (apply (at_clean _ _ _ _ _ H); rewrite inorder_plug; assumption).
  destruct Hcl as (Pn & Ln & Rn).
  unfold InsertLeft, Predecessor. simpl. rewrite Hpred.
  set (h1 := set_parent node (Some par) (set_left par (Some node) h)).
  set (h2 := if_set set_successor (last (ctx_l k')) (Some node) h1).
  change (Some par) with (ctx_parent k') at 2.
  assert (Hlast : forall x, last (ctx_l k') = Some x -> x <> node)
    by (intros x Hx%last_in ->; apply Hn, elem_of_app; auto).
  assert (F2 : parent h2 = parent h1 /\ left h2 = left h1 /\ right h2 = right h1 /\ color h2 = color h1 /\
    root h2 = root h1 /\ predecessor h2 = predecessor h1)
    by (unfold h2; destruct (last (ctx_l k')); simpl; auto 10).
  destruct F2 as (F2p & F2l & F2r & F2c & F2o & F2q).
  apply (insert_linked h _ d k' b); auto; try discriminate.
  - intros x Hx Hxp. unfold same_node. simpl. rewrite F2p, F2l, F2r, F2c. simpl in Hxp. hooks_step.
  - apply (link_ctx h); try discriminate; auto.
    + apply (at_ctx _ _ _ _ _ H).
    + pose proof (at_nodup _ _ _ _ _ H) as Hnd. rewrite inorder_plug in Hnd. assumption.
    + intros x Hx Hxp. simpl in Hxp. assert (x <> node) by congruence.
      unfold same_node. simpl. rewrite F2p, F2l, F2r, F2c. hooks_step.
    + intros ? ? ? ? [= <- <- <- <-]. simpl. rewrite F2p, F2l, F2r, F2c. hooks_step.
  - simpl. rewrite F2p. hooks_step.
  - simpl. rewrite F2l. hooks_step.
  - simpl. rewrite F2r. hooks_step.
  - intros x. unfold h2. simpl. destruct (last (ctx_l k)) as [q |] eqn:El; simpl; unfold upd;
      repeat case_decide; congruence.
  - intros x. simpl. rewrite F2q. unfold upd. repeat case_decide; simpl in *; congruence.
Qed.

Lemma InsertRight_spec fuel h d c l par k b node :
  let k' := FR c l par :: k in
  at_ h d k' E -> rbk b 0 k' -> (node ∉ ctx_l k' ++ ctx_r k') ->
  threaded h (ctx_l k' ++ ctx_r k') -> (length k' < fuel)%nat ->
  exists h2 d2, InsertRight Aggregate fuel par node h d = Ok (h2, d2) /\
    tree_of h2 d2 (ctx_l k' ++ node :: ctx_r k') /\ same_own d d2.
Proof.
  intros k' H Hk Hn Hth Hf.
  assert (Hpn : par <> node) by (simpl in Hn; set_solver).
  assert (El : last (ctx_l k') = Some par) by (simpl; rewrite app_assoc, last_snoc; reflexivity).
  assert (Hsucc : successor h par = head (ctx_r k')).
  { apply (proj1 Hth (ctx_l k ++ inorder l) par). simpl. rewrite <- !app_assoc. reflexivity. }
  assert (Hcl : clean h node) by (apply (at_clean _ _ _ _ _ H); rewrite inorder_plug; assumption).
  destruct Hcl as (Pn & Ln & Rn).
  unfold InsertRight, Successor. simpl. rewrite Hsucc.
  set (h1 := set_successor node (head (ctx_r k')) (set_predecessor node (Some par) (set_successor par (Some node)
               (set_parent node (Some par) (set_right par (Some node) h))))).
  set (h2 := if_set set_predecessor (head (ctx_r k')) (Some node) h1).
  change (Some par) with (ctx_parent k').
  assert (F2 : parent h2 = parent h1 /\ left h2 = left h1 /\ right h2 = right h1 /\ color h2 = color h1 /\
    root h2 = root h1 /\ successor h2 = successor h1)
    by (unfold h2; destruct (head (ctx_r k')); simpl; auto 10).
  destruct F2 as (F2p & F2l & F2r & F2c & F2o & F2q).
  assert (Hhead : forall x, head (ctx_r k') = Some x -> x <> node)
    by (intros x Hx%head_in ->; apply Hn, elem_of_app; auto).
  apply (insert_linked h _ d k' b); auto; try discriminate.
  - intros x Hx Hxp. unfold same_node. rewrite F2p, F2l, F2r, F2c. simpl in Hxp. hooks_step.
  - apply (link_ctx h); try discriminate; auto.
    + apply (at_ctx _ _ _ _ _ H).
    + pose proof (at_nodup _ _ _ _ _ H) as Hnd. rewrite inorder_plug in Hnd. assumption.
    + intros x Hx Hxp. simpl in Hxp. assert (x <> node) by congruence.
      unfold same_node. rewrite F2p, F2l, F2r, F2c. hooks_step.
    + intros ? ? ? ? [= <- <- <- <-]. rewrite F2p, F2l, F2r, F2c. hooks_step.
  - rewrite F2p. hooks_step.
  - rewrite F2l. hooks_step.
  - rewrite F2r. hooks_step.
  - intros x. rewrite F2q, El. simpl. unfold upd. repeat case_decide; simpl in *; congruence.
  - intros x. unfold h2. rewrite El. destruct (head (ctx_r k')) as [q |] eqn:Eh; simpl; unfold upd;
      repeat case_decide; simpl in *; try congruence.
    exfalso. eapply Hhead; eauto; congruence.
Qed.

Lemma InsertRoot_spec fuel h d node :
  tree_of h d [] -> (0 < fuel)%nat ->
  exists h2 d2, InsertRoot Aggregate fuel node h d = Ok (h2, d2) /\ tree_of h2 d2 [node] /\ same_own d d2.
Proof.
  intros (t & m & H & Hrb & Hin & Hth) Hf.
  assert (t = E) as -> by (destruct t as [| c l p r]; [reflexivity | simpl in Hin; destruct (inorder l); discriminate]).
  destruct (at_clean _ _ _ _ _ H node) as (Pn & Ln & Rn); [set_solver |].
  unfold InsertRoot. set (h' := set_root (Some node) h).
  assert (Hat : at_ h' (AggregateNode h' d node) [] (T (color h node) E node E)).
  { constructor; simpl; auto 10.
    - apply NoDup_singleton.
    - intros x Hx. apply (at_clean _ _ _ _ _ H). set_solver.
    - destruct (AggregateNode_at Aggregate h' d (color h node) E node E) as (A & _); simpl; auto; set_solver. }
  destruct (restored_tree_of h' (AggregateNode h' d node) _ (FixInsert Aggregate fuel node h' (AggregateNode h' d node))
    [node] (FixInsert_spec Aggregate fuel [] _ E node E 0 false h' _ Hat rb_E rb_E (rbk_nil 0) Hf)) as (h2 & d2 & -> & Ht & O2).
  - reflexivity.
  - destruct Hth as [_ Ho]. split.
    + intros l x r Heq. destruct l as [| ? []]; simplify_eq/=. apply Ho. set_solver.
    + intros x Hx. apply Ho. set_solver.
  - exists h2, d2. split; [reflexivity |]. split; [assumption |].
    intros x. rewrite O2. apply AggregateNode_own.
Qed.

(** ** Insertion in order *)

Variable less : D -> ptr -> ptr -> bool.

Lemma rbk_hole k m : rb Black m (plug k E) -> exists b, rbk b 0 k.
Proof. intros (c & b & n & Ht & Hk & _)%rb_unplug. inversion Ht; subst. eauto. Qed.

Lemma Insert_loop_spec fuel0 node h d xs1 xs2 m : forall fuel k c l cur r,
  at_ h d k (T c l cur r) -> inorder (plug k (T c l cur r)) = xs1 ++ xs2 ->
  rb Black m (plug k (T c l cur r)) -> threaded h (xs1 ++ xs2) -> (node ∉ xs1 ++ xs2) ->
  (forall x, x ∈ xs1 -> less d node x = false) -> (forall x, x ∈ xs2 -> less d node x = true) ->
  (forall x, x ∈ ctx_l k -> less d node x = false) -> (forall x, x ∈ ctx_r k -> less d node x = true) ->
  (height (T c l cur r) <= fuel)%nat -> (height (plug k (T c l cur r)) < fuel0)%nat ->
  exists h2 d2, Insert_loop Aggregate less fuel fuel0 node cur h d = Ok (h2, d2) /\
    tree_of h2 d2 (xs1 ++ node :: xs2) /\ same_own d d2.
Proof.
  induction fuel as [| fuel IH]; intros k c l cur r H Hin Hrb Hth Hn H1 H2 Hl Hr Hf Hf0;
    [simpl in Hf; lia |].
  destruct (at_fields _ _ _ _ _ _ _ _ H) as (_ & Lc & Rc & _).
  assert (Hcut : xs1 ++ xs2 = (ctx_l k ++ inorder l) ++ cur :: (inorder r ++ ctx_r k))
    by (rewrite <- Hin, inorder_plug; simpl; rewrite <- !app_assoc; reflexivity).
  pose proof (cut_around (less d node) _ _ _ _ _ Hcut H1 H2) as Haround.
  simpl. unfold GetLeft, GetRight. rewrite Lc, Rc. simpl in Hf.
  destruct (less d node cur) eqn:Ec.
  - destruct l as [| c1 l1 p1 r1]; simpl.
    + assert (Heq : xs1 ++ xs2 = ctx_l (FL c cur r :: k) ++ ctx_r (FL c cur r :: k))
        by (rewrite Hcut; simpl; rewrite app_nil_r; reflexivity).
      destruct (rbk_hole (FL c cur r :: k) m Hrb) as [b Hb].
      destruct (cut_unique (less d node) _ _ _ _ Heq) as [-> ->]; auto.
      { simpl. intros x [-> | Hx]%elem_of_cons; [assumption |]. apply Haround. assumption. }
      eapply InsertLeft_spec; eauto; [rewrite at_FL; assumption |].
      pose proof (height_plug (FL c cur r :: k) E). simpl in *. lia.
    + eapply (IH (FL c cur r :: k)); eauto.
      * rewrite at_FL; assumption.
      * intros x [-> | Hx]%elem_of_cons; [assumption |]. apply Haround. assumption.
      * simpl in *. lia.
  - destruct r as [| c1 l1 p1 r1]; simpl.
    + assert (Heq : xs1 ++ xs2 = ctx_l (FR c l cur :: k) ++ ctx_r (FR c l cur :: k))
        by (rewrite Hcut; simpl; rewrite <- !app_assoc; reflexivity).
      destruct (rbk_hole (FR c l cur :: k) m Hrb) as [b Hb].
      destruct (cut_unique (less d node) _ _ _ _ Heq) as [-> ->]; auto.
      { simpl. rewrite app_assoc. intros x [Hx | ->%list_elem_of_singleton]%elem_of_app; [| assumption].
        apply Haround. assumption. }
      eapply InsertRight_spec; eauto; [rewrite at_FR; assumption |].
      pose proof (height_plug (FR c l cur :: k) E). simpl in *. lia.
    + eapply (IH (FR c l cur :: k)); eauto.
      * rewrite at_FR; assumption.
      * simpl. rewrite app_assoc. intros x [Hx | ->%list_elem_of_singleton]%elem_of_app; [| assumption].
        apply Haround. assumption.
      * simpl in *. lia.
Qed.

Definition enough_fuel (fuel : nat) (xs : list ptr) : Prop := (2 * Nat.log2 (S (length xs)) < fuel)%nat.

Lemma tree_of_insert fuel h d node xs1 xs2 :
  tree_of h d (xs1 ++ xs2) -> (node ∉ xs1 ++ xs2) ->
  (forall x, x ∈ xs1 -> less d node x = false) -> (forall x, x ∈ xs2 -> less d node x = true) ->
  enough_fuel fuel (xs1 ++ xs2) ->
  exists h2 d2, Insert Aggregate less fuel node h d = Ok (h2, d2) /\
    tree_of h2 d2 (xs1 ++ node :: xs2) /\ same_own d d2.
Proof.
  intros Ht Hn H1 H2 Hf. unfold enough_fuel in Hf. unfold Insert, GetRoot.
  pose proof Ht as (t & m & H & Hrb & Hin & Hth). pose proof (at_ctx _ _ _ _ _ H) as Hroot.
  simpl in Hroot. rewrite Hroot. pose proof (rb_log _ _ Hrb) as Hh. rewrite Hin in Hh.
  destruct t as [| c l cur r].
  - simpl in Hin. symmetry in Hin. apply app_nil in Hin as [-> ->].
    apply InsertRoot_spec; [assumption | lia].
  - simpl rootp. cbn iota. eapply (Insert_loop_spec fuel node h d xs1 xs2 m fuel []); eauto;
      simpl in *; try lia; set_solver.
Qed.
End Ops.
