(* ===== verification/RBTreeRemove.v ===== *)
(** Removal from the tree of [RBTree.v]: unlinking an item with at most one child,
    replacing an item by another, and their combination in [Remove]. *)

From S2P Require Import Prelude RBTree RBTreeProofs RBTreeFix RBTreeOps.

Section Remove.
Context {D V J : Type} (Aggregate : hooks -> D -> ptr -> D * bool) `{!Aggregator (V := V) (J := J) Aggregate}.
Local Abbreviation at_ := (at_ Aggregate).
Local Abbreviation AggregatePath := (AggregatePath Aggregate).
Local Abbreviation AggregateNode := (AggregateNode Aggregate).
Local Abbreviation tree_of := (tree_of Aggregate).

(** Writes to the thread links do not touch the tree. *)
Lemma at_same h h' d k t :
  (forall x, same_node h h' x) -> root h' = root h -> at_ h d k t -> at_ h' d k t.
Proof.
  intros Hs Hr [H1 H2 H3 H4 H5 H6]. constructor; auto.
  - apply (rep_ctx_frame h); auto.
  - apply (rep_frame h); auto.
  - intros x Hx. destruct (Hs x) as (E1 & E2 & E3 & _). unfold clean. rewrite E1, E2, E3. apply H4, Hx.
Qed.

(** The only child of an item with at most one child. *)
Definition only_child (l r t0 : tree) : Prop := (l = E /\ t0 = r) \/ (r = E /\ t0 = l).

Lemma only_child_inorder l r t0 p c :
  only_child l r t0 -> inorder (T c l p r) ≡ₚ p :: inorder t0 /\ inorder l ++ inorder r = inorder t0.
Proof.
  intros [[-> ->] | [-> ->]]; simpl; [auto |]. rewrite app_nil_r. split; [solve_Permutation | reflexivity].
Qed.

Lemma clear_links_other n h x : x <> n -> same_node h (clear_links n h) x.
Proof.
  intros Hx. unfold same_node, clear_links, upd; simpl. unfold upd.
  rewrite !(decide_False (P := x = n)) by assumption. auto.
Qed.

Lemma clear_links_self n h : clean (clear_links n h) n.
Proof. unfold clean, clear_links; simpl. unfold upd. rewrite !decide_True by reflexivity. auto. Qed.

(** Unlinking the focused item and handing its place to its only child. *)
Lemma unlink h d k c l n r t0 fuel :
  at_ h d k (T c l n r) -> only_child l r t0 -> (length k <= fuel)%nat ->
  let h' := clear_links n (if_set set_parent (rootp t0) (ctx_parent k)
              (replace_child (ctx_parent k) n (rootp t0) h)) in
  exists d', AggregatePath fuel h' d (ctx_parent k) = Ok d' /\ at_ h' d' k t0 /\ same_own d d'.
Proof.
  intros H Ho Hf h'. set (h1 := replace_child (ctx_parent k) n (rootp t0) h) in *.
  destruct (only_child_inorder _ _ _ n c Ho) as [Hp _].
  pose proof (at_nodup_split _ _ _ _ _ _ _ _ H) as (_ & _ & _ & _ & _ & _ & NDk).
  pose proof (at_nodup _ _ _ _ _ H) as Hnd. rewrite inorder_plug, Hp in Hnd.
  assert (Hq : ctx_l k ++ (n :: inorder t0) ++ ctx_r k ≡ₚ n :: (inorder t0 ++ ctx_l k ++ ctx_r k))
    by solve_Permutation.
  rewrite Hq in Hnd. apply NoDup_cons in Hnd as [Nn Hnd].
  apply NoDup_app in Hnd as (ND0 & Dk & _).
  assert (S3 : forall x, x <> n -> rootp t0 <> Some x -> same_node h1 h' x).
  { intros x Hx Hr. destruct (clear_links_other n (if_set set_parent (rootp t0) (ctx_parent k) h1) x Hx)
      as (E1 & E2 & E3 & E4).
    unfold same_node, h'. rewrite E1, E2, E3, E4. destruct (rootp t0) as [q |]; simpl; auto.
    unfold upd. rewrite decide_False by congruence. auto. }
  destruct H as [Hctx Hrep Hnd0 Hcl Hag Hagk]. simpl in Hrep, Hag.
  assert (R0 : rep h (Some n) t0 /\ aggd d t0) by (destruct Ho as [[-> ->] | [-> ->]]; tauto).
  destruct R0 as [R0 A0].
  apply (refill Aggregate h h' d d k (T c l n r) t0 fuel); auto.
  - constructor; auto.
  - apply (rep_ctx_frame h1).
    + unfold h'. simpl. destruct (rootp t0); reflexivity.
    + intros x Hx. apply S3; [set_solver |]. intros Ht%rootp_in. exact (Dk x Ht Hx).
    + apply replace_child_ctx; assumption.
  - assert (R1 : rep h1 (Some n) t0).
    { apply (rep_frame h); [| assumption]. intros x Hx. apply replace_child_other, Dk, Hx. }
    apply (rep_move h1 _ (Some n)); [| | | assumption | assumption].
    + intros x Hx. assert (Hxn : x <> n) by set_solver.
      destruct (clear_links_other n (if_set set_parent (rootp t0) (ctx_parent k) h1) x Hxn) as (_ & E2 & E3 & E4).
      unfold h'. rewrite E2, E3, E4. destruct (rootp t0); auto.
    + intros x Hx Hr. apply S3; [set_solver | assumption].
    + intros x Hx. assert (Hxn : x <> n) by (apply rootp_in in Hx; set_solver).
      destruct (clear_links_other n (if_set set_parent (rootp t0) (ctx_parent k) h1) x Hxn) as (E1 & _).
      unfold h'. rewrite E1, Hx. simpl. unfold upd. rewrite decide_True; reflexivity.
  - rewrite inorder_plug in *. rewrite Hp, Hq in Hnd0. apply NoDup_cons in Hnd0 as [_ Hnd0].
    assert (Hq2 : ctx_l k ++ inorder t0 ++ ctx_r k ≡ₚ inorder t0 ++ ctx_l k ++ ctx_r k) by solve_Permutation.
    rewrite Hq2. assumption.
  - intros x Hx. rewrite inorder_plug in Hx.
    destruct (decide (x = n)) as [-> | Hxn]; [apply clear_links_self |].
    destruct (S3 x) as (E1 & E2 & E3 & _); [assumption | intros ?%rootp_in; set_solver |].
    destruct (replace_child_other h k n (rootp t0) x) as (F1 & F2 & F3 & _); [set_solver |].
    unfold clean. rewrite E1, E2, E3. unfold h1. rewrite F1, F2, F3. apply Hcl.
    rewrite inorder_plug, Hp. set_solver.
  - intros x Hx. reflexivity.
  - intros x. reflexivity.
Qed.

Lemma rb_only_child c m l n r t0 : rb c m (T c l n r) -> only_child l r t0 ->
  (c = Red /\ m = 0%nat /\ t0 = E) \/ (c = Black /\ m = 1%nat /\ t0 = E) \/
  (c = Black /\ m = 1%nat /\ exists a x b, t0 = T Red a x b /\ rb Black 0 a /\ rb Black 0 b).
Proof.
  intros H [[-> ->] | [-> ->]]; inversion H; subst;
    repeat match goal with
    | H : rb _ _ E |- _ => inversion H; clear H; subst
    | H : rb Black 0 ?t |- _ => inversion H; clear H; subst
    | H : rb ?c 0 ?t |- _ => is_var c; inversion H; subst
    end; eauto 15 with rbtree.
Qed.

(** The colours after [RemoveHalfLeaf] made up for the black item that goes. *)
Definition recolored (h : hooks) (d : D) (k : list frame) (l : tree) (n : ptr) (r t0 : tree)
  (res : res (hooks * D)) : Prop :=
  exists h1 d1 k1 c1 l1 r1 t1 ct m b, res = Ok (h1, d1) /\
    at_ h1 d1 k1 (T c1 l1 n r1) /\ only_child l1 r1 t1 /\ rb ct m t1 /\ rbk b m k1 /\ (ct = Red -> b = true) /\
    ctx_l k1 = ctx_l k /\ ctx_r k1 = ctx_r k /\ inorder l1 = inorder l /\ inorder r1 = inorder r /\
    rootp t1 = rootp t0 /\ threads_kept h h1 /\ same_own d d1.

Lemma RemoveHalfLeaf_colors fuel h d k c l n r t0 M :
  at_ h d k (T c l n r) -> only_child l r t0 -> rb Black M (plug k (T c l n r)) -> (length k < fuel)%nat ->
  recolored h d k l n r t0
    (if decide (color h n = Black) then
       if IsRed h (rootp t0) then c ← deref (rootp t0); Ok (set_color c Black h, d)
       else FixRemove Aggregate fuel n h d
     else Ok (h, d)).
Proof.
  intros H Ho Hrb Hf. destruct (at_fields _ _ _ _ _ _ _ _ H) as (_ & _ & _ & ->).
  destruct (rb_unplug _ _ _ Hrb) as (c0 & b & m & Ht & Hk & Hc).
  pose proof (rb_tcolor _ _ _ Ht) as Ec. simpl in Ec. subst c0.
  destruct (rb_only_child _ _ _ _ _ _ Ht Ho) as [(-> & -> & ->) | [(-> & -> & ->) | (-> & -> & a & x & e & -> & Ha & He)]].
  - exists h, d, k, Red, l, r, E, Black, 0%nat, b. split_and!; try reflexivity; eauto using same_own_refl, threads_kept_refl with rbtree; try discriminate.
  - cbn. destruct (FixRemove_spec Aggregate fuel k _ n b 0 h d H eq_refl Hk Hf)
      as (h1 & d1 & k1 & b1 & -> & Hat & Hk1 & E1 & E2 & K & O).
    exists h1, d1, k1, Black, l, r, E, Black, 0%nat, b1. split_and!; try reflexivity; eauto using same_own_refl, threads_kept_refl with rbtree; try discriminate.
  - assert (Hr : IsRed h (rootp (T Red a x e)) = true).
    { destruct (IsRed_rep _ _ _ _ _ _ _ _ H) as [Rl Rr]. destruct Ho as [[-> <-] | [-> <-]];
        [rewrite Rr | rewrite Rl]; reflexivity. }
    rewrite Hr. cbn.
    destruct Ho as [[-> <-] | [-> <-]].
    + pose proof H as Hx. rewrite <- (at_FR Aggregate) in Hx.
      destruct (set_color_at Aggregate _ _ _ _ Black _ _ _ Hx) as [Hx' K]. rewrite (at_FR Aggregate) in Hx'.
      exists (set_color x Black h), d, k, Black, E, (T Black a x e), (T Black a x e), Black, 1%nat, b.
      split_and!; try reflexivity; eauto using same_own_refl with rbtree; try discriminate; left; auto.
    + pose proof H as Hx. rewrite <- (at_FL Aggregate) in Hx.
      destruct (set_color_at Aggregate _ _ _ _ Black _ _ _ Hx) as [Hx' K]. rewrite (at_FL Aggregate) in Hx'.
      exists (set_color x Black h), d, k, Black, (T Black a x e), E, (T Black a x e), Black, 1%nat, b.
      split_and!; try reflexivity; eauto using same_own_refl with rbtree; try discriminate; right; auto.
Qed.

(** The thread links [RemoveHalfLeaf] leaves. *)
Lemma unthread h h1 k n t0 L R :
  let h0 := if_set set_predecessor (head R) (last L) (if_set set_successor (last L) (head R) h) in
  threads_kept h0 h1 -> NoDup (L ++ n :: R) -> threaded h (L ++ n :: R) ->
  threaded (clear_links n (if_set set_parent t0 (ctx_parent k) (replace_child (ctx_parent k) n t0 h1))) (L ++ R).
Proof.
  intros h0 [K1 K2] Hnd Hth.
  destruct (replace_child_threads (ctx_parent k) n t0 h1) as (F1 & F2 & _).
  apply (threaded_remove h _ L n R Hnd Hth).
  - intros x. assert (Hs : successor (if_set set_parent t0 (ctx_parent k) (replace_child (ctx_parent k) n t0 h1)) = successor h0)
      by (destruct t0; simpl; congruence).
    simpl. rewrite Hs. unfold upd. case_decide; [reflexivity |].
    unfold h0. destruct (head R), (last L); simpl; unfold upd; repeat case_decide; congruence.
  - intros x. assert (Hs : predecessor (if_set set_parent t0 (ctx_parent k) (replace_child (ctx_parent k) n t0 h1)) = predecessor h0)
      by (destruct t0; simpl; congruence).
    simpl. rewrite Hs. unfold upd. case_decide; [reflexivity |].
    unfold h0. destruct (head R), (last L); simpl; unfold upd; repeat case_decide; congruence.
Qed.

Lemma RemoveHalfLeaf_spec fuel h d k c l n r t0 M :
  at_ h d k (T c l n r) -> only_child l r t0 -> rb Black M (plug k (T c l n r)) ->
  let L := ctx_l k ++ inorder l in let R := inorder r ++ ctx_r k in
  threaded h (L ++ n :: R) -> enough_fuel fuel (L ++ n :: R) ->
  exists h2 d2, RemoveHalfLeaf Aggregate fuel n (rootp t0) h d = Ok (h2, d2) /\
    tree_of h2 d2 (L ++ R) /\ same_own d d2.
Proof.
  intros H Ho Hrb L R Hth Hf.
  assert (EqLR : inorder (plug k (T c l n r)) = L ++ n :: R)
    by (rewrite inorder_plug; unfold L, R; simpl; rewrite <- !app_assoc; reflexivity).
  pose proof (rb_log _ _ Hrb) as Hh. rewrite EqLR in Hh. pose proof (height_plug k (T c l n r)) as Hhk.
  simpl in Hhk. unfold enough_fuel in Hf.
  pose proof (at_nodup _ _ _ _ _ H) as Hnd. rewrite EqLR in Hnd.
  destruct (proj1 Hth L n R eq_refl) as [Hpred Hsucc].
  unfold RemoveHalfLeaf, Predecessor, Successor. rewrite Hpred, Hsucc.
  set (h0 := if_set set_predecessor (head R) (last L) (if_set set_successor (last L) (head R) h)).
  assert (H0 : at_ h0 d k (T c l n r)).
  { apply (at_same h); [| | assumption]; unfold h0; destruct (head R), (last L); try reflexivity;
      intros x; repeat split. }
  destruct (RemoveHalfLeaf_colors fuel h0 d k c l n r t0 M H0 Ho Hrb)
    as (h1 & d1 & k1 & c1 & l1 & r1 & t1 & ct & m & b & -> & H1 & Ho1 & Ht1 & Hk1 & Hcb & El & Er & Il & Ir & Et & K & O); [lia |].
  cbn [mbind res_bind]. unfold GetParent. destruct (at_fields _ _ _ _ _ _ _ _ H1) as (-> & _).
  destruct (rb_plug _ _ _ _ _ Ht1 Hk1 Hcb) as [m' Hrb'].
  assert (EqLR' : inorder (plug k1 t1) = L ++ R).
  { rewrite inorder_plug, El, Er. destruct (only_child_inorder _ _ _ n c1 Ho1) as [_ <-].
    rewrite Il, Ir. unfold L, R. rewrite <- !app_assoc. reflexivity. }
  assert (Hlen : (length k1 <= fuel)%nat).
  { pose proof (rb_log _ _ Hrb') as Hh'. pose proof (height_plug k1 t1). rewrite EqLR' in Hh'.
    assert (Nat.log2 (S (length (L ++ R))) <= Nat.log2 (S (length (L ++ n :: R))))%nat
      by (apply Nat.log2_le_mono; rewrite !length_app; simpl; lia). lia. }
  destruct (unlink h1 d1 k1 c1 l1 n r1 t1 fuel H1 Ho1 Hlen) as (d2 & Ea & Hat & O2).
  rewrite Et in Ea, Hat. rewrite Ea. cbn [mbind res_bind].
  eexists _, d2. split; [reflexivity |]. split; [| eauto using same_own_trans].
  exists (plug k1 t1), m'. split_and!; auto.
  - rewrite <- (at_plug Aggregate). assumption.
  - apply (unthread h h1); assumption.
Qed.

(** ** Replacement *)

(** The tree writes of [ReplaceNode]. *)
Definition replace_writes (k : list frame) (l r : tree) (node z : ptr) (c : ColorType) (h : hooks) : hooks :=
  if_set set_parent (rootp r) (Some z) (set_right z (rootp r)
    (if_set set_parent (rootp l) (Some z) (set_left z (rootp l)
      (set_color z c (set_parent z (ctx_parent k) (replace_child (ctx_parent k) node (Some z) h)))))).

(** Its thread writes, around the neighbours of [node]. *)
Definition replace_threads (L R : list ptr) (z : ptr) (h : hooks) : hooks :=
  if_set set_predecessor (head R) (Some z) (set_successor z (head R)
    (set_predecessor z (last L) (if_set set_successor (last L) (Some z) h))).

Lemma ReplaceNode_writes fuel h d k c l node r z L R :
  at_ h d k (T c l node r) -> z <> node ->
  predecessor h node = last L -> successor h node = head R -> last L <> Some node ->
  ReplaceNode Aggregate fuel node z h d =
    let h' := clear_links node (replace_threads L R z (replace_writes k l r node z c h)) in
    d ← AggregatePath fuel h' (AggregateNode h' d z) (ctx_parent k); Ok (h', d).
Proof.
  intros H Hz Hp Hs Hl. destruct (at_fields _ _ _ _ _ _ _ _ H) as (Pn & Ln & Rn & Cn).
  unfold ReplaceNode, GetParent, GetLeft, GetRight, Predecessor, Successor. rewrite Pn, Ln, Rn.
  destruct (replace_child_threads (ctx_parent k) node (Some z) h) as (F1 & F2 & F3 & F4).
  cbn zeta. set (h1 := replace_child (ctx_parent k) node (Some z) h) in *.
  assert (Ec : color (set_parent z (ctx_parent k) h1) node = c) by (simpl; rewrite F3; assumption).
  rewrite Ec. fold (replace_writes k l r node z c h).
  change (if_set set_parent (rootp r) (Some z) _) with (replace_writes k l r node z c h).
  assert (G1 : predecessor (replace_writes k l r node z c h) = predecessor h)
    by (unfold replace_writes; destruct (rootp l), (rootp r); simpl; assumption).
  assert (G2 : successor (replace_writes k l r node z c h) = successor h)
    by (unfold replace_writes; destruct (rootp l), (rootp r); simpl; assumption).
  set (h2 := replace_writes k l r node z c h) in *. rewrite G1, Hp. unfold replace_threads.
  destruct (last L) as [q |]; simpl; rewrite G1, Hp; unfold upd;
    rewrite ?(decide_False (P := node = z)), ?(decide_False (P := node = q)) by congruence;
    rewrite G2, Hs; reflexivity.
Qed.

Lemma replaced h k c l node r z h' L R :
  rep_ctx h k (Some node) -> rep h (ctx_parent k) (T c l node r) ->
  NoDup (z :: node :: inorder l ++ inorder r ++ ctx_l k ++ ctx_r k) -> NoDup (ctx_l k ++ node :: ctx_r k) ->
  h' = clear_links node (replace_threads L R z (replace_writes k l r node z c h)) ->
  rep_ctx h' k (Some z) /\ rep h' (ctx_parent k) (T c l z r) /\
  (forall x, x ∉ z :: node :: inorder l ++ inorder r ++ ctx_l k ++ ctx_r k -> same_node h h' x).
Proof.
  intros Hctx Hrep Hnd NDk Eh.
  apply NoDup_cons in Hnd as [Nz Hnd]. apply NoDup_cons in Hnd as [Nn Hnd].
  apply NoDup_app in Hnd as (NDl & Dl & Hnd). apply NoDup_app in Hnd as (NDr & Dr & _).
  set (h1 := replace_child (ctx_parent k) node (Some z) h).
  assert (S1 : forall x, x ∉ ctx_l k ++ ctx_r k -> same_node h h1 x) by (intros; apply replace_child_other; auto).
  assert (Hw : forall x, x <> node ->
    parent h' x = (if decide (rootp r = Some x) then Some z else if decide (rootp l = Some x) then Some z
                   else if decide (x = z) then ctx_parent k else parent h1 x) /\
    left h' x = (if decide (x = z) then rootp l else left h1 x) /\
    right h' x = (if decide (x = z) then rootp r else right h1 x) /\
    color h' x = (if decide (x = z) then c else color h1 x) /\ root h' = root h1).
  { intros x Hx. subst h'. unfold clear_links, replace_threads, replace_writes. fold h1.
    destruct (head R), (last L), (rootp l), (rootp r); simpl; unfold upd;
      rewrite ?(decide_False (P := x = node)) by assumption; split_and!; auto;
      repeat case_decide; congruence. }
  simpl in Hrep. destruct Hrep as (Pn & Ln & Rn & Cn & Hl & Hr).
  assert (Hs : forall x, x <> node -> x <> z -> rootp l <> Some x -> rootp r <> Some x -> same_node h1 h' x).
  { intros x ? ? ? ?. destruct (Hw x) as (E1 & E2 & E3 & E4 & _); [assumption |].
    unfold same_node. rewrite E1, E2, E3, E4, !decide_False by assumption. auto. }
  pose proof (rootp_in l) as Rl. pose proof (rootp_in r) as Rr.
  assert (Hsub : forall t, (t = l \/ t = r) -> rep h (Some node) t -> NoDup (inorder t) -> rep h' (Some z) t).
  { intros t Ht Hrt Hndt.
    apply (rep_move h1 _ (Some node)); [| | | assumption |].
    - intros x Hx. destruct (Hw x) as (_ & E2 & E3 & E4 & _); [destruct Ht as [-> | ->]; set_solver |].
      rewrite E2, E3, E4, !decide_False by (destruct Ht as [-> | ->]; set_solver). auto.
    - intros x Hx Hne. apply Hs; destruct Ht as [-> | ->]; try assumption; try set_solver;
        (intros ?%Rr || intros ?%Rl); set_solver.
    - intros x Hx. destruct (Hw x) as (-> & _); [destruct Ht as [-> | ->]; set_solver |].
      destruct Ht as [-> | ->].
      + case_decide; [reflexivity |]. rewrite decide_True by assumption. reflexivity.
      + rewrite decide_True by assumption. reflexivity.
    - apply (rep_frame h); [| assumption]. intros x Hx. apply S1. destruct Ht as [-> | ->]; set_solver. }
  split_and!.
  - apply (rep_ctx_frame h1).
    + destruct (Hw z) as (_ & _ & _ & _ & E0); [set_solver | assumption].
    + intros x Hx. apply Hs; [set_solver | set_solver | |]; [intros ?%Rl | intros ?%Rr]; set_solver.
    + apply replace_child_ctx; assumption.
  - destruct (Hw z) as (E1 & E2 & E3 & E4 & _); [set_solver |].
    rewrite (decide_False (P := rootp r = _)), (decide_False (P := rootp l = _)) in E1
      by ((intros ?%Rr || intros ?%Rl); set_solver).
    rewrite decide_True in E1, E2, E3 by reflexivity. rewrite decide_True in E4 by reflexivity. simpl. split_and!; auto.
  - intros x Hx. destruct (S1 x) as (E1 & E2 & E3 & E4); [set_solver |].
    destruct (Hs x) as (F1 & F2 & F3 & F4); [set_solver | set_solver | intros ?%Rl; set_solver
      | intros ?%Rr; set_solver |].
    unfold same_node. rewrite F1, F2, F3, F4. auto.
Qed.

Lemma rb_rename k c l p q r m : rb Black m (plug k (T c l p r)) -> exists m', rb Black m' (plug k (T c l q r)).
Proof.
  intros (c0 & b & n & Ht & Hk & Hc)%rb_unplug.
  apply (rb_plug c0 b n); [inversion Ht; subst; eauto with rbtree | assumption | assumption].
Qed.

Lemma ReplaceNode_spec fuel h d k c l node r z M :
  at_ h d k (T c l node r) -> rb Black M (plug k (T c l node r)) ->
  let L := ctx_l k ++ inorder l in let R := inorder r ++ ctx_r k in
  threaded h (L ++ node :: R) -> (z ∉ L ++ node :: R) -> (length k <= fuel)%nat ->
  exists h2 d2, ReplaceNode Aggregate fuel node z h d = Ok (h2, d2) /\
    tree_of h2 d2 (L ++ z :: R) /\ same_own d d2.
Proof.
  intros H Hrb L R Hth Hz Hf.
  assert (Eq : forall p, inorder (plug k (T c l p r)) = L ++ p :: R)
    by (intros p; rewrite inorder_plug; unfold L, R; simpl; rewrite <- !app_assoc; reflexivity).
  assert (Hnd : NoDup (L ++ node :: R)) by (rewrite <- Eq; apply (at_nodup _ _ _ _ _ H)).
  assert (Hnd2 : NoDup (z :: node :: inorder l ++ inorder r ++ ctx_l k ++ ctx_r k)).
  { apply NoDup_cons. split; [unfold L, R in Hz; set_solver |].
    eapply NoDup_Permutation_proper; [| exact Hnd]. unfold L, R. solve_Permutation. }
  assert (HndZ : NoDup (L ++ z :: R)).
  { assert (Hq : L ++ z :: R ≡ₚ z :: L ++ R) by solve_Permutation. rewrite Hq.
    assert (Hq2 : L ++ node :: R ≡ₚ node :: L ++ R) by solve_Permutation. rewrite Hq2 in Hnd.
    apply NoDup_cons in Hnd as [_ Hnd]. apply NoDup_cons. split; [set_solver | assumption]. }
  destruct (proj1 Hth L node R eq_refl) as [Hpred Hsucc].
  rewrite (ReplaceNode_writes fuel h d k c l node r z L R H); [| set_solver | assumption | assumption |].
  2: { intros Hl%last_in. apply NoDup_app in Hnd as (_ & Hd & _). apply (Hd node Hl). left. }
  cbn zeta. set (h' := clear_links node _).
  pose proof (at_nodup_split _ _ _ _ _ _ _ _ H) as (_ & _ & _ & _ & _ & _ & NDk).
  destruct (replaced h k c l node r z h' L R (at_ctx _ _ _ _ _ H) (at_rep _ _ _ _ _ H) Hnd2 NDk eq_refl)
    as (Hctx & Hrep & Hs).
  destruct (refill Aggregate h h' d (AggregateNode h' d z) k _ (T c l z r) fuel H) as (d2 & -> & Hat & O); auto.
  - rewrite Eq. assumption.
  - intros x Hx. destruct (decide (x = node)) as [-> | Hxn]; [apply clear_links_self |].
    rewrite Eq in Hx. destruct (Hs x) as (E1 & E2 & E3 & _); [unfold L, R in Hx; set_solver |].
    unfold clean. rewrite E1, E2, E3. apply (at_clean _ _ _ _ _ H). rewrite Eq. set_solver.
  - pose proof (at_agg _ _ _ _ _ H) as Hag. simpl in Hrep, Hag.
    apply NoDup_cons in Hnd2 as [Nz _]. apply AggregateNode_at; try tauto; set_solver.
  - intros x Hx. apply AggregateNode_other. apply NoDup_cons in Hnd2 as [Nz _]. set_solver.
  - apply AggregateNode_own.
  - cbn [mbind res_bind]. exists h', d2. split; [reflexivity |]. split; [| assumption].
    destruct (rb_rename _ _ _ _ z _ _ Hrb) as [m' Hm'].
    exists (plug k (T c l z r)), m'. split_and!; auto; [rewrite <- (at_plug Aggregate); assumption |].
    apply (threaded_replace h _ L node); auto; intros x; unfold h', clear_links, replace_threads, replace_writes;
      destruct (replace_child_threads (ctx_parent k) node (Some z) h) as (F1 & F2 & _);
      (assert (z <> node) by (intros ->; apply Hz, elem_of_app; right; left));
      (assert (last L <> Some node) by (intros Hl%last_in; apply NoDup_app in Hnd as (_ & Hd & _); apply (Hd node Hl); left));
      (assert (head R <> Some node) by (intros Hl%head_in; apply NoDup_app in Hnd as (_ & _ & Hd); apply NoDup_cons in Hd as [? _]; contradiction));
      (assert (last L <> Some z) by (intros Hl%last_in; apply Hz, elem_of_app; auto));
      (assert (head R <> Some z) by (intros Hl%head_in; apply Hz, elem_of_app; right; right; auto));
      destruct (head R), (last L), (rootp l), (rootp r); simpl; unfold upd; rewrite ?F1, ?F2;
      repeat case_decide; simplify_eq; try congruence; reflexivity.
Qed.

(** The last item of a nonempty tree has no right child. *)
Lemma rightmost_split t : t <> E -> exists k c l p, t = plug k (T c l p E) /\ ctx_r k = [] /\ last (inorder t) = Some p.
Proof.
  intros Ht.
  enough (G : exists k c l p, t = plug k (T c l p E) /\ ctx_r k = []).
  { destruct G as (k & c & l & p & -> & Hk). exists k, c, l, p. split_and!; auto.
    rewrite inorder_plug, Hk, app_nil_r. simpl. rewrite app_assoc. apply last_snoc. }
  enough (G : forall k0, ctx_r k0 = [] -> exists k c l p, plug k0 t = plug k (T c l p E) /\ ctx_r k = [])
    by exact (G [] eq_refl).
  induction t as [| c l IHl p r IHr]; intros k0 Hk0; [congruence |].
  destruct r as [| c' l' p' r']; [exists k0, c, l, p; auto |].
  apply (IHr ltac:(discriminate) (FR c l p :: k0)). assumption.
Qed.

Lemma plug_app k1 k2 t : plug (k1 ++ k2) t = plug k2 (plug k1 t).
Proof. revert t. induction k1 as [| [] k1 IH]; intros t; simpl; auto. Qed.

Lemma focus_on t xs1 n xs2 : NoDup (inorder t) -> inorder t = xs1 ++ n :: xs2 ->
  exists k c l r, t = plug k (T c l n r) /\ ctx_l k ++ inorder l = xs1 /\ inorder r ++ ctx_r k = xs2.
Proof.
  intros Hnd Heq. destruct (in_plug n t) as (k & c & l & r & ->); [rewrite Heq; set_solver |].
  exists k, c, l, r. split; [reflexivity |].
  rewrite inorder_plug in *. simpl in *. rewrite <- app_assoc in *. simpl in *. rewrite app_assoc in *.
  apply split_unique in Heq; assumption.
Qed.

Lemma enough_fuel_less fuel xs ys : enough_fuel fuel xs -> (length ys <= length xs)%nat -> enough_fuel fuel ys.
Proof.
  unfold enough_fuel. intros H Hl.
  assert (Nat.log2 (S (length ys)) <= Nat.log2 (S (length xs)))%nat by (apply Nat.log2_le_mono; lia). lia.
Qed.

Lemma ctx_l_app k1 k2 : ctx_l (k1 ++ k2) = ctx_l k2 ++ ctx_l k1.
Proof. induction k1 as [| [] k1 IH]; simpl; rewrite ?app_nil_r, ?IH, <- ?app_assoc; reflexivity. Qed.

Lemma ctx_r_app k1 k2 : ctx_r (k1 ++ k2) = ctx_r k1 ++ ctx_r k2.
Proof. induction k1 as [| [] k1 IH]; simpl; rewrite ?IH, <- ?app_assoc; reflexivity. Qed.

(** The predecessor of an item with a left subtree: the last item [p] of that subtree,
    which has no right child itself. *)
Lemma predecessor_focus h d k c l node r :
  at_ h d [] (plug k (T c l node r)) -> l <> E ->
  threaded h (inorder (plug k (T c l node r))) ->
  exists k1 c1 l1 p ys, predecessor h node = Some p /\ plug k (T c l node r) = plug k1 (T c1 l1 p E) /\
    ctx_l k ++ inorder l = ys ++ [p] /\ ctx_l k1 ++ inorder l1 = ys /\
    ctx_r k1 = node :: inorder r ++ ctx_r k.
Proof.
  intros H Hl Hth. destruct (rightmost_split l Hl) as (kl & c1 & l1 & p & El & Hkr & Hlast).
  exists (kl ++ FL c node r :: k), c1, l1, p, (ctx_l k ++ ctx_l kl ++ inorder l1). split_and!.
  - rewrite (proj1 (proj1 Hth (ctx_l k ++ inorder l) node (inorder r ++ ctx_r k)
      ltac:(rewrite inorder_plug; simpl; rewrite <- !app_assoc; reflexivity))), last_app, Hlast. reflexivity.
  - rewrite plug_app. simpl. rewrite <- El. reflexivity.
  - rewrite El, inorder_plug, Hkr, app_nil_r. simpl. rewrite <- !app_assoc. reflexivity.
  - rewrite ctx_l_app. simpl. rewrite <- app_assoc. reflexivity.
  - rewrite ctx_r_app, Hkr. reflexivity.
Qed.

(** [RemoveHalfLeaf] and [ReplaceNode] on a tree given by its items. *)
Lemma tree_of_replace fuel h d node z ys zs :
  tree_of h d (ys ++ node :: zs) -> (z ∉ ys ++ node :: zs) -> enough_fuel fuel (ys ++ node :: zs) ->
  exists h2 d2, ReplaceNode Aggregate fuel node z h d = Ok (h2, d2) /\ tree_of h2 d2 (ys ++ z :: zs) /\ same_own d d2.
Proof.
  intros (t & m & H & Hrb & Hin & Hth) Hz Hf.
  destruct (focus_on t ys node zs (at_nodup _ _ _ _ _ H) Hin) as (k & c & l & r & -> & <- & <-).
  pose proof (height_plug k (T c l node r)). pose proof (rb_log _ _ Hrb) as Hlog. rewrite Hin in Hlog.
  unfold enough_fuel in Hf. rewrite <- (at_plug Aggregate) in H.
  apply (ReplaceNode_spec fuel h d k c l node r z m); auto. lia.
Qed.

Lemma tree_of_remove fuel h d node xs1 xs2 :
  tree_of h d (xs1 ++ node :: xs2) -> enough_fuel fuel (xs1 ++ node :: xs2) ->
  exists h2 d2, Remove Aggregate fuel node h d = Ok (h2, d2) /\ tree_of h2 d2 (xs1 ++ xs2) /\ same_own d d2.
Proof.
  intros (t & m & H & Hrb & Hin & Hth) Hf.
  destruct (focus_on t xs1 node xs2 (at_nodup _ _ _ _ _ H) Hin) as (k & c & l & r & -> & <- & <-).
  pose proof H as H'. rewrite <- (at_plug Aggregate) in H'.
  destruct (at_fields _ _ _ _ _ _ _ _ H') as (_ & Ln & Rn & _).
  unfold Remove, GetLeft, GetRight, Predecessor. rewrite Ln, Rn.
  destruct l as [| cl ll pl rl]; [eapply RemoveHalfLeaf_spec; eauto; left; auto |].
  destruct r as [| cr lr pr rr];
    [apply (RemoveHalfLeaf_spec fuel h d k c (T cl ll pl rl) node E (T cl ll pl rl) m); auto; right; auto |].
  simpl rootp. cbn iota. set (l := T cl ll pl rl) in *. set (r := T cr lr pr rr) in *. clear H' Ln Rn.
  assert (Hl : l <> E) by discriminate. clearbody l r.
  destruct (predecessor_focus h d k c l node r H Hl ltac:(rewrite Hin; exact Hth))
    as (k1 & c1 & l1 & p & ys & -> & Epl & Ey & El1 & Er1).
  cbn [deref mbind res_bind]. rewrite Epl in H, Hrb. rewrite <- (at_plug Aggregate) in H.
  destruct (at_fields _ _ _ _ _ _ _ _ H) as (_ & -> & _ & _).
  rewrite Ey, <- app_assoc in Hth, Hf. simpl app in Hth, Hf. rewrite <- El1, <- Er1 in Hth.
  destruct (RemoveHalfLeaf_spec fuel h d k1 c1 l1 p E l1 m H (or_intror (conj eq_refl eq_refl)) Hrb Hth)
    as (h1 & d1 & -> & Ht1 & O1); [rewrite El1; simpl; rewrite Er1; assumption |].
  cbn [mbind res_bind]. simpl inorder in Ht1. rewrite app_nil_l, El1, Er1 in Ht1.
  destruct (tree_of_replace fuel h1 d1 node p ys (inorder r ++ ctx_r k) Ht1) as (h2 & d2 & -> & Ht2 & O2).
  - pose proof (at_nodup _ _ _ _ _ H) as Hnd. rewrite <- Epl, Hin, Ey, <- app_assoc in Hnd. simpl in Hnd.
    apply NoDup_app in Hnd as (_ & Hd & Hnd). apply NoDup_cons in Hnd as [Hp _].
    intros [Hx | Hx]%elem_of_app; [apply (Hd p Hx); left | contradiction].
  - eapply enough_fuel_less; [exact Hf |]. rewrite !length_app. simpl. lia.
  - exists h2, d2. rewrite Ey, <- app_assoc. eauto using same_own_trans.
Qed.
End Remove.
