(* ===== verification/RBTreeSpec.v ===== *)
(** What [RBTree.v] promises its clients: ordered insertion, removal, insertion in front
    of an item, the first item, the header's own invariant check, a logarithmic number of
    steps, and the refinement of a sorted sequence by any run of operations. *)

From Stdlib Require Import Sorting.Sorted.
From S2P Require Import Prelude RBTree RBTreeProofs RBTreeFix RBTreeOps RBTreeRemove.

Section Spec.
Context {D V J : Type} (Aggregate : hooks -> D -> ptr -> D * bool) `{!Aggregator (V := V) (J := J) Aggregate}.
Local Abbreviation at_ := (at_ Aggregate).
Local Abbreviation tree_of := (tree_of Aggregate).

(** ** Insertion in front of an item *)

(** The right spine of a focused tree. *)
Lemma rightmost_spec h d : forall fuel k c l p r,
  at_ h d k (T c l p r) -> (height (T c l p r) <= fuel)%nat ->
  exists k' c' l' q, rightmost fuel h p = Ok q /\ plug k (T c l p r) = plug k' (T c' l' q E) /\ ctx_r k' = ctx_r k.
Proof.
  induction fuel as [| fuel IH]; intros k c l p r H Hf; simpl in Hf; [lia |].
  destruct (at_fields _ _ _ _ _ _ _ _ H) as (_ & _ & Rp & _). simpl. unfold GetRight. rewrite Rp.
  destruct r as [| c1 l1 p1 r1]; simpl rootp; cbn iota.
  - exists k, c, l, p. auto.
  - destruct (IH (FR c l p :: k) c1 l1 p1 r1) as (k' & c' & l' & q & E1 & E2 & E3).
    + rewrite at_FR. assumption.
    + simpl in *. lia.
    + exists k', c', l', q. auto.
Qed.

Lemma insert_at_right fuel h d k c l q node m :
  at_ h d [] (plug k (T c l q E)) -> rb Black m (plug k (T c l q E)) ->
  threaded h (inorder (plug k (T c l q E))) -> (node ∉ inorder (plug k (T c l q E))) ->
  enough_fuel fuel (inorder (plug k (T c l q E))) ->
  exists h2 d2, InsertRight Aggregate fuel q node h d = Ok (h2, d2) /\
    tree_of h2 d2 ((ctx_l k ++ inorder l ++ [q]) ++ node :: ctx_r k) /\ same_own d d2.
Proof.
  intros H Hrb Hth Hn Hf. pose proof (rb_log _ _ Hrb) as Hlog. unfold enough_fuel in Hf.
  assert (Eq : inorder (plug k (T c l q E)) = (ctx_l k ++ inorder l ++ [q]) ++ ctx_r k)
    by (rewrite inorder_plug; simpl; rewrite <- !app_assoc; reflexivity).
  rewrite Eq in *. destruct (rbk_hole (FR c l q :: k) m Hrb) as [b Hb].
  apply (InsertRight_spec Aggregate fuel h d c l q k b node); auto.
  - rewrite (at_plug Aggregate). assumption.
  - pose proof (height_plug (FR c l q :: k) E). simpl in *. lia.
Qed.

Lemma tree_of_insert_before fuel h d before node xs1 xs2 :
  tree_of h d (xs1 ++ xs2) -> (node ∉ xs1 ++ xs2) -> before = head xs2 ->
  enough_fuel fuel (xs1 ++ xs2) ->
  exists h2 d2, InsertBefore Aggregate fuel before node h d = Ok (h2, d2) /\
    tree_of h2 d2 (xs1 ++ node :: xs2) /\ same_own d d2.
Proof.
  intros Ht Hn -> Hf. pose proof Ht as (t & m & H & Hrb & Hin & Hth).
  pose proof (rb_log _ _ Hrb) as Hlog. rewrite Hin in Hlog. pose proof Hf as Hf'. unfold enough_fuel in Hf'.
  pose proof (at_ctx _ _ _ _ _ H) as Hroot. simpl in Hroot.
  destruct xs2 as [| b xs2]; unfold InsertBefore; [change (head []) with (@None ptr) | change (head (b :: xs2)) with (Some b)]; cbn iota.
  - rewrite app_nil_r in *. unfold GetRoot. rewrite Hroot. destruct t as [| c l p r]; simpl rootp; cbn iota.
    + simpl in Hin. subst xs1. apply InsertRoot_spec; [assumption | lia].
    + destruct (rightmost_spec h d fuel [] c l p r H) as (k' & c' & l' & q & -> & Epl & Er); [lia |].
      simpl in Epl. cbn [mbind res_bind]. simpl in Er. rewrite Epl in *. rewrite <- Hin in *.
      destruct (insert_at_right fuel h d k' c' l' q node m) as (h2 & d2 & -> & Ht2 & O); auto.
      exists h2, d2. split; [reflexivity |]. split; [| assumption].
      rewrite Er in Ht2. rewrite inorder_plug, Er, app_nil_r. simpl. assumption.
  - destruct (focus_on t xs1 b xs2 (at_nodup _ _ _ _ _ H) Hin) as (k & c & l & r & -> & E1 & E2).
    pose proof H as H'. rewrite <- (at_plug Aggregate) in H'.
    destruct (at_fields _ _ _ _ _ _ _ _ H') as (_ & Ll & _ & _). unfold GetLeft. rewrite Ll.
    pose proof (height_plug k (T c l b r)) as Hh. simpl in Hh.
    destruct l as [| cl ll pl rl]; simpl rootp; cbn iota.
    + destruct (rbk_hole (FL c b r :: k) m Hrb) as [bb Hb].
      simpl in E1. rewrite app_nil_r in E1. subst xs1 xs2.
      apply (InsertLeft_spec Aggregate fuel h d c b r k bb node); auto; [rewrite at_FL; assumption | simpl; lia].
    + destruct (rightmost_spec h d fuel (FL c b r :: k) cl ll pl rl) as (k' & c' & l' & q & -> & Epl & Er);
        [rewrite at_FL; assumption | simpl in *; lia |].
      cbn [mbind res_bind]. change (plug k (T c (T cl ll pl rl) b r)) with (plug (FL c b r :: k) (T cl ll pl rl)) in *.
      rewrite Epl in *. rewrite <- Hin in Hth, Hn, Hf.
      destruct (insert_at_right fuel h d k' c' l' q node m) as (h2 & d2 & -> & Ht2 & O); auto.
      exists h2, d2. split; [reflexivity |]. split; [| assumption].
      rewrite inorder_plug, Er in Hin. simpl in Hin. rewrite Er in Ht2. simpl in Ht2. rewrite E2 in Ht2, Hin.
      assert (Hx : ctx_l k' ++ inorder l' ++ [q] = xs1).
      { apply (app_inv_tail (b :: xs2)). rewrite <- Hin, <- !app_assoc. reflexivity. }
      rewrite <- Hx. assumption.
Qed.

(** ** The first item *)

Lemma First_loop_spec h d : forall fuel k c l p r,
  at_ h d k (T c l p r) -> (height (T c l p r) <= fuel)%nat ->
  exists q, First_loop fuel h p = Ok q /\ head (inorder (T c l p r)) = Some q.
Proof.
  induction fuel as [| fuel IH]; intros k c l p r H Hf; simpl in Hf; [lia |].
  destruct (at_fields _ _ _ _ _ _ _ _ H) as (_ & Lp & _ & _). simpl. unfold GetLeft. rewrite Lp.
  destruct l as [| c1 l1 p1 r1]; simpl rootp; cbn iota; [exists p; auto |].
  destruct (IH (FL c p r :: k) c1 l1 p1 r1) as (q & E1 & E2).
  - rewrite at_FL. assumption.
  - simpl in *. lia.
  - exists q. split; [assumption |]. simpl in *. destruct (inorder l1); assumption.
Qed.

Lemma tree_of_first fuel h d xs :
  tree_of h d xs -> enough_fuel fuel xs -> First fuel h = Ok (head xs).
Proof.
  intros (t & m & H & Hrb & <- & Hth) Hf. pose proof (rb_log _ _ Hrb). unfold enough_fuel in Hf.
  pose proof (at_ctx _ _ _ _ _ H) as Hroot. simpl in Hroot. unfold First, GetRoot. rewrite Hroot.
  destruct t as [| c l p r]; [reflexivity |]. simpl rootp. cbn iota.
  destruct (First_loop_spec h d fuel [] c l p r H) as (q & -> & ->); [lia | reflexivity].
Qed.

(** ** The invariant check *)

Variable AggregateCheck : hooks -> D -> ptr -> bool.

Lemma CheckInvariant_node_spec h d : forall fuel k t c n p,
  at_ h d k t -> threaded h (inorder (plug k t)) -> rb c n t -> rootp t = Some p ->
  (forall x, x ∈ inorder t -> AggregateCheck h d x = true) -> (height t <= fuel)%nat ->
  exists lo hi, CheckInvariant_node AggregateCheck fuel h d p = Ok (Some (Z.of_nat n, lo, hi)) /\
    head (inorder t) = Some lo /\ last (inorder t) = Some hi.
Proof.
  induction fuel as [| fuel IH]; intros k t c n p H Hth Hrb Hp Hag Hf.
  { destruct t; simpl in *; [discriminate | lia]. }
  destruct t as [| c0 l p0 r]; [discriminate |]. injection Hp as ->.
  destruct (at_fields _ _ _ _ _ _ _ _ H) as (_ & Lp & Rp & Cp).
  destruct (IsBlack_rep _ _ _ _ _ _ _ _ H) as [Bl Br].
  assert (Eq : inorder (plug k (T c0 l p r)) = (ctx_l k ++ inorder l) ++ p :: (inorder r ++ ctx_r k))
    by (rewrite inorder_plug; simpl; rewrite <- !app_assoc; reflexivity).
  rewrite Eq in Hth. destruct (proj1 Hth _ _ _ eq_refl) as [Pp Sp]. simpl in Hf.
  assert (Hch : exists cl cr m, rb cl m l /\ rb cr m r /\ (c0 = Red -> cl = Black /\ cr = Black) /\
                 n = (if decide (c0 = Black) then S m else m)).
  { inversion Hrb; subst; do 3 eexists; split_and!; eauto; discriminate. }
  destruct Hch as (cl & cr & m & Rl & Rr & Hred & ->).
  cbn [CheckInvariant_node]. unfold GetLeft, GetRight, Predecessor, Successor. rewrite Cp, Lp, Rp, Bl, Br.
  rewrite (rb_tcolor _ _ _ Rl), (rb_tcolor _ _ _ Rr).
  match goal with |- context [if ?g then Ok None else _] => assert (Hg : g = false) end.
  { destruct (decide (c0 = Red)) as [-> | Hc]; [destruct (Hred eq_refl) as [-> ->]; reflexivity |].
    rewrite bool_decide_eq_false_2 by assumption. reflexivity. }
  rewrite Hg.
  assert (HL : exists lo, (match rootp l with
      | Some l0 => o ← CheckInvariant_node AggregateCheck fuel h d l0;
          Ok (match o with None => None | Some (leftBlackDepth, minimal, pred) =>
                if negb (bool_decide (successor h pred = Some p)) then None
                else if negb (bool_decide (predecessor h p = Some pred)) then None
                else Some (leftBlackDepth, minimal) end)
      | None => Ok (Some (0, p)) end) = Ok (Some (Z.of_nat m, lo)) /\ head (inorder (T c0 l p r)) = Some lo).
  { destruct l as [| c1 l1 q r1] eqn:El; simpl rootp; cbn iota.
    - inversion Rl; subst. exists p. auto.
    - destruct (IH (FL c0 p r :: k) l cl m q) as (lo & hi & E1 & E2 & E3); subst l; auto.
      + rewrite at_FL. assumption.
      + simpl plug. rewrite Eq. assumption.
      + intros x Hx. apply Hag. simpl in *. set_solver +Hx.
      + simpl in *. lia.
      + rewrite E1. cbn [mbind res_bind]. exists lo. destruct (last_Some_split _ _ E3) as (w & Ew).
        rewrite Pp, last_app, E3. rewrite (bool_decide_eq_true_2 (Some hi = _)) by reflexivity.
        rewrite bool_decide_eq_true_2.
        * split; [reflexivity |]. simpl in *. destruct (inorder l1 ++ q :: inorder r1) eqn:Ez; [discriminate |]. assumption.
        * rewrite (proj2 (proj1 Hth (ctx_l k ++ w) hi (p :: inorder r ++ ctx_r k)
            ltac:(rewrite Ew, <- !app_assoc; reflexivity))). reflexivity. }
  assert (HR : exists hi, (match rootp r with
      | Some r0 => o ← CheckInvariant_node AggregateCheck fuel h d r0;
          Ok (match o with None => None | Some (rightBlackDepth, succ, maximal) =>
                if negb (bool_decide (successor h p = Some succ)) then None
                else if negb (bool_decide (predecessor h succ = Some p)) then None
                else Some (rightBlackDepth, maximal) end)
      | None => Ok (Some (0, p)) end) = Ok (Some (Z.of_nat m, hi)) /\ last (inorder (T c0 l p r)) = Some hi).
  { destruct r as [| c1 l1 q r1] eqn:El; simpl rootp; cbn iota.
    - inversion Rr; subst. exists p. simpl. rewrite last_snoc. auto.
    - destruct (IH (FR c0 l p :: k) r cr m q) as (lo & hi & E1 & E2 & E3); subst r; auto.
      + rewrite at_FR. assumption.
      + simpl plug. rewrite Eq. assumption.
      + intros x Hx. apply Hag. simpl in *. set_solver +Hx.
      + simpl in *. lia.
      + rewrite E1. cbn [mbind res_bind]. exists hi. destruct (head_Some_split _ _ E2) as (w & Ew).
        rewrite Sp, Ew. simpl app. simpl head. rewrite (bool_decide_eq_true_2 (Some lo = _)) by reflexivity.
        rewrite bool_decide_eq_true_2.
        * split; [reflexivity |]. change (inorder (T c0 l p (T c1 l1 q r1))) with (inorder l ++ p :: inorder (T c1 l1 q r1)). rewrite last_app_cons, last_cons, E3. reflexivity.
        * rewrite (proj1 (proj1 Hth ((ctx_l k ++ inorder l) ++ [p]) lo (w ++ ctx_r k)
            ltac:(rewrite Ew, <- !app_assoc; reflexivity))), last_snoc. reflexivity. }
  destruct HL as (lo & -> & Hlo), HR as (hi & -> & Hhi). cbn [mbind res_bind].
  rewrite Z.eqb_refl, Hag by (simpl; set_solver +). simpl negb. cbn iota.
  exists lo, hi. split_and!; auto. repeat f_equal. case_decide; lia.
Qed.

Lemma tree_of_check fuel h d xs :
  tree_of h d xs -> (forall x, x ∈ xs -> AggregateCheck h d x = true) -> enough_fuel fuel xs ->
  CheckInvariant AggregateCheck fuel h d = Ok true.
Proof.
  intros (t & m & H & Hrb & <- & Hth) Hag Hf. pose proof (rb_log _ _ Hrb). unfold enough_fuel in Hf.
  pose proof (at_ctx _ _ _ _ _ H) as Hroot. simpl in Hroot. unfold CheckInvariant, GetRoot. rewrite Hroot.
  destruct t as [| c l p r]; [reflexivity |]. simpl rootp. cbn iota.
  destruct (CheckInvariant_node_spec h d fuel [] (T c l p r) Black m p H Hth Hrb eq_refl Hag)
    as (lo & hi & -> & _); [lia | reflexivity].
Qed.
End Spec.

(** ** A sorted sequence and its refinement *)

Inductive tree_op : Type := OpInsert (p : ptr) | OpRemove (p : ptr).

Section Run.
Context {D V J : Type} (Aggregate : hooks -> D -> ptr -> D * bool) `{!Aggregator (V := V) (J := J) Aggregate}.
Variable key : ptr -> Z.

(** The abstract container: a list sorted by key, later items behind equal ones. *)
Fixpoint insert_by (p : ptr) (xs : list ptr) : list ptr :=
  match xs with
  | [] => [p]
  | x :: xs' => if key p <? key x then p :: x :: xs' else x :: insert_by p xs'
  end.

Definition abs_step (op : tree_op) (xs : list ptr) : option (list ptr) :=
  match op with
  | OpInsert p => if decide (p ∈ xs) then None else Some (insert_by p xs)
  | OpRemove p => if decide (p ∈ xs) then Some (filter (fun x => x <> p) xs) else None
  end.

Fixpoint abs_run (ops : list tree_op) (xs : list ptr) : option (list ptr) :=
  match ops with [] => Some xs | op :: ops => xs ← abs_step op xs; abs_run ops xs end.

Definition tree_step (fuel : nat) (op : tree_op) (h : hooks) (d : D) : res (hooks * D) :=
  match op with
  | OpInsert p => Insert Aggregate (fun _ a b => key a <? key b) fuel p h d
  | OpRemove p => Remove Aggregate fuel p h d
  end.

Fixpoint tree_run (fuel : nat) (ops : list tree_op) (h : hooks) (d : D) : res (hooks * D) :=
  match ops with
  | [] => Ok (h, d)
  | op :: ops => '(h, d) ← tree_step fuel op h d; tree_run fuel ops h d
  end.

Definition sorted (xs : list ptr) : Prop := StronglySorted (fun a b => key a <= key b) xs.

Lemma insert_by_split p xs : sorted xs -> exists l r, xs = l ++ r /\ insert_by p xs = l ++ p :: r /\
  (forall x, x ∈ l -> (key p <? key x) = false) /\ (forall x, x ∈ r -> (key p <? key x) = true).
Proof.
  induction 1 as [| x xs Hs IH Hx]; simpl; [exists [], []; set_solver |].
  destruct (Z.ltb_spec (key p) (key x)) as [Hlt | Hge].
  - exists [], (x :: xs). split_and!; auto; [set_solver |].
    intros y Hy. apply Z.ltb_lt. rewrite Forall_forall in Hx.
    apply elem_of_cons in Hy as [-> | Hy]; [assumption |]. specialize (Hx y Hy). simpl in Hx. lia.
  - destruct IH as (l & r & -> & -> & H1 & H2). exists (x :: l), r. split_and!; auto.
    intros y [-> | Hy]%elem_of_cons; [apply Z.ltb_ge; lia | auto].
Qed.

Lemma insert_by_sorted p xs : sorted xs -> sorted (insert_by p xs).
Proof.
  induction 1 as [| x xs Hs IH Hx]; simpl; [repeat constructor |].
  destruct (Z.ltb_spec (key p) (key x)) as [Hlt | Hge].
  - constructor; [constructor; assumption |]. constructor; [lia |].
    eapply Forall_impl; [exact Hx |]. simpl. lia.
  - constructor; [exact IH |]. rewrite Forall_forall in *. intros y Hy.
    assert (Hy' : y = p \/ y ∈ xs).
    { clear -Hy. induction xs as [| z xs IH]; simpl in Hy; [set_solver |].
      destruct (key p <? key z); set_solver. }
    destruct Hy' as [-> | Hy']; [assumption | apply Hx, Hy'].
Qed.

Lemma filter_sorted p xs : sorted xs -> sorted (filter (fun x => x <> p) xs).
Proof.
  induction 1 as [| x xs Hs IH Hx]; [constructor |].
  rewrite filter_cons. case_decide; [| assumption]. constructor; [assumption |].
  rewrite Forall_forall in *. intros y [_ Hy]%list_elem_of_filter. apply Hx, Hy.
Qed.

Lemma filter_out_split (p : ptr) l r : NoDup (l ++ p :: r) -> filter (fun x => x <> p) (l ++ p :: r) = l ++ r.
Proof.
  intros Hnd. apply NoDup_app in Hnd as (_ & Hd & Hnd). apply NoDup_cons in Hnd as [Hp _].
  assert (Hid : forall xs : list ptr, (p ∉ xs) -> filter (fun x => x <> p) xs = xs).
  { induction xs as [| x xs IH]; intros Hx; [reflexivity |].
    rewrite filter_cons, decide_True, IH by set_solver. reflexivity. }
  rewrite filter_app, filter_cons, decide_False by tauto.
  rewrite !Hid; [reflexivity | assumption |]. intros Hl. apply (Hd p Hl). left.
Qed.

Lemma tree_step_refines fuel op h d xs xs' :
  tree_of Aggregate h d xs -> sorted xs -> abs_step op xs = Some xs' -> enough_fuel fuel xs ->
  exists h2 d2, tree_step fuel op h d = Ok (h2, d2) /\ tree_of Aggregate h2 d2 xs' /\ sorted xs' /\
    (length xs' <= S (length xs))%nat.
Proof.
  intros Ht Hs Ha Hf. destruct op as [p | p]; simpl in Ha; case_decide as Hp; simplify_eq; simpl tree_step.
  - destruct (insert_by_split p xs Hs) as (l & r & -> & El & H1 & H2).
    destruct (tree_of_insert Aggregate (fun _ a b => key a <? key b) fuel h d p l r Ht Hp H1 H2 Hf)
      as (h2 & d2 & -> & Ht2 & _).
    exists h2, d2. split; [reflexivity |]. split; [rewrite El; assumption |].
    split; [apply insert_by_sorted, Hs |]. rewrite El, !length_app. simpl. lia.
  - apply list_elem_of_split in Hp as (l & r & ->).
    assert (Hnd : NoDup (l ++ p :: r)).
    { destruct Ht as (t & m & H & _ & <- & _). apply (at_nodup _ _ _ _ _ H). }
    destruct (tree_of_remove Aggregate fuel h d p l r Ht Hf) as (h2 & d2 & -> & Ht2 & _).
    exists h2, d2. split; [reflexivity |].
    pose proof (filter_sorted p _ Hs) as Hs'. rewrite (filter_out_split p l r Hnd) in *.
    split_and!; auto. rewrite !length_app. simpl. lia.
Qed.

Lemma tree_run_from fuel ops : forall h d xs xs',
  tree_of Aggregate h d xs -> sorted xs -> abs_run ops xs = Some xs' ->
  (2 * Nat.log2 (S (length xs + length ops)) < fuel)%nat ->
  exists h2 d2, tree_run fuel ops h d = Ok (h2, d2) /\ tree_of Aggregate h2 d2 xs' /\ sorted xs'.
Proof.
  induction ops as [| op ops IH]; intros h d xs xs' Ht Hs Ha Hf; simpl in *.
  - simplify_eq. exists h, d. auto.
  - destruct (abs_step op xs) as [ys |] eqn:Es; simpl in Ha; [| discriminate].
    destruct (tree_step_refines fuel op h d xs ys Ht Hs Es) as (h2 & d2 & -> & Ht2 & Hs2 & Hl).
    { unfold enough_fuel. assert (Nat.log2 (S (length xs)) <= Nat.log2 (S (length xs + S (length ops))))%nat
        by (apply Nat.log2_le_mono; lia). lia. }
    cbn [mbind res_bind]. apply (IH h2 d2 ys); auto.
    assert (Nat.log2 (S (length ys + length ops)) <= Nat.log2 (S (length xs + S (length ops))))%nat
      by (apply Nat.log2_le_mono; lia). lia.
Qed.

Lemma tree_of_empty d : tree_of Aggregate no_hooks d [].
Proof.
  exists E, 0%nat. split_and!; [| constructor | reflexivity |].
  - constructor; simpl; auto; [constructor | intros; repeat split].
  - split; [intros l x r Heq; destruct l; discriminate | auto].
Qed.
End Run.

(** ** A small tree the statements below are evaluated on *)

Definition demo : hooks :=
  mkHooks (fun x => match x with 1%positive | 3%positive => Some 2%positive | _ => None end)
    (fun x => match x with 2%positive => Some 1%positive | _ => None end)
    (fun x => match x with 2%positive => Some 3%positive | _ => None end)
    (fun x => match x with 2%positive => Some 1%positive | 3%positive => Some 2%positive | _ => None end)
    (fun x => match x with 1%positive => Some 2%positive | 2%positive => Some 3%positive | _ => None end)
    (fun x => match x with 1%positive | 3%positive => Red | _ => Black end)
    (Some 2%positive).

Definition by_address (_ : unit) (a b : ptr) : bool := bool_decide (a < b)%positive.

Lemma demo_out x : (x ∉ [1; 2; 3]%positive) ->
  clean demo x /\ predecessor demo x = None /\ successor demo x = None.
Proof.
  intros Hx. unfold clean, demo; simpl.
  destruct x as [[] | [] |]; repeat split; exfalso; apply Hx; set_solver +.
Qed.

Lemma demo_tree : tree_of (V := unit) NullAggregate demo tt [1; 2; 3]%positive.
Proof.
  exists (T Black (T Red E 1 E) 2 (T Red E 3 E))%positive, 1%nat.
  split_and!; [| repeat econstructor | reflexivity | split].
  - constructor; simpl; auto 20.
    + apply (bool_decide_unpack (NoDup [1; 2; 3]%positive)). reflexivity.
    + apply demo_out.
  - intros l x r Heq. destruct l as [| ? [| ? [| ? []]]]; simplify_eq/=; auto.
  - apply demo_out.
Qed.

Section Claims.
Context {D V J : Type} (Aggregate : hooks -> D -> ptr -> D * bool) `{!Aggregator (V := V) (J := J) Aggregate}.
Variable less : D -> ptr -> ptr -> bool.

(** C4: [Insert] of an item that is not in the tree ends within a number of steps
    logarithmic in the number of items, and yields a balanced, threaded tree, with all
    aggregates up to date, whose sequence is the old one with the item behind every item it
    is not less than and in front of the others. *)
Theorem rbtree_insert fuel h d node xs1 xs2 :
  tree_of Aggregate h d (xs1 ++ xs2) -> (node ∉ xs1 ++ xs2) ->
  (forall x, x ∈ xs1 -> less d node x = false) -> (forall x, x ∈ xs2 -> less d node x = true) ->
  (2 * Nat.log2 (S (length (xs1 ++ xs2))) < fuel)%nat ->
  exists h2 d2, Insert Aggregate less fuel node h d = Ok (h2, d2) /\
    tree_of Aggregate h2 d2 (xs1 ++ node :: xs2) /\ same_own d d2.
Proof. apply tree_of_insert. Qed.

(** C5: [Remove] of an item of the tree ends within a number of steps logarithmic in the
    number of items, leaves the item unlinked, and yields a balanced, threaded tree, with
    all aggregates up to date, whose sequence is the old one without the item. *)
Theorem rbtree_remove fuel h d node xs1 xs2 :
  tree_of Aggregate h d (xs1 ++ node :: xs2) ->
  (2 * Nat.log2 (S (length (xs1 ++ node :: xs2))) < fuel)%nat ->
  exists h2 d2, Remove Aggregate fuel node h d = Ok (h2, d2) /\
    tree_of Aggregate h2 d2 (xs1 ++ xs2) /\ same_own d d2 /\
    clean h2 node /\ predecessor h2 node = None /\ successor h2 node = None.
Proof.
  intros Ht Hf. destruct (tree_of_remove Aggregate fuel h d node xs1 xs2 Ht Hf) as (h2 & d2 & E1 & Ht2 & O).
  exists h2, d2. do 3 (split; [assumption |]).
  assert (Hn : node ∉ xs1 ++ xs2).
  { destruct Ht as (t & m & H & _ & Hin & _). pose proof (at_nodup _ _ _ _ _ H) as Hnd. simpl in Hnd.
    rewrite Hin in Hnd. apply NoDup_app in Hnd as (_ & Hd & Hnd). apply NoDup_cons in Hnd as [Hp _].
    intros [Hx | Hx]%elem_of_app; [apply (Hd node Hx); left | contradiction]. }
  destruct Ht2 as (t & m & H & _ & Hin & [_ Hth]). split; [| apply Hth, Hn].
  apply (at_clean _ _ _ _ _ H). simpl. rewrite Hin. assumption.
Qed.

(** C7: [TreeOrderStruct::Insert] puts an item directly in front of the given one, or at
    the end when none is given, with the same guarantees as the ordered insertion. *)
Theorem rbtree_insert_before fuel h d node xs1 xs2 :
  tree_of Aggregate h d (xs1 ++ xs2) -> (node ∉ xs1 ++ xs2) ->
  (2 * Nat.log2 (S (length (xs1 ++ xs2))) < fuel)%nat ->
  exists h2 d2, InsertBefore Aggregate fuel (head xs2) node h d = Ok (h2, d2) /\
    tree_of Aggregate h2 d2 (xs1 ++ node :: xs2) /\ same_own d d2.
Proof. intros. eapply tree_of_insert_before; eauto. Qed.

(** C8: every tree the operations maintain passes the header's own [CheckInvariant]
    whenever the aggregator's check accepts its items, and [First] is its first item. *)
Theorem rbtree_check_invariant AggregateCheck fuel h d xs :
  tree_of Aggregate h d xs -> (forall x, x ∈ xs -> AggregateCheck h d x = true) ->
  (2 * Nat.log2 (S (length xs)) < fuel)%nat ->
  CheckInvariant AggregateCheck fuel h d = Ok true /\ First fuel h = Ok (head xs).
Proof.
  intros Ht Hag Hf. split; [eapply tree_of_check; eauto | eapply tree_of_first; eauto].
Qed.

(** C6: any run of insertions and removals that the sorted sequence accepts, from the empty
    tree, returns, and the tree it leaves holds exactly the items of that sequence in that
    order, sorted by key. *)
Theorem rbtree_run_refines key fuel ops d xs :
  abs_run key ops [] = Some xs -> (2 * Nat.log2 (S (length ops)) < fuel)%nat ->
  exists h2 d2, tree_run Aggregate key fuel ops no_hooks d = Ok (h2, d2) /\
    tree_of Aggregate h2 d2 xs /\ sorted key xs.
Proof.
  intros Ha Hf. eapply (tree_run_from Aggregate key fuel ops no_hooks d []); eauto;
    [apply tree_of_empty | constructor].
Qed.
End Claims.

Lemma rbtree_insert_witness :
  exists h2 d2, Insert NullAggregate by_address 10 4%positive demo tt = Ok (h2, d2) /\
    tree_of (V := unit) NullAggregate h2 d2 [1; 2; 3; 4]%positive /\ same_own (Aggregate := NullAggregate) tt d2.
Proof.
  apply (rbtree_insert NullAggregate by_address 10 demo tt 4%positive [1; 2; 3]%positive []).
  - exact demo_tree.
  - set_solver +.
  - intros x Hx. unfold by_address. repeat (apply elem_of_cons in Hx as [-> | Hx]; [reflexivity |]). inversion Hx.
  - intros x Hx. inversion Hx.
  - vm_compute. lia.
Defined.

Lemma rbtree_remove_witness :
  exists h2 d2, Remove NullAggregate 10 2%positive demo tt = Ok (h2, d2) /\
    tree_of (V := unit) NullAggregate h2 d2 [1; 3]%positive /\ same_own (Aggregate := NullAggregate) tt d2 /\
    clean h2 2%positive /\ predecessor h2 2%positive = None /\ successor h2 2%positive = None.
Proof.
  apply (rbtree_remove NullAggregate 10 demo tt 2%positive [1]%positive [3]%positive);
    [exact demo_tree | vm_compute; lia].
Defined.

Lemma rbtree_insert_before_witness :
  exists h2 d2, InsertBefore NullAggregate 10 (Some 2%positive) 9%positive demo tt = Ok (h2, d2) /\
    tree_of (V := unit) NullAggregate h2 d2 [1; 9; 2; 3]%positive /\ same_own (Aggregate := NullAggregate) tt d2.
Proof.
  apply (rbtree_insert_before NullAggregate 10 demo tt 9%positive [1]%positive [2; 3]%positive);
    [exact demo_tree | set_solver + | vm_compute; lia].
Defined.

Lemma rbtree_check_invariant_witness :
  CheckInvariant NullAggregateCheck 10 demo tt = Ok true /\ First 10 demo = Ok (Some 1%positive).
Proof.
  apply (rbtree_check_invariant NullAggregate NullAggregateCheck 10 demo tt [1; 2; 3]%positive);
    [exact demo_tree | reflexivity | vm_compute; lia].
Defined.

Lemma rbtree_run_refines_witness :
  exists h2 d2, tree_run NullAggregate Zpos 20
      [OpInsert 5; OpInsert 2; OpInsert 8; OpInsert 1; OpInsert 9; OpRemove 5; OpInsert 4; OpRemove 1]%positive
      no_hooks tt = Ok (h2, d2) /\
    tree_of (V := unit) NullAggregate h2 d2 [2; 4; 8; 9]%positive /\ sorted Zpos [2; 4; 8; 9]%positive.
Proof. apply (rbtree_run_refines NullAggregate Zpos); [reflexivity | vm_compute; lia]. Defined.
