(* ===== verification/Flags.v ===== *)
(** [libs/np-syslib/include/Flags.h]: a set of enumerators in an [unsigned long]; and the
    flag types of the virtual memory manager ([libs/np-driverlib/include/VmObject.h],
    [kernel/include/memory/Vmm.h]). *)

From S2P Require Import Prelude.

Module Flags.
(** A [Flags] value is its backing integer; an enumerator is its number. *)
Definition flag_mask (index : Z) : Z := u64 (Z.shiftl 1 index).

Definition of_flag (initial : Z) : Z := flag_mask initial.
Definition Has (value index : Z) : bool := negb (Z.land value (flag_mask index) =? 0).

(** [Set] and [Clear] return whether the flag changed, or was set before, with the new value. *)
Definition Set_ (value index : Z) : bool * Z :=
  let mask := flag_mask index in
  let prev := negb (Z.land value mask =? 0) in
  (negb prev, Z.lor value mask).
Definition Clear (value index : Z) : bool * Z :=
  let mask := flag_mask index in
  let prev := negb (Z.land value mask =? 0) in
  (prev, Z.land value (not64 mask)).

Definition Reset (_ : Z) : Z := 0.
Definition Any (value : Z) : bool := negb (value =? 0).
Definition op_not (value : Z) : Z := if value =? 0 then 1 else 0.
Definition op_or (a b : Z) : Z := Z.lor a b.
Definition op_or_flag (a index : Z) : Z := Z.lor a (flag_mask index).
Definition op_and (a b : Z) : Z := Z.land a b.
Definition op_and_flag (a index : Z) : Z := Z.land a (flag_mask index).
Definition op_eq (a b : Z) : bool := a =? b.
Definition Raw (value : Z) : Z := value.
Definition flag_or (a b : Z) : Z := op_or_flag (of_flag a) b.
End Flags.

(** ** Lemmas *)

Definition flags_ok (value : Z) : Prop := 0 <= value < two64.

Lemma flag_mask_pow i : 0 <= i < 64 -> Flags.flag_mask i = 2 ^ i.
Proof.
  intros Hi. unfold Flags.flag_mask. rewrite Z.shiftl_1_l. apply u64_small.
  split; [lia |]. apply (Z.pow_lt_mono_r 2 i 64); lia.
Qed.

Lemma Has_testbit v i : 0 <= i < 64 -> Flags.Has v i = Z.testbit v i.
Proof.
  intros Hi. unfold Flags.Has. rewrite flag_mask_pow by assumption.
  destruct (Z.testbit v i) eqn:E; destruct (Z.eqb_spec (Z.land v (2 ^ i)) 0) as [Hz | Hz]; try reflexivity.
  - apply (f_equal (fun z => Z.testbit z i)) in Hz.
    rewrite Z.land_spec, Z.pow2_bits_true, E, Z.bits_0 in Hz by lia. discriminate.
  - exfalso. apply Hz. apply Z.bits_inj'. intros j Hj. rewrite Z.land_spec, Z.bits_0, Z.pow2_bits_eqb by lia.
    destruct (Z.eqb_spec i j) as [-> |]; [rewrite E |]; apply andb_false_r || reflexivity.
Qed.

Lemma not64_testbit m j : flags_ok m -> 0 <= j < 64 -> Z.testbit (not64 m) j = negb (Z.testbit m j).
Proof.
  intros Hm Hj. unfold not64. replace (two64 - 1 - m) with (Z.ones 64 - m) by reflexivity.
  rewrite Z.sub_nocarry_ldiff.
  - rewrite Z.ldiff_spec, Z.ones_spec_low by lia. reflexivity.
  - apply Z.bits_inj'. intros n Hn. rewrite Z.ldiff_spec, Z.bits_0.
    destruct (Z.lt_ge_cases n 64) as [Hl | Hl].
    + rewrite Z.ones_spec_low by lia. apply andb_false_r.
    + rewrite (testbit_high 64) by (unfold flags_ok, two64 in *; lia). reflexivity.
Qed.

(** [Set] of one flag makes [Has] true for it and changes no other, and [Clear] makes it
    false and changes no other; both report the change correctly and stay in the word. *)
Theorem flags_set_clear v i j :
  flags_ok v -> 0 <= i < 64 -> 0 <= j < 64 ->
  Flags.Has (snd (Flags.Set_ v i)) j = (if j =? i then true else Flags.Has v j) /\
  Flags.Has (snd (Flags.Clear v i)) j = (if j =? i then false else Flags.Has v j) /\
  fst (Flags.Set_ v i) = negb (Flags.Has v i) /\ fst (Flags.Clear v i) = Flags.Has v i /\
  flags_ok (snd (Flags.Set_ v i)) /\ flags_ok (snd (Flags.Clear v i)).
Proof.
  intros Hv Hi Hj. assert (Hm : flags_ok (2 ^ i)).
  { unfold flags_ok. split; [lia |]. apply (Z.pow_lt_mono_r 2 i 64); lia. }
  rewrite !Has_testbit by assumption. unfold Flags.Set_, Flags.Clear. simpl.
  rewrite flag_mask_pow by assumption. split_and!.
  - rewrite Z.lor_spec, Z.pow2_bits_eqb by lia. rewrite Z.eqb_sym.
    destruct (Z.eqb_spec j i); [apply orb_true_r | apply orb_false_r].
  - rewrite Z.land_spec, not64_testbit, Z.pow2_bits_eqb by (assumption || lia). rewrite Z.eqb_sym.
    destruct (Z.eqb_spec j i); [apply andb_false_r | apply andb_true_r].
  - rewrite <- flag_mask_pow, <- Has_testbit by assumption. reflexivity.
  - rewrite <- flag_mask_pow, <- Has_testbit by assumption. reflexivity.
  - apply (lor_width 64); unfold flags_ok, two64 in *; lia.
  - apply (land_width 64); unfold flags_ok, not64, two64 in *; lia.
Qed.

Lemma flags_set_clear_witness :
  Flags.Has (snd (Flags.Set_ 5 3)) 3 = true /\
  Flags.Has (snd (Flags.Clear 5 3)) 3 = false /\
  fst (Flags.Set_ 5 3) = negb (Flags.Has 5 3) /\ fst (Flags.Clear 5 3) = Flags.Has 5 3 /\
  flags_ok (snd (Flags.Set_ 5 3)) /\ flags_ok (snd (Flags.Clear 5 3)).
Proof. apply (flags_set_clear 5 3 3); unfold flags_ok, two64; lia. Defined.

(** ** The virtual memory manager's flags *)

Module VmFlag.
Definition Write : Z := 0.
Definition Execute : Z := 1.
Definition User : Z := 2.
Definition Guarded : Z := 3.
Definition Anon : Z := 24.
Definition Mmio : Z := 25.
Definition File : Z := 26.
End VmFlag.

(** [0xFF << 24] is an [int] expression: it overflows into the sign bit and widens to a
    [size_t] with the upper half set. *)
Definition VmFlagTypeMask : Z := 0xFFFFFFFFFF000000.

Module VmFaultFlag.
Definition Read : Z := 0.
Definition Write : Z := 1.
Definition Execute : Z := 2.
Definition User : Z := 3.
End VmFaultFlag.
