(* ===== verification/PageTable.v ===== *)
(** Page tables as the HAT implementations keep them ([kernel/arch/x86_64/Hat.cpp],
    [kernel/arch/riscv64/Hat.cpp]): the walk, the creation of missing tables and the update
    of the final entry, over the memory of the direct map. The two architectures share these
    loops and differ in the format of an entry, which is a parameter here. *)

From S2P Require Import Prelude Maths Pmm PmmSafety.

(** ** Interface: frames and the words in them

    What page-table code relies on: frames come from an allocator, words of the direct map
    can be read and written, and neither an allocation nor a write to a frame in use disturbs
    another frame in use. *)

Class PhysMem (A : Type) `{!FrameAllocator A} (hhdmBase : Z) : Type := {
  pm_read : A -> Z -> Z;
  pm_write : A -> Z -> Z -> A;
  pm_read_write : forall s a v b, pm_read (pm_write s a v) b = if decide (b = a) then v else pm_read s b;
  (* a frame in use is written to without effect on the allocator *)
  pm_write_ok : forall s f a v, fa_inv s -> ~ fa_free s f -> f mod PageSize = 0 ->
    f + hhdmBase <= a < f + hhdmBase + PageSize ->
    fa_inv (pm_write s a v) /\ forall q, fa_free (pm_write s a v) q <-> fa_free s q;
  (* an allocation leaves the words of frames in use alone *)
  pm_alloc_read : forall s p s' f a, fa_inv s -> fa_alloc s = Ok (p, s') -> ~ fa_free s f -> f mod PageSize = 0 ->
    f + hhdmBase <= a < f + hhdmBase + PageSize -> pm_read s' a = pm_read s a;
  (* the direct map reaches every frame handed out *)
  pm_alloc_room : forall s p s', fa_inv s -> fa_alloc s = Ok (p, s') -> p + hhdmBase + PageSize <= two64
}.

Definition PageTableEntries : Z := 512.

(** [GetAddressIndices]: the index into the table of level [l], counted from 1. *)
Definition index (l : nat) (vaddr : Z) : Z := Z.land (Z.shiftr vaddr (12 + 9 * (Z.of_nat l - 1))) 0x1FF.

(** [GetPageSize]: bytes an entry of level [l] covers. *)
Definition GetPageSize (l : nat) : Z := Z.shiftl 1 (12 + 9 * (Z.of_nat l - 1)).

Record WalkResult : Type := mkWalk { level : nat; pte : Z; complete : bool }.

Section Tables.
Context {A : Type} `{!FrameAllocator A} {hhdmBase : Z} `{!PhysMem A hhdmBase}.

(** [memset(..., 0, PageSize)] over the words of a page. *)
Fixpoint zero_words (n : nat) (s : A) (a : Z) : A :=
  match n with
  | O => s
  | S n' => zero_words n' (pm_write s a 0) (a + 8)
  end.

Definition entry (s : A) (a i : Z) : Z := pm_read s (a + hhdmBase + 8 * i).

Lemma index_range l v : 0 <= index l v < PageTableEntries.
Proof.
  unfold index, PageTableEntries. change 0x1FF with (2 ^ 9 - 1). rewrite land_mask_mod by lia.
  apply Z.mod_pos_bound. reflexivity.
Qed.

Lemma entry_write s a i e b j : a mod PageSize = 0 -> b mod PageSize = 0 ->
  0 <= i < PageTableEntries -> 0 <= j < PageTableEntries ->
  entry (pm_write s (a + hhdmBase + 8 * i) e) b j = if decide (b = a /\ j = i) then e else entry s b j.
Proof.
  intros Ha Hb Hi Hj. unfold entry. rewrite pm_read_write.
  destruct (decide (b = a /\ j = i)) as [[-> ->] | Hne]; [rewrite decide_True by reflexivity; reflexivity |].
  rewrite decide_False; [reflexivity |]. intros Heq. apply Hne. unfold PageTableEntries, PageSize in *.
  pose proof (Z.div_mod a 0x1000 ltac:(lia)). pose proof (Z.div_mod b 0x1000 ltac:(lia)). lia.
Qed.

Lemma zero_words_outside n : forall s a b, (b < a \/ a + 8 * Z.of_nat n <= b) -> pm_read (zero_words n s a) b = pm_read s b.
Proof.
  induction n as [| n IH]; intros s a b Hb; cbn [zero_words]; [reflexivity |].
  rewrite IH by lia. rewrite pm_read_write, decide_False by lia. reflexivity.
Qed.

Lemma zero_words_inside n : forall s a i, 0 <= i < Z.of_nat n -> pm_read (zero_words n s a) (a + 8 * i) = 0.
Proof.
  induction n as [| n IH]; intros s a i Hi; [lia |]. cbn [zero_words].
  destruct (decide (i = 0)) as [-> | Hne].
  - rewrite zero_words_outside by lia. rewrite pm_read_write, decide_True by lia. reflexivity.
  - replace (a + 8 * i) with (a + 8 + 8 * (i - 1)) by lia. apply IH. lia.
Qed.

Lemma zero_words_free f : f mod PageSize = 0 -> forall n s a, fa_inv s -> ~ fa_free s f -> f + hhdmBase <= a -> a + 8 * Z.of_nat n <= f + hhdmBase + PageSize ->
  fa_inv (zero_words n s a) /\ forall q, fa_free (zero_words n s a) q <-> fa_free s q.
Proof.
  intros Hf. induction n as [| n IH]; intros s a Hi Hn Hlo Hhi; cbn [zero_words]; [split; [assumption | tauto] |].
  assert (Ha : f + hhdmBase <= a < f + hhdmBase + PageSize) by lia.
  destruct (pm_write_ok s f a 0 Hi Hn Hf Ha) as [Hi' Hfree].
  destruct (IH (pm_write s a 0) (a + 8) Hi') as [H1 H2]; [rewrite Hfree; assumption | lia | lia |].
  split; [assumption |]. intros q. rewrite H2. apply Hfree.
Qed.

(** The format of an entry: the number of levels, whether an entry is present, whether a
    present entry of a level ends the walk, the address in an entry, and the entry that
    points to a new table. *)
Variable pagingLevels : nat.
Variable present : Z -> bool.
Variable large : nat -> Z -> bool.
Variable entry_addr : Z -> Z.
Variable table_entry : Z -> Z.

(** The loop of [WalkTables]; [i] counts down from [pagingLevels]. *)
Fixpoint walk_loop (i : nat) (s : A) (pt vaddr : Z) (result : WalkResult) : WalkResult :=
  match i with
  | O => mkWalk (level result) (pte result) (present (pm_read s (pte result)))
  | S i' =>
      let p := pt + 8 * index i vaddr in
      let e := pm_read s p in
      if negb (present e) then mkWalk i p false
      else if large i e then mkWalk i p true
      else walk_loop i' s (u64 (entry_addr e + hhdmBase)) vaddr (mkWalk i p false)
  end.

Definition WalkTables (s : A) (root vaddr : Z) : WalkResult :=
  walk_loop pagingLevels s (u64 (root + hhdmBase)) vaddr (mkWalk 0 0 false).

(** [while (path.level != selectedSize)] of [HatDoMap]. Going below level 1 reads an index
    that was never set. *)
Fixpoint extend (fuel : nat) (s : A) (lvl : nat) (p : Z) (selectedSize : nat) (vaddr : Z) : res (Z * A) :=
  if decide (lvl = selectedSize) then Ok (p, s)
  else
    match fuel with
    | O => OutOfFuel
    | S fuel' =>
        '(newPt, s) ← fa_alloc s;
        let s := zero_words PageWords s (u64 (newPt + hhdmBase)) in
        let s := pm_write s p (table_entry newPt) in
        match lvl with
        | O | S O => Panic
        | S lvl' => extend fuel' s lvl' (u64 (newPt + hhdmBase) + 8 * index lvl' vaddr) selectedSize vaddr
        end
    end.

(** ** Tables *)

(** Entry [i] of the table [a] of level [l] points to another table. *)
Definition link (s : A) (l : nat) (a i : Z) : Prop :=
  present (entry s a i) = true /\ large l (entry s a i) = false /\ (1 < l)%nat.

Definition table_frame (a : Z) : Prop := 0 <= a /\ a mod PageSize = 0 /\ a + hhdmBase + PageSize <= two64.

(** The tables [T] of a map, by their level: a tree under the root. *)
Record tables (s : A) (root : Z) (T : gmap Z nat) : Prop := mkTables {
  t_alloc : fa_inv s;
  t_root : T !! root = Some pagingLevels;
  t_frame : forall a l, T !! a = Some l -> (1 <= l <= pagingLevels)%nat /\ table_frame a /\ ~ fa_free s a;
  t_link : forall a l i, T !! a = Some l -> 0 <= i < PageTableEntries -> link s l a i ->
    T !! entry_addr (entry s a i) = Some (pred l);
  t_inj : forall a l i b k j, T !! a = Some l -> T !! b = Some k -> 0 <= i < PageTableEntries -> 0 <= j < PageTableEntries ->
    link s l a i -> link s k b j -> entry_addr (entry s a i) = entry_addr (entry s b j) -> a = b /\ i = j
}.

(** The table of each level on the way of an address. *)
Inductive reach (s : A) (root v : Z) : nat -> Z -> Prop :=
| reach_root : reach s root v pagingLevels root
| reach_next l a : reach s root v (S l) a -> link s (S l) a (index (S l) v) ->
    reach s root v l (entry_addr (entry s a (index (S l) v))).

(** Where the walk of an address ends. *)
Definition final (s : A) (root v : Z) (l : nat) (a : Z) : Prop := reach s root v l a /\ ~ link s l a (index l v).

(** The addresses an entry of level [l] serves together with [v]. *)
Definition same_page (l : nat) (v v' : Z) : bool :=
  forallb (fun k => index k v' =? index k v) (seq l (S pagingLevels - l)).

(** The entry that translates an address, and its level. *)
Definition lookup_pte (s : A) (root v : Z) : option (Z * nat) :=
  let path := WalkTables s root v in
  if complete path then Some (pm_read s (pte path), level path) else None.

Lemma same_page_spec l v v' :
  same_page l v v' = true <-> forall k, (l <= k <= pagingLevels)%nat -> index k v' = index k v.
Proof.
  unfold same_page. rewrite forallb_forall. split.
  - intros H k Hk. apply Z.eqb_eq, H. apply in_seq. lia.
  - intros H k Hk. apply in_seq in Hk. apply Z.eqb_eq, H. lia.
Qed.

Hypothesis hhdm_pos : 0 <= hhdmBase.
Hypothesis levels_pos : (1 <= pagingLevels)%nat.

Lemma reach_level s root T v l a : tables s root T -> reach s root v l a -> T !! a = Some l.
Proof.
  intros H. induction 1 as [| l a _ IH Hl]; [apply H |].
  apply (t_link _ _ _ H a (S l) _ IH (index_range _ _) Hl).
Qed.

Lemma reach_det s root v l a : reach s root v l a -> forall b, reach s root v l b -> a = b.
Proof.
  assert (Hle : forall k b, reach s root v k b -> (k <= pagingLevels)%nat) by (induction 1; lia).
  assert (Htop : forall b, reach s root v pagingLevels b -> b = root).
  { intros b Hb. inversion Hb as [Heq | k c Hc Hl Heq1 Heq2]; [reflexivity |]. subst. apply Hle in Hc. lia. }
  induction 1 as [| l a Ha IH Hl]; intros b Hb; [symmetry; auto |].
  inversion Hb as [Heq | k c Hc Hl' Heq1 Heq2]; subst.
  - apply Hle in Ha. lia.
  - rewrite (IH c Hc). reflexivity.
Qed.

(** Two addresses that share a table share the way to it. *)
Lemma reach_indices s root T v v' l a :
  tables s root T -> reach s root v l a -> reach s root v' l a -> forall k, (l < k <= pagingLevels)%nat -> index k v' = index k v.
Proof.
  intros H Hr. induction Hr as [| l a Ha IH Hl]; intros Hr' k Hk; [lia |].
  inversion Hr' as [Heq | l' a' Ha' Hl' Heq1 Heq2]; subst.
  - pose proof (reach_level _ _ _ _ _ _ H Ha) as Hla. apply (t_frame _ _ _ H) in Hla. lia.
  - destruct (t_inj _ _ _ H a (S l) (index (S l) v) a' (S l) (index (S l) v')) as [-> Hi]; auto using index_range.
    + eapply reach_level; eassumption.
    + eapply reach_level; eassumption.
    + destruct (decide (k = S l)) as [-> | Hne]; [auto |]. apply IH; [assumption | lia].
Qed.

Lemma reach_same s root v v' l a :
  reach s root v l a -> (forall k, (l < k <= pagingLevels)%nat -> index k v' = index k v) -> reach s root v' l a.
Proof.
  induction 1 as [| l a Ha IH Hl]; intros Hk; [constructor |].
  assert (Hle : (S l <= pagingLevels)%nat) by (clear -Ha; induction Ha; lia).
  rewrite <- (Hk (S l)) by lia. apply reach_next; [apply IH; intros k ?; apply Hk; lia |]. rewrite Hk by lia. assumption.
Qed.

(** The walk ends where the definitions say it does. *)
Lemma walk_loop_final s root T v : tables s root T -> forall i a res0,
  reach s root v i a -> (1 <= i)%nat ->
  exists l b, final s root v l b /\ (1 <= l)%nat /\
    let e := entry s b (index l v) in
    walk_loop i s (u64 (a + hhdmBase)) v res0 = mkWalk l (b + hhdmBase + 8 * index l v) (present e) .
Proof.
  intros H. induction i as [| i IH]; intros a res0 Hr Hi; [lia |]. cbn [walk_loop].
  pose proof (reach_level _ _ _ _ _ _ H Hr) as HT. destruct (t_frame _ _ _ H _ _ HT) as (Hl & (F1 & F2 & F3) & _).
  rewrite u64_small by (unfold PageSize in *; lia). fold (entry s a (index (S i) v)).
  destruct (present (entry s a (index (S i) v))) eqn:Ep; cbn [negb].
  2:{ exists (S i), a. rewrite Ep. split; [split; [assumption |] | split; [lia | reflexivity]]. intros (? & _). congruence. }
  destruct (large (S i) (entry s a (index (S i) v))) eqn:El.
  { exists (S i), a. rewrite Ep. split; [split; [assumption |] | split; [lia | reflexivity]]. intros (_ & ? & _). congruence. }
  destruct i as [| i].
  { exists 1%nat, a. cbn [walk_loop level pte]. fold (entry s a (index 1 v)). rewrite Ep.
    split; [split; [assumption |] | split; [lia | reflexivity]]. intros (_ & _ & ?). lia. }
  apply IH; [| lia]. apply reach_next; [assumption |]. split_and!; auto; lia.
Qed.

Lemma WalkTables_final s root T v : tables s root T ->
  exists l a, final s root v l a /\ (1 <= l)%nat /\
    WalkTables s root v = mkWalk l (a + hhdmBase + 8 * index l v) (present (entry s a (index l v))).
Proof. intros H. apply (walk_loop_final s root T v H pagingLevels root); [constructor | assumption]. Qed.

Lemma final_det s root T v l a k b : tables s root T -> final s root v l a -> final s root v k b -> l = k /\ a = b.
Proof.
  intros H [Hr Hn] [Hr' Hn'].
  assert (Hgo : forall m c, reach s root v m c -> forall n d, reach s root v n d -> (m < n)%nat -> link s n d (index n v)).
  { intros m c Hm. induction Hm as [| m c Hm IH Hlk]; intros n d Hd Hlt.
    - pose proof (reach_level _ _ _ _ _ _ H Hd) as HT. apply (t_frame _ _ _ H) in HT. lia.
    - destruct (decide (n = S m)) as [-> | Hne]; [| eapply IH; [eassumption | lia]].
      rewrite (reach_det _ _ _ _ _ Hd _ Hm). assumption. }
  destruct (Nat.lt_trichotomy l k) as [Hlt | [-> | Hlt]].
  - exfalso. eapply Hn', Hgo; [exact Hr | exact Hr' | assumption].
  - split; [reflexivity |]. eapply reach_det; eassumption.
  - exfalso. eapply Hn, Hgo; [exact Hr' | exact Hr | assumption].
Qed.

Lemma lookup_pte_final s root T v l a : tables s root T -> final s root v l a ->
  lookup_pte s root v = let e := entry s a (index l v) in if present e then Some (e, l) else None.
Proof.
  intros H Hf. destruct (WalkTables_final s root T v H) as (k & b & Hf' & _ & E).
  destruct (final_det s root T v l a k b H Hf Hf') as [<- <-]. unfold lookup_pte. rewrite E. reflexivity.
Qed.

(** Where one address of a page has no translation, none has. *)
Lemma lookup_pte_none s root T v v' : tables s root T -> lookup_pte s root v = None -> same_page 1 v v' = true ->
  lookup_pte s root v' = None.
Proof.
  intros H Hn Hsp. destruct (WalkTables_final s root T v H) as (l & a & [Hr Hnl] & Hl & _).
  pose proof (t_frame _ _ _ H a l (reach_level _ _ _ _ _ _ H Hr)) as (Hlr & _).
  rewrite same_page_spec in Hsp. assert (Hil : index l v' = index l v) by (apply Hsp; lia).
  assert (Hf : final s root v' l a).
  { split; [apply (reach_same s root v); [assumption | intros k Hk; apply Hsp; lia] | rewrite Hil; assumption]. }
  rewrite (lookup_pte_final s root T v l a H (conj Hr Hnl)) in Hn. rewrite (lookup_pte_final s root T v' l a H Hf). cbv zeta in *.
  rewrite Hil. destruct (present _); [discriminate | reflexivity].
Qed.

(** ** Writing an entry *)

(** Writing an entry that is no link, with a value that is none, moves no walk. *)
Lemma leaf_write s root T a l i e :
  tables s root T -> T !! a = Some l -> 0 <= i < PageTableEntries -> ~ link s l a i ->
  let s' := pm_write s (a + hhdmBase + 8 * i) e in
  ~ link s' l a i ->
  tables s' root T /\ (forall q, fa_free s' q <-> fa_free s q) /\
  (forall v k b, reach s' root v k b <-> reach s root v k b) /\
  (forall b k j, T !! b = Some k -> 0 <= j < PageTableEntries -> link s' k b j <-> link s k b j).
Proof.
  intros H HT Hi Hn s' Hn'. destruct (t_frame _ _ _ H a l HT) as (Hl & (F1 & F2 & F3) & Hnf).
  destruct (pm_write_ok s a (a + hhdmBase + 8 * i) e (t_alloc _ _ _ H) Hnf F2) as [Hinv Hfree];
    [unfold PageTableEntries, PageSize in *; lia |].
  assert (Hen : forall b k j, T !! b = Some k -> 0 <= j < PageTableEntries ->
    entry s' b j = if decide (b = a /\ j = i) then e else entry s b j).
  { intros b k j Hb Hj. apply entry_write; auto. apply (t_frame _ _ _ H b k Hb). }
  assert (Hlk : forall b k j, T !! b = Some k -> 0 <= j < PageTableEntries -> link s' k b j <-> link s k b j).
  { intros b k j Hb Hj. pose proof (Hen b k j Hb Hj) as E. destruct (decide (b = a /\ j = i)) as [[-> ->] | Hne].
    - assert (k = l) as -> by congruence. tauto.
    - unfold link. rewrite E. tauto. }
  assert (Hsame : forall b k j, T !! b = Some k -> 0 <= j < PageTableEntries -> link s k b j -> entry s' b j = entry s b j).
  { intros b k j Hb Hj Hlink. rewrite (Hen b k j Hb Hj). destruct (decide (b = a /\ j = i)) as [[-> ->] | Hne]; [| reflexivity].
    assert (k = l) as -> by congruence. contradiction. }
  assert (Ht : tables s' root T).
  { constructor; auto.
    - apply H.
    - intros b k Hb. unfold s'. rewrite Hfree. apply (t_frame _ _ _ H b k Hb).
    - intros b k j Hb Hj Hlink. apply (Hlk b k j Hb Hj) in Hlink. rewrite (Hsame b k j Hb Hj Hlink). apply (t_link _ _ _ H); assumption.
    - intros b k j c m n Hb Hc Hj Hm L1 L2. apply (Hlk b k j Hb Hj) in L1. apply (Hlk c m n Hc Hm) in L2.
      rewrite (Hsame b k j), (Hsame c m n) by assumption. apply (t_inj _ _ _ H b k j c m n); assumption. }
  split_and!; auto. intros v k b. split.
  - induction 1 as [| m c Hc IH Hlink]; [constructor |].
    pose proof (reach_level _ _ _ _ _ _ H IH) as HTc. apply (Hlk c (S m) _ HTc (index_range _ _)) in Hlink.
    rewrite (Hsame c (S m) _ HTc (index_range _ _) Hlink). apply reach_next; assumption.
  - induction 1 as [| m c Hc IH Hlink]; [constructor |].
    pose proof (reach_level _ _ _ _ _ _ H Hc) as HTc.
    rewrite <- (Hsame c (S m) _ HTc (index_range _ _) Hlink). apply reach_next; [assumption |].
    apply (Hlk c (S m) _ HTc (index_range _ _)). assumption.
Qed.

(** The effect on translations: the entry serves its page, every other address is as before. *)
Lemma leaf_write_lookup s root T v l a e :
  tables s root T -> final s root v l a -> 
  let s' := pm_write s (a + hhdmBase + 8 * index l v) e in
  (present e = true -> large l e = true \/ l = 1%nat) ->
  tables s' root T /\ (forall q, fa_free s' q <-> fa_free s q) /\
  forall v', lookup_pte s' root v' =
    if same_page l v v' then (if present e then Some (e, l) else None) else lookup_pte s root v'.
Proof.
  intros H [Hr Hn] s' He. pose proof (reach_level _ _ _ _ _ _ H Hr) as HT.
  destruct (t_frame _ _ _ H a l HT) as (Hl & (F1 & F2 & F3) & Hnf).
  assert (Es : entry s' a (index l v) = e).
  { unfold s'. rewrite entry_write by auto using index_range. rewrite decide_True; auto. }
  assert (Hn' : ~ link s' l a (index l v)).
  { intros (L1 & L2 & L3). rewrite Es in L1, L2. destruct (He L1); [congruence | lia]. }
  destruct (leaf_write s root T a l (index l v) e H HT (index_range _ _) Hn Hn') as (Ht & Hf & Hreach & Hlk).
  fold s' in Ht, Hf, Hreach, Hlk. split; [assumption |]. split; [assumption |]. intros v'.
  destruct (WalkTables_final s root T v' H) as (k & b & [Hr' Hf'] & Hk & _).
  pose proof (reach_level _ _ _ _ _ _ H Hr') as HTb.
  assert (Hfin' : final s' root v' k b).
  { split; [apply Hreach; assumption |]. rewrite (Hlk b k _ HTb (index_range _ _)). assumption. }
  rewrite (lookup_pte_final s' root T v' k b Ht Hfin'), (lookup_pte_final s root T v' k b H (conj Hr' Hf')). cbv zeta.
  assert (Eb : entry s' b (index k v') = if decide (b = a /\ index k v' = index l v) then e else entry s b (index k v')).
  { apply entry_write; auto using index_range. apply (t_frame _ _ _ H b k HTb). }
  destruct (same_page l v v') eqn:Esp.
  - rewrite same_page_spec in Esp.
    assert (Hra : reach s root v' l a) by (apply (reach_same s root v); [assumption | intros; apply Esp; lia]).
    assert (Hfa : final s root v' l a) by (split; [assumption |]; rewrite (Esp l) by lia; assumption).
    destruct (final_det s root T v' l a k b H Hfa (conj Hr' Hf')) as [<- <-]. rewrite Eb, decide_True; [reflexivity |].
    split; [reflexivity | apply Esp; lia].
  - rewrite Eb. destruct (decide (b = a /\ index k v' = index l v)) as [[-> Hi] | Hne]; [exfalso | reflexivity].
    assert (k = l) as -> by congruence. apply not_true_iff_false in Esp. apply Esp, same_page_spec. intros m Hm.
    destruct (decide (m = l)) as [-> | Hml]; [assumption |].
    apply (reach_indices s root T v v' l a H Hr Hr'). lia.
Qed.

(** ** A new table *)

(** States that agree on the words of the tables agree on the walks. *)
Lemma tables_agree s s' root T :
  tables s root T -> fa_inv s' -> (forall a l, T !! a = Some l -> ~ fa_free s' a) ->
  (forall a l i, T !! a = Some l -> 0 <= i < PageTableEntries -> entry s' a i = entry s a i) ->
  tables s' root T /\ (forall v l a, reach s root v l a -> reach s' root v l a) /\
  (forall v, lookup_pte s' root v = lookup_pte s root v).
Proof.
  intros H Hi Hnf He.
  assert (Hlk : forall b k j, T !! b = Some k -> 0 <= j < PageTableEntries -> link s' k b j <-> link s k b j)
    by (intros b k j Hb Hj; unfold link; rewrite (He b k j Hb Hj); tauto).
  assert (Ht : tables s' root T).
  { constructor; auto.
    - apply H.
    - intros a l Ha. destruct (t_frame _ _ _ H a l Ha) as (? & ? & _). eauto.
    - intros a l i Ha Hj L. rewrite (He a l i Ha Hj). apply (t_link _ _ _ H); auto. apply Hlk; assumption.
    - intros a l i b k j Ha Hb Hj Hk L1 L2. rewrite (He a l i Ha Hj), (He b k j Hb Hk).
      apply (t_inj _ _ _ H a l i b k j); auto; apply Hlk; assumption. }
  assert (Hr : forall v l a, reach s root v l a -> reach s' root v l a).
  { induction 1 as [| m c Hc IH L]; [constructor |]. pose proof (reach_level _ _ _ _ _ _ H Hc) as HTc.
    rewrite <- (He c (S m) _ HTc (index_range _ _)). apply reach_next; [assumption |]. apply Hlk; auto using index_range. }
  split; [assumption |]. split; [assumption |]. intros v.
  destruct (WalkTables_final s root T v H) as (l & a & [Hra Hfa] & _). pose proof (reach_level _ _ _ _ _ _ H Hra) as HTa.
  assert (Hf' : final s' root v l a) by (split; [auto |]; rewrite (Hlk a l _ HTa (index_range _ _)); assumption).
  rewrite (lookup_pte_final s' root T v l a Ht Hf'), (lookup_pte_final s root T v l a H (conj Hra Hfa)).
  rewrite (He a l _ HTa (index_range _ _)). reflexivity.
Qed.

Hypothesis zero_absent : present 0 = false.
(** A new table's entry is a link back to it. *)
Hypothesis table_entry_ok : forall l p, (1 < l)%nat -> table_frame p ->
  present (table_entry p) = true /\ large l (table_entry p) = false /\ entry_addr (table_entry p) = p.

Definition new_table (s : A) (p a i : Z) : A :=
  pm_write (zero_words PageWords s (u64 (p + hhdmBase))) (a + hhdmBase + 8 * i) (table_entry p).

Lemma add_table s root T v l a p s1 :
  tables s root T -> (1 <= l)%nat -> reach s root v (S l) a -> present (entry s a (index (S l) v)) = false ->
  fa_alloc s = Ok (p, s1) ->
  let s3 := new_table s1 p a (index (S l) v) in
  tables s3 root (<[p := l]> T) /\ final s3 root v l p /\ (forall j, 0 <= j < PageTableEntries -> entry s3 p j = 0) /\
  (forall v', lookup_pte s3 root v' = lookup_pte s root v') /\ (forall q, fa_free s3 q <-> fa_free s q /\ q <> p).
Proof.
  intros H Hl Hr Habs Ea s3. set (i := index (S l) v) in *.
  pose proof (reach_level _ _ _ _ _ _ H Hr) as HTa.
  destruct (t_frame _ _ _ H a (S l) HTa) as (Hle & (F1 & F2 & F3) & Hnfa).
  destruct (fa_alloc_ok s p s1 (t_alloc _ _ _ H) Ea) as (Hi1 & Hp & Hpal & Hpfree & Hfree1).
  pose proof (pm_alloc_room s p s1 (t_alloc _ _ _ H) Ea) as Hroom.
  assert (Hpf : table_frame p) by (split_and!; auto; lia).
  assert (Hfresh : forall b k, T !! b = Some k -> b <> p) by (intros b k Hb ->; apply (t_frame _ _ _ H p k Hb), Hpfree).
  assert (Hap : a <> p) by eauto.
  assert (Hnp1 : ~ fa_free s1 p) by (rewrite Hfree1; tauto).
  assert (Eu : u64 (p + hhdmBase) = p + hhdmBase) by (apply u64_small; unfold PageSize in *; lia).
  set (s2 := zero_words PageWords s1 (u64 (p + hhdmBase))) in *.
  destruct (zero_words_free p Hpal PageWords s1 (u64 (p + hhdmBase)) Hi1 Hnp1 ltac:(lia) ltac:(rewrite Eu; unfold PageWords, PageSize; lia)) as [Hi2 Hfree2].
  fold s2 in Hi2, Hfree2.
  assert (Hnfa2 : ~ fa_free s2 a) by (rewrite Hfree2, Hfree1; tauto).
  assert (Hi : 0 <= i < PageTableEntries) by apply index_range.
  destruct (pm_write_ok s2 a (a + hhdmBase + 8 * i) (table_entry p) Hi2 Hnfa2 F2) as [Hi3 Hfree3];
    [unfold PageTableEntries, PageSize in *; lia |].
  change (pm_write s2 (a + hhdmBase + 8 * i) (table_entry p)) with s3 in Hi3, Hfree3.
  assert (Hfree : forall q, fa_free s3 q <-> fa_free s q /\ q <> p) by (intros q; rewrite Hfree3, Hfree2, Hfree1; reflexivity).
  (* entries *)
  assert (Hen : forall b k j, T !! b = Some k -> 0 <= j < PageTableEntries ->
    entry s3 b j = if decide (b = a /\ j = i) then table_entry p else entry s b j).
  { intros b k j Hb Hj. destruct (t_frame _ _ _ H b k Hb) as (_ & (B1 & B2 & B3) & Hnb).
    unfold s3, new_table. fold s2. rewrite entry_write by auto. destruct (decide (b = a /\ j = i)); [reflexivity |].
    unfold entry, s2. rewrite Eu, zero_words_outside.
    - apply (pm_alloc_read s p s1 b _ (t_alloc _ _ _ H) Ea Hnb B2). unfold PageTableEntries, PageSize in *. lia.
    - pose proof (Hfresh b k Hb) as Hne. unfold PageWords, PageTableEntries, PageSize in *.
      pose proof (Z.div_mod b 0x1000 ltac:(lia)). pose proof (Z.div_mod p 0x1000 ltac:(lia)). lia. }
  assert (Hep : forall j, 0 <= j < PageTableEntries -> entry s3 p j = 0).
  { intros j Hj. unfold s3, new_table. fold s2. rewrite entry_write by auto. rewrite decide_False by (intros [? _]; congruence).
    unfold entry, s2. rewrite Eu. apply zero_words_inside. unfold PageWords, PageTableEntries in *. lia. }
  destruct (table_entry_ok (S l) p ltac:(lia) Hpf) as (P1 & P2 & P3).
  assert (Hea : entry s3 a i = table_entry p) by (rewrite (Hen a (S l) i HTa Hi), decide_True; auto).
  assert (Hnlink : ~ link s (S l) a i) by (intros (L1 & _); congruence).
  assert (Hlinka : link s3 (S l) a i) by (split_and!; rewrite ?Hea; auto; lia).
  assert (Hlinkp : forall k j, 0 <= j < PageTableEntries -> ~ link s3 k p j) by (intros k j Hj (L1 & _); rewrite Hep in L1 by assumption; congruence).
  assert (Hsame : forall b k j, T !! b = Some k -> 0 <= j < PageTableEntries -> link s k b j -> entry s3 b j = entry s b j /\ link s3 k b j).
  { intros b k j Hb Hj L. assert (E : entry s3 b j = entry s b j).
    { rewrite (Hen b k j Hb Hj). destruct (decide (b = a /\ j = i)) as [[-> ->] |]; [| reflexivity].
      assert (k = S l) as -> by congruence. contradiction. }
    split; [assumption |]. unfold link. rewrite E. exact L. }
  (* a link of the new state is the new one or an old one *)
  assert (Hcase : forall b k j, <[p := l]> T !! b = Some k -> 0 <= j < PageTableEntries -> link s3 k b j ->
    T !! b = Some k /\ ((b = a /\ j = i /\ k = S l /\ entry_addr (entry s3 b j) = p) \/
      (link s k b j /\ entry s3 b j = entry s b j /\ entry_addr (entry s3 b j) <> p))).
  { intros b k j Hb Hj L. destruct (decide (b = p)) as [-> | Hbp]; [exfalso; eapply Hlinkp; eassumption |].
    rewrite lookup_insert_ne in Hb by congruence. split; [assumption |]. pose proof (Hen b k j Hb Hj) as E.
    destruct (decide (b = a /\ j = i)) as [[-> ->] | Hne].
    - left. assert (k = S l) as -> by congruence. rewrite E. auto.
    - right. assert (L' : link s k b j) by (unfold link in *; rewrite E in L; exact L).
      split; [assumption |]. split; [assumption |]. rewrite E. eapply Hfresh, (t_link _ _ _ H); eassumption. }
  assert (Ht : tables s3 root (<[p := l]> T)).
  { constructor; auto.
    - rewrite lookup_insert_ne; [apply H |]. intros ->. eapply Hfresh; [apply (t_root _ _ _ H) | reflexivity].
    - intros b k Hb. destruct (decide (b = p)) as [-> | Hbp].
      + rewrite lookup_insert_eq in Hb. injection Hb as <-. split; [lia |]. split; [assumption |]. rewrite Hfree. tauto.
      + rewrite lookup_insert_ne in Hb by congruence. destruct (t_frame _ _ _ H b k Hb) as (? & ? & ?).
        split; [assumption |]. split; [assumption |]. rewrite Hfree. tauto.
    - intros b k j Hb Hj L. destruct (Hcase b k j Hb Hj L) as [HTb [(-> & -> & -> & ->) | (L' & E & Hne)]].
      + rewrite lookup_insert_eq. reflexivity.
      + rewrite lookup_insert_ne by congruence. rewrite E. apply (t_link _ _ _ H); assumption.
    - intros b k j c m n Hb Hc Hj Hn L1 L2 Heq.
      destruct (Hcase b k j Hb Hj L1) as [HTb [(-> & -> & -> & E1) | (L1' & E1 & N1)]],
        (Hcase c m n Hc Hn L2) as [HTc [(-> & -> & -> & E2) | (L2' & E2 & N2)]]; try congruence; [auto |].
      rewrite E1, E2 in Heq. apply (t_inj _ _ _ H b k j c m n); assumption. }
  assert (Hreach : forall v' k b, reach s root v' k b -> reach s3 root v' k b).
  { induction 1 as [| m c Hc IH L]; [constructor |]. pose proof (reach_level _ _ _ _ _ _ H Hc) as HTc.
    destruct (Hsame c (S m) _ HTc (index_range _ _) L) as [<- L']. apply reach_next; assumption. }
  assert (Hfin : forall v', reach s root v' (S l) a -> index (S l) v' = i -> final s3 root v' l p).
  { intros v' Hr' Hiv. split; [| apply Hlinkp, index_range].
    rewrite <- P3, <- Hea, <- Hiv. apply reach_next; [auto | rewrite Hiv; assumption]. }
  split; [assumption |]. split; [apply Hfin; auto |]. split; [assumption |]. split; [| assumption]. intros v'.
  destruct (WalkTables_final s root T v' H) as (k & b & [Hrb Hfb] & _). pose proof (reach_level _ _ _ _ _ _ H Hrb) as HTb.
  rewrite (lookup_pte_final s root T v' k b H (conj Hrb Hfb)). cbv zeta.
  destruct (decide (b = a /\ index k v' = i)) as [[-> Hiv] | Hne].
  - assert (k = S l) as -> by congruence. rewrite Hiv, Habs.
    rewrite (lookup_pte_final s3 root _ v' l p Ht (Hfin v' Hrb Hiv)), Hep by apply index_range. cbv zeta. rewrite zero_absent. reflexivity.
  - pose proof (Hen b k _ HTb (index_range k v')) as E. rewrite decide_False in E by assumption.
    assert (Hf3 : final s3 root v' k b) by (split; [auto |]; unfold link in *; rewrite E; assumption).
    rewrite (lookup_pte_final s3 root _ v' k b Ht Hf3), E. reflexivity.
Qed.

Lemma extend_spec root v sel : (1 <= sel)%nat -> forall fuel s T lvl a p s',
  tables s root T -> final s root v lvl a -> present (entry s a (index lvl v)) = false -> (sel <= lvl)%nat ->
  extend fuel s lvl (a + hhdmBase + 8 * index lvl v) sel v = Ok (p, s') ->
  exists T' b, tables s' root T' /\ final s' root v sel b /\ p = b + hhdmBase + 8 * index sel v /\
    (forall v', lookup_pte s' root v' = lookup_pte s root v') /\ (forall q, fa_free s' q -> fa_free s q) /\
    (forall c l, T' !! c = Some l -> T !! c = Some l \/ (sel <= l)%nat).
Proof.
  intros Hsel. induction fuel as [| fuel IH]; intros s T lvl a p s' H Hf Habs Hle E; cbn [extend] in E;
    (destruct (decide (lvl = sel)) as [-> | Hne]; [injection E as <- <-; exists T, a; auto 10 |]); [discriminate |].
  destruct (fa_alloc s) as [[newPt s1] | |] eqn:Ea; try discriminate. cbn [mbind res_bind] in E.
  destruct lvl as [| [| l]]; try discriminate.
  destruct Hf as [Hr _].
  destruct (add_table s root T v (S l) a newPt s1 H ltac:(lia) Hr Habs Ea) as (Ht & Hfin & Hz & Hlook & Hfree).
  fold (new_table s1 newPt a (index (S (S l)) v)) in E.
  pose proof (reach_level _ _ _ _ _ _ Ht (proj1 Hfin)) as HTn. destruct (t_frame _ _ _ Ht _ _ HTn) as (_ & (N1 & N2 & N3) & _).
  rewrite u64_small in E by (unfold PageSize in *; lia).
  destruct (IH _ _ (S l) newPt p s' Ht Hfin) as (T' & b & H1 & H2 & H3 & H4 & H5 & H6); auto.
  - rewrite Hz by apply index_range. assumption.
  - lia.
  - exists T', b. split_and!; auto.
    + intros v'. rewrite H4. apply Hlook.
    + intros q Hq. apply H5, Hfree in Hq. tauto.
    + intros c k Hc. destruct (H6 c k Hc) as [Hin | ?]; [| auto]. destruct (decide (c = newPt)) as [-> | Hnc].
      * rewrite lookup_insert_eq in Hin. injection Hin as <-. right. lia.
      * rewrite lookup_insert_ne in Hin by congruence. auto.
Qed.

(** Below the selected level the loop never gets anywhere. *)
Lemma extend_below v sel : forall fuel s lvl p r, (lvl < sel)%nat -> extend fuel s lvl p sel v <> Ok r.
Proof.
  induction fuel as [| fuel IH]; intros s lvl p r Hlt; cbn [extend];
    (destruct (decide (lvl = sel)) as [-> | Hne]; [lia |]); [discriminate |].
  destruct (fa_alloc s) as [[newPt s1] | |]; cbn [mbind res_bind]; try discriminate.
  destruct lvl as [| [| l]]; try discriminate. apply IH. lia.
Qed.

(** The loop is bounded by the levels above the selected one. *)
Lemma extend_fuel v sel : (1 <= sel)%nat -> (forall s, fa_alloc s <> OutOfFuel) -> forall fuel s lvl p,
  (sel <= lvl)%nat -> (lvl - sel <= fuel)%nat -> extend fuel s lvl p sel v <> OutOfFuel.
Proof.
  intros Hsel Ha. induction fuel as [| fuel IH]; intros s lvl p Hle Hf; cbn [extend];
    (destruct (decide (lvl = sel)) as [-> | Hne]; [discriminate |]); [lia |].
  specialize (Ha s). destruct (fa_alloc s) as [[newPt s1] | |]; cbn [mbind res_bind]; try congruence.
  destruct lvl as [| [| l]]; try discriminate. apply IH; lia.
Qed.
End Tables.

(** ** Pages as intervals of addresses *)

Lemma index_digit l v : (1 <= l)%nat -> 0 <= v -> index l v = (v / GetPageSize l) mod 512.
Proof.
  intros Hl Hv. unfold index, GetPageSize. rewrite Z.shiftr_div_pow2, Z.shiftl_1_l by lia.
  change 0x1FF with (2 ^ 9 - 1). apply land_mask_mod. lia.
Qed.

(** Numbers with the same last digits are congruent. *)
Lemma digits_mod n : forall x y, (forall j, 0 <= j < Z.of_nat n -> (x / 512 ^ j) mod 512 = (y / 512 ^ j) mod 512) ->
  x mod 512 ^ Z.of_nat n = y mod 512 ^ Z.of_nat n.
Proof.
  induction n as [| n IH]; intros x y H; [rewrite !Z.mod_1_r; reflexivity |].
  rewrite Nat2Z.inj_succ, Z.pow_succ_r by lia.
  rewrite !(Z.rem_mul_r _ 512) by lia.
  pose proof (H 0 ltac:(lia)) as H0. rewrite !Z.div_1_r in H0. rewrite H0. f_equal. f_equal. apply IH.
  intros j Hj. rewrite !Z.div_div by lia. replace (512 * 512 ^ j) with (512 ^ (j + 1)) by (rewrite Z.pow_add_r by lia; lia).
  apply H. lia.
Qed.

Lemma GetPageSize_step l k : (1 <= l <= k)%nat -> GetPageSize k = GetPageSize l * 512 ^ (Z.of_nat k - Z.of_nat l).
Proof.
  intros Hk. unfold GetPageSize. rewrite !Z.shiftl_1_l. change 512 with (2 ^ 9). rewrite <- Z.pow_mul_r, <- Z.pow_add_r by lia. f_equal. lia.
Qed.

Lemma GetPageSize_pos l : (1 <= l)%nat -> 0 < GetPageSize l.
Proof. intros Hl. unfold GetPageSize. rewrite Z.shiftl_1_l. lia. Qed.

(** Two addresses are in one page of level [l] exactly when they agree on all bits the tables
    look at above the offset. *)
Lemma same_page_interval L l v v' : (1 <= l <= L)%nat -> 0 <= v -> 0 <= v' ->
  same_page L l v v' = true <->
  (v' / GetPageSize l) mod 512 ^ (Z.of_nat L + 1 - Z.of_nat l) = (v / GetPageSize l) mod 512 ^ (Z.of_nat L + 1 - Z.of_nat l).
Proof.
  intros Hl Hv Hv'. pose proof (GetPageSize_pos l ltac:(lia)) as Hpos.
  assert (Hidx : forall k x, (l <= k)%nat -> 0 <= x -> index k x = (x / GetPageSize l / 512 ^ (Z.of_nat k - Z.of_nat l)) mod 512).
  { intros k x Hk Hx. rewrite index_digit by lia. rewrite (GetPageSize_step l k) by lia. rewrite Z.div_div by lia. reflexivity. }
  rewrite same_page_spec by lia. split.
  - intros H. replace (Z.of_nat L + 1 - Z.of_nat l) with (Z.of_nat (L + 1 - l)) by lia. apply digits_mod. intros j Hj.
    specialize (H (l + Z.to_nat j)%nat ltac:(lia)). rewrite !Hidx in H by lia.
    replace (Z.of_nat (l + Z.to_nat j) - Z.of_nat l) with j in H by lia. assumption.
  - intros H k Hk. rewrite !Hidx by lia. set (j := Z.of_nat k - Z.of_nat l). set (N := Z.of_nat L + 1 - Z.of_nat l) in *.
    assert (Hd : forall x, (x / 512 ^ j) mod 512 = (x mod 512 ^ N / 512 ^ j) mod 512).
    { intros x. replace (512 ^ N) with (512 ^ j * 512 ^ (N - j)) by (rewrite <- Z.pow_add_r by lia; f_equal; lia).
      assert (Hj : 0 < 512 ^ j) by (apply Z.pow_pos_nonneg; unfold j; lia).
      rewrite Z.rem_mul_r by (try apply Z.pow_pos_nonneg; unfold N, j; lia).
      rewrite (Z.mul_comm (512 ^ j)), Z.div_add by lia. rewrite (Z.div_small (x mod 512 ^ j)) by (apply Z.mod_pos_bound; assumption).
      rewrite Z.add_0_l.
      replace (512 ^ (N - j)) with (512 * 512 ^ (N - j - 1)) by (rewrite <- Z.pow_succ_r by lia; f_equal; lia).
      rewrite Z.rem_mul_r by lia. rewrite (Z.mul_comm 512), Z_mod_plus_full, Z.mod_mod by lia. reflexivity. }
    rewrite (Hd (v' / _)), (Hd (v / _)), H. reflexivity.
Qed.

(** Within a window no larger than what the tables translate, pages are told apart. *)
Lemma same_page_window L l v v' : (1 <= l <= L)%nat -> 0 <= v -> 0 <= v' ->
  - 512 ^ (Z.of_nat L + 1 - Z.of_nat l) < v' / GetPageSize l - v / GetPageSize l < 512 ^ (Z.of_nat L + 1 - Z.of_nat l) ->
  same_page L l v v' = (v' / GetPageSize l =? v / GetPageSize l).
Proof.
  intros Hl Hv Hv' Hw. apply eq_true_iff_eq. rewrite same_page_interval by assumption. rewrite Z.eqb_eq.
  set (M := 512 ^ (Z.of_nat L + 1 - Z.of_nat l)) in *. assert (0 < M) by (unfold M; lia).
  split; [| intros ->; reflexivity]. intros Hm.
  generalize dependent (v' / GetPageSize l). generalize dependent (v / GetPageSize l). intros x y Hw Hm.
  pose proof (Z.div_mod y M ltac:(lia)) as Ey. pose proof (Z.div_mod x M ltac:(lia)) as Ex. rewrite Hm in Ey.
  assert (y / M = x / M) by nia. congruence.
Qed.
