(* ===== verification/PmmMem.v ===== *)
(** The physical memory manager as the store of page tables: it discharges the interface
    [PhysMem] the HAT is proved against. *)

From S2P Require Import Prelude Maths Bitmap Random Pmm PmmProofs PmmSafety PageTable.

Definition set_mem (s : PMM) (m : gmap Z Z) : PMM := set_freelist s (freelist_head s) m (rng s).

Section Mem.
Variable hhdmBase : Z.

(** A write inside a page off the freelist keeps the manager and its free frames. *)
Lemma write_spares s f a v :
  pmm_inv hhdmBase s -> ~ page_free hhdmBase s f -> f mod PageSize = 0 ->
  f + hhdmBase <= a < f + hhdmBase + PageSize ->
  pmm_inv hhdmBase (set_mem s (<[a := v]> (mem s))) /\
  forall q, page_free hhdmBase (set_mem s (<[a := v]> (mem s))) q <-> page_free hhdmBase s q.
Proof.
  intros [runs Hinv] Hnf Hal Ha. pose proof Hinv as [[Hh1 Hh2] Hl Hz Hd Hp Hap].
  assert (Hl' : freelist_ok hhdmBase (<[a := v]> (mem s)) (freelist_head s) runs).
  { eapply freelist_frame; [exact Hl |]. intros b Hb.
    assert (Hpb : page_ok hhdmBase b) by (destruct Hl as [_ _ Hall _]; rewrite Forall_forall in Hall; auto).
    assert (b <> f + hhdmBase).
    { intros ->. apply Hnf, (page_free_runs _ _ _ _ Hinv). auto. }
    destruct Hpb as (_ & _ & Hb3). unfold PageSize in *.
    assert (Hap2 : b + 0x1000 <= f + hhdmBase \/ f + hhdmBase + 0x1000 <= b) by (Z.div_mod_to_equations; lia).
    split; apply load_insert_ne; lia. }
  assert (Hinv' : pmm_inv_runs hhdmBase (set_mem s (<[a := v]> (mem s))) runs) by (split; simpl; auto; split; assumption).
  split; [exists runs; assumption |]. intros q.
  rewrite (page_free_runs _ _ _ _ Hinv'), (page_free_runs _ _ _ _ Hinv). reflexivity.
Qed.

(** A single-page allocation touches only frames that were free. *)
Lemma Alloc_reads s p s' f a :
  pmm_inv hhdmBase s -> Alloc hhdmBase s 1 = Ok (p, s') -> ~ page_free hhdmBase s f -> f mod PageSize = 0 ->
  f + hhdmBase <= a < f + hhdmBase + PageSize -> load (mem s') a = load (mem s) a.
Proof.
  intros [runs Hinv] E Hnf Hal Ha. pose proof Hinv as [[Hh1 Hh2] Hl _ _ _ _].
  unfold Alloc in E. simpl in E. unfold Alloc_one in E.
  destruct runs as [| [b n] rest].
  { destruct Hl as [Hc _ _ _]. inversion Hc as [Hz |]. rewrite <- Hz in E. discriminate. }
  destruct (freelist_pop hhdmBase _ _ _ _ _ Hh1 Hl) as (Hpb & Hhead & _ & Hn & En & _ & _ & _ & _ & Hnext).
  rewrite Hhead in E. destruct (b =? 0); [discriminate |]. cbn [assert_ negb mbind res_bind] in E.
  assert (Hother : forall c, page_ok hhdmBase c -> c ∈ list_pages ((b, n) :: rest) -> a < c \/ c + PageSize <= a).
  { intros c (_ & _ & C3) Hc. assert (c <> f + hhdmBase).
    { intros ->. apply Hnf, (page_free_runs _ _ _ _ Hinv). auto. }
    unfold PageSize in *. Z.div_mod_to_equations. lia. }
  assert (Hb : a < b \/ b + PageSize <= a).
  { apply Hother; [assumption |]. rewrite pop_runs_pages by lia. left. }
  rewrite <- En in E.
  destruct (Z.ltb_spec 1 n) as [Hlt | Hge]; cbv zeta in E.
  - assert (Hb1 : a < b + PageSize \/ b + PageSize + PageSize <= a).
    { apply Hother; [auto |]. rewrite pop_runs_pages by lia. right. simpl.
      rewrite (proj2 (Z.ltb_lt 1 n)) by lia. rewrite list_pages_cons, run_pages_cons by lia. left. }
    destruct (Hnext Hlt) as (Hx1 & Hx2 & _). rewrite (u64_small (b + PageSize)) in E by (unfold PageSize in *; lia).
    match type of E with context [if _ then trash_page _ ?m ?r else _] => set (m1 := m) in *;
      pose proof (trash_if_frame (trashBeforeUse s) b m1 r a Hb) as Ef end.
    destruct (if trashBeforeUse s then _ else _) as [m3 r3]. injection E as <- <-. simpl in *. rewrite Ef. unfold m1.
    rewrite !load_insert_ne by (unfold PageSize in *; lia). reflexivity.
  - pose proof (trash_if_frame (trashBeforeUse s) b (mem s) (rng s) a Hb) as Ef.
    destruct (if trashBeforeUse s then _ else _) as [m3 r3]. injection E as <- <-. exact Ef.
Qed.

#[export] Program Instance pmm_mem : @PhysMem PMM (pmm_frames hhdmBase) hhdmBase := {|
  pm_read := fun s a => load (mem s) a;
  pm_write := fun s a v => set_mem s (<[a := v]> (mem s))
|}.
Next Obligation.
  intros s a v b. simpl. destruct (decide (b = a)) as [-> | Hne]; [apply load_insert_eq | apply load_insert_ne; congruence].
Qed.
Next Obligation. intros s f a v Hi Hn Hal Ha. exact (write_spares s f a v Hi Hn Hal Ha). Qed.
Next Obligation. intros s p s' f a Hi E Hn Hal Ha. exact (Alloc_reads s p s' f a Hi E Hn Hal Ha). Qed.
Next Obligation.
  intros s p s' Hi E. destruct (Alloc_single_inv hhdmBase s p s' Hi E) as (_ & _ & _ & Hr & Hf & _).
  specialize (Hf p ltac:(apply in_block_one; reflexivity)). destruct Hi as [runs Hinv].
  apply (page_free_runs _ _ _ _ Hinv) in Hf as [Hin | Hz].
  - destruct (inv_list _ _ _ Hinv) as [_ _ Hp _]. rewrite Forall_forall in Hp. destruct (Hp _ Hin) as (_ & ? & _). assumption.
  - destruct Hz as (z & Hz & i & Hi & -> & _). destruct (inv_zone_phys _ _ _ Hinv z Hz) as [_ Hb]. unfold PageSize in *. lia.
Qed.
End Mem.
