(* ===== verification/HatX86.v ===== *)
(** The HAT of x86_64 ([kernel/arch/x86_64/Hat.cpp]): four or five levels of page tables.
    The TLB flushes ([INVLPG]) have no effect on the tables and are left out. *)

From S2P Require Import Prelude Maths Pmm PmmSafety PageTable.

Module X86.

(** [HatFlags]. *)
Definition HatWrite : Z := Z.shiftl 1 1.
Definition HatUser : Z := Z.shiftl 1 2.
Definition HatGlobal : Z := Z.shiftl 1 8.
Definition HatExecute : Z := Z.shiftl 1 63.

Definition PresentFlag : Z := 1.
Definition SizeFlag : Z := Z.shiftl 1 7.
Definition NxFlag : Z := Z.shiftl 1 63.

(** What [HatInit] reads from the processor. *)
Record Mmu : Type := mkMmu {
  pagingLevels : nat;
  modeCount : nat;
  nx : bool;
  globalPages : bool
}.

(** A map; [isKernel] is [map == &kernelMap]. *)
Record HatMap : Type := mkMap { root : Z; generation : Z; isKernel : bool }.

Definition bump (map : HatMap) (b : bool) : HatMap :=
  if b then mkMap (root map) (u32 (generation map + 1)) (isKernel map) else map.

Section Hat.
Context {A : Type} `{!FrameAllocator A} {hhdmBase : Z} `{!PhysMem A hhdmBase}.
Variable mmu : Mmu.

Definition addrMask : Z := Z.land (u64 (Z.shiftl 1 (9 * Z.of_nat (pagingLevels mmu) + 12)) - 1) (not64 0xFFF).

Definition present (e : Z) : bool := negb (Z.land e PresentFlag =? 0).
Definition large (l : nat) (e : Z) : bool := (l <=? modeCount mmu)%nat && negb (Z.land e SizeFlag =? 0).
Definition entry_addr (e : Z) : Z := Z.land e addrMask.
Definition table_entry (newPt : Z) : Z := Z.lor (Z.land addrMask newPt) (Z.lor PresentFlag HatWrite).

Definition WalkTables (s : A) (rt vaddr : Z) : WalkResult :=
  PageTable.WalkTables (hhdmBase := hhdmBase) (pagingLevels mmu) present large entry_addr s rt vaddr.

(** The flags part of an entry, shared by [HatDoMap] and [HatSyncMap] but for the size bit. *)
Definition with_nx (flags e : Z) : Z := if nx mmu && (Z.land NxFlag flags =? 0) then Z.lor e NxFlag else e.
Definition without_global (e : Z) : Z := if globalPages mmu then e else Z.land e (not64 (Z.shiftl 1 5)).

Definition leaf_entry (paddr : Z) (selectedSize : nat) (flags : Z) : Z :=
  let e := Z.lor (Z.land flags 0xFFF) PresentFlag in
  let e := Z.lor e (Z.land paddr addrMask) in
  let e := if (1 <? selectedSize)%nat then Z.lor e SizeFlag else e in
  without_global (with_nx flags e).

Definition HatDoMap (s : A) (map : HatMap) (vaddr paddr : Z) (mode : nat) (flags : Z) : res (bool * A * HatMap) :=
  if (modeCount mmu <=? mode)%nat then Ok (false, s, map)
  else
    let selectedSize := S mode in
    let path := WalkTables s (root map) vaddr in
    if complete path then Ok (false, s, map)
    else
      '(p, s) ← extend (hhdmBase := hhdmBase) table_entry (pagingLevels mmu) s (level path) (pte path) selectedSize vaddr;
      let s := pm_write s p (leaf_entry paddr selectedSize flags) in
      Ok (true, s, bump map (isKernel map)).

(** The physical address and the mode of the mapping that was removed. *)
Definition HatDoUnmap (s : A) (map : HatMap) (vaddr : Z) : option (Z * nat) * A * HatMap :=
  let path := WalkTables s (root map) vaddr in
  if negb (complete path) then (None, s, map)
  else
    let paddr := Z.land (pm_read s (pte path)) addrMask in
    let mode := pred (level path) in
    let s := pm_write s (pte path) 0 in
    (Some (paddr, mode), s, bump map (isKernel map && (level path =? pagingLevels mmu)%nat)).

Definition HatGetMap (s : A) (map : HatMap) (vaddr : Z) : option (Z * nat) :=
  let path := WalkTables s (root map) vaddr in
  if negb (complete path) then None
  else
    let offsetMask := GetPageSize (level path) - 1 in
    Some (Z.lor (Z.land (pm_read s (pte path)) addrMask) (Z.land vaddr offsetMask), pred (level path)).

Definition HatSyncMap (s : A) (map : HatMap) (vaddr : Z) (paddr flags : option Z) : bool * A :=
  let path := WalkTables s (root map) vaddr in
  if negb (complete path) then (false, s)
  else
    let e := pm_read s (pte path) in
    let e := match paddr with Some p => Z.lor (Z.land e (not64 addrMask)) (Z.land p addrMask) | None => e end in
    let e :=
      match flags with
      | Some fl =>
          let newFlags := Z.lor (Z.land fl 0xFFF) PresentFlag in
          let newFlags := if (1 <? level path)%nat then Z.lor newFlags PageSize else newFlags in
          let newFlags := without_global (with_nx fl newFlags) in
          Z.lor (Z.land e addrMask) newFlags
      | None => e
      end in
    (true, pm_write s (pte path) e).

(** [HatCreateMap]: the lower half of a fresh root table is cleared. *)
Definition HatCreateMap (s : A) : res (HatMap * A) :=
  '(rt, s) ← fa_alloc s;
  Ok (mkMap rt 0 false, zero_words (hhdmBase := hhdmBase) (PageWords / 2) s (u64 (rt + hhdmBase))).

(** [SyncWithMasterMap]: the upper half of the kernel's root table is copied. *)
Fixpoint copy_entries (n : nat) (s : A) (dest source i : Z) : A :=
  match n with
  | O => s
  | S n' => copy_entries n' (pm_write s (dest + 8 * i) (pm_read s (source + 8 * i))) dest source (i + 1)
  end.

Definition SyncWithMasterMap (s : A) (kernelMap map : HatMap) : A * HatMap :=
  let source := u64 (root kernelMap + hhdmBase) in
  let dest := u64 (root map + hhdmBase) in
  (copy_entries (PageWords / 2) s dest source (PageTableEntries / 2),
   mkMap (root map) (generation kernelMap) (isKernel map)).

(** [CleanupPageTable]: every present entry is followed, whatever its level; the recursion
    has no bound of its own. *)
Fixpoint cleanup_entries (rec : A -> Z -> res A) (n : nat) (s : A) (pt i : Z) : res A :=
  match n with
  | O => Ok s
  | S n' =>
      let e := pm_read s (pt + 8 * i) in
      s ← (if present e then rec s (u64 (Z.land e addrMask + hhdmBase)) else Ok s);
      cleanup_entries rec n' s pt (i + 1)
  end.

Fixpoint CleanupPageTable (fuel : nat) (s : A) (pt : Z) : res A :=
  if pt =? 0 then Ok s
  else
    match fuel with
    | O => OutOfFuel
    | S fuel' =>
        s ← cleanup_entries (CleanupPageTable fuel') PageWords s pt 0;
        fa_release s (u64 (pt - hhdmBase))
    end.

Definition HatDestroyMap (fuel : nat) (s : A) (map : HatMap) : res A :=
  CleanupPageTable fuel s (u64 (root map + hhdmBase)).

(** The direct map of [HatInit]: [for (i = 0; i < hhdmLength; i += size)]. *)
Fixpoint map_hhdm (fuel : nat) (s : A) (map : HatMap) (hhdmLength i : Z) (mode : nat) : res (A * HatMap) :=
  if i <? hhdmLength then
    match fuel with
    | O => OutOfFuel
    | S fuel' =>
        '(_, s, map) ← HatDoMap s map (u64 (hhdmBase + i)) i mode (Z.lor HatWrite HatGlobal);
        map_hhdm fuel' s map hhdmLength (u64 (i + GetPageSize (S mode))) mode
    end
  else Ok (s, map).

(** [while (GetPageSize(hhdmPageSize) > hhdmLength) hhdmPageSize--;] *)
Fixpoint hhdm_page_size (l : nat) (hhdmLength : Z) : nat :=
  match l with
  | O => O
  | S l' => if hhdmLength <? GetPageSize l then hhdm_page_size l' hhdmLength else l
  end.

(** [HatInit]: the kernel's root table and the direct map, and the adjusted [hhdmLength].
    [modeCount] of the [Mmu] is the [maxTranslationLevel] there. *)
Definition HatInit (fuel : nat) (s : A) (hhdmLength : Z) : res (A * HatMap * Z) :=
  '(rt, s) ← fa_alloc s;
  let s := zero_words (hhdmBase := hhdmBase) PageWords s (u64 (rt + hhdmBase)) in
  _ ← assert_ (GetPageSize 1 <=? hhdmLength);
  let size := hhdm_page_size (modeCount mmu) hhdmLength in
  '(s, map) ← map_hhdm fuel s (mkMap rt 0 true) hhdmLength 0 (pred size);
  Ok (s, map, AlignUp hhdmLength (GetPageSize size)).
End Hat.
End X86.
