(* ===== verification/HatX86Proofs.v ===== *)
(** What the x86_64 HAT does to translations. *)

From S2P Require Import Prelude Maths Flags Pmm PmmSafety PageTable HatX86.

Module X86Proofs.
Import X86.

Section Bits.
Variable mmu : Mmu.
Hypothesis levels_ok : pagingLevels mmu = 4%nat \/ pagingLevels mmu = 5%nat.
Local Abbreviation L := (Z.of_nat (pagingLevels mmu)).
Local Abbreviation addrMask := (addrMask mmu).

Lemma L_range : 4 <= L <= 5.
Proof. destruct levels_ok as [-> | ->]; lia. Qed.

Lemma addrMask_bit i : 0 <= i -> Z.testbit addrMask i = (12 <=? i) && (i <? 12 + 9 * L).
Proof.
  intros Hi. assert (E : addrMask = Z.shiftl (Z.ones (9 * L)) 12).
  { unfold X86.addrMask. destruct levels_ok as [-> | ->]; reflexivity. }
  rewrite E, Z.shiftl_spec by assumption. pose proof L_range. destruct (Z.leb_spec 12 i) as [Hge | Hlt]; simpl.
  - rewrite Z.testbit_ones by lia. rewrite (proj2 (Z.leb_le 0 (i - 12))) by lia. simpl.
    apply eq_true_iff_eq. rewrite !Z.ltb_lt. lia.
  - apply Z.testbit_neg_r. lia.
Qed.

(** A physical address an entry of level [l] can hold. *)
Definition phys_ok (l : nat) (p : Z) : Prop := 0 <= p < 2 ^ (12 + 9 * L) /\ p mod GetPageSize l = 0.

Lemma GetPageSize_pow l : (1 <= l)%nat -> GetPageSize l = 2 ^ (12 + 9 * (Z.of_nat l - 1)).
Proof. intros Hl. unfold GetPageSize. rewrite Z.shiftl_1_l. reflexivity. Qed.

Lemma aligned_low p k i : 0 <= i < k -> p mod 2 ^ k = 0 -> Z.testbit p i = false.
Proof.
  intros Hi Hp. rewrite <- (Z.mod_pow2_bits_low p k i) by lia. rewrite Hp. apply Z.bits_0.
Qed.

Lemma land_addrMask p : 0 <= p < 2 ^ (12 + 9 * L) -> p mod 2 ^ 12 = 0 -> Z.land p addrMask = p.
Proof.
  intros Hp Hm. apply Z.bits_inj'. intros i Hi. rewrite Z.land_spec, addrMask_bit by assumption.
  destruct (Z.leb_spec 12 i); simpl; [| rewrite (aligned_low p 12) by (assumption || lia); reflexivity].
  destruct (Z.ltb_spec i (12 + 9 * L)); [apply andb_true_r |].
  rewrite (testbit_high (12 + 9 * L)) by (pose proof L_range; lia). reflexivity.
Qed.

Lemma phys_ok_page l p : (1 <= l)%nat -> phys_ok l p -> p mod 2 ^ 12 = 0.
Proof.
  intros Hl [_ Hp]. rewrite GetPageSize_pow in Hp by assumption.
  apply Z.mod_divide in Hp; [| apply Z.pow_nonzero; lia]. apply Z.mod_divide; [lia |].
  etrans; [| exact Hp]. exists (2 ^ (9 * (Z.of_nat l - 1))). rewrite <- Z.pow_add_r by lia. f_equal. lia.
Qed.

Lemma low_bits_bit fl i : 0 <= i -> Z.testbit (Z.land fl 0xFFF) i = (i <? 12) && Z.testbit fl i.
Proof.
  intros Hi. rewrite Z.land_spec. change 0xFFF with (Z.ones 12). rewrite Z.testbit_ones by lia.
  rewrite (proj2 (Z.leb_le 0 i)) by lia. simpl. apply andb_comm.
Qed.

Lemma testbit_one i : 0 <= i -> Z.testbit 1 i = (i =? 0).
Proof. intros Hi. change 1 with (2 ^ 0) at 1. rewrite Z.pow2_bits_eqb by lia. apply Z.eqb_sym. Qed.

(** Bits of the entry [HatDoMap] writes, inside the word. *)
Lemma leaf_entry_bit paddr sel fl i : 0 <= i < 64 ->
  Z.testbit (leaf_entry mmu paddr sel fl) i =
  (((i <? 12) && Z.testbit fl i || (i =? 0) || Z.testbit (Z.land paddr addrMask) i || ((1 <? sel)%nat && (i =? 7))
    || (nx mmu && (Z.land NxFlag fl =? 0) && (i =? 63))) && (globalPages mmu || negb (i =? 5))).
Proof.
  intros Hi. unfold leaf_entry, without_global, with_nx, PresentFlag, SizeFlag, NxFlag. rewrite !Z.shiftl_1_l.
  assert (Hn : Z.testbit (not64 (2 ^ 5)) i = negb (i =? 5)).
  { rewrite not64_testbit by (unfold flags_ok, two64; lia). rewrite Z.pow2_bits_eqb by lia. rewrite Z.eqb_sym. reflexivity. }
  destruct (globalPages mmu), (nx mmu && (Z.land (2 ^ 63) fl =? 0)), (1 <? sel)%nat; simpl negb;
    rewrite ?Z.land_spec, ?Hn, ?Z.lor_spec, ?low_bits_bit, ?testbit_one, ?Z.pow2_bits_eqb by lia;
    rewrite ?(Z.eqb_sym 7 i), ?(Z.eqb_sym 63 i); cbn [andb orb];
    rewrite ?Z.land_spec, ?orb_false_r, ?andb_true_r; reflexivity.
Qed.

Lemma leaf_entry_present paddr sel fl : present (leaf_entry mmu paddr sel fl) = true.
Proof.
  unfold present, PresentFlag. change 1 with (Flags.flag_mask 0). fold (Flags.Has (leaf_entry mmu paddr sel fl) 0).
  rewrite Has_testbit by lia. rewrite leaf_entry_bit by lia. cbn. rewrite !orb_true_r. cbn. rewrite ?orb_true_r. reflexivity.
Qed.

Lemma leaf_entry_large paddr sel fl :
  (1 < sel)%nat -> (sel <= modeCount mmu)%nat -> large mmu sel (leaf_entry mmu paddr sel fl) = true.
Proof.
  intros Hs Hm. unfold large, SizeFlag. rewrite (proj2 (Nat.leb_le _ _)) by assumption. cbn [andb].
  change (Z.shiftl 1 7) with (Flags.flag_mask 7). fold (Flags.Has (leaf_entry mmu paddr sel fl) 7).
  rewrite Has_testbit by lia. rewrite leaf_entry_bit by lia. rewrite (proj2 (Nat.ltb_lt _ _)) by assumption. cbn.
  rewrite !orb_true_r. cbn. rewrite ?orb_true_r. reflexivity.
Qed.

Lemma leaf_entry_addr paddr sel fl : (1 <= sel)%nat -> phys_ok sel paddr ->
  Z.land (leaf_entry mmu paddr sel fl) addrMask = paddr.
Proof.
  intros Hs Hp. pose proof (phys_ok_page sel paddr Hs Hp) as Hal. destruct Hp as [Hr _].
  rewrite <- (land_addrMask paddr Hr Hal) at 2. apply Z.bits_inj'. intros i Hi.
  rewrite (Z.land_spec (leaf_entry _ _ _ _)), addrMask_bit by assumption. pose proof L_range as HL.
  destruct (Z.leb_spec 12 i) as [H12 | H12]; cbn [andb].
  2:{ rewrite andb_false_r. rewrite land_addrMask, (aligned_low paddr 12) by (assumption || lia). reflexivity. }
  destruct (Z.ltb_spec i (12 + 9 * L)) as [HiL | HiL].
  2:{ rewrite andb_false_r. rewrite land_addrMask, (testbit_high (12 + 9 * L)) by (assumption || lia). reflexivity. }
  rewrite leaf_entry_bit by lia. rewrite (proj2 (Z.ltb_ge i 12)) by lia.
  rewrite (proj2 (Z.eqb_neq i 0)), (proj2 (Z.eqb_neq i 7)), (proj2 (Z.eqb_neq i 63)), (proj2 (Z.eqb_neq i 5)) by lia.
  rewrite !andb_false_r, !orb_false_r, !orb_true_r, !andb_true_r. reflexivity.
Qed.

Lemma table_entry_bit p i : 0 <= i -> Z.testbit (table_entry mmu p) i = Z.testbit (Z.land p addrMask) i || (i =? 0) || (i =? 1).
Proof.
  intros Hi. unfold table_entry, PresentFlag, HatWrite. rewrite Z.shiftl_1_l, !Z.lor_spec, testbit_one, Z.pow2_bits_eqb by lia.
  rewrite (Z.land_comm addrMask p), (Z.eqb_sym 1 i). destruct (Z.testbit (Z.land p addrMask) i); reflexivity.
Qed.

Lemma table_entry_format l p : (1 < l)%nat -> 0 <= p < 2 ^ (12 + 9 * L) -> p mod 2 ^ 12 = 0 ->
  present (table_entry mmu p) = true /\ large mmu l (table_entry mmu p) = false /\ entry_addr mmu (table_entry mmu p) = p.
Proof.
  intros Hl Hp Hal. pose proof L_range as HL. split_and!.
  - unfold present, PresentFlag. change 1 with (Flags.flag_mask 0). fold (Flags.Has (table_entry mmu p) 0).
    rewrite Has_testbit, table_entry_bit by lia. rewrite orb_true_r. reflexivity.
  - unfold large, SizeFlag. change (Z.shiftl 1 7) with (Flags.flag_mask 7). fold (Flags.Has (table_entry mmu p) 7).
    rewrite Has_testbit, table_entry_bit by lia. rewrite land_addrMask, (aligned_low p 12) by (assumption || lia). apply andb_false_r.
  - unfold entry_addr. rewrite <- (land_addrMask p Hp Hal) at 2. apply Z.bits_inj'. intros i Hi.
    rewrite (Z.land_spec (table_entry _ _)), table_entry_bit, !Z.land_spec, addrMask_bit by assumption.
    destruct (Z.leb_spec 12 i); cbn [andb]; [| rewrite !andb_false_r; reflexivity].
    rewrite (proj2 (Z.eqb_neq i 0)), (proj2 (Z.eqb_neq i 1)), !orb_false_r by lia.
    destruct (Z.testbit p i), (i <? 12 + 9 * L); reflexivity.
Qed.

(** The offset of an address in its page joins the page's base. *)
Lemma join_offset l p v : (1 <= l)%nat -> phys_ok l p ->
  Z.lor p (Z.land v (GetPageSize l - 1)) = p + v mod GetPageSize l.
Proof.
  intros Hl [Hr Hp]. rewrite GetPageSize_pow in * by assumption. set (k := 12 + 9 * (Z.of_nat l - 1)) in *.
  rewrite land_mask_mod by lia. pose proof (Z.div_mod p (2 ^ k) ltac:(lia)) as Hdm. rewrite Hp, Z.add_0_r in Hdm.
  rewrite Hdm at 1. rewrite Z.lor_comm, lor_fields; [lia | lia |]. apply Z.mod_pos_bound. lia.
Qed.
End Bits.

Section Ops.
Context {A : Type} `{!FrameAllocator A} {hhdmBase : Z} `{!PhysMem A hhdmBase}.
Variable mmu : Mmu.
Hypothesis levels_ok : pagingLevels mmu = 4%nat \/ pagingLevels mmu = 5%nat.
Hypothesis modes_ok : (modeCount mmu <= 3)%nat.
Hypothesis hhdm_pos : 0 <= hhdmBase.
(** Every direct-mapped frame has an address an entry can hold. *)
Hypothesis hhdm_high : two64 <= hhdmBase + 2 ^ (12 + 9 * Z.of_nat (pagingLevels mmu)).
Local Abbreviation addrMask := (addrMask mmu).
Local Abbreviation tabs := (tables (hhdmBase := hhdmBase) (pagingLevels mmu) present (large mmu) (entry_addr mmu)).
Local Abbreviation lookup_pte := (lookup_pte (hhdmBase := hhdmBase) (pagingLevels mmu) present (large mmu) (entry_addr mmu)).
Local Abbreviation WalkTables := (X86.WalkTables (hhdmBase := hhdmBase) mmu).
Local Abbreviation HatDoMap := (X86.HatDoMap (hhdmBase := hhdmBase) mmu).
Local Abbreviation HatDoUnmap := (X86.HatDoUnmap (hhdmBase := hhdmBase) mmu).
Local Abbreviation HatGetMap := (X86.HatGetMap (hhdmBase := hhdmBase) mmu).
Local Abbreviation HatSyncMap := (X86.HatSyncMap (hhdmBase := hhdmBase) mmu).
Local Abbreviation same_page := (same_page (pagingLevels mmu)).

Lemma levels_pos : (1 <= pagingLevels mmu)%nat.
Proof. destruct levels_ok as [-> | ->]; repeat constructor. Qed.

Lemma zero_absent : present 0 = false.
Proof. reflexivity. Qed.

Lemma table_ok l p : (1 < l)%nat -> table_frame (hhdmBase := hhdmBase) p ->
  present (table_entry mmu p) = true /\ large mmu l (table_entry mmu p) = false /\ entry_addr mmu (table_entry mmu p) = p.
Proof.
  intros Hl (F1 & F2 & F3). apply table_entry_format; auto. split; [assumption |]. unfold PageSize in *. lia.
Qed.

(** What [HatGetMap] makes of an entry. *)
Definition translate (v : Z) (r : option (Z * nat)) : option (Z * nat) :=
  match r with
  | Some (e, l) => Some (Z.lor (Z.land e addrMask) (Z.land v (GetPageSize l - 1)), pred l)
  | None => None
  end.

Lemma HatGetMap_lookup s map v : HatGetMap s map v = translate v (lookup_pte s (root map) v).
Proof.
  unfold X86.HatGetMap, PageTable.lookup_pte, X86.WalkTables. destruct (complete _); reflexivity.
Qed.

(** The address of a walk's final entry, and its presence. *)
Lemma walk_final s rt T v : tabs s rt T ->
  exists l a, final (hhdmBase := hhdmBase) (pagingLevels mmu) present (large mmu) (entry_addr mmu) s rt v l a /\ (1 <= l)%nat /\
    WalkTables s rt v = mkWalk l (a + hhdmBase + 8 * index l v) (present (entry (hhdmBase := hhdmBase) s a (index l v))).
Proof. intros H. unfold X86.WalkTables. exact (WalkTables_final _ _ _ _ hhdm_pos levels_pos s rt T v H). Qed.

Lemma map_spec s map T v p mode fl b s' map' :
  tabs s (root map) T -> phys_ok mmu (S mode) p -> (S mode <= level (WalkTables s (root map) v))%nat ->
  HatDoMap s map v p mode fl = Ok (b, s', map') ->
  exists T', tabs s' (root map) T' /\ root map' = root map /\ (forall q, fa_free s' q -> fa_free s q) /\
  (forall c l, T' !! c = Some l -> T !! c = Some l \/ (S mode <= l)%nat) /\
  if b then HatGetMap s map v = None /\ forall v', HatGetMap s' map v' =
      if same_page (S mode) v v' then Some (p + v' mod GetPageSize (S mode), mode) else HatGetMap s map v'
  else s' = s /\ ((modeCount mmu <= mode)%nat \/ HatGetMap s map v <> None).
Proof.
  intros H Hp Hlvl E. unfold X86.HatDoMap in E. destruct (Nat.leb_spec (modeCount mmu) mode) as [Hm | Hm].
  { injection E as <- <- <-. exists T. auto 10. }
  destruct (walk_final s (root map) T v H) as (l & a & Hf & Hl & Ew).
  assert (Hnone : HatGetMap s map v = None <-> present (entry (hhdmBase := hhdmBase) s a (index l v)) = false).
  { rewrite HatGetMap_lookup. rewrite (lookup_pte_final _ _ _ _ hhdm_pos levels_pos s (root map) T v l a H Hf). cbv zeta.
    destruct (present _); split; intros; try discriminate; reflexivity. }
  rewrite Ew in E, Hlvl. cbn [complete level pte] in E, Hlvl.
  destruct (present (entry (hhdmBase := hhdmBase) s a (index l v))) eqn:Ep.
  { injection E as <- <- <-. exists T. split_and!; auto. right. intros Hc. apply Hnone in Hc. discriminate. }
  destruct (extend (hhdmBase := hhdmBase) _ _ _ _ _ _ _) as [[q s1] | |] eqn:Ex; try discriminate.
  cbn [mbind res_bind] in E. injection E as <- <- <-.
  destruct (extend_spec _ _ _ _ _ hhdm_pos levels_pos zero_absent table_ok (root map) v (S mode) ltac:(lia)
    _ s T l a q s1 H Hf Ep Hlvl Ex) as (T' & c & Ht & Hfc & -> & Hlook & Hfree & Hlv).
  set (e := leaf_entry mmu p (S mode) fl).
  assert (Hlarge : present e = true -> large mmu (S mode) e = true \/ S mode = 1%nat).
  { intros _. destruct mode as [| m]; [auto |]. left. apply leaf_entry_large; auto; lia. }
  destruct (leaf_write_lookup _ _ _ _ (table_entry mmu) hhdm_pos levels_pos s1 (root map) T' v (S mode) c e Ht Hfc Hlarge) as (Ht' & Hfree' & Hlook').
  exists T'. split; [exact Ht' |]. split; [unfold bump; destruct (isKernel map); reflexivity |].
  split; [intros x Hx; apply Hfree, Hfree', Hx |]. split; [exact Hlv |]. split; [apply Hnone; reflexivity |]. intros v'.
  rewrite !HatGetMap_lookup, Hlook', Hlook. destruct (same_page (S mode) v v'); [| reflexivity].
  unfold e. rewrite leaf_entry_present by assumption. unfold translate. rewrite leaf_entry_addr by (auto; lia).
  rewrite (join_offset mmu levels_ok (S mode) p v') by (auto; lia). reflexivity.
Qed.

(** Whatever is mapped, the tables stay tables and no frame is released. *)
Lemma map_keeps s map T v p mode fl b s' map' :
  tabs s (root map) T -> HatDoMap s map v p mode fl = Ok (b, s', map') ->
  (exists T', tabs s' (root map) T') /\ root map' = root map /\ (forall q, fa_free s' q -> fa_free s q).
Proof.
  intros H E. unfold X86.HatDoMap in E. destruct (Nat.leb_spec (modeCount mmu) mode) as [Hm | Hm].
  { injection E as <- <- <-. eauto. }
  destruct (walk_final s (root map) T v H) as (l & a & Hf & Hl & Ew).
  rewrite Ew in E. cbn [complete level pte] in E.
  destruct (present (entry (hhdmBase := hhdmBase) s a (index l v))) eqn:Ep; [injection E as <- <- <-; eauto |].
  destruct (extend (hhdmBase := hhdmBase) _ _ _ _ _ _ _) as [[q s1] | |] eqn:Ex; try discriminate.
  cbn [mbind res_bind] in E. injection E as <- <- <-.
  assert (Hlvl : (S mode <= l)%nat).
  { destruct (Nat.lt_ge_cases l (S mode)) as [Hlt |]; [exfalso; eapply extend_below; eassumption | assumption]. }
  destruct (extend_spec _ _ _ _ _ hhdm_pos levels_pos zero_absent table_ok (root map) v (S mode) ltac:(lia)
    _ s T l a q s1 H Hf Ep Hlvl Ex) as (T' & c & Ht & Hfc & -> & _ & Hfree & _).
  destruct (leaf_write_lookup _ _ _ _ (table_entry mmu) hhdm_pos levels_pos s1 (root map) T' v (S mode) c (leaf_entry mmu p (S mode) fl) Ht Hfc)
    as (Ht' & Hfree' & _).
  { intros _. destruct mode as [| m]; [auto |]. left. apply leaf_entry_large; auto; lia. }
  split; [exists T'; exact Ht' |]. split; [unfold bump; destruct (isKernel map); reflexivity |].
  intros x Hx. apply Hfree, Hfree', Hx.
Qed.

Lemma unmap_spec s map T v r s' map' :
  tabs s (root map) T -> HatDoUnmap s map v = (r, s', map') ->
  tabs s' (root map) T /\ root map' = root map /\ (forall q, fa_free s' q <-> fa_free s q) /\
  match r with
  | None => s' = s /\ HatGetMap s map v = None
  | Some (p, m) => HatGetMap s map v = Some (Z.lor p (Z.land v (GetPageSize (S m) - 1)), m) /\
      forall v', HatGetMap s' map v' = if same_page (S m) v v' then None else HatGetMap s map v'
  end.
Proof.
  intros H E. unfold X86.HatDoUnmap in E. destruct (walk_final s (root map) T v H) as (l & a & Hf & Hl & Ew).
  rewrite Ew in E. cbn [complete level pte] in E.
  pose proof (lookup_pte_final _ _ _ _ hhdm_pos levels_pos s (root map) T v l a H Hf) as Hlk. cbv zeta in Hlk.
  destruct (present (entry (hhdmBase := hhdmBase) s a (index l v))) eqn:Ep; cbn [negb] in E.
  2:{ injection E as <- <- <-. split; [assumption |]. split; [reflexivity |]. split; [tauto |]. split; [reflexivity |].
      rewrite HatGetMap_lookup, Hlk. reflexivity. }
  injection E as <- <- <-. destruct l as [| m]; [lia |]. cbn [pred].
  assert (Hlarge : present 0 = true -> large mmu (S m) 0 = true \/ S m = 1%nat) by discriminate.
  destruct (leaf_write_lookup _ _ _ _ (table_entry mmu) hhdm_pos levels_pos s (root map) T v (S m) a 0 H Hf Hlarge) as (Ht' & Hfree' & Hlook').
  split; [assumption |]. split; [unfold bump; destruct (_ && _); reflexivity |]. split; [assumption |]. split.
  - rewrite HatGetMap_lookup, Hlk. reflexivity.
  - intros v'. rewrite !HatGetMap_lookup, Hlook'. destruct (same_page (S m) v v'); reflexivity.
Qed.

(** ** Changing a mapping in place *)

Lemma mask_flags_ok : flags_ok addrMask.
Proof. unfold flags_ok, X86.addrMask, two64. destruct levels_ok as [-> | ->]; split; vm_compute; congruence. Qed.

Lemma land_not_mask : Z.land (not64 addrMask) addrMask = 0.
Proof.
  apply Z.bits_inj'. intros i Hi. rewrite Z.land_spec, Z.bits_0. destruct (Z.lt_ge_cases i 64).
  - rewrite not64_testbit by (apply mask_flags_ok || lia). destruct (Z.testbit addrMask i); reflexivity.
  - rewrite addrMask_bit by assumption. rewrite (proj2 (Z.ltb_ge i _)) by (pose proof (L_range mmu levels_ok); lia).
    rewrite !andb_false_r. reflexivity.
Qed.

(** The entry [HatSyncMap] leaves for a 4 KiB page. *)
Definition sync_entry (e : Z) (paddr flags : option Z) : Z :=
  let e := match paddr with Some p => Z.lor (Z.land e (not64 addrMask)) (Z.land p addrMask) | None => e end in
  match flags with
  | Some fl => Z.lor (Z.land e addrMask) (without_global mmu (with_nx mmu fl (Z.lor (Z.land fl 0xFFF) PresentFlag)))
  | None => e
  end.

Lemma flags_part fl : without_global mmu (with_nx mmu fl (Z.lor (Z.land fl 0xFFF) PresentFlag)) = leaf_entry mmu 0 1 fl.
Proof. unfold leaf_entry. rewrite Z.land_0_l, Z.lor_0_r. reflexivity. Qed.

Lemma zero_phys l : phys_ok mmu l 0.
Proof. split; [pose proof (L_range mmu levels_ok); lia | apply Zmod_0_l]. Qed.

Lemma sync_entry_addr e paddr flags :
  (forall p, paddr = Some p -> phys_ok mmu 1 p) ->
  Z.land (sync_entry e paddr flags) addrMask = match paddr with Some p => p | None => Z.land e addrMask end.
Proof.
  intros Hp. unfold sync_entry.
  assert (E : forall x, Z.land (Z.lor (Z.land x addrMask) (leaf_entry mmu 0 1 0)) addrMask = Z.land x addrMask).
  { intros x. rewrite Z.land_lor_distr_l, (leaf_entry_addr mmu levels_ok) by (apply zero_phys || lia).
    rewrite Z.lor_0_r, <- Z.land_assoc, Z.land_diag. reflexivity. }
  assert (E1 : Z.land (match paddr with Some p => Z.lor (Z.land e (not64 addrMask)) (Z.land p addrMask) | None => e end) addrMask
    = match paddr with Some p => p | None => Z.land e addrMask end).
  { destruct paddr as [p |]; [| reflexivity]. rewrite Z.land_lor_distr_l, <- !Z.land_assoc, land_not_mask, Z.land_0_r, Z.lor_0_l, Z.land_diag.
    specialize (Hp p eq_refl). apply (land_addrMask mmu levels_ok); [apply Hp | eapply (phys_ok_page mmu levels_ok 1); [lia | assumption]]. }
  destruct flags as [fl |]; [| exact E1]. rewrite flags_part, Z.land_lor_distr_l, (leaf_entry_addr mmu levels_ok) by (apply zero_phys || lia).
  rewrite Z.lor_0_r, <- Z.land_assoc, Z.land_diag. exact E1.
Qed.

Lemma present_bit e : present e = Z.testbit e 0.
Proof. unfold present, PresentFlag. change 1 with (Flags.flag_mask 0). fold (Flags.Has e 0). apply Has_testbit. lia. Qed.

Lemma sync_entry_present e paddr flags : present e = true -> present (sync_entry e paddr flags) = true.
Proof.
  intros He. unfold sync_entry. rewrite present_bit in *. destruct flags as [fl |].
  - rewrite flags_part, Z.lor_spec. pose proof (leaf_entry_present mmu levels_ok 0 1 fl) as Hl. rewrite present_bit in Hl. rewrite Hl. apply orb_true_r.
  - destruct paddr as [p |]; [| assumption]. rewrite Z.lor_spec, Z.land_spec, He, not64_testbit by (apply mask_flags_ok || lia).
    rewrite addrMask_bit by (assumption || lia). reflexivity.
Qed.

Lemma sync_spec s map T v paddr flags b s' :
  tabs s (root map) T -> (forall p, paddr = Some p -> phys_ok mmu 1 p) ->
  level (WalkTables s (root map) v) = 1%nat -> HatSyncMap s map v paddr flags = (b, s') ->
  tabs s' (root map) T /\ (forall q, fa_free s' q <-> fa_free s q) /\
  if b then exists old, HatGetMap s map v = Some (Z.lor old (Z.land v (GetPageSize 1 - 1)), 0%nat) /\
    forall v', HatGetMap s' map v' =
      if same_page 1 v v' then Some (Z.lor (default old paddr) (Z.land v' (GetPageSize 1 - 1)), 0%nat) else HatGetMap s map v'
  else s' = s /\ HatGetMap s map v = None.
Proof.
  intros H Hp Hl1 E. unfold X86.HatSyncMap in E. destruct (walk_final s (root map) T v H) as (l & a & Hf & Hl & Ew).
  rewrite Ew in E, Hl1. cbn [complete level pte] in E, Hl1. subst l.
  pose proof (lookup_pte_final _ _ _ _ hhdm_pos levels_pos s (root map) T v 1 a H Hf) as Hlk. cbv zeta in Hlk.
  destruct (present (entry (hhdmBase := hhdmBase) s a (index 1 v))) eqn:Ep; cbn [negb] in E.
  2:{ injection E as <- <-. split; [assumption |]. split; [tauto |]. split; [reflexivity |]. rewrite HatGetMap_lookup, Hlk. reflexivity. }
  change (1 <? 1)%nat with false in E. cbv iota in E. fold (entry (hhdmBase := hhdmBase) s a (index 1 v)) in E.
  set (e := entry (hhdmBase := hhdmBase) s a (index 1 v)) in *.
  assert (Hs' : s' = pm_write s (a + hhdmBase + 8 * index 1 v) (sync_entry e paddr flags) /\ b = true) by (injection E as <- <-; auto).
  destruct Hs' as [-> ->].
  destruct (leaf_write_lookup _ _ _ _ (table_entry mmu) hhdm_pos levels_pos s (root map) T v 1 a (sync_entry e paddr flags) H Hf) as (Ht' & Hfree' & Hlook');
    [auto |].
  split; [assumption |]. split; [assumption |]. exists (Z.land e addrMask). split; [rewrite HatGetMap_lookup, Hlk; reflexivity |].
  intros v'. rewrite !HatGetMap_lookup, Hlook'. destruct (same_page 1 v v'); [| reflexivity].
  rewrite (sync_entry_present e paddr flags Ep). unfold translate. rewrite sync_entry_addr by assumption.
  destruct paddr; reflexivity.
Qed.
End Ops.
End X86Proofs.
