(* ===== verification/HatX86Spec.v ===== *)
(** The contract of the x86_64 HAT: mapping, unmapping and changing a page affects the
    addresses of that page and no other; the direct map built at start-up translates every
    direct-mapped address; and two defects of the code. *)

From S2P Require Import Prelude Maths Bitmap Random Flags Pmm PmmProofs PmmSafety PageTable PmmMem HatX86 HatX86Proofs.

Module X86Spec.
Import X86 X86Proofs.

Section Init.
Context {A : Type} `{!FrameAllocator A} {hhdmBase : Z} `{!PhysMem A hhdmBase}.
Variable mmu : Mmu.
Hypothesis levels_ok : pagingLevels mmu = 4%nat \/ pagingLevels mmu = 5%nat.
Hypothesis modes_ok : (modeCount mmu <= 3)%nat.
Hypothesis hhdm_pos : 0 <= hhdmBase.
Hypothesis hhdm_high : two64 <= hhdmBase + 2 ^ (12 + 9 * Z.of_nat (pagingLevels mmu)).
Local Abbreviation L := (pagingLevels mmu).
Local Abbreviation tabs := (tables (hhdmBase := hhdmBase) L present (large mmu) (entry_addr mmu)).
Local Abbreviation HatGetMap := (X86.HatGetMap (hhdmBase := hhdmBase) mmu).
Local Abbreviation HatDoMap := (X86.HatDoMap (hhdmBase := hhdmBase) mmu).
Local Abbreviation WalkTables := (X86.WalkTables (hhdmBase := hhdmBase) mmu).
Local Abbreviation map_hhdm := (X86.map_hhdm (hhdmBase := hhdmBase) mmu).
Local Abbreviation HatInit := (X86.HatInit (hhdmBase := hhdmBase) mmu).

(** A fresh, cleared root table translates nothing. *)
Lemma fresh_tables s rt s1 : fa_inv s -> fa_alloc s = Ok (rt, s1) ->
  let s2 := zero_words (hhdmBase := hhdmBase) PageWords s1 (u64 (rt + hhdmBase)) in
  tabs s2 rt {[rt := L]} /\ (forall q, fa_free s2 q <-> fa_free s q /\ q <> rt) /\
  forall gen b v, HatGetMap s2 (mkMap rt gen b) v = None.
Proof.
  intros Hi Ea s2. destruct (fa_alloc_ok s rt s1 Hi Ea) as (Hi1 & Hp & Hal & Hpf & Hfree).
  pose proof (pm_alloc_room s rt s1 Hi Ea) as Hroom.
  assert (Eu : u64 (rt + hhdmBase) = rt + hhdmBase) by (apply u64_small; unfold PageSize in *; lia).
  assert (Hn : ~ fa_free s1 rt) by (rewrite Hfree; tauto).
  destruct (zero_words_free (hhdmBase := hhdmBase) rt Hal PageWords s1 (u64 (rt + hhdmBase)) Hi1 Hn) as [Hi2 Hfree2];
    [lia | rewrite Eu; unfold PageWords, PageSize; lia |].
  fold s2 in Hi2, Hfree2.
  assert (Hz : forall j, 0 <= j < PageTableEntries -> entry (hhdmBase := hhdmBase) s2 rt j = 0).
  { intros j Hj. unfold entry, s2. rewrite Eu. apply zero_words_inside. unfold PageWords, PageTableEntries in *. lia. }
  assert (Hnl : forall l j, 0 <= j < PageTableEntries -> ~ link (hhdmBase := hhdmBase) present (large mmu) s2 l rt j).
  { intros l j Hj (Hl & _). rewrite Hz in Hl by assumption. discriminate. }
  assert (Ht : tabs s2 rt {[rt := L]}).
  { constructor; auto.
    - apply lookup_singleton_eq.
    - intros a l [<- <-]%lookup_singleton_Some. split; [pose proof (levels_pos mmu levels_ok); lia |]. split; [split_and!; auto; lia |].
      rewrite Hfree2. assumption.
    - intros a l i [<- <-]%lookup_singleton_Some Hj Hlk. exfalso. eapply Hnl; eassumption.
    - intros a l i b k j [<- <-]%lookup_singleton_Some _ Hj _ Hlk. exfalso. eapply Hnl; eassumption. }
  split; [exact Ht |]. split; [intros q; rewrite Hfree2; apply Hfree |]. intros gen b v.
  rewrite HatGetMap_lookup. simpl root.
  assert (Hf : final (hhdmBase := hhdmBase) L present (large mmu) (entry_addr mmu) s2 rt v L rt)
    by (split; [constructor | apply Hnl, index_range]).
  rewrite (lookup_pte_final _ _ _ _ hhdm_pos (levels_pos mmu levels_ok) s2 rt _ v L rt Ht Hf), Hz by apply index_range. reflexivity.
Qed.

(** ** The direct map *)

Lemma walk_level s rt T v m : tabs s rt T -> (forall a l, T !! a = Some l -> (m <= l)%nat) ->
  (m <= level (WalkTables s rt v))%nat.
Proof.
  intros H Hm. destruct (walk_final mmu levels_ok hhdm_pos s rt T v H) as (l & a & [Hr _] & _ & ->). simpl.
  eapply Hm, reach_level; [exact H | exact Hr].
Qed.

Variable mode : nat.
Local Abbreviation size := (GetPageSize (S mode)).
Hypothesis mode_ok : (mode < modeCount mmu)%nat.
Hypothesis hhdm_aligned : hhdmBase mod size = 0.

Lemma window x y : 0 <= x -> 0 <= y -> x < two64 - hhdmBase -> y < two64 - hhdmBase ->
  same_page L (S mode) (hhdmBase + x) (hhdmBase + y) = (y / size =? x / size).
Proof.
  intros Hx Hy Hxb Hyb. pose proof (GetPageSize_pos (S mode) ltac:(lia)) as Hs.
  assert (Hd : forall z, (hhdmBase + z) / size = hhdmBase / size + z / size).
  { intros z. pose proof (Z.div_mod hhdmBase size ltac:(lia)) as E. rewrite hhdm_aligned, Z.add_0_r in E.
    rewrite E at 1. rewrite (Z.mul_comm size), Z.add_comm, Z.div_add by lia. lia. }
  assert (Hp : 512 ^ (Z.of_nat L + 1 - Z.of_nat (S mode)) * size = 2 ^ (12 + 9 * Z.of_nat L)).
  { unfold GetPageSize. rewrite Z.shiftl_1_l. change 512 with (2 ^ 9).
    assert (4 <= Z.of_nat L) by (destruct levels_ok as [-> | ->]; lia).
    rewrite <- Z.pow_mul_r, <- Z.pow_add_r by lia. f_equal. lia. }
  set (M := 512 ^ (Z.of_nat L + 1 - Z.of_nat (S mode))) in *.
  assert (Hb : forall z, 0 <= z -> z < two64 - hhdmBase -> 0 <= z / size < M).
  { intros z Hz Hzb. split; [apply Z.div_pos; lia |]. apply Z.div_lt_upper_bound; [lia |]. nia. }
  pose proof (Hb x Hx Hxb). pose proof (Hb y Hy Hyb).
  assert (HL : (4 <= L)%nat) by (destruct levels_ok as [-> | ->]; lia).
  rewrite same_page_window; rewrite ?Hd; try lia.
Qed.

Lemma map_hhdm_spec len : 0 < len -> hhdmBase + len + size <= two64 -> forall fuel s map T i s' map',
  tabs s (root map) T -> (forall a l, T !! a = Some l -> (S mode <= l)%nat) ->
  0 <= i -> i mod size = 0 -> i < len + size ->
  (forall x, 0 <= x < i -> HatGetMap s map (hhdmBase + x) = Some (x, mode)) ->
  (forall x, i <= x < two64 - hhdmBase -> HatGetMap s map (hhdmBase + x) = None) ->
  map_hhdm fuel s map len i mode = Ok (s', map') ->
  root map' = root map /\ forall x, 0 <= x < AlignUp len size -> HatGetMap s' map' (hhdmBase + x) = Some (x, mode).
Proof.
  intros Hlen Hroom. pose proof (GetPageSize_pos (S mode) ltac:(lia)) as Hs.
  assert (HL : 4 <= Z.of_nat L <= 5) by (destruct levels_ok as [-> | ->]; lia).
  assert (Hup : AlignUp len size < len + size /\ forall i, i mod size = 0 -> len <= i -> AlignUp len size <= i).
  { destruct (AlignUp_spec len size Hs ltac:(lia) ltac:(lia)) as [Hb Hm]. split; [lia |]. intros i Hi Hge.
    set (u := AlignUp len size) in *.
    pose proof (Z.div_mod u size ltac:(lia)) as Eu. pose proof (Z.div_mod i size ltac:(lia)) as Ei.
    rewrite Hm, Z.add_0_r in Eu. rewrite Hi, Z.add_0_r in Ei.
    assert (Hlt : size * (u / size) < size * (i / size + 1)) by lia. apply Z.mul_lt_mono_pos_l in Hlt; [| assumption]. nia. }
  induction fuel as [| fuel IH]; intros s map T i s' map' H HT Hi Hal Hib Hdone Htodo E; cbn [X86.map_hhdm] in E;
    (destruct (Z.ltb_spec i len) as [Hlt | Hge];
     [| injection E as <- <-; split; [reflexivity |]; intros x Hx; apply Hdone; destruct Hup as [_ Hup]; specialize (Hup i Hal Hge); lia]).
  - discriminate.
  - assert (Hih : i < two64 - hhdmBase) by lia. rewrite (u64_small (hhdmBase + i)) in E by lia.
    destruct (HatDoMap s map (hhdmBase + i) i mode (Z.lor HatWrite HatGlobal)) as [[[b s1] map1] | |] eqn:Em; try discriminate.
    cbn [mbind res_bind] in E.
    assert (Hphys : phys_ok mmu (S mode) i) by (split; [lia | assumption]).
    destruct (map_spec mmu levels_ok modes_ok hhdm_pos hhdm_high s map T (hhdmBase + i) i mode _ b s1 map1 H Hphys
      (walk_level s (root map) T _ _ H HT) Em) as (T' & Ht' & Hr' & _ & Hlv & Hb).
    destruct b; [| destruct Hb as [_ [Hc | Hc]]; [lia | exfalso; apply Hc, Htodo; lia]].
    destruct Hb as [_ Hnew]. rewrite (u64_small (i + size)) in E by lia.
    assert (Hget : forall x, HatGetMap s1 map1 x = HatGetMap s1 map x) by (intros x; unfold X86.HatGetMap; rewrite Hr'; reflexivity).
    assert (Hq : forall x, 0 <= x -> (x / size =? i / size) = (i <=? x) && (x <? i + size)).
    { intros x Hx. pose proof (Z.div_mod i size ltac:(lia)) as Ei. rewrite Hal, Z.add_0_r in Ei.
      pose proof (Z.div_mod x size ltac:(lia)) as Ex. pose proof (Z.mod_pos_bound x size ltac:(lia)).
      apply eq_true_iff_eq. rewrite andb_true_iff, Z.eqb_eq, Z.leb_le, Z.ltb_lt. split; [intros Hqq; rewrite Hqq in Ex; lia |].
      intros Hr. assert (size * (i / size) <= x < size * (i / size + 1)) by lia. symmetry. apply (Z.div_unique_pos x size (i / size) (x - i)); lia. }
    rewrite <- Hr'. apply (IH s1 map1 T' (i + size)); rewrite ?Hr'; auto; try lia.
    + intros a l Ha. destruct (Hlv a l Ha) as [Ha' | ?]; [eapply HT; eassumption | assumption].
    + rewrite <- (Z.mul_1_l size) at 1. rewrite Z_mod_plus_full. assumption.
    + intros x Hx. rewrite Hget, Hnew, window by lia. rewrite Hq by lia.
      destruct (Z.leb_spec i x); cbn [andb]; [| apply Hdone; lia]. rewrite (proj2 (Z.ltb_lt x (i + size))) by lia.
      f_equal. f_equal. rewrite Zplus_mod, hhdm_aligned, Z.add_0_l, Z.mod_mod by lia.
      pose proof (Z.div_mod i size ltac:(lia)) as Ei. rewrite Hal, Z.add_0_r in Ei.
      assert (x mod size = x - i) as ->; [| lia]. symmetry. apply (Z.mod_unique_pos x size (i / size)); lia.
    + intros x Hx. rewrite Hget, Hnew, window by lia. rewrite Hq by lia.
      rewrite (proj2 (Z.ltb_ge x (i + size))) by lia. rewrite andb_false_r. apply Htodo. lia.
Qed.
End Init.

(** ** The contract *)

(** The configurations the code supports, with the direct map in the upper half. *)
Record mmu_ok (mmu : Mmu) (hhdmBase : Z) : Prop := mkMmuOk {
  mo_levels : pagingLevels mmu = 4%nat \/ pagingLevels mmu = 5%nat;
  mo_modes : (modeCount mmu <= 3)%nat;
  mo_pos : 0 <= hhdmBase;
  mo_high : two64 <= hhdmBase + 2 ^ (12 + 9 * Z.of_nat (pagingLevels mmu))
}.

Definition well_formed {A} `{!FrameAllocator A} {hhdmBase} `{!PhysMem A hhdmBase} (mmu : Mmu) (s : A) (map : HatMap) : Prop :=
  exists T, tables (hhdmBase := hhdmBase) (pagingLevels mmu) present (large mmu) (entry_addr mmu) s (root map) T.

Section Contract.
Context {A : Type} `{!FrameAllocator A} {hhdmBase : Z} `{!PhysMem A hhdmBase}.
Variable mmu : Mmu.
Hypothesis ok : mmu_ok mmu hhdmBase.
Local Abbreviation HatGetMap := (X86.HatGetMap (hhdmBase := hhdmBase) mmu).

Lemma hhdm_page_size_spec len : forall l, GetPageSize 1 <= len -> (1 <= l)%nat ->
  (1 <= hhdm_page_size l len <= l)%nat /\ GetPageSize (hhdm_page_size l len) <= len.
Proof.
  induction l as [| l IH]; intros Hlen Hl; [lia |]. cbn [hhdm_page_size].
  destruct (Z.ltb_spec len (GetPageSize (S l))) as [Hlt | Hge]; [| lia].
  destruct l as [| l]; [lia |]. destruct (IH Hlen ltac:(lia)). lia.
Qed.

Lemma HatInit_spec fuel s len s' map' len' :
  fa_inv s -> (1 <= modeCount mmu)%nat -> 0 < len ->
  (forall l, (1 <= l <= modeCount mmu)%nat -> GetPageSize l <= len -> hhdmBase mod GetPageSize l = 0 /\ hhdmBase + len + GetPageSize l <= two64) ->
  X86.HatInit (hhdmBase := hhdmBase) mmu fuel s len = Ok (s', map', len') ->
  len <= len' /\ exists mode, (mode < modeCount mmu)%nat /\ forall x, 0 <= x < len' -> HatGetMap s' map' (hhdmBase + x) = Some (x, mode).
Proof.
  intros Hi Hmc Hlen Hal E. destruct ok as [O1 O2 O3 O4]. unfold X86.HatInit in E.
  destruct (fa_alloc s) as [[rt s1] | |] eqn:Ea; try discriminate. cbn [mbind res_bind] in E.
  destruct (Z.leb_spec (GetPageSize 1) len) as [Hmin | Hmin]; [| discriminate]. cbn [assert_ mbind res_bind] in E.
  destruct (hhdm_page_size_spec len (modeCount mmu) Hmin Hmc) as [Hsz Hfit].
  set (sz := hhdm_page_size (modeCount mmu) len) in *. destruct sz as [| mode]; [lia |]. cbn [pred] in E.
  destruct (Hal (S mode) Hsz Hfit) as [Hali Hroom].
  destruct (fresh_tables mmu O1 O2 O3 s rt s1 Hi Ea) as (Ht & _ & Hnone).
  destruct (map_hhdm mmu fuel _ _ len 0 mode) as [[s2 map2] | |] eqn:Em; try discriminate. cbn [mbind res_bind] in E.
  injection E as <- <- <-. pose proof (GetPageSize_pos (S mode) ltac:(lia)) as Hs.
  destruct (AlignUp_spec len (GetPageSize (S mode)) Hs ltac:(lia) ltac:(lia)) as [Hup _]. split; [lia |].
  exists mode. split; [lia |].
  eapply (map_hhdm_spec mmu O1 O2 O3 O4 mode ltac:(lia) Hali len Hlen Hroom fuel _ (mkMap rt 0 true) _ 0 s2 map2 Ht); auto; try lia.
  intros a l [<- <-]%lookup_singleton_Some. destruct O1 as [-> | ->]; lia.
Qed.
End Contract.
End X86Spec.

(** ** A concrete machine: sixteen free frames, four levels, 2 MiB pages *)

#[export] Instance demo_frames : FrameAllocator PMM := pmm_frames demo_hhdm.
#[export] Instance demo_mem : PhysMem PMM demo_hhdm := pmm_mem demo_hhdm.

Definition hat_mmu : X86.Mmu := X86.mkMmu 4 2 true true.
Definition hat_pmm : PMM :=
  mkPMM [] [] demo_page (<[demo_page + 8 := 16]> (<[demo_page := 0]> ∅)) (fst (XoshiroRng_ctor initState0)) false false.

Lemma hat_pmm_runs : pmm_inv_runs demo_hhdm hat_pmm [(demo_page, 16)].
Proof.
  split.
  - split; [discriminate | reflexivity].
  - set (m := mem hat_pmm).
    assert (En : entry_next m demo_page = 0) by (vm_compute; reflexivity).
    assert (Er : entry_runLength m demo_page = 16) by (vm_compute; reflexivity).
    split.
    + rewrite <- Er. constructor; [discriminate |]. rewrite En. constructor.
    + repeat constructor.
    + unfold page_ok. apply (bool_decide_unpack _). vm_compute. exact I.
    + apply (bool_decide_unpack _). vm_compute. exact I.
  - constructor.
  - exact I.
  - intros z Hz. inversion Hz.
  - intros a z _ Hz. inversion Hz.
Qed.

Lemma hat_pmm_inv : pmm_inv demo_hhdm hat_pmm.
Proof. eexists. exact hat_pmm_runs. Qed.

Lemma hat_pmm_ready : fa_inv hat_pmm.
Proof. exact hat_pmm_inv. Qed.

Lemma hat_mmu_ok : X86Spec.mmu_ok hat_mmu demo_hhdm.
Proof. constructor; simpl; [auto | lia | discriminate | discriminate]. Qed.

(** The machine after a root table was set up, and after a page was mapped in it. *)
Definition hat_fresh : PMM * X86.HatMap :=
  match Pmm.Alloc demo_hhdm hat_pmm 1 with
  | Ok (rt, s) => (zero_words (hhdmBase := demo_hhdm) PageWords s (u64 (rt + demo_hhdm)), X86.mkMap rt 0 false)
  | _ => (hat_pmm, X86.mkMap 0 0 false)
  end.
Definition hat_mapped : PMM * X86.HatMap :=
  match X86.HatDoMap (hhdmBase := demo_hhdm) hat_mmu (fst hat_fresh) (snd hat_fresh) 0x400000 0x20000 0 X86.HatWrite with
  | Ok (_, s, map) => (s, map)
  | _ => hat_fresh
  end.

Lemma hat_fresh_ok : X86Spec.well_formed (hhdmBase := demo_hhdm) hat_mmu (fst hat_fresh) (snd hat_fresh).
Proof.
  unfold hat_fresh. destruct (Pmm.Alloc demo_hhdm hat_pmm 1) as [[rt s] | |] eqn:E; [| vm_compute in E; discriminate ..].
  destruct hat_mmu_ok as [O1 O2 O3 O4].
  destruct (X86Spec.fresh_tables (hhdmBase := demo_hhdm) hat_mmu O1 O2 O3 hat_pmm rt s hat_pmm_ready E) as (Ht & _). eexists. exact Ht.
Qed.

(** ** The theorems *)

(** C16: a mapping [HatDoMap] creates translates every address of its page to the physical page
    and leaves every other translation as it was; the tables stay well formed. *)
Theorem hat_map_translates {A} `{!FrameAllocator A} {hhdmBase} `{!PhysMem A hhdmBase} mmu (s : A) map v p mode fl s' map' :
  X86Spec.mmu_ok mmu hhdmBase -> X86Spec.well_formed (hhdmBase := hhdmBase) mmu s map -> X86Proofs.phys_ok mmu (S mode) p ->
  (S mode <= level (X86.WalkTables (hhdmBase := hhdmBase) mmu s (X86.root map) v))%nat ->
  X86.HatDoMap (hhdmBase := hhdmBase) mmu s map v p mode fl = Ok (true, s', map') ->
  X86Spec.well_formed (hhdmBase := hhdmBase) mmu s' map' /\
  X86.HatGetMap (hhdmBase := hhdmBase) mmu s map v = None /\
  forall v', X86.HatGetMap (hhdmBase := hhdmBase) mmu s' map' v' =
    if same_page (X86.pagingLevels mmu) (S mode) v v' then Some (p + v' mod GetPageSize (S mode), mode)
    else X86.HatGetMap (hhdmBase := hhdmBase) mmu s map v'.
Proof.
  intros [O1 O2 O3 O4] [T H] Hp Hl E.
  destruct (X86Proofs.map_spec mmu O1 O2 O3 O4 s map T v p mode fl true s' map' H Hp Hl E) as (T' & Ht & Hr & _ & _ & Hn & Hnew).
  split; [exists T'; rewrite Hr; exact Ht |]. split; [exact Hn |]. intros v'. rewrite <- Hnew. unfold X86.HatGetMap. rewrite Hr. reflexivity.
Qed.

(** C17: [HatDoUnmap] reports the physical page and mode that [HatGetMap] found, removes the
    translation of exactly that page, and keeps the tables well formed; where nothing is
    mapped it changes nothing. *)
Theorem hat_unmap_translates {A} `{!FrameAllocator A} {hhdmBase} `{!PhysMem A hhdmBase} mmu (s : A) map v r s' map' :
  X86Spec.mmu_ok mmu hhdmBase -> X86Spec.well_formed (hhdmBase := hhdmBase) mmu s map ->
  X86.HatDoUnmap (hhdmBase := hhdmBase) mmu s map v = (r, s', map') ->
  X86Spec.well_formed (hhdmBase := hhdmBase) mmu s' map' /\
  match r with
  | None => s' = s /\ X86.HatGetMap (hhdmBase := hhdmBase) mmu s map v = None
  | Some (p, m) =>
      X86.HatGetMap (hhdmBase := hhdmBase) mmu s map v = Some (Z.lor p (Z.land v (GetPageSize (S m) - 1)), m) /\
      forall v', X86.HatGetMap (hhdmBase := hhdmBase) mmu s' map' v' =
        if same_page (X86.pagingLevels mmu) (S m) v v' then None else X86.HatGetMap (hhdmBase := hhdmBase) mmu s map v'
  end.
Proof.
  intros [O1 O2 O3 O4] [T H] E.
  destruct (X86Proofs.unmap_spec mmu O1 O2 O3 s map T v r s' map' H E) as (Ht & Hr & _ & Hres).
  split; [exists T; rewrite Hr; exact Ht |]. destruct r as [[p m] |]; [| exact Hres].
  destruct Hres as [Hg Hnew]. split; [exact Hg |]. intros v'. rewrite <- Hnew. unfold X86.HatGetMap. rewrite Hr. reflexivity.
Qed.

(** On a 4 KiB page [HatSyncMap] replaces the physical page, or keeps it when none is
    given, for the addresses of that page only. *)
Theorem hat_sync_small_page {A} `{!FrameAllocator A} {hhdmBase} `{!PhysMem A hhdmBase} mmu (s : A) map v paddr flags s' :
  X86Spec.mmu_ok mmu hhdmBase -> X86Spec.well_formed (hhdmBase := hhdmBase) mmu s map ->
  (forall p, paddr = Some p -> X86Proofs.phys_ok mmu 1 p) ->
  level (X86.WalkTables (hhdmBase := hhdmBase) mmu s (X86.root map) v) = 1%nat ->
  X86.HatSyncMap (hhdmBase := hhdmBase) mmu s map v paddr flags = (true, s') ->
  X86Spec.well_formed (hhdmBase := hhdmBase) mmu s' map /\
  exists old, X86.HatGetMap (hhdmBase := hhdmBase) mmu s map v = Some (Z.lor old (Z.land v (GetPageSize 1 - 1)), 0%nat) /\
    forall v', X86.HatGetMap (hhdmBase := hhdmBase) mmu s' map v' =
      if same_page (X86.pagingLevels mmu) 1 v v' then Some (Z.lor (default old paddr) (Z.land v' (GetPageSize 1 - 1)), 0%nat)
      else X86.HatGetMap (hhdmBase := hhdmBase) mmu s map v'.
Proof.
  intros [O1 O2 O3 O4] [T H] Hp Hl E.
  destruct (X86Proofs.sync_spec mmu O1 O2 O3 s map T v paddr flags true s' H Hp Hl E) as (Ht & _ & Hres).
  split; [exists T; exact Ht | exact Hres].
Qed.

(** C18: after [HatInit] every address of the direct map, up to the adjusted length, translates
    to the physical address it stands for. *)
Theorem hat_init_direct_map {A} `{!FrameAllocator A} {hhdmBase} `{!PhysMem A hhdmBase} mmu fuel (s : A) len s' map' len' :
  X86Spec.mmu_ok mmu hhdmBase -> fa_inv s -> (1 <= X86.modeCount mmu)%nat -> 0 < len ->
  (forall l, (1 <= l <= X86.modeCount mmu)%nat -> GetPageSize l <= len ->
     hhdmBase mod GetPageSize l = 0 /\ hhdmBase + len + GetPageSize l <= two64) ->
  X86.HatInit (hhdmBase := hhdmBase) mmu fuel s len = Ok (s', map', len') ->
  len <= len' /\ exists mode, (mode < X86.modeCount mmu)%nat /\
    forall x, 0 <= x < len' -> X86.HatGetMap (hhdmBase := hhdmBase) mmu s' map' (hhdmBase + x) = Some (x, mode).
Proof. intros Hok. apply (X86Spec.HatInit_spec mmu Hok). Qed.

(** [HatSyncMap] with new flags destroys a large page: it sets bit 12 of the entry instead
    of the size bit, so the walk follows the entry as if it were a table. On the machine
    above, address 16 of the direct map translates to 16 before and no longer after. *)
Theorem hat_sync_large_page_lost :
  match X86.HatInit (hhdmBase := demo_hhdm) hat_mmu 8 hat_pmm 0x600000 with
  | Ok (s, map, _) =>
      X86.HatGetMap (hhdmBase := demo_hhdm) hat_mmu s map (demo_hhdm + 0x10) = Some (0x10, 1%nat) /\
      let '(done, s') := X86.HatSyncMap (hhdmBase := demo_hhdm) hat_mmu s map (demo_hhdm + 0x10) None (Some X86.HatWrite) in
      done = true /\ X86.HatGetMap (hhdmBase := demo_hhdm) hat_mmu s' map (demo_hhdm + 0x10) <> Some (0x10, 1%nat)
  | _ => False
  end.
Proof. vm_compute. repeat split; congruence. Qed.

(** The frames the next [n] single-page allocations hand out. *)
Fixpoint next_frames (n : nat) (s : PMM) : list Z :=
  match n with
  | O => []
  | S n' => match Pmm.Alloc demo_hhdm s 1 with Ok (p, s) => p :: next_frames n' s | _ => [] end
  end.

(** [HatDestroyMap] follows the entries of the lowest tables too and hands the mapped data
    frames to the physical memory manager: the frame 0x20000 of the map above, which is no
    page table, is handed out again after the four tables. *)
Theorem hat_destroy_frees_mapped_frames :
  X86.HatGetMap (hhdmBase := demo_hhdm) hat_mmu (fst hat_mapped) (snd hat_mapped) 0x400000 = Some (0x20000, 0%nat) /\
  match X86.HatDestroyMap (hhdmBase := demo_hhdm) hat_mmu 8 (fst hat_mapped) (snd hat_mapped) with
  | Ok s => next_frames 5 s = [0x1000; 0x2000; 0x3000; 0x4000; 0x20000]
  | _ => False
  end.
Proof. vm_compute. split; reflexivity. Qed.

(** ** Witnesses *)

Lemma hat_map_translates_witness : exists s' map',
  X86.HatDoMap (hhdmBase := demo_hhdm) hat_mmu (fst hat_fresh) (snd hat_fresh) 0x400000 0x20000 0 X86.HatWrite = Ok (true, s', map') /\
  X86.HatGetMap (hhdmBase := demo_hhdm) hat_mmu s' map' 0x400123 = Some (0x20123, 0%nat).
Proof.
  destruct (X86.HatDoMap (hhdmBase := demo_hhdm) hat_mmu (fst hat_fresh) (snd hat_fresh) 0x400000 0x20000 0 X86.HatWrite)
    as [[[b s'] map'] | |] eqn:E.
  - assert (b = true) as ->.
    { transitivity (match X86.HatDoMap (hhdmBase := demo_hhdm) hat_mmu (fst hat_fresh) (snd hat_fresh) 0x400000 0x20000 0 X86.HatWrite
        with Ok (b, _, _) => b | _ => true end); [rewrite E; reflexivity | vm_compute; reflexivity]. }
    exists s', map'. split; [reflexivity |].
    assert (Hp : X86Proofs.phys_ok hat_mmu 1 0x20000) by (split; [vm_compute; split; [discriminate | reflexivity] | reflexivity]).
    assert (Hl : (1 <= level (X86.WalkTables (hhdmBase := demo_hhdm) hat_mmu (fst hat_fresh) (X86.root (snd hat_fresh)) 0x400000))%nat)
      by (vm_compute; lia).
    destruct (hat_map_translates (hhdmBase := demo_hhdm) hat_mmu (fst hat_fresh) (snd hat_fresh) 0x400000 0x20000 0 X86.HatWrite s' map'
      hat_mmu_ok hat_fresh_ok Hp Hl E) as (_ & _ & Hnew).
    rewrite Hnew. reflexivity.
  - exfalso. assert (Hc : match X86.HatDoMap (hhdmBase := demo_hhdm) hat_mmu (fst hat_fresh) (snd hat_fresh) 0x400000 0x20000 0 X86.HatWrite
      with Panic => False | _ => True end) by (vm_compute; exact I). rewrite E in Hc. exact Hc.
  - exfalso. assert (Hc : match X86.HatDoMap (hhdmBase := demo_hhdm) hat_mmu (fst hat_fresh) (snd hat_fresh) 0x400000 0x20000 0 X86.HatWrite
      with OutOfFuel => False | _ => True end) by (vm_compute; exact I). rewrite E in Hc. exact Hc.
Defined.

Lemma hat_mapped_ok : X86Spec.well_formed (hhdmBase := demo_hhdm) hat_mmu (fst hat_mapped) (snd hat_mapped).
Proof.
  unfold hat_mapped.
  destruct (X86.HatDoMap (hhdmBase := demo_hhdm) hat_mmu (fst hat_fresh) (snd hat_fresh) 0x400000 0x20000 0 X86.HatWrite)
    as [[[b s'] map'] | |] eqn:E; [| apply hat_fresh_ok ..].
  destruct hat_mmu_ok as [O1 O2 O3 O4], hat_fresh_ok as [T HT].
  assert (Hp : X86Proofs.phys_ok hat_mmu 1 0x20000) by (split; [vm_compute; split; [discriminate | reflexivity] | reflexivity]).
  assert (Hl : (1 <= level (X86.WalkTables (hhdmBase := demo_hhdm) hat_mmu (fst hat_fresh) (X86.root (snd hat_fresh)) 0x400000))%nat)
    by (vm_compute; lia).
  destruct (X86Proofs.map_spec (hhdmBase := demo_hhdm) hat_mmu O1 O2 O3 O4 (fst hat_fresh) (snd hat_fresh) T _ _ _ _ b s' map' HT Hp Hl E) as (T' & Ht & Hr & _).
  exists T'. simpl. rewrite Hr. exact Ht.
Qed.

Lemma hat_unmap_translates_witness : exists s' map',
  X86.HatDoUnmap (hhdmBase := demo_hhdm) hat_mmu (fst hat_mapped) (snd hat_mapped) 0x400000 = (Some (0x20000, 0%nat), s', map') /\
  X86.HatGetMap (hhdmBase := demo_hhdm) hat_mmu s' map' 0x400123 = None.
Proof.
  destruct (X86.HatDoUnmap (hhdmBase := demo_hhdm) hat_mmu (fst hat_mapped) (snd hat_mapped) 0x400000) as [[r s'] map'] eqn:E.
  assert (r = Some (0x20000, 0%nat)) as ->.
  { transitivity (fst (fst (X86.HatDoUnmap (hhdmBase := demo_hhdm) hat_mmu (fst hat_mapped) (snd hat_mapped) 0x400000)));
      [rewrite E; reflexivity | vm_compute; reflexivity]. }
  exists s', map'. split; [reflexivity |].
  destruct (hat_unmap_translates (hhdmBase := demo_hhdm) hat_mmu (fst hat_mapped) (snd hat_mapped) 0x400000 _ s' map'
    hat_mmu_ok hat_mapped_ok E) as (_ & _ & Hnew).
  rewrite Hnew. reflexivity.
Defined.

Lemma hat_sync_small_page_witness : exists s',
  X86.HatSyncMap (hhdmBase := demo_hhdm) hat_mmu (fst hat_mapped) (snd hat_mapped) 0x400000 (Some 0x30000) (Some X86.HatUser) = (true, s') /\
  X86.HatGetMap (hhdmBase := demo_hhdm) hat_mmu s' (snd hat_mapped) 0x400123 = Some (0x30123, 0%nat).
Proof.
  destruct (X86.HatSyncMap (hhdmBase := demo_hhdm) hat_mmu (fst hat_mapped) (snd hat_mapped) 0x400000 (Some 0x30000) (Some X86.HatUser))
    as [b s'] eqn:E.
  assert (b = true) as ->.
  { transitivity (fst (X86.HatSyncMap (hhdmBase := demo_hhdm) hat_mmu (fst hat_mapped) (snd hat_mapped) 0x400000 (Some 0x30000) (Some X86.HatUser)));
      [rewrite E; reflexivity | vm_compute; reflexivity]. }
  exists s'. split; [reflexivity |].
  assert (Hp : forall p, Some 0x30000 = Some p -> X86Proofs.phys_ok hat_mmu 1 p)
    by (intros p [= <-]; split; [vm_compute; split; [discriminate | reflexivity] | reflexivity]).
  assert (Hl : level (X86.WalkTables (hhdmBase := demo_hhdm) hat_mmu (fst hat_mapped) (X86.root (snd hat_mapped)) 0x400000) = 1%nat)
    by (vm_compute; reflexivity).
  destruct (hat_sync_small_page (hhdmBase := demo_hhdm) hat_mmu (fst hat_mapped) (snd hat_mapped) 0x400000 _ _ s'
    hat_mmu_ok hat_mapped_ok Hp Hl E) as (_ & old & _ & Hnew).
  rewrite Hnew. reflexivity.
Defined.

Lemma hat_init_direct_map_witness : exists s' map',
  X86.HatInit (hhdmBase := demo_hhdm) hat_mmu 8 hat_pmm 0x600000 = Ok (s', map', 0x600000) /\
  exists mode, X86.HatGetMap (hhdmBase := demo_hhdm) hat_mmu s' map' (demo_hhdm + 0x5FFFFF) = Some (0x5FFFFF, mode).
Proof.
  assert (Hlen : match X86.HatInit (hhdmBase := demo_hhdm) hat_mmu 8 hat_pmm 0x600000 with Ok (_, _, len') => len' = 0x600000 | _ => False end)
    by (vm_compute; reflexivity).
  destruct (X86.HatInit (hhdmBase := demo_hhdm) hat_mmu 8 hat_pmm 0x600000) as [[[s' map'] len'] | |] eqn:E; [| contradiction ..].
  subst len'. exists s', map'. split; [reflexivity |].
  destruct (hat_init_direct_map (hhdmBase := demo_hhdm) hat_mmu 8 hat_pmm 0x600000 s' map' 0x600000) as (_ & mode & _ & H).
  - exact hat_mmu_ok.
  - exact hat_pmm_ready.
  - simpl. lia.
  - lia.
  - intros l Hl _. simpl in Hl. assert (l = 1%nat \/ l = 2%nat) as [-> | ->] by lia; split; vm_compute; congruence.
  - exact E.
  - exists mode. apply H. lia.
Defined.
