(* ===== verification/HatRiscv.v ===== *)
(** The HAT of riscv64 ([kernel/arch/riscv64/Hat.cpp]): Sv39, Sv48 or Sv57 page tables. The
    fences ([SFENCE_VMA]) have no effect on the tables and are left out. *)

From S2P Require Import Prelude Maths Bitmap Random Flags Pmm PmmProofs PmmSafety PageTable PmmMem HatX86Spec.

Module Riscv.

(** [HatFlags]. *)
Definition HatWrite : Z := Z.shiftl 1 2.
Definition HatExecute : Z := Z.shiftl 1 3.
Definition HatUser : Z := Z.shiftl 1 4.
Definition HatGlobal : Z := Z.shiftl 1 5.

Definition ValidFlag : Z := Z.shiftl 1 0.
Definition ReadFlag : Z := Z.shiftl 1 1.

Record HatMap : Type := mkMap { root : Z; generation : Z; isKernel : bool }.

Definition bump (map : HatMap) (b : bool) : HatMap :=
  if b then mkMap (root map) (u32 (generation map + 1)) (isKernel map) else map.

(** [HatInit] reads the number of levels from [satp]. *)
Definition levels_of_satp (satp : Z) : nat := Z.to_nat (Z.shiftr (Z.land satp (Z.shiftl 0xF 60)) 60 - 5).

Section Hat.
Context {A : Type} `{!FrameAllocator A} {hhdmBase : Z} `{!PhysMem A hhdmBase}.
Variable pagingLevels : nat.

Definition modeCount : nat := pred pagingLevels.
Definition addrMask : Z := Z.land (u64 (Z.shiftl 1 (9 * Z.of_nat pagingLevels + 12)) - 1) (not64 0x3FF).

Definition present (e : Z) : bool := negb (Z.land e ValidFlag =? 0).
Definition large (_ : nat) (e : Z) : bool := negb (Z.land e 14 =? 0).
Definition entry_addr (e : Z) : Z := u64 (Z.shiftl (Z.land e addrMask) 2).
Definition table_entry (newPt : Z) : Z := Z.lor (Z.land (Z.shiftr newPt 2) addrMask) ValidFlag.

Definition WalkTables (s : A) (rt vaddr : Z) : WalkResult :=
  PageTable.WalkTables (hhdmBase := hhdmBase) pagingLevels present large entry_addr s rt vaddr.

Definition leaf_entry (paddr flags : Z) : Z :=
  let e := Z.land (Z.shiftr paddr 2) addrMask in
  let e := Z.lor e (Z.lor ValidFlag ReadFlag) in
  Z.lor e (Z.land flags 0x3FF).

Definition HatDoMap (s : A) (map : HatMap) (vaddr paddr : Z) (mode : nat) (flags : Z) : res (bool * A * HatMap) :=
  if (modeCount <=? mode)%nat then Ok (false, s, map)
  else
    let selectedSize := S mode in
    let path := WalkTables s (root map) vaddr in
    if complete path then Ok (false, s, map)
    else
      '(p, s) ← extend (hhdmBase := hhdmBase) table_entry pagingLevels s (level path) (pte path) selectedSize vaddr;
      Ok (true, pm_write s p (leaf_entry paddr flags), bump map (isKernel map)).

Definition HatDoUnmap (s : A) (map : HatMap) (vaddr : Z) : option (Z * nat) * A * HatMap :=
  let path := WalkTables s (root map) vaddr in
  if negb (complete path) then (None, s, map)
  else
    let paddr := u64 (Z.shiftl (Z.land (pm_read s (pte path)) addrMask) 2) in
    (Some (paddr, pred (level path)), pm_write s (pte path) 0, bump map (isKernel map)).

Definition HatGetMap (s : A) (map : HatMap) (vaddr : Z) : option (Z * nat) :=
  let path := WalkTables s (root map) vaddr in
  if negb (complete path) then None
  else
    let offsetMask := GetPageSize (level path) - 1 in
    Some (Z.lor (u64 (Z.shiftl (Z.land (pm_read s (pte path)) addrMask) 2)) (Z.land vaddr offsetMask), pred (level path)).

Definition HatSyncMap (s : A) (map : HatMap) (vaddr : Z) (paddr flags : option Z) : bool * A * HatMap :=
  let path := WalkTables s (root map) vaddr in
  if negb (complete path) then (false, s, map)
  else
    let e := pm_read s (pte path) in
    let e := match paddr with
             | Some p => Z.lor (Z.land e (not64 addrMask)) (Z.land (Z.shiftr p 2) addrMask)
             | None => e
             end in
    let e := match flags with
             | Some fl => Z.lor (Z.lor (Z.lor (Z.land e addrMask) (Z.land fl 0x3FF)) ReadFlag) ValidFlag
             | None => e
             end in
    (true, pm_write s (pte path) e, bump map (isKernel map)).
End Hat.
End Riscv.

Module RiscvProofs.
Import Riscv.

Section Bits.
Variable L : nat.
Hypothesis levels_ok : L = 3%nat \/ L = 4%nat \/ L = 5%nat.
Local Abbreviation LZ := (Z.of_nat L).
Local Abbreviation addrMask := (addrMask L).

Lemma rv_addrMask_bit i : 0 <= i -> Z.testbit addrMask i = (10 <=? i) && (i <? 12 + 9 * LZ).
Proof.
  intros Hi. assert (E : addrMask = Z.shiftl (Z.ones (2 + 9 * LZ)) 10).
  { unfold Riscv.addrMask. destruct levels_ok as [-> | [-> | ->]]; reflexivity. }
  rewrite E, Z.shiftl_spec by assumption. destruct (Z.leb_spec 10 i) as [Hge | Hlt]; simpl.
  - rewrite Z.testbit_ones by lia. rewrite (proj2 (Z.leb_le 0 (i - 10))) by lia. simpl.
    apply eq_true_iff_eq. rewrite !Z.ltb_lt. lia.
  - apply Z.testbit_neg_r. lia.
Qed.

(** A physical address an entry can hold: page-aligned for its level, within the field. *)
Definition phys_ok (l : nat) (p : Z) : Prop := 0 <= p < 2 ^ (14 + 9 * LZ) /\ p mod GetPageSize l = 0.

Lemma rv_phys_ok_page l p : (1 <= l)%nat -> phys_ok l p -> p mod 2 ^ 12 = 0.
Proof.
  intros Hl [_ Hp]. unfold GetPageSize in Hp. rewrite Z.shiftl_1_l in Hp.
  apply Z.mod_divide in Hp; [| apply Z.pow_nonzero; lia]. apply Z.mod_divide; [lia |].
  etrans; [| exact Hp]. exists (2 ^ (9 * (Z.of_nat l - 1))). rewrite <- Z.pow_add_r by lia. f_equal. lia.
Qed.

Lemma rv_aligned_low p k i : 0 <= i < k -> p mod 2 ^ k = 0 -> Z.testbit p i = false.
Proof. intros Hi Hp. rewrite <- (Z.mod_pow2_bits_low p k i) by lia. rewrite Hp. apply Z.bits_0. Qed.

(** An entry whose bits from 10 up are the page number gives the address back. *)
Lemma field_addr e p : 0 <= p < 2 ^ (14 + 9 * LZ) -> p mod 2 ^ 12 = 0 ->
  (forall i, 10 <= i < 12 + 9 * LZ -> Z.testbit e i = Z.testbit p (i + 2)) -> entry_addr L e = p.
Proof.
  intros Hp Hal He. assert (HL : 3 <= LZ <= 5) by (destruct levels_ok as [-> | [-> | ->]]; lia).
  assert (E : Z.shiftl (Z.land e addrMask) 2 = p).
  { apply Z.bits_inj'. intros i Hi. rewrite Z.shiftl_spec by assumption.
    destruct (Z.lt_ge_cases i 2) as [Hlt | Hge].
    { rewrite Z.testbit_neg_r by lia. rewrite (rv_aligned_low p 12) by (assumption || lia). reflexivity. }
    rewrite Z.land_spec, rv_addrMask_bit by lia. destruct (Z.leb_spec 10 (i - 2)) as [H10 | H10]; cbn [andb].
    2:{ rewrite andb_false_r, (rv_aligned_low p 12) by (assumption || lia). reflexivity. }
    destruct (Z.ltb_spec (i - 2) (12 + 9 * LZ)) as [Hu | Hu].
    - rewrite He by lia. rewrite andb_true_r. f_equal. lia.
    - rewrite andb_false_r, (testbit_high (14 + 9 * LZ)) by lia. reflexivity. }
  unfold entry_addr. rewrite E. apply u64_small. split; [lia |].
  apply (Z.lt_le_trans _ (2 ^ (14 + 9 * LZ))); [lia |]. change two64 with (2 ^ 64). apply Z.pow_le_mono_r; lia.
Qed.

Lemma page_field p i : 0 <= i -> Z.testbit (Z.land (Z.shiftr p 2) addrMask) i =
  Z.testbit p (i + 2) && ((10 <=? i) && (i <? 12 + 9 * LZ)).
Proof. intros Hi. rewrite Z.land_spec, Z.shiftr_spec, rv_addrMask_bit by assumption. reflexivity. Qed.

Lemma low10 fl i : 0 <= i -> Z.testbit (Z.land fl 0x3FF) i = (i <? 10) && Z.testbit fl i.
Proof.
  intros Hi. rewrite Z.land_spec. change 0x3FF with (Z.ones 10). rewrite Z.testbit_ones by lia.
  rewrite (proj2 (Z.leb_le 0 i)) by lia. simpl. apply andb_comm.
Qed.

Lemma small_const c i : 0 <= c < 2 ^ 10 -> 10 <= i -> Z.testbit c i = false.
Proof. intros Hc Hi. apply (testbit_high 10); lia. Qed.

Lemma rv_leaf_entry_addr l p fl : (1 <= l)%nat -> phys_ok l p -> entry_addr L (leaf_entry L p fl) = p.
Proof.
  intros Hl Hp. apply field_addr; [apply Hp | apply (rv_phys_ok_page l); assumption |]. intros i Hi.
  unfold leaf_entry. rewrite !Z.lor_spec, page_field, low10 by lia.
  rewrite (proj2 (Z.leb_le 10 i)), (proj2 (Z.ltb_lt i (12 + 9 * LZ))), (proj2 (Z.ltb_ge i 10)) by lia.
  rewrite (small_const ValidFlag), (small_const ReadFlag) by (first [lia | vm_compute; split; congruence]). cbn. rewrite !orb_false_r. apply andb_true_r.
Qed.

Lemma rv_present_bit e : present e = Z.testbit e 0.
Proof. unfold present. change ValidFlag with (Flags.flag_mask 0). fold (Flags.Has e 0). apply Has_testbit. lia. Qed.

Lemma rv_leaf_entry_present p fl : present (leaf_entry L p fl) = true.
Proof. rewrite rv_present_bit. unfold leaf_entry. rewrite !Z.lor_spec. cbn. rewrite orb_true_r. reflexivity. Qed.

Lemma read_large l e : Z.testbit e 1 = true -> large l e = true.
Proof.
  intros He. unfold large. destruct (Z.eqb_spec (Z.land e 14) 0) as [Hz |]; [| reflexivity].
  apply (f_equal (fun z => Z.testbit z 1)) in Hz. rewrite Z.land_spec, He in Hz. discriminate.
Qed.

Lemma rv_leaf_entry_large l p fl : large l (leaf_entry L p fl) = true.
Proof. apply read_large. unfold leaf_entry. rewrite !Z.lor_spec. cbn. rewrite orb_true_r. reflexivity. Qed.

Lemma rv_table_entry_format l p : 0 <= p < 2 ^ (14 + 9 * LZ) -> p mod 2 ^ 12 = 0 ->
  present (table_entry L p) = true /\ large l (table_entry L p) = false /\ entry_addr L (table_entry L p) = p.
Proof.
  intros Hp Hal. unfold table_entry. split_and!.
  - rewrite rv_present_bit, Z.lor_spec. cbn. apply orb_true_r.
  - unfold large. replace (Z.land _ 14) with 0; [reflexivity |]. symmetry. apply Z.bits_inj'. intros i Hi.
    rewrite Z.land_spec, Z.lor_spec, page_field, Z.bits_0 by assumption. destruct (Z.leb_spec 10 i) as [H10 | H10]; cbn [andb].
    + rewrite (small_const 14) by lia. apply andb_false_r.
    + rewrite andb_false_r. cbn [orb]. destruct (Z.eq_dec i 0) as [-> | Hne]; [reflexivity |].
      change ValidFlag with (2 ^ 0). rewrite Z.pow2_bits_false by lia. reflexivity.
  - apply field_addr; auto. intros i Hi. rewrite Z.lor_spec, page_field by lia.
    rewrite (proj2 (Z.leb_le 10 i)), (proj2 (Z.ltb_lt i (12 + 9 * LZ))) by lia.
    rewrite (small_const ValidFlag) by (first [lia | vm_compute; split; congruence]). rewrite orb_false_r. apply andb_true_r.
Qed.

Lemma rv_join_offset l p v : (1 <= l)%nat -> phys_ok l p ->
  Z.lor p (Z.land v (GetPageSize l - 1)) = p + v mod GetPageSize l.
Proof.
  intros Hl [Hr Hp]. unfold GetPageSize in *. rewrite Z.shiftl_1_l in *. set (k := 12 + 9 * (Z.of_nat l - 1)) in *.
  rewrite land_mask_mod by lia. pose proof (Z.div_mod p (2 ^ k) ltac:(lia)) as Hdm. rewrite Hp, Z.add_0_r in Hdm.
  rewrite Hdm at 1. rewrite Z.lor_comm, lor_fields; [lia | lia |]. apply Z.mod_pos_bound. lia.
Qed.
End Bits.

Section Ops.
Context {A : Type} `{!FrameAllocator A} {hhdmBase : Z} `{!PhysMem A hhdmBase}.
Variable L : nat.
Hypothesis levels_ok : L = 3%nat \/ L = 4%nat \/ L = 5%nat.
Hypothesis hhdm_pos : 0 <= hhdmBase.
Hypothesis hhdm_high : two64 <= hhdmBase + 2 ^ (14 + 9 * Z.of_nat L).
Local Abbreviation tabs := (tables (hhdmBase := hhdmBase) L present large (entry_addr L)).
Local Abbreviation lookup_pte := (lookup_pte (hhdmBase := hhdmBase) L present large (entry_addr L)).
Local Abbreviation WalkTables := (Riscv.WalkTables (hhdmBase := hhdmBase) L).
Local Abbreviation HatDoMap := (Riscv.HatDoMap (hhdmBase := hhdmBase) L).
Local Abbreviation HatDoUnmap := (Riscv.HatDoUnmap (hhdmBase := hhdmBase) L).
Local Abbreviation HatGetMap := (Riscv.HatGetMap (hhdmBase := hhdmBase) L).

Lemma rv_levels_pos : (1 <= L)%nat.
Proof. destruct levels_ok as [-> | [-> | ->]]; repeat constructor. Qed.

Lemma rv_zero_absent : present 0 = false.
Proof. reflexivity. Qed.

Lemma rv_table_ok l p : (1 < l)%nat -> table_frame (hhdmBase := hhdmBase) p ->
  present (table_entry L p) = true /\ large l (table_entry L p) = false /\ entry_addr L (table_entry L p) = p.
Proof.
  intros Hl (F1 & F2 & F3). apply rv_table_entry_format; auto. split; [assumption |]. unfold PageSize in *. lia.
Qed.

Definition translate (v : Z) (r : option (Z * nat)) : option (Z * nat) :=
  match r with
  | Some (e, l) => Some (Z.lor (entry_addr L e) (Z.land v (GetPageSize l - 1)), pred l)
  | None => None
  end.

Lemma rv_HatGetMap_lookup s map v : HatGetMap s map v = translate v (lookup_pte s (root map) v).
Proof. unfold Riscv.HatGetMap, PageTable.lookup_pte, Riscv.WalkTables. destruct (complete _); reflexivity. Qed.

Lemma rv_walk_final s rt T v : tabs s rt T ->
  exists l a, final (hhdmBase := hhdmBase) L present large (entry_addr L) s rt v l a /\ (1 <= l)%nat /\
    WalkTables s rt v = mkWalk l (a + hhdmBase + 8 * index l v) (present (entry (hhdmBase := hhdmBase) s a (index l v))).
Proof. intros H. exact (WalkTables_final _ _ _ _ hhdm_pos rv_levels_pos s rt T v H). Qed.

Lemma rv_map_spec s map T v p mode fl s' map' :
  tabs s (root map) T -> phys_ok L (S mode) p -> (S mode <= level (WalkTables s (root map) v))%nat ->
  HatDoMap s map v p mode fl = Ok (true, s', map') ->
  exists T', tabs s' (root map) T' /\ root map' = root map /\ HatGetMap s map v = None /\
    forall v', HatGetMap s' map v' =
      if same_page L (S mode) v v' then Some (p + v' mod GetPageSize (S mode), mode) else HatGetMap s map v'.
Proof.
  intros H Hp Hlvl E. unfold Riscv.HatDoMap in E. destruct (Nat.leb_spec (modeCount L) mode) as [Hm | Hm]; [discriminate |].
  destruct (rv_walk_final s (root map) T v H) as (l & a & Hf & Hl & Ew).
  pose proof (lookup_pte_final _ _ _ _ hhdm_pos rv_levels_pos s (root map) T v l a H Hf) as Hlk. cbv zeta in Hlk.
  rewrite Ew in E, Hlvl. cbn [complete level pte] in E, Hlvl.
  destruct (present (entry (hhdmBase := hhdmBase) s a (index l v))) eqn:Ep; [discriminate |].
  destruct (extend (hhdmBase := hhdmBase) _ _ _ _ _ _ _) as [[q s1] | |] eqn:Ex; try discriminate.
  cbn [mbind res_bind] in E. injection E as <- <-.
  destruct (extend_spec _ _ _ _ _ hhdm_pos rv_levels_pos rv_zero_absent rv_table_ok (root map) v (S mode) ltac:(lia)
    _ s T l a q s1 H Hf Ep Hlvl Ex) as (T' & c & Ht & Hfc & -> & Hlook & _ & _).
  destruct (leaf_write_lookup _ _ _ _ (table_entry L) hhdm_pos rv_levels_pos s1 (root map) T' v (S mode) c (leaf_entry L p fl) Ht Hfc)
    as (Ht' & _ & Hlook'); [intros _; left; apply rv_leaf_entry_large |].
  exists T'. split; [exact Ht' |]. split; [unfold bump; destruct (isKernel map); reflexivity |].
  split; [rewrite rv_HatGetMap_lookup, Hlk; reflexivity |]. intros v'.
  rewrite !rv_HatGetMap_lookup, Hlook', Hlook. destruct (same_page L (S mode) v v'); [| reflexivity].
  rewrite rv_leaf_entry_present. unfold translate. rewrite (rv_leaf_entry_addr L levels_ok (S mode)) by (auto; lia).
  rewrite (rv_join_offset L levels_ok (S mode) p v') by (auto; lia). reflexivity. all: try exact levels_ok.
Qed.

Lemma rv_unmap_spec s map T v r s' map' :
  tabs s (root map) T -> HatDoUnmap s map v = (r, s', map') ->
  tabs s' (root map) T /\ root map' = root map /\
  match r with
  | None => s' = s /\ HatGetMap s map v = None
  | Some (p, m) => HatGetMap s map v = Some (Z.lor p (Z.land v (GetPageSize (S m) - 1)), m) /\
      forall v', HatGetMap s' map v' = if same_page L (S m) v v' then None else HatGetMap s map v'
  end.
Proof.
  intros H E. unfold Riscv.HatDoUnmap in E. destruct (rv_walk_final s (root map) T v H) as (l & a & Hf & Hl & Ew).
  rewrite Ew in E. cbn [complete level pte] in E.
  pose proof (lookup_pte_final _ _ _ _ hhdm_pos rv_levels_pos s (root map) T v l a H Hf) as Hlk. cbv zeta in Hlk.
  destruct (present (entry (hhdmBase := hhdmBase) s a (index l v))) eqn:Ep; cbn [negb] in E.
  2:{ injection E as <- <- <-. split; [assumption |]. split; [reflexivity |]. split; [reflexivity |].
      rewrite rv_HatGetMap_lookup, Hlk. reflexivity. }
  injection E as <- <- <-. destruct l as [| m]; [lia |]. cbn [pred].
  assert (Hlarge : present 0 = true -> large (S m) 0 = true \/ S m = 1%nat) by discriminate.
  destruct (leaf_write_lookup _ _ _ _ (table_entry L) hhdm_pos rv_levels_pos s (root map) T v (S m) a 0 H Hf Hlarge) as (Ht' & _ & Hlook').
  split; [assumption |]. split; [unfold bump; destruct (isKernel map); reflexivity |]. split.
  - rewrite rv_HatGetMap_lookup, Hlk. reflexivity.
  - intros v'. rewrite !rv_HatGetMap_lookup, Hlook'. destruct (same_page L (S m) v v'); reflexivity.
Qed.

(** A fresh, cleared root table. *)
Lemma rv_fresh_tables s rt s1 : fa_inv s -> fa_alloc s = Ok (rt, s1) ->
  tabs (zero_words (hhdmBase := hhdmBase) PageWords s1 (u64 (rt + hhdmBase))) rt {[rt := L]}.
Proof.
  intros Hi Ea. set (s2 := zero_words _ _ _). destruct (fa_alloc_ok s rt s1 Hi Ea) as (Hi1 & Hp & Hal & Hpf & Hfree).
  pose proof (pm_alloc_room s rt s1 Hi Ea) as Hroom.
  assert (Eu : u64 (rt + hhdmBase) = rt + hhdmBase) by (apply u64_small; unfold PageSize in *; lia).
  assert (Hn : ~ fa_free s1 rt) by (rewrite Hfree; tauto).
  destruct (zero_words_free (hhdmBase := hhdmBase) rt Hal PageWords s1 (u64 (rt + hhdmBase)) Hi1 Hn) as [Hi2 Hfree2];
    [lia | rewrite Eu; unfold PageWords, PageSize; lia |]. fold s2 in Hi2, Hfree2.
  assert (Hnl : forall l j, 0 <= j < PageTableEntries -> ~ link (hhdmBase := hhdmBase) present large s2 l rt j).
  { intros l j Hj (Hl & _). unfold entry, s2 in Hl. rewrite Eu, zero_words_inside in Hl by (unfold PageWords, PageTableEntries in *; lia). discriminate. }
  constructor; auto.
  - apply lookup_singleton_eq.
  - intros a l [<- <-]%lookup_singleton_Some. split; [pose proof rv_levels_pos; lia |]. split; [split_and!; auto; lia |].
    rewrite Hfree2. assumption.
  - intros a l i [<- <-]%lookup_singleton_Some Hj Hlk. exfalso. eapply Hnl; eassumption.
  - intros a l i b k j [<- <-]%lookup_singleton_Some _ Hj _ Hlk. exfalso. eapply Hnl; eassumption.
Qed.
End Ops.

Definition well_formed {A} `{!FrameAllocator A} {hhdmBase} `{!PhysMem A hhdmBase} (L : nat) (s : A) (map : HatMap) : Prop :=
  exists T, tables (hhdmBase := hhdmBase) L present large (entry_addr L) s (root map) T.
End RiscvProofs.

(** C19: on riscv64, mapping a page translates exactly the addresses of that page to it, and
    unmapping it right after restores every translation. *)
Theorem riscv_map_unmap {A} `{!FrameAllocator A} {hhdmBase} `{!PhysMem A hhdmBase} L (s : A) map v p mode fl s1 map1 r s2 map2 :
  L = 3%nat \/ L = 4%nat \/ L = 5%nat -> 0 <= hhdmBase -> two64 <= hhdmBase + 2 ^ (14 + 9 * Z.of_nat L) ->
  RiscvProofs.well_formed (hhdmBase := hhdmBase) L s map -> RiscvProofs.phys_ok L (S mode) p ->
  (S mode <= level (Riscv.WalkTables (hhdmBase := hhdmBase) L s (Riscv.root map) v))%nat ->
  Riscv.HatDoMap (hhdmBase := hhdmBase) L s map v p mode fl = Ok (true, s1, map1) ->
  Riscv.HatDoUnmap (hhdmBase := hhdmBase) L s1 map1 v = (r, s2, map2) ->
  (forall v', Riscv.HatGetMap (hhdmBase := hhdmBase) L s1 map1 v' =
     if same_page L (S mode) v v' then Some (p + v' mod GetPageSize (S mode), mode)
     else Riscv.HatGetMap (hhdmBase := hhdmBase) L s map v') /\
  (exists q, r = Some (q, mode)) /\ RiscvProofs.well_formed (hhdmBase := hhdmBase) L s2 map2 /\
  (forall v', same_page L (S mode) v v' = false ->
     Riscv.HatGetMap (hhdmBase := hhdmBase) L s2 map2 v' = Riscv.HatGetMap (hhdmBase := hhdmBase) L s map v') /\
  (forall v', same_page L (S mode) v v' = true -> Riscv.HatGetMap (hhdmBase := hhdmBase) L s2 map2 v' = None).
Proof.
  intros O1 O2 O3 [T H] Hp Hl E1 E2.
  destruct (RiscvProofs.rv_map_spec L O1 O2 O3 s map T v p mode fl s1 map1 H Hp Hl E1) as (T' & Ht & Hr & Hn & Hnew).
  assert (Ht1 : tables (hhdmBase := hhdmBase) L Riscv.present Riscv.large (Riscv.entry_addr L) s1 (Riscv.root map1) T') by (rewrite Hr; exact Ht).
  destruct (RiscvProofs.rv_unmap_spec L O1 O2 O3 s1 map1 T' v r s2 map2 Ht1 E2) as (Ht2 & Hr2 & Hres).
  assert (Hg1 : forall x, Riscv.HatGetMap (hhdmBase := hhdmBase) L s1 map1 x = Riscv.HatGetMap (hhdmBase := hhdmBase) L s1 map x)
    by (intros x; unfold Riscv.HatGetMap; rewrite Hr; reflexivity).
  assert (Hg2 : forall x, Riscv.HatGetMap (hhdmBase := hhdmBase) L s2 map2 x = Riscv.HatGetMap (hhdmBase := hhdmBase) L s2 map1 x)
    by (intros x; unfold Riscv.HatGetMap; rewrite Hr2; reflexivity).
  assert (Hvv : same_page L (S mode) v v = true) by (apply same_page_spec; reflexivity).
  assert (Hv : Riscv.HatGetMap (hhdmBase := hhdmBase) L s1 map1 v = Some (p + v mod GetPageSize (S mode), mode)) by (rewrite Hg1, Hnew, Hvv; reflexivity).
  split; [intros v'; rewrite Hg1; apply Hnew |].
  destruct r as [[q m] |]; [| exfalso; destruct Hres as [_ Hc]; congruence]. destruct Hres as [Hq Hun].
  assert (m = mode) as -> by congruence. split; [eauto |]. split; [exists T'; rewrite Hr2; exact Ht2 |].
  split; intros v' Hv'; rewrite Hg2, Hun, Hv'; [rewrite Hg1, Hnew, Hv' |]; reflexivity.
Qed.

(** ** Witness: Sv39 on the sixteen frames of [hat_pmm] *)

Definition rv_fresh : PMM * Riscv.HatMap :=
  match Pmm.Alloc demo_hhdm hat_pmm 1 with
  | Ok (rt, s) => (zero_words (hhdmBase := demo_hhdm) PageWords s (u64 (rt + demo_hhdm)), Riscv.mkMap rt 0 false)
  | _ => (hat_pmm, Riscv.mkMap 0 0 false)
  end.

Lemma rv_fresh_ok : RiscvProofs.well_formed (hhdmBase := demo_hhdm) 4 (fst rv_fresh) (snd rv_fresh).
Proof.
  unfold rv_fresh. destruct (Pmm.Alloc demo_hhdm hat_pmm 1) as [[rt s] | |] eqn:E; [| vm_compute in E; discriminate ..].
  eexists. apply (RiscvProofs.rv_fresh_tables (hhdmBase := demo_hhdm) 4 ltac:(auto) ltac:(discriminate) ltac:(discriminate) hat_pmm rt s hat_pmm_ready E).
Qed.

Lemma riscv_map_unmap_witness : exists s1 map1 s2 map2,
  Riscv.HatDoMap (hhdmBase := demo_hhdm) 4 (fst rv_fresh) (snd rv_fresh) 0x400000 0x20000 0 Riscv.HatWrite = Ok (true, s1, map1) /\
  Riscv.HatGetMap (hhdmBase := demo_hhdm) 4 s1 map1 0x400123 = Some (0x20123, 0%nat) /\
  Riscv.HatDoUnmap (hhdmBase := demo_hhdm) 4 s1 map1 0x400000 = (Some (0x20000, 0%nat), s2, map2) /\
  Riscv.HatGetMap (hhdmBase := demo_hhdm) 4 s2 map2 0x400123 = None.
Proof.
  assert (Hc : match Riscv.HatDoMap (hhdmBase := demo_hhdm) 4 (fst rv_fresh) (snd rv_fresh) 0x400000 0x20000 0 Riscv.HatWrite with
    | Ok (b, s1, map1) => b = true /\ fst (fst (Riscv.HatDoUnmap (hhdmBase := demo_hhdm) 4 s1 map1 0x400000)) = Some (0x20000, 0%nat)
    | _ => False end) by (vm_compute; split; reflexivity).
  destruct (Riscv.HatDoMap (hhdmBase := demo_hhdm) 4 (fst rv_fresh) (snd rv_fresh) 0x400000 0x20000 0 Riscv.HatWrite)
    as [[[b s1] map1] | |] eqn:E; [| contradiction ..].
  destruct Hc as [-> Hc]. destruct (Riscv.HatDoUnmap (hhdmBase := demo_hhdm) 4 s1 map1 0x400000) as [[r s2] map2] eqn:E2.
  simpl in Hc. subst r.
  assert (Hp : RiscvProofs.phys_ok 4 1 0x20000) by (split; [vm_compute; split; [discriminate | reflexivity] | reflexivity]).
  assert (Hl : (1 <= level (Riscv.WalkTables (hhdmBase := demo_hhdm) 4 (fst rv_fresh) (Riscv.root (snd rv_fresh)) 0x400000))%nat)
    by (vm_compute; lia).
  destruct (riscv_map_unmap (hhdmBase := demo_hhdm) 4 (fst rv_fresh) (snd rv_fresh) 0x400000 0x20000 0 Riscv.HatWrite s1 map1 _ s2 map2
    ltac:(auto) ltac:(discriminate) ltac:(discriminate) rv_fresh_ok Hp Hl E E2) as (Hm & _ & _ & _ & Hu).
  exists s1, map1, s2, map2. split; [reflexivity |]. split; [rewrite Hm; reflexivity |]. split; [exact E2 | apply Hu; reflexivity].
Defined.
