(* ===== verification/VmmMeta.v ===== *)
(** The metadata slabs of the virtual memory manager ([VMM::CreateMetaSlab], [AllocMeta] and
    [FreeMeta] of [kernel/memory/Vmm.cpp]): page-sized slabs with a bitmap that hand out the
    [VmRange] and [VmHole] structures. *)

From S2P Require Import Prelude Maths Bitmap Pmm.

(** ** Data *)

Inductive VmmMetaType : Type := MetaRange | MetaHole.

(** [sizeof] of the structures on the 64-bit targets: a [VmRange] holds six words and a tree
    hook of five pointers and a color, a [VmHole] three words and a hook, a slab header five
    words. *)
Definition VmmSlabSizes (type : VmmMetaType) : Z := match type with MetaRange => 96 | MetaHole => 72 end.
Definition sizeof_VmmMetaSlab : Z := 40.
Definition VmmMetaSlabPages : Z := 1.

(** A slab; the list of the slabs of a type, in the order of their [next] links, replaces
    the links. *)
Record VmmMetaSlab : Type := mkMetaSlab {
  bitmap : list Z;
  data : Z;
  free : Z;
  total : Z
}.

(** What the slabs ask of the physical memory manager: [mp_mine] are the frames handed to
    this caller, and an allocation hands out another one. *)
Class MetaPages (W : Type) : Type := {
  mp_inv : W -> Prop;
  mp_mine : W -> Z -> Prop;
  mp_alloc : W -> res (Z * W);
  mp_alloc_ok : forall w p w', mp_inv w -> mp_alloc w = Ok (p, w') ->
    mp_inv w' /\ 0 <= p /\ p mod PageSize = 0 /\ ~ mp_mine w p /\
    (forall f, mp_mine w' f <-> mp_mine w f \/ f = p)
}.

Section Meta.
Context {W : Type} `{!MetaPages W}.
Variable hhdmBase : Z.

(** ** Operations *)

Fixpoint shrink_slab (fuel : nat) (size usableSpace slabCount bitmapBytes : Z) : res (Z * Z) :=
  if (usableSpace <? u64 (slabCount * size + bitmapBytes)) && (0 <? slabCount) then
    match fuel with
    | O => OutOfFuel
    | S fuel' =>
        let slabCount := slabCount - 1 in
        shrink_slab fuel' size usableSpace slabCount (AlignUp slabCount 8 / 8)
    end
  else Ok (slabCount, bitmapBytes).

Definition CreateMetaSlab (type : VmmMetaType) (slabs : list VmmMetaSlab) (w : W)
  : res (list VmmMetaSlab * W) :=
  let size := VmmSlabSizes type in
  '(p, w) ← mp_alloc w;
  let base := u64 (p + hhdmBase) in
  let totalSpace := VmmMetaSlabPages * PageSize in
  let usableBase := AlignUp (u64 (base + sizeof_VmmMetaSlab)) size in
  let usableSpace := u64 (totalSpace - u64 (usableBase - base)) in
  let slabCount := usableSpace / size in
  let bitmapBytes := AlignUp slabCount 8 / 8 in
  '(slabCount, bitmapBytes) ← shrink_slab (Z.to_nat slabCount) size usableSpace slabCount bitmapBytes;
  _ ← assert_ (0 <? slabCount);
  let slab := mkMetaSlab (replicate (Z.to_nat bitmapBytes) 0) usableBase slabCount slabCount in
  Ok (slab :: slabs, w).

(** The first slab with free entries. *)
Fixpoint first_free (slabs : list VmmMetaSlab) : option nat :=
  match slabs with
  | [] => None
  | s :: slabs => if free s =? 0 then option_map S (first_free slabs) else Some O
  end.

Definition AllocMeta (type : VmmMetaType) (slabs : list VmmMetaSlab) (w : W)
  : res (Z * list VmmMetaSlab * W) :=
  let slabSize := VmmSlabSizes type in
  '(i, slabs, w) ←
    (match first_free slabs with
     | Some i => Ok (i, slabs, w)
     | None => '(slabs, w) ← CreateMetaSlab type slabs w; Ok (O, slabs, w)
     end);
  slab ← deref (slabs !! i);
  found ← BitmapFindClear (bitmap slab) (total slab);
  _ ← assert_ (negb (found =? total slab));
  '(_, bm) ← BitmapSet (bitmap slab) found;
  let slab' := mkMetaSlab bm (data slab) (u64 (free slab - 1)) (total slab) in
  Ok (u64 (data slab + found * slabSize), <[i := slab']> slabs, w).

(** [ASSERT_UNREACHABLE] ends the scan of a pointer no slab holds. *)
Fixpoint FreeMeta (type : VmmMetaType) (p : Z) (slabs : list VmmMetaSlab) : res (list VmmMetaSlab) :=
  let slabSize := VmmSlabSizes type in
  match slabs with
  | [] => Panic
  | slab :: rest =>
      let top := u64 (data slab + total slab * slabSize) in
      if (p <? data slab) || (top <? p) then rest ← FreeMeta type p rest; Ok (slab :: rest)
      else
        let index := (p - data slab) / slabSize in
        '(_, bm) ← BitmapClear (bitmap slab) index;
        Ok (mkMetaSlab bm (data slab) (free slab) (total slab) :: rest)
  end.

(** ** Invariant *)

(** The entries a slab has handed out. *)
Definition slab_used (type : VmmMetaType) (s : VmmMetaSlab) (a : Z) : Prop :=
  exists i, 0 <= i < total s /\ bit (bitmap s) i = true /\ a = data s + i * VmmSlabSizes type.
Definition meta_used (type : VmmMetaType) (slabs : list VmmMetaSlab) (a : Z) : Prop :=
  exists s, s ∈ slabs /\ slab_used type s a.

Definition clear_bits (bm : list Z) (n : Z) : nat := length (filter (fun i => bit bm i = false) (seqZ 0 n)).

(** A slab in the frame [f]: its entries and its bitmap lie behind the header, inside the
    page, and at least [free] of its bits are clear. *)
Record slab_ok (type : VmmMetaType) (f : Z) (s : VmmMetaSlab) : Prop := mkSlabOk {
  so_bytes : bytes_ok (bitmap s);
  so_cap : 0 < total s <= capacity (bitmap s);
  so_lo : f + hhdmBase + sizeof_VmmMetaSlab <= data s;
  so_hi : data s + total s * VmmSlabSizes type + Z.of_nat (length (bitmap s)) <= f + hhdmBase + PageSize;
  so_free : 0 <= free s <= Z.of_nat (clear_bits (bitmap s) (total s));
  so_frame : f mod PageSize = 0 /\ 0 <= f /\ f + hhdmBase + PageSize <= two64
}.

Definition meta_inv (type : VmmMetaType) (slabs : list VmmMetaSlab) (w : W) : Prop :=
  exists fs, NoDup fs /\ Forall2 (slab_ok type) fs slabs /\ forall f, f ∈ fs -> mp_mine w f.

Lemma size_range type : 0 < VmmSlabSizes type <= 96.
Proof. destruct type; simpl; lia. Qed.

(** ** Clear bits *)

Lemma filter_same (P Q : Z -> Prop) `{!forall x, Decision (P x)} `{!forall x, Decision (Q x)} (l : list Z) :
  (forall x, x ∈ l -> P x <-> Q x) -> filter P l = filter Q l.
Proof.
  intros Heq. induction l as [| x l IH]; [reflexivity |]. rewrite !filter_cons, IH by set_solver.
  pose proof (Heq x ltac:(left)) as Hx. destruct (decide (P x)), (decide (Q x)); tauto || reflexivity.
Qed.

Lemma filter_flip (P Q : Z -> Prop) `{!forall x, Decision (P x)} `{!forall x, Decision (Q x)} (l : list Z) i :
  NoDup l -> i ∈ l -> P i -> ~ Q i -> (forall x, x ∈ l -> x <> i -> P x <-> Q x) ->
  length (filter P l) = S (length (filter Q l)).
Proof.
  intros Hnd Hi HP HQ Heq. induction l as [| x l IH]; [inversion Hi |].
  apply NoDup_cons in Hnd as [Hx Hnd]. rewrite !filter_cons.
  destruct (decide (x = i)) as [-> | Hne].
  - rewrite decide_True, decide_False by assumption. simpl. f_equal. f_equal.
    apply filter_same. intros y Hy. apply Heq; set_solver.
  - apply elem_of_cons in Hi as [-> | Hi]; [congruence |].
    specialize (IH Hnd Hi ltac:(intros y Hy; apply Heq; set_solver)).
    pose proof (Heq x ltac:(left) Hne).
    destruct (decide (P x)), (decide (Q x)); simpl; tauto || auto.
Qed.

Lemma clear_bits_set bm i bm' n :
  updated bm i true bm' -> bit bm i = false -> 0 <= i < n ->
  clear_bits bm n = S (clear_bits bm' n).
Proof.
  intros (Hu & _) Hb Hi. unfold clear_bits.
  apply (filter_flip _ _ _ i); [apply NoDup_seqZ | apply elem_of_seqZ; lia | assumption | |].
  - rewrite Hu, Z.eqb_refl by lia. discriminate.
  - intros x Hx%elem_of_seqZ Hne. rewrite Hu by lia. destruct (Z.eqb_spec x i); [congruence | reflexivity].
Qed.

Lemma clear_bits_clear bm i bm' n :
  updated bm i false bm' -> 0 <= i < n -> (clear_bits bm n <= clear_bits bm' n)%nat.
Proof.
  intros (Hu & _) Hi. unfold clear_bits. destruct (bit bm i) eqn:Hb.
  - rewrite (filter_flip (fun j => bit bm' j = false) (fun j => bit bm j = false) (seqZ 0 n) i);
      [lia | apply NoDup_seqZ | apply elem_of_seqZ; lia | | congruence |].
    + rewrite Hu, Z.eqb_refl by lia. reflexivity.
    + intros x Hx%elem_of_seqZ Hne. rewrite Hu by lia. destruct (Z.eqb_spec x i); [congruence | reflexivity].
  - rewrite (filter_same (fun j => bit bm j = false) (fun j => bit bm' j = false)); [lia |].
    intros x Hx%elem_of_seqZ. rewrite Hu by lia. destruct (Z.eqb_spec x i) as [-> |]; [tauto | reflexivity].
Qed.

Lemma clear_bits_zero n len : clear_bits (replicate len 0) n = Z.to_nat n.
Proof.
  unfold clear_bits. rewrite (filter_same _ (fun _ => True)).
  - assert (Hall : forall l : list Z, filter (fun _ => True) l = l).
    { induction l as [| x l IH]; [reflexivity |]. rewrite filter_cons, decide_True, IH by auto. reflexivity. }
    rewrite Hall, length_seqZ. reflexivity.
  - intros x _. split; [auto | intros _]. unfold bit.
    destruct (replicate len 0 !! Z.to_nat (x / 8)) eqn:E; [| reflexivity].
    apply lookup_replicate in E as [-> _]. apply Z.bits_0.
Qed.

(** [BitmapFindClear] finds an entry of a slab with free entries. *)
Lemma clear_bit_exists bm n : (0 < clear_bits bm n)%nat -> exists i, 0 <= i < n /\ bit bm i = false.
Proof.
  unfold clear_bits. destruct (filter _ (seqZ 0 n)) as [| i l] eqn:E; simpl; [lia | intros _].
  assert (Hi : i ∈ filter (fun i => bit bm i = false) (seqZ 0 n)) by (rewrite E; left).
  apply list_elem_of_filter in Hi as [? Hi%elem_of_seqZ]. exists i. split; [lia | assumption].
Qed.

(** ** Creating a slab *)

Lemma shrink_slab_spec size space : forall fuel n b,
  0 < size <= 96 -> 0 <= space <= PageSize -> 0 <= n <= space -> b = AlignUp n 8 / 8 -> (Z.to_nat n <= fuel)%nat ->
  exists n' b', shrink_slab fuel size space n b = Ok (n', b') /\ 0 <= n' <= n /\ b' = AlignUp n' 8 / 8 /\
    n' * size + b' <= space /\ (n' < n -> space < (n' + 1) * size + AlignUp (n' + 1) 8 / 8).
Proof.
  unfold PageSize. induction fuel as [| fuel IH]; intros n b Hs Hsp Hn Hb Hf;
    assert (HA : n <= AlignUp n 8 < n + 8) by (apply AlignUp_spec; unfold two64; lia);
    assert (Hbb : 0 <= b <= n + 8) by (subst b; Z.div_mod_to_equations; lia);
    cbn [shrink_slab]; rewrite u64_small by (unfold two64; nia).
  - assert (n = 0) as -> by lia. rewrite andb_false_r. exists 0, b.
    assert (AlignUp 0 8 / 8 = 0) by reflexivity. repeat split; lia.
  - destruct (Z.ltb_spec space (n * size + b)) as [Hlt | Hge]; simpl;
      [| exists n, b; repeat split; try assumption; lia].
    destruct (Z.ltb_spec 0 n) as [Hp | Hz]; simpl.
    + destruct (IH (n - 1) (AlignUp (n - 1) 8 / 8)) as (n' & b' & E1 & E2 & E3 & E4 & E5); try lia.
      exists n', b'. rewrite E1. repeat split; try assumption; try lia.
      intros Hn'. destruct (Z.eq_dec n' (n - 1)) as [-> | Hne]; [| apply E5; lia].
      replace (n - 1 + 1) with n by lia. subst b. lia.
    + assert (n = 0) as -> by lia. exists 0, b. assert (AlignUp 0 8 / 8 = 0) by reflexivity.
      repeat split; try assumption; try lia.
Qed.

Lemma CreateMetaSlab_spec type slabs w p w1 :
  mp_alloc w = Ok (p, w1) -> p mod PageSize = 0 -> 0 <= p -> 0 <= hhdmBase ->
  p + hhdmBase + PageSize + PageSize <= two64 ->
  exists s, CreateMetaSlab type slabs w = Ok (s :: slabs, w1) /\ slab_ok type p s /\
    0 < free s /\ forall i, bit (bitmap s) i = false.
Proof.
  intros Ea Hal Hp Hh Hr. unfold CreateMetaSlab. rewrite Ea. cbn [mbind res_bind].
  pose proof (size_range type) as Hsz. unfold VmmMetaSlabPages, sizeof_VmmMetaSlab, PageSize in *.
  set (size := VmmSlabSizes type) in *.
  rewrite (u64_small (p + hhdmBase)) by (unfold two64 in *; lia).
  rewrite (u64_small (p + hhdmBase + 40)) by (unfold two64 in *; lia).
  destruct (AlignUp_spec (p + hhdmBase + 40) size) as [HA _]; [lia | lia | unfold two64 in *; lia |].
  set (ub := AlignUp (p + hhdmBase + 40) size) in *.
  rewrite (u64_small (ub - (p + hhdmBase))) by (unfold two64 in *; lia).
  rewrite u64_small by (unfold two64 in *; lia).
  set (space := 1 * 4096 - (ub - (p + hhdmBase))). set (n := space / size).
  assert (Hn : 0 <= n <= space) by (unfold n, space; split; [apply Z.div_pos | apply Z.div_le_upper_bound]; nia).
  assert (Hn40 : 40 <= n) by (unfold n, space; apply Z.div_le_lower_bound; lia).
  destruct (shrink_slab_spec size space (Z.to_nat n) n (AlignUp n 8 / 8)) as (n' & b' & -> & E2 & E3 & E4 & E5);
    auto; [unfold space, PageSize; lia |].
  cbn [mbind res_bind].
  assert (HA' : n' <= AlignUp n' 8 < n' + 8 /\ (AlignUp n' 8) mod 8 = 0)
    by (apply AlignUp_spec; unfold space, two64 in *; lia).
  assert (Hpos : 0 < n').
  { destruct (Z.lt_ge_cases 0 n') as [|Hz]; [assumption | exfalso]. assert (n' = 0) as -> by lia.
    assert (Hx : space < (0 + 1) * size + AlignUp (0 + 1) 8 / 8) by (apply E5; lia).
    change (AlignUp (0 + 1) 8 / 8) with 1 in Hx. unfold space in Hx. lia. }
  assert (Hb' : 0 <= b' /\ n' <= 8 * b') by (subst b'; Z.div_mod_to_equations; lia).
  destruct (Z.ltb_spec 0 n'); [| lia]. cbn.
  eexists. split; [reflexivity |]. split; [constructor; simpl |].
  - apply Forall_replicate. lia.
  - unfold capacity. rewrite length_replicate. lia.
  - unfold sizeof_VmmMetaSlab. lia.
  - rewrite length_replicate. unfold PageSize. unfold space in E4. fold size. lia.
  - rewrite clear_bits_zero. lia.
  - unfold PageSize. lia.
  - split; [simpl; lia |]. intros i. simpl. unfold bit.
    destruct (replicate _ 0 !! _) eqn:E; [| reflexivity]. apply lookup_replicate in E as [-> _]. apply Z.bits_0.
Qed.

(** ** Allocation and release *)

Hypothesis hhdm_pos : 0 <= hhdmBase.
Hypothesis hhdm_room : forall w p w', mp_inv w -> mp_alloc w = Ok (p, w') -> p + hhdmBase + PageSize + PageSize <= two64.

Lemma entry_page type f s i : slab_ok type f s -> 0 <= i < total s ->
  f + hhdmBase <= data s + i * VmmSlabSizes type < f + hhdmBase + PageSize /\
  0 < data s + i * VmmSlabSizes type < two64.
Proof.
  intros [_ _ Hlo Hhi _ (_ & Hf & Hr)] Hi. pose proof (size_range type). unfold sizeof_VmmMetaSlab in *. nia.
Qed.

Lemma slab_pages_apart f g a : f mod PageSize = 0 -> g mod PageSize = 0 ->
  f + hhdmBase <= a < f + hhdmBase + PageSize -> g + hhdmBase <= a < g + hhdmBase + PageSize -> f = g.
Proof. unfold PageSize. intros Hf Hg Ha Hb. Z.div_mod_to_equations. lia. Qed.

(** An address of a slab belongs to no other slab. *)
Lemma slab_unique type fs slabs i j s s' k a :
  NoDup fs -> Forall2 (slab_ok type) fs slabs -> slabs !! i = Some s -> slabs !! j = Some s' ->
  0 <= k < total s -> a = data s + k * VmmSlabSizes type -> slab_used type s' a -> i = j.
Proof.
  intros Hnd HF Hi Hj Hk -> (k' & Hk' & _ & Heq).
  destruct (Forall2_lookup_r _ _ _ _ _ HF Hi) as (f & Hf & Hs).
  destruct (Forall2_lookup_r _ _ _ _ _ HF Hj) as (g & Hg & Hs').
  destruct (entry_page _ _ _ k Hs Hk) as [P1 _]. destruct (entry_page _ _ _ k' Hs' Hk') as [P2 _].
  rewrite <- Heq in P2.
  assert (f = g) as -> by (eapply slab_pages_apart; eauto; [apply (so_frame _ _ _ Hs) | apply (so_frame _ _ _ Hs')]).
  eapply NoDup_lookup; eauto.
Qed.

Lemma used_lookup type slabs a : meta_used type slabs a <-> exists i s, slabs !! i = Some s /\ slab_used type s a.
Proof.
  unfold meta_used. split.
  - intros (s & (i & Hi)%list_elem_of_lookup & Hu). eauto.
  - intros (i & s & Hi & Hu). exists s. split; [apply list_elem_of_lookup; eauto | assumption].
Qed.

(** Updating one bit of one slab changes whether its entry is handed out, and nothing else. *)
Lemma used_update type fs slabs i s k v s' :
  NoDup fs -> Forall2 (slab_ok type) fs slabs -> slabs !! i = Some s -> 0 <= k < total s ->
  updated (bitmap s) k v (bitmap s') -> data s' = data s -> total s' = total s ->
  forall b, meta_used type (<[i := s']> slabs) b <->
    (meta_used type slabs b /\ b <> data s + k * VmmSlabSizes type) \/
    (v = true /\ b = data s + k * VmmSlabSizes type).
Proof.
  intros Hnd HF Hi Hk (Hu & _ & _) Hd Ht b. pose proof (size_range type) as Hsz.
  assert (Hlen : (i < length slabs)%nat) by (eapply lookup_lt_Some; eauto).
  rewrite !used_lookup. split.
  - intros (j & t & Hj & Hb). destruct (decide (i = j)) as [<- | Hij].
    + rewrite list_lookup_insert_eq in Hj by assumption. injection Hj as <-.
      destruct Hb as (k' & Hk' & Hbit & ->). rewrite Ht in Hk'. rewrite Hd. rewrite Hu in Hbit by lia.
      destruct (Z.eqb_spec k' k) as [-> | Hne]; [right; auto |].
      left. split; [exists i, s; split; [assumption | exists k'; auto] | nia].
    + rewrite list_lookup_insert_ne in Hj by assumption. left. split; [eauto |].
      intros Heq. apply Hij. eapply slab_unique; [exact Hnd | exact HF | exact Hi | exact Hj | exact Hk | exact Heq | exact Hb].
  - intros [[(j & t & Hj & Hb) Hne] | [-> ->]].
    + destruct (decide (i = j)) as [<- | Hij].
      * rewrite Hi in Hj. injection Hj as <-. exists i, s'. rewrite list_lookup_insert_eq by assumption.
        split; [reflexivity |]. destruct Hb as (k' & Hk' & Hbit & ->). exists k'. rewrite Ht, Hd.
        split; [assumption |]. split; [| reflexivity]. rewrite Hu by lia.
        destruct (Z.eqb_spec k' k) as [-> |]; [congruence | assumption].
      * exists j, t. rewrite list_lookup_insert_ne by assumption. auto.
    + exists i, s'. rewrite list_lookup_insert_eq by assumption. split; [reflexivity |].
      exists k. rewrite Ht, Hd, Hu, Z.eqb_refl by lia. auto.
Qed.

Lemma first_free_spec slabs : match first_free slabs with
  | Some i => exists s, slabs !! i = Some s /\ free s <> 0
  | None => True
  end.
Proof.
  induction slabs as [| s slabs IH]; simpl; [exact I |].
  destruct (Z.eqb_spec (free s) 0); [| exists s; auto].
  destruct (first_free slabs); simpl; auto.
Qed.

(** Taking an entry of a slab that has one. *)
Lemma take_entry type fs slabs i s :
  NoDup fs -> Forall2 (slab_ok type) fs slabs -> slabs !! i = Some s -> free s <> 0 ->
  exists k bm, BitmapFindClear (bitmap s) (total s) = Ok k /\ 0 <= k < total s /\
    BitmapSet (bitmap s) k = Ok (true, bm) /\ bit (bitmap s) k = false /\ updated (bitmap s) k true bm /\
    let s' := mkMetaSlab bm (data s) (u64 (free s - 1)) (total s) in
    Forall2 (slab_ok type) fs (<[i := s']> slabs).
Proof.
  intros Hnd HF Hi Hfree. destruct (Forall2_lookup_r _ _ _ _ _ HF Hi) as (f & Hf & Hs).
  pose proof Hs as [Hb Hc Hlo Hhi Hfr Hframe].
  destruct (BitmapFindClear_spec (bitmap s) (total s)) as (k & Ek & Hk1 & Hk2 & Hk3); [lia |].
  destruct (clear_bit_exists (bitmap s) (total s)) as (j & Hj & Hbj); [lia |].
  assert (Hlt : k < total s).
  { destruct (Z.lt_ge_cases k (total s)); [assumption |]. rewrite Hk2 in Hbj by lia. discriminate. }
  destruct (BitmapSet_spec (bitmap s) k Hb ltac:(lia)) as (bm & Es & Hu).
  rewrite (Hk3 Hlt) in Es. exists k, bm. split_and!; auto; try lia.
  assert (Hcap : 8 * Z.of_nat (length (bitmap s)) <= 8 * PageSize).
  { pose proof (size_range type). unfold sizeof_VmmMetaSlab, PageSize in *. nia. }
  assert (Hcnt : (clear_bits (bitmap s) (total s) <= Z.to_nat (total s))%nat).
  { unfold clear_bits. etrans; [apply length_filter |]. rewrite length_seqZ. lia. }
  unfold capacity, PageSize in *.
  rewrite u64_small by (unfold two64; lia). pose proof (clear_bits_set _ _ _ _ Hu (Hk3 Hlt) ltac:(split; [lia | exact Hlt])) as Hcs.
  destruct Hu as (_ & Hb' & Hl').
  rewrite <- (list_insert_id fs i f Hf). apply Forall2_insert; [assumption |].
  constructor; simpl; auto; [unfold capacity; lia | unfold PageSize; lia | lia].
Qed.

Lemma AllocMeta_spec type slabs w a slabs' w' :
  meta_inv type slabs w -> mp_inv w -> AllocMeta type slabs w = Ok (a, slabs', w') ->
  meta_inv type slabs' w' /\ mp_inv w' /\ (forall f, mp_mine w f -> mp_mine w' f) /\ 0 < a < two64 /\
  ~ meta_used type slabs a /\ (forall b, meta_used type slabs' b <-> meta_used type slabs b \/ b = a).
Proof.
  intros (fs & Hnd & HF & Hm) Hi E. unfold AllocMeta in E.
  assert (Hpre : exists i fs1 slabs1 w1, (match first_free slabs with
     | Some i => Ok (i, slabs, w)
     | None => '(slabs, w) ← CreateMetaSlab type slabs w; Ok (O, slabs, w)
     end) = Ok (i, slabs1, w1) /\ NoDup fs1 /\ Forall2 (slab_ok type) fs1 slabs1 /\
     (forall f, f ∈ fs1 -> mp_mine w1 f) /\ mp_inv w1 /\ (forall f, mp_mine w f -> mp_mine w1 f) /\
     (forall b, meta_used type slabs1 b <-> meta_used type slabs b) /\
     exists s, slabs1 !! i = Some s /\ free s <> 0).
  { pose proof (first_free_spec slabs) as Hff. destruct (first_free slabs) as [i |].
    - exists i, fs, slabs, w. split_and!; auto.
    - clear Hff. cbn [mbind res_bind] in E. destruct (mp_alloc w) as [[p w1] | |] eqn:Ea.
      2,3: unfold CreateMetaSlab in E; rewrite Ea in E; discriminate.
      destruct (mp_alloc_ok _ _ _ Hi Ea) as (Hi1 & Hp & Hal & Hnm & Hmine).
      destruct (CreateMetaSlab_spec type slabs w p w1 Ea Hal Hp hhdm_pos (hhdm_room _ _ _ Hi Ea))
        as (s & Ec & Hs & Hfr & Hz).
      rewrite Ec. cbn [mbind res_bind]. exists O, (p :: fs), (s :: slabs), w1. split_and!; auto.
      + apply NoDup_cons. split; [| assumption]. intros Hin. apply Hnm, Hm, Hin.
      + intros f Hin. apply Hmine. apply elem_of_cons in Hin as [-> | Hin]; auto.
      + intros f Hf. apply Hmine. auto.
      + intros b. unfold meta_used. split.
        * intros (t & [-> | Ht]%elem_of_cons & Hu); [| eauto].
          destruct Hu as (k & _ & Hb & _). rewrite Hz in Hb. discriminate.
        * intros (t & Ht & Hu). exists t. split; [right; assumption | assumption].
      + exists s. split; [reflexivity | lia]. }
  destruct Hpre as (i & fs1 & slabs1 & w1 & E1 & Hnd1 & HF1 & Hm1 & Hi1 & Hmono & Hused & s & His & Hfree).
  rewrite E1 in E. cbn [mbind res_bind] in E. rewrite His in E. cbn [deref mbind res_bind] in E.
  destruct (take_entry type fs1 slabs1 i s Hnd1 HF1 His Hfree) as (k & bm & Ek & Hk & Es & Hbit & Hu & HF').
  rewrite Ek in E. cbn [mbind res_bind] in E. destruct (Z.eqb_spec k (total s)); [lia |].
  cbn in E. rewrite Es in E. cbn [mbind res_bind] in E.
  destruct (Forall2_lookup_r _ _ _ _ _ HF1 His) as (f & Hf & Hs).
  destruct (entry_page type f s k Hs Hk) as [_ Ha]. rewrite u64_small in E by lia. injection E as <- <- <-.
  pose proof (used_update type fs1 slabs1 i s k true (mkMetaSlab bm (data s) (u64 (free s - 1)) (total s))
    Hnd1 HF1 His Hk Hu eq_refl eq_refl) as Hup.
  assert (Hnot : ~ meta_used type slabs1 (data s + k * VmmSlabSizes type)).
  { intros (j & t & Hj & Ht)%used_lookup.
    pose proof (slab_unique type fs1 slabs1 i j s t k _ Hnd1 HF1 His Hj Hk eq_refl Ht) as <-.
    rewrite His in Hj. injection Hj as <-. destruct Ht as (k' & Hk' & Hb' & Heq).
    pose proof (size_range type). assert (k' = k) as -> by nia. congruence. }
  split_and!; auto; try lia.
  - exists fs1. auto.
  - rewrite <- Hused. assumption.
  - intros b. rewrite Hup, Hused. rewrite Hused in Hnot. split; [tauto |].
    intros [Hb | ->]; [| auto]. left. split; [assumption |]. intros ->. contradiction.
Qed.

Lemma FreeMeta_at type fs slabs : forall i s k,
  NoDup fs -> Forall2 (slab_ok type) fs slabs -> slabs !! i = Some s -> 0 <= k < total s ->
  exists bm, FreeMeta type (data s + k * VmmSlabSizes type) slabs =
      Ok (<[i := mkMetaSlab bm (data s) (free s) (total s)]> slabs) /\
    updated (bitmap s) k false bm.
Proof.
  pose proof (size_range type) as Hsz.
  intros i s k Hnd HF. revert i. induction HF as [| f t fs slabs Ht HF IH]; intros i Hi Hk; [discriminate |].
  apply NoDup_cons in Hnd as [Hnf Hnd]. cbn [FreeMeta].
  pose proof Ht as [Hbt Hct Hlot Hhit Hft (Halt & Hf0 & Hrt)]. unfold sizeof_VmmMetaSlab in *.
  assert (Hlen : 0 < Z.of_nat (length (bitmap t))) by (unfold capacity in Hct; lia).
  assert (0 <= total t * VmmSlabSizes type) by (apply Z.mul_nonneg_nonneg; lia).
  rewrite (u64_small (data t + total t * VmmSlabSizes type)) by lia.
  destruct i as [| i]; simpl in Hi.
  - injection Hi as ->. destruct (Z.ltb_spec (data s + k * VmmSlabSizes type) (data s)); [nia |].
    destruct (Z.ltb_spec (data s + total s * VmmSlabSizes type) (data s + k * VmmSlabSizes type)); [nia |].
    simpl orb. cbn iota.
    replace (data s + k * VmmSlabSizes type - data s) with (k * VmmSlabSizes type) by lia.
    rewrite Z.div_mul by lia. destruct (BitmapClear_spec (bitmap s) k Hbt ltac:(lia)) as (bm & -> & Hu).
    cbn [mbind res_bind]. exists bm. auto.
  - destruct (Forall2_lookup_r _ _ _ _ _ HF Hi) as (g & Hg & Hs).
    destruct (entry_page type g s k Hs Hk) as [Hpage _].
    assert (Hskip : (data s + k * VmmSlabSizes type <? data t) ||
                    (data t + total t * VmmSlabSizes type <? data s + k * VmmSlabSizes type) = true).
    { destruct (Z.ltb_spec (data s + k * VmmSlabSizes type) (data t)) as [| H1]; [reflexivity |].
      destruct (Z.ltb_spec (data t + total t * VmmSlabSizes type) (data s + k * VmmSlabSizes type)) as [| H2]; [reflexivity |].
      exfalso. apply Hnf. assert (f = g) as ->; [| apply list_elem_of_lookup; eauto].
      eapply (slab_pages_apart f g (data s + k * VmmSlabSizes type)); [assumption | apply (so_frame _ _ _ Hs) | lia | assumption]. }
    rewrite Hskip. destruct (IH Hnd i Hi Hk) as (bm & -> & Hu). cbn [mbind res_bind]. exists bm. auto.
Qed.

Lemma FreeMeta_spec type slabs w a :
  meta_inv type slabs w -> meta_used type slabs a ->
  exists slabs', FreeMeta type a slabs = Ok slabs' /\ meta_inv type slabs' w /\
    forall b, meta_used type slabs' b <-> meta_used type slabs b /\ b <> a.
Proof.
  intros (fs & Hnd & HF & Hm) (i & s & Hi & k & Hk & Hbit & ->)%used_lookup.
  destruct (FreeMeta_at type fs slabs i s k Hnd HF Hi Hk) as (bm & E & Hu).
  eexists. split; [exact E |]. split.
  - exists fs. split; [assumption |]. split; [| assumption].
    destruct (Forall2_lookup_r _ _ _ _ _ HF Hi) as (f & Hf & [Hb Hc Hlo Hhi Hfr Hframe]).
    rewrite <- (list_insert_id fs i f Hf). apply Forall2_insert; [assumption |].
    pose proof (clear_bits_clear _ _ _ (total s) Hu Hk). destruct Hu as (_ & Hb' & Hl').
    constructor; simpl; auto; [unfold capacity in *; lia | lia | lia].
  - intros b. rewrite (used_update type fs slabs i s k false (mkMetaSlab bm (data s) (free s) (total s))
      Hnd HF Hi Hk Hu eq_refl eq_refl). split; [| auto]. intros [? | [? _]]; [assumption | discriminate].
Qed.

(** The only failure of [AllocMeta] is the physical memory manager's. *)
Lemma AllocMeta_total type slabs w :
  meta_inv type slabs w -> mp_inv w -> (exists p w', mp_alloc w = Ok (p, w')) ->
  exists r, AllocMeta type slabs w = Ok r.
Proof.
  intros (fs & Hnd & HF & Hm) Hi (p & w' & Ea). unfold AllocMeta.
  pose proof (first_free_spec slabs) as Hff. destruct (first_free slabs) as [i |].
  - destruct Hff as (s & His & Hfree). cbn [mbind res_bind]. rewrite His. cbn [deref mbind res_bind].
    destruct (take_entry type fs slabs i s Hnd HF His Hfree) as (k & bm & -> & Hk & Es & _).
    cbn [mbind res_bind]. destruct (Z.eqb_spec k (total s)); [lia |]. cbn. rewrite Es. cbn. eauto.
  - destruct (mp_alloc_ok _ _ _ Hi Ea) as (Hi1 & Hp & Hal & Hnm & Hmine).
    destruct (CreateMetaSlab_spec type slabs w p w' Ea Hal Hp hhdm_pos (hhdm_room _ _ _ Hi Ea))
      as (s & -> & Hs & Hfr & Hz). cbn.
    destruct (take_entry type (p :: fs) (s :: slabs) 0 s) as (k & bm & -> & Hk & Es & _); auto.
    + apply NoDup_cons. split; [| assumption]. intros Hin. apply Hnm, Hm, Hin.
    + lia.
    + cbn [mbind res_bind]. destruct (Z.eqb_spec k (total s)); [lia |]. cbn. rewrite Es. cbn. eauto.
Qed.

(** Entries the slabs can still hand out without another page. *)
Definition spare (slabs : list VmmMetaSlab) : Z := foldr (fun s acc => free s + acc) 0 slabs.

Lemma spare_nonneg type fs slabs : Forall2 (slab_ok type) fs slabs -> 0 <= spare slabs.
Proof. induction 1 as [| f s fs slabs Hs _ IH]; simpl; [lia |]. pose proof (so_free _ _ _ Hs). lia. Qed.

Lemma spare_insert slabs : forall i s s', slabs !! i = Some s -> spare (<[i := s']> slabs) = spare slabs - free s + free s'.
Proof.
  induction slabs as [| t slabs IH]; intros [| i] s s' Hi; simpl in *; try discriminate.
  - injection Hi as ->. lia.
  - rewrite (IH i s s' Hi). lia.
Qed.

Lemma spare_first_free type fs slabs : Forall2 (slab_ok type) fs slabs -> 0 < spare slabs -> first_free slabs <> None.
Proof.
  induction 1 as [| f s fs slabs Hs HF IH]; simpl; [lia |]. intros Hp.
  destruct (Z.eqb_spec (free s) 0) as [Hz | Hz]; [| discriminate].
  destruct (first_free slabs) eqn:E; [discriminate |]. exfalso. apply IH; [lia | reflexivity].
Qed.

Lemma AllocMeta_spare type slabs w :
  meta_inv type slabs w -> 0 < spare slabs ->
  exists a slabs', AllocMeta type slabs w = Ok (a, slabs', w) /\ spare slabs' = spare slabs - 1.
Proof.
  intros (fs & Hnd & HF & _) Hs. unfold AllocMeta.
  pose proof (first_free_spec slabs) as Hff. pose proof (spare_first_free _ _ _ HF Hs) as Hn.
  destruct (first_free slabs) as [i |]; [| congruence]. destruct Hff as (s & His & Hfree).
  cbn [mbind res_bind]. rewrite His. cbn [deref mbind res_bind].
  destruct (take_entry type fs slabs i s Hnd HF His Hfree) as (k & bm & -> & Hk & Es & _ & _ & HF').
  cbn [mbind res_bind]. destruct (Z.eqb_spec k (total s)); [lia |]. cbn. rewrite Es. cbn.
  eexists _, _. split; [reflexivity |]. rewrite (spare_insert _ _ s) by assumption. simpl.
  destruct (Forall2_lookup_r _ _ _ _ _ HF His) as (f & _ & Hsl). pose proof (so_free _ _ _ Hsl).
  assert (free s < two64).
  { pose proof (so_hi _ _ _ Hsl). pose proof (so_lo _ _ _ Hsl). pose proof (so_frame _ _ _ Hsl) as (_ & _ & ?).
    pose proof (so_cap _ _ _ Hsl). pose proof (size_range type). unfold sizeof_VmmMetaSlab, PageSize in *.
    assert (Hcnt : (clear_bits (bitmap s) (total s) <= Z.to_nat (total s))%nat).
    { unfold clear_bits. etrans; [apply length_filter |]. rewrite length_seqZ. lia. }
    assert (total s * VmmSlabSizes type <= 4096) by lia. assert (total s <= 4096) by nia.
    unfold two64 in *. lia. }
  rewrite u64_small by lia. lia.
Qed.

Lemma FreeMeta_spare_at type p : forall slabs slabs', FreeMeta type p slabs = Ok slabs' -> spare slabs' = spare slabs.
Proof.
  induction slabs as [| s slabs IH]; intros slabs' E; cbn [FreeMeta] in E; [discriminate |].
  destruct (_ || _).
  - destruct (FreeMeta type p slabs) as [rest | |] eqn:Er; try discriminate. cbn in E. injection E as <-.
    simpl. rewrite (IH rest eq_refl). reflexivity.
  - destruct (BitmapClear _ _) as [[b bm] | |]; try discriminate. cbn in E. injection E as <-. reflexivity.
Qed.
(** ** The state outside *)

(** All that happens to it is that frames are taken. *)
Definition meta_steps : W -> W -> Prop := rtc (fun w w' => exists p, mp_alloc w = Ok (p, w')).

Lemma AllocMeta_steps type slabs w a slabs' w' : AllocMeta type slabs w = Ok (a, slabs', w') -> meta_steps w w'.
Proof.
  unfold AllocMeta. intros E. destruct (first_free slabs) as [i |]; cbn [mbind res_bind] in E.
  - destruct (slabs !! i) as [s |]; simpl in E; [| discriminate].
    destruct (BitmapFindClear _ _) as [f | |]; simpl in E; try discriminate. destruct (negb _); simpl in E; try discriminate.
    destruct (BitmapSet _ _) as [[? bm] | |]; simpl in E; try discriminate. injection E as _ _ <-. apply rtc_refl.
  - unfold CreateMetaSlab in E. destruct (mp_alloc w) as [[p w1] | |] eqn:Em; cbn [mbind res_bind] in E; try discriminate.
    destruct (shrink_slab _ _ _ _ _) as [[n b] | |]; cbn [mbind res_bind] in E; try discriminate.
    destruct (0 <? n); simpl in E; try discriminate.
    destruct (BitmapFindClear _ _) as [f | |]; simpl in E; try discriminate. destruct (negb _); simpl in E; try discriminate.
    destruct (BitmapSet _ _) as [[? bm] | |]; simpl in E; try discriminate. injection E as _ _ <-. apply rtc_once. eauto.
Qed.
End Meta.
