(* ===== verification/Vmm.v ===== *)
(** The virtual memory manager ([kernel/memory/Vmm.cpp], [kernel/include/memory/Vmm.h],
    [kernel/memory/virtual/VmDriver.cpp]): the address space as a tree of free holes,
    aggregated by their largest length, and a tree of ranges; allocation, release, faults,
    flags, splitting, copying and pinning. *)

From S2P Require Import Prelude Maths Bitmap Pmm RBTree Flags VmmMeta.

(** ** Data *)

Record VmRange : Type := mkRange {
  base : Z;
  length : Z;
  flags : Z;
  offset : Z;
  token : Z;
  mdlCount : Z
}.

Definition Top (r : VmRange) : Z := u64 (base r + length r).

Record VmHole : Type := mkHole {
  hole_base : Z;
  hole_length : Z;
  largestHole : Z
}.

(** The data behind the tree items, by address. *)
Definition VmRangeLess (d : ptr -> VmRange) (a b : ptr) : bool := base (d a) <? base (d b).
Definition VmHoleLess (d : ptr -> VmHole) (a b : ptr) : bool := hole_base (d a) <? hole_base (d b).

Record VmmStats : Type := mkStats {
  faults : Z;
  anonRanges : Z;
  anonWorkingSize : Z;
  anonResidentSize : Z;
  fileRanges : Z;
  fileWorkingSize : Z;
  fileResidentSize : Z;
  mmioRanges : Z;
  mmioWorkingSize : Z
}.

Definition no_stats : VmmStats := mkStats 0 0 0 0 0 0 0 0 0.

Definition count_fault (s : VmmStats) : VmmStats :=
  mkStats (u64 (faults s + 1)) (anonRanges s) (anonWorkingSize s) (anonResidentSize s) (fileRanges s)
    (fileWorkingSize s) (fileResidentSize s) (mmioRanges s) (mmioWorkingSize s).

(** [anonRanges], [fileRanges] or [mmioRanges] by [n], for a range with these flags. *)
Definition count_range (fl n : Z) (s : VmmStats) : VmmStats :=
  if Flags.Has fl VmFlag.Anon then
    mkStats (faults s) (u64 (anonRanges s + n)) (anonWorkingSize s) (anonResidentSize s) (fileRanges s)
      (fileWorkingSize s) (fileResidentSize s) (mmioRanges s) (mmioWorkingSize s)
  else if Flags.Has fl VmFlag.File then
    mkStats (faults s) (anonRanges s) (anonWorkingSize s) (anonResidentSize s) (u64 (fileRanges s + n))
      (fileWorkingSize s) (fileResidentSize s) (mmioRanges s) (mmioWorkingSize s)
  else if Flags.Has fl VmFlag.Mmio then
    mkStats (faults s) (anonRanges s) (anonWorkingSize s) (anonResidentSize s) (fileRanges s)
      (fileWorkingSize s) (fileResidentSize s) (u64 (mmioRanges s + n)) (mmioWorkingSize s)
  else s.

(** ** The hole aggregator *)

Definition hole_size (h : hooks) (d : ptr -> VmHole) (hole : ptr) : Z :=
  let size := hole_length (d hole) in
  let size := match GetLeft h hole with
              | Some l => if size <? largestHole (d l) then largestHole (d l) else size
              | None => size
              end in
  match GetRight h hole with
  | Some r => if size <? largestHole (d r) then largestHole (d r) else size
  | None => size
  end.

Definition VmHoleAggregate (h : hooks) (d : ptr -> VmHole) (hole : ptr) : (ptr -> VmHole) * bool :=
  let size := hole_size h d hole in
  if largestHole (d hole) =? size then (d, false)
  else (upd d hole (mkHole (hole_base (d hole)) (hole_length (d hole)) size), true).

Definition VmHoleCheckInvariant (h : hooks) (d : ptr -> VmHole) (hole : ptr) : bool :=
  let pred := Predecessor h hole in
  let succ := Successor h hole in
  if negb (largestHole (d hole) =? hole_size h d hole) then false
  else if match pred with
          | Some p => hole_base (d hole) <? u64 (hole_base (d p) + hole_length (d p))
          | None => false
          end then false
  else if match succ with
          | Some s => hole_base (d s) <? u64 (hole_base (d hole) + hole_length (d hole))
          | None => false
          end then false
  else true.

(** ** Drivers *)

Record QueryResult : Type := mkQuery { q_alignment : Z; q_length : Z; q_hatMode : Z; q_success : bool }.
Record AttachResult : Type := mkAttach { a_token : Z; a_offset : Z; a_success : bool }.
Record ModifyRangeArgs : Type := mkModify { trimStart : Z; trimEnd : Z; setFlags : Z; clearFlags : Z }.
Record SplitResult : Type := mkSplit { s_offset : Z; s_tokenLow : Z; s_tokenHigh : Z; s_success : bool }.

(** [VmAllocLimits]. *)
Record VmAllocLimits : Type := mkLimits { lowerBound : Z; upperBound : Z; limit_alignment : Z }.
Definition no_limits : VmAllocLimits := mkLimits 0 (two64 - 1) 1.

(** The virtual functions of [VmDriver]: [W] is the state outside the manager (page tables,
    physical memory, the drivers' own); the context's range is read-only, the statistics
    are the manager's. *)
Record VmDriver (W : Type) : Type := mkDriver {
  drv_Query : W -> Z -> Z -> Z -> res (QueryResult * W);
  drv_Attach : W -> VmRange -> VmmStats -> QueryResult -> Z -> res (AttachResult * W * VmmStats);
  drv_Detach : W -> VmRange -> VmmStats -> res (bool * W * VmmStats);
  drv_Split : W -> VmRange -> VmmStats -> Z -> res (SplitResult * W * VmmStats);
  drv_ModifyRange : W -> VmRange -> VmmStats -> ModifyRangeArgs -> res (bool * W * VmmStats);
  drv_HandleFault : W -> VmRange -> VmmStats -> Z -> Z -> res (bool * W * VmmStats)
}.
Arguments drv_Query {_} _. Arguments drv_Attach {_} _. Arguments drv_Detach {_} _.
Arguments drv_Split {_} _. Arguments drv_ModifyRange {_} _. Arguments drv_HandleFault {_} _.

(** ** The manager *)

Record VMM : Type := mkVMM {
  ranges : hooks;
  rangeData : ptr -> VmRange;
  holes : hooks;
  holeData : ptr -> VmHole;
  rangeSlabs : list VmmMetaSlab;
  holeSlabs : list VmmMetaSlab;
  globalLowerBound : Z;
  globalUpperBound : Z;
  stats : VmmStats
}.

Definition set_ranges (v : VMM) (h : hooks) (d : ptr -> VmRange) : VMM :=
  mkVMM h d (holes v) (holeData v) (rangeSlabs v) (holeSlabs v) (globalLowerBound v) (globalUpperBound v) (stats v).
Definition set_holes (v : VMM) (h : hooks) (d : ptr -> VmHole) : VMM :=
  mkVMM (ranges v) (rangeData v) h d (rangeSlabs v) (holeSlabs v) (globalLowerBound v) (globalUpperBound v) (stats v).
Definition set_rangeSlabs (v : VMM) (s : list VmmMetaSlab) : VMM :=
  mkVMM (ranges v) (rangeData v) (holes v) (holeData v) s (holeSlabs v) (globalLowerBound v) (globalUpperBound v) (stats v).
Definition set_holeSlabs (v : VMM) (s : list VmmMetaSlab) : VMM :=
  mkVMM (ranges v) (rangeData v) (holes v) (holeData v) (rangeSlabs v) s (globalLowerBound v) (globalUpperBound v) (stats v).
Definition set_stats (v : VMM) (s : VmmStats) : VMM :=
  mkVMM (ranges v) (rangeData v) (holes v) (holeData v) (rangeSlabs v) (holeSlabs v) (globalLowerBound v) (globalUpperBound v) s.

(** Steps enough for any tree of fewer than [2 ^ 64] items. *)
Definition TreeFuel : nat := 130.
Arguments TreeFuel : simpl never.

(** The [HookStruct] constructor of a structure built in place. *)
Definition construct (p : ptr) (h : hooks) : hooks := set_color p Null (clear_links p h).

Section Manager.
Context {W : Type} `{!MetaPages W}.
Variable hhdmBase : Z.
(** The three drivers, [HatGetMap] of the manager's map, [HatGetLimits().modes[i].granularity],
    and a copy through the direct map ([memcopy] to and from [AddHhdm]). *)
Variable anonDriver vfsDriver kernelDriver : VmDriver W.
Variable HatGetMap : W -> Z -> option (Z * Z).
Variable granularity : Z -> Z.
Variable copy_to_phys : W -> Z -> Z -> Z -> W.
Variable copy_from_phys : W -> Z -> Z -> Z -> W.

Definition GetDriver (fl : Z) : option (VmDriver W) :=
  if Flags.Has fl VmFlag.Anon then Some anonDriver
  else if Flags.Has fl VmFlag.File then Some vfsDriver
  else if Flags.Has fl VmFlag.Mmio then Some kernelDriver
  else None.

(** [new(AllocMeta(VmmMetaType::Hole)) VmHole()] with the fields assigned next. *)
Definition new_hole (v : VMM) (w : W) (b len : Z) : res (ptr * VMM * W) :=
  '(a, slabs, w) ← AllocMeta hhdmBase MetaHole (holeSlabs v) w;
  let p := Z.to_pos a in
  let v := set_holeSlabs v slabs in
  Ok (p, set_holes v (construct p (holes v)) (upd (holeData v) p (mkHole b len 0)), w).

Definition new_range (v : VMM) (w : W) (r : VmRange) : res (ptr * VMM * W) :=
  '(a, slabs, w) ← AllocMeta hhdmBase MetaRange (rangeSlabs v) w;
  let p := Z.to_pos a in
  let v := set_rangeSlabs v slabs in
  Ok (p, set_ranges v (construct p (ranges v)) (upd (rangeData v) p r), w).

Definition FreeMeta_hole (v : VMM) (p : ptr) : res VMM :=
  slabs ← FreeMeta MetaHole (Zpos p) (holeSlabs v); Ok (set_holeSlabs v slabs).
Definition FreeMeta_range (v : VMM) (p : ptr) : res VMM :=
  slabs ← FreeMeta MetaRange (Zpos p) (rangeSlabs v); Ok (set_rangeSlabs v slabs).

Definition insert_hole (v : VMM) (p : ptr) : res VMM :=
  '(h, d) ← Insert VmHoleAggregate VmHoleLess TreeFuel p (holes v) (holeData v);
  Ok (set_holes v h d).
Definition remove_hole (v : VMM) (p : ptr) : res VMM :=
  '(h, d) ← Remove VmHoleAggregate TreeFuel p (holes v) (holeData v);
  Ok (set_holes v h d).
Definition insert_range (v : VMM) (p : ptr) : res VMM :=
  '(h, d) ← Insert NullAggregate VmRangeLess TreeFuel p (ranges v) (rangeData v);
  Ok (set_ranges v h d).
Definition remove_range (v : VMM) (p : ptr) : res VMM :=
  '(h, d) ← Remove NullAggregate TreeFuel p (ranges v) (rangeData v);
  Ok (set_ranges v h d).

(** [CommonInit]: one hole covers the space between the bounds. *)
Definition CommonInit (v : VMM) (w : W) : res (VMM * W) :=
  let v := set_holeSlabs (set_rangeSlabs v []) [] in
  let len := u64 (globalUpperBound v - globalLowerBound v) in
  '(p, v, w) ← new_hole v w (globalLowerBound v) len;
  let v := set_holes v (holes v) (upd (holeData v) p (mkHole (globalLowerBound v) len len)) in
  v ← insert_hole v p;
  Ok (v, w).

(** [AdjustHole]: the hole gives up [length] bytes at [offset]; what is left of it on either
    side becomes a hole of its own. *)
Definition AdjustHole (v : VMM) (w : W) (target : ptr) (offset length : Z) : res (VMM * W) :=
  _ ← assert_ (u64 (offset + length) <=? hole_length (holeData v target));
  v ← remove_hole v target;
  '(v, w) ←
    (if 0 <? offset then
       '(p, v, w) ← new_hole v w (hole_base (holeData v target)) offset;
       v ← insert_hole v p;
       Ok (v, w)
     else Ok (v, w));
  if u64 (offset + length) <? hole_length (holeData v target) then
    '(p, v, w) ← new_hole v w (u64 (hole_base (holeData v target) + offset + length))
      (u64 (hole_length (holeData v target) - u64 (offset + length)));
    v ← insert_hole v p;
    Ok (v, w)
  else Ok (v, w).

Fixpoint FindRange_loop (fuel : nat) (h : hooks) (d : ptr -> VmRange) (addr : Z) (scan : option ptr)
  : res (option ptr) :=
  match scan with
  | None => Ok None
  | Some s =>
      match fuel with
      | O => OutOfFuel
      | S fuel' =>
          if (base (d s) <=? addr) && (addr <? Top (d s)) then Ok (Some s)
          else if addr <? base (d s) then FindRange_loop fuel' h d addr (GetLeft h s)
          else if Top (d s) <=? addr then FindRange_loop fuel' h d addr (GetRight h s)
          else FindRange_loop fuel' h d addr (Some s)
      end
  end.

Definition FindRange (v : VMM) (addr : Z) : res (option ptr) :=
  if (addr <? globalLowerBound v) || (globalUpperBound v <=? addr) then Ok None
  else FindRange_loop TreeFuel (ranges v) (rangeData v) addr (GetRoot (ranges v)).

Definition HandleFault (v : VMM) (w : W) (addr fl : Z) : res (bool * VMM * W) :=
  if (addr <? globalLowerBound v) || (globalUpperBound v <=? addr) then Ok (false, v, w)
  else
    let v := set_stats v (count_fault (stats v)) in
    range ← FindRange v addr;
    match range with
    | None => Ok (false, v, w)
    | Some p =>
        let range := rangeData v p in
        if Flags.Has fl VmFaultFlag.Write && negb (Flags.Has (flags range) VmFlag.Write) then Ok (false, v, w)
        else if Flags.Has fl VmFaultFlag.Execute && negb (Flags.Has (flags range) VmFlag.Execute) then Ok (false, v, w)
        else if Flags.Has fl VmFaultFlag.User && negb (Flags.Has (flags range) VmFlag.User) then Ok (false, v, w)
        else
          match GetDriver (flags range) with
          | None => Ok (false, v, w)
          | Some driver =>
              '(goodFault, w, st) ← drv_HandleFault driver w range (stats v) addr fl;
              Ok (goodFault, set_stats v st, w)
          end
    end.

(** The search of [Alloc] for a hole of [len] bytes: the one at the lowest address, found
    with the aggregates; [None] is a failed [VALIDATE]. *)
Fixpoint find_hole (fuel : nat) (h : hooks) (d : ptr -> VmHole) (len : Z) (hole : ptr) : res (option ptr) :=
  match fuel with
  | O => OutOfFuel
  | S fuel' =>
      match match GetLeft h hole with
            | Some l => if len <=? largestHole (d l) then Some l else None
            | None => None
            end with
      | Some l => find_hole fuel' h d len l
      | None =>
          if len <=? hole_length (d hole) then Ok (Some hole)
          else
            match GetRight h hole with
            | None => Ok None
            | Some r => if len <=? largestHole (d r) then find_hole fuel' h d len r else Ok None
            end
      end
  end.

Definition Alloc (v : VMM) (w : W) (length initArg fl : Z) (limits : VmAllocLimits)
  : res (option Z * VMM * W) :=
  if length =? 0 then Ok (None, v, w)
  else
    match GetDriver fl with
    | None => Ok (None, v, w)
    | Some driver =>
        '(query, w) ← drv_Query driver w length fl initArg;
        if negb (q_success query) then Ok (None, v, w)
        else if (1 <? limit_alignment limits) && negb (q_alignment query mod limit_alignment limits =? 0)
        then Ok (None, v, w)
        else
          match GetRoot (holes v) with
          | None => Ok (None, v, w)
          | Some hole =>
              found ← find_hole TreeFuel (holes v) (holeData v) (q_length query) hole;
              match found with
              | None => Ok (None, v, w)
              | Some hole =>
                  let rangeBase := hole_base (holeData v hole) in
                  '(v, w) ← AdjustHole v w hole 0 (q_length query);
                  v ← FreeMeta_hole v hole;
                  if rangeBase =? 0 then Ok (None, v, w)
                  else
                    let r := mkRange rangeBase (q_length query) fl 0 0 0 in
                    '(p, v, w) ← new_range v w r;
                    '(attach, w, st) ← drv_Attach driver w r (stats v) query initArg;
                    let v := set_stats v st in
                    if negb (a_success attach) then
                      '(hp, v, w) ← new_hole v w rangeBase (q_length query);
                      v ← insert_hole v hp;
                      v ← FreeMeta_range v p;
                      Ok (None, v, w)
                    else
                      let r := mkRange rangeBase (q_length query) fl (a_offset attach) (a_token attach) 0 in
                      let v := set_ranges v (ranges v) (upd (rangeData v) p r) in
                      v ← insert_range v p;
                      let v := set_stats v (count_range fl 1 (stats v)) in
                      Ok (Some (u64 (rangeBase + a_offset attach)), v, w)
              end
          end
    end.

Definition Free (v : VMM) (w : W) (addr : Z) : res (bool * VMM * W) :=
  found ← FindRange v addr;
  match found with
  | None => Ok (false, v, w)
  | Some p =>
      let range := rangeData v p in
      if negb (mdlCount range =? 0) then Ok (false, v, w)
      else
        v ← remove_range v p;
        let v := set_stats v (count_range (flags range) (-1) (stats v)) in
        match GetDriver (flags range) with
        | None => Ok (false, v, w)
        | Some driver =>
            '(detachSuccess, w, st) ← drv_Detach driver w range (stats v);
            let v := set_stats v st in
            if negb detachSuccess then
              v ← FreeMeta_range v p;
              Ok (false, v, w)
            else
              '(hp, v, w) ← new_hole v w (base range) (length range);
              v ← FreeMeta_range v p;
              v ← insert_hole v hp;
              Ok (true, v, w)
        end
  end.

Definition GetFlags (v : VMM) (addr len : Z) : res (option Z) :=
  found ← FindRange v addr;
  match found with
  | None => Ok None
  | Some p => if Top (rangeData v p) <? u64 (addr + len) then Ok None else Ok (Some (flags (rangeData v p)))
  end.

Definition SetFlags (v : VMM) (w : W) (addr fl : Z) : res (bool * VMM * W) :=
  found ← FindRange v addr;
  match found with
  | None => Ok (false, v, w)
  | Some p =>
      let range := rangeData v p in
      if negb (Z.land fl VmFlagTypeMask =? 0) then Ok (false, v, w)
      else
        match GetDriver (flags range) with
        | None => Ok (false, v, w)
        | Some driver =>
            let fl := Z.land fl (not64 VmFlagTypeMask) in
            let args := mkModify 0 0 (Z.land fl (not64 (flags range))) (Z.land (flags range) (not64 fl)) in
            '(ok, w, st) ← drv_ModifyRange driver w range (stats v) args;
            let v := set_stats v st in
            if negb ok then Ok (false, v, w)
            else
              let range := mkRange (base range) (length range)
                (Z.lor (Z.land (flags range) VmFlagTypeMask) fl) (offset range) (token range) (mdlCount range) in
              Ok (true, set_ranges v (ranges v) (upd (rangeData v) p range), w)
        end
  end.

Definition Split (v : VMM) (w : W) (addr off : Z) : res (option Z * VMM * W) :=
  found ← FindRange v addr;
  match found with
  | None => Ok (None, v, w)
  | Some p =>
      let range := rangeData v p in
      if negb (mdlCount range =? 0) then Ok (None, v, w)
      else
        let off := u64 (off + (addr - (base range + offset range))) in
        match GetDriver (flags range) with
        | None => Ok (None, v, w)
        | Some driver =>
            '(result, w, st) ← drv_Split driver w range (stats v) off;
            let v := set_stats v st in
            if negb (s_success result) then Ok (None, v, w)
            else if s_offset result =? length range then Ok (Some (u64 (base range + off)), v, w)
            else
              let newBase := u64 (base range + s_offset result) in
              let newRange := mkRange newBase (u64 (length range - s_offset result)) (flags range) 0
                (s_tokenHigh result) 0 in
              '(np, v, w) ← new_range v w newRange;
              let range := mkRange (base range) (u64 (newBase - base range)) (flags range) (offset range)
                (s_tokenLow result) (mdlCount range) in
              let v := set_ranges v (ranges v) (upd (rangeData v) p range) in
              let v := set_stats v (count_range (flags range) 1 (stats v)) in
              v ← insert_range v np;
              Ok (Some (u64 (s_offset result - offset range)), v, w)
        end
  end.

Definition MemoryExists (v : VMM) (addr len : Z) (fl : option Z) : res bool :=
  found ← FindRange v addr;
  match found with
  | None => Ok false
  | Some p =>
      let range := rangeData v p in
      if Top range <? u64 (addr + len) then Ok false
      else
        match fl with
        | Some f => Ok (Z.land f (flags range) =? f)
        | None => Ok true
        end
  end.

Definition GetPhysical (w : W) (vaddr : Z) : option Z := option_map fst (HatGetMap w vaddr).

(** The page mapped at an address, faulted in when it is not. *)
Definition map_or_fault (v : VMM) (w : W) (addr : Z) : res (option (Z * Z) * bool * VMM * W) :=
  match HatGetMap w addr with
  | Some m => Ok (Some m, true, v, w)
  | None =>
      '(good, v, w) ← HandleFault v w addr (Flags.of_flag VmFaultFlag.Write);
      if (good : bool) then Ok (HatGetMap w addr, true, v, w) else Ok (None, false, v, w)
  end.

(** [while (count < length)] of [CopyIn]; dereferencing an empty [maybePhys] is a panic. *)
Fixpoint CopyIn_loop (fuel : nat) (v : VMM) (w : W) (foreignBase localBase len count : Z)
  : res (Z * VMM * W) :=
  if count <? len then
    match fuel with
    | O => OutOfFuel
    | S fuel' =>
        '(m, good, v, w) ← map_or_fault v w (u64 (foreignBase + count));
        if negb good then Ok (count, v, w)
        else
          '(phys, _) ← deref m;
          let copyLength := Min PageSize (len - count) in
          let copyLength :=
            if count =? 0 then Min copyLength (PageSize - foreignBase mod PageSize) else copyLength in
          let w := copy_to_phys w phys (u64 (localBase + count)) copyLength in
          CopyIn_loop fuel' v w foreignBase localBase len (u64 (count + copyLength))
    end
  else Ok (count, v, w).

Definition CopyIn (fuel : nat) (v : VMM) (w : W) (foreignBase localBase len : Z) : res (Z * VMM * W) :=
  exists_ ← MemoryExists v foreignBase len None;
  if negb exists_ then Ok (0, v, w) else CopyIn_loop fuel v w foreignBase localBase len 0.

(** [while (count < length)] of [CopyOut]; [count] is never advanced. *)
Fixpoint CopyOut_loop (fuel : nat) (w : W) (foreignBase local len count : Z) : res (Z * W) :=
  if count <? len then
    match fuel with
    | O => OutOfFuel
    | S fuel' =>
        match HatGetMap w (u64 (foreignBase + count)) with
        | None => Ok (count, w)
        | Some (phys, _) =>
            let copyLength := Min PageSize (len - count) in
            let copyLength :=
              if count =? 0 then u64 (AlignUp foreignBase PageSize - foreignBase) else copyLength in
            let w := copy_from_phys w phys local copyLength in
            CopyOut_loop fuel' w foreignBase (u64 (local + copyLength)) len count
        end
    end
  else Ok (count, w).

Definition CopyOut (fuel : nat) (w : W) (localBase foreignBase len : Z) : res (Z * W) :=
  CopyOut_loop fuel w foreignBase localBase len 0.

Definition set_mdlCount (v : VMM) (p : ptr) (n : Z) : VMM :=
  let r := rangeData v p in
  set_ranges v (ranges v) (upd (rangeData v) p (mkRange (base r) (length r) (flags r) (offset r) (token r) n)).

(** The loop of [AcquireMdl], which collects (length, physAddr) pairs in order. *)
Fixpoint AcquireMdl_loop (fuel : nat) (v : VMM) (w : W) (addr len scan : Z) (ptrs : list (Z * Z))
  : res (list (Z * Z) * VMM * W) :=
  if scan <? u64 (addr + len) then
    match fuel with
    | O => OutOfFuel
    | S fuel' =>
        '(m, good, v, w) ← map_or_fault v w scan;
        _ ← assert_ good;
        '(phys, mode) ← deref m;
        let plen := Min (granularity mode) (u64 (len + addr - scan)) in
        AcquireMdl_loop fuel' v w addr len (u64 (scan + plen)) (ptrs ++ [(plen, phys)])
    end
  else Ok (ptrs, v, w).

(** The [Mdl]: base, length and the collected pairs. *)
Definition AcquireMdl (fuel : nat) (v : VMM) (w : W) (addr len : Z)
  : res (option (Z * Z * list (Z * Z)) * VMM * W) :=
  found ← FindRange v addr;
  match found with
  | None => Ok (None, v, w)
  | Some p =>
      if len =? 0 then Ok (None, v, w)
      else
        let range := rangeData v p in
        let len := u64 (Min (u64 (addr + len)) (u64 (base range + length range)) - addr) in
        let v := set_mdlCount v p (u64 (mdlCount range + 1)) in
        '(ptrs, v, w) ← AcquireMdl_loop fuel v w addr len addr [];
        Ok (Some (addr, len, ptrs), v, w)
  end.

Definition ReleaseMdl (v : VMM) (addr : Z) : res VMM :=
  found ← FindRange v addr;
  match found with
  | None => Ok v
  | Some p =>
      _ ← assert_ (0 <? mdlCount (rangeData v p));
      Ok (set_mdlCount v p (mdlCount (rangeData v p) - 1))
  end.

(** [DestroyMetaSlab] is not implemented: [ASSERT_UNREACHABLE]. *)
Definition DestroyMetaSlab (_ : VmmMetaType) (_ : VMM) : res bool := Panic.

(** ** Construction and destruction *)

Definition empty_VMM (lower upper : Z) : VMM :=
  mkVMM no_hooks (fun _ => mkRange 0 0 0 0 0 0) no_hooks (fun _ => mkHole 0 0 0) [] [] lower upper no_stats.

(** The constructor of a user address space; [HatCreateMap] is outside. *)
Definition UserVmm (w : W) : res (VMM * W) :=
  let granuleSize := granularity 0 in
  CommonInit (empty_VMM granuleSize (u64 (not64 hhdmBase - granuleSize))) w.

(** [ranges.Insert(&kernelRanges[i])] for the ranges the kernel driver set up. *)
Fixpoint insert_ranges (v : VMM) (kernelRanges : list (ptr * VmRange)) : res VMM :=
  match kernelRanges with
  | [] => Ok v
  | (p, r) :: rest =>
      v ← insert_range (set_ranges v (construct p (ranges v)) (upd (rangeData v) p r)) p;
      insert_ranges v rest
  end.

(** The constructor of the kernel's address space. *)
Definition KernelVmm (w : W) (hhdmLength kernelBlobEnd : Z) (kernelRanges : list (ptr * VmRange)) : res (VMM * W) :=
  '(v, w) ← CommonInit (empty_VMM (u64 (hhdmBase + hhdmLength)) (AlignUp kernelBlobEnd (granularity 0))) w;
  v ← insert_ranges v kernelRanges;
  Ok (v, w).

(** The loops of the destructor. *)
Fixpoint destroy_ranges (fuel : nat) (v : VMM) (w : W) : res (VMM * W) :=
  match GetRoot (ranges v) with
  | None => Ok (v, w)
  | Some p =>
      match fuel with
      | O => OutOfFuel
      | S fuel' => '(_, v, w) ← Free v w (base (rangeData v p)); destroy_ranges fuel' v w
      end
  end.

Fixpoint destroy_holes (fuel : nat) (v : VMM) : res VMM :=
  match GetRoot (holes v) with
  | None => Ok v
  | Some p =>
      match fuel with
      | O => OutOfFuel
      | S fuel' => v ← remove_hole v p; v ← FreeMeta_hole v p; destroy_holes fuel' v
      end
  end.

Fixpoint destroy_slabs (fuel : nat) (type : VmmMetaType) (v : VMM) : res VMM :=
  match fuel with
  | O => OutOfFuel
  | S fuel' => more ← DestroyMetaSlab type v; if (more : bool) then destroy_slabs fuel' type v else Ok v
  end.

(** The destructor of a user address space up to [HatDestroyMap]. *)
Definition Destroy (fuel : nat) (v : VMM) (w : W) : res (VMM * W) :=
  '(v, w) ← destroy_ranges fuel v w;
  v ← destroy_holes fuel v;
  v ← destroy_slabs fuel MetaRange v;
  v ← destroy_slabs fuel MetaHole v;
  Ok (v, w).
End Manager.
