(* ===== verification/VmmTree.v ===== *)
(** The trees of the virtual memory manager: the hole aggregator as an instance of the tree's
    interface, the search for a hole, the lookup of a range, and trees under changes to items
    outside them. *)

From Stdlib Require Import Sorting.Sorted.
From S2P Require Import Prelude Maths Bitmap Pmm RBTree RBTreeProofs RBTreeFix RBTreeOps RBTreeRemove Flags VmmMeta Vmm.

(** ** The hole aggregator *)

Lemma if_ltb_max a b : (if a <? b then b else a) = Z.max a b.
Proof. case_cmps. Qed.

#[export] Instance VmHoleAggregator : Aggregator (D := ptr -> VmHole) (V := N) (J := Z * Z) VmHoleAggregate.
Proof.
  refine {| info := fun d p => (hole_base (d p), hole_length (d p)); weight := fun bl => Z.to_N (snd bl); value := fun d p => Z.to_N (largestHole (d p));
            agg_op := N.max; agg_unit := 0%N |}.
  - apply N.max_assoc.
  - apply N.max_0_l.
  - apply N.max_0_r.
  - intros h d p x. unfold VmHoleAggregate. destruct (_ =? _); simpl; [reflexivity |].
    unfold upd. case_decide; subst; reflexivity.
  - intros h d p.
    assert (Hs : Z.to_N (hole_size h d p) =
      N.max (from_option (fun p => Z.to_N (largestHole (d p))) 0%N (left h p))
        (N.max (Z.to_N (hole_length (d p))) (from_option (fun p => Z.to_N (largestHole (d p))) 0%N (right h p)))).
    { unfold hole_size, GetLeft, GetRight. destruct (left h p), (right h p); simpl; rewrite ?if_ltb_max; lia. }
    cbn [snd]. rewrite <- Hs. unfold VmHoleAggregate. destruct (Z.eqb_spec (largestHole (d p)) (hole_size h d p)) as [<- |];
      simpl; [reflexivity |]. unfold upd. rewrite decide_True by reflexivity. reflexivity.
  - intros h d p x Hx. unfold VmHoleAggregate. destruct (_ =? _); simpl; [reflexivity |].
    unfold upd. rewrite decide_False by assumption. reflexivity.
  - intros h d p. unfold VmHoleAggregate. destruct (_ =? _); simpl; [reflexivity | discriminate].
Defined.

Definition hole_tree := tree_of (V := N) (J := Z * Z) VmHoleAggregate.
Definition range_tree := tree_of (D := ptr -> VmRange) (V := unit) (J := ptr -> VmRange) NullAggregate.

(** ** Changes outside a tree *)

Section Outside.
Context {D V J : Type} (Aggregate : hooks -> D -> ptr -> D * bool) `{!Aggregator (V := V) (J := J) Aggregate}.

Lemma msum_frame (d d' : D) xs : (forall x, x ∈ xs -> own d' x = own d x) -> msum d' xs = msum d xs.
Proof.
  induction xs as [| x xs IH]; intros H; simpl; [reflexivity |].
  rewrite IH, H by set_solver. reflexivity.
Qed.

Lemma aggd_data (d d' : D) t :
  (forall x, x ∈ inorder t -> own d' x = own d x /\ value d' x = value d x) -> aggd d t -> aggd d' t.
Proof.
  induction t as [| c l IHl p r IHr]; intros H Ht; [exact I |]. simpl in *.
  destruct Ht as (H1 & H2 & H3). split; [| split; [apply IHl | apply IHr]]; [| set_solver..].
  destruct (H p) as [_ ->]; [set_solver |]. rewrite H1. symmetry. apply msum_frame.
  intros x Hx. apply H. assumption.
Qed.

(** The data of items outside the tree is free to change. *)
Lemma tree_of_data h (d d' : D) xs :
  (forall x, x ∈ xs -> own d' x = own d x /\ value d' x = value d x) ->
  tree_of Aggregate h d xs -> tree_of Aggregate h d' xs.
Proof.
  intros Hd (t & m & [H1 H2 H3 H4 H5 H6] & Hrb & Hin & Hth). exists t, m. split_and!; auto.
  constructor; auto. apply (aggd_data d); [| assumption]. rewrite Hin. assumption.
Qed.

(** Constructing an item in place leaves a tree it is not in alone. *)
Lemma tree_of_construct h (d : D) xs p : (p ∉ xs) -> tree_of Aggregate h d xs -> tree_of Aggregate (construct p h) d xs.
Proof.
  intros Hp (t & m & [H1 H2 H3 H4 H5 H6] & Hrb & Hin & [Ht1 Ht2]).
  assert (Hs : forall x, x <> p -> same_node h (construct p h) x).
  { intros x Hx. unfold same_node, construct, clear_links, set_color; simpl. unfold upd.
    rewrite !(decide_False (P := x = p)) by assumption. auto. }
  simpl in H4. rewrite Hin in H4.
  exists t, m. split_and!; auto.
  - constructor; auto.
    + simpl in *. rewrite <- Hin in Hp. apply (rep_frame h); [| assumption]. intros x Hx. apply Hs. congruence.
    + intros x Hx. simpl in Hx. rewrite Hin in Hx. destruct (decide (x = p)) as [-> | Hne].
      * unfold clean, construct, clear_links; simpl. unfold upd. rewrite !decide_True by reflexivity. auto.
      * destruct (Hs x Hne) as (E1 & E2 & E3 & _). unfold clean. rewrite E1, E2, E3. apply H4, Hx.
  - assert (Hth : forall x, x <> p -> predecessor (construct p h) x = predecessor h x /\ successor (construct p h) x = successor h x).
    { intros x Hx. unfold construct, clear_links; simpl. unfold upd. rewrite !(decide_False (P := x = p)) by assumption. auto. }
    split.
    + intros l x r Heq. destruct (Hth x) as [-> ->]; [intros ->; apply Hp; rewrite Heq; set_solver + | apply Ht1, Heq].
    + intros x Hx. destruct (decide (x = p)) as [-> | Hne]; [| destruct (Hth x Hne) as [-> ->]; auto].
      unfold construct, clear_links; simpl. unfold upd. rewrite !decide_True by reflexivity. auto.
Qed.

Lemma tree_of_NoDup h (d : D) xs : tree_of Aggregate h d xs -> NoDup xs.
Proof. intros (t & m & H & _ & <- & _). apply (at_nodup _ _ _ _ _ H). Qed.
End Outside.

(** Any list of distinct addresses is short enough for the fixed number of steps. *)
Lemma distinct_bound (xs : list positive) N :
  NoDup xs -> 0 < N -> (forall x, x ∈ xs -> Zpos x < N) -> Z.of_nat (Datatypes.length xs) < N.
Proof.
  intros Hnd HN Hb. assert (Hsub : (Zpos <$> xs) ⊆+ seqZ 1 (N - 1)).
  { apply NoDup_submseteq; [apply NoDup_fmap_2; [intros a b; congruence | assumption] |].
    intros x (p & -> & Hp)%list_elem_of_fmap. apply elem_of_seqZ. specialize (Hb p Hp).
    pose proof (Pos2Z.is_pos p). lia. }
  apply submseteq_length in Hsub. rewrite length_fmap, length_seqZ in Hsub. lia.
Qed.

Lemma TreeFuel_enough (xs : list ptr) : NoDup xs -> (forall x, x ∈ xs -> Zpos x < two64) -> enough_fuel TreeFuel xs.
Proof.
  intros Hnd Hb. unfold enough_fuel, TreeFuel, ptr in *.
  pose proof (distinct_bound xs two64 Hnd eq_refl Hb) as Hlen.
  pose proof (Nat.log2_spec (S (Datatypes.length xs)) ltac:(lia)) as [Hl _].
  destruct (Nat.le_gt_cases (Nat.log2 (S (Datatypes.length xs))) 64) as [| Hgt]; [lia | exfalso].
  apply Nat2Z.inj_le in Hl. rewrite Nat2Z.inj_pow in Hl.
  assert (2 ^ 65 <= 2 ^ Z.of_nat (Nat.log2 (S (Datatypes.length xs)))) by (apply Z.pow_le_mono_r; lia).
  change (2 ^ 65) with 36893488147419103232 in *. unfold two64 in Hlen. lia.
Qed.

(** ** First fit *)

Section FirstFit.
Variable h : hooks.
Variable d : ptr -> VmHole.
Variable len : Z.
Hypothesis len_pos : 0 < len.

Definition fits_len (x : ptr) : Prop := len <= hole_length (d x).
#[export] Instance fits_len_dec x : Decision (fits_len x) := decide (len <= hole_length (d x)).

Lemma to_N_le a b : 0 < a -> (Z.to_N a <= Z.to_N b)%N <-> a <= b.
Proof. lia. Qed.

(** A subtree's aggregate tells whether it holds a long enough hole. *)
Lemma largest_fits c l p r : aggd d (T c l p r) ->
  (len <= largestHole (d p) <-> Exists fits_len (inorder (T c l p r))).
Proof.
  intros [Hv _]. change (value d p) with (Z.to_N (largestHole (d p))) in Hv.
  change (inorder (T c l p r)) with (inorder l ++ p :: inorder r).
  assert (Hm : forall xs, (Z.to_N len <= msum (Aggregate := VmHoleAggregate) d xs)%N <-> Exists fits_len xs).
  { induction xs as [| x xs IH].
    - split; [intros Hx; change (Z.to_N len <= 0)%N in Hx; lia | inversion 1].
    - change ((Z.to_N len <= N.max (Z.to_N (hole_length (d x))) (msum (Aggregate := VmHoleAggregate) d xs))%N <->
              Exists fits_len (x :: xs)).
      rewrite Exists_cons, <- IH. unfold fits_len. rewrite N.max_le_iff, to_N_le by exact len_pos. reflexivity. }
  rewrite <- Hm, <- Hv, to_N_le by exact len_pos. reflexivity.
Qed.

Lemma head_filter_app (xs ys : list ptr) :
  head (filter fits_len (xs ++ ys)) =
  match head (filter fits_len xs) with Some x => Some x | None => head (filter fits_len ys) end.
Proof. rewrite filter_app. destruct (filter fits_len xs); reflexivity. Qed.

Lemma head_filter_none (xs : list ptr) : ~ Exists fits_len xs -> head (filter fits_len xs) = None.
Proof.
  intros H. destruct (filter fits_len xs) as [| x l] eqn:E; [reflexivity |]. exfalso. apply H.
  assert (Hx : x ∈ filter fits_len xs) by (rewrite E; left). apply list_elem_of_filter in Hx as [? ?].
  apply Exists_exists. eauto.
Qed.

Lemma head_filter_some (xs : list ptr) : Exists fits_len xs -> exists x, head (filter fits_len xs) = Some x.
Proof.
  intros (x & Hx & Hf)%Exists_exists. destruct (filter fits_len xs) as [| y l] eqn:E; [| simpl; eauto].
  assert (Hin : x ∈ filter fits_len xs) by (apply list_elem_of_filter; auto). rewrite E in Hin. inversion Hin.
Qed.

Lemma find_hole_at : forall fuel k c l p r,
  at_ VmHoleAggregate h d k (T c l p r) -> (height (T c l p r) <= fuel)%nat ->
  find_hole fuel h d len p = Ok (head (filter fits_len (inorder (T c l p r)))).
Proof.
  induction fuel as [| fuel IH]; intros k c l p r H Hf; [simpl in Hf; lia |].
  destruct (at_fields _ _ _ _ _ _ _ _ H) as (_ & Lp & Rp & _).
  pose proof (at_agg _ _ _ _ _ H) as Hag. simpl in Hag. destruct Hag as (_ & Al & Ar).
  cbn [find_hole inorder]. unfold GetLeft, GetRight. rewrite Lp, Rp. cbn [height] in Hf.
  rewrite head_filter_app, filter_cons.
  assert (HL : (match rootp l with Some l => if len <=? largestHole (d l) then Some l else None | None => None end)
    = if decide (Exists fits_len (inorder l)) then rootp l else None).
  { destruct l as [| c1 l1 p1 r1].
    - simpl rootp. cbn iota. rewrite decide_False; [reflexivity | inversion 1].
    - simpl rootp. cbn iota. pose proof (largest_fits _ _ _ _ Al) as Hl.
      destruct (Z.leb_spec len (largestHole (d p1))) as [Hle | Hgt].
      + rewrite decide_True; [reflexivity | apply Hl, Hle].
      + rewrite decide_False; [reflexivity |]. intros He%Hl. lia. }
  rewrite HL. case_decide as Hel.
  - destruct l as [| c1 l1 p1 r1]; [inversion Hel |]. simpl rootp. cbn iota.
    rewrite (IH (FL c p r :: k) c1 l1 p1 r1); [| rewrite at_FL; assumption | cbn [height] in *; lia].
    destruct (head_filter_some _ Hel) as (x & ->). reflexivity.
  - rewrite (head_filter_none _ Hel). fold (fits_len p).
    destruct (Z.leb_spec len (hole_length (d p))) as [Hle | Hgt].
    + rewrite decide_True by assumption. reflexivity.
    + rewrite decide_False by (unfold fits_len; lia).
      destruct r as [| c1 l1 p1 r1]; [reflexivity |]. simpl rootp. cbn iota.
      pose proof (largest_fits _ _ _ _ Ar) as Hl.
      destruct (Z.leb_spec len (largestHole (d p1))) as [Hle1 | Hgt1].
      * apply (IH (FR c l p :: k)); [rewrite at_FR; assumption | cbn [height] in *; lia].
      * rewrite head_filter_none; [reflexivity |]. intros He%Hl. lia.
Qed.

(** The search finds the first hole, in address order, that is long enough, and fails only
    when there is none. *)
Lemma find_hole_spec hs p : hole_tree h d hs -> enough_fuel TreeFuel hs -> GetRoot h = Some p ->
  find_hole TreeFuel h d len p = Ok (head (filter fits_len hs)).
Proof.
  intros (t & m & H & Hrb & <- & _) Hf Hr. pose proof (rb_log _ _ Hrb). unfold enough_fuel in Hf.
  pose proof (at_ctx _ _ _ _ _ H) as Hroot. simpl in Hroot. unfold GetRoot in Hr.
  destruct t as [| c l q r]; simpl in Hroot; [congruence |]. assert (q = p) as -> by congruence.
  apply (find_hole_at TreeFuel [] c l p r H). lia.
Qed.
End FirstFit.

(** ** Lookup of an address *)

(** Items in address order whose intervals do not overlap. *)
Definition ordered (lo hi : ptr -> Z) (xs : list ptr) : Prop := StronglySorted (fun a b => hi a <= lo b) xs.

Lemma ordered_app lo hi xs ys : ordered lo hi (xs ++ ys) <->
  ordered lo hi xs /\ ordered lo hi ys /\ forall x y, x ∈ xs -> y ∈ ys -> hi x <= lo y.
Proof.
  unfold ordered. induction xs as [| x xs IH]; simpl.
  - split; [intros H; split_and!; [constructor | assumption | set_solver] | tauto].
  - split.
    + intros H. inversion H as [| ? ? H1 H2]; subst. apply IH in H1 as (? & ? & Hxy).
      rewrite Forall_app, !Forall_forall in H2. destruct H2 as [H2 H3]. split_and!; auto.
      * constructor; [assumption |]. rewrite Forall_forall. assumption.
      * intros z y [-> | Hz]%elem_of_cons Hy; [apply H3, Hy | apply Hxy; assumption].
    + intros (H1 & H2 & H3). inversion H1 as [| ? ? H4 H5]; subst. constructor.
      * apply IH. split_and!; auto. intros z y Hz Hy. apply H3; [right |]; assumption.
      * rewrite Forall_app. split; [assumption |]. rewrite Forall_forall. intros y Hy. apply H3; [left | assumption].
Qed.

Lemma ordered_cons lo hi x xs : ordered lo hi (x :: xs) <-> ordered lo hi xs /\ forall y, y ∈ xs -> hi x <= lo y.
Proof.
  unfold ordered. split.
  - intros H. inversion H as [| ? ? H1 H2]; subst. rewrite Forall_forall in H2. auto.
  - intros [H1 H2]. constructor; [assumption | rewrite Forall_forall; assumption].
Qed.

Section Find.
Variable h : hooks.
Variable d : ptr -> VmRange.
Variable addr : Z.

Definition covers (x : ptr) : Prop := base (d x) <= addr < base (d x) + length (d x).

(** The range that covers the address, or none. *)
Definition lookup_of (xs : list ptr) (o : option ptr) : Prop :=
  match o with
  | Some s => s ∈ xs /\ covers s
  | None => forall x, x ∈ xs -> ~ covers x
  end.

Lemma FindRange_loop_at : forall fuel k t,
  at_ (V := unit) (J := ptr -> VmRange) NullAggregate h d k t ->
  ordered (fun p => base (d p)) (fun p => base (d p) + length (d p)) (inorder t) ->
  (forall x, x ∈ inorder t -> 0 < length (d x) /\ 0 <= base (d x) + length (d x) < two64) -> (height t <= fuel)%nat ->
  exists o, FindRange_loop fuel h d addr (rootp t) = Ok o /\ lookup_of (inorder t) o.
Proof.
  induction fuel as [| fuel IH]; intros k t H Ho Hb Hf.
  { destruct t; simpl in *; [| lia]. exists None. split; [reflexivity | intros x Hx; inversion Hx]. }
  destruct t as [| c l p r]; simpl rootp.
  { exists None. split; [reflexivity | intros x Hx; inversion Hx]. }
  destruct (at_fields _ _ _ _ _ _ _ _ H) as (_ & Lp & Rp & _). cbn [inorder height] in *.
  apply ordered_app in Ho as (Hol & Hor & Hlr). apply ordered_cons in Hor as [Hor Hpr].
  destruct (Hb p) as [Hlen Htop]; [set_solver + |].
  cbn [FindRange_loop]. unfold Top. rewrite u64_small by assumption. unfold GetLeft, GetRight. rewrite Lp, Rp.
  destruct (Z.leb_spec (base (d p)) addr) as [Hge | Hlt]; cbn [andb].
  - destruct (Z.ltb_spec addr (base (d p) + length (d p))) as [Hin | Hout].
    + exists (Some p). split; [reflexivity |]. split; [set_solver + | unfold covers; lia].
    + destruct (Z.ltb_spec addr (base (d p))); [lia |].
      destruct (Z.leb_spec (base (d p) + length (d p)) addr); [| lia].
      destruct (IH (FR c l p :: k) r) as (o & -> & Hlk); [rewrite at_FR; assumption | assumption | | lia |].
      { intros x Hx. apply Hb. set_solver +Hx. }
      exists o. split; [reflexivity |]. destruct o as [s |]; simpl in *.
      * split; [set_solver +Hlk | apply Hlk].
      * intros x [Hx | [-> | Hx]%elem_of_cons]%elem_of_app; [| unfold covers; lia | apply Hlk, Hx].
        specialize (Hlr x p Hx ltac:(left)). unfold covers. simpl in Hlr. lia.
  - destruct (Z.ltb_spec addr (base (d p))); [| lia].
    destruct (IH (FL c p r :: k) l) as (o & -> & Hlk); [rewrite at_FL; assumption | assumption | | lia |].
    { intros x Hx. apply Hb. set_solver +Hx. }
    exists o. split; [reflexivity |]. destruct o as [s |]; simpl in *.
    + split; [set_solver +Hlk | apply Hlk].
    + intros x [Hx | [-> | Hx]%elem_of_cons]%elem_of_app; [apply Hlk, Hx | unfold covers; lia |].
      specialize (Hpr x Hx). unfold covers. simpl in Hpr. lia.
Qed.

Lemma FindRange_tree rs : range_tree h d rs -> enough_fuel TreeFuel rs ->
  ordered (fun p => base (d p)) (fun p => base (d p) + length (d p)) rs ->
  (forall x, x ∈ rs -> 0 < length (d x) /\ 0 <= base (d x) + length (d x) < two64) ->
  exists o, FindRange_loop TreeFuel h d addr (GetRoot h) = Ok o /\ lookup_of rs o.
Proof.
  intros (t & m & H & Hrb & <- & _) Hf Ho Hb. pose proof (rb_log _ _ Hrb). unfold enough_fuel in Hf.
  pose proof (at_ctx _ _ _ _ _ H) as Hroot. simpl in Hroot. unfold GetRoot. rewrite Hroot.
  apply (FindRange_loop_at TreeFuel [] t H Ho Hb). lia.
Qed.
End Find.
