(* ===== verification/VmmProofs.v ===== *)
(** The address-space invariant of the virtual memory manager and its preservation by the
    steps the operations of [Vmm.v] are made of. *)

From Stdlib Require Import Sorting.Sorted.
From S2P Require Import Prelude Maths Bitmap Pmm RBTree RBTreeProofs RBTreeFix RBTreeOps RBTreeRemove Flags VmmMeta Vmm VmmTree.

(** ** Ordered intervals *)

(** Where an interval that overlaps none of them belongs. *)
Lemma ordered_cut lo hi xs b len :
  ordered lo hi xs -> (forall x, x ∈ xs -> lo x < hi x) -> 0 < len ->
  (forall x, x ∈ xs -> hi x <= b \/ b + len <= lo x) ->
  exists l r, xs = l ++ r /\ (forall x, x ∈ l -> hi x <= b /\ (b <? lo x) = false) /\
    (forall x, x ∈ r -> b + len <= lo x /\ (b <? lo x) = true).
Proof.
  intros Ho Hp Hl Hd. induction xs as [| x xs IH].
  - exists [], []. split; [reflexivity |]. split; intros y Hy; inversion Hy.
  - apply ordered_cons in Ho as [Ho Hx].
    destruct (Z.ltb_spec b (lo x)) as [Hlt | Hge].
    + exists [], (x :: xs). split; [reflexivity |]. split; [intros y Hy; inversion Hy |].
      intros y Hy. assert (Hby : b < lo y).
      { apply elem_of_cons in Hy as [-> | Hy]; [assumption |]. specialize (Hx y Hy).
        specialize (Hp x ltac:(left)). lia. }
      specialize (Hd y Hy). specialize (Hp y Hy). split; [lia | apply Z.ltb_lt; assumption].
    + destruct IH as (l & r & -> & H1 & H2); auto.
      * intros y Hy. apply Hp. right. assumption.
      * intros y Hy. apply Hd. right. assumption.
      * exists (x :: l), r. split; [reflexivity |]. split; [| assumption].
        intros y [-> | Hy]%elem_of_cons; [| apply H1, Hy].
        specialize (Hd x ltac:(left)). split; [lia | apply Z.ltb_ge; lia].
Qed.

Lemma ordered_ext lo hi lo' hi' xs :
  (forall x, x ∈ xs -> lo' x = lo x /\ hi' x = hi x) -> ordered lo hi xs -> ordered lo' hi' xs.
Proof.
  intros He. induction xs as [| x xs IH]; intros Ho; [constructor |].
  apply ordered_cons in Ho as [Ho Hx]. apply ordered_cons. split.
  - apply IH; [intros y Hy; apply He; right; assumption | assumption].
  - intros y Hy. destruct (He x ltac:(left)) as [_ ->]. destruct (He y ltac:(right; assumption)) as [-> _]. auto.
Qed.

Lemma ordered_insert lo hi l p r :
  ordered lo hi (l ++ r) -> (forall x, x ∈ l -> hi x <= lo p) -> (forall x, x ∈ r -> hi p <= lo x) ->
  ordered lo hi (l ++ p :: r).
Proof.
  intros Ho Hl Hr. apply ordered_app in Ho as (H1 & H2 & H3). apply ordered_app. split_and!; auto.
  - apply ordered_cons. auto.
  - intros x y Hx [-> | Hy]%elem_of_cons; auto.
Qed.

Lemma ordered_remove lo hi l p r : ordered lo hi (l ++ p :: r) -> ordered lo hi (l ++ r).
Proof.
  intros (H1 & H2 & H3)%ordered_app. apply ordered_cons in H2 as [H2 _]. apply ordered_app.
  split_and!; auto. intros x y Hx Hy. apply H3; [| right]; assumption.
Qed.

(** ** The address space *)

Definition hlo (v : VMM) (p : ptr) : Z := hole_base (holeData v p).
Definition hhi (v : VMM) (p : ptr) : Z := hole_base (holeData v p) + hole_length (holeData v p).
Definition rlo (v : VMM) (p : ptr) : Z := base (rangeData v p).
Definition rhi (v : VMM) (p : ptr) : Z := base (rangeData v p) + length (rangeData v p).

(** An interval of the managed space. *)
Definition inside (v : VMM) (lo hi : Z) : Prop := globalLowerBound v <= lo /\ lo < hi /\ hi <= globalUpperBound v.
(** Intervals without a common address. *)
Definition apart (a b c d : Z) : Prop := b <= c \/ d <= a.

Section Space.
Context {W : Type} `{!MetaPages W}.
Variable hhdmBase : Z.
Hypothesis hhdm_pos : 0 <= hhdmBase.
Hypothesis hhdm_room : forall w p w', mp_inv w -> mp_alloc w = Ok (p, w') -> p + hhdmBase + PageSize + PageSize <= two64.

(** The holes [hs] and the ranges [rs] of a manager: two ordered trees of intervals inside
    the bounds, no two of which overlap, whose structures are entries of the manager's slabs. *)
Record space (v : VMM) (w : W) (hs rs : list ptr) : Prop := mkSpace {
  sp_holes : hole_tree (holes v) (holeData v) hs;
  sp_ranges : range_tree (ranges v) (rangeData v) rs;
  sp_hord : ordered (hlo v) (hhi v) hs;
  sp_rord : ordered (rlo v) (rhi v) rs;
  sp_hin : forall p, p ∈ hs -> inside v (hlo v p) (hhi v p);
  sp_rin : forall p, p ∈ rs -> inside v (rlo v p) (rhi v p);
  sp_apart : forall p q, p ∈ hs -> q ∈ rs -> apart (hlo v p) (hhi v p) (rlo v q) (rhi v q);
  sp_bounds : 0 < globalLowerBound v /\ globalUpperBound v < two64;
  sp_hmeta : meta_inv hhdmBase MetaHole (holeSlabs v) w;
  sp_rmeta : meta_inv hhdmBase MetaRange (rangeSlabs v) w;
  sp_hused : forall p, p ∈ hs -> meta_used MetaHole (holeSlabs v) (Zpos p);
  sp_rused : forall p, p ∈ rs -> meta_used MetaRange (rangeSlabs v) (Zpos p);
  sp_pages : mp_inv w
}.

Lemma meta_used_bound type slabs w a :
  meta_inv hhdmBase type slabs w -> meta_used type slabs a -> 0 < a < two64.
Proof.
  intros (fs & _ & HF & _) (i & s & Hi & k & Hk & _ & ->)%used_lookup.
  destruct (Forall2_lookup_r _ _ _ _ _ HF Hi) as (f & _ & Hs).
  apply (entry_page hhdmBase hhdm_pos type f s k Hs Hk).
Qed.

Lemma space_fuel v w hs rs : space v w hs rs -> enough_fuel TreeFuel hs /\ enough_fuel TreeFuel rs.
Proof.
  intros H. split; apply TreeFuel_enough.
  - exact (tree_of_NoDup VmHoleAggregate _ _ _ (sp_holes _ _ _ _ H)).
  - intros p Hp. apply (meta_used_bound MetaHole (holeSlabs v) w); [apply H | apply H, Hp].
  - exact (tree_of_NoDup NullAggregate _ _ _ (sp_ranges _ _ _ _ H)).
  - intros p Hp. apply (meta_used_bound MetaRange (rangeSlabs v) w); [apply H | apply H, Hp].
Qed.

Lemma meta_inv_mono type slabs w w' :
  (forall f, mp_mine w f -> mp_mine w' f) -> meta_inv hhdmBase type slabs w -> meta_inv hhdmBase type slabs w'.
Proof. intros Hm (fs & H1 & H2 & H3). exists fs. auto. Qed.

(** The manager's frames are still its own, and its pages are in order. *)
Definition world_kept (w w' : W) : Prop := mp_inv w' /\ forall f, mp_mine w f -> mp_mine w' f.

Lemma space_world v w w' hs rs : space v w hs rs -> world_kept w w' -> space v w' hs rs.
Proof.
  intros [H1 H2 H3 H4 H5 H6 H7 H8 H9 H10 H11 H12 H13] [Hi Hm]. constructor; auto; eapply meta_inv_mono; eauto.
Qed.

Lemma space_stats v w st hs rs : space v w hs rs -> space (set_stats v st) w hs rs.
Proof. intros [H1 H2 H3 H4 H5 H6 H7 H8 H9 H10 H11 H12 H13]. constructor; auto. Qed.

(** ** Steps on holes *)

(** What a step on holes leaves alone. *)
Definition ranges_kept (v v' : VMM) : Prop :=
  ranges v' = ranges v /\ rangeData v' = rangeData v /\ rangeSlabs v' = rangeSlabs v /\
  globalLowerBound v' = globalLowerBound v /\ globalUpperBound v' = globalUpperBound v /\ stats v' = stats v.

Lemma ranges_kept_refl v : ranges_kept v v.
Proof. repeat split. Qed.

Lemma ranges_kept_trans v1 v2 v3 : ranges_kept v1 v2 -> ranges_kept v2 v3 -> ranges_kept v1 v3.
Proof. unfold ranges_kept. intuition congruence. Qed.

(** A space whose holes changed and whose ranges did not. *)
Lemma space_holes v v' w w' hs hs' rs :
  space v w hs rs -> ranges_kept v v' -> world_kept w w' ->
  hole_tree (holes v') (holeData v') hs' -> ordered (hlo v') (hhi v') hs' ->
  (forall p, p ∈ hs' -> inside v (hlo v' p) (hhi v' p)) ->
  (forall p q, p ∈ hs' -> q ∈ rs -> apart (hlo v' p) (hhi v' p) (rlo v q) (rhi v q)) ->
  meta_inv hhdmBase MetaHole (holeSlabs v') w' ->
  (forall p, p ∈ hs' -> meta_used MetaHole (holeSlabs v') (Zpos p)) ->
  space v' w' hs' rs.
Proof.
  intros H (E1 & E2 & E3 & E4 & E5 & E6) [Hi Hm] G1 G2 G3 G4 G5 G6. destruct H.
  assert (Er : rlo v' = rlo v /\ rhi v' = rhi v) by (unfold rlo, rhi; rewrite E2; auto). destruct Er as [El Eh].
  constructor; unfold inside in *; rewrite ?E1, ?E2, ?E3, ?E4, ?E5, ?El, ?Eh; auto.
  eapply meta_inv_mono; eauto.
Qed.

Lemma new_hole_spec v w hs rs b len p v' w' :
  space v w hs rs -> new_hole hhdmBase v w b len = Ok (p, v', w') ->
  space v' w' hs rs /\ world_kept w w' /\ ranges_kept v v' /\ (p ∉ hs) /\ holeData v' p = mkHole b len 0 /\
  (forall x, x <> p -> holeData v' x = holeData v x) /\ meta_used MetaHole (holeSlabs v') (Zpos p) /\
  (forall a, meta_used MetaHole (holeSlabs v) a -> meta_used MetaHole (holeSlabs v') a).
Proof.
  intros H E. unfold new_hole in E. destruct (AllocMeta hhdmBase MetaHole (holeSlabs v) w) as [[[a slabs] w1] | |] eqn:Ea;
    try discriminate. cbn in E. injection E as <- <- <-.
  destruct (AllocMeta_spec hhdmBase hhdm_pos hhdm_room MetaHole _ w a slabs w1 (sp_hmeta _ _ _ _ H) (sp_pages _ _ _ _ H) Ea)
    as (Hinv & Hi & Hm & Ha & Hnot & Hused).
  assert (Epos : Zpos (Z.to_pos a) = a) by (apply Z2Pos.id; lia).
  assert (Hp : Z.to_pos a ∉ hs) by (intros Hin; apply Hnot; rewrite <- Epos; apply H, Hin).
  assert (Hdata : forall x, x <> Z.to_pos a -> upd (holeData v) (Z.to_pos a) (mkHole b len 0) x = holeData v x)
    by (intros x Hx; unfold upd; rewrite decide_False by assumption; reflexivity).
  split_and!; try (split; assumption); auto; try (repeat split; fail).
  - assert (Hd : forall x, x ∈ hs -> upd (holeData v) (Z.to_pos a) (mkHole b len 0) x = holeData v x)
      by (intros x Hx; apply Hdata; intros ->; exact (Hp Hx)).
    apply (space_holes v _ w _ hs); auto; try (repeat split; fail); [split; assumption | | | | |]; simpl.
    + apply tree_of_construct; [assumption |]. apply (tree_of_data _ _ (holeData v)); [| apply H].
      intros x Hx. unfold own, value; simpl. rewrite Hd by assumption. auto.
    + apply (ordered_ext (hlo v) (hhi v)); [| apply H]. intros x Hx. unfold hlo, hhi. simpl. rewrite Hd by assumption. auto.
    + intros x Hx. unfold hlo, hhi; simpl. rewrite Hd by assumption. apply (sp_hin _ _ _ _ H x Hx).
    + intros x q Hx Hq. unfold hlo, hhi; simpl. rewrite Hd by assumption. apply (sp_apart _ _ _ _ H x q Hx Hq).
    + intros x Hx. apply Hused. left. apply H, Hx.
  - simpl. unfold upd. rewrite decide_True by reflexivity. reflexivity.
  - simpl. rewrite Epos. apply Hused. auto.
  - intros x Hx. apply Hused. auto.
Qed.

(** The intervals are the same. *)
Definition spans_kept (v v' : VMM) : Prop :=
  holeSlabs v' = holeSlabs v /\ forall x, hlo v' x = hlo v x /\ hhi v' x = hhi v x.

Lemma insert_hole_spec v w hs rs p :
  space v w hs rs -> (p ∉ hs) -> meta_used MetaHole (holeSlabs v) (Zpos p) -> inside v (hlo v p) (hhi v p) ->
  (forall q, q ∈ hs -> apart (hlo v p) (hhi v p) (hlo v q) (hhi v q)) ->
  (forall q, q ∈ rs -> apart (hlo v p) (hhi v p) (rlo v q) (rhi v q)) ->
  exists v' hs', insert_hole v p = Ok v' /\ space v' w hs' rs /\ hs' ≡ₚ p :: hs /\
    ranges_kept v v' /\ spans_kept v v'.
Proof.
  intros H Hp Hu Hin Hah Har. destruct (space_fuel v w hs rs H) as [Hf _].
  destruct Hin as (Hlo & Hlen & Hhi).
  destruct (ordered_cut (hlo v) (hhi v) hs (hlo v p) (hhi v p - hlo v p)) as (l & r & -> & Hl & Hr).
  - apply H.
  - intros x Hx. apply (sp_hin _ _ _ _ H x Hx).
  - lia.
  - intros x Hx. destruct (Hah x Hx) as [? | ?]; [right; lia | left; lia].
  - destruct (tree_of_insert VmHoleAggregate VmHoleLess TreeFuel (holes v) (holeData v) p l r) as (h2 & d2 & E & Ht & Ho).
    + apply H.
    + assumption.
    + intros x Hx. apply Hl, Hx.
    + intros x Hx. apply Hr, Hx.
    + assumption.
    + unfold insert_hole. rewrite E. cbn [mbind res_bind].
      assert (Hd : forall x, hlo (set_holes v h2 d2) x = hlo v x /\ hhi (set_holes v h2 d2) x = hhi v x).
      { intros x. specialize (Ho x). simpl in Ho. unfold hlo, hhi. simpl. injection Ho as -> ->. auto. }
      assert (Hperm : l ++ p :: r ≡ₚ p :: l ++ r) by solve_Permutation.
      eexists _, (l ++ p :: r). split; [reflexivity |].
      split; [| split; [exact Hperm | split; [repeat split | split; [reflexivity | exact Hd]]]].
      apply (space_holes v _ w w (l ++ r)); auto; try (repeat split; fail).
      * split; [apply H | auto].
      * apply (ordered_ext (hlo v) (hhi v)); [auto |]. apply ordered_insert; [apply H | | ].
        -- intros x Hx. apply Hl, Hx.
        -- intros x Hx. specialize (Hr x Hx). lia.
      * intros x Hx. rewrite Hperm in Hx. destruct (Hd x) as [-> ->].
        apply elem_of_cons in Hx as [-> | Hx]; [split_and!; auto | apply H, Hx].
      * intros x q Hx Hq. rewrite Hperm in Hx. destruct (Hd x) as [-> ->].
        apply elem_of_cons in Hx as [-> | Hx]; [auto | apply (sp_apart _ _ _ _ H); assumption].
      * apply H.
      * intros x Hx. rewrite Hperm in Hx. apply elem_of_cons in Hx as [-> | Hx]; [assumption | apply H, Hx].
Qed.

Lemma remove_hole_spec v w hs rs p :
  space v w hs rs -> p ∈ hs ->
  exists v' hs', remove_hole v p = Ok v' /\ space v' w hs' rs /\ hs ≡ₚ p :: hs' /\
    ranges_kept v v' /\ spans_kept v v'.
Proof.
  intros H Hp. destruct (space_fuel v w hs rs H) as [Hf _].
  apply list_elem_of_split in Hp as (l & r & ->).
  destruct (tree_of_remove VmHoleAggregate TreeFuel (holes v) (holeData v) p l r) as (h2 & d2 & E & Ht & Ho);
    [apply H | assumption |].
  unfold remove_hole. rewrite E. cbn [mbind res_bind].
  assert (Hd : forall x, hlo (set_holes v h2 d2) x = hlo v x /\ hhi (set_holes v h2 d2) x = hhi v x).
  { intros x. specialize (Ho x). simpl in Ho. unfold hlo, hhi. simpl. injection Ho as -> ->. auto. }
  assert (Hperm : l ++ p :: r ≡ₚ p :: l ++ r) by solve_Permutation.
  assert (Hsub : forall x, x ∈ l ++ r -> x ∈ l ++ p :: r) by (intros x Hx; rewrite Hperm; right; assumption).
  eexists _, (l ++ r). split; [reflexivity |].
  split; [| split; [exact Hperm | split; [repeat split | split; [reflexivity | exact Hd]]]].
  apply (space_holes v _ w w (l ++ p :: r)); auto; try (repeat split; fail).
  - split; [apply H | auto].
  - apply (ordered_ext (hlo v) (hhi v)); [auto |]. eapply ordered_remove. apply H.
  - intros x Hx. destruct (Hd x) as [-> ->]. apply H, Hsub, Hx.
  - intros x q Hx Hq. destruct (Hd x) as [-> ->]. apply (sp_apart _ _ _ _ H); auto.
  - apply H.
  - intros x Hx. apply H, Hsub, Hx.
Qed.

Lemma FreeMeta_hole_spec v w hs rs p :
  space v w hs rs -> (p ∉ hs) -> meta_used MetaHole (holeSlabs v) (Zpos p) ->
  exists v', FreeMeta_hole v p = Ok v' /\ space v' w hs rs /\ ranges_kept v v' /\
    holes v' = holes v /\ holeData v' = holeData v /\
    (forall a, meta_used MetaHole (holeSlabs v') a <-> meta_used MetaHole (holeSlabs v) a /\ a <> Zpos p).
Proof.
  intros H Hp Hu.
  destruct (FreeMeta_spec hhdmBase hhdm_pos MetaHole (holeSlabs v) w (Zpos p) (sp_hmeta _ _ _ _ H) Hu) as (sl & E & Hi & Hiff).
  unfold FreeMeta_hole. rewrite E. cbn. eexists. split; [reflexivity |].
  split; [| repeat split; auto; apply Hiff; assumption].
  destruct H. constructor; auto.
  intros x Hx. simpl. apply Hiff. split; [auto |]. intros [= ->]. contradiction.
Qed.

(** ** Steps on ranges *)

Definition holes_kept (v v' : VMM) : Prop :=
  holes v' = holes v /\ holeData v' = holeData v /\ holeSlabs v' = holeSlabs v /\
  globalLowerBound v' = globalLowerBound v /\ globalUpperBound v' = globalUpperBound v /\ stats v' = stats v.

Lemma space_ranges v v' w w' hs rs rs' :
  space v w hs rs -> holes_kept v v' -> world_kept w w' ->
  range_tree (ranges v') (rangeData v') rs' -> ordered (rlo v') (rhi v') rs' ->
  (forall p, p ∈ rs' -> inside v (rlo v' p) (rhi v' p)) ->
  (forall p q, p ∈ hs -> q ∈ rs' -> apart (hlo v p) (hhi v p) (rlo v' q) (rhi v' q)) ->
  meta_inv hhdmBase MetaRange (rangeSlabs v') w' ->
  (forall p, p ∈ rs' -> meta_used MetaRange (rangeSlabs v') (Zpos p)) ->
  space v' w' hs rs'.
Proof.
  intros H (E1 & E2 & E3 & E4 & E5 & E6) [Hi Hm] G1 G2 G3 G4 G5 G6. destruct H.
  assert (Er : hlo v' = hlo v /\ hhi v' = hhi v) by (unfold hlo, hhi; rewrite E2; auto). destruct Er as [El Eh].
  constructor; unfold inside in *; rewrite ?E1, ?E2, ?E3, ?E4, ?E5, ?El, ?Eh; auto.
  eapply meta_inv_mono; eauto.
Qed.

(** The range trees do not look at the data. *)
Lemma range_tree_data h d d' rs : range_tree h d rs -> range_tree h d' rs.
Proof. apply (tree_of_data NullAggregate). intros x _. split; reflexivity. Qed.

(** Fields other than the interval may change. *)
Lemma space_rangeData v w hs rs d :
  space v w hs rs -> (forall x, x ∈ rs -> base (d x) = base (rangeData v x) /\ length (d x) = length (rangeData v x)) ->
  space (set_ranges v (ranges v) d) w hs rs.
Proof.
  intros H Hd.
  assert (He : forall x, x ∈ rs -> rlo (set_ranges v (ranges v) d) x = rlo v x /\ rhi (set_ranges v (ranges v) d) x = rhi v x).
  { intros x Hx. unfold rlo, rhi; simpl. destruct (Hd x Hx) as [-> ->]. auto. }
  apply (space_ranges v _ w w hs rs); auto; try (repeat split; fail).
  - split; [apply H | auto].
  - eapply range_tree_data. apply H.
  - apply (ordered_ext (rlo v) (rhi v)); [assumption | apply H].
  - intros x Hx. destruct (He x Hx) as [-> ->]. apply H, Hx.
  - intros x q Hx Hq. destruct (He q Hq) as [-> ->]. apply (sp_apart _ _ _ _ H); assumption.
  - apply H.
  - apply H.
Qed.

Lemma new_range_spec v w hs rs r p v' w' :
  space v w hs rs -> new_range hhdmBase v w r = Ok (p, v', w') ->
  space v' w' hs rs /\ world_kept w w' /\ holes_kept v v' /\ (p ∉ rs) /\ rangeData v' p = r /\
  (forall x, x <> p -> rangeData v' x = rangeData v x) /\ meta_used MetaRange (rangeSlabs v') (Zpos p) /\
  (forall a, meta_used MetaRange (rangeSlabs v) a -> meta_used MetaRange (rangeSlabs v') a).
Proof.
  intros H E. unfold new_range in E. destruct (AllocMeta hhdmBase MetaRange (rangeSlabs v) w) as [[[a slabs] w1] | |] eqn:Ea;
    try discriminate. cbn in E. injection E as <- <- <-.
  destruct (AllocMeta_spec hhdmBase hhdm_pos hhdm_room MetaRange _ w a slabs w1 (sp_rmeta _ _ _ _ H) (sp_pages _ _ _ _ H) Ea)
    as (Hinv & Hi & Hm & Ha & Hnot & Hused).
  assert (Epos : Zpos (Z.to_pos a) = a) by (apply Z2Pos.id; lia).
  assert (Hp : Z.to_pos a ∉ rs) by (intros Hin; apply Hnot; rewrite <- Epos; apply H, Hin).
  assert (Hdata : forall x, x <> Z.to_pos a -> upd (rangeData v) (Z.to_pos a) r x = rangeData v x)
    by (intros x Hx; unfold upd; rewrite decide_False by assumption; reflexivity).
  split_and!; try (split; assumption); auto; try (repeat split; fail).
  - assert (Hd : forall x, x ∈ rs -> upd (rangeData v) (Z.to_pos a) r x = rangeData v x)
      by (intros x Hx; apply Hdata; intros ->; exact (Hp Hx)).
    apply (space_ranges v _ w _ hs rs); auto; try (repeat split; fail); [split; assumption | | | | |]; simpl.
    + apply (tree_of_construct NullAggregate); [assumption |]. eapply range_tree_data. apply H.
    + apply (ordered_ext (rlo v) (rhi v)); [| apply H]. intros x Hx. unfold rlo, rhi. simpl. rewrite Hd by assumption. auto.
    + intros x Hx. unfold rlo, rhi; simpl. rewrite Hd by assumption. apply (sp_rin _ _ _ _ H x Hx).
    + intros x q Hx Hq. unfold rlo, rhi; simpl. rewrite Hd by assumption. apply (sp_apart _ _ _ _ H x q Hx Hq).
    + intros x Hx. apply Hused. left. apply H, Hx.
  - simpl. unfold upd. rewrite decide_True by reflexivity. reflexivity.
  - simpl. rewrite Epos. apply Hused. auto.
  - intros x Hx. apply Hused. auto.
Qed.

Lemma insert_range_spec v w hs rs p :
  space v w hs rs -> (p ∉ rs) -> meta_used MetaRange (rangeSlabs v) (Zpos p) -> inside v (rlo v p) (rhi v p) ->
  (forall q, q ∈ rs -> apart (rlo v p) (rhi v p) (rlo v q) (rhi v q)) ->
  (forall q, q ∈ hs -> apart (hlo v q) (hhi v q) (rlo v p) (rhi v p)) ->
  exists v' rs', insert_range v p = Ok v' /\ space v' w hs rs' /\ rs' ≡ₚ p :: rs /\
    holes_kept v v' /\ rangeData v' = rangeData v /\ rangeSlabs v' = rangeSlabs v.
Proof.
  intros H Hp Hu Hin Hah Har. destruct (space_fuel v w hs rs H) as [_ Hf].
  destruct Hin as (Hlo & Hlen & Hhi).
  destruct (ordered_cut (rlo v) (rhi v) rs (rlo v p) (rhi v p - rlo v p)) as (l & r & -> & Hl & Hr).
  - apply H.
  - intros x Hx. apply (sp_rin _ _ _ _ H x Hx).
  - lia.
  - intros x Hx. destruct (Hah x Hx) as [? | ?]; [right; lia | left; lia].
  - destruct (tree_of_insert (J := ptr -> VmRange) NullAggregate VmRangeLess TreeFuel (ranges v) (rangeData v) p l r)
      as (h2 & d2 & E & Ht & Ho).
    + apply H.
    + assumption.
    + intros x Hx. apply Hl, Hx.
    + intros x Hx. apply Hr, Hx.
    + assumption.
    + unfold insert_range. rewrite E. cbn [mbind res_bind].
      specialize (Ho p). simpl in Ho. subst d2.
      assert (Hperm : l ++ p :: r ≡ₚ p :: l ++ r) by solve_Permutation.
      eexists _, (l ++ p :: r). split; [reflexivity |].
      split; [| split; [exact Hperm | repeat split]].
      apply (space_ranges v _ w w hs (l ++ r)); auto; try (repeat split; fail).
      * split; [apply H | auto].
      * apply (ordered_insert (rlo v) (rhi v)); [apply H | | ].
        -- intros x Hx. apply Hl, Hx.
        -- intros x Hx. specialize (Hr x Hx). lia.
      * intros x Hx. rewrite Hperm in Hx.
        apply elem_of_cons in Hx as [-> | Hx]; [split_and!; auto | apply H, Hx].
      * intros x q Hx Hq. rewrite Hperm in Hq.
        apply elem_of_cons in Hq as [-> | Hq]; [apply Har, Hx | apply (sp_apart _ _ _ _ H); assumption].
      * apply H.
      * intros x Hx. rewrite Hperm in Hx. apply elem_of_cons in Hx as [-> | Hx]; [assumption | apply H, Hx].
Qed.

Lemma remove_range_spec v w hs rs p :
  space v w hs rs -> p ∈ rs ->
  exists v' rs', remove_range v p = Ok v' /\ space v' w hs rs' /\ rs ≡ₚ p :: rs' /\
    holes_kept v v' /\ rangeData v' = rangeData v /\ rangeSlabs v' = rangeSlabs v.
Proof.
  intros H Hp. destruct (space_fuel v w hs rs H) as [_ Hf].
  apply list_elem_of_split in Hp as (l & r & ->).
  destruct (tree_of_remove (J := ptr -> VmRange) NullAggregate TreeFuel (ranges v) (rangeData v) p l r)
    as (h2 & d2 & E & Ht & Ho); [apply H | assumption |].
  unfold remove_range. rewrite E. cbn [mbind res_bind]. specialize (Ho p). simpl in Ho. subst d2.
  assert (Hperm : l ++ p :: r ≡ₚ p :: l ++ r) by solve_Permutation.
  assert (Hsub : forall x, x ∈ l ++ r -> x ∈ l ++ p :: r) by (intros x Hx; rewrite Hperm; right; assumption).
  eexists _, (l ++ r). split; [reflexivity |].
  split; [| split; [exact Hperm | repeat split]].
  apply (space_ranges v _ w w hs (l ++ p :: r)); auto; try (repeat split; fail).
  - split; [apply H | auto].
  - eapply ordered_remove. apply (sp_rord _ _ _ _ H).
  - intros x Hx. apply H, Hsub, Hx.
  - intros x q Hx Hq. apply (sp_apart _ _ _ _ H); auto.
  - apply H.
  - intros x Hx. apply H, Hsub, Hx.
Qed.

Lemma FreeMeta_range_spec v w hs rs p :
  space v w hs rs -> (p ∉ rs) -> meta_used MetaRange (rangeSlabs v) (Zpos p) ->
  exists v', FreeMeta_range v p = Ok v' /\ space v' w hs rs /\ holes_kept v v' /\
    ranges v' = ranges v /\ rangeData v' = rangeData v.
Proof.
  intros H Hp Hu.
  destruct (FreeMeta_spec hhdmBase hhdm_pos MetaRange (rangeSlabs v) w (Zpos p) (sp_rmeta _ _ _ _ H) Hu) as (sl & E & Hi & Hiff).
  unfold FreeMeta_range. rewrite E. cbn. eexists. split; [reflexivity |].
  split; [| repeat split].
  destruct H. constructor; auto.
  intros x Hx. simpl. apply Hiff. split; [auto |]. intros [= ->]. contradiction.
Qed.

(** ** Looking up an address *)

Lemma FindRange_spec v w hs rs addr :
  space v w hs rs ->
  exists o, FindRange v addr = Ok o /\
    match o with
    | Some p => p ∈ rs /\ rlo v p <= addr < rhi v p
    | None => forall p, p ∈ rs -> ~ (rlo v p <= addr < rhi v p)
    end.
Proof.
  intros H. unfold FindRange. destruct (space_fuel v w hs rs H) as [_ Hf].
  destruct (Z.ltb_spec addr (globalLowerBound v)) as [Hlt | Hge]; cbn [orb].
  { exists None. split; [reflexivity |]. intros p Hp. pose proof (sp_rin _ _ _ _ H p Hp) as (? & ? & ?). lia. }
  destruct (Z.leb_spec (globalUpperBound v) addr) as [Hle | Hgt].
  { exists None. split; [reflexivity |]. intros p Hp. pose proof (sp_rin _ _ _ _ H p Hp) as (? & ? & ?). lia. }
  destruct (FindRange_tree (ranges v) (rangeData v) addr rs (sp_ranges _ _ _ _ H) Hf (sp_rord _ _ _ _ H))
    as (o & E & Ho).
  - intros x Hx. pose proof (sp_rin _ _ _ _ H x Hx) as (? & ? & ?). pose proof (sp_bounds _ _ _ _ H) as [? ?].
    unfold rlo, rhi in *. lia.
  - exists o. split; [exact E |]. exact Ho.
Qed.

(** Distinct holes, and distinct ranges, do not overlap. *)
Lemma ordered_apart lo hi xs p q : ordered lo hi xs -> NoDup xs -> p ∈ xs -> q ∈ xs -> p <> q -> hi p <= lo q \/ hi q <= lo p.
Proof.
  intros Ho Hnd. induction xs as [| x xs IH]; intros Hp Hq Hne; [inversion Hp |].
  apply ordered_cons in Ho as [Ho Hx]. apply NoDup_cons in Hnd as [Hn Hnd].
  apply elem_of_cons in Hp as [-> | Hp], Hq as [-> | Hq]; [congruence | left; auto | right; auto |].
  apply IH; assumption.
Qed.
End Space.
