(* ===== verification/VmmAlloc.v ===== *)
(** Allocation and release of address space: what [AdjustHole], [Alloc] and [Free] of [Vmm.v]
    do to the holes and ranges of a manager. *)

From S2P Require Import Prelude Maths Bitmap Pmm RBTree RBTreeProofs RBTreeFix RBTreeOps RBTreeRemove Flags VmmMeta Vmm VmmTree VmmProofs.

(** Addresses that belong to a hole, and to a range. *)
Definition hole_addr (v : VMM) (hs : list ptr) (x : Z) : Prop := exists p, p ∈ hs /\ hlo v p <= x < hhi v p.
Definition range_addr (v : VMM) (rs : list ptr) (x : Z) : Prop := exists p, p ∈ rs /\ rlo v p <= x < rhi v p.

Section Alloc.
Context {W : Type} `{!MetaPages W}.
Variable hhdmBase : Z.
Hypothesis hhdm_pos : 0 <= hhdmBase.
Hypothesis hhdm_room : forall w p w', mp_inv w -> mp_alloc w = Ok (p, w') -> p + hhdmBase + PageSize + PageSize <= two64.
Local Abbreviation space := (space hhdmBase).

(** A new hole over free addresses. *)
Lemma add_hole v w hs rs b len v1 w1 p :
  space v w hs rs -> new_hole hhdmBase v w b len = Ok (p, v1, w1) -> inside v b (b + len) ->
  (forall q, q ∈ hs -> apart b (b + len) (hlo v q) (hhi v q)) ->
  (forall q, q ∈ rs -> apart b (b + len) (rlo v q) (rhi v q)) ->
  exists v2 hs', insert_hole v1 p = Ok v2 /\ space v2 w1 hs' rs /\ hs' ≡ₚ p :: hs /\ world_kept w w1 /\
    ranges_kept v v2 /\ (hlo v2 p = b /\ hhi v2 p = b + len) /\
    (forall x, x <> p -> hlo v2 x = hlo v x /\ hhi v2 x = hhi v x) /\ (p ∉ hs) /\
    (forall a, meta_used MetaHole (holeSlabs v) a -> a <> Zpos p /\ meta_used MetaHole (holeSlabs v2) a).
Proof.
  intros H E Hin Hah Har.
  destruct (new_hole_spec hhdmBase hhdm_pos hhdm_room v w hs rs b len p v1 w1 H E)
    as (H1 & Hw & Hk & Hp & Hd & Hother & Hu & Hmono).
  assert (Hfresh : forall a, meta_used MetaHole (holeSlabs v) a -> a <> Zpos p).
  { unfold new_hole in E. destruct (AllocMeta hhdmBase MetaHole (holeSlabs v) w) as [[[a0 sl] w0] | |] eqn:Ea; try discriminate.
    cbn in E. injection E as <- <- <-.
    destruct (AllocMeta_spec hhdmBase hhdm_pos hhdm_room MetaHole _ w a0 sl w0 (sp_hmeta _ _ _ _ _ H) (sp_pages _ _ _ _ _ H) Ea)
      as (_ & _ & _ & Ha & Hnot & _).
    intros a Hua ->. rewrite Z2Pos.id in Hua by lia. contradiction. }
  assert (Hsame : forall x, x <> p -> hlo v1 x = hlo v x /\ hhi v1 x = hhi v x)
    by (intros x Hx; unfold hlo, hhi; rewrite Hother by assumption; auto).
  assert (Hself : hlo v1 p = b /\ hhi v1 p = b + len) by (unfold hlo, hhi; rewrite Hd; auto).
  destruct Hself as [El Eh]. pose proof Hk as (K1 & K2 & K3 & K4 & K5 & K6).
  destruct (insert_hole_spec hhdmBase hhdm_pos v1 w1 hs rs p H1 Hp Hu) as (v2 & hs' & E2 & H2 & Hperm & Hk2 & Hsl & Hsp).
  - rewrite El, Eh. unfold inside in *. rewrite K4, K5. assumption.
  - intros q Hq. rewrite El, Eh. destruct (Hsame q) as [-> ->]; [intros ->; contradiction | auto].
  - intros q Hq. rewrite El, Eh. unfold rlo, rhi. rewrite K2. apply Har, Hq.
  - exists v2, hs'. split_and!; auto.
    + eapply ranges_kept_trans; eassumption.
    + destruct (Hsp p) as [-> _]. assumption.
    + destruct (Hsp p) as [_ ->]. assumption.
    + intros x Hx. destruct (Hsp x) as [-> ->]. apply Hsame. assumption.
    + rewrite Hsl. auto.
Qed.

Lemma hole_addr_cons v hs p hs' x : hs' ≡ₚ p :: hs ->
  hole_addr v hs' x <-> hlo v p <= x < hhi v p \/ hole_addr v hs x.
Proof.
  intros Hp. unfold hole_addr. split.
  - intros (q & Hq & Hx). rewrite Hp in Hq. apply elem_of_cons in Hq as [-> | Hq]; eauto.
  - intros [Hx | (q & Hq & Hx)]; [exists p | exists q]; (split; [rewrite Hp | assumption]); [left | right; assumption].
Qed.

Lemma hole_addr_same v v' hs x : (forall p, p ∈ hs -> hlo v' p = hlo v p /\ hhi v' p = hhi v p) ->
  hole_addr v' hs x <-> hole_addr v hs x.
Proof. intros H. unfold hole_addr. split; intros (p & Hp & Hx); exists p; destruct (H p Hp) as [E1 E2];
  (split; [assumption |]); [rewrite <- E1, <- E2 | rewrite E1, E2]; assumption. Qed.

(** Everything outside a hole stays clear of any part of it. *)
Lemma part_apart v w hs rs t hs1 lo hi :
  space v w hs rs -> hs ≡ₚ t :: hs1 -> hlo v t <= lo -> hi <= hhi v t ->
  (forall q, q ∈ hs1 -> apart lo hi (hlo v q) (hhi v q)) /\ (forall q, q ∈ rs -> apart lo hi (rlo v q) (rhi v q)).
Proof.
  intros H Hp Hlo Hhi. assert (Hnd : NoDup hs) by exact (tree_of_NoDup VmHoleAggregate _ _ _ (sp_holes _ _ _ _ _ H)).
  assert (Ht : t ∈ hs) by (rewrite Hp; left). split.
  - intros q Hq. assert (Hqs : q ∈ hs) by (rewrite Hp; right; assumption).
    assert (t <> q). { intros ->. rewrite Hp in Hnd. apply NoDup_cons in Hnd as [? _]. contradiction. }
    destruct (ordered_apart _ _ hs t q (sp_hord _ _ _ _ _ H) Hnd Ht Hqs) as [? | ?]; [assumption | left | right]; lia.
  - intros q Hq. destruct (sp_apart _ _ _ _ _ H t q Ht Hq) as [? | ?]; [left | right]; lia.
Qed.

(** The second and third part of [AdjustHole]: a piece [lo, hi) of the removed hole [t] that
    is kept becomes a hole. *)
Lemma keep_piece v0 w0 v w hs rs t hs1 lo hi p v1 w1 :
  space v0 w0 hs rs -> hs ≡ₚ t :: hs1 -> hlo v0 t <= lo -> lo < hi -> hi <= hhi v0 t ->
  forall hs2, space v w hs2 rs -> ranges_kept v0 v ->
  (forall q, q ∈ hs2 -> apart lo hi (hlo v q) (hhi v q)) ->
  new_hole hhdmBase v w lo (hi - lo) = Ok (p, v1, w1) ->
  exists v2 hs', insert_hole v1 p = Ok v2 /\ space v2 w1 hs' rs /\ hs' ≡ₚ p :: hs2 /\ world_kept w w1 /\
    ranges_kept v v2 /\ (hlo v2 p = lo /\ hhi v2 p = hi) /\
    (forall x, x <> p -> hlo v2 x = hlo v x /\ hhi v2 x = hhi v x) /\ (p ∉ hs2) /\
    (forall a, meta_used MetaHole (holeSlabs v) a -> a <> Zpos p /\ meta_used MetaHole (holeSlabs v2) a).
Proof.
  intros H0 Hp Hlo Hlt Hhi hs2 H Hk Hap E. destruct (part_apart v0 w0 hs rs t hs1 lo hi H0 Hp Hlo Hhi) as [_ Har].
  assert (Eh : lo + (hi - lo) = hi) by lia. pose proof Hk as (K1 & K2 & K3 & K4 & K5 & K6).
  assert (Ht : t ∈ hs) by (rewrite Hp; left). pose proof (sp_hin _ _ _ _ _ H0 t Ht) as (I1 & I2 & I3).
  destruct (add_hole v w hs2 rs lo (hi - lo) v1 w1 p H E) as (v2 & hs' & G); rewrite ?Eh; auto.
  - unfold inside. rewrite K4, K5. lia.
  - intros q Hq. unfold rlo, rhi. rewrite K2. apply Har, Hq.
  - rewrite Eh in G. eauto.
Qed.

Lemma kept_piece_addr v v2 hs2 hs' p lo hi x :
  hs' ≡ₚ p :: hs2 -> (hlo v2 p = lo /\ hhi v2 p = hi) ->
  (forall x, x <> p -> hlo v2 x = hlo v x /\ hhi v2 x = hhi v x) -> (p ∉ hs2) ->
  hole_addr v2 hs' x <-> lo <= x < hi \/ hole_addr v hs2 x.
Proof.
  intros Hp [E1 E2] Hs Hn. rewrite (hole_addr_cons v2 hs2 p hs' x Hp), E1, E2.
  rewrite (hole_addr_same v v2 hs2); [reflexivity |]. intros q Hq. apply Hs. intros ->. contradiction.
Qed.

(** Where [AdjustHole] stands after one of its two optional steps. *)
Record adjusting (v0 v : VMM) (w0 w : W) (t : ptr) (hs1 hs2 rs : list ptr) (kept : Z -> Prop) : Prop := mkAdjusting {
  ad_space : space v w hs2 rs;
  ad_world : world_kept w0 w;
  ad_ranges : ranges_kept v0 v;
  ad_out : t ∉ hs2;
  ad_used : meta_used MetaHole (holeSlabs v) (Zpos t);
  ad_span : hlo v t = hlo v0 t /\ hhi v t = hhi v0 t;
  ad_addr : forall x, hole_addr v hs2 x <-> hole_addr v0 hs1 x \/ kept x
}.

Lemma world_kept_trans (w1 w2 w3 : W) : world_kept w1 w2 -> world_kept w2 w3 -> world_kept w1 w3.
Proof. intros [_ H1] [H2 H3]. split; auto. Qed.

Lemma adjust_step v0 w0 v w hs rs t hs1 hs2 kept lo hi p v1 w1 :
  space v0 w0 hs rs -> hs ≡ₚ t :: hs1 -> hlo v0 t <= lo -> lo < hi -> hi <= hhi v0 t ->
  adjusting v0 v w0 w t hs1 hs2 rs kept -> (forall x, kept x -> ~ (lo <= x < hi)) ->
  new_hole hhdmBase v w lo (hi - lo) = Ok (p, v1, w1) ->
  exists v2 hs', insert_hole v1 p = Ok v2 /\
    adjusting v0 v2 w0 w1 t hs1 hs' rs (fun x => kept x \/ lo <= x < hi).
Proof.
  intros H0 Hp Hlo Hlt Hhi [A1 A2 A3 A4 A5 [A6 A6'] A7] Hkept E.
  assert (Hap : forall q, q ∈ hs2 -> apart lo hi (hlo v q) (hhi v q)).
  { intros q Hq. pose proof (sp_hin _ _ _ _ _ A1 q Hq) as (_ & Hpos & _). unfold apart.
    destruct (Z.le_gt_cases hi (hlo v q)) as [| Hc1]; [left; assumption |].
    destruct (Z.le_gt_cases (hhi v q) lo) as [| Hc2]; [right; assumption | exfalso].
    set (x := Z.max lo (hlo v q)).
    assert (Hx : hole_addr v hs2 x) by (exists q; split; [assumption | lia]).
    apply A7 in Hx as [(q' & Hq' & Hx) | Hx]; [| apply (Hkept x Hx); lia].
    destruct (part_apart v0 w0 hs rs t hs1 lo hi H0 Hp Hlo Hhi) as [Hpa _].
    destruct (Hpa q' Hq'); lia. }
  destruct (keep_piece v0 w0 v w hs rs t hs1 lo hi p v1 w1 H0 Hp Hlo Hlt Hhi hs2 A1 A3 Hap E)
    as (v2 & hs' & E2 & H2 & Hperm & Hw & Hk & Hpp & Hsame & Hnp & Hmono).
  exists v2, hs'. split; [exact E2 |]. destruct (Hmono _ A5) as [Hne Hu].
  assert (Htp : t <> p) by congruence. constructor; auto.
  - eapply world_kept_trans; eassumption.
  - eapply ranges_kept_trans; eassumption.
  - rewrite Hperm. intros [? | ?]%elem_of_cons; [congruence | contradiction].
  - destruct (Hsame t Htp) as [-> ->]. auto.
  - intros x. rewrite (kept_piece_addr v v2 hs2 hs' p lo hi x Hperm Hpp Hsame Hnp), A7. tauto.
Qed.

Lemma AdjustHole_spec v w hs rs t off len v' w' :
  space v w hs rs -> t ∈ hs -> 0 <= off -> 0 < len -> off + len <= hole_length (holeData v t) ->
  AdjustHole hhdmBase v w t off len = Ok (v', w') ->
  exists hs', space v' w' hs' rs /\ world_kept w w' /\ ranges_kept v v' /\ (t ∉ hs') /\
    meta_used MetaHole (holeSlabs v') (Zpos t) /\
    (forall x, hole_addr v' hs' x <-> hole_addr v hs x /\ ~ (hlo v t + off <= x < hlo v t + off + len)).
Proof.
  intros H Ht Hoff Hlen Hfit E. unfold AdjustHole in E.
  pose proof (sp_hin _ _ _ _ _ H t Ht) as (I1 & I2 & I3). pose proof (sp_bounds _ _ _ _ _ H) as [B1 B2].
  unfold hhi in I3. fold (hlo v t) in I3.
  rewrite (u64_small (off + len)) in E by lia.
  destruct (Z.leb_spec (off + len) (hole_length (holeData v t))); [| lia]. cbn [assert_ mbind res_bind] in E.
  destruct (remove_hole_spec hhdmBase hhdm_pos v w hs rs t H Ht) as (v1 & hs1 & Er & H1 & Hperm & Hk1 & Hsl1 & Hsp1).
  rewrite Er in E. cbn [mbind res_bind] in E.
  assert (Hnd : NoDup hs) by exact (tree_of_NoDup VmHoleAggregate _ _ _ (sp_holes _ _ _ _ _ H)).
  assert (Hout : t ∉ hs1) by (rewrite Hperm in Hnd; apply NoDup_cons in Hnd as [? _]; assumption).
  assert (Hadr : forall x, hole_addr v hs x <-> hlo v t <= x < hhi v t \/ hole_addr v hs1 x)
    by (intros x; apply hole_addr_cons, Hperm).
  assert (Hdis : forall x, hole_addr v hs1 x -> ~ (hlo v t <= x < hhi v t)).
  { intros x (q & Hq & Hx) Hx2.
    destruct (part_apart v w hs rs t hs1 (hlo v t) (hhi v t) H Hperm) as [Hpa _]; [lia | lia |].
    destruct (Hpa q Hq); lia. }
  assert (A1 : adjusting v v1 w w t hs1 hs1 rs (fun _ => False)).
  { constructor; auto.
    - split; [apply H | auto].
    - rewrite Hsl1. apply H, Ht.
    - intros x. rewrite (hole_addr_same v v1 hs1); [tauto | intros; apply Hsp1]. }
  assert (A2 : exists v2 w2 hs2, (if 0 <? off then
       '(p, v, w) ← new_hole hhdmBase v1 w (hole_base (holeData v1 t)) off; v ← insert_hole v p; Ok (v, w)
     else Ok (v1, w)) = Ok (v2, w2) /\ adjusting v v2 w w2 t hs1 hs2 rs (fun x => hlo v t <= x < hlo v t + off)).
  { destruct (Z.ltb_spec 0 off) as [Hpos | Hz].
    - destruct (new_hole hhdmBase v1 w (hole_base (holeData v1 t)) off) as [[[p va] wa] | |] eqn:En; try discriminate.
      cbn [mbind res_bind] in E |- *. fold (hlo v1 t) in En. destruct (Hsp1 t) as [Elo _]. rewrite Elo in En.
      replace off with (hlo v t + off - hlo v t) in En at 1 by lia.
      destruct (adjust_step v w v1 w hs rs t hs1 hs1 _ (hlo v t) (hlo v t + off) p va wa H Hperm ltac:(lia) ltac:(lia)
        ltac:(unfold hhi; fold (hlo v t); lia) A1 ltac:(tauto) En) as (v2 & hs2 & E2 & Ad2).
      rewrite E2. cbn. exists v2, wa, hs2. split; [reflexivity |]. destruct Ad2. constructor; auto.
      intros x. rewrite ad_addr0. tauto.
    - exists v1, w, hs1. split; [reflexivity |]. destruct A1. constructor; auto.
      intros x. rewrite ad_addr0. assert (off = 0) as -> by lia. split; [tauto |]. intros [? | ?]; [auto | lia]. }
  destruct A2 as (v2 & w2 & hs2 & E2 & A2). rewrite E2 in E. cbn [mbind res_bind] in E. clear E2 A1.
  pose proof (ad_span _ _ _ _ _ _ _ _ _ A2) as [Sl Sh].
  assert (El : hole_length (holeData v2 t) = hole_length (holeData v t))
    by (unfold hhi in Sh; fold (hlo v2 t) (hlo v t) in Sh; lia).
  fold (hlo v2 t) in E. rewrite El, Sl in E.
  assert (Hfin : exists hs' kept, adjusting v v' w w' t hs1 hs' rs kept /\
    forall x, kept x <-> hlo v t <= x < hlo v t + off \/ hlo v t + off + len <= x < hhi v t).
  { unfold hhi at 1. fold (hlo v t).
    destruct (Z.ltb_spec (off + len) (hole_length (holeData v t))) as [Hlt | Hge].
    - rewrite (u64_small (hlo v t + off + len)), (u64_small (hole_length (holeData v t) - (off + len))) in E by lia.
      destruct (new_hole hhdmBase v2 w2 (hlo v t + off + len) (hole_length (holeData v t) - (off + len))) as [[[p va] wa] | |] eqn:En;
        try discriminate. cbn [mbind res_bind] in E.
      replace (hole_length (holeData v t) - (off + len)) with (hhi v t - (hlo v t + off + len)) in En
        by (unfold hhi; fold (hlo v t); lia).
      destruct (adjust_step v w v2 w2 hs rs t hs1 hs2 _ (hlo v t + off + len) (hhi v t) p va wa H Hperm ltac:(lia)
        ltac:(unfold hhi; fold (hlo v t); lia) ltac:(lia) A2 ltac:(simpl; intros; lia) En) as (v3 & hs3 & E3 & Ad3).
       rewrite E3 in E. cbn in E. injection E as <- <-. exists hs3. eexists. split; [exact Ad3 |].
      intros x. simpl. unfold hhi. fold (hlo v t). tauto.
    - injection E as <- <-. exists hs2. eexists. split; [exact A2 |]. intros x. simpl. lia. }
  destruct Hfin as (hs' & kept & [F1 F2 F3 F4 F5 F6 F7] & Hkept).
  exists hs'. split_and!; auto.
  intros x. rewrite F7, Hkept, Hadr. pose proof (Hdis x). unfold hhi in *. fold (hlo v t) in *.
  split; [intros [Hx | Hx]; [| lia]; split; [tauto |] | intros [[Hx | Hx] Hn]; [right; lia | tauto]].
  intros Hc. apply (Hdis x Hx). lia.
Qed.

(** The state outside changes only by the frames of new slabs. *)
Lemma new_hole_steps v w b len p v' w' : new_hole hhdmBase v w b len = Ok (p, v', w') -> meta_steps w w'.
Proof.
  unfold new_hole. destruct (AllocMeta _ _ _ _) as [[[a sl] w1] | |] eqn:E; cbn [mbind res_bind]; try discriminate.
  intros [= _ _ <-]. eapply AllocMeta_steps, E.
Qed.

Lemma new_range_steps v w r p v' w' : new_range hhdmBase v w r = Ok (p, v', w') -> meta_steps w w'.
Proof.
  unfold new_range. destruct (AllocMeta _ _ _ _) as [[[a sl] w1] | |] eqn:E; cbn [mbind res_bind]; try discriminate.
  intros [= _ _ <-]. eapply AllocMeta_steps, E.
Qed.

Lemma AdjustHole_steps v w t off len v' w' : AdjustHole hhdmBase v w t off len = Ok (v', w') -> meta_steps w w'.
Proof.
  unfold AdjustHole. intros E. destruct (assert_ _) as [u | |]; cbn [mbind res_bind] in E; try discriminate.
  destruct (remove_hole v t) as [v1 | |]; cbn [mbind res_bind] in E; try discriminate.
  destruct (if 0 <? off then _ else _) as [[v2 w2] | |] eqn:E1; cbn [mbind res_bind] in E; try discriminate.
  assert (H1 : meta_steps w w2).
  { destruct (0 <? off); [| injection E1 as <- <-; apply rtc_refl].
    destruct (new_hole _ _ _ _ _) as [[[p v3] w3] | |] eqn:En; cbn [mbind res_bind] in E1; try discriminate.
    destruct (insert_hole _ _) as [v4 | |]; cbn [mbind res_bind] in E1; try discriminate.
    injection E1 as _ <-. eapply new_hole_steps, En. }
  clear E1. destruct (_ <? hole_length _); [| injection E as _ <-; assumption].
  destruct (new_hole _ _ _ _ _) as [[[p v3] w3] | |] eqn:En; cbn [mbind res_bind] in E; try discriminate.
  destruct (insert_hole _ _) as [v4 | |]; cbn [mbind res_bind] in E; try discriminate.
  injection E as _ <-. etrans; [exact H1 |]. eapply new_hole_steps, En.
Qed.

(** ** Drivers *)

(** Requests up to this size are far from wrapping when a driver rounds them up. *)
Definition MaxRequest : Z := 2 ^ 63.

(** What the manager relies on from a driver: it leaves the manager's metadata pages alone;
    it rounds a request of sensible size to a positive length; a split it accepts lies inside
    the range. *)
Record driver_ok (drv : VmDriver W) : Prop := mkDriverOk {
  dk_query : forall w len fl arg q w', mp_inv w -> drv_Query drv w len fl arg = Ok (q, w') ->
    world_kept w w' /\ (0 < len <= MaxRequest -> q_success q = true -> 0 < q_length q);
  dk_attach : forall w r st q arg a w' st', mp_inv w -> drv_Attach drv w r st q arg = Ok (a, w', st') -> world_kept w w';
  dk_detach : forall w r st b w' st', mp_inv w -> drv_Detach drv w r st = Ok (b, w', st') -> world_kept w w';
  dk_split : forall w r st off s w' st', mp_inv w -> drv_Split drv w r st off = Ok (s, w', st') ->
    world_kept w w' /\ (0 < off <= MaxRequest -> s_success s = true -> 0 < s_offset s <= length r);
  dk_modify : forall w r st args b w' st', mp_inv w -> drv_ModifyRange drv w r st args = Ok (b, w', st') -> world_kept w w';
  dk_fault : forall w r st addr fl b w' st', mp_inv w -> drv_HandleFault drv w r st addr fl = Ok (b, w', st') -> world_kept w w'
}.

(** An interval without hole addresses is apart from every hole. *)
Lemma apart_of_addr v w hs rs lo hi :
  space v w hs rs -> lo < hi -> (forall x, hole_addr v hs x -> ~ (lo <= x < hi)) ->
  forall q, q ∈ hs -> apart lo hi (hlo v q) (hhi v q).
Proof.
  intros H Hlt Hn q Hq. pose proof (sp_hin _ _ _ _ _ H q Hq) as (_ & Hpos & _). unfold apart.
  destruct (Z.le_gt_cases hi (hlo v q)) as [| Hc1]; [left; assumption |].
  destruct (Z.le_gt_cases (hhi v q) lo) as [| Hc2]; [right; assumption | exfalso].
  apply (Hn (Z.max lo (hlo v q))); [exists q; split; [assumption | lia] | lia].
Qed.

Lemma holes_kept_addr v v' hs x : holeData v' = holeData v -> hole_addr v' hs x <-> hole_addr v hs x.
Proof. intros E. apply hole_addr_same. intros p _. unfold hlo, hhi. rewrite E. auto. Qed.

(** Attaching failed: the interval becomes a hole again and the range structure is released. *)
Lemma give_back v w hs rs b len p v1 w1 hp :
  space v w hs rs -> (p ∉ rs) -> meta_used MetaRange (rangeSlabs v) (Zpos p) -> inside v b (b + len) ->
  (forall x, hole_addr v hs x -> ~ (b <= x < b + len)) ->
  (forall q, q ∈ rs -> apart b (b + len) (rlo v q) (rhi v q)) ->
  new_hole hhdmBase v w b len = Ok (hp, v1, w1) ->
  exists v2 v3 hs', insert_hole v1 hp = Ok v2 /\ FreeMeta_range v2 p = Ok v3 /\ space v3 w1 hs' rs /\
    world_kept w w1 /\ rangeData v3 = rangeData v /\
    (forall x, hole_addr v3 hs' x <-> hole_addr v hs x \/ b <= x < b + len).
Proof.
  intros H Hp Hu Hin Hn Har E.
  assert (Hlt : b < b + len) by (destruct Hin as (_ & ? & _); assumption).
  destruct (add_hole v w hs rs b len v1 w1 hp H E Hin (apart_of_addr v w hs rs b (b + len) H Hlt Hn) Har)
    as (v2 & hs' & E2 & H2 & Hperm & Hw & Hk & Hpp & Hsame & Hnp & _).
  pose proof Hk as (K1 & K2 & K3 & K4 & K5 & K6).
  destruct (FreeMeta_range_spec hhdmBase hhdm_pos v2 w1 hs' rs p H2 Hp) as (v3 & E3 & H3 & Hk3 & _ & Ed);
    [rewrite K3; assumption |].
  exists v2, v3, hs'. split_and!; auto; [congruence |]. intros x.
  destruct Hk3 as (_ & Eh & _). rewrite (holes_kept_addr v2 v3 hs' x Eh).
  rewrite (kept_piece_addr v v2 hs hs' hp b (b + len) x Hperm Hpp Hsame Hnp). tauto.
Qed.

(** ** [Alloc] *)

Variable anonDriver vfsDriver kernelDriver : VmDriver W.
Hypothesis anon_ok : driver_ok anonDriver.
Hypothesis vfs_ok : driver_ok vfsDriver.
Hypothesis kernel_ok : driver_ok kernelDriver.
Local Abbreviation GetDriver := (GetDriver anonDriver vfsDriver kernelDriver).
Local Abbreviation Alloc := (Vmm.Alloc hhdmBase anonDriver vfsDriver kernelDriver).
Local Abbreviation Free := (Vmm.Free hhdmBase anonDriver vfsDriver kernelDriver).

Lemma GetDriver_ok fl drv : GetDriver fl = Some drv -> driver_ok drv.
Proof.
  unfold Vmm.GetDriver. destruct (Flags.Has fl VmFlag.Anon); [intros [= <-]; assumption |].
  destruct (Flags.Has fl VmFlag.File); [intros [= <-]; assumption |].
  destruct (Flags.Has fl VmFlag.Mmio); [intros [= <-]; assumption | discriminate].
Qed.

(** The driver attached the range after the frames for new slabs were taken. *)
Definition attached (drv : VmDriver W) (arg : Z) (w w' : W) (fl : Z) (q : QueryResult) (b off tok : Z) : Prop :=
  exists w1 st st', meta_steps w w1 /\
    drv_Attach drv w1 (mkRange b (q_length q) fl 0 0 0) st q arg = Ok (mkAttach tok off true, w', st').

(** The outcome of [Alloc]: a new range over the start of the first hole that is long
    enough, or nothing. *)
Definition alloc_outcome (drv : VmDriver W) (arg : Z) (w w' : W) (v : VMM) (hs rs : list ptr) (fl : Z) (q : QueryResult)
  (r : option Z) (v' : VMM) (hs' rs' : list ptr) : Prop :=
  match r with
  | Some a => exists h p off tok,
      head (filter (fits_len (holeData v) (q_length q)) hs) = Some h /\
      rs' ≡ₚ p :: rs /\ rangeData v' p = mkRange (hlo v h) (q_length q) fl off tok 0 /\ a = u64 (hlo v h + off) /\
      (forall x, x ∈ rs -> rangeData v' x = rangeData v x) /\
      (forall x, hole_addr v' hs' x <-> hole_addr v hs x /\ ~ (hlo v h <= x < hlo v h + q_length q)) /\
      attached drv arg w w' fl q (hlo v h) off tok
  | None => rs' = rs /\ (forall x, x ∈ rs -> rangeData v' x = rangeData v x) /\
      (forall x, hole_addr v' hs' x <-> hole_addr v hs x)
  end.

(** The part of [Alloc] behind the search. *)
Definition Alloc_tail (driver : VmDriver W) (query : QueryResult) (initArg fl : Z) (v : VMM) (w : W) (hole : ptr)
  : res (option Z * VMM * W) :=
  let rangeBase := hole_base (holeData v hole) in
  '(v, w) ← AdjustHole hhdmBase v w hole 0 (q_length query);
  v ← FreeMeta_hole v hole;
  if rangeBase =? 0 then Ok (None, v, w)
  else
    let r := mkRange rangeBase (q_length query) fl 0 0 0 in
    '(p, v, w) ← new_range hhdmBase v w r;
    '(attach, w, st) ← drv_Attach driver w r (stats v) query initArg;
    let v := set_stats v st in
    if negb (a_success attach) then
      '(hp, v, w) ← new_hole hhdmBase v w rangeBase (q_length query);
      v ← insert_hole v hp;
      v ← FreeMeta_range v p;
      Ok (None, v, w)
    else
      let r := mkRange rangeBase (q_length query) fl (a_offset attach) (a_token attach) 0 in
      let v := set_ranges v (ranges v) (upd (rangeData v) p r) in
      v ← insert_range v p;
      let v := set_stats v (count_range fl 1 (stats v)) in
      Ok (Some (u64 (rangeBase + a_offset attach)), v, w).

Lemma Alloc_unfold v w len initArg fl limits drv query w0 hole :
  len <> 0 -> GetDriver fl = Some drv -> drv_Query drv w len fl initArg = Ok (query, w0) ->
  q_success query = true -> (1 <? limit_alignment limits) && negb (q_alignment query mod limit_alignment limits =? 0) = false ->
  GetRoot (holes v) = Some hole ->
  Alloc v w len initArg fl limits =
    (found ← find_hole TreeFuel (holes v) (holeData v) (q_length query) hole;
     match found with
     | None => Ok (None, v, w0)
     | Some hole => Alloc_tail drv query initArg fl v w0 hole
     end).
Proof.
  intros Hl Hd Hq Hs Ha Hr. unfold Vmm.Alloc. apply Z.eqb_neq in Hl. rewrite Hl, Hd, Hq. cbn [mbind res_bind].
  rewrite Hs, Ha, Hr. reflexivity.
Qed.

Lemma Alloc_tail_spec drv q initArg fl v w hs rs h r v' w' :
  driver_ok drv -> space v w hs rs -> 0 < q_length q ->
  head (filter (fits_len (holeData v) (q_length q)) hs) = Some h ->
  Alloc_tail drv q initArg fl v w h = Ok (r, v', w') ->
  exists hs' rs', space v' w' hs' rs' /\ world_kept w w' /\ alloc_outcome drv initArg w w' v hs rs fl q r v' hs' rs'.
Proof.
  intros Hdrv H Hq Hfirst E. unfold Alloc_tail in E.
  assert (Hin : h ∈ filter (fits_len (holeData v) (q_length q)) hs)
    by (destruct (filter _ hs); simpl in Hfirst; [discriminate | injection Hfirst as ->; left]).
  apply list_elem_of_filter in Hin as [Hfit Hh]. unfold fits_len in Hfit.
  pose proof (sp_hin _ _ _ _ _ H h Hh) as (I1 & I2 & I3). pose proof (sp_bounds _ _ _ _ _ H) as [B1 B2].
  destruct (AdjustHole hhdmBase v w h 0 (q_length q)) as [[v1 w1] | |] eqn:Ea; try discriminate.
  cbn [mbind res_bind] in E.
  destruct (AdjustHole_spec v w hs rs h 0 (q_length q) v1 w1 H Hh ltac:(lia) Hq ltac:(lia) Ea)
    as (hs1 & H1 & Hw1 & Hk1 & Hout & Hu1 & Hadr1).
  destruct (FreeMeta_hole_spec hhdmBase hhdm_pos v1 w1 hs1 rs h H1 Hout Hu1) as (v2 & Ef & H2 & Hk2 & _ & Ehd & _).
  rewrite Ef in E. cbn [mbind res_bind] in E. fold (hlo v h) in E.
  destruct (Z.eqb_spec (hlo v h) 0); [lia |].
  set (r0 := mkRange (hlo v h) (q_length q) fl 0 0 0) in *.
  destruct (new_range hhdmBase v2 w1 r0) as [[[p v3] w3] | |] eqn:En; try discriminate. cbn [mbind res_bind] in E.
  destruct (new_range_spec hhdmBase hhdm_pos hhdm_room v2 w1 hs1 rs r0 p v3 w3 H2 En) as (H3 & Hw3 & Hk3 & Hp3 & Hd3 & Ho3 & Hu3 & _).
  destruct (drv_Attach drv w3 r0 (stats v3) q initArg) as [[[att w4] st] | |] eqn:Eat; try discriminate.
  cbn [mbind res_bind] in E. pose proof (dk_attach _ Hdrv _ _ _ _ _ _ _ _ (sp_pages _ _ _ _ _ H3) Eat) as Hw4.
  pose proof (space_stats _ _ _ st _ _ (space_world _ _ _ _ _ _ H3 Hw4)) as H4.
  pose proof Hk1 as (_ & Rd1 & _ & Lo1 & Up1 & _). pose proof Hk2 as (_ & Rd2 & _ & Lo2 & Up2 & _).
  pose proof Hk3 as (_ & Hd3' & _ & Lo3 & Up3 & _).
  assert (Hrd : forall x, x ∈ rs -> rangeData v3 x = rangeData v x).
  { intros x Hx. rewrite Ho3 by (intros ->; contradiction). congruence. }
  assert (Hadr : forall x, hole_addr (set_stats v3 st) hs1 x <-> hole_addr v hs x /\ ~ (hlo v h <= x < hlo v h + q_length q)).
  { intros x. rewrite (holes_kept_addr v1 (set_stats v3 st) hs1 x) by (simpl; congruence).
    rewrite Hadr1, Z.add_0_r. reflexivity. }
  assert (Hint : inside (set_stats v3 st) (hlo v h) (hlo v h + q_length q)).
  { unfold inside; simpl. unfold hhi in I3. fold (hlo v h) in I3. rewrite Lo3, Up3, Lo2, Up2, Lo1, Up1. lia. }
  assert (Hrap : forall x, x ∈ rs -> apart (hlo v h) (hlo v h + q_length q) (rlo (set_stats v3 st) x) (rhi (set_stats v3 st) x)).
  { intros x Hx. unfold rlo, rhi; simpl. rewrite Hrd by assumption.
    pose proof (sp_apart _ _ _ _ _ H h x Hh Hx) as Hap. unfold apart, hhi, hlo, rhi, rlo in *. lia. }
  assert (Hww : world_kept w w4) by (eapply world_kept_trans; [exact Hw1 |]; eapply world_kept_trans; eassumption).
  destruct (a_success att) eqn:Es; simpl negb in E; cbn iota in E.
  - set (r1 := mkRange (hlo v h) (q_length q) fl (a_offset att) (a_token att) 0) in *.
    set (v5 := set_ranges (set_stats v3 st) (ranges v3) (upd (rangeData v3) p r1)) in *.
    assert (Hd5 : forall x, x ∈ rs -> rangeData v5 x = rangeData v3 x).
    { intros x Hx. simpl. unfold upd. rewrite decide_False by (intros ->; contradiction). reflexivity. }
    assert (H5 : space v5 w4 hs1 rs).
    { apply (space_rangeData hhdmBase (set_stats v3 st) w4 hs1 rs (upd (rangeData v3) p r1) H4).
      intros x Hx. pose proof (Hd5 x Hx) as Hdx. simpl in Hdx. rewrite Hdx. simpl. auto. }
    assert (Hp5 : rangeData v5 p = r1) by (simpl; unfold upd; rewrite decide_True; reflexivity).
    destruct (insert_range_spec hhdmBase hhdm_pos v5 w4 hs1 rs p H5 Hp3 Hu3) as (v6 & rs' & E6 & H6 & Hperm & Hk6 & Ed6 & _).
    + unfold rlo, rhi. rewrite Hp5. exact Hint.
    + intros x Hx. unfold rlo, rhi. rewrite Hp5, Hd5 by assumption. exact (Hrap x Hx).
    + intros x Hx. unfold rlo, rhi. rewrite Hp5. simpl.
      assert (Hap : apart (hlo v h) (hlo v h + q_length q) (hlo (set_stats v3 st) x) (hhi (set_stats v3 st) x)).
      { apply (apart_of_addr _ _ _ _ _ _ H4); [lia | | assumption]. intros y Hy%Hadr. tauto. }
      unfold apart in *. change (hlo v5 x) with (hlo (set_stats v3 st) x). change (hhi v5 x) with (hhi (set_stats v3 st) x). lia.
    + change (insert_range _ p) with (insert_range v5 p) in E. rewrite E6 in E.
      cbn [mbind res_bind] in E. injection E as <- <- <-.
      exists hs1, rs'. split; [apply space_stats; assumption |]. split; [assumption |].
      exists h, p, (a_offset att), (a_token att). split_and!; auto.
      * simpl. rewrite Ed6. assumption.
      * intros x Hx. simpl. rewrite Ed6, Hd5 by assumption. auto.
      * intros x. rewrite (holes_kept_addr (set_stats v3 st) _ hs1 x); [apply Hadr |].
        destruct Hk6 as (_ & E6d & _). simpl. rewrite E6d. reflexivity.
      * exists w3, (stats v3), st. split; [etrans; [eapply AdjustHole_steps, Ea | eapply new_range_steps, En] |].
        fold r0. rewrite Eat. destruct att; simpl in Es |- *. rewrite Es. reflexivity.
  - destruct (new_hole hhdmBase (set_stats v3 st) w4 (hlo v h) (q_length q)) as [[[hp v5] w5] | |] eqn:E5; try discriminate.
    cbn [mbind res_bind] in E.
    destruct (give_back (set_stats v3 st) w4 hs1 rs (hlo v h) (q_length q) p v5 w5 hp H4 Hp3 Hu3 Hint) as
      (v6 & v7 & hs' & E6 & E7 & H7 & Hw7 & Ed7 & Hadr7); auto.
    { intros x Hx%Hadr. tauto. }
    rewrite E6 in E. cbn [mbind res_bind] in E. rewrite E7 in E. cbn in E. injection E as <- <- <-.
    exists hs', rs. split; [assumption |]. split; [eapply world_kept_trans; eassumption |].
    split; [reflexivity |]. split; [intros x Hx; rewrite Ed7; simpl; auto |].
    intros x. rewrite Hadr7, Hadr. split; [| intros Hx].
    + intros [? | Hx]; [tauto |]. exists h. split; [assumption |]. unfold hhi. fold (hlo v h). lia.
    + destruct (decide (hlo v h <= x < hlo v h + q_length q)); tauto.
Qed.

Lemma find_hole_root v w hs rs len hole :
  space v w hs rs -> 0 < len -> GetRoot (holes v) = Some hole ->
  find_hole TreeFuel (holes v) (holeData v) len hole = Ok (head (filter (fits_len (holeData v) len) hs)).
Proof.
  intros H Hl Hr. destruct (space_fuel hhdmBase hhdm_pos v w hs rs H) as [Hf _].
  apply find_hole_spec; [assumption | apply H | assumption | assumption].
Qed.

Lemma root_none v w hs rs : space v w hs rs -> GetRoot (holes v) = None -> hs = [].
Proof.
  intros H Hr. destruct (sp_holes _ _ _ _ _ H) as (t & m & Hat & _ & <- & _).
  pose proof (at_ctx _ _ _ _ _ Hat) as Hroot. simpl in Hroot. unfold GetRoot in Hr.
  destruct t; [reflexivity | simpl in Hroot; congruence].
Qed.

Lemma Alloc_spec v w hs rs len initArg fl limits drv q w0 r v' w' :
  space v w hs rs -> len <> 0 -> GetDriver fl = Some drv -> drv_Query drv w len fl initArg = Ok (q, w0) ->
  (q_success q = true -> 0 < q_length q) ->
  Alloc v w len initArg fl limits = Ok (r, v', w') ->
  exists hs' rs', space v' w' hs' rs' /\ world_kept w w' /\ alloc_outcome drv initArg w0 w' v hs rs fl q r v' hs' rs'.
Proof.
  intros H Hl Hd Hq Hpos E. pose proof (GetDriver_ok fl drv Hd) as Hdrv.
  pose proof (proj1 (dk_query _ Hdrv _ _ _ _ _ _ (sp_pages _ _ _ _ _ H) Hq)) as Hw.
  pose proof (space_world _ _ _ _ _ _ H Hw) as H0.
  assert (Hnone : forall v1 w1, Ok (None, v, w0) = Ok (r, v1, w1) ->
    exists hs' rs', space v1 w1 hs' rs' /\ world_kept w w1 /\ alloc_outcome drv initArg w0 w1 v hs rs fl q r v1 hs' rs').
  { intros v1 w1 [= <- <- <-]. exists hs, rs. split; [assumption |]. split; [assumption |].
    split; [reflexivity |]. split; [auto | tauto]. }
  destruct (q_success q) eqn:Es.
  2:{ unfold Vmm.Alloc in E. apply Z.eqb_neq in Hl. rewrite Hl, Hd, Hq in E. cbn [mbind res_bind] in E.
      rewrite Es in E. cbn in E. apply Hnone, E. }
  destruct ((1 <? limit_alignment limits) && negb (q_alignment q mod limit_alignment limits =? 0)) eqn:Ea.
  { unfold Vmm.Alloc in E. apply Z.eqb_neq in Hl. rewrite Hl, Hd, Hq in E. cbn [mbind res_bind] in E.
    rewrite Es, Ea in E. cbn in E. apply Hnone, E. }
  destruct (GetRoot (holes v)) as [hole |] eqn:Er.
  2:{ unfold Vmm.Alloc in E. apply Z.eqb_neq in Hl. rewrite Hl, Hd, Hq in E. cbn [mbind res_bind] in E.
      rewrite Es, Ea, Er in E. cbn in E. apply Hnone, E. }
  rewrite (Alloc_unfold v w len initArg fl limits drv q w0 hole Hl Hd Hq Es Ea Er) in E.
  rewrite (find_hole_root v w0 hs rs (q_length q) hole H0 (Hpos eq_refl) Er) in E. cbn [mbind res_bind] in E.
  destruct (head (filter (fits_len (holeData v) (q_length q)) hs)) as [h |] eqn:Eh; [| apply Hnone, E].
  destruct (Alloc_tail_spec drv q initArg fl v w0 hs rs h r v' w' Hdrv H0 (Hpos eq_refl) Eh E) as (hs' & rs' & H' & Hw' & Ho).
  exists hs', rs'. split; [assumption |]. split; [eapply world_kept_trans; eassumption | assumption].
Qed.

(** ** [Free] *)

Definition detached (w w' : W) (r : VmRange) : Prop :=
  exists drv w1 st st', GetDriver (flags r) = Some drv /\ drv_Detach drv w r st = Ok (true, w1, st') /\ meta_steps w1 w'.

Definition free_outcome (w w' : W) (v : VMM) (hs rs : list ptr) (addr : Z) (ok : bool) (v' : VMM) (hs' rs' : list ptr) : Prop :=
  (forall x, x ∈ rs' -> rangeData v' x = rangeData v x) /\
  if ok then exists p, rlo v p <= addr < rhi v p /\ mdlCount (rangeData v p) = 0 /\ rs ≡ₚ p :: rs' /\
    (forall x, hole_addr v' hs' x <-> hole_addr v hs x \/ rlo v p <= x < rhi v p) /\ detached w w' (rangeData v p)
  else (forall x, hole_addr v' hs' x <-> hole_addr v hs x) /\
    (rs' = rs \/ exists p, rlo v p <= addr < rhi v p /\ mdlCount (rangeData v p) = 0 /\ rs ≡ₚ p :: rs').

(** A range's interval is free of holes and of the other ranges. *)
Lemma range_clear v w hs rs p rs1 : space v w hs rs -> rs ≡ₚ p :: rs1 ->
  (forall x, hole_addr v hs x -> ~ (rlo v p <= x < rhi v p)) /\
  (forall q, q ∈ rs1 -> apart (rlo v p) (rhi v p) (rlo v q) (rhi v q)).
Proof.
  intros H Hp. assert (Hnd : NoDup rs) by exact (tree_of_NoDup NullAggregate _ _ _ (sp_ranges _ _ _ _ _ H)).
  assert (Hpr : p ∈ rs) by (rewrite Hp; left). split.
  - intros x (h & Hh & Hx) Hx2. pose proof (sp_apart _ _ _ _ _ H h p Hh Hpr) as [? | ?]; lia.
  - intros q Hq. assert (Hqs : q ∈ rs) by (rewrite Hp; right; assumption).
    apply (ordered_apart _ _ rs p q (sp_rord _ _ _ _ _ H) Hnd Hpr Hqs).
    intros ->. rewrite Hp in Hnd. apply NoDup_cons in Hnd as [? _]. contradiction.
Qed.

Lemma Free_spec v w hs rs addr ok v' w' :
  space v w hs rs -> Free v w addr = Ok (ok, v', w') ->
  exists hs' rs', space v' w' hs' rs' /\ world_kept w w' /\ free_outcome w w' v hs rs addr ok v' hs' rs'.
Proof.
  intros H E. unfold Vmm.Free in E.
  destruct (FindRange_spec hhdmBase hhdm_pos v w hs rs addr H) as (o & Ef & Ho). rewrite Ef in E. cbn [mbind res_bind] in E.
  assert (Hsame : Ok (false, v, w) = Ok (ok, v', w') ->
    exists hs' rs', space v' w' hs' rs' /\ world_kept w w' /\ free_outcome w w' v hs rs addr ok v' hs' rs').
  { intros [= <- <- <-]. exists hs, rs. split; [assumption |]. split; [split; [apply H | auto] |].
    split; [auto |]. split; [tauto | auto]. }
  destruct o as [p |]; [| apply Hsame, E]. destruct Ho as [Hp Hcov].
  destruct (Z.eqb_spec (mdlCount (rangeData v p)) 0) as [Hm | Hm]; simpl negb in E; cbn iota in E; [| apply Hsame, E].
  destruct (remove_range_spec hhdmBase hhdm_pos v w hs rs p H Hp) as (v1 & rs1 & Er & H1 & Hperm & Hk1 & Ed1 & Es1).
  rewrite Er in E. cbn [mbind res_bind] in E.
  assert (Hnd : NoDup rs) by exact (tree_of_NoDup NullAggregate _ _ _ (sp_ranges _ _ _ _ _ H)).
  assert (Hnp : p ∉ rs1) by (rewrite Hperm in Hnd; apply NoDup_cons in Hnd as [? _]; assumption).
  pose proof Hk1 as (_ & Hhd & _ & Lo1 & Up1 & _).
  set (v2 := set_stats v1 _) in *.
  assert (H2 : space v2 w hs rs1) by (apply space_stats; assumption).
  assert (Hup : meta_used MetaRange (rangeSlabs v1) (Zpos p)) by (rewrite Es1; apply H, Hp).
  destruct (GetDriver (flags (rangeData v p))) as [drv |] eqn:Ed.
  2:{ injection E as <- <- <-. exists hs, rs1. split; [assumption |]. split; [split; [apply H | auto] |].
      split; [intros x Hx; simpl; rewrite Ed1; reflexivity |].
      split; [intros x; apply holes_kept_addr; simpl; congruence | right; eauto]. }
  destruct (drv_Detach drv w (rangeData v p) (stats v2)) as [[[b w3] st] | |] eqn:Edt; try discriminate.
  cbn [mbind res_bind] in E.
  pose proof (dk_detach _ (GetDriver_ok _ _ Ed) _ _ _ _ _ _ (sp_pages _ _ _ _ _ H) Edt) as Hw3.
  pose proof (space_stats _ _ _ st _ _ (space_world _ _ _ _ _ _ H2 Hw3)) as H3.
  destruct b; simpl negb in E; cbn iota in E.
  - destruct (new_hole hhdmBase (set_stats v2 st) w3 (base (rangeData v p)) (length (rangeData v p))) as [[[hp v4] w4] | |] eqn:En;
      try discriminate. cbn [mbind res_bind] in E.
    destruct (range_clear v w hs rs p rs1 H Hperm) as [Hc1 Hc2].
    fold (rlo v p) in En. replace (length (rangeData v p)) with (rhi v p - rlo v p) in En by (unfold rhi, rlo; lia).
    pose proof (sp_rin _ _ _ _ _ H p Hp) as (I1 & I2 & I3).
    assert (Eh : rlo v p + (rhi v p - rlo v p) = rhi v p) by lia.
    assert (Hspan : forall q, rlo (set_stats v2 st) q = rlo v q /\ rhi (set_stats v2 st) q = rhi v q)
      by (intros q; unfold rlo, rhi; simpl; rewrite Ed1; auto).
    assert (Hadr2 : forall x, hole_addr (set_stats v2 st) hs x <-> hole_addr v hs x)
      by (intros x; apply holes_kept_addr; simpl; congruence).
    destruct (new_hole_spec hhdmBase hhdm_pos hhdm_room _ _ _ _ _ _ _ _ _ H3 En) as (_ & _ & Hk4 & _).
    destruct (add_hole (set_stats v2 st) w3 hs rs1 (rlo v p) (rhi v p - rlo v p) v4 w4 hp H3 En) as
      (v5 & hs' & E5 & H5 & Hperm5 & Hw5 & Hk5 & Hpp & Hsm & Hnp5 & _); rewrite ?Eh.
    + unfold inside; simpl. rewrite Lo1, Up1. lia.
    + apply (apart_of_addr _ _ _ _ _ _ H3 I2). intros x Hx%Hadr2. apply Hc1, Hx.
    + intros q Hq. destruct (Hspan q) as [-> ->]. apply Hc2, Hq.
    + (* the structure is released between the two steps, which touch different slabs *)
      pose proof Hk4 as (_ & K2 & K3 & _).
      destruct (FreeMeta_spec hhdmBase hhdm_pos MetaRange (rangeSlabs v4) w4 (Zpos p)) as (sl & Esl & Hisl & Hiff).
      { destruct (new_hole_spec hhdmBase hhdm_pos hhdm_room _ _ _ _ _ _ _ _ _ H3 En) as (H4 & _). apply H4. }
      { rewrite K3. assumption. }
      unfold FreeMeta_range in E. rewrite Esl in E. cbn [mbind res_bind] in E.
      assert (Ei : insert_hole (set_rangeSlabs v4 sl) hp = Ok (set_rangeSlabs v5 sl)).
      { unfold insert_hole in E5 |- *. simpl.
        destruct (Insert VmHoleAggregate VmHoleLess TreeFuel hp (holes v4) (holeData v4)) as [[hh dd] | |]; try discriminate.
        cbn in E5 |- *. injection E5 as <-. reflexivity. }
      rewrite Ei in E. cbn in E. injection E as <- <- <-.
      pose proof Hk5 as (K5a & K5b & K5c & _).
      exists hs', rs1. split; [| split; [eapply world_kept_trans; eassumption |]].
      * destruct H5. constructor; auto. intros x Hx. simpl. apply Hiff. rewrite K3.
        split; [specialize (sp_rused x Hx); rewrite K5c in sp_rused; exact sp_rused |]. intros [= ->]. contradiction.
      * split; [intros x Hx; simpl; rewrite K5b; simpl; rewrite Ed1; reflexivity |].
        exists p. split_and!; auto; try lia;
          [intros x | exists drv, w3, (stats v2), st; split; [assumption |]; split; [assumption | eapply new_hole_steps, En]].
        change (hole_addr (set_rangeSlabs v5 sl) hs' x) with (hole_addr v5 hs' x).
        rewrite Eh in Hpp. rewrite (kept_piece_addr (set_stats v2 st) v5 hs hs' hp _ _ x Hperm5 Hpp Hsm Hnp5), Hadr2. tauto.
  - destruct (FreeMeta_range_spec hhdmBase hhdm_pos (set_stats v2 st) w3 hs rs1 p H3 Hnp Hup) as (v4 & E4 & H4 & Hk4 & _ & Ed4).
    rewrite E4 in E. cbn in E. injection E as <- <- <-.
    exists hs, rs1. split; [assumption |]. split; [assumption |].
    split; [intros x Hx; rewrite Ed4; simpl; rewrite Ed1; reflexivity |].
    split; [| right; eauto]. intros x. apply holes_kept_addr. destruct Hk4 as (_ & -> & _). simpl. congruence.
Qed.
End Alloc.
