(* ===== verification/VmmOps.v ===== *)
(** The other operations of the virtual memory manager: initialisation, faults, flags,
    splitting, pinning, and the totality of [Alloc] and [Free] while the metadata slabs have
    entries to spare. *)

From S2P Require Import Prelude Maths Bitmap Pmm RBTree RBTreeProofs RBTreeFix RBTreeOps RBTreeRemove RBTreeSpec Flags VmmMeta Vmm VmmTree VmmProofs VmmAlloc.

Section Ops.
Context {W : Type} `{!MetaPages W}.
Variable hhdmBase : Z.
Hypothesis hhdm_pos : 0 <= hhdmBase.
Hypothesis hhdm_room : forall w p w', mp_inv w -> mp_alloc w = Ok (p, w') -> p + hhdmBase + PageSize + PageSize <= two64.
Local Abbreviation space := (space hhdmBase).

(** ** Initialisation *)

Lemma empty_space v w :
  holes v = no_hooks -> ranges v = no_hooks -> holeSlabs v = [] -> rangeSlabs v = [] ->
  0 < globalLowerBound v /\ globalUpperBound v < two64 -> mp_inv w -> space v w [] [].
Proof.
  intros E1 E2 E3 E4 Hb Hw.
  constructor; rewrite ?E1, ?E2, ?E3, ?E4; auto; try apply tree_of_empty; try (constructor; fail);
    try (intros p Hp; inversion Hp; fail); try (intros p q Hp; inversion Hp; fail);
    exists []; (split; [constructor |]); (split; [constructor |]); intros f Hf; inversion Hf.
Qed.

Lemma CommonInit_spec v w v' w' :
  holes v = no_hooks -> ranges v = no_hooks -> 0 < globalLowerBound v < globalUpperBound v -> globalUpperBound v < two64 ->
  mp_inv w -> CommonInit hhdmBase v w = Ok (v', w') ->
  exists p, space v' w' [p] [] /\ world_kept w w' /\ hlo v' p = globalLowerBound v /\ hhi v' p = globalUpperBound v /\
    globalLowerBound v' = globalLowerBound v /\ globalUpperBound v' = globalUpperBound v.
Proof.
  intros E1 E2 Hb Hb2 Hw E. unfold CommonInit in E. set (v0 := set_holeSlabs (set_rangeSlabs v []) []) in *.
  assert (H0 : space v0 w [] []) by (apply empty_space; simpl; auto; lia).
  change (globalUpperBound v0) with (globalUpperBound v) in E. change (globalLowerBound v0) with (globalLowerBound v) in E.
  rewrite u64_small in E by lia. set (len := globalUpperBound v - globalLowerBound v) in *.
  destruct (new_hole hhdmBase v0 w (globalLowerBound v) len) as [[[p v1] w1] | |] eqn:En; try discriminate.
  cbn [mbind res_bind] in E.
  destruct (new_hole_spec hhdmBase hhdm_pos hhdm_room v0 w [] [] _ len p v1 w1 H0 En) as (H1 & Hw1 & Hk & _ & Hd & _ & Hu & _).
  pose proof Hk as (K1 & K2 & K3 & K4 & K5 & K6). rewrite K4 in E. change (globalLowerBound v0) with (globalLowerBound v) in *.
  set (v2 := set_holes v1 _ _) in *.
  assert (H2 : space v2 w1 [] []).
  { destruct H1. constructor; auto; try (intros x Hx; inversion Hx; fail); try (constructor; fail);
      try (intros x q Hx; inversion Hx; fail).
    apply (tree_of_data VmHoleAggregate _ (holeData v1)); [intros x Hx; inversion Hx | exact sp_holes]. }
  assert (Hp2 : holeData v2 p = mkHole (globalLowerBound v) len len) by (simpl; unfold upd; rewrite decide_True; reflexivity).
  assert (Hl : hlo v2 p = globalLowerBound v) by (unfold hlo; rewrite Hp2; reflexivity).
  assert (Hh : hhi v2 p = globalUpperBound v) by (unfold hhi; rewrite Hp2; simpl; lia).
  destruct (insert_hole_spec hhdmBase hhdm_pos v2 w1 [] [] p H2) as (v3 & hs' & E3 & H3 & Hperm & Hk3 & _ & Hsp).
  - intros Hx; inversion Hx.
  - assumption.
  - rewrite Hl, Hh. unfold inside. change (globalLowerBound v2) with (globalLowerBound v1).
    change (globalUpperBound v2) with (globalUpperBound v1). rewrite K4, K5. simpl. lia.
  - intros q Hq; inversion Hq.
  - intros q Hq; inversion Hq.
  - rewrite E3 in E. cbn in E. injection E as <- <-. exists p. destruct (Hsp p) as [-> ->].
    pose proof Hk3 as (_ & _ & _ & -> & -> & _). change (globalLowerBound v2) with (globalLowerBound v1).
    change (globalUpperBound v2) with (globalUpperBound v1). rewrite K4, K5.
    apply Permutation_singleton_r in Hperm as ->. split_and!; auto.
Qed.

(** ** Totality with spare entries *)

Lemma new_hole_spare v w hs rs b len :
  space v w hs rs -> 0 < spare (holeSlabs v) ->
  exists p v', new_hole hhdmBase v w b len = Ok (p, v', w) /\ spare (holeSlabs v') = spare (holeSlabs v) - 1.
Proof.
  intros H Hs. destruct (AllocMeta_spare hhdmBase MetaHole (holeSlabs v) w (sp_hmeta _ _ _ _ _ H) Hs) as (a & sl & E & Hsp).
  unfold new_hole. rewrite E. cbn. eauto.
Qed.

Lemma new_range_spare v w hs rs r :
  space v w hs rs -> 0 < spare (rangeSlabs v) ->
  exists p v', new_range hhdmBase v w r = Ok (p, v', w) /\ spare (rangeSlabs v') = spare (rangeSlabs v) - 1.
Proof.
  intros H Hs. destruct (AllocMeta_spare hhdmBase MetaRange (rangeSlabs v) w (sp_rmeta _ _ _ _ _ H) Hs) as (a & sl & E & Hsp).
  unfold new_range. rewrite E. cbn. eauto.
Qed.

(** Taking the start of a hole needs at most one more entry. *)
Lemma AdjustHole_spare v w hs rs t len :
  space v w hs rs -> t ∈ hs -> 0 < len <= hole_length (holeData v t) -> 0 < spare (holeSlabs v) ->
  exists v', AdjustHole hhdmBase v w t 0 len = Ok (v', w) /\ spare (holeSlabs v) - 1 <= spare (holeSlabs v').
Proof.
  intros H Ht Hlen Hs. unfold AdjustHole. rewrite Z.add_0_l.
  pose proof (sp_hin _ _ _ _ _ H t Ht) as (I1 & I2 & I3). pose proof (sp_bounds _ _ _ _ _ H) as [B1 B2].
  unfold hhi in I3. fold (hlo v t) in I3. rewrite (u64_small len) by lia.
  destruct (Z.leb_spec len (hole_length (holeData v t))); [| lia]. cbn [assert_ mbind res_bind].
  destruct (remove_hole_spec hhdmBase hhdm_pos v w hs rs t H Ht) as (v1 & hs1 & -> & H1 & Hperm & Hk1 & Hsl1 & Hsp1).
  cbn [mbind res_bind]. rewrite Z.ltb_irrefl. cbn [mbind res_bind].
  assert (El : hole_length (holeData v1 t) = hole_length (holeData v t))
    by (destruct (Hsp1 t) as [Ea Eb]; unfold hhi, hlo in *; lia).
  destruct (Z.ltb_spec len (hole_length (holeData v1 t))) as [Hlt | Hge].
  2:{ exists v1. split; [reflexivity | rewrite Hsl1; lia]. }
  rewrite Z.add_0_r. fold (hlo v1 t). destruct (Hsp1 t) as [Elo _]. rewrite Elo, El.
  rewrite (u64_small (hlo v t + len)), (u64_small (hole_length (holeData v t) - len)) by lia.
  destruct (new_hole_spare v1 w hs1 rs (hlo v t + len) (hole_length (holeData v t) - len) H1) as (p & v2 & E2 & Hs2);
    [rewrite Hsl1; assumption |].
  rewrite E2. cbn [mbind res_bind].
  destruct (part_apart hhdmBase v w hs rs t hs1 (hlo v t + len) (hhi v t) H Hperm ltac:(lia) ltac:(lia)) as [Hp1 Hp2].
  pose proof Hk1 as (K1 & K2 & K3 & K4 & K5 & K6).
  destruct (add_hole hhdmBase hhdm_pos hhdm_room v1 w hs1 rs (hlo v t + len) (hole_length (holeData v t) - len) v2 w p H1 E2)
    as (v3 & hs3 & E3 & _).
  - unfold inside. rewrite K4, K5. lia.
  - intros q Hq. destruct (Hsp1 q) as [-> ->]. specialize (Hp1 q Hq). unfold apart, hhi in *. fold (hlo v t) in *. lia.
  - intros q Hq. specialize (Hp2 q Hq). unfold apart, hhi, rlo, rhi in *. rewrite K2. fold (hlo v t) in *. lia.
  - rewrite E3. cbn. exists v3. split; [reflexivity |].
    destruct (new_hole_spec hhdmBase hhdm_pos hhdm_room _ _ _ _ _ _ _ _ _ H1 E2) as (H2 & _).
    assert (Hsl : holeSlabs v3 = holeSlabs v2).
    { unfold insert_hole in E3. destruct (Insert _ _ _ _ _ _) as [[hh dd] | |]; try discriminate. cbn in E3.
      injection E3 as <-. reflexivity. }
    rewrite Hsl, Hs2, Hsl1. lia.
Qed.

Variable anonDriver vfsDriver kernelDriver : VmDriver W.
Hypothesis anon_ok : driver_ok anonDriver.
Hypothesis vfs_ok : driver_ok vfsDriver.
Hypothesis kernel_ok : driver_ok kernelDriver.
Local Abbreviation GetDriver := (GetDriver anonDriver vfsDriver kernelDriver).
Local Abbreviation Alloc := (Vmm.Alloc hhdmBase anonDriver vfsDriver kernelDriver).
Local Abbreviation Free := (Vmm.Free hhdmBase anonDriver vfsDriver kernelDriver).

(** Slabs through the steps of [Alloc]. *)
Lemma insert_hole_slabs v p v' : insert_hole v p = Ok v' -> holeSlabs v' = holeSlabs v /\ rangeSlabs v' = rangeSlabs v.
Proof.
  unfold insert_hole. destruct (Insert _ _ _ _ _ _) as [[hh dd] | |]; try discriminate. intros [= <-]. auto.
Qed.

Lemma FreeMeta_hole_spare v p v' :
  FreeMeta_hole v p = Ok v' -> spare (holeSlabs v') = spare (holeSlabs v) /\ rangeSlabs v' = rangeSlabs v.
Proof.
  unfold FreeMeta_hole. destruct (FreeMeta _ _ _) as [sl | |] eqn:E; try discriminate. intros [= <-]. simpl.
  rewrite (FreeMeta_spare_at MetaHole (Zpos p) _ sl E). auto.
Qed.

Lemma Alloc_tail_total drv q initArg fl v w hs rs h :
  driver_ok drv -> space v w hs rs -> 0 < q_length q ->
  head (filter (fits_len (holeData v) (q_length q)) hs) = Some h ->
  2 <= spare (holeSlabs v) -> 1 <= spare (rangeSlabs v) ->
  (forall st, exists att w' st', drv_Attach drv w (mkRange (hlo v h) (q_length q) fl 0 0 0) st q initArg = Ok (att, w', st') /\ a_success att = true) ->
  exists a v' w', Alloc_tail hhdmBase drv q initArg fl v w h = Ok (Some a, v', w').
Proof.
  intros Hdrv H Hq Hfirst Hs1 Hs2 Hatt. unfold Alloc_tail.
  assert (Hin : h ∈ filter (fits_len (holeData v) (q_length q)) hs)
    by (destruct (filter _ hs); simpl in Hfirst; [discriminate | injection Hfirst as ->; left]).
  apply list_elem_of_filter in Hin as [Hfit Hh]. unfold fits_len in Hfit.
  pose proof (sp_hin _ _ _ _ _ H h Hh) as (I1 & I2 & I3). pose proof (sp_bounds _ _ _ _ _ H) as [B1 B2].
  destruct (AdjustHole_spare v w hs rs h (q_length q) H Hh ltac:(lia) ltac:(lia)) as (v1 & Ea & Hsp1).
  rewrite Ea. cbn [mbind res_bind].
  destruct (AdjustHole_spec hhdmBase hhdm_pos hhdm_room v w hs rs h 0 (q_length q) v1 w H Hh ltac:(lia) Hq ltac:(lia) Ea)
    as (hs1 & H1 & Hw1 & Hk1 & Hout & Hu1 & Hadr1).
  destruct (FreeMeta_hole_spec hhdmBase hhdm_pos v1 w hs1 rs h H1 Hout Hu1) as (v2 & Ef & H2 & Hk2 & _ & _ & _).
  rewrite Ef. cbn [mbind res_bind]. fold (hlo v h). destruct (Z.eqb_spec (hlo v h) 0); [lia |].
  destruct (FreeMeta_hole_spare v1 h v2 Ef) as [_ Hr2]. pose proof Hk1 as (_ & Rd1 & Hr1 & Lo1 & Up1 & _).
  pose proof Hk2 as (_ & Rd2 & _ & Lo2 & Up2 & _).
  set (r0 := mkRange (hlo v h) (q_length q) fl 0 0 0).
  destruct (new_range_spare v2 w hs1 rs r0 H2) as (p & v3 & En & _); [rewrite Hr2, Hr1; lia |].
  rewrite En. cbn [mbind res_bind].
  destruct (new_range_spec hhdmBase hhdm_pos hhdm_room v2 w hs1 rs r0 p v3 w H2 En) as (H3 & _ & Hk3 & Hp3 & Hd3 & Ho3 & Hu3 & _).
  destruct (Hatt (stats v3)) as (att & w4 & st & Eat & Hsucc). fold r0 in Eat. rewrite Eat. cbn [mbind res_bind]. rewrite Hsucc. cbn [negb].
  pose proof (dk_attach _ Hdrv _ _ _ _ _ _ _ _ (sp_pages _ _ _ _ _ H3) Eat) as Hw4.
  pose proof (space_stats _ _ _ st _ _ (space_world _ _ _ _ _ _ H3 Hw4)) as H4.
  pose proof Hk3 as (_ & Hd3' & _ & Lo3 & Up3 & _).
  set (r1 := mkRange (hlo v h) (q_length q) fl (a_offset att) (a_token att) 0).
  set (v5 := set_ranges (set_stats v3 st) (ranges v3) (upd (rangeData v3) p r1)).
  assert (Hd5 : forall x, x ∈ rs -> rangeData v5 x = rangeData v x).
  { intros x Hx. simpl. unfold upd. rewrite decide_False by (intros ->; contradiction).
    rewrite Ho3 by (intros ->; contradiction). congruence. }
  assert (Hp5 : rangeData v5 p = r1) by (simpl; unfold upd; rewrite decide_True; reflexivity).
  assert (H5 : space v5 w4 hs1 rs).
  { apply (space_rangeData hhdmBase (set_stats v3 st) w4 hs1 rs (upd (rangeData v3) p r1) H4).
    intros x Hx. pose proof (Hd5 x Hx) as Hdx. simpl in Hdx. rewrite Hdx. simpl.
    rewrite Ho3 by (intros ->; contradiction). rewrite Rd2, Rd1. auto. }
  destruct (insert_range_spec hhdmBase hhdm_pos v5 w4 hs1 rs p H5 Hp3 Hu3) as (v6 & rs' & E6 & _).
  - unfold rlo, rhi. rewrite Hp5. unfold inside; simpl. rewrite Lo3, Up3, Lo2, Up2, Lo1, Up1.
    unfold hhi in I3. fold (hlo v h) in I3. lia.
  - intros x Hx. unfold rlo, rhi. rewrite Hp5, Hd5 by assumption. simpl.
    pose proof (sp_apart _ _ _ _ _ H h x Hh Hx) as Hap. unfold apart, hhi, hlo, rhi, rlo in *. lia.
  - intros x Hx. unfold rlo, rhi. rewrite Hp5. simpl.
    assert (Hap : apart (hlo v h) (hlo v h + q_length q) (hlo v1 x) (hhi v1 x)).
    { apply (apart_of_addr hhdmBase v1 w hs1 rs); [assumption | lia | | assumption]. intros y Hy%Hadr1. lia. }
    assert (Ehd : holeData v5 = holeData v1) by (simpl; rewrite Hd3'; assert (holeData v2 = holeData v1) by
      (unfold FreeMeta_hole in Ef; destruct (FreeMeta _ _ _); try discriminate; injection Ef as <-; reflexivity); congruence).
    unfold apart, hlo, hhi in *. rewrite Ehd. lia.
  - change (insert_range _ p) with (insert_range v5 p). rewrite E6. cbn. eauto.
Qed.

(** [Free] of a covered, unpinned address whose driver lets go of it. *)
Lemma Free_total v w hs rs addr p drv :
  space v w hs rs -> p ∈ rs -> rlo v p <= addr < rhi v p -> mdlCount (rangeData v p) = 0 ->
  GetDriver (flags (rangeData v p)) = Some drv -> 1 <= spare (holeSlabs v) ->
  (forall st, exists w' st', drv_Detach drv w (rangeData v p) st = Ok (true, w', st')) ->
  exists v' w', Free v w addr = Ok (true, v', w').
Proof.
  intros H Hp Hcov Hm Hd Hs Hdet. unfold Vmm.Free.
  destruct (FindRange_spec hhdmBase hhdm_pos v w hs rs addr H) as (o & -> & Ho). cbn [mbind res_bind].
  assert (o = Some p) as ->.
  { destruct o as [q |]; [| exfalso; eapply Ho; eassumption]. destruct Ho as [Hq Hcq]. destruct (decide (p = q)) as [-> | Hne]; [reflexivity |].
    destruct (ordered_apart (rlo v) (rhi v) rs p q (sp_rord _ _ _ _ _ H)
      (tree_of_NoDup NullAggregate _ _ _ (sp_ranges _ _ _ _ _ H)) Hp Hq Hne); lia. }
  rewrite Hm. cbn [Z.eqb negb].
  destruct (remove_range_spec hhdmBase hhdm_pos v w hs rs p H Hp) as (v1 & rs1 & -> & H1 & Hperm & Hk1 & Ed1 & Es1).
  cbn [mbind res_bind]. rewrite Hd. set (v2 := set_stats v1 _).
  destruct (Hdet (stats v2)) as (w3 & st & Edt). rewrite Edt. cbn [mbind res_bind negb].
  pose proof (dk_detach _ (GetDriver_ok anonDriver vfsDriver kernelDriver anon_ok vfs_ok kernel_ok _ _ Hd) _ _ _ _ _ _ (sp_pages _ _ _ _ _ H) Edt) as Hw3.
  assert (H2 : space v2 w hs rs1) by (apply space_stats; assumption).
  pose proof (space_stats _ _ _ st _ _ (space_world _ _ _ _ _ _ H2 Hw3)) as H3.
  pose proof Hk1 as (_ & Hhd & Hsl & Lo1 & Up1 & _).
  destruct (new_hole_spare (set_stats v2 st) w3 hs rs1 (base (rangeData v p)) (length (rangeData v p)) H3) as (hp & v4 & E4 & _);
    [simpl; rewrite Hsl; lia |].
  rewrite E4. cbn [mbind res_bind].
  destruct (new_hole_spec hhdmBase hhdm_pos hhdm_room _ _ _ _ _ _ _ _ _ H3 E4) as (H4 & _ & (_ & _ & K3 & _) & _).
  assert (Hnd : NoDup rs) by exact (tree_of_NoDup NullAggregate _ _ _ (sp_ranges _ _ _ _ _ H)).
  assert (Hnp : p ∉ rs1) by (rewrite Hperm in Hnd; apply NoDup_cons in Hnd as [? _]; assumption).
  destruct (FreeMeta_range_spec hhdmBase hhdm_pos v4 w3 hs rs1 p H4 Hnp) as (v5 & E5 & _ & (K1 & K2 & _) & _).
  { rewrite K3. simpl. rewrite Es1. apply H, Hp. }
  rewrite E5. cbn [mbind res_bind].
  destruct (range_clear hhdmBase v w hs rs p rs1 H Hperm) as [Hc1 Hc2]. pose proof (sp_rin _ _ _ _ _ H p Hp) as (I1 & I2 & I3).
  fold (rlo v p) in E4. replace (length (rangeData v p)) with (rhi v p - rlo v p) in E4 by (unfold rhi, rlo; lia).
  assert (Eh : rlo v p + (rhi v p - rlo v p) = rhi v p) by lia.
  destruct (add_hole hhdmBase hhdm_pos hhdm_room (set_stats v2 st) w3 hs rs1 (rlo v p) (rhi v p - rlo v p) v4 w3 hp H3 E4)
    as (v6 & hs' & E6 & _); rewrite ?Eh.
  - unfold inside; simpl. rewrite Lo1, Up1. lia.
  - apply (apart_of_addr _ _ _ _ _ _ _ H3 I2). intros x Hx. apply Hc1. unfold hole_addr, hlo, hhi in *. simpl in Hx.
    rewrite Hhd in Hx. assumption.
  - intros q Hq. unfold rlo at 2, rhi at 2; simpl. rewrite Ed1. apply Hc2, Hq.
  - unfold insert_hole in *. rewrite K1, K2. destruct (Insert _ _ _ _ _ _) as [[hh dd] | |]; try discriminate.
    cbn. eauto.
Qed.
End Ops.
