(* ===== verification/VmmSplit.v ===== *)
(** Faults, flags, splitting and pinning: what [HandleFault], [SetFlags], [Split],
    [AcquireMdl] and [ReleaseMdl] do to the ranges of a manager. *)

From S2P Require Import Prelude Maths Bitmap Pmm RBTree RBTreeProofs RBTreeFix RBTreeOps RBTreeRemove Flags VmmMeta Vmm VmmTree VmmProofs VmmAlloc.

Section Split.
Context {W : Type} `{!MetaPages W}.
Variable hhdmBase : Z.
Hypothesis hhdm_pos : 0 <= hhdmBase.
Hypothesis hhdm_room : forall w p w', mp_inv w -> mp_alloc w = Ok (p, w') -> p + hhdmBase + PageSize + PageSize <= two64.
Local Abbreviation space := (space hhdmBase).
Variable anonDriver vfsDriver kernelDriver : VmDriver W.
Hypothesis anon_ok : driver_ok anonDriver.
Hypothesis vfs_ok : driver_ok vfsDriver.
Hypothesis kernel_ok : driver_ok kernelDriver.
Variable HatGetMap : W -> Z -> option (Z * Z).
Variable granularity : Z -> Z.
Local Abbreviation GetDriver := (GetDriver anonDriver vfsDriver kernelDriver).
Local Abbreviation HandleFault := (Vmm.HandleFault anonDriver vfsDriver kernelDriver).
Local Abbreviation SetFlags := (Vmm.SetFlags anonDriver vfsDriver kernelDriver).
Local Abbreviation Split := (Vmm.Split hhdmBase anonDriver vfsDriver kernelDriver).
Local Abbreviation map_or_fault := (Vmm.map_or_fault anonDriver vfsDriver kernelDriver HatGetMap).
Local Abbreviation AcquireMdl_loop := (Vmm.AcquireMdl_loop anonDriver vfsDriver kernelDriver HatGetMap granularity).
Local Abbreviation AcquireMdl := (Vmm.AcquireMdl anonDriver vfsDriver kernelDriver HatGetMap granularity).

Definition range_covers (v : VMM) (p : ptr) (addr : Z) : Prop := rlo v p <= addr < rhi v p.

(** The range that covers an address is the one [FindRange] returns. *)
Lemma FindRange_unique v w hs rs p addr :
  space v w hs rs -> p ∈ rs -> range_covers v p addr -> FindRange v addr = Ok (Some p).
Proof.
  intros H Hp Hcov. destruct (FindRange_spec hhdmBase hhdm_pos v w hs rs addr H) as (o & -> & Ho). f_equal.
  destruct o as [q |]; [| exfalso; eapply Ho; eassumption]. destruct Ho as [Hq Hcq].
  destruct (decide (p = q)) as [-> | Hne]; [reflexivity |]. unfold range_covers in Hcov.
  destruct (ordered_apart (rlo v) (rhi v) rs p q (sp_rord _ _ _ _ _ H)
    (tree_of_NoDup NullAggregate _ _ _ (sp_ranges _ _ _ _ _ H)) Hp Hq Hne); lia.
Qed.

(** A step that changes nothing but statistics. *)
Definition stats_only (v v' : VMM) : Prop := exists st, v' = set_stats v st.

Lemma stats_only_refl v : stats_only v v.
Proof. exists (stats v). destruct v; reflexivity. Qed.

Lemma stats_only_space v v' w hs rs : space v w hs rs -> stats_only v v' -> space v' w hs rs.
Proof. intros H [st ->]. apply space_stats, H. Qed.

(** ** Faults *)

Definition permitted (fl rfl : Z) : Prop :=
  (Flags.Has fl VmFaultFlag.Write = true -> Flags.Has rfl VmFlag.Write = true) /\
  (Flags.Has fl VmFaultFlag.Execute = true -> Flags.Has rfl VmFlag.Execute = true) /\
  (Flags.Has fl VmFaultFlag.User = true -> Flags.Has rfl VmFlag.User = true).

Lemma HandleFault_spec v w hs rs addr fl good v' w' :
  space v w hs rs -> HandleFault v w addr fl = Ok (good, v', w') ->
  stats_only v v' /\ world_kept w w' /\ space v' w' hs rs /\
  (good = true -> exists p, p ∈ rs /\ range_covers v p addr /\ permitted fl (flags (rangeData v p))).
Proof.
  intros H E. unfold Vmm.HandleFault in E.
  assert (Hbad : forall u, Ok (false, u, w) = Ok (good, v', w') -> stats_only v u ->
    stats_only v v' /\ world_kept w w' /\ space v' w' hs rs /\
    (good = true -> exists p, p ∈ rs /\ range_covers v p addr /\ permitted fl (flags (rangeData v p)))).
  { intros u [= <- <- <-] Hu. split; [assumption |]. split; [split; [apply H | auto] |].
    split; [eapply stats_only_space; eassumption | discriminate]. }
  destruct (_ || _) in E; [apply (Hbad v E), stats_only_refl |].
  set (u := set_stats v (count_fault (stats v))) in *. assert (Hu : stats_only v u) by (eexists; reflexivity).
  destruct (FindRange_spec hhdmBase hhdm_pos u w hs rs addr (stats_only_space _ _ _ _ _ H Hu)) as (o & Ef & Ho).
  rewrite Ef in E. cbn [mbind res_bind] in E. destruct o as [p |]; [| apply (Hbad u E Hu)]. destruct Ho as [Hp Hcov].
  change (rangeData u p) with (rangeData v p) in E.
  destruct (Flags.Has fl VmFaultFlag.Write && negb (Flags.Has (flags (rangeData v p)) VmFlag.Write)) eqn:P1; [apply (Hbad u E Hu) |].
  destruct (Flags.Has fl VmFaultFlag.Execute && negb (Flags.Has (flags (rangeData v p)) VmFlag.Execute)) eqn:P2; [apply (Hbad u E Hu) |].
  destruct (Flags.Has fl VmFaultFlag.User && negb (Flags.Has (flags (rangeData v p)) VmFlag.User)) eqn:P3; [apply (Hbad u E Hu) |].
  destruct (GetDriver (flags (rangeData v p))) as [drv |] eqn:Ed; [| apply (Hbad u E Hu)].
  destruct (drv_HandleFault drv w (rangeData v p) (stats u) addr fl) as [[[b w1] st] | |] eqn:Eh; try discriminate.
  cbn in E. injection E as <- <- <-.
  pose proof (dk_fault _ (GetDriver_ok anonDriver vfsDriver kernelDriver anon_ok vfs_ok kernel_ok _ _ Ed) _ _ _ _ _ _ _ _ (sp_pages _ _ _ _ _ H) Eh) as Hw.
  split; [exists st; reflexivity |]. split; [assumption |].
  split; [apply (space_stats hhdmBase u w1 st), (space_world _ _ _ _ _ _ (stats_only_space _ _ _ _ _ H Hu) Hw) |].
  intros _. exists p. split; [assumption |]. split; [exact Hcov |].
  unfold permitted. destruct (Flags.Has fl VmFaultFlag.Write), (Flags.Has fl VmFaultFlag.Execute), (Flags.Has fl VmFaultFlag.User),
    (Flags.Has (flags (rangeData v p)) VmFlag.Write), (Flags.Has (flags (rangeData v p)) VmFlag.Execute),
    (Flags.Has (flags (rangeData v p)) VmFlag.User); auto; discriminate.
Qed.

(** ** Flags *)

Definition with_flags (r : VmRange) (fl : Z) : VmRange := mkRange (base r) (length r) fl (offset r) (token r) (mdlCount r).

Definition set_flags_outcome (v : VMM) (rs : list ptr) (addr fl : Z) (ok : bool) (v' : VMM) : Prop :=
  if ok then exists p, p ∈ rs /\ range_covers v p addr /\ Z.land fl VmFlagTypeMask = 0 /\
      rangeData v' p = with_flags (rangeData v p)
        (Z.lor (Z.land (flags (rangeData v p)) VmFlagTypeMask) (Z.land fl (not64 VmFlagTypeMask))) /\
      (forall x, x <> p -> rangeData v' x = rangeData v x)
  else rangeData v' = rangeData v.

Lemma SetFlags_spec v w hs rs addr fl ok v' w' :
  space v w hs rs -> SetFlags v w addr fl = Ok (ok, v', w') ->
  space v' w' hs rs /\ world_kept w w' /\ holeData v' = holeData v /\
  set_flags_outcome v rs addr fl ok v'.
Proof.
  intros H E. unfold Vmm.SetFlags in E.
  assert (Hbad : forall u w1, Ok (false, u, w1) = Ok (ok, v', w') -> stats_only v u -> world_kept w w1 ->
    space v' w' hs rs /\ world_kept w w' /\ holeData v' = holeData v /\
    set_flags_outcome v rs addr fl ok v').
  { intros u w1 [= <- <- <-] Hu Hw. split; [apply (stats_only_space v u w1); [apply (space_world _ _ w _ _ _ H Hw) | assumption] |].
    split; [assumption |]. destruct Hu as [st ->]. split; reflexivity. }
  assert (Hww : world_kept w w) by (split; [apply H | auto]).
  destruct (FindRange_spec hhdmBase hhdm_pos v w hs rs addr H) as (o & Ef & Ho). rewrite Ef in E. cbn [mbind res_bind] in E.
  destruct o as [p |]; [| apply (Hbad v w E (stats_only_refl v) Hww)]. destruct Ho as [Hp Hcov].
  destruct (Z.eqb_spec (Z.land fl VmFlagTypeMask) 0) as [Hz | Hz]; cbn [negb] in E; [| apply (Hbad v w E (stats_only_refl v) Hww)].
  destruct (GetDriver (flags (rangeData v p))) as [drv |] eqn:Ed; [| apply (Hbad v w E (stats_only_refl v) Hww)].
  destruct (drv_ModifyRange drv w (rangeData v p) (stats v) _) as [[[b w1] st] | |] eqn:Eh; try discriminate.
  cbn [mbind res_bind] in E.
  pose proof (dk_modify _ (GetDriver_ok anonDriver vfsDriver kernelDriver anon_ok vfs_ok kernel_ok _ _ Ed) _ _ _ _ _ _ _ (sp_pages _ _ _ _ _ H) Eh) as Hw.
  destruct b; cbn [negb] in E; [| apply (Hbad _ w1 E ltac:(eexists; reflexivity) Hw)].
  injection E as <- <- <-. set (d := upd _ _ _).
  assert (Hd : forall x, x <> p -> d x = rangeData v x) by (intros x Hx; unfold d, upd; rewrite decide_False by assumption; reflexivity).
  assert (Hdp : d p = with_flags (rangeData v p)
        (Z.lor (Z.land (flags (rangeData v p)) VmFlagTypeMask) (Z.land fl (not64 VmFlagTypeMask))))
    by (unfold d, upd; rewrite decide_True by reflexivity; reflexivity).
  split; [| split; [assumption | split; [reflexivity | exists p; auto]]].
  apply (space_rangeData hhdmBase (set_stats v st) w1 hs rs d (space_stats _ _ _ _ _ _ (space_world _ _ _ _ _ _ H Hw))).
  intros x Hx. destruct (decide (x = p)) as [-> | Hne]; [rewrite Hdp; auto | rewrite Hd by assumption; auto].
Qed.

(** ** Splitting *)

Lemma ordered_shrink lo hi lo' hi' xs :
  (forall x, x ∈ xs -> lo' x = lo x /\ hi' x <= hi x) -> ordered lo hi xs -> ordered lo' hi' xs.
Proof.
  intros He. induction xs as [| x xs IH]; intros Ho; [constructor |].
  apply ordered_cons in Ho as [Ho Hx]. apply ordered_cons. split.
  - apply IH; [intros y Hy; apply He; right; assumption | assumption].
  - intros y Hy. destruct (He x ltac:(left)) as [_ ?]. destruct (He y ltac:(right; assumption)) as [-> _].
    specialize (Hx y Hy). lia.
Qed.

(** Ranges may give up addresses at their end. *)
Lemma space_shrink v w hs rs d :
  space v w hs rs ->
  (forall x, x ∈ rs -> base (d x) = base (rangeData v x) /\ 0 < length (d x) <= length (rangeData v x)) ->
  space (set_ranges v (ranges v) d) w hs rs.
Proof.
  intros H Hd.
  assert (He : forall x, x ∈ rs -> rlo (set_ranges v (ranges v) d) x = rlo v x /\
    rlo v x < rhi (set_ranges v (ranges v) d) x <= rhi v x).
  { intros x Hx. unfold rlo, rhi; simpl. destruct (Hd x Hx) as [-> ?]. lia. }
  apply (space_ranges hhdmBase v _ w w hs rs); auto; try (repeat split; fail).
  - split; [apply H | auto].
  - eapply range_tree_data. apply H.
  - apply (ordered_shrink (rlo v) (rhi v)); [| apply H]. intros x Hx. destruct (He x Hx) as [-> ?]. lia.
  - intros x Hx. destruct (He x Hx) as [-> ?]. pose proof (sp_rin _ _ _ _ _ H x Hx) as (? & ? & ?). unfold inside. lia.
  - intros x q Hx Hq. destruct (He q Hq) as [-> ?]. pose proof (sp_apart _ _ _ _ _ H x q Hx Hq). unfold apart in *. lia.
  - apply H.
  - apply H.
Qed.

(** The outcome of [Split]: nothing, the end of the range (nothing to cut off), or a range
    cut in two. *)
Definition split_outcome (v : VMM) (rs : list ptr) (addr : Z) (r : option Z) (v' : VMM) (rs' : list ptr) : Prop :=
  match r with
  | None => rs' = rs /\ rangeData v' = rangeData v
  | Some a => exists p, p ∈ rs /\ range_covers v p addr /\ mdlCount (rangeData v p) = 0 /\
      ((rs' = rs /\ rangeData v' = rangeData v) \/
       exists np cut lowTok highTok, rs' ≡ₚ np :: rs /\ (np ∉ rs) /\ 0 < cut < length (rangeData v p) /\
         let r := rangeData v p in
         rangeData v' p = mkRange (base r) cut (flags r) (offset r) lowTok (mdlCount r) /\
         rangeData v' np = mkRange (base r + cut) (length r - cut) (flags r) 0 highTok 0 /\
         (forall x, x ∈ rs -> x <> p -> rangeData v' x = rangeData v x) /\ a = u64 (cut - offset r))
  end.

Lemma Split_spec v w hs rs addr off r v' w' :
  space v w hs rs ->
  (forall p, p ∈ rs -> range_covers v p addr -> 0 < off + (addr - (base (rangeData v p) + offset (rangeData v p))) <= MaxRequest) ->
  Split v w addr off = Ok (r, v', w') ->
  exists rs', space v' w' hs rs' /\ world_kept w w' /\ holeData v' = holeData v /\ split_outcome v rs addr r v' rs'.
Proof.
  intros H Hoff E. unfold Vmm.Split in E.
  assert (Hnone : forall u w1, Ok (None, u, w1) = Ok (r, v', w') -> stats_only v u -> world_kept w w1 ->
    exists rs', space v' w' hs rs' /\ world_kept w w' /\ holeData v' = holeData v /\ split_outcome v rs addr r v' rs').
  { intros u w1 [= <- <- <-] Hu Hw. exists rs.
    split; [apply (stats_only_space v u w1); [apply (space_world _ _ w _ _ _ H Hw) | assumption] |].
    split; [assumption |]. destruct Hu as [st ->]. repeat split. }
  assert (Hww : world_kept w w) by (split; [apply H | auto]).
  destruct (FindRange_spec hhdmBase hhdm_pos v w hs rs addr H) as (o & Ef & Ho). rewrite Ef in E. cbn [mbind res_bind] in E.
  destruct o as [p |]; [| apply (Hnone v w E (stats_only_refl v) Hww)]. destruct Ho as [Hp Hcov]. specialize (Hoff p Hp Hcov).
  set (r0 := rangeData v p) in *.
  destruct (Z.eqb_spec (mdlCount r0) 0) as [Hm | Hm]; cbn [negb] in E; [| apply (Hnone v w E (stats_only_refl v) Hww)].
  rewrite (u64_small (off + _)) in E by (unfold MaxRequest, two64 in *; lia).
  destruct (GetDriver (flags r0)) as [drv |] eqn:Ed; [| apply (Hnone v w E (stats_only_refl v) Hww)].
  destruct (drv_Split drv w r0 (stats v) _) as [[[res w1] st] | |] eqn:Es; try discriminate. cbn [mbind res_bind] in E.
  destruct (dk_split _ (GetDriver_ok anonDriver vfsDriver kernelDriver anon_ok vfs_ok kernel_ok _ _ Ed) _ _ _ _ _ _ _ (sp_pages _ _ _ _ _ H) Es)
    as [Hw Hcut].
  assert (Hst : stats_only v (set_stats v st)) by (eexists; reflexivity).
  destruct (s_success res); cbn [negb] in E; [| apply (Hnone _ w1 E Hst Hw)]. specialize (Hcut Hoff eq_refl).
  pose proof (space_stats _ _ _ st _ _ (space_world _ _ _ _ _ _ H Hw)) as H1.
  destruct (Z.eqb_spec (s_offset res) (length r0)) as [He | He].
  { injection E as <- <- <-. exists rs. split; [assumption |]. split; [assumption |]. split; [reflexivity |].
    exists p. split_and!; auto. }
  set (cut := s_offset res) in *. pose proof (sp_rin _ _ _ _ _ H p Hp) as (I1 & I2 & I3).
  pose proof (sp_bounds _ _ _ _ _ H) as [B1 B2]. unfold rhi, rlo in I1, I2, I3. fold r0 in I1, I2, I3.
  rewrite (u64_small (base r0 + cut)), (u64_small (length r0 - cut)) in E by lia.
  replace (base r0 + cut - base r0) with cut in E by lia. rewrite (u64_small cut) in E by lia.
  destruct (new_range hhdmBase (set_stats v st) w1 _) as [[[np v2] w2] | |] eqn:En; try discriminate. cbn [mbind res_bind] in E.
  destruct (new_range_spec hhdmBase hhdm_pos hhdm_room _ w1 hs rs _ np v2 w2 H1 En) as (H2 & Hw2 & Hk2 & Hnp & Hd2 & Ho2 & Hu2 & _).
  pose proof Hk2 as (_ & K2 & _ & K4 & K5 & _). simpl in K2, K4, K5.
  assert (Hne : np <> p) by (intros ->; contradiction).
  assert (Hd2x : forall x, x ∈ rs -> rangeData v2 x = rangeData v x) by (intros x Hx; apply Ho2; intros ->; contradiction).
  set (low := mkRange (base r0) cut (flags r0) (offset r0) (s_tokenLow res) (mdlCount r0)) in *.
  set (d := upd (rangeData v2) p low) in *.
  assert (Hdp : d p = low) by (unfold d, upd; rewrite decide_True; reflexivity).
  assert (Hdx : forall x, x <> p -> d x = rangeData v2 x) by (intros x Hx; unfold d, upd; rewrite decide_False by assumption; reflexivity).
  assert (H3 : space (set_ranges v2 (ranges v2) d) w2 hs rs).
  { apply space_shrink; [assumption |]. intros x Hx. destruct (decide (x = p)) as [-> | Hxp].
    - rewrite Hdp, (Hd2x p Hp). fold r0. simpl. lia.
    - rewrite (Hdx x Hxp). pose proof (sp_rin _ _ _ _ _ H2 x Hx) as (? & ? & ?). unfold rlo, rhi in *. lia. }
  set (v3 := set_stats (set_ranges v2 (ranges v2) d) _) in *.
  assert (H3' : space v3 w2 hs rs) by (apply space_stats, H3).
  assert (Hnew : rangeData v3 np = mkRange (base r0 + cut) (length r0 - cut) (flags r0) 0 (s_tokenHigh res) 0)
    by (change (rangeData v3 np) with (d np); rewrite (Hdx np Hne); assumption).
  assert (Hin : forall a b, inside v a b -> inside v3 a b) by (intros a b; unfold inside; simpl; rewrite K4, K5; auto).
  assert (Hlo : rlo v3 np = base r0 + cut) by (unfold rlo; rewrite Hnew; reflexivity).
  assert (Hhi : rhi v3 np = rhi v p) by (unfold rhi; rewrite Hnew; simpl; fold r0; lia).
  assert (Hnd : NoDup rs) by exact (tree_of_NoDup NullAggregate _ _ _ (sp_ranges _ _ _ _ _ H)).
  assert (Hpd : forall x, x ∈ rs -> x <> p -> rangeData v3 x = rangeData v x)
    by (intros x Hx Hxp; change (rangeData v3 x) with (d x); rewrite (Hdx x Hxp); auto).
  destruct (insert_range_spec hhdmBase hhdm_pos v3 w2 hs rs np H3' Hnp Hu2) as (v4 & rs' & E4 & H4 & Hperm & Hk4 & Hd4 & _).
  - apply Hin. rewrite Hlo, Hhi. unfold inside, rhi. fold r0. lia.
  - intros x Hx. rewrite Hlo, Hhi. destruct (decide (x = p)) as [-> | Hxp].
    + right. unfold rhi, rlo. change (rangeData v3 p) with (d p). rewrite Hdp. simpl. lia.
    + unfold rlo, rhi. rewrite (Hpd x Hx Hxp). fold r0.
      destruct (ordered_apart (rlo v) (rhi v) rs p x (sp_rord _ _ _ _ _ H) Hnd Hp Hx) as [Ha | Ha]; [congruence | |];
        unfold apart, rlo, rhi in *; fold r0 in Ha; lia.
  - intros q Hq. rewrite Hlo, Hhi. pose proof (sp_apart _ _ _ _ _ H q p Hq Hp) as Ha.
    unfold hlo, hhi in *. simpl. rewrite K2. unfold apart, rlo, rhi in *. fold r0 in Ha |- *. lia.
  - rewrite E4 in E. cbn in E. injection E as <- <- <-. exists rs'.
    split; [assumption |]. split; [eapply world_kept_trans; eassumption |].
    split; [destruct Hk4 as (_ & -> & _); exact K2 |].
    exists p. split_and!; auto. right. exists np, cut, (s_tokenLow res), (s_tokenHigh res).
    rewrite Hd4. fold r0. split_and!; auto; lia.
Qed.

(** ** Pinning *)

Definition with_mdl (r : VmRange) (n : Z) : VmRange := mkRange (base r) (length r) (flags r) (offset r) (token r) n.

Lemma set_mdlCount_data v p n x :
  rangeData (set_mdlCount v p n) x = if decide (x = p) then with_mdl (rangeData v p) n else rangeData v x.
Proof. reflexivity. Qed.

Lemma set_mdlCount_space v w hs rs p n : space v w hs rs -> space (set_mdlCount v p n) w hs rs.
Proof.
  intros H. unfold set_mdlCount. apply space_rangeData; [assumption |]. intros x _. unfold upd.
  destruct (decide (x = p)) as [-> | _]; auto.
Qed.

Lemma map_or_fault_spec v w hs rs addr m good v' w' :
  space v w hs rs -> map_or_fault v w addr = Ok (m, good, v', w') ->
  stats_only v v' /\ world_kept w w' /\ space v' w' hs rs.
Proof.
  intros H E. unfold Vmm.map_or_fault in E. destruct (HatGetMap w addr) as [pm |].
  - injection E as <- <- <- <-. split; [apply stats_only_refl |]. split; [split; [apply H | auto] | assumption].
  - destruct (HandleFault v w addr _) as [[[g v1] w1] | |] eqn:Eh; try discriminate. cbn [mbind res_bind] in E.
    destruct (HandleFault_spec v w hs rs _ _ g v1 w1 H Eh) as (Hs & Hw & H1 & _).
    destruct g; injection E as <- <- <- <-; auto.
Qed.

Definition piece_total (l : list (Z * Z)) : Z := foldr (fun x acc => fst x + acc) 0 l.

Lemma piece_total_app l l' : piece_total (l ++ l') = piece_total l + piece_total l'.
Proof. induction l as [| x l IH]; simpl; [reflexivity | rewrite IH; lia]. Qed.

Lemma stats_only_trans v1 v2 v3 : stats_only v1 v2 -> stats_only v2 v3 -> stats_only v1 v3.
Proof. intros [s ->] [t ->]. exists t. reflexivity. Qed.

Hypothesis granularity_pos : forall mode, 0 < granularity mode.

Lemma AcquireMdl_loop_spec addr len : 0 <= addr -> addr + len < two64 -> forall fuel v w hs rs scan ptrs ptrs' v' w',
  space v w hs rs -> addr <= scan <= addr + len ->
  AcquireMdl_loop fuel v w addr len scan ptrs = Ok (ptrs', v', w') ->
  stats_only v v' /\ world_kept w w' /\ space v' w' hs rs /\
  piece_total ptrs' = piece_total ptrs + (addr + len - scan).
Proof.
  intros Ha Hl. induction fuel as [| fuel IH]; intros v w hs rs scan ptrs ptrs' v' w' H Hscan E; cbn [Vmm.AcquireMdl_loop] in E;
    rewrite (u64_small (addr + len)) in E by lia;
    (destruct (Z.ltb_spec scan (addr + len)) as [Hlt | Hge];
     [| injection E as <- <- <-; split; [apply stats_only_refl |]; split; [split; [apply H | auto] |]; split; [assumption | lia]]).
  - discriminate.
  - destruct (map_or_fault v w scan) as [[[[m good] v1] w1] | |] eqn:Em; try discriminate. cbn [mbind res_bind] in E.
    destruct (map_or_fault_spec v w hs rs scan m good v1 w1 H Em) as (Hs1 & Hw1 & H1).
    destruct good; [| discriminate]. cbn [assert_ mbind res_bind] in E.
    destruct m as [[phys mode] |]; [| discriminate]. cbn [deref mbind res_bind] in E.
    pose proof (granularity_pos mode) as Hg. set (plen := Min (granularity mode) (u64 (len + addr - scan))) in *.
    assert (Hplen : 0 < plen <= addr + len - scan).
    { unfold plen, Min. rewrite u64_small by lia. destruct (Z.ltb_spec (granularity mode) (len + addr - scan)); lia. }
    rewrite (u64_small (scan + plen)) in E by lia.
    destruct (IH v1 w1 hs rs (scan + plen) _ ptrs' v' w' H1 ltac:(lia) E) as (Hs2 & Hw2 & H2 & Ht).
    split; [eapply stats_only_trans; eassumption |]. split; [eapply world_kept_trans; eassumption |]. split; [assumption |].
    rewrite Ht, piece_total_app. simpl. lia.
Qed.

(** With every page of the interval mapped the loop returns within [len] rounds. *)
Lemma AcquireMdl_loop_mapped addr len v w : 0 <= addr -> addr + len < two64 ->
  (forall x, addr <= x < addr + len -> HatGetMap w x <> None) ->
  forall fuel scan ptrs, addr <= scan <= addr + len -> (Z.to_nat (addr + len - scan) <= fuel)%nat ->
  exists ptrs', AcquireMdl_loop fuel v w addr len scan ptrs = Ok (ptrs', v, w).
Proof.
  intros Ha Hl Hmap. induction fuel as [| fuel IH]; intros scan ptrs Hscan Hf; cbn [Vmm.AcquireMdl_loop];
    rewrite (u64_small (addr + len)) by lia; (destruct (Z.ltb_spec scan (addr + len)); [| eauto]); [lia |].
  unfold Vmm.map_or_fault. specialize (Hmap scan ltac:(lia)). destruct (HatGetMap w scan) as [[phys mode] |]; [| congruence].
  cbn [mbind res_bind assert_ deref].
  pose proof (granularity_pos mode) as Hg. set (plen := Min (granularity mode) (u64 (len + addr - scan))).
  assert (Hplen : 0 < plen <= addr + len - scan).
  { unfold plen, Min. rewrite u64_small by lia. destruct (Z.ltb_spec (granularity mode) (len + addr - scan)); lia. }
  rewrite (u64_small (scan + plen)) by lia. apply IH; lia.
Qed.

Lemma AcquireMdl_spec fuel v w hs rs addr len r v' w' :
  space v w hs rs -> 0 <= addr -> 0 <= len -> addr + len < two64 ->
  AcquireMdl fuel v w addr len = Ok (r, v', w') ->
  space v' w' hs rs /\ world_kept w w' /\ holeData v' = holeData v /\
  match r with
  | None => v' = v /\ (len = 0 \/ forall p, p ∈ rs -> ~ range_covers v p addr)
  | Some (a, l, ptrs) => exists p, p ∈ rs /\ range_covers v p addr /\ a = addr /\
      l = Z.min (addr + len) (rhi v p) - addr /\ piece_total ptrs = l /\
      forall x, rangeData v' x = if decide (x = p) then with_mdl (rangeData v p) (u64 (mdlCount (rangeData v p) + 1)) else rangeData v x
  end.
Proof.
  intros H Ha Hl Hal E. unfold Vmm.AcquireMdl in E.
  destruct (FindRange_spec hhdmBase hhdm_pos v w hs rs addr H) as (o & Ef & Ho). rewrite Ef in E. cbn [mbind res_bind] in E.
  assert (Hww : world_kept w w) by (split; [apply H | auto]).
  destruct o as [p |]; [| injection E as <- <- <-; auto 10]. destruct Ho as [Hp Hcov].
  destruct (Z.eqb_spec len 0) as [Hz | Hz]; [injection E as <- <- <-; auto 10 |].
  pose proof (sp_rin _ _ _ _ _ H p Hp) as (I1 & I2 & I3). pose proof (sp_bounds _ _ _ _ _ H) as [B1 B2].
  rewrite (u64_small (addr + len)) in E by lia. fold (rhi v p) in E. rewrite (u64_small (rhi v p)) in E by lia.
  assert (Hmin : Min (addr + len) (rhi v p) = Z.min (addr + len) (rhi v p))
    by (unfold Min; destruct (Z.ltb_spec (addr + len) (rhi v p)); lia).
  rewrite Hmin, (u64_small (Z.min (addr + len) (rhi v p) - addr)) in E by lia.
  set (l := Z.min (addr + len) (rhi v p) - addr) in *. set (v1 := set_mdlCount v p _) in *.
  assert (H1 : space v1 w hs rs) by (apply set_mdlCount_space; assumption).
  destruct (AcquireMdl_loop fuel v1 w addr l addr []) as [[[ptrs v2] w2] | |] eqn:El; try discriminate.
  cbn [mbind res_bind] in E. injection E as <- <- <-.
  destruct (AcquireMdl_loop_spec addr l Ha ltac:(lia) fuel v1 w hs rs addr [] ptrs v2 w2 H1 ltac:(lia) El) as ([st ->] & Hw & H2 & Ht).
  split; [assumption |]. split; [assumption |]. split; [reflexivity |]. exists p. split_and!; auto.
  rewrite Ht. simpl. lia.
Qed.

Lemma ReleaseMdl_spec v w hs rs addr v' :
  space v w hs rs -> ReleaseMdl v addr = Ok v' ->
  space v' w hs rs /\ holeData v' = holeData v /\
  (v' = v /\ (forall p, p ∈ rs -> ~ range_covers v p addr) \/
   exists p, p ∈ rs /\ range_covers v p addr /\ 0 < mdlCount (rangeData v p) /\
     forall x, rangeData v' x = if decide (x = p) then with_mdl (rangeData v p) (mdlCount (rangeData v p) - 1) else rangeData v x).
Proof.
  intros H E. unfold ReleaseMdl in E.
  destruct (FindRange_spec hhdmBase hhdm_pos v w hs rs addr H) as (o & Ef & Ho). rewrite Ef in E. cbn [mbind res_bind] in E.
  destruct o as [p |]; [| injection E as <-; auto]. destruct Ho as [Hp Hcov].
  destruct (Z.ltb_spec 0 (mdlCount (rangeData v p))) as [Hm | Hm]; [| discriminate]. cbn in E. injection E as <-.
  split; [apply set_mdlCount_space; assumption |]. split; [reflexivity |]. right. exists p. split_and!; auto.
Qed.
End Split.
