(* ===== verification/VmDrivers.v ===== *)
(** The drivers behind virtual memory ranges ([kernel/memory/virtual/AnonVmDriver.cpp],
    [KernelVmDriver.cpp], [VfsVmDriver.cpp]): what they ask of the page tables, the physical
    memory manager and the file cache, and how they back a range. *)

From S2P Require Import Prelude Maths Pmm Flags VmmMeta Vmm.

(** ** What the drivers work on *)

(** The HAT operations on the map of the context, the physical memory manager, and the flags
    of the architecture. *)
Class Hat (W : Type) : Type := {
  HatDoMap : W -> Z -> Z -> Z -> Z -> res (bool * W);
  HatDoUnmap : W -> Z -> res (option (Z * Z) * W);
  HatSyncMap : W -> Z -> option Z -> option Z -> res (bool * W);
  HatGetMap : W -> Z -> option (Z * Z);
  granularity : Z -> Z;
  HatFlag_Write : Z;
  HatFlag_Execute : Z;
  HatFlag_User : Z;
  HatFlag_Global : Z;
  PmmAlloc : W -> res (Z * W);
  PmmFree : W -> Z -> Z -> res W;
  (* memset of the page behind the direct map to 0 *)
  ClearPage : W -> Z -> W
}.

Section Drivers.
Context {W : Type} `{!Hat W}.

Definition ConvertFlags (fl : Z) : Z :=
  let value := 0 in
  let value := if Flags.Has fl VmFlag.Write then Z.lor value HatFlag_Write else value in
  let value := if Flags.Has fl VmFlag.Execute then Z.lor value HatFlag_Execute else value in
  if Flags.Has fl VmFlag.User then Z.lor value HatFlag_User else value.

(** Changes to the statistics. *)
Definition add_anonWorking (n : Z) (s : VmmStats) : VmmStats :=
  mkStats (faults s) (anonRanges s) (u64 (anonWorkingSize s + n)) (anonResidentSize s) (fileRanges s)
    (fileWorkingSize s) (fileResidentSize s) (mmioRanges s) (mmioWorkingSize s).
Definition add_anonResident (n : Z) (s : VmmStats) : VmmStats :=
  mkStats (faults s) (anonRanges s) (anonWorkingSize s) (u64 (anonResidentSize s + n)) (fileRanges s)
    (fileWorkingSize s) (fileResidentSize s) (mmioRanges s) (mmioWorkingSize s).
Definition add_fileWorking (n : Z) (s : VmmStats) : VmmStats :=
  mkStats (faults s) (anonRanges s) (anonWorkingSize s) (anonResidentSize s) (fileRanges s)
    (u64 (fileWorkingSize s + n)) (fileResidentSize s) (mmioRanges s) (mmioWorkingSize s).
Definition add_fileResident (n : Z) (s : VmmStats) : VmmStats :=
  mkStats (faults s) (anonRanges s) (anonWorkingSize s) (anonResidentSize s) (fileRanges s)
    (fileWorkingSize s) (u64 (fileResidentSize s + n)) (mmioRanges s) (mmioWorkingSize s).
Definition add_mmioWorking (n : Z) (s : VmmStats) : VmmStats :=
  mkStats (faults s) (anonRanges s) (anonWorkingSize s) (anonResidentSize s) (fileRanges s)
    (fileWorkingSize s) (fileResidentSize s) (mmioRanges s) (u64 (mmioWorkingSize s + n)).

(** The length both the anonymous and the kernel driver ask for. *)
Definition query_length (len fl alignment : Z) : Z :=
  let length := AlignUp len alignment in
  if Flags.Has fl VmFlag.Guarded then u64 (length + 2 * alignment) else length.

(** ** The kernel driver: device memory *)

Definition Kernel_Query (w : W) (len fl _attachArg : Z) : res (QueryResult * W) :=
  let alignment := granularity 0 in
  Ok (mkQuery alignment (query_length len fl alignment) 0 true, w).

(** [for (i = 0; i < length; i += alignment) HatDoMap(base + i, attachArg + i, ...)]. *)
Fixpoint map_loop (fuel : nat) (w : W) (vbase pbase len step mode fl i : Z) : res W :=
  if i <? len then
    match fuel with
    | O => OutOfFuel
    | S fuel' =>
        '(_, w) ← HatDoMap w (u64 (vbase + i)) (u64 (pbase + i)) mode fl;
        map_loop fuel' w vbase pbase len step mode fl (u64 (i + step))
    end
  else Ok w.

Definition Kernel_Attach (fuel : nat) (w : W) (r : VmRange) (st : VmmStats) (q : QueryResult) (attachArg : Z)
  : res (AttachResult * W * VmmStats) :=
  let fl := HatFlag_Global in
  let fl := if Flags.Has (flags r) VmFlag.Write then Z.lor fl HatFlag_Write else fl in
  let result := mkAttach 0 (attachArg mod q_alignment q) true in
  let attachArg := AlignDown attachArg (q_alignment q) in
  w ← map_loop fuel w (base r) attachArg (length r) (q_alignment q) (q_hatMode q) fl 0;
  Ok (result, w, add_mmioWorking (length r) st).

(** [for (base = range.base; base < range.base + range.length;)]. *)
Fixpoint Kernel_Detach_loop (fuel : nat) (w : W) (st : VmmStats) (b top : Z) : res (W * VmmStats) :=
  if b <? top then
    match fuel with
    | O => OutOfFuel
    | S fuel' =>
        '(r, w) ← HatDoUnmap w b;
        match r with
        | Some (_, mode) => Kernel_Detach_loop fuel' w (add_mmioWorking (- granularity mode) st) (u64 (b + granularity mode)) top
        | None => Kernel_Detach_loop fuel' w st (u64 (b + granularity 0)) top
        end
    end
  else Ok (w, st).

Definition Kernel_Detach (fuel : nat) (w : W) (r : VmRange) (st : VmmStats) : res (bool * W * VmmStats) :=
  '(w, st) ← Kernel_Detach_loop fuel w st (base r) (u64 (base r + length r));
  Ok (true, w, st).

Definition Kernel_Split (w : W) (r : VmRange) (st : VmmStats) (off : Z) : res (SplitResult * W * VmmStats) :=
  let off := AlignUp off (granularity 0) in
  if length r <? off then Ok (mkSplit 0 0 0 false, w, st) else Ok (mkSplit off 0 0 true, w, st).

(** [ASSERT_UNREACHABLE]. *)
Definition Kernel_ModifyRange (_ : W) (_ : VmRange) (_ : VmmStats) (_ : ModifyRangeArgs) : res (bool * W * VmmStats) := Panic.
Definition Kernel_HandleFault (_ : W) (_ : VmRange) (_ : VmmStats) (_ _ : Z) : res (bool * W * VmmStats) := Panic.

Definition KernelVmDriver (fuel : nat) : VmDriver W :=
  mkDriver W Kernel_Query (Kernel_Attach fuel) (Kernel_Detach fuel) Kernel_Split Kernel_ModifyRange Kernel_HandleFault.

(** [MapSection] of the driver's [Init]: the range of a section of the kernel image and its
    mapping. *)
Definition MapSection (fuel : nat) (w : W) (physBase virtBase addr len vmFlags fl : Z) : res (VmRange * W) :=
  let length := AlignUp (u64 (addr + len)) PageSize in
  let addr := AlignDown addr PageSize in
  let length := u64 (length - addr) in
  w ← map_loop fuel w addr (u64 (addr - virtBase + physBase)) length PageSize 0 fl 0;
  Ok (mkRange addr length (Flags.op_or_flag vmFlags VmFlag.Mmio) 0 0 1, w).

(** [Init]: the text, read-only data and data sections, as (begin, end) of the linker's
    symbols. *)
Definition Kernel_Init (fuel : nat) (w : W) (physBase virtBase : Z) (text rodata data : Z * Z) : res (list VmRange * W) :=
  _ ← assert_ (negb (physBase =? 0));
  let len s := u64 (snd s - fst s) in
  '(r0, w) ← MapSection fuel w physBase virtBase (fst text) (len text) (Flags.of_flag VmFlag.Execute) (Z.lor HatFlag_Execute HatFlag_Global);
  '(r1, w) ← MapSection fuel w physBase virtBase (fst rodata) (len rodata) 0 HatFlag_Global;
  '(r2, w) ← MapSection fuel w physBase virtBase (fst data) (len data) (Flags.of_flag VmFlag.Write) (Z.lor HatFlag_Write HatFlag_Global);
  Ok ([r0; r1; r2], w).

(** ** The anonymous driver *)

Record AnonVmDriver : Type := mkAnon { zeroPage : Z; f_faultHandler : bool; f_zeroPage : bool }.

Definition AnonFeature_FaultHandler : Z := 1.
Definition AnonFeature_ZeroPage : Z := 2.
Definition has_feature (x feature : Z) : bool := negb (Z.land x feature =? 0).

Definition Anon_Init (w : W) (enableFeatures : Z) : res (AnonVmDriver * W) :=
  let fh := has_feature enableFeatures AnonFeature_FaultHandler in
  let zp := has_feature enableFeatures AnonFeature_ZeroPage in
  if zp then '(p, w) ← PmmAlloc w; Ok (mkAnon p fh zp, ClearPage w p) else Ok (mkAnon 0 fh zp, w).

Definition FaultMaxMapAhead : Z := 8.

(** The loop of [HandleFault] over the pages it backs. *)
Fixpoint back_pages (d : AnonVmDriver) (n : nat) (w : W) (where_ granuleSize hatMode fl i : Z) : res W :=
  match n with
  | O => Ok w
  | S n' =>
      '(paddr, w) ← PmmAlloc w;
      _ ← assert_ (granuleSize =? PageSize);
      w ← (if f_zeroPage d then
             '(_, w) ← HatSyncMap w (u64 (where_ + i * granuleSize)) (Some paddr) (Some fl); Ok w
           else
             '(ok, w) ← HatDoMap w (u64 (where_ + i * granuleSize)) paddr hatMode fl;
             _ ← assert_ ok; Ok w);
      back_pages d n' w where_ granuleSize hatMode fl (i + 1)
  end.

Definition fault_pages (r : VmRange) (where_ granuleSize : Z) : Z :=
  let mapLength := Min (u64 (FaultMaxMapAhead * granuleSize)) (u64 (Top r - where_)) in
  AlignUp mapLength granuleSize / granuleSize.

Definition Anon_HandleFault (d : AnonVmDriver) (w : W) (r : VmRange) (st : VmmStats) (where_ _fl : Z)
  : res (bool * W * VmmStats) :=
  let hatMode := token r in
  let granuleSize := granularity hatMode in
  let mapCount := fault_pages r where_ granuleSize in
  let where_ := AlignDown where_ granuleSize in
  w ← back_pages d (Z.to_nat mapCount) w where_ granuleSize hatMode (ConvertFlags (flags r)) 0;
  Ok (true, w, add_anonResident (u64 (mapCount * granuleSize)) st).

(** [for (i = 0; i < length; i += granuleSize) HatSyncMap(base + i, {}, flags)]. *)
Fixpoint sync_loop (fuel : nat) (w : W) (vbase len step fl i : Z) : res W :=
  if i <? len then
    match fuel with
    | O => OutOfFuel
    | S fuel' =>
        '(_, w) ← HatSyncMap w (u64 (vbase + i)) None (Some fl);
        sync_loop fuel' w vbase len step fl (u64 (i + step))
    end
  else Ok w.

Definition Anon_ModifyRange (fuel : nat) (w : W) (r : VmRange) (st : VmmStats) (args : ModifyRangeArgs)
  : res (bool * W * VmmStats) :=
  _ ← assert_ ((trimStart args =? 0) && (trimEnd args =? 0));
  if Flags.Has (setFlags args) VmFlag.Guarded || Flags.Has (clearFlags args) VmFlag.Guarded then Ok (false, w, st)
  else
    let granuleSize := granularity (token r) in
    let fl := ConvertFlags (flags r) in
    let fl := Z.land fl (not64 (ConvertFlags (clearFlags args))) in
    let fl := Z.lor fl (ConvertFlags (setFlags args)) in
    w ← sync_loop fuel w (base r) (length r) granuleSize fl 0;
    Ok (true, w, st).

Definition Anon_Split (w : W) (r : VmRange) (st : VmmStats) (off : Z) : res (SplitResult * W * VmmStats) :=
  let off := AlignUp off (granularity (token r)) in
  if length r <? off then Ok (mkSplit 0 0 0 false, w, st) else Ok (mkSplit off (token r) (token r) true, w, st).

Definition Anon_Query (w : W) (len fl _attachArg : Z) : res (QueryResult * W) :=
  let alignment := granularity 0 in
  Ok (mkQuery alignment (query_length len fl alignment) 0 true, w).

(** The loop of [Attach] that backs the whole range at once. *)
Fixpoint back_range (d : AnonVmDriver) (doZeroPage : bool) (fuel : nat) (w : W) (vbase len step fl i : Z) : res W :=
  if i <? len then
    match fuel with
    | O => OutOfFuel
    | S fuel' =>
        '(phys, w) ← (if doZeroPage then Ok (zeroPage d, w) else PmmAlloc w);
        '(_, w) ← HatDoMap w (u64 (vbase + i)) phys 0 fl;
        back_range d doZeroPage fuel' w vbase len step fl (u64 (i + step))
    end
  else Ok w.

(** [lateBoot] is [!CoresInEarlyInit() && CoreLocalAvailable()]. *)
Definition Anon_Attach (d : AnonVmDriver) (lateBoot : bool) (fuel : nat) (w : W) (r : VmRange) (st : VmmStats) (q : QueryResult)
    (attachArg : Z) : res (AttachResult * W * VmmStats) :=
  let demandAllowed := lateBoot && f_faultHandler d in
  let doDemand := demandAllowed && negb (has_feature attachArg AnonFeature_FaultHandler) in
  let doZeroPage := demandAllowed && f_zeroPage d && negb (has_feature attachArg AnonFeature_ZeroPage) in
  let result := mkAttach (q_hatMode q) 0 true in
  let st := add_anonWorking (length r - a_offset result) st in
  if doDemand && negb doZeroPage then Ok (result, w, st)
  else
    let fl := if doZeroPage then snd (Flags.Clear (flags r) VmFlag.Write) else flags r in
    w ← back_range d doZeroPage fuel w (base r) (length r) (granularity (q_hatMode q)) (ConvertFlags fl) 0;
    Ok (result, w, if doZeroPage then st else add_anonResident (length r) st).

(** The loop of [Detach]: every round unmaps [range.base]. *)
Fixpoint Anon_Detach_loop (d : AnonVmDriver) (fuel : nat) (w : W) (st : VmmStats) (vbase len i : Z) : res (W * VmmStats) :=
  if i <? len then
    match fuel with
    | O => OutOfFuel
    | S fuel' =>
        '(r, w) ← HatDoUnmap w vbase;
        match r with
        | Some (phys, mode) =>
            let length := granularity mode in
            w ← (if phys =? zeroPage d then Ok w else PmmFree w phys (length / PageSize));
            Anon_Detach_loop d fuel' w (add_anonResident (- length) st) vbase len (u64 (i + length))
        | None => Anon_Detach_loop d fuel' w st vbase len (u64 (i + granularity 0))
        end
    end
  else Ok (w, st).

Definition Anon_Detach (d : AnonVmDriver) (fuel : nat) (w : W) (r : VmRange) (st : VmmStats) : res (bool * W * VmmStats) :=
  let st := add_anonWorking (- (length r - offset r)) st in
  '(w, st) ← Anon_Detach_loop d fuel w st (base r) (length r) 0;
  Ok (true, w, st).

Definition AnonDriver (d : AnonVmDriver) (lateBoot : bool) (fuel : nat) : VmDriver W :=
  mkDriver W Anon_Query (Anon_Attach d lateBoot fuel) (Anon_Detach d fuel) Anon_Split (Anon_ModifyRange fuel) (Anon_HandleFault d).
End Drivers.

(** ** The file driver *)

Record VfsId : Type := mkVfsId { driverId : Z; vnodeId : Z }.
Inductive NodeType : Type := NodeFile | NodeDirectory | NodeLink.
#[export] Instance NodeType_eq_dec : EqDecision NodeType.
Proof. solve_decision. Defined.

Record VmFileArg : Type := mkFileArg { arg_id : VfsId; filepath : list Z; arg_offset : Z; noDeferBacking : bool }.
Record VfsVmLink : Type := mkLink { link_node : VfsId; fileOffset : Z; isReadonly : bool; isPrivate : bool }.

(** What the driver asks of the file system, the file cache and the heap: the argument and the
    links behind pointers, path lookup, the type and cache of a node, and the unit of a cache
    that holds an offset, by its physical base. *)
Class Vfs (W : Type) : Type := {
  file_arg : W -> Z -> VmFileArg;
  VfsLookup : W -> list Z -> option VfsId;
  attrib_type : W -> VfsId -> option NodeType;
  GetVfsNode : W -> VfsId -> option (NodeType * option Z);
  GetFileCacheUnit : W -> option Z -> Z -> res (option Z * W);
  unitSize : Z;
  fc_hatMode : Z;
  new_link : W -> VfsVmLink -> Z * W;
  link_at : W -> Z -> option VfsVmLink;
  delete_link : W -> Z -> W
}.

Section VfsDriver.
Context {W : Type} `{!Hat W} `{!Vfs W}.
(** [features.faultHandler]. *)
Variable faultHandler : bool.

(** The file an argument names: by id, or by path. *)
Definition resolve (w : W) (arg : VmFileArg) : VfsId :=
  if negb (driverId (arg_id arg) =? 0) then arg_id arg
  else
    match filepath arg with
    | [] => mkVfsId 0 0
    | p => default (mkVfsId 0 0) (VfsLookup w p)
    end.

Definition no_query : QueryResult := mkQuery 0 0 0 false.

Definition Vfs_Query (w : W) (len fl attachArg : Z) : res (QueryResult * W) :=
  let fileId := resolve w (file_arg w attachArg) in
  if driverId fileId =? 0 then Ok (no_query, w)
  else
    match attrib_type w fileId with
    | Some NodeFile =>
        let alignment := granularity fc_hatMode in
        Ok (mkQuery alignment (query_length len fl alignment) fc_hatMode true, w)
    | _ => Ok (no_query, w)
    end.

(** The loop of [HandleFault]: [false] is a failed [VALIDATE_]. *)
Fixpoint vfs_fault_loop (fuel : nat) (w : W) (st : VmmStats) (r : VmRange) (cache : option Z) (link : VfsVmLink)
    (mappingOffset mapLength granuleSize fl physBase i : Z) : res (bool * W * VmmStats) :=
  if i <? mapLength then
    match fuel with
    | O => OutOfFuel
    | S fuel' =>
        let at_ := u64 (mappingOffset + i + fileOffset link) in
        '(part, w) ← (if at_ mod unitSize =? 0 then GetFileCacheUnit w cache at_ else Ok (Some physBase, w));
        match part with
        | None => Ok (false, w, st)
        | Some physBase =>
            '(_, w) ← HatDoMap w (u64 (base r + mappingOffset + i)) (u64 (physBase + at_ mod unitSize)) fc_hatMode fl;
            vfs_fault_loop fuel' w (add_fileResident granuleSize st) r cache link mappingOffset mapLength granuleSize fl
              physBase (u64 (i + granuleSize))
        end
    end
  else Ok (true, w, st).

Definition VfsFaultMaxMapAhead : Z := 2 * 0x1000.

Definition Vfs_HandleFault (fuel : nat) (w : W) (r : VmRange) (st : VmmStats) (where_ _fl : Z) : res (bool * W * VmmStats) :=
  link ← deref (link_at w (token r));
  match GetVfsNode w (link_node link) with
  | None | Some (_, None) => Ok (false, w, st)
  | Some (_, Some cache) =>
      let granuleSize := granularity fc_hatMode in
      let fl := ConvertFlags (flags r) in
      let where_ := AlignDown where_ granuleSize in
      let mapLength := Min VfsFaultMaxMapAhead (u64 (Top r - where_)) in
      let mappingOffset := u64 (where_ - base r) in
      '(part, w) ← GetFileCacheUnit w (Some cache) (u64 (mappingOffset + fileOffset link));
      match part with
      | None => Ok (false, w, st)
      | Some physBase => vfs_fault_loop fuel w st r (Some cache) link mappingOffset mapLength granuleSize fl physBase 0
      end
  end.

(** The loop of [Attach] over the units of the cache; it stops at the first missing one. *)
Fixpoint vfs_attach_loop (fuel : nat) (w : W) (st : VmmStats) (r : VmRange) (cache : option Z) (offset granuleSize mode fl i : Z)
  : res (W * VmmStats) :=
  if i <? length r then
    match fuel with
    | O => OutOfFuel
    | S fuel' =>
        '(part, w) ← GetFileCacheUnit w cache (u64 (offset + i));
        match part with
        | None => Ok (w, st)
        | Some physBase =>
            '(_, w) ← HatDoMap w (u64 (base r + i)) (u64 (physBase + i mod unitSize)) mode fl;
            vfs_attach_loop fuel' w (add_fileResident granuleSize st) r cache offset granuleSize mode fl (u64 (i + granuleSize))
        end
    end
  else Ok (w, st).

Definition no_attach : AttachResult := mkAttach 0 0 false.

Definition Vfs_Attach (fuel : nat) (w : W) (r : VmRange) (st : VmmStats) (q : QueryResult) (attachArg : Z)
  : res (AttachResult * W * VmmStats) :=
  let arg := file_arg w attachArg in
  let fileId := resolve w arg in
  if driverId fileId =? 0 then Ok (no_attach, w, st)
  else
    match GetVfsNode w fileId with
    | Some (NodeFile, cache) =>
        let '(token, w) := new_link w (mkLink fileId (arg_offset arg) (negb (Flags.Has (flags r) VmFlag.Write)) false) in
        let granuleSize := granularity (q_hatMode q) in
        let result := mkAttach token (arg_offset arg mod granuleSize) true in
        let st := add_fileWorking (length r - a_offset result) st in
        if faultHandler && negb (noDeferBacking arg) then Ok (result, w, st)
        else
          '(w, st) ← vfs_attach_loop fuel w st r cache (arg_offset arg) granuleSize (q_hatMode q) (ConvertFlags (flags r)) 0;
          Ok (result, w, st)
    | _ => Ok (no_attach, w, st)
    end.

Fixpoint vfs_detach_loop (fuel : nat) (w : W) (st : VmmStats) (vbase len granuleSize i : Z) : res (W * VmmStats) :=
  if i <? len then
    match fuel with
    | O => OutOfFuel
    | S fuel' =>
        '(m, w) ← HatDoUnmap w (u64 (vbase + i));
        let st := match m with Some _ => add_fileResident (- granuleSize) st | None => st end in
        vfs_detach_loop fuel' w st vbase len granuleSize (u64 (i + granuleSize))
    end
  else Ok (w, st).

Definition Vfs_Detach (fuel : nat) (w : W) (r : VmRange) (st : VmmStats) : res (bool * W * VmmStats) :=
  let st := add_fileWorking (- (length r - offset r)) st in
  '(w, st) ← vfs_detach_loop fuel w st (base r) (length r) (granularity fc_hatMode) 0;
  Ok (true, delete_link w (token r), st).

(** [ASSERT_UNREACHABLE]. *)
Definition Vfs_ModifyRange (_ : W) (_ : VmRange) (_ : VmmStats) (_ : ModifyRangeArgs) : res (bool * W * VmmStats) := Panic.
Definition Vfs_Split (_ : W) (_ : VmRange) (_ : VmmStats) (_ : Z) : res (SplitResult * W * VmmStats) := Panic.

Definition VfsDriver (fuel : nat) : VmDriver W :=
  mkDriver W Vfs_Query (Vfs_Attach fuel) (Vfs_Detach fuel) Vfs_Split Vfs_ModifyRange (Vfs_HandleFault fuel).
End VfsDriver.
