(* ===== verification/VmDriversProofs.v ===== *)
(** The drivers keep the promises the manager relies on, and what they do to translations. *)

From S2P Require Import Prelude Maths Pmm Flags VmmMeta Vmm VmmProofs VmmAlloc VmDrivers.

(** ** The manager's metadata survives a driver *)

(** What the drivers rely on: the page tables and the physical memory manager leave the
    manager's metadata frames alone. *)
Class HatKeeps (W : Type) `{!MetaPages W} `{!Hat W} : Prop := {
  hk_map : forall w v p m fl b w', mp_inv w -> HatDoMap w v p m fl = Ok (b, w') -> world_kept w w';
  hk_unmap : forall w v r w', mp_inv w -> HatDoUnmap w v = Ok (r, w') -> world_kept w w';
  hk_alloc : forall w p w', mp_inv w -> PmmAlloc w = Ok (p, w') -> world_kept w w';
  hk_granule : 0 < granularity 0 <= 2 ^ 60
}.

Section Keeps.
Context {W : Type} `{!MetaPages W} `{!Hat W} `{!HatKeeps W}.

Lemma kept_refl (w : W) : mp_inv w -> world_kept w w.
Proof. split; auto. Qed.

Lemma kept_inv (w w' : W) : world_kept w w' -> mp_inv w'.
Proof. intros [? _]. assumption. Qed.

Lemma map_loop_kept fuel : forall w vb pb len step mode fl i w',
  mp_inv w -> map_loop fuel w vb pb len step mode fl i = Ok w' -> world_kept w w'.
Proof.
  induction fuel as [| fuel IH]; intros w vb pb len step mode fl i w' Hi E; cbn [map_loop] in E;
    (destruct (i <? len); [| injection E as <-; apply kept_refl; assumption]); [discriminate |].
  destruct (HatDoMap w _ _ mode fl) as [[b w1] | |] eqn:Em; try discriminate. cbn [mbind res_bind] in E.
  pose proof (hk_map _ _ _ _ _ _ _ Hi Em) as K. eapply world_kept_trans; [exact K |]. eapply IH; [apply (kept_inv _ _ K) | exact E].
Qed.

Lemma Kernel_Detach_loop_kept fuel : forall w st b top w' st',
  mp_inv w -> Kernel_Detach_loop fuel w st b top = Ok (w', st') -> world_kept w w'.
Proof.
  induction fuel as [| fuel IH]; intros w st b top w' st' Hi E; cbn [Kernel_Detach_loop] in E;
    (destruct (b <? top); [| injection E as <- <-; apply kept_refl; assumption]); [discriminate |].
  destruct (HatDoUnmap w b) as [[r w1] | |] eqn:Em; try discriminate. cbn [mbind res_bind] in E.
  pose proof (hk_unmap _ _ _ _ Hi Em) as K. eapply world_kept_trans; [exact K |].
  destruct r as [[p m] |]; (eapply IH; [apply (kept_inv _ _ K) | exact E]).
Qed.

(** Rounding a request up keeps it positive. *)
Lemma query_length_pos len fl g : 0 < g <= 2 ^ 60 -> 0 < len <= MaxRequest -> 0 < query_length len fl g.
Proof.
  intros Hg Hl. unfold MaxRequest in Hl.
  destruct (AlignUp_spec len g) as [Hb _]; [lia | lia | unfold two64; lia |].
  unfold query_length. destruct (Flags.Has fl VmFlag.Guarded); [| lia]. rewrite u64_small by (unfold two64; lia). lia.
Qed.

Lemma split_offset_pos off g len : 0 < g <= 2 ^ 60 -> 0 < off <= MaxRequest -> AlignUp off g <= len ->
  0 < AlignUp off g <= len.
Proof.
  intros Hg Hl Hle. unfold MaxRequest in Hl.
  destruct (AlignUp_spec off g) as [Hb _]; [lia | lia | unfold two64; lia |]. lia.
Qed.

Lemma kernel_driver_ok fuel : driver_ok (KernelVmDriver (W := W) fuel).
Proof.
  constructor; simpl.
  - intros w len fl arg q w' Hi [= <- <-]. split; [apply kept_refl; assumption |]. intros Hl _. apply query_length_pos; [apply hk_granule | exact Hl].
  - intros w r st q arg a w' st' Hi E. unfold Kernel_Attach in E.
    destruct (map_loop _ _ _ _ _ _ _ _ _) as [w1 | |] eqn:Em; try discriminate. cbn in E. injection E as <- <- <-.
    eapply map_loop_kept; eassumption.
  - intros w r st b w' st' Hi E. unfold Kernel_Detach in E.
    destruct (Kernel_Detach_loop _ _ _ _ _) as [[w1 st1] | |] eqn:Em; try discriminate. cbn in E. injection E as <- <- <-.
    eapply Kernel_Detach_loop_kept; eassumption.
  - intros w r st off s w' st' Hi E. unfold Kernel_Split in E. destruct (Z.ltb_spec (length r) (AlignUp off (granularity 0)));
      injection E as <- <- <-; (split; [apply kept_refl; assumption |]); simpl; [discriminate |].
    intros Ho _. apply split_offset_pos; [apply hk_granule | assumption ..].
  - discriminate.
  - discriminate.
Qed.

(** ** The anonymous driver *)

Variable d : AnonVmDriver.
Hypothesis modes_granule : forall m, 0 < granularity m <= 2 ^ 60.
(** The anonymous driver also relies on a mapped frame it releases not being one of them. *)
Hypothesis free_kept : forall w v p m n w1 w2, mp_inv w -> HatDoUnmap w v = Ok (Some (p, m), w1) -> PmmFree w1 p n = Ok w2 -> world_kept w w2.

(** Changing a mapping in place is the anonymous driver's business only. *)
Hypothesis sync_kept : forall w v p fl b w', mp_inv w -> HatSyncMap w v p fl = Ok (b, w') -> world_kept w w'.

Lemma sync_loop_kept fuel : forall w vb len step fl i w',
  mp_inv w -> sync_loop fuel w vb len step fl i = Ok w' -> world_kept w w'.
Proof.
  induction fuel as [| fuel IH]; intros w vb len step fl i w' Hi E; cbn [sync_loop] in E;
    (destruct (i <? len); [| injection E as <-; apply kept_refl; assumption]); [discriminate |].
  destruct (HatSyncMap w _ _ _) as [[b w1] | |] eqn:Em; try discriminate. cbn [mbind res_bind] in E.
  pose proof (sync_kept _ _ _ _ _ _ Hi Em) as K. eapply world_kept_trans; [exact K |]. eapply IH; [apply (kept_inv _ _ K) | exact E].
Qed.

Lemma back_pages_kept n : forall w where_ g m fl i w',
  mp_inv w -> back_pages d n w where_ g m fl i = Ok w' -> world_kept w w'.
Proof.
  induction n as [| n IH]; intros w where_ g m fl i w' Hi E; cbn [back_pages] in E;
    [injection E as <-; apply kept_refl; assumption |].
  destruct (PmmAlloc w) as [[p w1] | |] eqn:Ea; try discriminate. cbn [mbind res_bind] in E.
  pose proof (hk_alloc _ _ _ Hi Ea) as K1. destruct (g =? PageSize); [| discriminate]. cbn [assert_ mbind res_bind] in E.
  assert (Hstep : exists w2, world_kept w1 w2 /\ back_pages d n w2 where_ g m fl (i + 1) = Ok w').
  { destruct (f_zeroPage d).
    - destruct (HatSyncMap w1 _ _ _) as [[b w2] | |] eqn:Es; try discriminate. cbn [mbind res_bind] in E.
      exists w2. split; [eapply sync_kept; [apply (kept_inv _ _ K1) | eassumption] | assumption].
    - destruct (HatDoMap w1 _ _ _ _) as [[b w2] | |] eqn:Es; try discriminate. cbn [mbind res_bind] in E.
      destruct b; [| discriminate]. exists w2. split; [eapply hk_map; [apply (kept_inv _ _ K1) | eassumption] | assumption]. }
  destruct Hstep as (w2 & K2 & E2). eapply world_kept_trans; [exact K1 |]. eapply world_kept_trans; [exact K2 |].
  eapply IH; [apply (kept_inv _ _ K2) | exact E2].
Qed.

Lemma back_range_kept z fuel : forall w vb len step fl i w',
  mp_inv w -> back_range d z fuel w vb len step fl i = Ok w' -> world_kept w w'.
Proof.
  induction fuel as [| fuel IH]; intros w vb len step fl i w' Hi E; cbn [back_range] in E;
    (destruct (i <? len); [| injection E as <-; apply kept_refl; assumption]); [discriminate |].
  assert (Hstep : exists p w1, world_kept w w1 /\
    ('(_, w) ← HatDoMap w1 (u64 (vb + i)) p 0 fl; back_range d z fuel w vb len step fl (u64 (i + step))) = Ok w').
  { destruct z; [exists (zeroPage d), w; split; [apply kept_refl; assumption | exact E] |].
    destruct (PmmAlloc w) as [[p w1] | |] eqn:Ea; try discriminate. exists p, w1. split; [eapply hk_alloc; eassumption | exact E]. }
  destruct Hstep as (p & w1 & K1 & E1). destruct (HatDoMap w1 _ _ _ _) as [[b w2] | |] eqn:Em; try discriminate. cbn [mbind res_bind] in E1.
  pose proof (hk_map _ _ _ _ _ _ _ (kept_inv _ _ K1) Em) as K2.
  eapply world_kept_trans; [exact K1 |]. eapply world_kept_trans; [exact K2 |]. eapply IH; [apply (kept_inv _ _ K2) | exact E1].
Qed.

Lemma Anon_Detach_loop_kept fuel : forall w st vb len i w' st',
  mp_inv w -> Anon_Detach_loop d fuel w st vb len i = Ok (w', st') -> world_kept w w'.
Proof.
  induction fuel as [| fuel IH]; intros w st vb len i w' st' Hi E; cbn [Anon_Detach_loop] in E;
    (destruct (i <? len); [| injection E as <- <-; apply kept_refl; assumption]); [discriminate |].
  destruct (HatDoUnmap w vb) as [[r w1] | |] eqn:Em; try discriminate. cbn [mbind res_bind] in E.
  pose proof (hk_unmap _ _ _ _ Hi Em) as K. destruct r as [[p m] |].
  2:{ eapply world_kept_trans; [exact K |]. eapply IH; [apply (kept_inv _ _ K) | exact E]. }
  destruct (p =? zeroPage d).
  - eapply world_kept_trans; [exact K |]. eapply IH; [apply (kept_inv _ _ K) | exact E].
  - destruct (PmmFree w1 p _) as [w2 | |] eqn:Ef; try discriminate. cbn [mbind res_bind] in E.
    pose proof (free_kept _ _ _ _ _ _ _ Hi Em Ef) as K2. eapply world_kept_trans; [exact K2 |]. eapply IH; [apply (kept_inv _ _ K2) | exact E].
Qed.

Lemma anon_driver_ok lateBoot fuel : driver_ok (AnonDriver (W := W) d lateBoot fuel).
Proof.
  constructor; simpl.
  - intros w len fl arg q w' Hi [= <- <-]. split; [apply kept_refl; assumption |]. intros Hl _. apply query_length_pos; [apply hk_granule | exact Hl].
  - intros w r st q arg a w' st' Hi E. unfold Anon_Attach in E. destruct (_ && negb _) in E.
    { injection E as <- <- <-. apply kept_refl. assumption. }
    destruct (back_range _ _ _ _ _ _ _ _ _) as [w1 | |] eqn:Em; try discriminate. cbn in E. injection E as <- <- <-.
    eapply back_range_kept; eassumption.
  - intros w r st b w' st' Hi E. unfold Anon_Detach in E.
    destruct (Anon_Detach_loop _ _ _ _ _ _ _) as [[w1 st1] | |] eqn:Em; try discriminate. cbn in E. injection E as <- <- <-.
    eapply Anon_Detach_loop_kept; eassumption.
  - intros w r st off s w' st' Hi E. unfold Anon_Split in E. destruct (Z.ltb_spec (length r) (AlignUp off (granularity (token r))));
      injection E as <- <- <-; (split; [apply kept_refl; assumption |]); simpl; [discriminate |].
    intros Ho _. apply split_offset_pos; [apply modes_granule | assumption ..].
  - intros w r st args b w' st' Hi E. unfold Anon_ModifyRange in E. destruct (_ && _) in E; [| discriminate].
    cbn [assert_ mbind res_bind] in E. destruct (_ || _) in E; [injection E as <- <- <-; apply kept_refl; assumption |].
    destruct (sync_loop _ _ _ _ _ _ _) as [w1 | |] eqn:Em; try discriminate. cbn in E. injection E as <- <- <-.
    eapply sync_loop_kept; eassumption.
  - intros w r st addr fl b w' st' Hi E. unfold Anon_HandleFault in E.
    destruct (back_pages _ _ _ _ _ _ _ _) as [w1 | |] eqn:Em; try discriminate. cbn in E. injection E as <- <- <-.
    eapply back_pages_kept; eassumption.
Qed.
End Keeps.

(** ** Translations *)

(** What the drivers rely on from the page tables in a window of addresses mapped with small
    pages: a map or unmap affects the page it names and no other. *)
Class HatLaws (W : Type) `{!Hat W} (lo hi limit : Z) : Type := {
  hl_inv : W -> Prop;
  hl_window : 0 <= lo < hi /\ hi < two64;
  hl_granule : granularity 0 = PageSize;
  hl_small : forall w v p m, hl_inv w -> lo <= v < hi -> HatGetMap w v = Some (p, m) -> m = 0;
  hl_map : forall w v p fl b w', hl_inv w -> lo <= v < hi -> v mod PageSize = 0 -> 0 <= p < limit -> p mod PageSize = 0 ->
    HatDoMap w v p 0 fl = Ok (b, w') ->
    hl_inv w' /\ (b = true <-> HatGetMap w v = None) /\
    forall x, lo <= x < hi -> HatGetMap w' x =
      if b && (x / PageSize =? v / PageSize) then Some (p + x mod PageSize, 0) else HatGetMap w x;
  hl_unmap : forall w v r w', hl_inv w -> lo <= v < hi -> v mod PageSize = 0 -> HatDoUnmap w v = Ok (r, w') ->
    hl_inv w' /\ (r = None -> HatGetMap w v = None) /\ (forall p m, r = Some (p, m) -> m = 0) /\
    forall x, lo <= x < hi -> HatGetMap w' x = if x / PageSize =? v / PageSize then None else HatGetMap w x
}.

Section Translations.
Context {W : Type} `{!Hat W} {lo hi limit : Z} `{!HatLaws W lo hi limit}.

Lemma page_of x v : v mod PageSize = 0 -> (x / PageSize =? v / PageSize) = (v <=? x) && (x <? v + PageSize).
Proof.
  intros Hv. apply eq_true_iff_eq. rewrite andb_true_iff, Z.eqb_eq, Z.leb_le, Z.ltb_lt. unfold PageSize in *.
  Z.div_mod_to_equations. lia.
Qed.

Lemma step_aligned i : 0 <= i -> i mod PageSize = 0 -> (i + PageSize) mod PageSize = 0.
Proof. intros Hi H. unfold PageSize in *. Z.div_mod_to_equations. lia. Qed.

(** Mapping an unmapped interval page by page. *)
Lemma map_loop_maps vb pb len fl : vb mod PageSize = 0 -> pb mod PageSize = 0 -> len mod PageSize = 0 ->
  lo <= vb -> vb + len <= hi -> 0 <= pb -> pb + len <= limit -> limit <= two64 -> 0 <= len ->
  forall fuel w i w', hl_inv w -> 0 <= i <= len -> i mod PageSize = 0 ->
  (forall x, vb + i <= x < vb + len -> HatGetMap w x = None) ->
  map_loop fuel w vb pb len PageSize 0 fl i = Ok w' ->
  hl_inv w' /\ forall x, lo <= x < hi -> HatGetMap w' x =
    if (vb + i <=? x) && (x <? vb + len) then Some (pb + (x - vb), 0) else HatGetMap w x.
Proof.
  intros A1 A2 A3 B1 B2 B3 B4 B5 B6. pose proof hl_window as [W1 W2].
  induction fuel as [| fuel IH]; intros w i w' Hi Hr Hal Hnone E; cbn [map_loop] in E;
    (destruct (Z.ltb_spec i len) as [Hlt | Hge];
     [| injection E as <-; split; [assumption |]; intros x Hx;
        destruct (Z.leb_spec (vb + i) x); cbn [andb]; [| reflexivity]; rewrite (proj2 (Z.ltb_ge x (vb + len))) by lia; reflexivity]).
  - discriminate.
  - assert (Hvi : (vb + i) mod PageSize = 0) by (unfold PageSize in *; Z.div_mod_to_equations; lia).
    assert (Hpi : (pb + i) mod PageSize = 0) by (unfold PageSize in *; Z.div_mod_to_equations; lia).
    assert (Hil : i + PageSize <= len) by (unfold PageSize in *; Z.div_mod_to_equations; lia).
    assert (Hp0 : 0 < PageSize) by reflexivity.
    rewrite (u64_small (vb + i)), (u64_small (pb + i)), (u64_small (i + PageSize)) in E by lia.
    destruct (HatDoMap w (vb + i) (pb + i) 0 fl) as [[b w1] | |] eqn:Em; try discriminate. cbn [mbind res_bind] in E.
    destruct (hl_map w (vb + i) (pb + i) fl b w1 Hi ltac:(lia) Hvi ltac:(lia) Hpi Em) as (Hi1 & Hb & Hget).
    assert (b = true) as -> by (apply Hb, Hnone; lia).
    destruct (IH w1 (i + PageSize) w' Hi1 ltac:(lia) (step_aligned i ltac:(lia) Hal)) as [Hi2 Hget2]; auto.
    { intros x Hx. rewrite Hget by lia. rewrite (page_of x (vb + i) Hvi). rewrite (proj2 (Z.ltb_ge x (vb + i + PageSize))) by lia.
      rewrite !andb_false_r. apply Hnone. lia. }
    split; [assumption |]. intros x Hx. rewrite Hget2, Hget by assumption. rewrite (page_of x (vb + i) Hvi). cbn [andb].
    destruct (Z.leb_spec (vb + (i + PageSize)) x), (Z.leb_spec (vb + i) x), (Z.ltb_spec x (vb + len)), (Z.ltb_spec x (vb + i + PageSize));
      cbn [andb]; try lia; try reflexivity.
    f_equal. f_equal. assert (x mod PageSize = x - (vb + i)) as ->; [| lia].
    symmetry. apply (Z.mod_unique_pos x PageSize ((vb + i) / PageSize)); [lia |].
    pose proof (Z.div_mod (vb + i) PageSize ltac:(lia)) as Ed. rewrite Hvi in Ed. lia.
Qed.

(** Unmapping an interval page by page. *)
Lemma Kernel_Detach_loop_unmaps top : top mod PageSize = 0 -> top <= hi ->
  forall fuel w st b w' st', hl_inv w -> lo <= b <= top -> b mod PageSize = 0 ->
  Kernel_Detach_loop fuel w st b top = Ok (w', st') ->
  hl_inv w' /\ forall x, lo <= x < hi -> HatGetMap w' x = if (b <=? x) && (x <? top) then None else HatGetMap w x.
Proof.
  intros A1 B1. pose proof hl_window as [W1 W2].
  induction fuel as [| fuel IH]; intros w st b w' st' Hi Hr Hal E; cbn [Kernel_Detach_loop] in E;
    (destruct (Z.ltb_spec b top) as [Hlt | Hge];
     [| injection E as <- <-; split; [assumption |]; intros x Hx;
        destruct (Z.leb_spec b x); cbn [andb]; [| reflexivity]; rewrite (proj2 (Z.ltb_ge x top)) by lia; reflexivity]).
  - discriminate.
  - destruct (HatDoUnmap w b) as [[r w1] | |] eqn:Em; try discriminate. cbn [mbind res_bind] in E.
    destruct (hl_unmap w b r w1 Hi ltac:(lia) Hal Em) as (Hi1 & _ & Hm & Hget).
    assert (Hbt : b + PageSize <= top) by (unfold PageSize in *; Z.div_mod_to_equations; lia).
    assert (Hp0 : 0 < PageSize) by reflexivity.
    assert (Hnext : exists st1, Kernel_Detach_loop fuel w1 st1 (b + PageSize) top = Ok (w', st')).
    { destruct r as [[p m] |]; [rewrite (Hm p m eq_refl) in E |]; rewrite hl_granule, u64_small in E by lia; eauto. }
    destruct Hnext as [st1 E1].
    destruct (IH w1 st1 (b + PageSize) w' st' Hi1 ltac:(lia) (step_aligned b ltac:(lia) Hal) E1) as [Hi2 Hget2].
    split; [assumption |]. intros x Hx. rewrite Hget2, Hget by assumption. rewrite (page_of x b Hal).
    destruct (Z.leb_spec (b + PageSize) x), (Z.leb_spec b x), (Z.ltb_spec x top), (Z.ltb_spec x (b + PageSize)); cbn [andb]; try lia; reflexivity.
Qed.

(** A range a driver may be given: whole pages inside the window. *)
Record range_ok (r : VmRange) : Prop := mkRangeOk {
  ro_base : base r mod PageSize = 0;
  ro_len : length r mod PageSize = 0;
  ro_pos : 0 < length r;
  ro_lo : lo <= base r;
  ro_hi : base r + length r <= hi
}.

Lemma Kernel_Attach_maps fuel w r st q arg a w' st' :
  hl_inv w -> range_ok r -> q_alignment q = PageSize -> q_hatMode q = 0 -> 0 <= arg < two64 -> limit <= two64 ->
  AlignDown arg PageSize + length r <= limit -> (forall x, base r <= x < base r + length r -> HatGetMap w x = None) ->
  Kernel_Attach fuel w r st q arg = Ok (a, w', st') ->
  hl_inv w' /\ a = mkAttach 0 (arg mod PageSize) true /\ st' = add_mmioWorking (length r) st /\
  forall x, lo <= x < hi -> HatGetMap w' x =
    if (base r <=? x) && (x <? base r + length r) then Some (AlignDown arg PageSize + (x - base r), 0) else HatGetMap w x.
Proof.
  intros Hi [R1 R2 R3 R4 R5] Hq1 Hq2 Harg Hlim Hfit Hnone E. unfold Kernel_Attach in E. rewrite Hq1, Hq2 in E.
  destruct (AlignDown_spec arg PageSize ltac:(reflexivity) Harg) as [Hd Hdm].
  destruct (map_loop _ _ _ _ _ _ _ _ _) as [w1 | |] eqn:Em; try discriminate. cbn in E. injection E as <- <- <-.
  assert (Hdn : 0 <= AlignDown arg PageSize) by (unfold AlignDown; apply u64_range).
  assert (Hnone' : forall x, base r + 0 <= x < base r + length r -> HatGetMap w x = None) by (intros x Hx; apply Hnone; lia).
  destruct (map_loop_maps (base r) (AlignDown arg PageSize) (length r) _ R1 Hdm R2 R4 R5 Hdn Hfit Hlim ltac:(lia)
    fuel w 0 w1 Hi ltac:(lia) eq_refl Hnone' Em) as [H1 H2].
  split; [assumption |]. split; [reflexivity |]. split; [reflexivity |]. intros x Hx. rewrite H2, Z.add_0_r by assumption. reflexivity.
Qed.
End Translations.
