(* ===== verification/KernelWorld.v ===== *)
(** The kernel's memory as the drivers and the virtual memory manager see it: the physical
    memory manager with the x86_64 page tables of one map in its frames. It discharges the
    interfaces the manager and the drivers are proved against. *)

From S2P Require Import Prelude Maths Bitmap Random Flags Pmm PmmProofs PmmSafety PageTable PmmMem HatX86 HatX86Proofs HatX86Spec VmmMeta Vmm VmmProofs VmDrivers VmDriversProofs.

(** [k_meta] are the frames handed to the manager's metadata slabs. *)
Record kworld : Type := mkKworld { k_pmm : PMM; k_map : X86.HatMap; k_meta : list Z }.

Section World.
Variable hhdmBase : Z.
Variable mmu : X86.Mmu.
Hypothesis ok : X86Spec.mmu_ok mmu hhdmBase.
Hypothesis modes : (1 <= X86.modeCount mmu)%nat.
#[local] Instance world_frames : FrameAllocator PMM := pmm_frames hhdmBase.
#[local] Instance world_mem : PhysMem PMM hhdmBase := pmm_mem hhdmBase.
Local Abbreviation well_formed := (X86Spec.well_formed (hhdmBase := hhdmBase) mmu).
Local Abbreviation tabs := (tables (hhdmBase := hhdmBase) (X86.pagingLevels mmu) X86.present (X86.large mmu) (X86.entry_addr mmu)).

Record kworld_ok (w : kworld) : Prop := mkKworldOk {
  ko_tables : well_formed (k_pmm w) (k_map w);
  ko_meta : forall f, f ∈ k_meta w -> ~ fa_free (k_pmm w) f;
  ko_room : forall f, fa_free (k_pmm w) f -> f + hhdmBase + PageSize + PageSize <= two64
}.

(** An allocation moves no table. *)
Lemma alloc_tables s rt T p s' : tabs s rt T -> fa_alloc s = Ok (p, s') ->
  tabs s' rt T /\ (forall q, fa_free s' q <-> fa_free s q /\ q <> p) /\
  forall v, lookup_pte (hhdmBase := hhdmBase) (X86.pagingLevels mmu) X86.present (X86.large mmu) (X86.entry_addr mmu) s' rt v =
    lookup_pte (hhdmBase := hhdmBase) (X86.pagingLevels mmu) X86.present (X86.large mmu) (X86.entry_addr mmu) s rt v.
Proof.
  intros H E. destruct (fa_alloc_ok s p s' (t_alloc _ _ _ _ _ _ _ H) E) as (Hi & _ & _ & _ & Hfree).
  destruct ok as [O1 O2 O3 O4].
  destruct (tables_agree _ _ _ _ (X86.table_entry mmu) O3 (X86Proofs.levels_pos mmu O1) s s' rt T H Hi) as (Ht & _ & Hl); auto.
  - intros a l Ha Hf. apply Hfree in Hf. apply (t_frame _ _ _ _ _ _ _ H a l Ha), Hf.
  - intros a l i Ha Hi'. destruct (t_frame _ _ _ _ _ _ _ H a l Ha) as (_ & (_ & Hal & _) & Hnf).
    apply (pm_alloc_read s p s' a _ (t_alloc _ _ _ _ _ _ _ H) E Hnf Hal). unfold PageTableEntries, PageSize in *. lia.
Qed.

Definition k_alloc (w : kworld) : res (Z * kworld) :=
  '(p, s) ← Pmm.Alloc hhdmBase (k_pmm w) 1; Ok (p, mkKworld s (k_map w) (k_meta w)).

Lemma k_alloc_ok w p w' : kworld_ok w -> k_alloc w = Ok (p, w') ->
  kworld_ok w' /\ fa_free (k_pmm w) p /\ 0 <= p /\ p mod PageSize = 0 /\ k_meta w' = k_meta w /\ k_map w' = k_map w /\
  ~ fa_free (k_pmm w') p.
Proof.
  intros [[T HT] Hm Hr] E. unfold k_alloc in E. destruct (Pmm.Alloc hhdmBase (k_pmm w) 1) as [[q s] | |] eqn:Ea; try discriminate.
  cbn in E. injection E as <- <-. destruct (alloc_tables _ _ T q s HT Ea) as (Ht & Hfree & _).
  destruct (fa_alloc_ok (k_pmm w) q s (t_alloc _ _ _ _ _ _ _ HT) Ea) as (_ & Hp & Hal & Hf & _).
  split_and!; auto; try lia.
  - constructor; simpl.
    + exists T. exact Ht.
    + intros f Hin Hff. apply Hfree in Hff. apply (Hm f Hin), Hff.
    + intros f Hff. apply Hr. apply Hfree in Hff. tauto.
  - intros Hff. apply Hfree in Hff. tauto.
Qed.

(** A frame for the metadata slabs. *)
Definition k_meta_alloc (w : kworld) : res (Z * kworld) :=
  match k_alloc w with
  | Ok (p, w) => Ok (p, mkKworld (k_pmm w) (k_map w) (p :: k_meta w))
  | Panic => Panic
  | OutOfFuel => OutOfFuel
  end.

Lemma k_meta_alloc_ok w p w' : kworld_ok w -> k_meta_alloc w = Ok (p, w') ->
  kworld_ok w' /\ 0 <= p /\ p mod PageSize = 0 /\ (p ∉ k_meta w) /\ (forall f, f ∈ k_meta w' <-> f ∈ k_meta w \/ f = p).
Proof.
  intros Hi E. unfold k_meta_alloc in E. destruct (k_alloc w) as [[q w1] | |] eqn:Ea; try discriminate. injection E as <- <-.
  destruct (k_alloc_ok w q w1 Hi Ea) as ([Ht Hm Hr] & Hf & Hp & Hal & Eme & Ema & Hn). split_and!; auto.
  - constructor; [exact Ht | | exact Hr]. intros f [-> | Hin]%elem_of_cons; [assumption | apply Hm, Hin].
  - intros Hin. apply (ko_meta _ Hi q Hin), Hf.
  - intros f. simpl. rewrite elem_of_cons, Eme. tauto.
Qed.

#[export] Instance kworld_meta : MetaPages kworld := {|
  mp_inv := kworld_ok;
  mp_mine := fun w f => f ∈ k_meta w;
  mp_alloc := k_meta_alloc;
  mp_alloc_ok := k_meta_alloc_ok
|}.

Lemma kworld_room w p w' : mp_inv w -> mp_alloc w = Ok (p, w') -> p + hhdmBase + PageSize + PageSize <= two64.
Proof.
  intros Hi E. change (k_meta_alloc w = Ok (p, w')) in E. unfold k_meta_alloc in E.
  destruct (k_alloc w) as [[q w1] | |] eqn:Ea; try discriminate. injection E as <- <-. apply (ko_room _ Hi). apply (k_alloc_ok w q w1 Hi Ea).
Qed.

#[export] Instance kworld_hat : Hat kworld := {|
  HatDoMap := fun w v p m fl =>
    '(b, s, map) ← X86.HatDoMap (hhdmBase := hhdmBase) mmu (k_pmm w) (k_map w) v p (Z.to_nat m) fl;
    Ok (b, mkKworld s map (k_meta w));
  HatDoUnmap := fun w v =>
    let '(r, s, map) := X86.HatDoUnmap (hhdmBase := hhdmBase) mmu (k_pmm w) (k_map w) v in
    Ok (option_map (fun x => (fst x, Z.of_nat (snd x))) r, mkKworld s map (k_meta w));
  HatSyncMap := fun w v p fl =>
    let '(b, s) := X86.HatSyncMap (hhdmBase := hhdmBase) mmu (k_pmm w) (k_map w) v p fl in
    Ok (b, mkKworld s (k_map w) (k_meta w));
  HatGetMap := fun w v =>
    option_map (fun x => (fst x, Z.of_nat (snd x))) (X86.HatGetMap (hhdmBase := hhdmBase) mmu (k_pmm w) (k_map w) v);
  granularity := fun m => if m <? 3 then GetPageSize (S (Z.to_nat m)) else 0;
  HatFlag_Write := X86.HatWrite;
  HatFlag_Execute := X86.HatExecute;
  HatFlag_User := X86.HatUser;
  HatFlag_Global := X86.HatGlobal;
  PmmAlloc := k_alloc;
  PmmFree := fun w p n => s ← Pmm.Free hhdmBase (k_pmm w) p n; Ok (mkKworld s (k_map w) (k_meta w));
  ClearPage := fun w p => mkKworld (zero_words (hhdmBase := hhdmBase) PageWords (k_pmm w) (u64 (p + hhdmBase))) (k_map w) (k_meta w)
|}.

(** ** The interfaces *)

Lemma kworld_keeps : HatKeeps kworld.
Proof.
  destruct ok as [O1 O2 O3 O4]. constructor.
  - intros w v p m fl b w' [[T HT] Hm Hr] E. simpl in E.
    destruct (X86.HatDoMap mmu (k_pmm w) (k_map w) v p (Z.to_nat m) fl) as [[[b1 s1] map1] | |] eqn:Em; try discriminate.
    cbn in E. injection E as <- <-.
    destruct (X86Proofs.map_keeps mmu O1 O2 O3 O4 _ _ T _ _ _ _ _ _ _ HT Em) as ([T' HT'] & Hrt & Hfree).
    split; [| auto]. constructor; simpl.
    + exists T'. rewrite Hrt. exact HT'.
    + intros f Hf Hff. apply (Hm f Hf), Hfree, Hff.
    + intros f Hff. apply Hr, Hfree, Hff.
  - intros w v r w' [[T HT] Hm Hr] E. simpl in E.
    destruct (X86.HatDoUnmap mmu (k_pmm w) (k_map w) v) as [[r1 s1] map1] eqn:Em. injection E as <- <-.
    destruct (X86Proofs.unmap_spec mmu O1 O2 O3 _ _ T _ _ _ _ HT Em) as (HT' & Hrt & Hfree & _).
    split; [| auto]. constructor; simpl.
    + exists T. rewrite Hrt. exact HT'.
    + intros f Hf Hff. apply (Hm f Hf), Hfree, Hff.
    + intros f Hff. apply Hr, Hfree, Hff.
  - intros w p w' Hi E. destruct (k_alloc_ok w p w' Hi E) as (Hi' & _ & _ & _ & Em & _). split; [assumption |].
    intros f Hf. simpl in *. rewrite Em. assumption.
  - split; vm_compute; congruence.
Qed.

(** A window of small pages, no larger than the tables translate. *)
Variable lo hi : Z.
Hypothesis window : 0 <= lo < hi /\ hi < two64.
Hypothesis window_size : hi - lo + PageSize <= 2 ^ (12 + 9 * Z.of_nat (X86.pagingLevels mmu)).

Definition small_pages (w : kworld) : Prop :=
  forall v p m, lo <= v < hi -> X86.HatGetMap (hhdmBase := hhdmBase) mmu (k_pmm w) (k_map w) v = Some (p, m) -> m = 0%nat.

Lemma window_page v x : lo <= v < hi -> lo <= x < hi ->
  same_page (X86.pagingLevels mmu) 1 v x = (x / PageSize =? v / PageSize).
Proof.
  intros Hv Hx. destruct ok as [O1 _ _ _]. change PageSize with (GetPageSize 1).
  apply same_page_window; [destruct O1 as [-> | ->]; lia | lia | lia |].
  assert (Hp : 512 ^ (Z.of_nat (X86.pagingLevels mmu) + 1 - Z.of_nat 1) * 4096 = 2 ^ (12 + 9 * Z.of_nat (X86.pagingLevels mmu)))
    by (destruct O1 as [-> | ->]; reflexivity).
  set (M := 512 ^ (Z.of_nat (X86.pagingLevels mmu) + 1 - Z.of_nat 1)) in *. change (GetPageSize 1) with 4096.
  rewrite <- Hp in window_size. unfold PageSize in *. Z.div_mod_to_equations. lia.
Qed.

Lemma of_nat_zero (m : nat) : Z.of_nat m = 0 -> m = 0%nat.
Proof. lia. Qed.

Definition kworld_hl_inv (w : kworld) : Prop := kworld_ok w /\ small_pages w.

Lemma kworld_map w v p fl b w' :
  kworld_hl_inv w -> lo <= v < hi -> v mod PageSize = 0 -> 0 <= p < 2 ^ (12 + 9 * Z.of_nat (X86.pagingLevels mmu)) -> p mod PageSize = 0 ->
  HatDoMap w v p 0 fl = Ok (b, w') ->
  kworld_hl_inv w' /\ (b = true <-> HatGetMap w v = None) /\
  forall x, lo <= x < hi -> HatGetMap w' x =
    if b && (x / PageSize =? v / PageSize) then Some (p + x mod PageSize, 0) else HatGetMap w x.
Proof.
  intros [Hi Hs] Hv Hal Hp Hpal E. pose proof (hk_map (HatKeeps := kworld_keeps) _ _ _ _ _ _ _ Hi E) as [Hi' _].
  destruct ok as [O1 O2 O3 O4]. destruct Hi as [[T HT] Hm Hr]. unfold HatDoMap, kworld_hat in E. change (Z.to_nat 0) with 0%nat in E.
  destruct (X86.HatDoMap mmu (k_pmm w) (k_map w) v p 0 fl) as [[[b1 s1] map1] | |] eqn:Em; try discriminate.
  cbn in E. injection E as <- <-.
  assert (Hl : (1 <= level (X86.WalkTables (hhdmBase := hhdmBase) mmu (k_pmm w) (X86.root (k_map w)) v))%nat).
  { destruct (X86Proofs.walk_final mmu O1 O3 (k_pmm w) _ T v HT) as (l & a & _ & Hl & ->). exact Hl. }
  destruct (X86Proofs.map_spec mmu O1 O2 O3 O4 _ _ T _ _ _ _ _ _ _ HT (conj Hp Hpal : X86Proofs.phys_ok mmu 1 p) Hl Em)
    as (T' & _ & Hrt & _ & _ & Hb).
  assert (Hget : forall x, X86.HatGetMap (hhdmBase := hhdmBase) mmu s1 map1 x = X86.HatGetMap (hhdmBase := hhdmBase) mmu s1 (k_map w) x)
    by (intros x; unfold X86.HatGetMap; rewrite Hrt; reflexivity).
  destruct b1.
  - destruct Hb as [Hn Hnew]. split_and!.
    + split; [exact Hi' |]. intros x q m Hx. simpl. rewrite Hget, Hnew. destruct (same_page _ _ _ _); [congruence | apply Hs, Hx].
    + simpl. rewrite Hn. split; reflexivity.
    + intros x Hx. simpl. rewrite Hget, Hnew, window_page by assumption. destruct (_ =? _); reflexivity.
  - destruct Hb as [-> Hn]. split_and!.
    + split; [exact Hi' |]. intros x q m Hx. simpl. rewrite Hget. apply Hs, Hx.
    + simpl. split; [discriminate |]. destruct (X86.HatGetMap _ _ _ _) eqn:E2; [discriminate |]. destruct Hn; [lia | congruence].
    + intros x Hx. simpl. rewrite Hget. reflexivity.
Qed.

Lemma kworld_unmap w v r w' :
  kworld_hl_inv w -> lo <= v < hi -> v mod PageSize = 0 -> HatDoUnmap w v = Ok (r, w') ->
  kworld_hl_inv w' /\ (r = None -> HatGetMap w v = None) /\ (forall p m, r = Some (p, m) -> m = 0) /\
  forall x, lo <= x < hi -> HatGetMap w' x = if x / PageSize =? v / PageSize then None else HatGetMap w x.
Proof.
  intros [Hi Hs] Hv Hal E. pose proof (hk_unmap (HatKeeps := kworld_keeps) _ _ _ _ Hi E) as [Hi' _].
  destruct ok as [O1 O2 O3 O4]. destruct Hi as [[T HT] Hm Hr]. simpl in E.
  destruct (X86.HatDoUnmap mmu (k_pmm w) (k_map w) v) as [[r1 s1] map1] eqn:Em. injection E as <- <-.
  destruct (X86Proofs.unmap_spec mmu O1 O2 O3 _ _ T _ _ _ _ HT Em) as (_ & Hrt & _ & Hres).
  assert (Hget : forall x, X86.HatGetMap (hhdmBase := hhdmBase) mmu s1 map1 x = X86.HatGetMap (hhdmBase := hhdmBase) mmu s1 (k_map w) x)
    by (intros x; unfold X86.HatGetMap; rewrite Hrt; reflexivity).
  destruct r1 as [[p m] |].
  - destruct Hres as [Hold Hnew]. assert (m = 0%nat) as -> by exact (Hs v _ m Hv Hold). split_and!.
    + split; [exact Hi' |]. intros x q m Hx. simpl. rewrite Hget, Hnew. destruct (same_page _ _ _ _); [congruence | apply Hs, Hx].
    + discriminate.
    + intros q m [= _ <-]. reflexivity.
    + intros x Hx. simpl. rewrite Hget, Hnew, window_page by assumption. destruct (_ =? _); reflexivity.
  - destruct Hres as [-> Hn]. split_and!.
    + split; [exact Hi' |]. intros x q m Hx. simpl. rewrite Hget. apply Hs, Hx.
    + intros _. simpl. rewrite Hn. reflexivity.
    + discriminate.
    + intros x Hx. simpl. rewrite Hget. destruct (Z.eqb_spec (x / PageSize) (v / PageSize)) as [Heq |]; [| reflexivity].
      replace (X86.HatGetMap (hhdmBase := hhdmBase) mmu (k_pmm w) (k_map w) x) with (@None (Z * nat)); [reflexivity |].
      symmetry. rewrite X86Proofs.HatGetMap_lookup in Hn |- *.
      assert (Hsp : same_page (X86.pagingLevels mmu) 1 v x = true) by (rewrite window_page by assumption; apply Z.eqb_eq, Heq).
      destruct (lookup_pte _ _ _ _ (k_pmm w) (X86.root (k_map w)) v) as [[e l] |] eqn:Ev in Hn; [discriminate |].
      rewrite (lookup_pte_none _ _ _ _ O3 (X86Proofs.levels_pos mmu O1) (k_pmm w) _ T v x HT Ev Hsp). reflexivity.
Qed.

Definition kworld_laws : HatLaws kworld lo hi (2 ^ (12 + 9 * Z.of_nat (X86.pagingLevels mmu))).
Proof.
  refine {| hl_inv := kworld_hl_inv; hl_window := window; hl_map := kworld_map; hl_unmap := kworld_unmap |}.
  - reflexivity.
  - intros w v p m [_ Hs] Hv E. simpl in E. destruct (X86.HatGetMap _ _ _ _) as [[q k] |] eqn:Eg; [| discriminate].
    injection E as _ <-. rewrite (Hs v q k Hv Eg). reflexivity.
Defined.

(** A metadata frame changes no translation. *)
Lemma kworld_meta_maps w p w' : kworld_ok w -> k_meta_alloc w = Ok (p, w') -> forall x, HatGetMap w' x = HatGetMap w x.
Proof.
  intros [[T HT] _ _] E x. unfold k_meta_alloc, k_alloc in E.
  destruct (Pmm.Alloc hhdmBase (k_pmm w) 1) as [[q s] | |] eqn:Ea; cbn in E; try discriminate. injection E as _ <-.
  destruct (alloc_tables _ _ T q s HT Ea) as (_ & _ & Hl). simpl. rewrite !X86Proofs.HatGetMap_lookup, Hl. reflexivity.
Qed.
End World.
