(* ===== verification/VmmSafety.v ===== *)
(** The promise of the virtual memory manager: over every sequence of its operations the
    address space is divided into holes and ranges that never overlap; allocation is
    first-fit and complete; and the theorems on single operations. *)

From S2P Require Import Prelude Maths Bitmap Pmm RBTree RBTreeProofs RBTreeFix RBTreeOps RBTreeRemove Flags VmmMeta Vmm VmmTree VmmProofs VmmAlloc VmmOps VmmSplit.

(** The manager with the state outside it. *)
Section System.
Context {W : Type} `{!MetaPages W}.
Variable hhdmBase : Z.
Variable anonDriver vfsDriver kernelDriver : VmDriver W.
Variable HatGetMap : W -> Z -> option (Z * Z).
Variable granularity : Z -> Z.
Local Abbreviation GetDriver := (GetDriver anonDriver vfsDriver kernelDriver).
Local Abbreviation Alloc := (Vmm.Alloc hhdmBase anonDriver vfsDriver kernelDriver).
Local Abbreviation Free := (Vmm.Free hhdmBase anonDriver vfsDriver kernelDriver).
Local Abbreviation Split := (Vmm.Split hhdmBase anonDriver vfsDriver kernelDriver).
Local Abbreviation SetFlags := (Vmm.SetFlags anonDriver vfsDriver kernelDriver).
Local Abbreviation HandleFault := (Vmm.HandleFault anonDriver vfsDriver kernelDriver).
Local Abbreviation AcquireMdl := (Vmm.AcquireMdl anonDriver vfsDriver kernelDriver HatGetMap granularity).

(** One call. A split is asked for strictly inside the range, the sizes are ones a 64-bit
    address space can hold. *)
Inductive vmm_step : VMM * W -> VMM * W -> Prop :=
| vs_alloc v w len arg fl limits r v' w' : 0 < len <= MaxRequest ->
    Alloc v w len arg fl limits = Ok (r, v', w') -> vmm_step (v, w) (v', w')
| vs_free v w addr ok v' w' : Free v w addr = Ok (ok, v', w') -> vmm_step (v, w) (v', w')
| vs_split v w addr off r v' w' :
    (forall p, FindRange v addr = Ok (Some p) ->
       0 < off + (addr - (base (rangeData v p) + offset (rangeData v p))) <= MaxRequest) ->
    Split v w addr off = Ok (r, v', w') -> vmm_step (v, w) (v', w')
| vs_flags v w addr fl ok v' w' : SetFlags v w addr fl = Ok (ok, v', w') -> vmm_step (v, w) (v', w')
| vs_fault v w addr fl ok v' w' : HandleFault v w addr fl = Ok (ok, v', w') -> vmm_step (v, w) (v', w')
| vs_acquire fuel v w addr len r v' w' : 0 <= addr -> 0 <= len -> addr + len < two64 ->
    AcquireMdl fuel v w addr len = Ok (r, v', w') -> vmm_step (v, w) (v', w')
| vs_release v w addr v' : ReleaseMdl v addr = Ok v' -> vmm_step (v, w) (v', w).

(** Drivers that let go of a range they are asked to detach, as all three do. *)
Definition detaches (drv : VmDriver W) : Prop := forall w r st b w' st', drv_Detach drv w r st = Ok (b, w', st') -> b = true.

Record drivers_ok : Prop := mkDriversOk {
  do_hhdm : 0 <= hhdmBase;
  do_room : forall w p w', mp_inv w -> mp_alloc w = Ok (p, w') -> p + hhdmBase + PageSize + PageSize <= two64;
  do_anon : driver_ok anonDriver /\ detaches anonDriver;
  do_vfs : driver_ok vfsDriver /\ detaches vfsDriver;
  do_kernel : driver_ok kernelDriver /\ detaches kernelDriver;
  do_granule : forall mode, 0 < granularity mode
}.

(** The state of a manager whose addresses [F] are all accounted for. *)
Record divided (F : Z -> Prop) (v : VMM) (w : W) (hs rs : list ptr) : Prop := mkDivided {
  dv_space : space hhdmBase v w hs rs;
  dv_all : forall x, F x <-> hole_addr v hs x \/ range_addr v rs x;
  dv_driver : forall p, p ∈ rs -> GetDriver (flags (rangeData v p)) <> None
}.

Hypothesis ok : drivers_ok.

Lemma GetDriver_detaches fl drv : GetDriver fl = Some drv -> detaches drv.
Proof.
  destruct ok as [_ _ [_ D1] [_ D2] [_ D3] _]. unfold Vmm.GetDriver.
  destruct (Flags.Has fl VmFlag.Anon); [intros [= <-]; assumption |].
  destruct (Flags.Has fl VmFlag.File); [intros [= <-]; assumption |].
  destruct (Flags.Has fl VmFlag.Mmio); [intros [= <-]; assumption | discriminate].
Qed.

Lemma range_addr_cons v rs p rs' x : rs' ≡ₚ p :: rs -> range_addr v rs' x <-> rlo v p <= x < rhi v p \/ range_addr v rs x.
Proof.
  intros Hp. unfold range_addr. split.
  - intros (q & Hq & Hx). rewrite Hp in Hq. apply elem_of_cons in Hq as [-> | Hq]; eauto.
  - intros [Hx | (q & Hq & Hx)]; [exists p | exists q]; (split; [rewrite Hp | assumption]); [left | right; assumption].
Qed.

Lemma range_addr_same v v' rs x : (forall p, p ∈ rs -> base (rangeData v' p) = base (rangeData v p) /\ length (rangeData v' p) = length (rangeData v p)) ->
  range_addr v' rs x <-> range_addr v rs x.
Proof.
  intros H. unfold range_addr, rlo, rhi. split; intros (p & Hp & Hx); exists p; destruct (H p Hp) as [E1 E2];
    (split; [assumption |]); [rewrite <- E1, <- E2 | rewrite E1, E2]; assumption.
Qed.

(** ** Each call keeps the division *)

Lemma head_fits d len hs h : head (filter (fits_len d len) hs) = Some h -> h ∈ hs /\ len <= hole_length (d h).
Proof.
  intros Hh. assert (Hin : h ∈ filter (fits_len d len) hs)
    by (destruct (filter _ hs); simpl in Hh; [discriminate | injection Hh as ->; left]).
  apply list_elem_of_filter in Hin as [Hfit Hhin]. auto.
Qed.

(** The addresses of a part of a hole. *)
Lemma first_fit_addr v hs h len x : head (filter (fits_len (holeData v) len) hs) = Some h ->
  hlo v h <= x < hlo v h + len -> hole_addr v hs x.
Proof. intros [Hin Hfit]%head_fits Hx. exists h. split; [assumption |]. unfold hhi. fold (hlo v h). lia. Qed.

(** [Alloc] asked the driver and did what [Alloc_spec] says. *)
Lemma alloc_inv v w hs rs len arg fl limits drv r v' w' :
  space hhdmBase v w hs rs -> 0 < len <= MaxRequest -> GetDriver fl = Some drv ->
  Alloc v w len arg fl limits = Ok (r, v', w') ->
  exists q w0 hs' rs', drv_Query drv w len fl arg = Ok (q, w0) /\ space hhdmBase v' w' hs' rs' /\
    alloc_outcome drv arg w0 w' v hs rs fl q r v' hs' rs'.
Proof.
  intros H Hlen Ed E. destruct ok as [O1 O2 [A1 _] [A2 _] [A3 _] _].
  destruct (drv_Query drv w len fl arg) as [[q w0] | |] eqn:Eq.
  2,3: exfalso; unfold Vmm.Alloc in E; rewrite (proj2 (Z.eqb_neq len 0)), Ed, Eq in E by lia; discriminate.
  pose proof (GetDriver_ok anonDriver vfsDriver kernelDriver A1 A2 A3 fl drv Ed) as Hok.
  destruct (Alloc_spec hhdmBase O1 O2 anonDriver vfsDriver kernelDriver A1 A2 A3 v w hs rs len arg fl limits drv q w0 r v' w' H ltac:(lia) Ed Eq
    (proj2 (dk_query _ Hok _ _ _ _ _ _ (sp_pages _ _ _ _ _ H) Eq) Hlen) E) as (hs' & rs' & H' & _ & Ho).
  exists q, w0, hs', rs'. auto.
Qed.

Lemma alloc_divided F v w hs rs drv arg w0 fl q r v' w' hs' rs' :
  divided F v w hs rs -> GetDriver fl = Some drv -> space hhdmBase v' w' hs' rs' ->
  alloc_outcome drv arg w0 w' v hs rs fl q r v' hs' rs' -> divided F v' w' hs' rs'.
Proof.
  intros [H Hall Hdrv] Ed H' Ho. destruct r as [a |].
  - destruct Ho as (h & p & off & tok & Hh & Hperm & Hp & _ & Hsame & Hadr & _). split; [assumption | |].
    + intros x. rewrite Hall, Hadr, (range_addr_cons v' rs p rs' x Hperm).
      rewrite (range_addr_same v v' rs) by (intros y Hy; rewrite Hsame by assumption; auto).
      unfold rlo, rhi. rewrite Hp. simpl. pose proof (first_fit_addr v hs h (q_length q) x Hh) as Hsub.
      destruct (decide (hlo v h <= x < hlo v h + q_length q)); tauto.
    + intros x Hx. rewrite Hperm in Hx. apply elem_of_cons in Hx as [-> | Hx]; [rewrite Hp; simpl; congruence | rewrite Hsame by assumption; auto].
  - destruct Ho as (-> & Hsame & Hadr). split; [assumption | |].
    + intros x. rewrite Hall, Hadr, (range_addr_same v v' rs); [reflexivity |]. intros y Hy. rewrite Hsame by assumption. auto.
    + intros x Hx. rewrite Hsame by assumption. auto.
Qed.

Lemma alloc_keeps F v w hs rs len arg fl limits r v' w' :
  divided F v w hs rs -> 0 < len <= MaxRequest -> Alloc v w len arg fl limits = Ok (r, v', w') ->
  exists hs' rs', divided F v' w' hs' rs'.
Proof.
  intros D Hlen E. destruct (GetDriver fl) as [drv |] eqn:Ed.
  2:{ unfold Vmm.Alloc in E. rewrite (proj2 (Z.eqb_neq len 0)), Ed in E by lia. injection E as <- <- <-. eauto. }
  destruct (alloc_inv v w hs rs len arg fl limits drv r v' w' (dv_space _ _ _ _ _ D) Hlen Ed E) as (q & w0 & hs' & rs' & _ & H' & Ho).
  exists hs', rs'. eapply alloc_divided; eassumption.
Qed.

(** A [Free] that fails has changed nothing. *)
Lemma Free_false F v w hs rs addr v' w' : divided F v w hs rs -> Free v w addr = Ok (false, v', w') -> v' = v /\ w' = w.
Proof.
  intros [H Hall Hdrv] E. destruct ok as [O1 O2 _ _ _ _]. unfold Vmm.Free in E.
  destruct (FindRange_spec hhdmBase O1 v w hs rs addr H) as (o & Ef & Ho). rewrite Ef in E. cbn [mbind res_bind] in E.
  destruct o as [p |]; [| injection E as <- <-; auto]. destruct Ho as [Hp _].
  destruct (negb _); [injection E as <- <-; auto |].
  destruct (remove_range_spec hhdmBase O1 v w hs rs p H Hp) as (v1 & rs1 & Er & _). rewrite Er in E. cbn [mbind res_bind] in E.
  destruct (GetDriver (flags (rangeData v p))) as [drv |] eqn:Ed; [| exfalso; apply (Hdrv p Hp Ed)].
  destruct (drv_Detach _ _ _ _) as [[[b w1] st] | |] eqn:Edt; try discriminate. cbn [mbind res_bind] in E.
  rewrite (GetDriver_detaches _ _ Ed _ _ _ _ _ _ Edt) in E. cbn [negb] in E.
  destruct (new_hole _ _ _ _ _) as [[[hp v3] w3] | |]; try discriminate. cbn [mbind res_bind] in E.
  destruct (FreeMeta_range _ _) as [v4 | |]; try discriminate. cbn [mbind res_bind] in E.
  destruct (insert_hole _ _) as [v5 | |]; discriminate.
Qed.

Lemma free_divided F v w hs rs addr v' w' hs' rs' :
  divided F v w hs rs -> space hhdmBase v' w' hs' rs' ->
  free_outcome anonDriver vfsDriver kernelDriver w w' v hs rs addr true v' hs' rs' -> divided F v' w' hs' rs'.
Proof.
  intros [H Hall Hdrv] H' (Hsame & p & Hcov & Hm & Hperm & Hadr & _). split; [assumption | |].
  - intros x. rewrite Hall, Hadr, (range_addr_cons v rs' p rs x Hperm).
    rewrite (range_addr_same v v' rs') by (intros y Hy; rewrite Hsame by assumption; auto). tauto.
  - intros x Hx. rewrite Hsame by assumption. apply Hdrv. rewrite Hperm. right. assumption.
Qed.

Lemma free_keeps F v w hs rs addr b v' w' :
  divided F v w hs rs -> Free v w addr = Ok (b, v', w') -> exists hs' rs', divided F v' w' hs' rs'.
Proof.
  intros D E. destruct b.
  2:{ destruct (Free_false _ _ _ _ _ _ _ _ D E) as [-> ->]. eauto. }
  destruct ok as [O1 O2 [A1 _] [A2 _] [A3 _] _].
  destruct (Free_spec hhdmBase O1 O2 anonDriver vfsDriver kernelDriver A1 A2 A3 v w hs rs addr true v' w' (dv_space _ _ _ _ _ D) E)
    as (hs' & rs' & H' & _ & Ho).
  exists hs', rs'. eapply free_divided; eassumption.
Qed.

Lemma split_divided F v w hs rs addr r v' w' rs' :
  divided F v w hs rs -> space hhdmBase v' w' hs rs' -> holeData v' = holeData v ->
  split_outcome v rs addr r v' rs' -> divided F v' w' hs rs'.
Proof.
  intros [H Hall Hdrv] H' Hh Ho.
  assert (Hhole : forall x, hole_addr v' hs x <-> hole_addr v hs x) by (intros x; apply holes_kept_addr; assumption).
  assert (Hsame : rs' = rs -> rangeData v' = rangeData v -> divided F v' w' hs rs').
  { intros -> Hd. split; [assumption | |]; [intros x; rewrite Hall, Hhole, (range_addr_same v v' rs) by (rewrite Hd; auto); reflexivity |].
    rewrite Hd. assumption. }
  destruct r as [a |]; [| destruct Ho; auto].
  destruct Ho as (p & Hp & Hcov & Hm & [[? ?] | (np & cut & t1 & t2 & Hperm & Hnp & Hcut & Hd)]); [auto |].
  cbv zeta in Hd. destruct Hd as (Hdp & Hdn & Hdo & _). split; [assumption | |].
  - intros x. rewrite Hall, Hhole. apply list_elem_of_split in Hp as (l1 & l2 & ->).
    assert (Hpm : l1 ++ p :: l2 ≡ₚ p :: (l1 ++ l2)) by solve_Permutation.
    rewrite (range_addr_cons v' _ np rs' x Hperm), (range_addr_cons v' _ p _ x Hpm), (range_addr_cons v _ p _ x Hpm).
    assert (Hnd : NoDup (l1 ++ p :: l2)) by exact (tree_of_NoDup NullAggregate _ _ _ (sp_ranges _ _ _ _ _ H)).
    rewrite Hpm in Hnd. apply NoDup_cons in Hnd as [Hn _].
    rewrite (range_addr_same v v' (l1 ++ l2)).
    + unfold rlo, rhi. rewrite Hdp, Hdn. simpl. set (b0 := base _) in *. set (len := length _) in *.
      split; [intros [? | [? | ?]] | intros [? | [? | [? | ?]]]]; auto; try (right; left; lia).
      destruct (Z.lt_ge_cases x (b0 + cut)); [right; right; left; lia | right; left; lia].
    + intros y Hy. rewrite Hdo; auto; [rewrite Hpm; right; assumption | intros ->; contradiction].
  - intros x Hx. rewrite Hperm in Hx. apply elem_of_cons in Hx as [-> | Hx]; [rewrite Hdn; simpl; auto |].
    destruct (decide (x = p)) as [-> | Hne]; [rewrite Hdp; simpl; auto | rewrite Hdo by assumption; auto].
Qed.

Lemma split_keeps F v w hs rs addr off r v' w' :
  divided F v w hs rs ->
  (forall p, FindRange v addr = Ok (Some p) -> 0 < off + (addr - (base (rangeData v p) + offset (rangeData v p))) <= MaxRequest) ->
  Split v w addr off = Ok (r, v', w') -> exists hs' rs', divided F v' w' hs' rs'.
Proof.
  intros D Hoff E. destruct ok as [O1 O2 [A1 _] [A2 _] [A3 _] _]. pose proof (dv_space _ _ _ _ _ D) as H.
  destruct (Split_spec hhdmBase O1 O2 anonDriver vfsDriver kernelDriver A1 A2 A3 v w hs rs addr off r v' w' H) as (rs' & H' & _ & Hh & Ho); auto.
  { intros p Hp Hcov. apply Hoff. eapply (FindRange_unique hhdmBase); eassumption. }
  exists hs, rs'. eapply split_divided; eassumption.
Qed.

(** A step that keeps every range's place and its driver keeps the division. *)
Lemma divided_same F v w hs rs v' w' :
  divided F v w hs rs -> space hhdmBase v' w' hs rs -> holeData v' = holeData v ->
  (forall p, p ∈ rs -> base (rangeData v' p) = base (rangeData v p) /\ length (rangeData v' p) = length (rangeData v p) /\
    GetDriver (flags (rangeData v' p)) = GetDriver (flags (rangeData v p))) ->
  divided F v' w' hs rs.
Proof.
  intros [H Hall Hdrv] H' Hh Hr. split; [assumption | |].
  - intros x. rewrite Hall, (holes_kept_addr v v' hs x Hh), (range_addr_same v v' rs); [reflexivity |].
    intros p Hp. destruct (Hr p Hp) as (? & ? & _). auto.
  - intros p Hp. destruct (Hr p Hp) as (_ & _ & ->). auto.
Qed.

(** [SetFlags] keeps the bits that choose the driver. *)
Lemma type_bits_kept fl rfl i : 24 <= i < 64 -> Flags.Has (Z.lor (Z.land rfl VmFlagTypeMask) (Z.land fl (not64 VmFlagTypeMask))) i = Flags.Has rfl i.
Proof.
  intros Hi.
  assert (Hm : Z.testbit VmFlagTypeMask i = true).
  { change VmFlagTypeMask with (Z.shiftl (Z.ones 40) 24). rewrite Z.shiftl_spec, Z.ones_spec_low by lia. reflexivity. }
  rewrite !Has_testbit by lia. rewrite Z.lor_spec, !Z.land_spec, Hm. unfold not64.
  replace (two64 - 1 - VmFlagTypeMask) with (Z.ones 24) by reflexivity.
  rewrite Z.ones_spec_high, andb_false_r, orb_false_r, andb_true_r by lia. reflexivity.
Qed.

Lemma GetDriver_kept fl rfl : GetDriver (Z.lor (Z.land rfl VmFlagTypeMask) (Z.land fl (not64 VmFlagTypeMask))) = GetDriver rfl.
Proof. unfold Vmm.GetDriver, VmFlag.Anon, VmFlag.File, VmFlag.Mmio. rewrite !type_bits_kept by lia. reflexivity. Qed.

Lemma flags_keeps F v w hs rs addr fl b v' w' :
  divided F v w hs rs -> SetFlags v w addr fl = Ok (b, v', w') -> divided F v' w' hs rs.
Proof.
  intros D E. destruct ok as [O1 O2 [A1 _] [A2 _] [A3 _] _].
  destruct (SetFlags_spec hhdmBase O1 anonDriver vfsDriver kernelDriver A1 A2 A3 v w hs rs addr fl b v' w' (dv_space _ _ _ _ _ D) E) as (H' & _ & Hh & Ho).
  apply (divided_same F v w); [assumption.. |]. intros x Hx. destruct b; simpl in Ho; [| rewrite Ho; auto].
  destruct Ho as (p & _ & _ & _ & Hp & Hne). destruct (decide (x = p)) as [-> | Hxp]; [| rewrite Hne; auto].
  rewrite Hp. simpl. rewrite GetDriver_kept. auto.
Qed.

Lemma fault_keeps F v w hs rs addr fl b v' w' :
  divided F v w hs rs -> HandleFault v w addr fl = Ok (b, v', w') -> divided F v' w' hs rs.
Proof.
  intros D E. destruct ok as [O1 O2 [A1 _] [A2 _] [A3 _] _].
  destruct (HandleFault_spec hhdmBase O1 anonDriver vfsDriver kernelDriver A1 A2 A3 v w hs rs addr fl b v' w' (dv_space _ _ _ _ _ D) E) as ([st ->] & _ & H' & _).
  apply (divided_same F v w); [assumption | assumption | reflexivity |]. auto.
Qed.

Lemma acquire_keeps F v w hs rs fuel addr len r v' w' :
  divided F v w hs rs -> 0 <= addr -> 0 <= len -> addr + len < two64 ->
  AcquireMdl fuel v w addr len = Ok (r, v', w') -> divided F v' w' hs rs.
Proof.
  intros D Ha Hl Hb E. destruct ok as [O1 O2 [A1 _] [A2 _] [A3 _] G].
  destruct (AcquireMdl_spec hhdmBase O1 anonDriver vfsDriver kernelDriver A1 A2 A3 HatGetMap granularity G fuel v w hs rs addr len r v' w'
    (dv_space _ _ _ _ _ D) Ha Hl Hb E) as (H' & _ & Hh & Ho).
  apply (divided_same F v w); [assumption.. |]. intros x Hx. destruct r as [[[a l] ptrs] |]; [| destruct Ho as [-> _]; auto].
  destruct Ho as (p & _ & _ & _ & _ & _ & Hd). rewrite Hd. destruct (decide (x = p)) as [-> |]; auto.
Qed.

Lemma release_keeps F v w hs rs addr v' :
  divided F v w hs rs -> ReleaseMdl v addr = Ok v' -> divided F v' w hs rs.
Proof.
  intros D E. destruct ok as [O1 _ _ _ _ _].
  destruct (ReleaseMdl_spec hhdmBase O1 v w hs rs addr v' (dv_space _ _ _ _ _ D) E) as (H' & Hh & [[-> _] | (p & _ & _ & _ & Hd)]); [assumption |].
  apply (divided_same F v w); [assumption.. |]. intros x Hx. rewrite Hd. destruct (decide (x = p)) as [-> |]; auto.
Qed.

Lemma step_keeps F s s' : vmm_step s s' -> (exists hs rs, divided F (fst s) (snd s) hs rs) ->
  exists hs rs, divided F (fst s') (snd s') hs rs.
Proof.
  intros Hs (hs & rs & D). destruct Hs; simpl in *.
  - eapply alloc_keeps; eassumption.
  - eapply free_keeps; eassumption.
  - eapply split_keeps; eassumption.
  - exists hs, rs. eapply flags_keeps; eassumption.
  - exists hs, rs. eapply fault_keeps; eassumption.
  - exists hs, rs. eapply (acquire_keeps F v w hs rs fuel addr len); eassumption.
  - exists hs, rs. eapply release_keeps; eassumption.
Qed.

Lemma reachable_keeps F s s' : rtc vmm_step s s' -> (exists hs rs, divided F (fst s) (snd s) hs rs) ->
  exists hs rs, divided F (fst s') (snd s') hs rs.
Proof. induction 1; eauto using step_keeps. Qed.

Lemma user_space w v w' : mp_inv w -> 0 < granularity 0 < u64 (not64 hhdmBase - granularity 0) ->
  UserVmm hhdmBase granularity w = Ok (v, w') ->
  exists p, divided (fun x => granularity 0 <= x < u64 (not64 hhdmBase - granularity 0)) v w' [p] [] /\
    hlo v p = granularity 0 /\ hhi v p = u64 (not64 hhdmBase - granularity 0).
Proof.
  intros Hw Hg E. destruct ok as [O1 O2 _ _ _ _]. unfold UserVmm in E.
  assert (Hu : u64 (not64 hhdmBase - granularity 0) < two64) by (unfold u64, two64; apply Z.mod_pos_bound; lia).
  destruct (CommonInit_spec hhdmBase O1 O2 (empty_VMM (granularity 0) (u64 (not64 hhdmBase - granularity 0))) w v w' eq_refl eq_refl Hg Hu Hw E)
    as (p & H & _ & Hlo & Hhi & _).
  exists p. split; [| split; assumption]. split; [assumption | | intros q Hq; inversion Hq].
  intros x. unfold hole_addr, range_addr. split.
  - intros Hx. left. exists p. rewrite Hlo, Hhi. split; [left | exact Hx].
  - intros [(q & Hq%list_elem_of_singleton & Hx) | (q & Hq & _)]; [| inversion Hq]. subst q. rewrite Hlo, Hhi in Hx. exact Hx.
Qed.

Lemma user_steps w v w' : UserVmm hhdmBase granularity w = Ok (v, w') -> meta_steps w w'.
Proof.
  unfold UserVmm, CommonInit. intros E. destruct (new_hole _ _ _ _ _) as [[[p v1] w1] | |] eqn:En; cbn [mbind res_bind] in E; try discriminate.
  destruct (insert_hole _ _) as [v2 | |]; cbn [mbind res_bind] in E; try discriminate. injection E as _ <-. eapply new_hole_steps, En.
Qed.
End System.
