(* ===== verification/VmmSpec.v ===== *)
(** The contract of the virtual memory manager, proved for any drivers that keep their
    promises, and met by the kernel's own world: its physical memory manager, its x86_64 page
    tables and the kernel driver. *)

From S2P Require Import Prelude Maths Bitmap Random Pmm PmmProofs PmmSafety RBTree RBTreeProofs RBTreeFix RBTreeOps RBTreeRemove Flags PageTable PmmMem HatX86 HatX86Proofs HatX86Spec VmmMeta Vmm VmmTree VmmProofs VmmAlloc VmmOps VmmSplit VmDrivers VmDriversProofs KernelWorld VmmSafety.

(** ** The kernel's world as a system *)

Lemma demo_modes : (1 <= X86.modeCount hat_mmu)%nat.
Proof. simpl. lia. Qed.
#[export] Instance demo_meta : MetaPages kworld := kworld_meta demo_hhdm hat_mmu hat_mmu_ok demo_modes.
#[export] Instance demo_hat : Hat kworld := kworld_hat demo_hhdm hat_mmu.

Lemma demo_keeps : HatKeeps kworld.
Proof. apply kworld_keeps. Qed.
#[export] Existing Instance demo_keeps.

Definition demo_driver : VmDriver kworld := KernelVmDriver 8.
(** [HatGetLimits().modes[mode].granularity]. *)
Definition demo_granularity (mode : Z) : Z := GetPageSize (S (Z.to_nat mode)).

Lemma kernel_detaches fuel : detaches (KernelVmDriver (W := kworld) fuel).
Proof.
  intros w r st b w' st' E. simpl in E. unfold Kernel_Detach in E.
  destruct (Kernel_Detach_loop _ _ _ _ _) as [[w1 st1] | |]; cbn [mbind res_bind] in E; [injection E as <- <- <-; reflexivity | discriminate..].
Qed.

Lemma demo_drivers : drivers_ok demo_hhdm demo_driver demo_driver demo_driver demo_granularity.
Proof.
  constructor; try (split; [apply kernel_driver_ok | apply kernel_detaches]).
  - discriminate.
  - apply kworld_room.
  - intros mode. apply GetPageSize_pos. lia.
Qed.

(** Sixteen frames, one of them the root table. *)
Definition demo_world : kworld := mkKworld (fst hat_fresh) (snd hat_fresh) [].

Lemma demo_world_free f : fa_free (k_pmm demo_world) f -> exists i, 0 <= i < 16 /\ f = 0x1000 + i * PageSize.
Proof.
  simpl. unfold hat_fresh. destruct (Pmm.Alloc demo_hhdm hat_pmm 1) as [[rt s] | |] eqn:E; [| vm_compute in E; discriminate ..].
  destruct hat_mmu_ok as [O1 O2 O3 O4].
  destruct (X86Spec.fresh_tables (hhdmBase := demo_hhdm) hat_mmu O1 O2 O3 hat_pmm rt s hat_pmm_ready E) as (_ & Hf & _).
  intros Hff. apply Hf in Hff as [Hff _]. apply (page_free_runs demo_hhdm hat_pmm _ f hat_pmm_runs) in Hff as [Hin | (z & Hz & _)]; [| inversion Hz].
  assert (Hall : Forall (fun x => exists i, 0 <= i < 16 /\ x = 0x1000 + i * PageSize + demo_hhdm) (list_pages [(demo_page, 16)])).
  { vm_compute list_pages. repeat (constructor; [match goal with |- exists i, _ /\ ?x = _ => exists ((x - demo_page) / PageSize) end; split; [vm_compute; split; congruence | reflexivity] |]). constructor. }
  rewrite Forall_forall in Hall. destruct (Hall _ Hin) as (i & Hi & E'). exists i. split; [assumption | lia].
Qed.

Lemma demo_world_ok : mp_inv demo_world.
Proof.
  constructor.
  - exact hat_fresh_ok.
  - intros f Hf. inversion Hf.
  - intros f Hf. destruct (demo_world_free f Hf) as (i & Hi & ->). unfold PageSize, demo_hhdm, two64. lia.
Qed.

(** ** The contract *)

Section Contract.
Context {W : Type} `{!MetaPages W}.
Variable hhdmBase : Z.
Variable anonDriver vfsDriver kernelDriver : VmDriver W.
Variable HatGetMap : W -> Z -> option (Z * Z).
Variable granularity : Z -> Z.
Local Abbreviation GetDriver := (GetDriver anonDriver vfsDriver kernelDriver).
Local Abbreviation Alloc := (Vmm.Alloc hhdmBase anonDriver vfsDriver kernelDriver).
Local Abbreviation Free := (Vmm.Free hhdmBase anonDriver vfsDriver kernelDriver).
Local Abbreviation Split := (Vmm.Split hhdmBase anonDriver vfsDriver kernelDriver).
Local Abbreviation HandleFault := (Vmm.HandleFault anonDriver vfsDriver kernelDriver).
Local Abbreviation AcquireMdl := (Vmm.AcquireMdl anonDriver vfsDriver kernelDriver HatGetMap granularity).
Local Abbreviation steps := (rtc (vmm_step hhdmBase anonDriver vfsDriver kernelDriver HatGetMap granularity)).
Local Abbreviation system_ok := (drivers_ok hhdmBase anonDriver vfsDriver kernelDriver granularity).
Local Abbreviation divided := (divided hhdmBase anonDriver vfsDriver kernelDriver).

Lemma same_range v w hs rs p q x : space hhdmBase v w hs rs -> p ∈ rs -> q ∈ rs ->
  range_covers v p x -> range_covers v q x -> p = q.
Proof.
  intros H Hp Hq Cp Cq. destruct (decide (p = q)) as [| Hne]; [assumption | exfalso].
  assert (Hnd : NoDup rs) by exact (tree_of_NoDup NullAggregate _ _ _ (sp_ranges _ _ _ _ _ H)).
  pose proof (ordered_apart _ _ _ _ _ (sp_rord _ _ _ _ _ H) Hnd Hp Hq Hne). unfold range_covers in *. lia.
Qed.

Lemma not_both v w hs rs x : space hhdmBase v w hs rs -> hole_addr v hs x -> ~ range_addr v rs x.
Proof.
  intros H (p & Hp & Hx) (q & Hq & Hy). pose proof (sp_apart _ _ _ _ _ H p q Hp Hq) as Ha. unfold apart in Ha. lia.
Qed.

(** C9: whatever calls follow the construction of a user address space, every address between
    its bounds belongs to exactly one hole or exactly one range, the two trees are balanced
    search trees, every range has a driver, and the structures of both trees are live entries
    of the manager's slabs. *)
Theorem vmm_reachable_partition w v0 w0 v w' :
  system_ok -> mp_inv w -> 0 < granularity 0 < u64 (not64 hhdmBase - granularity 0) ->
  UserVmm hhdmBase granularity w = Ok (v0, w0) -> steps (v0, w0) (v, w') ->
  exists hs rs, space hhdmBase v w' hs rs /\
    (forall x, granularity 0 <= x < u64 (not64 hhdmBase - granularity 0) <-> hole_addr v hs x \/ range_addr v rs x) /\
    (forall x, ~ (hole_addr v hs x /\ range_addr v rs x)) /\
    (forall p q x, p ∈ rs -> q ∈ rs -> range_covers v p x -> range_covers v q x -> p = q) /\
    (forall p, p ∈ rs -> GetDriver (flags (rangeData v p)) <> None).
Proof.
  intros Hok Hw Hg E Hs.
  destruct (user_space _ _ _ _ _ Hok w v0 w0 Hw Hg E) as (p0 & D0 & _).
  destruct (reachable_keeps _ _ _ _ _ _ Hok _ _ _ Hs (ex_intro _ _ (ex_intro _ _ D0))) as (hs & rs & D). simpl in D.
  exists hs, rs. split_and!; [apply D | apply D | | | apply D].
  - intros x [Hh Hr]. exact (not_both _ _ _ _ _ (dv_space _ _ _ _ _ _ _ _ _ D) Hh Hr).
  - intros p q x Hp Hq. apply (same_range _ _ _ _ _ _ _ (dv_space _ _ _ _ _ _ _ _ _ D) Hp Hq).
Qed.


(** C11: freeing what was just allocated succeeds, and afterwards exactly the addresses that
    were free before the allocation are free, and the ranges are the ones there were. *)
Theorem vmm_alloc_free_roundtrip F v w hs rs len arg fl limits drv a v1 w1 :
  system_ok -> divided F v w hs rs -> 0 < len <= MaxRequest -> GetDriver fl = Some drv ->
  Alloc v w len arg fl limits = Ok (Some a, v1, w1) -> 1 <= spare (holeSlabs v1) ->
  (forall q w0 wa r st att w' st', drv_Query drv w len fl arg = Ok (q, w0) -> length r = q_length q ->
     drv_Attach drv wa r st q arg = Ok (att, w', st') -> 0 <= a_offset att < length r) ->
  (forall p st, FindRange v1 a = Ok (Some p) -> exists w' st', drv_Detach drv w1 (rangeData v1 p) st = Ok (true, w', st')) ->
  exists v2 w2 hs2 rs2, Free v1 w1 a = Ok (true, v2, w2) /\ divided F v2 w2 hs2 rs2 /\
    (forall x, hole_addr v2 hs2 x <-> hole_addr v hs x) /\
    rs2 ≡ₚ rs /\ (forall p, p ∈ rs -> rangeData v2 p = rangeData v p).
Proof.
  intros Hok D Hlen Hd E Hsp Hatt Hdet. pose proof Hok as [O1 O2 [A1 _] [A2 _] [A3 _] _].
  destruct (alloc_inv _ _ _ _ _ Hok v w hs rs len arg fl limits drv _ v1 w1 (dv_space _ _ _ _ _ _ _ _ _ D) Hlen Hd E)
    as (q & w0 & hs1 & rs1 & Eq & H1 & Ho).
  assert (D1 : divided F v1 w1 hs1 rs1) by (eapply alloc_divided; eassumption).
  destruct Ho as (h & p & off & tok & Hh & Hperm & Hp & -> & Hsame & Hadr & (wa & st & st' & _ & Eat)).
  assert (Hoff : 0 <= off < q_length q) by exact (Hatt q w0 wa (mkRange (hlo v h) (q_length q) fl 0 0 0) _ _ _ _ Eq eq_refl Eat).
  assert (Hp1 : p ∈ rs1) by (rewrite Hperm; left).
  assert (Hcov : range_covers v1 p (hlo v h + off)) by (unfold range_covers, rlo, rhi; rewrite Hp; simpl; lia).
  pose proof (sp_rin _ _ _ _ _ H1 p Hp1) as (_ & _ & I3). pose proof (sp_bounds _ _ _ _ _ H1) as [B1 B2].
  pose proof (sp_hin _ _ _ _ _ (dv_space _ _ _ _ _ _ _ _ _ D) h (proj1 (head_fits _ _ _ _ Hh))) as (I4 & _).
  rewrite (u64_small (hlo v h + off)) in * by (unfold range_covers in Hcov; pose proof (sp_bounds _ _ _ _ _ (dv_space _ _ _ _ _ _ _ _ _ D)); lia).
  destruct (Free_total hhdmBase O1 O2 anonDriver vfsDriver kernelDriver A1 A2 A3 v1 w1 hs1 rs1 (hlo v h + off) p drv H1 Hp1 Hcov)
    as (v2 & w2 & Ef); [rewrite Hp; reflexivity | rewrite Hp; exact Hd | assumption | intros st0; apply Hdet; eapply FindRange_unique; eassumption |].
  destruct (Free_spec hhdmBase O1 O2 anonDriver vfsDriver kernelDriver A1 A2 A3 v1 w1 hs1 rs1 _ true v2 w2 H1 Ef)
    as (hs2 & rs2 & H2 & _ & Ho2).
  assert (D2 : divided F v2 w2 hs2 rs2) by (eapply free_divided; eassumption).
  destruct Ho2 as (Hsame2 & p' & Hcov' & _ & Hperm2 & Hadr2 & _).
  assert (p' = p) as -> by (eapply (same_range v1); [exact H1 | rewrite Hperm2; left | assumption | exact Hcov' | exact Hcov]).
  assert (Hrs : rs2 ≡ₚ rs) by (apply (Permutation_cons_inv (a := p)); rewrite <- Hperm2; exact Hperm).
  exists v2, w2, hs2, rs2. split_and!; auto.
  - intros x. rewrite Hadr2, Hadr. unfold rlo, rhi. rewrite Hp. simpl. pose proof (first_fit_addr v hs h (q_length q) x Hh).
    destruct (decide (hlo v h <= x < hlo v h + q_length q)); tauto.
  - intros y Hy. rewrite Hsame2 by (rewrite Hrs; assumption). apply Hsame, Hy.
Qed.

(** C12: a split either changes nothing or cuts one unpinned range in two at a driver-chosen
    offset strictly inside it: the two parts cover what the range covered, with its flags, and
    no other range and no hole changes. *)
Theorem vmm_split_partition F v w hs rs addr off r v' w' :
  system_ok -> divided F v w hs rs ->
  (forall p, p ∈ rs -> range_covers v p addr -> 0 < off + (addr - (base (rangeData v p) + offset (rangeData v p))) <= MaxRequest) ->
  Split v w addr off = Ok (r, v', w') ->
  exists rs', divided F v' w' hs rs' /\ holeData v' = holeData v /\ split_outcome v rs addr r v' rs'.
Proof.
  intros Hok D Hoff E. pose proof Hok as [O1 O2 [A1 _] [A2 _] [A3 _] _].
  destruct (Split_spec hhdmBase O1 O2 anonDriver vfsDriver kernelDriver A1 A2 A3 v w hs rs addr off r v' w' (dv_space _ _ _ _ _ _ _ _ _ D) Hoff E)
    as (rs' & H' & _ & Hh & Ho).
  exists rs'. split_and!; auto. eapply split_divided; eassumption.
Qed.


(** C14: a fault reaches a driver exactly when a range covers the address and permits the
    access, and then the driver of that range decides; otherwise it is refused and the state
    outside the manager is untouched. *)
Theorem vmm_fault_permission F v w hs rs addr fl :
  system_ok -> divided F v w hs rs ->
  (forall p drv, p ∈ rs -> range_covers v p addr -> permitted fl (flags (rangeData v p)) ->
     GetDriver (flags (rangeData v p)) = Some drv ->
     HandleFault v w addr fl =
       ('(good, w, st) ← drv_HandleFault drv w (rangeData v p) (count_fault (stats v)) addr fl; Ok (good, set_stats v st, w))) /\
  ((forall p, p ∈ rs -> range_covers v p addr -> ~ permitted fl (flags (rangeData v p))) ->
     exists v', HandleFault v w addr fl = Ok (false, v', w) /\ stats_only v v').
Proof.
  intros [O1 _ _ _ _ _] [H _ _].
  pose proof (space_stats hhdmBase v w (count_fault (stats v)) hs rs H) as H0. split.
  - intros p drv Hp Hcov (P1 & P2 & P3) Hd. unfold Vmm.HandleFault.
    pose proof (sp_rin _ _ _ _ _ H p Hp) as (I1 & _ & I3). destruct Hcov as [C1 C2] eqn:Ecov.
    destruct (Z.ltb_spec addr (globalLowerBound v)); [lia |]. destruct (Z.leb_spec (globalUpperBound v) addr); [lia |]. cbn [orb].
    rewrite (FindRange_unique hhdmBase O1 _ w hs rs p addr H0 Hp Hcov). cbn [mbind res_bind].
    cbn [rangeData set_stats]. rewrite Hd.
    destruct (Flags.Has fl VmFaultFlag.Write); [rewrite P1 by reflexivity |]; simpl;
    destruct (Flags.Has fl VmFaultFlag.Execute); [rewrite P2 by reflexivity | | rewrite P2 by reflexivity |]; simpl;
    destruct (Flags.Has fl VmFaultFlag.User); try rewrite P3 by reflexivity; reflexivity.
  - intros Hno. unfold Vmm.HandleFault. destruct (_ || _); [eexists; split; [reflexivity | apply stats_only_refl] |].
    destruct (FindRange_spec hhdmBase O1 _ w hs rs addr H0) as (o & Ef & Ho). rewrite Ef. cbn [mbind res_bind].
    exists (set_stats v (count_fault (stats v))). split; [| eexists; reflexivity].
    destruct o as [p |]; [| reflexivity]. destruct Ho as [Hp Hcov]. pose proof (Hno p Hp Hcov) as Hnp. unfold permitted in Hnp.
    cbn [rangeData set_stats].
    destruct (Flags.Has fl VmFaultFlag.Write), (Flags.Has (flags (rangeData v p)) VmFlag.Write); simpl; try reflexivity;
    destruct (Flags.Has fl VmFaultFlag.Execute), (Flags.Has (flags (rangeData v p)) VmFlag.Execute); simpl; try reflexivity;
    destruct (Flags.Has fl VmFaultFlag.User), (Flags.Has (flags (rangeData v p)) VmFlag.User); simpl; try reflexivity;
    exfalso; apply Hnp; auto.
Qed.
End Contract.

(** ** The contract at work *)

Local Abbreviation d_alloc := (Vmm.Alloc demo_hhdm demo_driver demo_driver demo_driver).
Local Abbreviation d_free := (Vmm.Free demo_hhdm demo_driver demo_driver demo_driver).
Local Abbreviation d_split := (Vmm.Split demo_hhdm demo_driver demo_driver demo_driver).
Local Abbreviation d_acquire := (Vmm.AcquireMdl demo_driver demo_driver demo_driver HatGetMap demo_granularity).
Local Abbreviation d_fault := (Vmm.HandleFault demo_driver demo_driver demo_driver).
Local Abbreviation d_divided := (divided demo_hhdm demo_driver demo_driver demo_driver).
Local Abbreviation d_steps := (rtc (vmm_step demo_hhdm demo_driver demo_driver demo_driver HatGetMap demo_granularity)).

(** A writable device range. *)
Definition demo_flags : Z := Flags.flag_or VmFlag.Write VmFlag.Mmio.

(** A new address space, and one with two pages of device memory. *)
Definition demo_user : VMM * kworld :=
  match UserVmm demo_hhdm demo_granularity demo_world with Ok s => s | _ => (empty_VMM 0 0, demo_world) end.
Definition demo_one_result : res (option Z * VMM * kworld) := d_alloc (fst demo_user) (snd demo_user) 0x1800 0x200010 demo_flags no_limits.
Definition demo_one : VMM * kworld := match demo_one_result with Ok (_, v, w) => (v, w) | _ => demo_user end.
Definition demo_space (x : Z) : Prop := demo_granularity 0 <= x < u64 (not64 demo_hhdm - demo_granularity 0).

Definition is_ok {A} (x : res A) : bool := match x with Ok _ => true | _ => false end.
Lemma is_ok_inv {A} (x : res A) : is_ok x = true -> exists a, x = Ok a.
Proof. destruct x; [eauto | discriminate..]. Qed.

Definition res_fst {A B} (d : A) (x : res (A * B)) : A := match x with Ok (a, _) => a | _ => d end.

Lemma kernel_attach_offset fuel (w : kworld) r st q arg att w' st' :
  drv_Attach (KernelVmDriver fuel) w r st q arg = Ok (att, w', st') -> a_offset att = arg mod q_alignment q.
Proof.
  simpl. unfold Kernel_Attach. destruct (map_loop _ _ _ _ _ _ _ _ _); cbn [mbind res_bind]; try discriminate.
  intros [= <- _ _]. reflexivity.
Qed.

Lemma demo_user_eq : UserVmm demo_hhdm demo_granularity demo_world = Ok demo_user.
Proof.
  unfold demo_user. assert (H : is_ok (UserVmm demo_hhdm demo_granularity demo_world) = true) by (vm_compute; reflexivity).
  destruct (UserVmm _ _ _); [reflexivity | discriminate..].
Qed.

Lemma demo_one_eq : d_alloc (fst demo_user) (snd demo_user) 0x1800 0x200010 demo_flags no_limits = Ok (Some 0x1010, fst demo_one, snd demo_one).
Proof.
  assert (H : match demo_one_result with Ok (Some a, _, _) => a = 0x1010 | _ => False end) by (vm_compute; reflexivity).
  unfold demo_one. change (d_alloc _ _ _ _ _ _) with demo_one_result. destruct demo_one_result as [[[[a |] v] w] | |]; try contradiction.
  subst a. reflexivity.
Qed.

#[local] Opaque demo_user demo_one.

Lemma demo_user_space : exists p, d_divided demo_space (fst demo_user) (snd demo_user) [p] [] /\
  hlo (fst demo_user) p = demo_granularity 0 /\ hhi (fst demo_user) p = u64 (not64 demo_hhdm - demo_granularity 0).
Proof.
  apply (user_space _ _ _ _ _ demo_drivers demo_world); [exact demo_world_ok | vm_compute; split; reflexivity |].
  rewrite demo_user_eq. destruct demo_user. reflexivity.
Qed.

Lemma demo_user_divided : exists hs rs, d_divided demo_space (fst demo_user) (snd demo_user) hs rs.
Proof. destruct demo_user_space as (p & D & _). eauto. Qed.

Lemma demo_one_divided : exists hs rs, d_divided demo_space (fst demo_one) (snd demo_one) hs rs.
Proof.
  destruct demo_user_divided as (hs & rs & D).
  eapply (alloc_keeps _ _ _ _ HatGetMap _ demo_drivers); [exact D | | exact demo_one_eq]. unfold MaxRequest. lia.
Qed.

Lemma vmm_reachable_partition_witness : exists hs rs, space demo_hhdm (fst demo_one) (snd demo_one) hs rs /\
  (hole_addr (fst demo_one) hs 0x1010 \/ range_addr (fst demo_one) rs 0x1010).
Proof.
  assert (Hs : d_steps demo_user (fst demo_one, snd demo_one)).
  { apply rtc_once. rewrite (surjective_pairing demo_user). eapply vs_alloc; [| exact demo_one_eq]. unfold MaxRequest. lia. }
  rewrite (surjective_pairing demo_user) in Hs.
  destruct (vmm_reachable_partition demo_hhdm demo_driver demo_driver demo_driver HatGetMap demo_granularity demo_world (fst demo_user) (snd demo_user)
    (fst demo_one) (snd demo_one) demo_drivers demo_world_ok ltac:(vm_compute; split; reflexivity)
    ltac:(rewrite <- surjective_pairing; exact demo_user_eq) Hs) as (hs & rs & Hsp & Hall & _).
  exists hs, rs. split; [exact Hsp |]. apply Hall. vm_compute. split; [discriminate | reflexivity].
Defined.


Lemma vmm_alloc_free_roundtrip_witness : exists v w, d_free (fst demo_one) (snd demo_one) 0x1010 = Ok (true, v, w).
Proof.
  destruct demo_user_divided as (hs & rs & D).
  destruct (vmm_alloc_free_roundtrip demo_hhdm demo_driver demo_driver demo_driver HatGetMap demo_granularity demo_space (fst demo_user) (snd demo_user) hs rs 0x1800 0x200010
    demo_flags no_limits demo_driver 0x1010 (fst demo_one) (snd demo_one) demo_drivers D ltac:(unfold MaxRequest; lia) eq_refl demo_one_eq)
    as (v & w & _ & _ & E & _).
  - vm_compute. discriminate.
  - intros q w0 wa r st att w' st' Eq Hr E. rewrite Hr. assert (q = mkQuery PageSize 0x2000 0 true) as -> by exact (f_equal (res_fst q) (eq_sym Eq)).
    rewrite (kernel_attach_offset 8 wa r st _ _ att w' st' E). vm_compute. split; [discriminate | reflexivity].
  - intros p st Ep. assert (Hp : match FindRange (fst demo_one) 0x1010 with Ok (Some p) =>
       is_ok (Kernel_Detach_loop 8 (snd demo_one) st (base (rangeData (fst demo_one) p))
         (u64 (base (rangeData (fst demo_one) p) + length (rangeData (fst demo_one) p)))) = true | _ => False end) by (vm_compute; reflexivity).
    rewrite Ep in Hp. destruct (is_ok_inv _ Hp) as [[w' st'] E]. exists w', st'. simpl. unfold Kernel_Detach. rewrite E. reflexivity.
  - eauto.
Defined.

(** The two pages cut in two, and the upper one pinned. *)
Definition demo_split_result : res (option Z * VMM * kworld) := d_split (fst demo_one) (snd demo_one) 0x1010 0x1000.

Lemma vmm_split_partition_witness : exists r v w hs rs',
  d_split (fst demo_one) (snd demo_one) 0x1010 0x1000 = Ok (Some r, v, w) /\ space demo_hhdm v w hs rs'.
Proof.
  destruct demo_one_divided as (hs & rs & D).
  assert (H : match demo_split_result with Ok (Some _, _, _) => True | _ => False end) by (vm_compute; exact I).
  change (d_split _ _ _ _) with demo_split_result.
  destruct demo_split_result as [[[[r |] v] w] | |] eqn:E; try contradiction. unfold demo_split_result in E.
  destruct (vmm_split_partition demo_hhdm demo_driver demo_driver demo_driver demo_granularity demo_space (fst demo_one) (snd demo_one) hs rs 0x1010 0x1000
    (Some r) v w demo_drivers D) as (rs' & D' & _).
  - intros p Hp Hc. pose proof (FindRange_unique demo_hhdm ltac:(discriminate) _ _ _ _ p 0x1010 (dv_space _ _ _ _ _ _ _ _ _ D) Hp Hc) as Ef.
    assert (Hb : match FindRange (fst demo_one) 0x1010 with Ok (Some p) => base (rangeData (fst demo_one) p) + offset (rangeData (fst demo_one) p) = 0x1010 | _ => True end)
      by (vm_compute; reflexivity).
    rewrite Ef in Hb. rewrite Hb. unfold MaxRequest. lia.
  - exact E.
  - exists r, v, w, hs, rs'. split; [reflexivity | apply D'].
Defined.



Lemma vmm_fault_permission_witness : exists v,
  d_fault (fst demo_one) (snd demo_one) 0x900000 (Flags.of_flag VmFaultFlag.Write) = Ok (false, v, snd demo_one).
Proof.
  destruct demo_one_divided as (hs & rs & D).
  destruct (proj2 (vmm_fault_permission demo_hhdm demo_driver demo_driver demo_driver demo_granularity demo_space (fst demo_one) (snd demo_one) hs rs 0x900000
    (Flags.of_flag VmFaultFlag.Write) demo_drivers D)) as (v & E & _); [| eauto].
  intros p Hp Hc. exfalso.
  pose proof (FindRange_unique demo_hhdm ltac:(discriminate) _ _ _ _ p 0x900000 (dv_space _ _ _ _ _ _ _ _ _ D) Hp Hc) as Ef.
  assert (Hb : match FindRange (fst demo_one) 0x900000 with Ok None => True | _ => False end) by (vm_compute; exact I).
  rewrite Ef in Hb. exact Hb.
Defined.
