(* ===== verification/VmmDevice.v ===== *)
(** Device memory end to end: the virtual memory manager, the kernel driver, the page tables
    and the physical memory manager together. *)

From S2P Require Import Prelude Maths Bitmap Random Pmm PmmProofs PmmSafety RBTree RBTreeProofs RBTreeFix RBTreeOps RBTreeRemove Flags PageTable PmmMem HatX86 HatX86Proofs HatX86Spec VmmMeta Vmm VmmTree VmmProofs VmmAlloc VmmOps VmmSplit VmDrivers VmDriversProofs KernelWorld VmmSafety VmmSpec.

(** Taking a frame for metadata changes no translation. *)
Class MetaMaps (W : Type) `{!MetaPages W} `{!Hat W} (lo hi limit : Z) `{!HatLaws W lo hi limit} : Prop := {
  mm_alloc : forall w p w', mp_inv w -> hl_inv w -> mp_alloc w = Ok (p, w') ->
    hl_inv w' /\ forall x, lo <= x < hi -> HatGetMap w' x = HatGetMap w x
}.

Section Device.
Context {W : Type} `{!MetaPages W} `{!Hat W} {lo hi limit : Z} `{HL : !HatLaws W lo hi limit} `{!MetaMaps W lo hi limit}.

Lemma meta_steps_maps (w w' : W) : meta_steps w w' -> mp_inv w -> hl_inv w ->
  mp_inv w' /\ hl_inv w' /\ forall x, lo <= x < hi -> HatGetMap w' x = HatGetMap w x.
Proof.
  induction 1 as [| w1 w2 w3 [p E] _ IH]; intros Hm Hh; [auto |].
  destruct (mp_alloc_ok w1 p w2 Hm E) as (Hm2 & _). destruct (mm_alloc w1 p w2 Hm Hh E) as (Hh2 & Hx2).
  destruct (IH Hm2 Hh2) as (H1 & H2 & H3). split_and!; auto. intros x Hx. rewrite H3, Hx2 by assumption. reflexivity.
Qed.

(** The holes a device range can be carved from: whole pages of the window, not mapped. *)
Record blank (v : VMM) (w : W) (hs : list ptr) : Prop := mkBlank {
  bl_base : forall h, h ∈ hs -> hlo v h mod PageSize = 0;
  bl_window : forall h, h ∈ hs -> lo <= hlo v h /\ hhi v h <= hi;
  bl_unmapped : forall x, hole_addr v hs x -> HatGetMap w x = None
}.

Lemma query_length_aligned len fl : 0 < len <= MaxRequest -> query_length len fl PageSize mod PageSize = 0.
Proof.
  intros Hl. unfold query_length, MaxRequest, PageSize in *.
  destruct (AlignUp_spec len 4096) as [Hr Ha]; [lia | lia | unfold two64; lia |].
  destruct (Flags.Has fl VmFlag.Guarded); [| assumption].
  rewrite u64_small by (unfold two64; lia). rewrite <- Z.add_mod_idemp_l, Ha by lia. reflexivity.
Qed.

Lemma AlignDown_page a : 0 <= a < two64 -> AlignDown a PageSize mod PageSize = 0 /\ 0 <= AlignDown a PageSize <= a /\
  a = AlignDown a PageSize + a mod PageSize.
Proof.
  intros Ha. unfold AlignDown, PageSize. pose proof (Z.div_mod a 4096). pose proof (Z.mod_pos_bound a 4096).
  rewrite u64_small by lia. split; [apply Z.mod_mul; lia | lia].
Qed.

Variable hhdmBase : Z.
Variable fuel : nat.
Variable anonDriver vfsDriver : VmDriver W.
Variable gran : Z -> Z.
Local Abbreviation driver := (KernelVmDriver (W := W) fuel).
Local Abbreviation Alloc := (Vmm.Alloc hhdmBase anonDriver vfsDriver driver).
Local Abbreviation Free := (Vmm.Free hhdmBase anonDriver vfsDriver driver).
Local Abbreviation GetDriver := (Vmm.GetDriver anonDriver vfsDriver driver).
Local Abbreviation system_ok := (drivers_ok hhdmBase anonDriver vfsDriver driver gran).
Local Abbreviation divided := (divided hhdmBase anonDriver vfsDriver driver).

(** The length the driver rounds a request to. *)
Local Abbreviation rounded len fl := (query_length len fl PageSize).

(** What a successful allocation of device memory leaves behind. *)
Definition device_mapped (w w1 : W) (len arg fl a : Z) : Prop :=
  let b := AlignDown a PageSize in
  lo <= b /\ b + rounded len fl <= hi /\ a = b + arg mod PageSize /\
  (forall x, b <= x < b + rounded len fl -> HatGetMap w1 x = Some (AlignDown arg PageSize + (x - b), 0)) /\
  (forall x, lo <= x < hi -> ~ (b <= x < b + rounded len fl) -> HatGetMap w1 x = HatGetMap w x).

Lemma page_base b off : 0 <= b -> b + off < two64 -> b mod PageSize = 0 -> 0 <= off < PageSize -> AlignDown (b + off) PageSize = b.
Proof.
  intros Hb Hs Hm Ho. unfold AlignDown, PageSize in *. rewrite u64_small.
  - rewrite (Z.div_mod b 4096), Hm at 1 by lia. rewrite Z.add_0_r, (Z.mul_comm 4096), Z.div_add_l, (Z.div_small off) by lia.
    pose proof (Z.div_mod b 4096 ltac:(lia)). lia.
  - pose proof (Z.div_mod (b + off) 4096 ltac:(lia)). pose proof (Z.mod_pos_bound (b + off) 4096 ltac:(lia)).
    assert (0 <= (b + off) / 4096) by (apply Z.div_pos; lia). lia.
Qed.

Lemma device_alloc F v w hs rs len arg fl limits a v1 w1 :
  system_ok -> divided F v w hs rs -> blank v w hs -> hl_inv w -> limit <= two64 ->
  0 < len <= MaxRequest -> GetDriver fl = Some driver -> 0 <= arg < two64 -> AlignDown arg PageSize + rounded len fl <= limit ->
  Alloc v w len arg fl limits = Ok (Some a, v1, w1) ->
  hl_inv w1 /\ mp_inv w1 /\ device_mapped w w1 len arg fl a /\
  (forall x, AlignDown a PageSize <= x < AlignDown a PageSize + rounded len fl -> HatGetMap w x = None) /\
  exists hs1 rs1 p, space hhdmBase v1 w1 hs1 rs1 /\ p ∈ rs1 /\ range_covers v1 p a /\
    base (rangeData v1 p) = AlignDown a PageSize /\ length (rangeData v1 p) = rounded len fl /\ flags (rangeData v1 p) = fl.
Proof.
  intros Hok D Hbl Hh Hlim Hlen Hd Harg Hroom E. pose proof (dv_space _ _ _ _ _ _ _ _ _ D) as H.
  destruct (alloc_inv _ _ _ _ _ Hok v w hs rs len arg fl limits driver _ v1 w1 H Hlen Hd E) as (q & w0 & hs1 & rs1 & Eq & H1 & Ho).
  simpl in Eq. unfold Kernel_Query in Eq. rewrite hl_granule in Eq. injection Eq as <- <-.
  destruct Ho as (h & p & off & tok & Hf & Hperm & Hp & -> & _ & _ & (wa & st & st' & Hms & Eat)). cbn [q_length q_alignment] in *.
  destruct (meta_steps_maps _ _ Hms (sp_pages _ _ _ _ _ H) Hh) as (Hma & Hha & Hxa).
  destruct (head_fits _ _ _ _ Hf) as [Hin Hfit]. destruct (bl_window _ _ _ Hbl h Hin) as [W1 W2]. pose proof (bl_base _ _ _ Hbl h Hin) as Wa.
  pose proof hl_window as [[L1 L2] L3]. pose proof (query_length_pos len fl PageSize ltac:(unfold PageSize; lia) Hlen) as Hpos.
  unfold hhi in W2. fold (hlo v h) in W2. pose proof (query_length_aligned len fl Hlen) as Hal.
  assert (Hnone : forall x, hlo v h <= x < hlo v h + rounded len fl -> HatGetMap w x = None)
    by (intros x Hx; eapply (bl_unmapped _ _ _ Hbl), first_fit_addr; eassumption).
  assert (Hr : range_ok (lo := lo) (hi := hi) (mkRange (hlo v h) (rounded len fl) fl 0 0 0)) by (constructor; simpl; lia).
  destruct (Kernel_Attach_maps fuel wa _ st (mkQuery PageSize (rounded len fl) 0 true) arg _ w1 st' Hha Hr eq_refl eq_refl Harg Hlim Hroom
    ltac:(simpl; intros x Hx; rewrite Hxa by lia; auto) Eat) as (Hh1 & Ea & _ & Hmap).
  cbn [base length] in Hmap. injection Ea as -> ->.
  assert (Ho : 0 <= arg mod PageSize < PageSize) by (apply Z.mod_pos_bound; reflexivity).
  assert (Hge : PageSize <= rounded len fl) by (unfold PageSize in *; Z.div_mod_to_equations; lia).
  assert (Eb : AlignDown (u64 (hlo v h + arg mod PageSize)) PageSize = hlo v h)
    by (rewrite u64_small by lia; apply page_base; lia).
  split; [assumption |]. split; [apply H1 |]. split; [| split; [rewrite Eb; exact Hnone |]].
  - unfold device_mapped. rewrite Eb. split_and!; [lia | lia | apply u64_small; lia | |].
    + intros x Hx. rewrite Hmap by lia. destruct (Z.leb_spec (hlo v h) x), (Z.ltb_spec x (hlo v h + rounded len fl)); try lia. reflexivity.
    + intros x Hx Hn. rewrite Hmap, <- Hxa by lia.
      destruct (Z.leb_spec (hlo v h) x), (Z.ltb_spec x (hlo v h + rounded len fl)); try lia; reflexivity.
  - exists hs1, rs1, p. rewrite Eb. split_and!; [assumption | rewrite Hperm; left | | rewrite Hp; reflexivity ..].
    unfold range_covers, rlo, rhi. rewrite Hp. cbn [base length]. rewrite u64_small by lia. lia.
Qed.

(** C15: device memory, end to end. Where the holes are unmapped pages, a successful [Alloc]
    through the kernel driver returns an address whose page tables translate every byte of
    the new range, offset included, to the device's physical address, and no other address
    changes its translation; a successful [Free] takes exactly those translations back. *)
Theorem vmm_device_mapping F v w hs rs len arg fl limits a v1 w1 :
  system_ok -> divided F v w hs rs -> blank v w hs -> hl_inv w -> limit <= two64 ->
  0 < len <= MaxRequest -> GetDriver fl = Some driver -> 0 <= arg < two64 -> AlignDown arg PageSize + rounded len fl <= limit ->
  Alloc v w len arg fl limits = Ok (Some a, v1, w1) ->
  device_mapped w w1 len arg fl a /\
  forall v2 w2, Free v1 w1 a = Ok (true, v2, w2) -> forall x, lo <= x < hi -> HatGetMap w2 x = HatGetMap w x.
Proof.
  intros Hok D Hbl Hh Hlim Hlen Hd Harg Hroom E.
  destruct (device_alloc F v w hs rs len arg fl limits a v1 w1 Hok D Hbl Hh Hlim Hlen Hd Harg Hroom E)
    as (Hh1 & Hm1 & Hdm & Hnone & hs1 & rs1 & p & H1 & Hp & Hcov & Eb & El & Efl). split; [assumption |].
  intros v2 w2 Ef. pose proof Hok as [O1 O2 [A1 _] [A2 _] [A3 _] _].
  destruct (Free_spec hhdmBase O1 O2 anonDriver vfsDriver driver A1 A2 A3 v1 w1 hs1 rs1 a true v2 w2 H1 Ef)
    as (hs2 & rs2 & H2 & _ & _ & p' & Hcov' & _ & Hperm & _ & (drv & wb & st & st' & Hdr & Edt & Hms)).
  assert (p' = p) as -> by (eapply (same_range hhdmBase v1); [exact H1 | rewrite Hperm; left | assumption | exact Hcov' | exact Hcov]).
  rewrite Efl, Hd in Hdr. injection Hdr as <-. simpl in Edt. unfold Kernel_Detach in Edt.
  destruct Hdm as (W1 & W2 & _ & Hmap & Hother). rewrite Eb, El in Edt. set (b := AlignDown a PageSize) in *.
  pose proof hl_window as [[L1 L2] L3]. pose proof (query_length_pos len fl PageSize ltac:(unfold PageSize; lia) Hlen) as Hpos.
  pose proof (query_length_aligned len fl Hlen) as Hal.
  assert (Ha : 0 <= a < two64).
  { pose proof (sp_rin _ _ _ _ _ H1 p Hp). pose proof (sp_bounds _ _ _ _ _ H1). unfold range_covers, inside in *. lia. }
  assert (Hb0 : b mod PageSize = 0) by (apply AlignDown_page; assumption).
  rewrite u64_small in Edt by lia.
  destruct (Kernel_Detach_loop fuel w1 st b (b + rounded len fl)) as [[wc sc] | |] eqn:El'; cbn [mbind res_bind] in Edt; try discriminate.
  injection Edt as <- <-.
  destruct (Kernel_Detach_loop_unmaps (b + rounded len fl)
    ltac:(rewrite Z.add_mod, Hb0, Hal by (unfold PageSize; lia); reflexivity) W2 fuel w1 st b wc sc Hh1 ltac:(lia) Hb0 El') as (Hhc & Hun).
  assert (Hmc : mp_inv wc).
  { pose proof (dk_detach _ A3 w1 (rangeData v1 p) st true wc sc Hm1) as Hk. simpl in Hk. unfold Kernel_Detach in Hk.
    rewrite Eb, El, u64_small, El' in Hk by lia. apply Hk. reflexivity. }
  destruct (meta_steps_maps _ _ Hms Hmc Hhc) as (_ & _ & Hx2).
  intros x Hx. rewrite Hx2, Hun by assumption.
  destruct (Z.leb_spec b x), (Z.ltb_spec x (b + rounded len fl)); simpl; try (apply Hother; lia).
  rewrite Hnone by lia. reflexivity.
Qed.
End Device.

(** ** On the concrete machine *)

(** The user half of the address space. *)
Definition demo_lo : Z := demo_granularity 0.
Definition demo_hi : Z := u64 (not64 demo_hhdm - demo_granularity 0).

Lemma demo_window : 0 <= demo_lo < demo_hi /\ demo_hi < two64.
Proof. vm_compute. repeat split; congruence. Qed.
Lemma demo_window_size : demo_hi - demo_lo + PageSize <= 2 ^ (12 + 9 * Z.of_nat (X86.pagingLevels hat_mmu)).
Proof. vm_compute. discriminate. Qed.

#[export] Instance demo_laws : HatLaws kworld demo_lo demo_hi (2 ^ (12 + 9 * Z.of_nat (X86.pagingLevels hat_mmu))) :=
  kworld_laws demo_hhdm hat_mmu hat_mmu_ok demo_modes demo_lo demo_hi demo_window demo_window_size.

#[export] Instance demo_meta_maps : MetaMaps kworld demo_lo demo_hi (2 ^ (12 + 9 * Z.of_nat (X86.pagingLevels hat_mmu))).
Proof.
  constructor. intros w p w' Hm [Hk Hs] E. destruct (mp_alloc_ok w p w' Hm E) as (Hm' & _).
  pose proof (kworld_meta_maps demo_hhdm hat_mmu hat_mmu_ok demo_modes w p w' Hk E) as Hx.
  split; [split; [exact Hm' |] | auto]. intros v q m Hv Eg. specialize (Hx v). simpl in Hx. rewrite Eg in Hx.
  destruct (X86.HatGetMap hat_mmu (k_pmm w) (k_map w) v) as [[q' m'] |] eqn:Eg'; [| discriminate].
  simpl in Hx. injection Hx as -> Hm2. rewrite (Hs v q' m' Hv Eg') in Hm2. lia.
Qed.

Lemma fresh_unmapped x : X86.HatGetMap (hhdmBase := demo_hhdm) hat_mmu (fst hat_fresh) (snd hat_fresh) x = None.
Proof.
  unfold hat_fresh. destruct (Pmm.Alloc demo_hhdm hat_pmm 1) as [[rt s] | |] eqn:E; [| vm_compute in E; discriminate ..].
  destruct hat_mmu_ok as [O1 O2 O3 O4].
  destruct (X86Spec.fresh_tables (hhdmBase := demo_hhdm) hat_mmu O1 O2 O3 hat_pmm rt s hat_pmm_ready E) as (_ & _ & Hn).
  cbn [fst snd]. apply Hn.
Qed.

Lemma demo_world_unmapped x : HatGetMap demo_world x = None.
Proof.
  change (HatGetMap demo_world x) with
    (option_map (fun y => (fst y, Z.of_nat (snd y))) (X86.HatGetMap (hhdmBase := demo_hhdm) hat_mmu (fst hat_fresh) (snd hat_fresh) x)).
  rewrite fresh_unmapped. reflexivity.
Qed.

Lemma demo_user_unmapped : hl_inv (snd demo_user) /\ forall x, demo_lo <= x < demo_hi -> HatGetMap (snd demo_user) x = None.
Proof.
  assert (Hs : meta_steps demo_world (snd demo_user)).
  { apply (user_steps demo_hhdm demo_granularity demo_world (fst demo_user)). rewrite demo_user_eq. destruct demo_user. reflexivity. }
  assert (H0 : hl_inv demo_world).
  { split; [exact demo_world_ok |]. intros v p m _ E. pose proof (eq_trans (eq_sym E) (fresh_unmapped v)). discriminate. }
  destruct (meta_steps_maps _ _ Hs demo_world_ok H0) as (_ & Hh & Hx). split; [assumption |].
  intros x Hr. rewrite Hx by assumption. apply demo_world_unmapped.
Qed.

Lemma vmm_device_mapping_witness : HatGetMap (snd demo_one) 0x1010 = Some (0x200010, 0) /\ HatGetMap (snd demo_one) 0x280f = Some (0x20180f, 0).
Proof.
  destruct demo_user_space as (p & D & Hlo & Hhi). destruct demo_user_unmapped as [Hh Hn].
  assert (Hbl : blank (lo := demo_lo) (hi := demo_hi) (fst demo_user) (snd demo_user) [p]).
  { constructor.
    - intros h ->%list_elem_of_singleton. rewrite Hlo. reflexivity.
    - intros h ->%list_elem_of_singleton. rewrite Hlo, Hhi. unfold demo_lo, demo_hi. lia.
    - intros x (h & ->%list_elem_of_singleton & Hx). rewrite Hlo, Hhi in Hx. apply Hn. exact Hx. }
  destruct (vmm_device_mapping demo_hhdm 8 demo_driver demo_driver demo_granularity demo_space (fst demo_user) (snd demo_user) [p] [] 0x1800 0x200010
    demo_flags no_limits 0x1010 (fst demo_one) (snd demo_one) demo_drivers D Hbl Hh
    ltac:(vm_compute; discriminate) ltac:(unfold MaxRequest; lia) eq_refl ltac:(unfold two64; lia) ltac:(vm_compute; discriminate) demo_one_eq)
    as [(_ & _ & _ & Hmap & _) _].
  split; (rewrite Hmap by (vm_compute; split; [discriminate | reflexivity])); reflexivity.
Defined.
