(* ===== verification/VmmDefects.v ===== *)
(** Where the virtual memory manager and its drivers do not do what they mean to: copying out
    of an address space, destroying one, detaching anonymous memory, and device memory that
    does not start at a page boundary. *)

From S2P Require Import Prelude Maths Bitmap Random Pmm PmmSafety RBTree Flags PageTable PmmMem HatX86 HatX86Spec VmmMeta Vmm VmDrivers KernelWorld VmmSpec VmmDevice.

Section Defects.
Context {W : Type} `{!MetaPages W}.
Variable HatGetMap : W -> Z -> option (Z * Z).
Variable copy_from_phys : W -> Z -> Z -> Z -> W.

(** C20: [CopyOut] never finishes: where the first byte is mapped, the copying loop does not
    advance its count, so no number of rounds ends it. *)
Theorem copy_out_never_finishes fuel w localBase foreignBase len :
  (forall w p l n, HatGetMap (copy_from_phys w p l n) = HatGetMap w) -> 0 < len ->
  HatGetMap w (u64 foreignBase) <> None ->
  CopyOut HatGetMap copy_from_phys fuel w localBase foreignBase len = OutOfFuel.
Proof.
  intros Hc Hl. unfold CopyOut. revert w localBase. induction fuel as [| fuel IH]; intros w local Hm; cbn [CopyOut_loop];
    (destruct (Z.ltb_spec 0 len); [| lia]); [reflexivity |].
  rewrite Z.add_0_r. destruct (HatGetMap w (u64 foreignBase)) as [[phys mode] |] eqn:E; [| congruence].
  apply IH. rewrite Hc. congruence.
Qed.

End Defects.

Lemma copy_out_never_finishes_witness :
  CopyOut (fun (_ : kworld) x => Some (x, 0)) (fun w _ _ _ => w) 40 demo_world 0x5000 0x1000 16 = OutOfFuel.
Proof. apply (copy_out_never_finishes (fun (_ : kworld) x => Some (x, 0)) (fun w _ _ _ => w)); [reflexivity | lia | discriminate]. Defined.

(** An anonymous range of two pages, backed at once. *)
Definition anon_plain : AnonVmDriver := mkAnon 0 false false.
Definition anon_range : VmRange := mkRange 0x10000 0x2000 (Flags.flag_or VmFlag.Write VmFlag.Anon) 0 0 0.

Definition anon_attach_detach : res (option (Z * Z) * option (Z * Z) * option (Z * Z)) :=
  '(att, w, st) ← Anon_Attach anon_plain true 8 demo_world anon_range no_stats (mkQuery PageSize 0x2000 0 true) 0;
  let before := HatGetMap w 0x11000 in
  '(_, w, _) ← Anon_Detach anon_plain 8 w anon_range st;
  Ok (before, HatGetMap w 0x10000, HatGetMap w 0x11000).

(** Detaching anonymous memory unmaps the first page in every round: of a range of two
    backed pages the second stays mapped to its frame. *)
Theorem anon_detach_leaves_second_page :
  match anon_attach_detach with
  | Ok (before, first, second) => first = None /\ second = before /\ second <> None
  | _ => False
  end.
Proof. vm_compute. split; [reflexivity |]. split; [reflexivity | discriminate]. Qed.

(** A page of device memory that starts 16 bytes into a physical page. *)
Definition short_device : res (option Z * VMM * kworld) :=
  Vmm.Alloc demo_hhdm demo_driver demo_driver demo_driver (fst demo_user) (snd demo_user) 0x1000 0x200010 demo_flags no_limits.

(** The kernel driver does not count the offset into the first page: of 0x1000 bytes of
    device memory asked for at a physical address inside a page, the last ones are not
    mapped, although [Alloc] succeeds. *)
Theorem unaligned_device_is_cut_short :
  match short_device with
  | Ok (Some a, _, w) => HatGetMap w a = Some (0x200010, 0) /\ HatGetMap w (a + 0xFFF) = None
  | _ => False
  end.
Proof. vm_compute. split; reflexivity. Qed.
