(* ===== verification/Queue.v ===== *)
(** [libs/np-syslib/include/containers/Queue.h]: the lock-free queue with many producers and one
    consumer that holds the deferred procedure calls of a core. [Push] and [Pop] are the calls run
    alone; the step relation interleaves them, one shared access per step. *)

From stdpp Require Import functions relations.
From S2P Require Import Prelude.

Module Mpsc.
Section Queue.
(** The address of the [stub] member; [nullptr] is 0. *)
Variable stub : Z.

(** The [next] field of every item, [head] (the newest item) and [tail] (the oldest). *)
Record QueueMpSc : Type := mkQueue { q_next : Z -> Z; q_head : Z; q_tail : Z }.

Definition set_next (p v : Z) (q : QueueMpSc) : QueueMpSc := mkQueue (<[p := v]> (q_next q)) (q_head q) (q_tail q).
Definition set_head (p : Z) (q : QueueMpSc) : QueueMpSc := mkQueue (q_next q) p (q_tail q).
Definition set_tail (p : Z) (q : QueueMpSc) : QueueMpSc := mkQueue (q_next q) (q_head q) p.

(** The constructed queue, over items whose constructor has cleared [next]. *)
Definition init : QueueMpSc := mkQueue (fun _ => 0) stub stub.

Definition Push (item : Z) (q : QueueMpSc) : QueueMpSc :=
  let q := set_next item 0 q in
  let prev := q_head q in
  let q := set_head item q in
  set_next prev item q.

(** The second half of [Pop], at an item that is not the stub. The result is the popped item, 0 when
    there is none. *)
Definition pop_from (q : QueueMpSc) (end_ : Z) : Z * QueueMpSc :=
  let next := q_next q end_ in
  if negb (next =? 0) then (end_, set_tail next q)
  else
    let begin_ := q_head q in
    if negb (end_ =? begin_) then (0, q)
    else
      let q := Push stub q in
      let next := q_next q end_ in
      if negb (next =? 0) then (end_, set_tail next q) else (0, q).

Definition Pop (q : QueueMpSc) : Z * QueueMpSc :=
  let end_ := q_tail q in
  let next := q_next q end_ in
  if end_ =? stub then
    if next =? 0 then (0, q)
    else pop_from (set_tail next q) next
  else pop_from q end_.

(** ** Interleaved calls *)

(** Where a producer is in [Push]: about to clear [item->next], to exchange [head], or to link the
    previous head to the item. *)
Inductive producer : Type :=
| Clearing (item : Z)
| Exchanging (item : Z)
| Linking (prev item : Z).

Definition item_of (p : producer) : Z :=
  match p with Clearing i => i | Exchanging i => i | Linking _ i => i end.

(** Where the consumer is in [Pop], with its local variables [end] and [next]. *)
Inductive consumer : Type :=
| Idle
| LoadNext
| Advance (end_ : Z)
| Decide (end_ next : Z)
| LoadHead (end_ : Z)
| ClearStub (end_ : Z)
| ExchangeStub (end_ : Z)
| LinkStub (end_ prev : Z)
| Reload (end_ : Z).

(** The history variables [pushed] and [popped] list the items in the order of the exchanges of
    [head] and of the returns of [Pop]. *)
Record world : Type := mkWorld {
  queue : QueueMpSc;
  producers : gmap nat producer;
  popping : consumer;
  pushed : list Z;
  popped : list Z
}.

Definition start : world := mkWorld init ∅ Idle [] [].

(** [Pop] returns [end], having moved [tail] past it. *)
Definition take_end (w : world) (end_ next : Z) : world :=
  mkWorld (set_tail next (queue w)) (producers w) Idle (pushed w) (popped w ++ [end_]).

Definition at_ (w : world) (q : QueueMpSc) (c : consumer) : world := mkWorld q (producers w) c (pushed w) (popped w).

(** The next step of the consumer. *)
Definition consume (w : world) : world :=
  let q := queue w in
  match popping w with
  | Idle => at_ w q LoadNext
  | LoadNext =>
      let end_ := q_tail q in
      let next := q_next q end_ in
      if end_ =? stub then
        if next =? 0 then at_ w q Idle else at_ w (set_tail next q) (Advance next)
      else at_ w q (Decide end_ next)
  | Advance end_ => at_ w q (Decide end_ (q_next q end_))
  | Decide end_ next => if negb (next =? 0) then take_end w end_ next else at_ w q (LoadHead end_)
  | LoadHead end_ => if negb (end_ =? q_head q) then at_ w q Idle else at_ w q (ClearStub end_)
  | ClearStub end_ => at_ w (set_next stub 0 q) (ExchangeStub end_)
  | ExchangeStub end_ => at_ w (set_head stub q) (LinkStub end_ (q_head q))
  | LinkStub end_ prev => at_ w (set_next prev stub q) (Reload end_)
  | Reload end_ => let next := q_next q end_ in if negb (next =? 0) then take_end w end_ next else at_ w q Idle
  end.

(** The next step of a producer, which leaves when it is done. *)
Definition produce (w : world) (t : nat) (p : producer) : world :=
  let q := queue w in
  match p with
  | Clearing i => mkWorld (set_next i 0 q) (<[t := Exchanging i]> (producers w)) (popping w) (pushed w) (popped w)
  | Exchanging i => mkWorld (set_head i q) (<[t := Linking (q_head q) i]> (producers w)) (popping w) (pushed w ++ [i]) (popped w)
  | Linking prev i => mkWorld (set_next prev i q) (delete t (producers w)) (popping w) (pushed w) (popped w)
  end.

(** The items that are in the queue. *)
Definition contents (w : world) : list Z := drop (length (popped w)) (pushed w).

(** A caller pushes an item that is neither queued nor being pushed. *)
Definition fresh (w : world) (item : Z) : Prop :=
  item <> 0 /\ item <> stub /\ (item ∉ contents w) /\ forall t p, producers w !! t = Some p -> item_of p <> item.

Inductive step (w : world) : world -> Prop :=
| step_call t item : producers w !! t = None -> fresh w item ->
    step w (mkWorld (queue w) (<[t := Clearing item]> (producers w)) (popping w) (pushed w) (popped w))
| step_produce t p : producers w !! t = Some p -> step w (produce w t p)
| step_consume : step w (consume w).
End Queue.
End Mpsc.
