(* ===== verification/QueueProofs.v ===== *)
(** The queue of [Queue.v] is a queue: items leave in the order in which they entered, whatever the
    interleaving, and none is lost. *)

From stdpp Require Import functions relations.
From S2P Require Import Prelude Queue.
Import Mpsc.

Section Proofs.
Variable stub : Z.
Hypothesis stub_ok : stub <> 0.

(** [a] is directly in front of [b]. *)
Definition adjacent (l : list Z) (a b : Z) : Prop := exists l1 l2, l = l1 ++ a :: b :: l2.

(** A link that some thread still has to write. *)
Definition pending (w : world) (a b : Z) : Prop :=
  (exists t, producers w !! t = Some (Linking a b)) \/ (exists e, popping w = LinkStub e a /\ b = stub).

(** What the consumer relies on; [l] is the chain of items from [tail] to [head]. *)
Definition consumer_ok (l : list Z) (w : world) : Prop :=
  let at_end e := e = q_tail (queue w) /\ e <> stub in
  match popping w with
  | Idle | LoadNext => True
  | Advance e => at_end e
  | Decide e n => at_end e /\ (n <> 0 -> q_next (queue w) e = n)
  | LoadHead e => at_end e
  | ClearStub e => at_end e /\ (stub ∉ l)
  | ExchangeStub e => at_end e /\ (stub ∉ l) /\ q_next (queue w) stub = 0
  | LinkStub e _ => at_end e
  | Reload e => at_end e
  end.

(** What a producer relies on. *)
Definition producer_ok (l : list Z) (next : Z -> Z) (p : producer) : Prop :=
  item_of p <> 0 /\ item_of p <> stub /\
  match p with Clearing i => i ∉ l | Exchanging i => (i ∉ l) /\ next i = 0 | Linking _ _ => True end.

Definition producers_ok (l : list Z) (w : world) : Prop :=
  (forall t p, producers w !! t = Some p -> producer_ok l (q_next (queue w)) p) /\
  (forall t t' p p', producers w !! t = Some p -> producers w !! t' = Some p' -> item_of p = item_of p' -> t = t').

Record chain (l : list Z) (w : world) : Prop := mkChain {
  ch_tail : head l = Some (q_tail (queue w));
  ch_head : last l = Some (q_head (queue w));
  ch_nodup : NoDup l;
  ch_null : 0 ∉ l;
  ch_end : q_next (queue w) (q_head (queue w)) = 0;
  ch_link : forall a b, adjacent l a b -> q_next (queue w) a = b \/ (q_next (queue w) a = 0 /\ pending w a b);
  ch_pending : forall a b, pending w a b -> adjacent l a b /\ q_next (queue w) a = 0;
  ch_producers : producers_ok l w;
  ch_history : pushed w = popped w ++ filter (fun x => x <> stub) l;
  ch_consumer : consumer_ok l w
}.

(** ** Chains *)

Lemma adjacent_elem l a b : adjacent l a b -> a ∈ l /\ b ∈ l.
Proof. intros (l1 & l2 & ->). set_solver. Qed.

Lemma adjacent_last l x a b : NoDup (l ++ [x]) -> adjacent (l ++ [x]) a b -> a <> x.
Proof.
  intros Hnd (l1 & l2 & E) ->.
  assert (H : last (x :: b :: l2) = Some x) by (rewrite <- (last_app_cons l1), <- E; apply last_snoc).
  rewrite E in Hnd. apply NoDup_app in Hnd as (_ & _ & Hnd). apply NoDup_cons in Hnd as [Hx _].
  apply Hx. rewrite last_cons_cons in H. apply last_Some_elem_of. assumption.
Qed.

Lemma adjacent_fun l a b c : NoDup l -> adjacent l a b -> adjacent l a c -> b = c.
Proof.
  intros Hnd (l1 & l2 & E) (l3 & l4 & E').
  assert (H1 : l !! length l1 = Some a /\ l !! S (length l1) = Some b).
  { rewrite E. split; [apply list_lookup_middle; reflexivity |]. rewrite (cons_middle a), app_assoc. apply list_lookup_middle. rewrite length_app. simpl. lia. }
  assert (H2 : l !! length l3 = Some a /\ l !! S (length l3) = Some c).
  { rewrite E'. split; [apply list_lookup_middle; reflexivity |]. rewrite (cons_middle a), app_assoc. apply list_lookup_middle. rewrite length_app. simpl. lia. }
  pose proof (NoDup_lookup _ _ _ _ Hnd (proj1 H1) (proj1 H2)) as El. rewrite El in H1. destruct H1, H2. congruence.
Qed.

Lemma adjacent_snoc l x a b : adjacent (l ++ [x]) a b -> adjacent l a b \/ (last l = Some a /\ b = x).
Proof.
  intros (l1 & l2 & E). destruct l2 as [| y l2 _] using rev_ind.
  - right. rewrite (app_assoc l1 [a] [b] : l1 ++ [a; b] = (l1 ++ [a]) ++ [b]) in E. apply app_inj_tail in E as [-> ->].
    split; [apply last_snoc | reflexivity].
  - left. exists l1, l2. rewrite !app_comm_cons, app_assoc in E. apply app_inj_tail in E as [-> _]. reflexivity.
Qed.

Lemma adjacent_app l l' a b : adjacent l a b -> adjacent (l ++ l') a b.
Proof. intros (l1 & l2 & ->). exists l1, (l2 ++ l'). rewrite <- app_assoc. reflexivity. Qed.

Lemma adjacent_join l x a : last l = Some a -> adjacent (l ++ [x]) a x.
Proof. intros (l1 & ->)%last_Some. exists l1, []. rewrite <- app_assoc. reflexivity. Qed.

Lemma adjacent_cons l x a b : adjacent l a b -> adjacent (x :: l) a b.
Proof. intros (l1 & l2 & ->). exists (x :: l1), l2. reflexivity. Qed.

Lemma adjacent_tail l x a b : adjacent (x :: l) a b -> adjacent l a b \/ (a = x /\ head l = Some b).
Proof.
  intros ([| y l1] & l2 & E); injection E as -> E; [right; rewrite E; split; reflexivity |].
  left. exists l1, l2. assumption.
Qed.

(** ** The consumer *)

Definition linking (c : consumer) : bool := match c with LinkStub _ _ => true | _ => false end.

Lemma pending_quiet w w' : producers w' = producers w -> linking (popping w) = false -> linking (popping w') = false ->
  forall a b, pending w' a b <-> pending w a b.
Proof.
  intros Hp Hc Hc' a b. unfold pending. rewrite Hp. split; (intros [? | (e & E & ->)]; [left; assumption |]).
  - rewrite E in Hc'. discriminate.
  - rewrite E in Hc. discriminate.
Qed.

Lemma chain_move l w c : chain l w -> linking (popping w) = false -> linking c = false ->
  consumer_ok l (at_ w (queue w) c) -> chain l (at_ w (queue w) c).
Proof.
  intros [] Hc Hc' Hok. pose proof (pending_quiet w (at_ w (queue w) c) eq_refl Hc Hc') as Hp.
  constructor; try assumption.
  - intros a b Hab. rewrite Hp. apply ch_link0. assumption.
  - intros a b Hab. apply ch_pending0, Hp. assumption.
Qed.

Lemma chain_front l w n : chain l w -> q_next (queue w) (q_tail (queue w)) = n -> n <> 0 ->
  exists l', l = q_tail (queue w) :: n :: l'.
Proof.
  intros [] Hn Hne. destruct l as [| e [| b l']]; [discriminate | |]; injection ch_tail0 as ->.
  - injection ch_head0 as E. rewrite <- E in ch_end0. congruence.
  - exists l'. destruct (ch_link0 (q_tail (queue w)) b) as [E | [E _]]; [exists [], l'; reflexivity | congruence | congruence].
Qed.

(** [tail] moves past an item whose successor is linked. *)
Lemma chain_advance e n l w c popped' : chain (e :: n :: l) w -> q_next (queue w) e = n -> n <> 0 ->
  linking (popping w) = false -> linking c = false ->
  pushed w = popped' ++ filter (fun x => x <> stub) (n :: l) ->
  let w' := mkWorld (set_tail n (queue w)) (producers w) c (pushed w) popped' in
  consumer_ok (n :: l) w' -> chain (n :: l) w'.
Proof.
  intros [] Hn Hne Hc Hc' Hh w' Hok. pose proof (pending_quiet w w' eq_refl Hc Hc') as Hp.
  constructor; simpl; try assumption.
  - reflexivity.
  - apply NoDup_cons in ch_nodup0. apply ch_nodup0.
  - set_solver.
  - intros a b Hab. rewrite Hp. apply ch_link0, adjacent_cons. assumption.
  - intros a b Hab. apply Hp, ch_pending0 in Hab as [Hab Ha]. split; [| assumption].
    apply adjacent_tail in Hab as [Hab | [-> _]]; [assumption | congruence].
  - destruct ch_producers0 as [P1 P2]. split; [| exact P2].
    intros t p Hp'. destruct (P1 t p Hp') as (H1 & H2 & H3). split; [assumption |]. split; [assumption |]. destruct p; set_solver.
Qed.

Lemma chain_tail_elem l w : chain l w -> q_tail (queue w) ∈ l.
Proof. intros []. destruct l as [| e l]; [discriminate |]. injection ch_tail0 as <-. left. Qed.

Lemma chain_single l w : chain l w -> q_tail (queue w) = q_head (queue w) -> l = [q_tail (queue w)].
Proof.
  intros [] E. destruct l as [| e l]; [discriminate |]. injection ch_tail0 as ->.
  destruct l as [| b l]; [reflexivity |]. exfalso. rewrite last_cons_cons in ch_head0.
  apply NoDup_cons in ch_nodup0 as [Hnot _]. apply Hnot. rewrite E. apply last_Some_elem_of. assumption.
Qed.

Lemma chain_decide l w e : chain l w -> linking (popping w) = false -> e = q_tail (queue w) -> e <> stub ->
  chain l (at_ w (queue w) (Decide e (q_next (queue w) e))).
Proof. intros Hch Hc He Hs. apply chain_move; [assumption .. | reflexivity |]. split; [split |]; auto. Qed.

Lemma chain_take l w e n : chain l w -> linking (popping w) = false -> e = q_tail (queue w) -> e <> stub ->
  q_next (queue w) e = n -> n <> 0 -> exists l', chain l' (take_end w e n).
Proof.
  intros Hch Hc -> Hs Hn Hne. destruct (chain_front l w n Hch Hn Hne) as [l' ->]. exists (n :: l').
  apply (chain_advance (q_tail (queue w))); try assumption; try reflexivity.
  rewrite (ch_history _ _ Hch), filter_cons_True, <- app_assoc by assumption. reflexivity.
Qed.


(** ** Writes that both sides make *)

(** [head] is exchanged for [x]. *)
Lemma chain_append l w w' x : chain l w -> (x ∉ l) -> x <> 0 -> q_next (queue w) x = 0 ->
  queue w' = set_head x (queue w) ->
  (forall a b, pending w' a b <-> pending w a b \/ (a = q_head (queue w) /\ b = x)) ->
  producers_ok (l ++ [x]) w' -> pushed w' = popped w' ++ filter (fun x => x <> stub) (l ++ [x]) ->
  consumer_ok (l ++ [x]) w' -> chain (l ++ [x]) w'.
Proof.
  intros [] Hx Hx0 Hn Hq Hp Hpr Hh Hok.
  constructor; try assumption; rewrite ?Hq; simpl.
  - destruct l; [discriminate | assumption].
  - apply last_snoc.
  - apply NoDup_app. repeat split; [assumption | set_solver |]. apply NoDup_singleton.
  - set_solver.
  - assumption.
  - intros a b Hab. rewrite Hp. apply adjacent_snoc in Hab as [Hab | [Ha ->]].
    + destruct (ch_link0 a b Hab) as [? | []]; auto.
    + right. rewrite Ha in ch_head0. injection ch_head0 as ->. auto.
  - intros a b Hab. apply Hp in Hab as [Hab | [-> ->]].
    + apply ch_pending0 in Hab as [Hab Ha]. split; [apply adjacent_app |]; assumption.
    + split; [apply adjacent_join; assumption | assumption].
Qed.

(** A pending link is written. *)
Lemma chain_write l w w' a b : chain l w -> pending w a b -> queue w' = set_next a b (queue w) ->
  (forall c d, pending w' c d <-> pending w c d /\ c <> a) ->
  producers_ok l w' -> pushed w' = popped w' ++ filter (fun x => x <> stub) l ->
  consumer_ok l w' -> chain l w'.
Proof.
  intros [] Hpd Hq Hp Hpr Hh Hok. pose proof (ch_pending0 a b Hpd) as [Hab Ha].
  constructor; try assumption; rewrite ?Hq; simpl; try assumption.
  - rewrite fn_lookup_insert_ne; [assumption |]. intros ->. destruct (proj1 (last_Some _ _) ch_head0) as [l' ->].
    apply (adjacent_last _ _ _ _ ch_nodup0 Hab). reflexivity.
  - intros c d Hcd. destruct (decide (c = a)) as [-> | Hc].
    + left. rewrite fn_lookup_insert. apply (adjacent_fun l a); assumption.
    + rewrite fn_lookup_insert_ne, Hp by congruence. destruct (ch_link0 c d Hcd) as [? | []]; auto.
  - intros c d Hcd. apply Hp in Hcd as [Hcd Hc]. rewrite fn_lookup_insert_ne by congruence. apply ch_pending0. assumption.
Qed.

Lemma producers_weaken l l' w w' : producers w' = producers w -> producers_ok l w ->
  (forall t p, producers w !! t = Some p -> producer_ok l (q_next (queue w)) p -> producer_ok l' (q_next (queue w')) p) ->
  producers_ok l' w'.
Proof. intros E [P1 P2] H. split; rewrite E; [| exact P2]. intros t p Hp. exact (H t p Hp (P1 t p Hp)). Qed.

(** The [next] field of an item outside the chain is cleared. *)
Lemma chain_clear l w w' x : chain l w -> (x ∉ l) -> queue w' = set_next x 0 (queue w) ->
  (forall a b, pending w' a b <-> pending w a b) ->
  producers_ok l w' -> pushed w' = popped w' ++ filter (fun x => x <> stub) l ->
  consumer_ok l w' -> chain l w'.
Proof.
  intros [] Hx Hq Hp Hpr Hh Hok.
  assert (Hne : forall a, a ∈ l -> q_next (queue w') a = q_next (queue w) a)
    by (intros a Ha; rewrite Hq; apply fn_lookup_insert_ne; intros <-; contradiction).
  constructor; try assumption; try (rewrite Hq; assumption).
  - replace (q_head (queue w')) with (q_head (queue w)) by (rewrite Hq; reflexivity).
    rewrite Hne; [assumption |]. apply last_Some_elem_of. assumption.
  - intros a b Hab. rewrite Hne by apply (adjacent_elem _ _ _ Hab). rewrite Hp. apply ch_link0. assumption.
  - intros a b Hab. apply Hp, ch_pending0 in Hab as [Hab Ha]. rewrite Hne by apply (adjacent_elem _ _ _ Hab). split; assumption.
Qed.

(** ** Steps of the consumer *)

Lemma step_clear_stub l w e : chain l w -> popping w = ClearStub e -> chain l (consume stub w).
Proof.
  intros Hch Hp. pose proof (ch_consumer _ _ Hch) as Hok. unfold consumer_ok in Hok. rewrite Hp in Hok. destruct Hok as [Hat Hnot].
  unfold consume. rewrite Hp.
  apply (chain_clear l w _ stub); auto.
  - apply pending_quiet; [reflexivity | rewrite Hp; reflexivity | reflexivity].
  - apply (producers_weaken l l w); [reflexivity | apply Hch |]. intros t p _ (H1 & H2 & H3).
    split; [assumption |]. split; [assumption |]. destruct p; simpl in *; [assumption | | assumption].
    rewrite fn_lookup_insert_ne by congruence. assumption.
  - apply (ch_history _ _ Hch).
  - split; [assumption |]. split; [assumption |]. apply fn_lookup_insert.
Qed.

Lemma step_exchange_stub l w e : chain l w -> popping w = ExchangeStub e -> chain (l ++ [stub]) (consume stub w).
Proof.
  intros Hch Hp. pose proof (ch_consumer _ _ Hch) as Hok. unfold consumer_ok in Hok. rewrite Hp in Hok. destruct Hok as (Hat & Hnot & Hn).
  unfold consume. rewrite Hp.
  apply (chain_append l w _ stub); auto.
  - intros a b. unfold pending. simpl. rewrite Hp. split.
    + intros [? | (e' & [= -> ->] & ->)]; auto.
    + intros [[? | (e' & [=] & _)] | [-> ->]]; eauto.
  - apply (producers_weaken l (l ++ [stub]) w); [reflexivity | apply Hch |]. intros t p _ (H1 & H2 & H3).
    split; [assumption |]. split; [assumption |]. destruct p; set_solver.
  - simpl. rewrite (ch_history _ _ Hch), filter_app, (filter_cons_False _ stub), filter_nil, app_nil_r by tauto. reflexivity.
Qed.

(** A pending link does not belong to an item that is still outside the chain. *)
Lemma producer_ok_write l w a b p : chain l w -> pending w a b -> producer_ok l (q_next (queue w)) p ->
  producer_ok l (<[a := b]> (q_next (queue w))) p.
Proof.
  intros Hch Hpd (H1 & H2 & H3). split; [assumption |]. split; [assumption |]. destruct p; [assumption | | assumption].
  destruct H3 as [H3 H4]. split; [assumption |]. rewrite fn_lookup_insert_ne; [assumption |].
  intros ->. apply H3. apply (ch_pending _ _ Hch) in Hpd as [Hpd _]. apply (adjacent_elem _ _ _ Hpd).
Qed.

Lemma step_link_stub l w e prev : chain l w -> popping w = LinkStub e prev -> chain l (consume stub w).
Proof.
  intros Hch Hp. pose proof (ch_consumer _ _ Hch) as Hok. unfold consumer_ok in Hok. rewrite Hp in Hok.
  unfold consume. rewrite Hp.
  assert (Hpd : pending w prev stub) by (right; exists e; auto).
  apply (chain_write l w _ prev stub); auto.
  - intros c d. unfold pending at 1. simpl. split.
    + intros [(t & Ht) | (e' & [=] & _)]. assert (Hcd : pending w c d) by (left; exists t; assumption). split; [assumption |].
      intros ->. apply (ch_pending _ _ Hch) in Hcd as [Hcd _]. apply (ch_pending _ _ Hch) in Hpd as [Hpd _].
      pose proof (adjacent_fun _ _ _ _ (ch_nodup _ _ Hch) Hcd Hpd) as ->. apply (proj1 (ch_producers _ _ Hch) t _ Ht). reflexivity.
    + intros [[Ht | (e' & E & ->)] Hne]; [left; assumption |]. rewrite Hp in E. injection E as -> ->. contradiction.
  - apply (producers_weaken l l w); [reflexivity | apply Hch |]. intros t p _ Hok'. eapply producer_ok_write; eassumption.
  - apply (ch_history _ _ Hch).
Qed.

Lemma chain_consume l w : chain l w -> exists l', chain l' (consume stub w).
Proof.
  intros Hch. pose proof (ch_consumer _ _ Hch) as Hok. unfold consumer_ok in Hok.
  destruct (popping w) as [| | e | e n | e | e | e | e prev | e] eqn:Hp;
    try (eexists; first [eapply step_clear_stub; eassumption | eapply step_exchange_stub; eassumption | eapply step_link_stub; eassumption]; fail);
    assert (Hq : linking (popping w) = false) by (rewrite Hp; reflexivity); unfold consume; rewrite Hp.
  - exists l. apply chain_move; auto.
  - destruct (Z.eqb_spec (q_tail (queue w)) stub) as [Es | Es]; [| exists l; apply chain_decide; auto].
    destruct (Z.eqb_spec (q_next (queue w) (q_tail (queue w))) 0) as [E0 | E0]; [exists l; apply chain_move; auto |].
    destruct (chain_front l w _ Hch eq_refl E0) as [l' El]. rewrite Es in El at 1. subst l.
    set (n := q_next (queue w) (q_tail (queue w))) in *. exists (n :: l').
    apply (chain_advance stub); try assumption; try reflexivity.
    + rewrite <- Es. reflexivity.
    + rewrite (ch_history _ _ Hch), filter_cons_False by tauto. reflexivity.
    + split; [reflexivity |]. pose proof (ch_nodup _ _ Hch) as Hnd. apply NoDup_cons in Hnd as [Hnot _]. set_solver.
  - exists l. apply chain_decide; try apply Hok; auto.
  - destruct Hok as [[He Hs] Hn]. destruct (Z.eqb_spec n 0) as [-> | Hne]; simpl; [| apply (chain_take l); auto].
    exists l. apply chain_move; auto. split; assumption.
  - destruct Hok as [He Hs]. destruct (Z.eqb_spec e (q_head (queue w))) as [Eh | Eh]; simpl; exists l; apply chain_move; auto; [| exact I].
    split; [split; assumption |]. rewrite (chain_single l w Hch) by congruence. set_solver.
  - destruct Hok as [He Hs]. destruct (Z.eqb_spec (q_next (queue w) e) 0) as [E0 | E0]; simpl; [| apply (chain_take l); auto].
    exists l. apply chain_move; auto. exact I.
Qed.

(** ** Steps of the producers *)

Lemma chain_contents l w : chain l w -> contents w = filter (fun x => x <> stub) l.
Proof. intros Hch. unfold contents. rewrite (ch_history _ _ Hch), drop_app_length. reflexivity. Qed.


Lemma producers_update l l' w w' t p' : producers_ok l w -> producers w' = <[t := p']> (producers w) ->
  (forall t' p, t' <> t -> producers w !! t' = Some p -> producer_ok l (q_next (queue w)) p ->
    producer_ok l' (q_next (queue w')) p /\ item_of p <> item_of p') ->
  producer_ok l' (q_next (queue w')) p' -> producers_ok l' w'.
Proof.
  intros [P1 P2] E Ho Hp'. split; rewrite E.
  - intros t1 p [[<- <-] | [Hne Hp]]%lookup_insert_Some; [assumption |]. apply (Ho t1 p); eauto.
  - intros t1 t2 p1 p2 [[<- <-] | [Hne1 Hp1]]%lookup_insert_Some [[<- <-] | [Hne2 Hp2]]%lookup_insert_Some Ei; auto.
    + exfalso. apply (proj2 (Ho t2 p2 (not_eq_sym Hne2) Hp2 (P1 _ _ Hp2))). congruence.
    + exfalso. apply (proj2 (Ho t1 p1 (not_eq_sym Hne1) Hp1 (P1 _ _ Hp1))). congruence.
    + apply (P2 t1 t2 p1 p2); assumption.
Qed.

Lemma consumer_ok_frame l l' w w' : popping w' = popping w -> q_tail (queue w') = q_tail (queue w) ->
  (forall e n, popping w = Decide e n -> n <> 0 -> q_next (queue w) e = n -> q_next (queue w') e = n) ->
  (forall e, popping w = ExchangeStub e -> q_next (queue w) stub = 0 -> q_next (queue w') stub = 0) ->
  ((stub ∉ l) -> stub ∉ l') -> consumer_ok l w -> consumer_ok l' w'.
Proof.
  unfold consumer_ok. intros -> -> Hd He Hs. destruct (popping w) as [| | e | e n | e | e | e | e prev | e] eqn:Hp; try tauto.
  - intros [Ha Hn]. split; [assumption |]. intros Hne. exact (Hd e n eq_refl Hne (Hn Hne)).
  - intros (Ha & Hn & H0). split; [assumption |]. split; [auto |]. exact (He e eq_refl H0).
Qed.

(** Pending links when one producer moves on. *)
Lemma pending_update w w' t p p' : producers w !! t = Some p -> producers w' = <[t := p']> (producers w) -> popping w' = popping w ->
  (forall a b, p <> Linking a b) ->
  forall a b, pending w' a b <-> pending w a b \/ p' = Linking a b.
Proof.
  intros Hp E Ec Hno a b. unfold pending. rewrite E, Ec. split.
  - intros [(t1 & [[<- <-] | [Hne H]]%lookup_insert_Some) | H]; eauto.
  - intros [[(t1 & H) | H] | ->]; auto.
    + left. exists t1. rewrite lookup_insert_ne; [assumption |]. intros <-. rewrite Hp in H. injection H as ->. eapply Hno. reflexivity.
    + left. exists t. apply lookup_insert_eq.
Qed.

Lemma step_call_chain l w t item : chain l w -> producers w !! t = None -> fresh stub w item ->
  chain l (mkWorld (queue w) (<[t := Clearing item]> (producers w)) (popping w) (pushed w) (popped w)).
Proof.
  intros Hch Ht (H0 & Hs & Hin & Hd). rewrite (chain_contents _ _ Hch) in Hin. set (w' := mkWorld _ _ _ _ _).
  assert (Hl : item ∉ l) by (intros H; apply Hin, list_elem_of_filter; auto).
  assert (Hpd : forall a b, pending w' a b <-> pending w a b).
  { intros a b. unfold pending. simpl. split.
    - intros [(t1 & [[_ [=]] | [_ H]]%lookup_insert_Some) | H]; eauto.
    - intros [(t1 & H) | H]; auto. left. exists t1. rewrite lookup_insert_ne; congruence. }
  destruct Hch. constructor; try assumption.
  - intros a b Hab. rewrite Hpd. auto.
  - intros a b Hab. apply ch_pending0, Hpd. assumption.
  - apply (producers_update l l w w' t (Clearing item)); auto; [| repeat split; assumption].
    intros t' p Hne Hp Hok. split; [assumption | apply (Hd t' p Hp)].
Qed.

Lemma step_clear l w t i : chain l w -> producers w !! t = Some (Clearing i) -> chain l (produce w t (Clearing i)).
Proof.
  intros Hch Ht. destruct (proj1 (ch_producers _ _ Hch) t _ Ht) as (H0 & Hs & Hl). simpl in H0, Hs.
  set (w' := produce w t (Clearing i)).
  assert (Hpd : forall a b, pending w' a b <-> pending w a b \/ Exchanging i = Linking a b)
    by (apply (pending_update w w' t (Clearing i)); auto; discriminate).
  apply (chain_clear l w _ i); auto.
  - intros a b. rewrite Hpd. split; [intros [? | [=]]; assumption | auto].
  - apply (producers_update l l w w' t (Exchanging i)); [apply Hch | reflexivity | |].
    + intros t' p Hne Hp (H1 & H2 & H3). split.
      * split; [assumption |]. split; [assumption |]. destruct p; simpl in *; [assumption | | assumption].
        rewrite fn_lookup_insert_ne; [assumption |]. intros ->. apply Hne. apply (proj2 (ch_producers _ _ Hch) t' t _ _ Hp Ht). reflexivity.
      * intros E. apply Hne. apply (proj2 (ch_producers _ _ Hch) t' t _ _ Hp Ht). assumption.
    + split; [assumption |]. split; [assumption |]. split; [assumption |]. apply fn_lookup_insert.
  - apply (ch_history _ _ Hch).
  - apply (consumer_ok_frame l l w); auto; [| |].
    + intros e n Hc Hne En. simpl. rewrite fn_lookup_insert_ne; [assumption |]. intros ->.
      apply Hl. pose proof (ch_consumer _ _ Hch) as Hok. unfold consumer_ok in Hok. rewrite Hc in Hok. destruct Hok as [[-> _] _].
      apply (chain_tail_elem _ _ Hch).
    + intros e Hc En. simpl. rewrite fn_lookup_insert_ne by congruence. assumption.
    + apply (ch_consumer _ _ Hch).
Qed.

Lemma step_exchange l w t i : chain l w -> producers w !! t = Some (Exchanging i) -> chain (l ++ [i]) (produce w t (Exchanging i)).
Proof.
  intros Hch Ht. destruct (proj1 (ch_producers _ _ Hch) t _ Ht) as (H0 & Hs & Hl & Hn). simpl in H0, Hs.
  set (w' := produce w t (Exchanging i)).
  assert (Hpd : forall a b, pending w' a b <-> pending w a b \/ Linking (q_head (queue w)) i = Linking a b)
    by (apply (pending_update w w' t (Exchanging i)); auto; discriminate).
  apply (chain_append l w _ i); auto.
  - intros a b. rewrite Hpd. split; (intros [? | E]; [auto |]); right; [injection E as -> -> | destruct E as [-> ->]]; auto.
  - apply (producers_update l (l ++ [i]) w w' t (Linking (q_head (queue w)) i)); [apply Hch | reflexivity | |].
    + intros t' p Hne Hp (H1 & H2 & H3).
      assert (Hi : item_of p <> i) by (intros E; apply Hne; apply (proj2 (ch_producers _ _ Hch) t' t _ _ Hp Ht); assumption).
      split; [| assumption]. split; [assumption |]. split; [assumption |]. destruct p; set_solver.
    + repeat split; assumption.
  - simpl. rewrite (ch_history _ _ Hch), filter_app, (filter_cons_True _ i), filter_nil, app_assoc by assumption. reflexivity.
  - apply (consumer_ok_frame l (l ++ [i]) w); auto; [set_solver |]. apply (ch_consumer _ _ Hch).
Qed.

Lemma step_link l w t a b : chain l w -> producers w !! t = Some (Linking a b) -> chain l (produce w t (Linking a b)).
Proof.
  intros Hch Ht. assert (Hpd : pending w a b) by (left; exists t; assumption).
  pose proof (ch_pending _ _ Hch a b Hpd) as [Hab Ha]. destruct (proj1 (ch_producers _ _ Hch) t _ Ht) as (_ & Hs & _). simpl in Hs.
  apply (chain_write l w _ a b); auto.
  - intros c d. unfold pending at 1. simpl. split.
    + intros H. assert (Hcd : pending w c d) by (destruct H as [(t1 & [_ H]%lookup_delete_Some) | H]; [left; exists t1; assumption | right; assumption]).
      split; [assumption |]. intros ->.
      pose proof (adjacent_fun _ _ _ _ (ch_nodup _ _ Hch) (proj1 (ch_pending _ _ Hch _ _ Hcd)) Hab) as ->.
      destruct H as [(t1 & [Hne H]%lookup_delete_Some) | (e & _ & E)]; [| congruence].
      apply Hne. apply (proj2 (ch_producers _ _ Hch) t t1 _ _ Ht H). reflexivity.
    + intros [[(t1 & H) | H] Hne]; [| right; assumption]. left. exists t1. apply lookup_delete_Some. split; [| assumption].
      intros <-. rewrite Ht in H. injection H as <- _. contradiction.
  - destruct (ch_producers _ _ Hch) as [P1 P2]. split; simpl.
    + intros t1 p [_ Hp]%lookup_delete_Some. eapply producer_ok_write; eauto.
    + intros t1 t2 p1 p2 [_ Hp1]%lookup_delete_Some [_ Hp2]%lookup_delete_Some. apply (P2 t1 t2); assumption.
  - apply (ch_history _ _ Hch).
  - apply (consumer_ok_frame l l w); auto; [| | apply (ch_consumer _ _ Hch)].
    + intros e n _ Hne En. simpl. rewrite fn_lookup_insert_ne; [assumption |]. intros <-. congruence.
    + intros e Hc En. simpl. rewrite fn_lookup_insert_ne; [assumption |]. intros ->.
      pose proof (ch_consumer _ _ Hch) as Hok. unfold consumer_ok in Hok. rewrite Hc in Hok. apply (proj1 (proj2 Hok)).
      apply (adjacent_elem _ _ _ Hab).
Qed.

(** ** Runs *)

Lemma chain_step l w w' : chain l w -> step stub w w' -> exists l', chain l' w'.
Proof.
  intros Hch [t item Ht Hf | t p Hp |].
  - exists l. apply step_call_chain; assumption.
  - destruct p as [i | i | a b]; [exists l; apply step_clear | exists (l ++ [i]); apply step_exchange | exists l; apply step_link]; assumption.
  - apply (chain_consume l). assumption.
Qed.

Lemma chain_start : chain [stub] (start stub).
Proof.
  constructor; try reflexivity; try exact I.
  - apply NoDup_singleton.
  - set_solver.
  - intros a b (l1 & l2 & E). apply (f_equal length) in E. rewrite length_app in E. simpl in E. lia.
  - intros a b [(t & H) | (e & H & _)]; [unfold start in H; cbn [producers] in H; rewrite lookup_empty in H |]; discriminate.
  - split; intros t; [intros p H | intros t' p p' H]; unfold start in H; cbn [producers] in H; rewrite lookup_empty in H; discriminate.
  - simpl. rewrite filter_cons_False by tauto. reflexivity.
Qed.

Lemma chain_reachable w : rtc (step stub) (start stub) w -> exists l, chain l w.
Proof.
  intros H. assert (Hs : exists l, chain l (start stub)) by (exists [stub]; apply chain_start).
  induction H as [w | w w1 w2 Hstep _ IH]; [assumption |]. apply IH. destruct Hs as [l Hl]. apply (chain_step l w); assumption.
Qed.

(** ** The consumer alone *)

Definition quiet (w : world) : Prop := producers w = ∅ /\ popping w = Idle.

Lemma quiet_links l w : chain l w -> quiet w -> forall a b, adjacent l a b -> q_next (queue w) a = b.
Proof.
  intros Hch [Hp Hc] a b Hab. destruct (ch_link _ _ Hch a b Hab) as [E | [_ [(t & Ht) | (e & E & _)]]]; [assumption | |].
  - rewrite Hp, lookup_empty in Ht. discriminate.
  - rewrite Hc in E. discriminate.
Qed.

(** Some number of steps of the consumer. *)
Fixpoint consume_n (n : nat) (w : world) : world := match n with O => w | S n => consume_n n (consume stub w) end.

Lemma consume_n_steps n : forall w, rtc (step stub) w (consume_n n w).
Proof. induction n as [| n IH]; intros w; [reflexivity |]. eapply rtc_l; [apply step_consume | apply IH]. Qed.

Definition popped_to (w : world) (r : Z) (q : QueueMpSc) : world :=
  mkWorld q (producers w) Idle (pushed w) (popped w ++ (if r =? 0 then [] else [r])).

(** Uninterrupted, the steps of the consumer are [Pop]. *)
Lemma consume_decide q ps pu po e : e <> 0 ->
  let w := mkWorld q ps (Decide e (q_next q e)) pu po in
  exists n, consume_n n w =
    popped_to w (fst (pop_from stub q e)) (snd (pop_from stub q e)).
Proof.
  intros He w. unfold w, popped_to, pop_from.
  destruct (q_next q e =? 0) eqn:E1; cbn [negb].
  - destruct (e =? q_head q) eqn:E2; cbn [negb].
    + destruct (q_next (Push stub q) e =? 0) eqn:E3; cbn [negb].
      * exists 6%nat. cbn -[Z.eqb fn_insert]. rewrite E1. cbn -[Z.eqb fn_insert]. rewrite E2. cbn -[Z.eqb fn_insert].
        cbn -[Z.eqb fn_insert] in E3. rewrite E3, app_nil_r. reflexivity.
      * exists 6%nat. cbn -[Z.eqb fn_insert]. rewrite E1. cbn -[Z.eqb fn_insert]. rewrite E2. cbn -[Z.eqb fn_insert].
        cbn -[Z.eqb fn_insert] in E3. rewrite E3, (proj2 (Z.eqb_neq _ _) He). reflexivity.
    + exists 2%nat. cbn -[Z.eqb]. rewrite E1. cbn -[Z.eqb]. rewrite E2, app_nil_r. reflexivity.
  - exists 1%nat. cbn -[Z.eqb]. rewrite E1, (proj2 (Z.eqb_neq _ _) He). reflexivity.
Qed.

Lemma consume_pop w : popping w = Idle -> q_tail (queue w) <> 0 ->
  exists n, consume_n n w = popped_to w (fst (Pop stub (queue w))) (snd (Pop stub (queue w))).
Proof.
  destruct w as [q ps c pu po]. cbn [popping queue]. intros -> H0. unfold Pop.
  destruct (q_tail q =? stub) eqn:E1; [destruct (q_next q (q_tail q) =? 0) eqn:E2 |].
  - exists 2%nat. cbn -[Z.eqb]. rewrite E1, E2. unfold popped_to. simpl. rewrite app_nil_r. reflexivity.
  - destruct (consume_decide (set_tail (q_next q (q_tail q)) q) ps pu po (q_next q (q_tail q)) (proj1 (Z.eqb_neq _ _) E2)) as [n Hn].
    exists (3 + n)%nat. cbn -[Z.eqb consume_n]. cbn [consume_n]. cbn -[Z.eqb consume_n]. rewrite E1, E2. cbn -[Z.eqb consume_n].
    exact Hn.
  - destruct (consume_decide q ps pu po (q_tail q) H0) as [n Hn].
    exists (2 + n)%nat. cbn -[Z.eqb consume_n]. cbn [consume_n]. cbn -[Z.eqb consume_n]. rewrite E1.
    exact Hn.
Qed.

(** [Pop] at an item that is not the stub returns it. *)
Lemma pop_finish l w e : chain (e :: l) w -> quiet w -> e <> stub -> fst (pop_from stub (queue w) e) = e.
Proof.
  intros Hch Hq He. unfold pop_from. pose proof (quiet_links _ w Hch Hq) as Hl.
  pose proof (ch_end _ _ Hch) as Hend. pose proof (ch_head _ _ Hch) as Hlast. pose proof (ch_null _ _ Hch) as H0.
  destruct l as [| b l].
  - injection Hlast as Hlast. rewrite <- Hlast in *. rewrite Hend, Z.eqb_refl. cbn [negb Z.eqb].
    unfold Push. cbn [q_next set_next set_head q_head]. rewrite <- Hlast, fn_lookup_insert. rewrite (proj2 (Z.eqb_neq _ _) stub_ok), Z.eqb_refl. reflexivity.
  - rewrite (Hl e b) by (exists [], l; reflexivity). rewrite (proj2 (Z.eqb_neq b 0)) by set_solver. reflexivity.
Qed.

(** With all pushes finished, [Pop] returns the oldest item. *)
Lemma quiet_pop l w : chain l w -> quiet w -> fst (Pop stub (queue w)) = default 0 (head (contents w)).
Proof.
  intros Hch Hq. rewrite (chain_contents l) by assumption. pose proof (quiet_links l w Hch Hq) as Hl.
  pose proof (ch_null _ _ Hch) as H0. pose proof (ch_end _ _ Hch) as Hend.
  pose proof (ch_tail _ _ Hch) as Ht. pose proof (ch_head _ _ Hch) as Hh. unfold Pop.
  destruct l as [| e l]; [discriminate |]. injection Ht as He. rewrite <- He.
  destruct (Z.eqb_spec e stub) as [-> | Hs].
  - rewrite filter_cons_False by tauto. destruct l as [| b l].
    + injection Hh as Hh. rewrite <- Hh in Hend. rewrite Hend. reflexivity.
    + rewrite (Hl stub b) by (exists [], l; reflexivity). rewrite (proj2 (Z.eqb_neq b 0)) by set_solver.
      assert (Hb : b <> stub) by (pose proof (ch_nodup _ _ Hch) as Hnd; apply NoDup_cons in Hnd; set_solver).
      rewrite filter_cons_True by assumption. simpl.
      apply (pop_finish l (mkWorld (set_tail b (queue w)) (producers w) Idle (pushed w) (popped w))); [| split; [apply Hq | reflexivity] | assumption].
      apply (chain_advance stub); try assumption; try reflexivity; try exact I.
      * apply Hl. exists [], l. reflexivity.
      * set_solver.
      * rewrite (proj2 Hq). reflexivity.
      * rewrite (ch_history _ _ Hch), filter_cons_False by tauto. reflexivity.
  - rewrite filter_cons_True by assumption. simpl. subst e. apply (pop_finish l w); assumption.
Qed.

(** The stub stays where callers cannot see it, so [Pop] on a quiet queue keeps the chain. *)
Lemma quiet_pop_step w : rtc (step stub) (start stub) w -> quiet w ->
  let w' := popped_to w (fst (Pop stub (queue w))) (snd (Pop stub (queue w))) in
  rtc (step stub) w w' /\ quiet w' /\ fst (Pop stub (queue w)) = default 0 (head (contents w)) /\ contents w' = tail (contents w).
Proof.
  intros Hr Hq. destruct (chain_reachable w Hr) as [l Hch].
  assert (Ht : q_tail (queue w) <> 0) by (intros E; apply (ch_null _ _ Hch); rewrite <- E; apply (chain_tail_elem _ _ Hch)).
  destruct (consume_pop w (proj2 Hq) Ht) as [n Hn]. pose proof (consume_n_steps n w) as Hs. rewrite Hn in Hs.
  pose proof (quiet_pop l w Hch Hq) as Hp.
  split; [assumption |]. split; [split; [apply Hq | reflexivity] |]. split; [assumption |].
  unfold contents at 1. simpl. rewrite length_app, Hp. unfold contents in *.
  assert (Hc : 0 ∉ drop (length (popped w)) (pushed w)).
  { fold (contents w). rewrite (chain_contents _ _ Hch). intros [_ H]%list_elem_of_filter. apply (ch_null _ _ Hch). assumption. }
  rewrite <- drop_drop. destruct (drop (length (popped w)) (pushed w)) as [| x rest]; [apply drop_nil |]. simpl.
  rewrite (proj2 (Z.eqb_neq x 0)) by set_solver. reflexivity.
Qed.

(** [n] calls of [Pop]. *)
Fixpoint pops (n : nat) (q : QueueMpSc) : list Z * QueueMpSc :=
  match n with
  | O => ([], q)
  | S n => let '(x, q) := Pop stub q in let '(xs, q) := pops n q in (x :: xs, q)
  end.

Lemma quiet_pops n : forall w, rtc (step stub) (start stub) w -> quiet w -> length (contents w) = n ->
  fst (pops (S n) (queue w)) = contents w ++ [0].
Proof.
  induction n as [| n IH]; intros w Hr Hq Hl;
    destruct (quiet_pop_step w Hr Hq) as (Hst & Hq' & Hx & Hc); set (w' := popped_to _ _ _) in *.
  - apply nil_length_inv in Hl. rewrite Hl in *. cbn. destruct (Pop stub (queue w)) as [x q]. cbn in Hx. subst x. reflexivity.
  - destruct (contents w) as [| x rest]; [discriminate |]. cbn in Hx, Hc, Hl. injection Hl as Hl.
    cbn [pops]. destruct (Pop stub (queue w)) as [x' q'] eqn:Ep. cbn in Hx. subst x'.
    specialize (IH w' ltac:(etrans; eassumption) Hq'). change (contents w' = rest) in Hc. rewrite Hc in IH. specialize (IH Hl).
    change (queue w') with q' in IH. cbn [pops] in IH. destruct (Pop stub q') as [y q2]. destruct (pops n q2) as [xs q3].
    cbn in *. congruence.
Qed.

(** ** Calls that are not interleaved *)

(** A queue no call is running on, with its items from the oldest on. *)
Definition alone (xs : list Z) (q : QueueMpSc) : world := mkWorld q ∅ Idle xs [].
Definition holds (xs : list Z) (q : QueueMpSc) : Prop := exists l, chain l (alone xs q).

Lemma chain_history l q pu po pu' po' : chain l (mkWorld q ∅ Idle pu po) -> pu' = po' ++ filter (fun x => x <> stub) l ->
  chain l (mkWorld q ∅ Idle pu' po').
Proof. intros [] E. constructor; assumption. Qed.

Lemma init_holds : holds [] (init stub).
Proof. exists [stub]. apply chain_start. Qed.

Lemma push_holds xs q x : holds xs q -> x <> 0 -> x <> stub -> (x ∉ xs) -> holds (xs ++ [x]) (Push x q).
Proof.
  intros [l Hch] H0 Hs Hx. exists (l ++ [x]).
  assert (Hf : fresh stub (alone xs q) x).
  { split; [assumption |]. split; [assumption |]. split; [exact Hx |].
    intros t p H. unfold alone in H. cbn [producers] in H. rewrite lookup_empty in H. discriminate. }
  pose proof (step_call_chain l _ 0 x Hch (lookup_empty 0%nat) Hf) as H1.
  pose proof (step_clear l _ 0 x H1 (lookup_insert_eq _ _ _)) as H2.
  pose proof (step_exchange l _ 0 x H2 (lookup_insert_eq _ _ _)) as H3.
  pose proof (step_link (l ++ [x]) _ 0 _ x H3 (lookup_insert_eq _ _ _)) as H4.
  cbn [produce producers queue popping pushed popped alone] in H4.
  rewrite !insert_insert_eq, delete_insert_id in H4 by apply lookup_empty. exact H4.
Qed.

Lemma pop_holds xs q : holds xs q ->
  fst (Pop stub q) = default 0 (head xs) /\ holds (tail xs) (snd (Pop stub q)).
Proof.
  intros [l Hch]. assert (Hq : quiet (alone xs q)) by (split; reflexivity).
  assert (Hc : contents (alone xs q) = xs) by apply drop_0.
  pose proof (quiet_pop l _ Hch Hq) as Hp. rewrite Hc in Hp. split; [exact Hp |].
  assert (Ht : q_tail q <> 0) by (intros E; apply (ch_null _ _ Hch); rewrite <- E; apply (chain_tail_elem _ _ Hch)).
  destruct (consume_pop (alone xs q) eq_refl Ht) as [n Hn]. change (queue (alone xs q)) with q in *.
  assert (Hch' : exists l', chain l' (consume_n n (alone xs q))).
  { clear Hn. revert Hch. generalize (alone xs q). revert l. induction n as [| n IH]; intros l w Hch; [exists l; assumption |].
    destruct (chain_consume l w Hch) as [l' Hch']. apply (IH l'). assumption. }
  rewrite Hn, Hp in Hch'. destruct Hch' as [l' Hch']. exists l'.
  pose proof (ch_history _ _ Hch') as Hh. unfold popped_to in Hch', Hh. cbn in Hh.
  eapply chain_history; [exact Hch' |]. cbn [app].
  assert (H0 : 0 ∉ xs).
  { intros H. apply (ch_null _ _ Hch). pose proof (ch_history _ _ Hch) as E. cbn in E. rewrite E in H. apply list_elem_of_filter in H. apply H. }
  destruct xs as [| x xs]; [symmetry in Hh; apply app_eq_nil in Hh; simpl; symmetry; apply Hh |]. simpl in *.
  rewrite (proj2 (Z.eqb_neq x 0)) in Hh by set_solver. injection Hh as Hh. assumption.
Qed.

Lemma clear_holds xs q x : holds xs q -> x <> stub -> (x ∉ xs) -> holds xs (set_next x 0 q).
Proof.
  intros [l Hch] Hs Hx. exists l.
  assert (Hl : x ∉ l).
  { intros H. apply Hx. pose proof (ch_history _ _ Hch) as E. cbn in E. rewrite E. apply list_elem_of_filter. auto. }
  apply (chain_clear l (alone xs q) _ x); auto; try reflexivity; try apply Hch; try exact I.
  split; intros t; [intros p H | intros t' p p' H]; unfold alone in H; cbn [producers] in H; rewrite lookup_empty in H; discriminate.
Qed.
End Proofs.

(** ** The theorems *)

(** C30: over every interleaving of pushes from any number of cores with the pops of the one
    consumer, the items come out in the order in which the pushes exchanged [head]: what was popped
    is a prefix of what was pushed, nothing twice and nothing out of turn. A caller pushes an item
    only while it is not queued. *)
Theorem mpsc_fifo stub w :
  stub <> 0 -> rtc (step stub) (start stub) w -> pushed w = popped w ++ contents w /\ NoDup (contents w).
Proof.
  intros Hs Hr. destruct (chain_reachable stub Hs w Hr) as [l Hch]. rewrite (chain_contents stub l w Hch). split.
  - apply (ch_history _ _ _ Hch).
  - apply NoDup_filter, (ch_nodup _ _ _ Hch).
Qed.

(** C31: once the running pushes have finished, the consumer gets everything: as many calls of [Pop]
    as there are items return the items, oldest first, and the next call returns null. *)
Theorem mpsc_drains stub w :
  stub <> 0 -> rtc (step stub) (start stub) w -> quiet w ->
  fst (pops stub (S (length (contents w))) (queue w)) = contents w ++ [0].
Proof. intros Hs Hr Hq. apply (quiet_pops stub Hs); auto. Qed.

(** Two producers whose pushes of items 10 and 20 overlap: the second links first. *)
Definition overlapped : world :=
  let w := start 1 in
  let w := mkWorld (queue w) (<[0%nat := Clearing 10]> (producers w)) (popping w) (pushed w) (popped w) in
  let w := mkWorld (queue w) (<[1%nat := Clearing 20]> (producers w)) (popping w) (pushed w) (popped w) in
  let w := produce w 0 (Clearing 10) in
  let w := produce w 1 (Clearing 20) in
  let w := produce w 0 (Exchanging 10) in
  let w := produce w 1 (Exchanging 20) in
  let w := produce w 1 (Linking 10 20) in
  produce w 0 (Linking 1 10).

Lemma overlapped_reachable : rtc (step 1) (start 1) overlapped.
Proof.
  eapply rtc_l; [apply (step_call 1 _ 0 10); [reflexivity |] |].
  { split; [lia |]. split; [lia |]. split; [intros H; apply list_elem_of_In in H; destruct H |]. intros t p H. unfold start in H. cbn [producers] in H. rewrite lookup_empty in H. discriminate. }
  eapply rtc_l; [apply (step_call 1 _ 1 20); [reflexivity |] |].
  { split; [lia |]. split; [lia |]. split; [intros H; apply list_elem_of_In in H; destruct H |].
    intros t p H. cbn [producers] in H. apply lookup_insert_Some in H as [[_ <-] | [_ H]]; [discriminate |]. unfold start in H. cbn [producers] in H. rewrite lookup_empty in H. discriminate. }
  eapply rtc_l; [apply (step_produce 1 _ 0 (Clearing 10)); reflexivity |].
  eapply rtc_l; [apply (step_produce 1 _ 1 (Clearing 20)); reflexivity |].
  eapply rtc_l; [apply (step_produce 1 _ 0 (Exchanging 10)); reflexivity |].
  eapply rtc_l; [apply (step_produce 1 _ 1 (Exchanging 20)); reflexivity |].
  eapply rtc_l; [apply (step_produce 1 _ 1 (Linking 10 20)); reflexivity |].
  eapply rtc_l; [apply (step_produce 1 _ 0 (Linking 1 10)); reflexivity |]. apply rtc_refl.
Qed.

Lemma overlapped_quiet : quiet overlapped.
Proof. split; [| reflexivity]. vm_compute. reflexivity. Qed.

Lemma mpsc_fifo_witness : pushed overlapped = popped overlapped ++ contents overlapped /\ contents overlapped = [10; 20].
Proof. split; [| reflexivity]. apply (mpsc_fifo 1 overlapped); [lia |]. apply overlapped_reachable. Defined.

Lemma mpsc_drains_witness : fst (pops 1 3 (queue overlapped)) = [10; 20; 0].
Proof. apply (mpsc_drains 1 overlapped); [lia | apply overlapped_reachable | apply overlapped_quiet]. Defined.
