(* ===== verification/IntrList.v ===== *)
(** [sl::IntrFwdList], the intrusive list the tasking code keeps its threads, clock events and
    waiters in. Its definition is not part of the sources, so it is an interface: the operations the
    kernel calls, and the laws their callers rely on. An element is identified by its address. *)

From S2P Require Import Prelude.

Class IntrFwdList (L : Type) : Type := {
  (** The elements from [Begin()] on, as the [next] fields link them. *)
  elements : L -> list Z;
  empty_list : L;
  PushFront : Z -> L -> L;
  PushBack : Z -> L -> L;
  (** The first element, 0 when there is none. *)
  PopFront : L -> Z * L;
  InsertAfter : Z -> Z -> L -> L;
  (** A pointer, and the list without the element. *)
  ListRemove : Z -> L -> Z * L
}.

(** [PushFront] and its like link an element that is in no list. *)
Class IntrFwdListLaws (L : Type) `{IntrFwdList L} : Prop := {
  empty_elements : elements empty_list = [];
  PushFront_elements x l : (x ∉ elements l) -> elements (PushFront x l) = x :: elements l;
  PushBack_elements x l : (x ∉ elements l) -> elements (PushBack x l) = elements l ++ [x];
  PopFront_result l : fst (PopFront l) = default 0 (head (elements l));
  PopFront_elements l : elements (snd (PopFront l)) = tail (elements l);
  InsertAfter_elements a x l l1 l2 : (x ∉ elements l) -> elements l = l1 ++ a :: l2 -> NoDup (elements l) ->
    elements (InsertAfter a x l) = l1 ++ a :: x :: l2;
  Remove_elements x l : NoDup (elements l) -> elements (snd (ListRemove x l)) = filter (fun y => y <> x) (elements l)
}.

(** What the two kinds of callers take the result of [Remove] for: the scheduler tests whether the
    element was in the list, the clock uses the element that follows the removed one. *)
Definition remove_reports_presence (L : Type) `{IntrFwdList L} : Prop :=
  forall x l, x ∈ elements l -> fst (ListRemove x l) <> 0.
Definition remove_returns_following (L : Type) `{IntrFwdList L} : Prop :=
  forall x l l1 l2, NoDup (elements l) -> elements l = l1 ++ x :: l2 -> fst (ListRemove x l) = default 0 (head l2).
Definition remove_ignores_absent (L : Type) `{IntrFwdList L} : Prop :=
  forall x l, (x ∉ elements l) -> fst (ListRemove x l) = 0.

Section Facts.
Context {L : Type} `{IntrFwdListLaws L}.

(** No list can satisfy both. *)
Lemma remove_callers_disagree : ~ (remove_reports_presence L /\ remove_returns_following L).
Proof.
  intros [Hp Hf]. set (l := PushBack 1 (empty_list : L)).
  assert (El : elements l = [1]) by (unfold l; rewrite PushBack_elements, empty_elements; [reflexivity |]; rewrite empty_elements; set_solver).
  apply (Hp 1 l); [rewrite El; set_solver |].
  rewrite (Hf 1 l [] []); [reflexivity | rewrite El; apply NoDup_singleton | assumption].
Qed.
End Facts.

(** ** Plain lists are an instance *)

Fixpoint insert_after (a x : Z) (l : list Z) : list Z :=
  match l with
  | [] => []
  | y :: l => if y =? a then y :: x :: l else y :: insert_after a x l
  end.

Fixpoint following (x : Z) (l : list Z) : Z :=
  match l with
  | [] => 0
  | y :: l => if y =? x then default 0 (head l) else following x l
  end.

#[export] Instance list_IntrFwdList : IntrFwdList (list Z) := {
  elements l := l;
  empty_list := [];
  PushFront x l := x :: l;
  PushBack x l := l ++ [x];
  PopFront l := (default 0 (head l), tail l);
  InsertAfter a x l := insert_after a x l;
  ListRemove x l := (following x l, filter (fun y => y <> x) l)
}.

#[export] Instance list_IntrFwdListLaws : IntrFwdListLaws (list Z).
Proof.
  constructor; simpl; try reflexivity.
  intros a x l l1 l2 _ -> Hnd. induction l1 as [| y l1 IH]; simpl.
  - rewrite Z.eqb_refl. reflexivity.
  - simpl in Hnd. apply NoDup_cons in Hnd as [Hy Hnd]. rewrite (proj2 (Z.eqb_neq y a)) by set_solver. rewrite IH by assumption. reflexivity.
Qed.

Lemma list_remove_following : remove_returns_following (list Z).
Proof.
  intros x l l1 l2 Hnd E. simpl in *. subst l. induction l1 as [| y l1 IH]; simpl.
  - rewrite Z.eqb_refl. reflexivity.
  - simpl in Hnd. apply NoDup_cons in Hnd as [Hy Hnd]. rewrite (proj2 (Z.eqb_neq y x)) by set_solver. auto.
Qed.

Lemma list_remove_absent : remove_ignores_absent (list Z).
Proof.
  intros x l Hx. simpl in *. induction l as [| y l IH]; [reflexivity |]. simpl. rewrite (proj2 (Z.eqb_neq y x)) by set_solver. apply IH. set_solver.
Qed.
