(* ===== verification/Clock.v ===== *)
(** [kernel/tasking/Clock.cpp] and [libs/np-syslib/Time.cpp]: the queue of clock events, each with
    its duration relative to the event before it, and the conversion of time scales. *)

From S2P Require Import Prelude Maths IntrList.

(** ** Scaled time *)

(** The scale is the number of units per second. *)
Record ScaledTime : Type := mkTime { scale : Z; units : Z }.

Definition Millis : Z := 1000.
Definition Micros : Z := 1000000.
Definition Nanos : Z := 1000000000.

Definition ToScale (t : ScaledTime) (newScale : Z) : ScaledTime :=
  let ratio := newScale / scale t in mkTime newScale (u64 (units t * ratio)).
Definition ToMillis (t : ScaledTime) : Z := units (ToScale t Millis).
Definition ToMicros (t : ScaledTime) : Z := units (ToScale t Micros).
Definition ToNanos (t : ScaledTime) : Z := units (ToScale t Nanos).

(** [while (time.units == 0)]: the scale grows until a period of the frequency has units. *)
Fixpoint frequency_loop (fuel : nat) (time : ScaledTime) (hertz : Z) : res ScaledTime :=
  if units time =? 0 then
    match fuel with
    | O => OutOfFuel
    | S fuel' => let s := u64 (scale time * 1000) in frequency_loop fuel' (mkTime s (s / hertz)) hertz
    end
  else Ok time.

Definition FromFrequency (fuel : nat) (hertz : Z) : res ScaledTime :=
  frequency_loop fuel (mkTime Millis (Millis / hertz)) hertz.

(** ** Events *)

Definition NoCoreAffinity : Z := two64 - 1.

Record ClockEvent : Type := mkEvent { ev_dpc : Z; duration : ScaledTime; callbackCore : Z }.

Definition set_units (n : Z) (e : ClockEvent) : ClockEvent := mkEvent (ev_dpc e) (mkTime (scale (duration e)) n) (callbackCore e).
Definition set_duration (t : ScaledTime) (e : ClockEvent) : ClockEvent := mkEvent (ev_dpc e) t (callbackCore e).
Definition set_callbackCore (c : Z) (e : ClockEvent) : ClockEvent := mkEvent (ev_dpc e) (duration e) c.

(** Mail between cores: the receiving core, and the call it makes. *)
Inductive Mail : Type :=
| RemoteQueueClockEvent (event : Z)
| RemoteDequeueClockEvent (event : Z)
| DpcOverIpi (dpc : Z)
| RemoteDequeue (thread : Z).

Section Clock.
Context {L : Type} `{IntrFwdList L}.

(** The events by address, the queue, and what the code asks of the hardware: the last time the
    interrupt timer was armed for, and the mail it sent. [broken] is set when a [next] pointer of
    the queue is overwritten with an address that is no event. *)
Record ClockState : Type := mkClock {
  ownerCore : Z;
  evs : gmap Z ClockEvent;
  events : L;
  modifiedTicks : Z;
  uptimeMillis : Z;
  armed : option Z;
  mail : list (Z * Mail);
  broken : bool
}.

Definition set_evs (m : gmap Z ClockEvent) (s : ClockState) : ClockState :=
  mkClock (ownerCore s) m (events s) (modifiedTicks s) (uptimeMillis s) (armed s) (mail s) (broken s).
Definition set_events (l : L) (s : ClockState) : ClockState :=
  mkClock (ownerCore s) (evs s) l (modifiedTicks s) (uptimeMillis s) (armed s) (mail s) (broken s).
Definition set_modifiedTicks (t : Z) (s : ClockState) : ClockState :=
  mkClock (ownerCore s) (evs s) (events s) t (uptimeMillis s) (armed s) (mail s) (broken s).
Definition set_uptime (t : Z) (s : ClockState) : ClockState :=
  mkClock (ownerCore s) (evs s) (events s) (modifiedTicks s) t (armed s) (mail s) (broken s).
Definition ArmInterruptTimer (t : Z) (s : ClockState) : ClockState :=
  mkClock (ownerCore s) (evs s) (events s) (modifiedTicks s) (uptimeMillis s) (Some t) (mail s) (broken s).
Definition send (dest : Z) (m : Mail) (s : ClockState) : ClockState :=
  mkClock (ownerCore s) (evs s) (events s) (modifiedTicks s) (uptimeMillis s) (armed s) (mail s ++ [(dest, m)]) (broken s).
Definition set_broken (b : bool) (s : ClockState) : ClockState :=
  mkClock (ownerCore s) (evs s) (events s) (modifiedTicks s) (uptimeMillis s) (armed s) (mail s) b.
Definition set_owner (c : Z) (s : ClockState) : ClockState :=
  mkClock c (evs s) (events s) (modifiedTicks s) (uptimeMillis s) (armed s) (mail s) (broken s).

Definition front (s : ClockState) : Z := default 0 (head (elements (events s))).
Definition is_empty (s : ClockState) : bool := match elements (events s) with [] => true | _ => false end.

Section Hardware.
(** The timers of the platform. *)
Variable PollTicksToNanos : Z -> Z.
Variable InterruptTimerMaxNanos : Z.

Fixpoint update_loop (m : gmap Z ClockEvent) (scan : list Z) (listDelta : Z) : res (gmap Z ClockEvent) :=
  match scan with
  | [] => Ok m
  | p :: next =>
      if 0 <? listDelta then
        _ ← assert_ (negb (bool_decide (head next = Some p)));
        e ← deref (m !! p);
        let u := units (duration e) in
        if u =? 0 then update_loop m next listDelta
        else if listDelta <? u then Ok (<[p := set_units (u - listDelta) e]> m)
        else update_loop (<[p := set_units 0 e]> m) next (listDelta - u)
      else Ok m
  end.

(** [pollTicks] is what [PollTimer()] returns. A broken queue cannot be traversed. *)
Definition UpdateTimerQueue (pollTicks : Z) (s : ClockState) : res ClockState :=
  _ ← assert_ (negb (broken s));
  let listDelta := PollTicksToNanos (u64 (pollTicks - modifiedTicks s)) in
  let s := set_modifiedTicks pollTicks s in
  m ← update_loop (evs s) (elements (events s)) listDelta;
  Ok (set_evs m s).

(** The search for the place of an event that is not due first. [event->next -= ...] moves the
    pointer, not the duration of the next event. *)
Fixpoint place (scan : list Z) (event : Z) (s : ClockState) : res (bool * ClockState) :=
  match scan with
  | [] => Ok (false, s)
  | p :: rest =>
      e ← deref (evs s !! event);
      x ← deref (evs s !! p);
      let e := set_units (u64 (units (duration e) - units (duration x))) e in
      let s := set_evs (<[event := e]> (evs s)) s in
      match rest with
      | [] => Ok (false, s)
      | n :: _ =>
          x ← deref (evs s !! n);
          if units (duration x) <? units (duration e) then place rest event s
          else
            let s := set_events (InsertAfter p event (events s)) s in
            Ok (true, if units (duration e) =? 0 then s else set_broken true s)
      end
  end.

(** [event] is an address, 0 for null; [core] is the core that makes the call. *)
Definition QueueClockEvent (core pollTicks event : Z) (s : ClockState) : res ClockState :=
  if event =? 0 then Ok s
  else
    e ← deref (evs s !! event);
    if ev_dpc e =? 0 then Ok s
    else
      let e := if callbackCore e =? NoCoreAffinity then set_callbackCore core e else e in
      let s := set_evs (<[event := e]> (evs s)) s in
      if negb (ownerCore s =? core) then Ok (send (ownerCore s) (RemoteQueueClockEvent event) s)
      else
        s ← UpdateTimerQueue pollTicks s;
        e ← deref (evs s !! event);
        let e := set_duration (ToScale (duration e) Nanos) e in
        let s := set_evs (<[event := e]> (evs s)) s in
        let insert_front s :=
          let s := set_events (PushFront event (events s)) s in
          ArmInterruptTimer (Min InterruptTimerMaxNanos (units (duration e))) s in
        if is_empty s then Ok (insert_front s)
        else
          f ← deref (evs s !! front s);
          if units (duration e) <? units (duration f) then
            Ok (insert_front (set_evs (<[front s := set_units (u64 (units (duration f) - units (duration e))) f]> (evs s)) s))
          else
            '(inserted, s) ← place (elements (events s)) event s;
            Ok (if inserted : bool then s else set_events (PushBack event (events s)) s).

Definition DequeueClockEvent (core pollTicks event : Z) (s : ClockState) : res ClockState :=
  if event =? 0 then Ok s
  else if negb (ownerCore s =? core) then Ok (send (ownerCore s) (RemoteDequeueClockEvent event) s)
  else
    s ← UpdateTimerQueue pollTicks s;
    if front s =? event then
      let s := set_events (snd (PopFront (events s))) s in
      if is_empty s then Ok s
      else
        e ← deref (evs s !! event);
        f ← deref (evs s !! front s);
        let f := set_units (u64 (units (duration f) - units (duration e))) f in
        let s := set_evs (<[front s := f]> (evs s)) s in
        Ok (ArmInterruptTimer (Min InterruptTimerMaxNanos (units (duration f))) s)
    else
      let '(following, l) := ListRemove event (events s) in
      let s := set_events l s in
      if following =? 0 then Ok s
      else
        e ← deref (evs s !! event);
        f ← deref (evs s !! following);
        Ok (set_evs (<[following := set_units (u64 (units (duration f) + units (duration e))) f]> (evs s)) s).

(** Pops the events that are due; the result lists the deferred calls to queue, with their cores. *)
Fixpoint pop_due (fuel : nat) (s : ClockState) : res (list (Z * Z) * ClockState) :=
  if is_empty s then Ok ([], s)
  else
    f ← deref (evs s !! front s);
    if negb (units (duration f) =? 0) then Ok ([], s)
    else
      match fuel with
      | O => OutOfFuel
      | S fuel' =>
          '(due, s) ← pop_due fuel' (set_events (snd (PopFront (events s))) s);
          Ok ((callbackCore f, ev_dpc f) :: due, s)
      end.

Definition ClockTickHandler (pollTicks : Z) (s : ClockState) : res (list (Z * Z) * ClockState) :=
  s ← UpdateTimerQueue pollTicks s;
  '(due, s) ← pop_due (length (elements (events s))) s;
  if is_empty s then Ok (due, s)
  else
    f ← deref (evs s !! front s);
    Ok (due, ArmInterruptTimer (Min InterruptTimerMaxNanos (units (duration f))) s).

Definition TimekeepingEventDuration : ScaledTime := mkTime Millis 5.

Definition ClockUptimeDpc (timekeepingEvent core pollTicks : Z) (s : ClockState) : res ClockState :=
  let s := set_uptime (u64 (uptimeMillis s + ToMillis TimekeepingEventDuration)) s in
  e ← deref (evs s !! timekeepingEvent);
  QueueClockEvent core pollTicks timekeepingEvent
    (set_evs (<[timekeepingEvent := set_duration TimekeepingEventDuration e]> (evs s)) s).

Definition StartSystemClock (timekeepingEvent timekeepingDpc core pollTicks : Z) (s : ClockState) : res ClockState :=
  let s := set_owner 0 s in
  let e := mkEvent timekeepingDpc TimekeepingEventDuration core in
  QueueClockEvent core pollTicks timekeepingEvent (set_evs (<[timekeepingEvent := e]> (evs s)) s).

Definition GetUptime (s : ClockState) : ScaledTime := mkTime Millis (uptimeMillis s).
End Hardware.
End Clock.
Arguments ClockState L : clear implicits.
