(* ===== verification/ClockProofs.v ===== *)
(** The clock queue of [Clock.v] holds the deadlines of its events. *)

From S2P Require Import Prelude Maths IntrList Clock.

(** ** Deadlines *)

Definition units_of (m : gmap Z ClockEvent) (p : Z) : Z := match m !! p with Some e => units (duration e) | None => 0 end.

(** Each event with the time it is due, from [base] on. *)
Fixpoint deadlines_from (base : Z) (m : gmap Z ClockEvent) (l : list Z) : list (Z * Z) :=
  match l with
  | [] => []
  | p :: l => let t := base + units_of m p in (p, t) :: deadlines_from t m l
  end.

(** What is left of the time of an event after [d] nanoseconds. *)
Definition elapse (d : Z) (x : Z * Z) : Z * Z := (fst x, Z.max 0 (snd x - d)).

(** The queued events exist, and their durations are numbers of nanoseconds. *)
Definition events_ok (m : gmap Z ClockEvent) (l : list Z) : Prop :=
  NoDup l /\ Forall (fun p => is_Some (m !! p) /\ 0 <= units_of m p) l.

Lemma deadlines_cons m p l : deadlines_from 0 m (p :: l) = (p, units_of m p) :: deadlines_from (units_of m p) m l.
Proof. cbn [deadlines_from]. rewrite Z.add_0_l. reflexivity. Qed.

Lemma deadlines_fst base m l : fst <$> deadlines_from base m l = l.
Proof. revert base. induction l as [| p l IH]; intros base; simpl; [reflexivity |]. rewrite IH. reflexivity. Qed.

Lemma deadlines_ext m m' l : (forall p, p ∈ l -> units_of m' p = units_of m p) -> forall base, deadlines_from base m' l = deadlines_from base m l.
Proof.
  induction l as [| p l IH]; intros E base; simpl; [reflexivity |].
  rewrite E by set_solver. rewrite IH by set_solver. reflexivity.
Qed.

Lemma deadlines_shift m l c : forall base, deadlines_from (base + c) m l = (fun x => (fst x, snd x + c)) <$> deadlines_from base m l.
Proof.
  induction l as [| p l IH]; intros base; simpl; [reflexivity |].
  replace (base + c + units_of m p) with (base + units_of m p + c) by lia. rewrite IH. reflexivity.
Qed.

Lemma deadlines_at m l c : deadlines_from c m l = (fun x => (fst x, snd x + c)) <$> deadlines_from 0 m l.
Proof. rewrite <- deadlines_shift. reflexivity. Qed.

Lemma deadlines_bound m l base : Forall (fun p => 0 <= units_of m p) l -> Forall (fun x => base <= snd x) (deadlines_from base m l).
Proof.
  intros H. revert base. induction H as [| p l Hp Hl IH]; intros base; simpl; constructor; [simpl; lia |].
  eapply Forall_impl; [apply IH |]. simpl. intros; lia.
Qed.

Lemma units_of_insert m p e : units_of (<[p := e]> m) p = units (duration e).
Proof. unfold units_of. rewrite lookup_insert_eq. reflexivity. Qed.
Lemma units_of_insert_ne m p q e : p <> q -> units_of (<[p := e]> m) q = units_of m q.
Proof. intros Hne. unfold units_of. rewrite lookup_insert_ne by assumption. reflexivity. Qed.

Lemma events_ok_insert m p e l : (p ∉ l) -> events_ok m l -> events_ok (<[p := e]> m) l.
Proof.
  intros Hp [Hnd Hf]. split; [assumption |]. rewrite Forall_forall in *. intros q Hq.
  rewrite lookup_insert_ne, units_of_insert_ne by set_solver. auto.
Qed.

Lemma events_ok_cons m p l : events_ok m (p :: l) -> (p ∉ l) /\ events_ok m l /\ exists e, m !! p = Some e /\ units_of m p = units (duration e) /\ 0 <= units (duration e).
Proof.
  intros [Hnd Hf]. apply NoDup_cons in Hnd as [Hp Hnd]. apply Forall_cons in Hf as [[[e He] Hu] Hf].
  split; [assumption |]. split; [split; assumption |]. exists e. unfold units_of in *. rewrite He in *. auto.
Qed.

(** Only the units of events change. *)
Definition same_events (m m' : gmap Z ClockEvent) : Prop :=
  forall p, match m !! p, m' !! p with
  | Some e, Some e' => ev_dpc e' = ev_dpc e /\ callbackCore e' = callbackCore e /\ scale (duration e') = scale (duration e)
  | None, None => True
  | _, _ => False
  end.

Lemma same_events_refl m : same_events m m.
Proof. intros p. destruct (m !! p); auto. Qed.

Lemma same_events_set m m' p e u : same_events m m' -> m' !! p = Some e -> same_events m (<[p := set_units u e]> m').
Proof.
  intros H He q. specialize (H q). destruct (decide (p = q)) as [<- | Hne]; [| rewrite lookup_insert_ne by assumption; exact H].
  rewrite lookup_insert_eq. rewrite He in H. destruct (m !! p); [| contradiction]. exact H.
Qed.

Lemma same_events_trans m1 m2 m3 : same_events m1 m2 -> same_events m2 m3 -> same_events m1 m3.
Proof.
  intros H1 H2 p. specialize (H1 p). specialize (H2 p). destruct (m1 !! p), (m2 !! p), (m3 !! p); auto; try contradiction.
  destruct H1 as (-> & -> & ->) || idtac. intuition congruence.
Qed.

(** ** [UpdateTimerQueue] *)

Lemma elapse_shift d u l : d < u -> Forall (fun x => 0 <= snd x) l ->
  (fun x : Z * Z => (fst x, snd x + (u - d))) <$> l = elapse d <$> ((fun x => (fst x, snd x + u)) <$> l).
Proof.
  intros Hd Hl. rewrite <- list_fmap_compose. apply list_fmap_ext. intros i [q t] Hi. unfold elapse. simpl.
  rewrite Forall_forall in Hl. specialize (Hl (q, t) (list_elem_of_lookup_2 _ _ _ Hi)). simpl in Hl. f_equal. lia.
Qed.

Lemma update_loop_spec l : forall m d, events_ok m l -> 0 <= d ->
  exists m', update_loop m l d = Ok m' /\ deadlines_from 0 m' l = elapse d <$> deadlines_from 0 m l /\
    events_ok m' l /\ same_events m m' /\ (forall q, (q ∉ l) -> m' !! q = m !! q).
Proof.
  induction l as [| p l IH]; intros m d Hok Hd; [| cbn [update_loop]].
  - exists m. repeat split; auto; [apply Hok .. | apply same_events_refl].
  - destruct (events_ok_cons _ _ _ Hok) as (Hp & Hl & e & He & Hue & Hu).
    assert (Hpos : forall base, Forall (fun x => base <= snd x) (deadlines_from base m l))
      by (intros base; apply deadlines_bound; eapply Forall_impl; [apply Hl |]; intros q [_ H']; exact H').
    destruct (Z.ltb_spec 0 d) as [Hd0 | Hd0].
    2:{ exists m. repeat split; auto; [| apply Hok .. | apply same_events_refl].
        rewrite <- (list_fmap_id (deadlines_from 0 m (p :: l))) at 1. apply list_fmap_ext. intros i [q t] Hi. unfold elapse. simpl. f_equal.
        pose proof (deadlines_bound m (p :: l) 0 ltac:(eapply Forall_impl; [apply Hok |]; intros ? [_ H']; exact H')) as Hb.
        rewrite Forall_forall in Hb. specialize (Hb (q, t) (list_elem_of_lookup_2 _ _ _ Hi)). simpl in Hb. lia. }
    rewrite bool_decide_eq_false_2 by (destruct l; simpl; [discriminate |]; intros [= ->]; set_solver). cbn [negb assert_ mbind res_bind].
    rewrite He. cbn [deref mbind res_bind].
    destruct (Z.eqb_spec (units (duration e)) 0) as [E0 | E0]; [| destruct (Z.ltb_spec d (units (duration e))) as [Hlt | Hge]].
    + destruct (IH m d Hl Hd) as (m' & Em & Hdl & Hok' & Hs & Hout). exists m'. split; [assumption |].
      assert (Ep : m' !! p = Some e) by (rewrite Hout by assumption; assumption).
      assert (Eu : units_of m' p = 0) by (unfold units_of; rewrite Ep; assumption).
      rewrite !deadlines_cons, fmap_cons, Hue, Eu, E0. split; [rewrite Hdl; unfold elapse at 2; simpl; f_equal; f_equal; lia |].
      split; [| split; [assumption |]]; [| intros q Hq; apply Hout; set_solver].
      split; [apply Hok |]. constructor; [rewrite Ep, Eu; split; [eauto | lia] | apply Hok'].
    + exists (<[p := set_units (units (duration e) - d) e]> m). split; [reflexivity |].
      rewrite !deadlines_cons, fmap_cons, Hue, units_of_insert, (deadlines_ext m) by (intros q Hq; apply units_of_insert_ne; set_solver).
      split; [| split; [| split; [apply same_events_set; [apply same_events_refl | assumption] | intros q Hq; apply lookup_insert_ne; set_solver]]].
      * unfold elapse at 1. simpl. f_equal; [f_equal; lia |].
        rewrite (deadlines_at m l (units (duration e) - d)), (deadlines_at m l (units (duration e))). apply elapse_shift; [assumption | apply Hpos].
      * split; [apply Hok |]. constructor; [| apply (events_ok_insert m p); assumption].
        rewrite lookup_insert_eq, units_of_insert. simpl. split; [eauto | lia].
    + assert (Hl' : events_ok (<[p := set_units 0 e]> m) l) by (apply events_ok_insert; assumption).
      destruct (IH _ (d - units (duration e)) Hl' ltac:(lia)) as (m' & Em & Hdl & Hok' & Hs & Hout). exists m'. split; [assumption |].
      assert (Ep : m' !! p = Some (set_units 0 e)) by (rewrite Hout by assumption; apply lookup_insert_eq).
      assert (Eu : units_of m' p = 0) by (unfold units_of; rewrite Ep; reflexivity).
      rewrite !deadlines_cons, fmap_cons, Hue, Eu, Hdl, (deadlines_ext m) by (intros q Hq; apply units_of_insert_ne; set_solver).
      split; [| split; [| split]].
      * unfold elapse at 2. simpl. f_equal; [f_equal; lia |].
        rewrite (deadlines_at m l (units (duration e))), <- list_fmap_compose. apply list_fmap_ext.
        intros i [q t] _. unfold elapse. simpl. f_equal. lia.
      * split; [apply Hok |]. constructor; [rewrite Ep, Eu; split; [eauto | lia] | apply Hok'].
      * eapply same_events_trans; [| exact Hs]. apply same_events_set; [apply same_events_refl | assumption].
      * intros q Hq. rewrite Hout by set_solver. apply lookup_insert_ne. set_solver.
Qed.

(** ** Placing an event *)

Fixpoint total (m : gmap Z ClockEvent) (l : list Z) : Z := match l with [] => 0 | p :: l => units_of m p + total m l end.

Lemma deadlines_app m l1 l2 : forall base, deadlines_from base m (l1 ++ l2) = deadlines_from base m l1 ++ deadlines_from (base + total m l1) m l2.
Proof.
  induction l1 as [| p l1 IH]; intros base; simpl; [rewrite Z.add_0_r; reflexivity |].
  rewrite IH. do 3 f_equal. lia.
Qed.

Lemma total_ext m m' l : (forall p, p ∈ l -> units_of m' p = units_of m p) -> total m' l = total m l.
Proof. induction l as [| p l IH]; intros E; simpl; [reflexivity |]. rewrite E, IH by set_solver. reflexivity. Qed.

Section Queue.
Context {L : Type} `{HLaws : IntrFwdListLaws L}.

(** Only the units of [event] and the list differ, by what [place] did. *)
Record placed (event r : Z) (l1 l2 : list Z) (s s' : ClockState L) (inserted : bool) : Prop := mkPlaced {
  pl_evs : exists e, evs s !! event = Some e /\ evs s' = <[event := set_units r e]> (evs s);
  pl_nonneg : 0 <= r;
  pl_fields : ownerCore s' = ownerCore s /\ modifiedTicks s' = modifiedTicks s /\ uptimeMillis s' = uptimeMillis s /\ mail s' = mail s /\ armed s' = armed s;
  pl_list : if inserted then exists n l3, l2 = n :: l3 /\ elements (events s') = l1 ++ event :: l2 /\ r <= units_of (evs s) n
            else l2 = [] /\ events s' = events s;
  pl_broken : broken s' = broken s || (inserted && negb (r =? 0))
}.

Lemma place_spec event : forall scan s l1 e, elements (events s) = l1 ++ scan -> events_ok (evs s) (l1 ++ scan) -> (event ∉ l1 ++ scan) ->
  evs s !! event = Some e -> units (duration e) < two64 -> scan <> [] -> units_of (evs s) (default 0 (head scan)) <= units (duration e) ->
  exists inserted s' l2 l3, place scan event s = Ok (inserted, s') /\ scan = l2 ++ l3 /\ l2 <> [] /\
    placed event (units (duration e) - total (evs s) l2) (l1 ++ l2) l3 s s' inserted.
Proof.
  induction scan as [| p rest IH]; intros s l1 e El Hok Hout He Hlt Hne Hle; [congruence |]. cbn [place].
  assert (Hp : exists x, evs s !! p = Some x /\ units_of (evs s) p = units (duration x) /\ 0 <= units (duration x)).
  { destruct Hok as [_ Hf]. rewrite Forall_forall in Hf. destruct (Hf p ltac:(set_solver)) as [[x Hx] Hu]. exists x. unfold units_of in *. rewrite Hx in *. auto. }
  destruct Hp as (x & Hx & Hux & Hx0). simpl in Hle. rewrite Hux in Hle.
  rewrite He, Hx. cbn [deref mbind res_bind]. rewrite u64_small by (unfold two64 in *; lia).
  set (r := units (duration e) - units (duration x)).
  set (s1 := set_evs _ s). destruct rest as [| n rest].
  - exists false, s1, [p], []. split; [reflexivity |]. split; [reflexivity |]. split; [discriminate |]. simpl. rewrite Hux, Z.add_0_r.
    constructor; simpl; auto; [exists e; auto | unfold r; lia | destruct (broken s); reflexivity].
  - assert (Hn : exists y, evs s !! n = Some y /\ units_of (evs s) n = units (duration y)).
    { destruct Hok as [_ Hf]. rewrite Forall_forall in Hf. destruct (Hf n ltac:(set_solver)) as [[y Hy] _]. exists y. unfold units_of. rewrite Hy. auto. }
    destruct Hn as (y & Hy & Huy).
    assert (Hy1 : evs s1 !! n = Some y) by (simpl; rewrite lookup_insert_ne by set_solver; assumption).
    rewrite Hy1. cbn [deref mbind res_bind set_units duration units]. fold r.
    destruct (Z.ltb_spec (units (duration y)) r) as [Hlt' | Hge].
    + destruct (IH s1 (l1 ++ [p]) (set_units r e)) as (ins & s' & l2 & l3 & Ep & Esc & _ & [P1 P2 P3 P4 P5]).
      * simpl. rewrite <- app_assoc. exact El.
      * simpl. rewrite <- app_assoc. apply events_ok_insert; [exact Hout | exact Hok].
      * rewrite <- app_assoc. exact Hout.
      * apply lookup_insert_eq.
      * simpl. unfold r. unfold two64 in *. lia.
      * discriminate.
      * simpl. rewrite units_of_insert_ne by set_solver. rewrite Huy. lia.
      * simpl in P1, P2, P4, P5. exists ins, s', (p :: l2), l3. split; [exact Ep |]. split; [rewrite Esc; reflexivity |]. split; [discriminate |].
        assert (Et : total (<[event := set_units r e]> (evs s)) l2 = total (evs s) l2)
          by (apply total_ext; intros q Hq; apply units_of_insert_ne; intros ->; apply Hout; rewrite Esc; set_solver).
        simpl. rewrite Hux. rewrite Et in *.
        replace (units (duration e) - (units (duration x) + total (evs s) l2)) with (r - total (evs s) l2) by (unfold r; lia).
        constructor; auto.
        -- destruct P1 as (e1 & He1 & ->). rewrite lookup_insert_eq in He1. injection He1 as <-. exists e. split; [assumption |].
           rewrite insert_insert_eq. reflexivity.
        -- destruct ins; [| assumption]. destruct P4 as (n' & l4 & -> & E1 & E2). exists n', l4. split; [reflexivity |].
           split; [rewrite E1, <- !app_assoc; reflexivity |]. rewrite units_of_insert_ne in E2; [assumption |]. intros ->. apply Hout. rewrite Esc. set_solver.
    + exists true, (if r =? 0 then set_events (InsertAfter p event (events s1)) s1 else set_broken true (set_events (InsertAfter p event (events s1)) s1)), [p], (n :: rest).
      split; [reflexivity |]. split; [reflexivity |]. split; [discriminate |]. simpl. rewrite Hux, Z.add_0_r. fold r.
      assert (Ei : elements (InsertAfter p event (events s)) = l1 ++ p :: event :: n :: rest)
        by (apply InsertAfter_elements; [rewrite El; exact Hout | exact El | rewrite El; apply Hok]).
      constructor.
      * exists e. split; [assumption |]. destruct (r =? 0); reflexivity.
      * unfold r; lia.
      * destruct (r =? 0); auto.
      * exists n, rest. split; [reflexivity |]. rewrite <- app_assoc. split; [destruct (r =? 0); exact Ei | rewrite Huy; lia].
      * destruct (r =? 0); simpl; destruct (broken s); reflexivity.
Qed.

(** ** The queue *)

Definition deadlines (s : ClockState L) : list (Z * Z) := deadlines_from 0 (evs s) (elements (events s)).

Record clock_ok (s : ClockState L) : Prop := mkClockOk {
  co_intact : broken s = false;
  co_events : events_ok (evs s) (elements (events s));
  co_null : 0 ∉ elements (events s);
  co_range : Forall (fun x => snd x < two64) (deadlines s)
}.

Variable PollTicksToNanos : Z -> Z.
Variable InterruptTimerMaxNanos : Z.
Hypothesis nanos_nonneg : forall t, 0 <= t -> 0 <= PollTicksToNanos t.

(** The nanoseconds since the queue was last brought up to date. *)
Definition elapsed (s : ClockState L) (pollTicks : Z) : Z := PollTicksToNanos (u64 (pollTicks - modifiedTicks s)).

Lemma elapsed_nonneg s t : 0 <= elapsed s t.
Proof. apply nanos_nonneg, u64_range. Qed.

(** What an update keeps. *)
Record aged (t : Z) (s s' : ClockState L) : Prop := mkAged {
  ag_ok : clock_ok s';
  ag_deadlines : deadlines s' = elapse (elapsed s t) <$> deadlines s;
  ag_events : events s' = events s;
  ag_same : same_events (evs s) (evs s');
  ag_out : forall q, (q ∉ elements (events s)) -> evs s' !! q = evs s !! q;
  ag_owner : ownerCore s' = ownerCore s
}.

Lemma update_spec s t : clock_ok s -> exists s', UpdateTimerQueue PollTicksToNanos t s = Ok s' /\ aged t s s'.
Proof.
  intros [Hb Hev Hz Hr]. unfold UpdateTimerQueue. rewrite Hb. cbn [negb assert_ mbind res_bind].
  destruct (update_loop_spec _ _ (elapsed s t) Hev (elapsed_nonneg s t)) as (m' & E & Hd & Hok & Hs & Hout).
  cbn [set_modifiedTicks evs events]. unfold elapsed in E. rewrite E. cbn [mbind res_bind]. eexists. split; [reflexivity |].
  constructor; auto. constructor; auto. unfold deadlines. simpl. rewrite Hd. apply Forall_fmap. eapply Forall_impl; [exact Hr |].
  intros [q u] Hu. simpl in *. pose proof (elapsed_nonneg s t). unfold two64 in *. lia.
Qed.

(** ** Events that are due *)

Definition due (x : Z * Z) : Prop := snd x = 0.

Lemma units_front s p l : elements (events s) = p :: l -> clock_ok s ->
  exists e, evs s !! p = Some e /\ front s = p /\ is_empty s = false /\ deadlines s = (p, units (duration e)) :: deadlines_from (units (duration e)) (evs s) l /\ 0 <= units (duration e).
Proof.
  intros E [_ Hev _ _]. unfold front, is_empty, deadlines. rewrite E in *.
  destruct (events_ok_cons _ _ _ Hev) as (_ & _ & e & He & Hu & Hp). exists e. rewrite deadlines_cons, Hu. auto.
Qed.

Lemma deadlines_pop s p l : elements (events s) = p :: l -> clock_ok s -> units_of (evs s) p = 0 ->
  let s' := set_events (snd (PopFront (events s))) s in clock_ok s' /\ elements (events s') = l /\ deadlines s = (p, 0) :: deadlines s'.
Proof.
  intros E [Hb Hev Hz Hr] Hu s'. assert (El : elements (events s') = l) by (unfold s'; simpl; rewrite PopFront_elements, E; reflexivity).
  rewrite E in *. assert (Ed : deadlines s = (p, 0) :: deadlines s').
  { unfold deadlines. rewrite E, El, deadlines_cons, Hu. reflexivity. }
  split; [| split; assumption]. constructor; [assumption | | | rewrite Ed in Hr; apply Forall_cons in Hr; apply Hr].
  - rewrite El. apply (events_ok_cons _ _ _ Hev).
  - rewrite El. set_solver.
Qed.

Definition call_of (m : gmap Z ClockEvent) (p : Z) : Z * Z :=
  match m !! p with Some e => (callbackCore e, ev_dpc e) | None => (0, 0) end.

(** [pop_due] takes the events of deadline 0, which come first. *)
Lemma pop_due_spec : forall fuel s, clock_ok s -> (length (elements (events s)) <= fuel)%nat ->
  exists s', pop_due fuel s = Ok (call_of (evs s) <$> (fst <$> filter due (deadlines s)), s') /\
    clock_ok s' /\ evs s' = evs s /\ deadlines s' = filter (fun x => ~ due x) (deadlines s).
Proof.
  induction fuel as [| fuel IH]; intros s Hok Hlen; destruct (elements (events s)) as [| p l] eqn:E; simpl in Hlen; try lia.
  1,2: exists s; unfold deadlines; cbn [pop_due]; unfold is_empty; rewrite E; auto.
  destruct (units_front s p l E Hok) as (e & He & Hf & Hem & Hd & Hu).
  cbn [pop_due]. rewrite Hem, Hf, He. cbn [deref mbind res_bind].
  destruct (Z.eqb_spec (units (duration e)) 0) as [E0 | E0]; cbn [negb].
  - assert (Eu : units_of (evs s) p = 0) by (unfold units_of; rewrite He; assumption).
    destruct (deadlines_pop s p l E Hok Eu) as (Hok' & El & Ed).
    destruct (IH _ Hok' ltac:(rewrite El; lia)) as (s' & Ep & Hs' & Hev & Hrest). rewrite Ep. cbn [mbind res_bind].
    exists s'. rewrite Ed, filter_cons_True, filter_cons_False by (unfold due; simpl; intuition congruence).
    split; [| split; [assumption | split; [exact Hev | exact Hrest]]].
    rewrite !fmap_cons. unfold call_of at 2. simpl. rewrite He. reflexivity.
  - exists s. assert (Hnd : Forall (fun x => ~ due x) (deadlines s)).
    { rewrite Hd. constructor; [exact E0 |]. eapply Forall_impl; [apply (deadlines_bound (evs s) l (units (duration e))) |].
      - destruct (events_ok_cons (evs s) p l) as (_ & [_ Hl] & _); [rewrite <- E; apply Hok |].
        eapply Forall_impl; [exact Hl |]. intros q [_ Hq]. exact Hq.
      - intros x Hx. unfold due. cbn beta in Hx. lia. }
    replace (filter due (deadlines s)) with (@nil (Z * Z)).
    2:{ clear -Hnd. induction Hnd as [| x ds Hx Hds IHd]; [reflexivity |]. rewrite filter_cons_False by assumption. exact IHd. }
    split; [reflexivity |]. split; [assumption |]. split; [reflexivity |].
    clear -Hnd. induction Hnd as [| x ds Hx Hds IHd]; [reflexivity |]. rewrite filter_cons_True by assumption. f_equal. exact IHd.
Qed.

(** ** Queueing *)

(** The list after an event went in between [l1] and [l2], with the units that give it its time. *)
Lemma deadlines_insert m event e n l1 l2 : (event ∉ l1 ++ l2) ->
  units (duration e) = n - total m l1 -> n = total m l1 \/ l2 = [] ->
  deadlines_from 0 (<[event := e]> m) (l1 ++ event :: l2) = deadlines_from 0 m l1 ++ (event, n) :: deadlines_from (total m l1) m l2.
Proof.
  intros Hout Hu Hcase. set (m' := <[event := e]> m).
  assert (Hext : forall q, q ∈ l1 ++ l2 -> units_of m' q = units_of m q) by (intros q Hq; apply units_of_insert_ne; set_solver).
  rewrite deadlines_app. cbn [deadlines_from].
  assert (Hself : units_of m' event = n - total m l1) by (unfold m'; rewrite units_of_insert; exact Hu). rewrite Hself, Z.add_0_l.
  rewrite (deadlines_ext m m' l1), (total_ext m m' l1), (deadlines_ext m m' l2) by (intros q Hq; apply Hext; set_solver).
  replace (total m l1 + (n - total m l1)) with n by lia. destruct Hcase as [-> | ->]; reflexivity.
Qed.

Lemma front_insert m event e f p l : (event ∉ p :: l) -> units_of m p = units (duration f) -> 0 <= units (duration e) <= units (duration f) -> units (duration f) < two64 ->
  (p ∉ l) ->
  deadlines_from 0 (<[p := set_units (u64 (units (duration f) - units (duration e))) f]> (<[event := e]> m)) (event :: p :: l) =
  (event, units (duration e)) :: deadlines_from 0 m (p :: l).
Proof.
  intros Hout Hp He Hf Hpl. rewrite deadlines_cons, units_of_insert_ne, units_of_insert by set_solver. f_equal.
  cbn [deadlines_from]. rewrite units_of_insert. cbn [set_units duration units]. rewrite u64_small by (unfold two64 in *; lia).
  replace (units (duration e) + (units (duration f) - units (duration e))) with (0 + units_of m p) by (rewrite Hp; lia).
  f_equal. apply deadlines_ext. intros q Hq. rewrite !units_of_insert_ne by set_solver. reflexivity.
Qed.

(** An event outside the queue can be changed freely. *)
Lemma set_outside s event e : clock_ok s -> (event ∉ elements (events s)) ->
  let s' := set_evs (<[event := e]> (evs s)) s in clock_ok s' /\ deadlines s' = deadlines s.
Proof.
  intros [Hb Hev Hz Hr] Hout s'. assert (Ed : deadlines s' = deadlines s)
    by (apply deadlines_ext; intros q Hq; apply units_of_insert_ne; intros ->; contradiction).
  split; [| assumption]. constructor; simpl; auto; [apply events_ok_insert; assumption | rewrite Ed; assumption].
Qed.

Lemma events_ok_add m event e l l' : events_ok m l -> l' ≡ₚ event :: l -> (event ∉ l) -> 0 <= units (duration e) ->
  events_ok (<[event := e]> m) l'.
Proof.
  intros [Hnd Hf] Hp Hout Hu. split; [rewrite Hp; apply NoDup_cons; auto |]. rewrite Hp. constructor.
  - rewrite lookup_insert_eq, units_of_insert. eauto.
  - apply events_ok_insert; [assumption | split; assumption].
Qed.

Lemma clock_ok_of s event n ds : broken s = false -> events_ok (evs s) (elements (events s)) -> event <> 0 -> n < two64 ->
  deadlines s ≡ₚ (event, n) :: ds -> Forall (fun x => fst x <> 0 /\ snd x < two64) ds -> clock_ok s.
Proof.
  intros Hb Hev H0 Hn Hp Hds. constructor; auto.
  - rewrite <- (deadlines_fst 0 (evs s) (elements (events s))). fold (deadlines s). rewrite Hp. simpl. rewrite not_elem_of_cons. split; [congruence |].
    intros [x [E Hx]]%list_elem_of_fmap. rewrite Forall_forall in Hds. apply (Hds x Hx). congruence.
  - rewrite Hp. constructor; [assumption |]. eapply Forall_impl; [exact Hds |]. intros x [_ Hx]. exact Hx.
Qed.

Lemma clock_ok_bounds s : clock_ok s -> Forall (fun x => fst x <> 0 /\ snd x < two64) (deadlines s).
Proof.
  intros [Hb Hev Hz Hr]. apply Forall_forall. intros x Hx. rewrite Forall_forall in Hr. split; [| auto].
  intros E. apply Hz. rewrite <- (deadlines_fst 0 (evs s) (elements (events s))). apply list_elem_of_fmap. exists x. split; [congruence | exact Hx].
Qed.

(** What [place] and the [PushBack] after it leave. *)
Lemma placed_spec s s1 event e l2 l3 inserted :
  clock_ok s -> event <> 0 -> (event ∉ elements (events s)) -> evs s !! event = Some e -> 0 <= units (duration e) < two64 ->
  elements (events s) = l2 ++ l3 -> l2 <> [] ->
  placed event (units (duration e) - total (evs s) l2) l2 l3 s s1 inserted ->
  let s' := if inserted then s1 else set_events (PushBack event (events s1)) s1 in
  if broken s' then exists x y, x ∈ deadlines s /\ y ∈ deadlines s /\ snd x < units (duration e) <= snd y
  else clock_ok s' /\ deadlines s' ≡ₚ (event, units (duration e)) :: deadlines s.
Proof.
  intros Hok H0 Hout He Hn E Hl2 [(e' & He' & Hev') Hr _ Hlist Hbr] s'. rewrite He in He'. injection He' as <-.
  pose proof (co_events _ Hok) as Hev. rewrite (co_intact _ Hok) in Hbr. rewrite E in Hout, Hev.
  set (r := units (duration e) - total (evs s) l2) in *.
  assert (El : elements (events s') = l2 ++ event :: l3).
  { unfold s'. destruct inserted; [destruct Hlist as (n & l4 & _ & El & _); exact El |]. destruct Hlist as [-> Ee]. simpl.
    rewrite PushBack_elements, Ee, E, app_nil_r; [reflexivity |]. rewrite Ee, E. exact Hout. }
  assert (Em : evs s' = <[event := set_units r e]> (evs s)) by (unfold s'; destruct inserted; assumption).
  assert (Ed : deadlines s = deadlines_from 0 (evs s) l2 ++ deadlines_from (total (evs s) l2) (evs s) l3) by (unfold deadlines; rewrite E, deadlines_app; reflexivity).
  assert (Hb' : broken s' = inserted && negb (r =? 0)) by (unfold s'; destruct inserted; exact Hbr).
  rewrite Hb'. destruct (inserted && negb (r =? 0)) eqn:Hi.
  - apply andb_true_iff in Hi as [-> Hr0%negb_true_iff%Z.eqb_neq]. destruct Hlist as (n & l4 & -> & _ & Hrn).
    destruct l2 as [| q l2 _] using rev_ind; [congruence |].
    assert (Et : total (evs s) (l2 ++ [q]) = total (evs s) l2 + units_of (evs s) q) by (clear; induction l2 as [| z l2 IH]; simpl; lia).
    exists (q, total (evs s) (l2 ++ [q])), (n, total (evs s) (l2 ++ [q]) + units_of (evs s) n). rewrite Ed. split; [| split].
    + rewrite deadlines_app. apply elem_of_app. left. apply elem_of_app. right. simpl. rewrite Z.add_0_l, Et. left.
    + apply elem_of_app. right. simpl. left.
    + simpl. unfold r in *. lia.
  - assert (Hcase : units (duration e) = total (evs s) l2 \/ l3 = []).
    { destruct inserted; [left | right; apply Hlist]. simpl in Hi. apply negb_false_iff, Z.eqb_eq in Hi. unfold r in Hi. lia. }
    assert (Hp : deadlines s' ≡ₚ (event, units (duration e)) :: deadlines s).
    { unfold deadlines at 1. rewrite El, Em, (deadlines_insert _ _ _ (units (duration e))); auto. rewrite Ed. symmetry. apply Permutation_middle. }
    split; [| exact Hp]. apply (clock_ok_of s' event (units (duration e)) (deadlines s)); auto; [| apply Hn | apply clock_ok_bounds; assumption].
    rewrite El, Em. apply (events_ok_add _ _ _ (l2 ++ l3)); auto. symmetry. apply Permutation_middle.
Qed.

(** Adding an event to a queue that is up to date. *)
Lemma insert_spec s event e : clock_ok s -> event <> 0 -> (event ∉ elements (events s)) -> evs s !! event = Some e ->
  0 <= units (duration e) < two64 ->
  exists s', (let insert_front s := ArmInterruptTimer (Min InterruptTimerMaxNanos (units (duration e))) (set_events (PushFront event (events s)) s) in
    if is_empty s then Ok (insert_front s)
    else
      f ← deref (evs s !! front s);
      if units (duration e) <? units (duration f) then
        Ok (insert_front (set_evs (<[front s := set_units (u64 (units (duration f) - units (duration e))) f]> (evs s)) s))
      else
        '(inserted, s) ← place (elements (events s)) event s;
        Ok (if inserted : bool then s else set_events (PushBack event (events s)) s)) = Ok s' /\
    if broken s' then exists x y, x ∈ deadlines s /\ y ∈ deadlines s /\ snd x < units (duration e) <= snd y
    else clock_ok s' /\ deadlines s' ≡ₚ (event, units (duration e)) :: deadlines s.
Proof.
  intros Hok H0 Hout He Hn. pose proof (clock_ok_bounds s Hok) as Hbd. cbv zeta.
  destruct (elements (events s)) as [| p l] eqn:E.
  - unfold is_empty. rewrite E. eexists. split; [reflexivity |]. cbn [ArmInterruptTimer set_events broken]. rewrite (co_intact _ Hok).
    assert (El : elements (PushFront event (events s)) = [event]) by (rewrite PushFront_elements, E; [reflexivity | rewrite E; set_solver]).
    set (s' := ArmInterruptTimer _ _).
    assert (Hp : deadlines s' ≡ₚ (event, units (duration e)) :: deadlines s).
    { unfold deadlines, s'. cbn [ArmInterruptTimer set_events evs events]. rewrite El, E, deadlines_cons. unfold units_of. rewrite He. reflexivity. }
    split; [| exact Hp]. apply (clock_ok_of s' event (units (duration e)) (deadlines s)); auto; [apply Hok | | apply Hn].
    unfold s'. cbn [ArmInterruptTimer set_events evs events]. rewrite El. split; [apply NoDup_singleton |]. constructor; [| constructor].
    unfold units_of. rewrite He. split; [eauto | apply Hn].
  - destruct (units_front s p l E Hok) as (f & Hf & Hfr & Hem & Hd & Hf0). rewrite Hem, Hfr, Hf. cbn [deref mbind res_bind].
    assert (Huf : units_of (evs s) p = units (duration f)) by (unfold units_of; rewrite Hf; reflexivity).
    assert (Hf64 : units (duration f) < two64) by (pose proof (co_range _ Hok) as Hr; rewrite Hd in Hr; apply Forall_cons in Hr; apply Hr).
    pose proof (co_events _ Hok) as Hev. rewrite E in Hev. destruct (events_ok_cons _ _ _ Hev) as (Hpl & Hevl & _).
    destruct (Z.ltb_spec (units (duration e)) (units (duration f))) as [Hlt | Hge].
    + eexists. split; [reflexivity |]. cbn [ArmInterruptTimer set_events set_evs broken]. rewrite (co_intact _ Hok).
      set (s' := ArmInterruptTimer _ _).
      assert (El : elements (events s') = event :: p :: l) by (unfold s'; simpl; rewrite PushFront_elements, E; [reflexivity | rewrite E; exact Hout]).
      assert (Em : evs s' = <[p := set_units (u64 (units (duration f) - units (duration e))) f]> (<[event := e]> (evs s)))
        by (unfold s'; simpl; rewrite (insert_id (evs s) event e) by assumption; reflexivity).
      assert (Ed : deadlines s' = (event, units (duration e)) :: deadlines s).
      { unfold deadlines at 1. rewrite El, Em. rewrite front_insert; auto; [| lia]. unfold deadlines. rewrite E. reflexivity. }
      split; [| rewrite Ed; reflexivity]. apply (clock_ok_of s' event (units (duration e)) (deadlines s)); auto; [apply Hok | | apply Hn | rewrite Ed; reflexivity].
      rewrite El, Em. split; [apply NoDup_cons; split; [assumption |]; apply Hev |].
      constructor; [rewrite lookup_insert_ne, lookup_insert_eq, units_of_insert_ne, units_of_insert by set_solver; split; [eauto | apply Hn] |].
      constructor; [rewrite lookup_insert_eq, units_of_insert; cbn; rewrite u64_small by (unfold two64 in *; lia); split; [eauto | lia] |].
      apply (events_ok_insert _ p); [assumption |]. apply events_ok_insert; [set_solver | assumption].
    + destruct (place_spec event (p :: l) s [] e E Hev Hout He ltac:(lia) ltac:(discriminate) ltac:(simpl; rewrite Huf; lia)) as (ins & s1 & l2 & l3 & Ep & Esc & Hne & Hpl').
      rewrite Ep. cbn [mbind res_bind]. eexists. split; [reflexivity |]. rewrite <- E in Hout.
      apply (placed_spec s s1 event e l2 l3); auto; congruence.
Qed.

Lemma queue_spec s t event e : clock_ok s -> event <> 0 -> (event ∉ elements (events s)) -> evs s !! event = Some e -> ev_dpc e <> 0 ->
  let n := units (ToScale (duration e) Nanos) in
  let ds := elapse (elapsed s t) <$> deadlines s in
  exists s', QueueClockEvent PollTicksToNanos InterruptTimerMaxNanos (ownerCore s) t event s = Ok s' /\
    if broken s' then exists x y, x ∈ ds /\ y ∈ ds /\ snd x < n <= snd y
    else clock_ok s' /\ deadlines s' ≡ₚ (event, n) :: ds.
Proof.
  intros Hok H0 Hout He Hd n ds. unfold QueueClockEvent. rewrite (proj2 (Z.eqb_neq _ _) H0), He. cbn [deref mbind res_bind].
  rewrite (proj2 (Z.eqb_neq _ _) Hd). set (e0 := if _ : bool then _ else e).
  assert (Ee0 : duration e0 = duration e) by (unfold e0; destruct (_ =? _); reflexivity).
  destruct (set_outside s event e0 Hok Hout) as [Hok0 Ed0]. set (s0 := set_evs (<[event := e0]> (evs s)) s) in *.
  change (ownerCore s0) with (ownerCore s). rewrite Z.eqb_refl. cbn [negb].
  destruct (update_spec s0 t Hok0) as (s1 & -> & [Hok1 Ed1 Ev1 _ Hout1 _]). cbn [mbind res_bind].
  rewrite (Hout1 event Hout). assert (He0 : evs s0 !! event = Some e0) by apply lookup_insert_eq. rewrite He0. cbn [deref mbind res_bind].
  assert (Hout' : event ∉ elements (events s1)) by (rewrite Ev1; exact Hout).
  set (e1 := set_duration _ e0). destruct (set_outside s1 event e1 Hok1 Hout') as [Hok2 Ed2].
  assert (Hn : units (duration e1) = n) by (unfold e1, n; simpl; rewrite Ee0; reflexivity).
  destruct (insert_spec _ event e1 Hok2 H0 Hout' ltac:(apply lookup_insert_eq) ltac:(rewrite Hn; apply u64_range)) as (s' & E & Hs').
  exists s'. split; [exact E |]. rewrite Ed2, Ed1, Ed0, Hn in Hs'. exact Hs'.
Qed.

(** ** Removing *)

Lemma filter_middle (event : Z) l1 l2 : NoDup (l1 ++ event :: l2) -> filter (fun y => y <> event) (l1 ++ event :: l2) = l1 ++ l2.
Proof.
  intros Hnd. rewrite filter_app, filter_cons_False by tauto. apply NoDup_app in Hnd as (_ & Hd & Hnd). apply NoDup_cons in Hnd as [Hn _].
  assert (Hid : forall l : list Z, (event ∉ l) -> filter (fun y => y <> event) l = l).
  { clear. induction l as [| y l IH]; intros Hy; [reflexivity |]. rewrite filter_cons_True by set_solver. rewrite IH by set_solver. reflexivity. }
  rewrite !Hid; [reflexivity | assumption |]. intros H1. apply (Hd event); [assumption | left].
Qed.

Lemma filter_deadlines event base m l : NoDup l ->
  fst <$> filter (fun x => fst x <> event) (deadlines_from base m l) = filter (fun y => y <> event) l.
Proof.
  intros _. revert base. induction l as [| p l IH]; intros base; [reflexivity |]. cbn [deadlines_from]. rewrite !filter_cons.
  destruct (decide (p <> event)) as [Hp | Hp]; [rewrite decide_True by assumption; rewrite fmap_cons | rewrite decide_False by assumption]; rewrite IH; reflexivity.
Qed.

Lemma filter_absent event base m l : (event ∉ l) -> filter (fun x => fst x <> event) (deadlines_from base m l) = deadlines_from base m l.
Proof.
  revert base. induction l as [| p l IH]; intros base Hp; [reflexivity |]. cbn [deadlines_from].
  rewrite filter_cons_True by (simpl; set_solver). rewrite IH by set_solver. reflexivity.
Qed.

(** Taking out an event gives its time to the one that follows. *)
Lemma deadlines_remove m event n f l1 l2 : NoDup (l1 ++ event :: n :: l2) -> units (duration f) = units_of m n + units_of m event ->
  deadlines_from 0 (<[n := f]> m) (l1 ++ n :: l2) = filter (fun x => fst x <> event) (deadlines_from 0 m (l1 ++ event :: n :: l2)).
Proof.
  intros Hnd Hf. apply NoDup_app in Hnd as (_ & Hd & Hnd). apply NoDup_cons in Hnd as [He Hnd]. apply NoDup_cons in Hnd as [Hn _].
  assert (He1 : event ∉ l1) by (intros Hin; apply (Hd event Hin); left).
  assert (Hn1 : n ∉ l1) by (intros Hin; apply (Hd n Hin); right; left).
  rewrite !deadlines_app, filter_app, filter_absent by assumption.
  rewrite (deadlines_ext m) by (intros q Hq; apply units_of_insert_ne; intros ->; contradiction).
  rewrite (total_ext m) by (intros q Hq; apply units_of_insert_ne; intros ->; contradiction). f_equal.
  cbn [deadlines_from]. rewrite filter_cons_False by (simpl; tauto). rewrite filter_cons_True by (simpl; set_solver).
  rewrite units_of_insert, Hf, filter_absent by set_solver.
  replace (0 + total m l1 + (units_of m n + units_of m event)) with (0 + total m l1 + units_of m event + units_of m n) by lia.
  f_equal. apply deadlines_ext. intros q Hq. apply units_of_insert_ne. intros ->. contradiction.
Qed.

Lemma dequeue_spec s t event : remove_returns_following L -> remove_ignores_absent L ->
  clock_ok s -> event <> 0 -> front s <> event ->
  exists s', DequeueClockEvent PollTicksToNanos InterruptTimerMaxNanos (ownerCore s) t event s = Ok s' /\
    clock_ok s' /\ deadlines s' = filter (fun x => fst x <> event) (elapse (elapsed s t) <$> deadlines s).
Proof.
  intros Hfol Habs Hok H0 Hfr. unfold DequeueClockEvent. rewrite (proj2 (Z.eqb_neq _ _) H0), Z.eqb_refl. cbn [negb].
  destruct (update_spec s t Hok) as (s1 & -> & [Hok1 Ed1 Ev1 _ _ _]). cbn [mbind res_bind]. rewrite <- Ed1. clear Ed1.
  assert (Hfr1 : front s1 <> event) by (unfold front in *; rewrite Ev1; assumption). rewrite (proj2 (Z.eqb_neq _ _) Hfr1).
  destruct (ListRemove event (events s1)) as [fol l] eqn:Er.
  destruct Hok1 as [Hb Hev Hz Hr]. assert (El : elements l = filter (fun y => y <> event) (elements (events s1))).
  { pose proof (Remove_elements event (events s1) (proj1 Hev)) as E. rewrite Er in E. exact E. }
  assert (Hsub : forall s', broken s' = false -> events_ok (evs s') (elements (events s')) -> elements (events s') = elements l ->
    deadlines s' = filter (fun x => fst x <> event) (deadlines s1) ->
    clock_ok s' /\ deadlines s' = filter (fun x => fst x <> event) (deadlines s1)).
  { intros s' Hb' Hev' El' Ed'. split; [| assumption]. constructor; auto.
    - rewrite El', El. intros Hin. apply list_elem_of_filter in Hin. apply Hz, Hin.
    - rewrite Ed'. apply Forall_forall. intros x Hx. apply list_elem_of_filter in Hx as [_ Hx]. rewrite Forall_forall in Hr. auto. }
  destruct (decide (event ∈ elements (events s1))) as [Hin | Hout].
  2:{ assert (fol = 0) as -> by (pose proof (Habs event (events s1) Hout) as E; rewrite Er in E; exact E). rewrite Z.eqb_refl.
      assert (Ell : elements l = elements (events s1)).
      { rewrite El. clear -Hout. induction (elements (events s1)) as [| y ys IH]; [reflexivity |]. rewrite filter_cons_True by set_solver. rewrite IH by set_solver. reflexivity. }
      eexists. split; [reflexivity |]. apply Hsub; auto; simpl; [rewrite Ell; assumption |].
      unfold deadlines. simpl. rewrite Ell, filter_absent by assumption. reflexivity. }
  apply list_elem_of_split in Hin as (l1 & l2 & E). rewrite E in *.
  assert (Hnd : NoDup (l1 ++ event :: l2)) by apply Hev. rewrite (filter_middle event l1 l2 Hnd) in El.
  assert (Ef : fol = default 0 (head l2)) by (rewrite <- (Hfol event (events s1) l1 l2), Er; [reflexivity | rewrite E; exact Hnd | exact E]).
  assert (Hl : events_ok (evs s1) (l1 ++ l2)).
  { destruct Hev as [_ Hf]. split.
    - rewrite <- (filter_middle event l1 l2 Hnd). apply NoDup_filter. exact Hnd.
    - apply Forall_app in Hf as [Hf1 Hf2]. apply Forall_cons in Hf2 as [_ Hf2]. apply Forall_app. split; assumption. }
  destruct l2 as [| n l2]; simpl in Ef; subst fol.
  - rewrite Z.eqb_refl. eexists. split; [reflexivity |]. apply Hsub; auto; simpl; [rewrite El; assumption |].
    unfold deadlines. simpl. rewrite E, El, app_nil_r, deadlines_app, filter_app. cbn [deadlines_from]. rewrite filter_cons_False by (simpl; tauto).
    rewrite filter_nil, app_nil_r, filter_absent; [reflexivity |]. apply NoDup_app in Hnd as (_ & Hd & _). intros Hin. apply (Hd event Hin). left.
  - assert (Hn0 : n <> 0) by set_solver. rewrite (proj2 (Z.eqb_neq _ _) Hn0).
    destruct Hev as [_ Hf]. rewrite Forall_forall in Hf.
    destruct (Hf event ltac:(set_solver)) as [[e He] Hue]. destruct (Hf n ltac:(set_solver)) as [[g Hg] Hug].
    cbn [set_events evs]. rewrite He, Hg. cbn [deref mbind res_bind]. eexists. split; [reflexivity |].
    assert (Hun : units_of (evs s1) n = units (duration g)) by (unfold units_of; rewrite Hg; reflexivity).
    assert (Hune : units_of (evs s1) event = units (duration e)) by (unfold units_of; rewrite He; reflexivity).
    assert (Hle : units (duration g) + units (duration e) < two64).
    { unfold deadlines in Hr. rewrite E, deadlines_app in Hr. apply Forall_app in Hr as [_ Hr]. cbn [deadlines_from] in Hr.
      apply Forall_cons in Hr as [_ Hr]. apply Forall_cons in Hr as [Hr _]. simpl in Hr.
      assert (0 <= total (evs s1) l1).
      { destruct Hl as [_ Hl]. apply Forall_app in Hl as [Hl _]. clear -Hl. induction Hl as [| q l [_ Hq] _ IH]; simpl; lia. }
      lia. }
    apply Hsub; auto; cbn [set_evs evs events set_events].
    + rewrite El. split; [apply Hl |]. apply Forall_forall. intros q Hq. destruct (decide (q = n)) as [-> | Hne].
      * rewrite lookup_insert_eq, units_of_insert. simpl. rewrite u64_small by (unfold two64 in *; lia). split; [eauto | lia].
      * rewrite lookup_insert_ne, units_of_insert_ne by congruence. apply (Hf q). set_solver.
    + unfold deadlines. cbn [set_evs evs events set_events]. rewrite El, E. apply deadlines_remove; [exact Hnd |]. simpl. rewrite u64_small by (unfold two64 in *; lia). lia.
Qed.

Lemma tick_spec s t : clock_ok s ->
  let ds := elapse (elapsed s t) <$> deadlines s in
  exists s', ClockTickHandler PollTicksToNanos InterruptTimerMaxNanos t s = Ok (call_of (evs s) <$> (fst <$> filter due ds), s') /\
    clock_ok s' /\ deadlines s' = filter (fun x => ~ due x) ds /\
    (forall x l, deadlines s' = x :: l -> armed s' = Some (Min InterruptTimerMaxNanos (snd x))).
Proof.
  intros Hok ds. unfold ClockTickHandler. destruct (update_spec s t Hok) as (s1 & -> & [Hok1 Ed1 Ev1 Hs1 _ _]). cbn [mbind res_bind].
  destruct (pop_due_spec (length (elements (events s1))) s1 Hok1 ltac:(lia)) as (s2 & -> & Hok2 & Ev2 & Ed2). cbn [mbind res_bind].
  rewrite Ed1 in *. fold ds in Ed2 |- *.
  assert (Ec : forall p, call_of (evs s1) p = call_of (evs s) p).
  { intros p. specialize (Hs1 p). unfold call_of. destruct (evs s !! p), (evs s1 !! p); try contradiction; [| reflexivity]. destruct Hs1 as (-> & -> & _). reflexivity. }
  assert (El : call_of (evs s1) <$> (fst <$> filter due ds) = call_of (evs s) <$> (fst <$> filter due ds)) by (apply list_fmap_ext; auto).
  rewrite El. destruct (elements (events s2)) as [| p l] eqn:E.
  - unfold is_empty. rewrite E. exists s2. split; [reflexivity |]. split; [assumption |]. split; [exact Ed2 |].
    unfold deadlines. rewrite E. discriminate.
  - destruct (units_front s2 p l E Hok2) as (f & Hf & Hfr & Hem & Hd & _). rewrite Hem, Hfr, Hf. cbn [deref mbind res_bind].
    eexists. split; [reflexivity |]. split; [destruct Hok2; constructor; assumption |]. split; [exact Ed2 |].
    intros x l' Hx. change (deadlines s2 = x :: l') in Hx. rewrite Hd in Hx. injection Hx as <- _. reflexivity.
Qed.
End Queue.
