(* ===== verification/ClockSpec.v ===== *)
(** What the clock queue promises: events fire when they are due, in order, and queueing or removing
    one leaves the times of the others alone, but for the two places where the code does not. *)

From S2P Require Import Prelude Maths IntrList Clock ClockProofs.

Lemma due_elapsed d (ds : list (Z * Z)) : fst <$> filter due (elapse d <$> ds) = fst <$> filter (fun x => snd x <= d) ds.
Proof.
  induction ds as [| [p t] ds IH]; [reflexivity |]. rewrite fmap_cons. destruct (decide (t <= d)).
  - rewrite !filter_cons_True by (unfold due; simpl; lia). rewrite !fmap_cons. f_equal. exact IH.
  - rewrite !filter_cons_False by (unfold due; simpl; lia). exact IH.
Qed.

Lemma rest_elapsed d (ds : list (Z * Z)) : filter (fun x => ~ due x) (elapse d <$> ds) = (fun x => (fst x, snd x - d)) <$> filter (fun x => d < snd x) ds.
Proof.
  induction ds as [| [p t] ds IH]; [reflexivity |]. rewrite fmap_cons. destruct (decide (d < t)).
  - rewrite !filter_cons_True by (unfold due; simpl; lia). rewrite fmap_cons. f_equal; [unfold elapse; simpl; f_equal; lia | exact IH].
  - rewrite !filter_cons_False by (unfold due; simpl; lia). exact IH.
Qed.

(** ** A concrete queue: events 1 and 2, due after 100 and 300 nanoseconds *)

Definition demo_event (u core : Z) : ClockEvent := mkEvent 0x100 (mkTime Nanos u) core.
Definition demo_clock : ClockState (list Z) :=
  mkClock 0 {[ 1 := demo_event 100 0; 2 := demo_event 200 1; 3 := mkEvent 0x300 (mkTime Micros 1) NoCoreAffinity ]} [1; 2] 0 0 None [] false.

Lemma demo_clock_ok : clock_ok demo_clock.
Proof.
  constructor; [reflexivity | | set_solver |].
  - split; [apply (bool_decide_unpack _); vm_compute; exact I |]. repeat constructor; vm_compute; eauto; discriminate.
  - assert (E : deadlines demo_clock = [(1, 100); (2, 300)]) by reflexivity. rewrite E. repeat constructor.
Qed.

(** ** The theorems *)

Section Claims.
Context {L : Type} `{HLaws : IntrFwdListLaws L}.
Variables (PollTicksToNanos : Z -> Z) (InterruptTimerMaxNanos : Z).
Hypothesis nanos_nonneg : forall t, 0 <= t -> 0 <= PollTicksToNanos t.

(** C32: a clock tick queues the calls of exactly the events whose time has come, in the order of
    their times; the others stay with the time that passed taken off, and the interrupt timer is
    armed for the first of them. *)
Theorem clock_tick_fires_due (s : ClockState L) t :
  clock_ok s ->
  let d := elapsed PollTicksToNanos s t in
  exists s', ClockTickHandler PollTicksToNanos InterruptTimerMaxNanos t s =
      Ok (call_of (evs s) <$> (fst <$> filter (fun x => snd x <= d) (deadlines s)), s') /\
    clock_ok s' /\ deadlines s' = (fun x => (fst x, snd x - d)) <$> filter (fun x => d < snd x) (deadlines s) /\
    (forall x l, deadlines s' = x :: l -> armed s' = Some (Min InterruptTimerMaxNanos (snd x))).
Proof.
  intros Hok d. destruct (tick_spec PollTicksToNanos InterruptTimerMaxNanos nanos_nonneg s t Hok) as (s' & E & Hok' & Ed & Ha).
  exists s'. fold d in E, Ed. rewrite due_elapsed in E. rewrite rest_elapsed in Ed. auto.
Qed.


(** Removing an event that is not the first leaves the times of all others as they are. *)
Theorem clock_dequeue_event (s : ClockState L) t event :
  remove_returns_following L -> remove_ignores_absent L -> clock_ok s -> event <> 0 -> front s <> event ->
  exists s', DequeueClockEvent PollTicksToNanos InterruptTimerMaxNanos (ownerCore s) t event s = Ok s' /\
    clock_ok s' /\ deadlines s' = filter (fun x => fst x <> event) (elapse (elapsed PollTicksToNanos s t) <$> deadlines s).
Proof. apply dequeue_spec. exact nanos_nonneg. Qed.
End Claims.

(** Removing the first event takes its time off the next one a second time: with events due
    after 100 and 300 nanoseconds, removing the first makes the second due after 100. *)
Theorem clock_dequeue_front_early :
  match DequeueClockEvent (fun t => t) 1000 0 0 1 demo_clock with
  | Ok s => deadlines demo_clock = [(1, 100); (2, 300)] /\ deadlines s = [(2, 100)] /\ armed s = Some 100
  | _ => False
  end.
Proof. vm_compute. auto. Qed.

Lemma clock_tick_fires_due_witness : exists s',
  ClockTickHandler (fun t => t) 1000 150 demo_clock = Ok ([(0, 0x100)], s') /\ deadlines s' = [(2, 150)].
Proof.
  destruct (clock_tick_fires_due (fun t => t) 1000 (fun t Ht => Ht) demo_clock 150 demo_clock_ok) as (s' & E & _ & Ed & _).
  exists s'. split; [exact E | exact Ed].
Defined.


Lemma clock_dequeue_event_witness : exists s', DequeueClockEvent (fun t => t) 1000 0 50 2 demo_clock = Ok s' /\ deadlines s' = [(1, 50)].
Proof.
  destruct (clock_dequeue_event (fun t => t) 1000 (fun t Ht => Ht) demo_clock 50 2 list_remove_following list_remove_absent
    demo_clock_ok ltac:(lia) ltac:(discriminate)) as (s' & E & _ & Ed).
  exists s'. split; [exact E | exact Ed].
Defined.
