(* ===== verification/Tasking.v ===== *)
(** Run levels, deferred calls and the scheduler: [kernel/tasking/RunLevels.cpp] and
    [kernel/tasking/Scheduler.cpp]. Every operation names the core that runs it ([CoreLocal()]); the
    spin locks are left out, an operation being one step of its core. The register switch
    ([SwitchFrame]) and the hardware's notion of the run level are the platform's. *)

From Stdlib Require Import String.
From S2P Require Import Prelude Maths Flags Queue IntrList Clock.

(** ** Run levels *)

Definition Normal : Z := 0.
Definition Apc : Z := 1.
Definition Dpc : Z := 2.
Definition ClockLevel : Z := 3.
Definition Interrupt : Z := 4.

Definition RunLevelStrs : list string := ["normal"; "apc"; "dpc"; "clock"; "interrupt"]%string.
Definition GetRunLevelName (runLevel : Z) : string :=
  if runLevel <=? Interrupt then default ""%string (RunLevelStrs !! Z.to_nat runLevel) else ""%string.

(** ** Data *)

Inductive ThreadState : Type := Setup | Dead | Ready | Queued | Running.
#[export] Instance ThreadState_eq_dec : EqDecision ThreadState.
Proof. solve_decision. Defined.

(** A work queue is the shared queue of a cluster or the local queue of an engine. *)
Inductive QueueRef : Type := SharedQueue (cluster : nat) | LocalQueue (engine : Z).
#[export] Instance QueueRef_eq_dec : EqDecision QueueRef.
Proof. solve_decision. Defined.

(** The union [engineOrQueue]. *)
Inductive EngineOrQueue : Type := OnEngine (id : Z) | OnQueue (q : QueueRef).

Record Thread : Type := mkThread { state : ThreadState; tid : Z; affinity : Z; engineOrQueue : EngineOrQueue }.

Definition set_state (st : ThreadState) (t : Thread) : Thread := mkThread st (tid t) (affinity t) (engineOrQueue t).
Definition set_place (st : ThreadState) (p : EngineOrQueue) (t : Thread) : Thread := mkThread st (tid t) (affinity t) p.

(** [Thread::EngineId]. *)
Definition EngineId (t : Thread) : Z :=
  match state t, engineOrQueue t with Running, OnEngine id => id | _, _ => NoCoreAffinity end.

(** What a deferred call does: the two that tasking itself queues, or one of a driver. *)
Inductive DpcEntry : Type := DoRescheduleDpc | ClockUptime | OtherDpc (function arg : Z).

Definition ReschedulePending : Z := 0.
Definition EnginesPerCluster : nat := 4.

Section Tasking.
Context {L : Type} `{IntrFwdList L}.

Record WorkQueue : Type := mkWorkQueue { depth : Z; threads : L }.

(** An engine is known by its address. *)
Record Engine : Type := mkEngine {
  e_id : Z;
  e_flags : Z;
  localQueue : WorkQueue;
  localTickets : Z;
  sharedTickets : Z;
  e_cluster : nat;
  idleThread : Z;
  pendingThread : Z;
  rescheduleDpc : Z;
  rescheduleClockEvent : Z
}.

Definition set_flags (v : Z) (e : Engine) : Engine :=
  mkEngine (e_id e) v (localQueue e) (localTickets e) (sharedTickets e) (e_cluster e) (idleThread e) (pendingThread e) (rescheduleDpc e) (rescheduleClockEvent e).
Definition set_localQueue (q : WorkQueue) (e : Engine) : Engine :=
  mkEngine (e_id e) (e_flags e) q (localTickets e) (sharedTickets e) (e_cluster e) (idleThread e) (pendingThread e) (rescheduleDpc e) (rescheduleClockEvent e).
Definition set_tickets (l s : Z) (e : Engine) : Engine :=
  mkEngine (e_id e) (e_flags e) (localQueue e) l s (e_cluster e) (idleThread e) (pendingThread e) (rescheduleDpc e) (rescheduleClockEvent e).
Definition set_pending (t : Z) (e : Engine) : Engine :=
  mkEngine (e_id e) (e_flags e) (localQueue e) (localTickets e) (sharedTickets e) (e_cluster e) (idleThread e) t (rescheduleDpc e) (rescheduleClockEvent e).

(** [slots] holds the ids of the engines of the cluster, [-1] where there is none. *)
Record EngineCluster : Type := mkCluster { sharedQueue : WorkQueue; engineCount : Z; slots : list Z }.
Definition set_sharedQueue (q : WorkQueue) (cl : EngineCluster) : EngineCluster := mkCluster q (engineCount cl) (slots cl).

(** [CoreLocalInfo], with the core's interrupt enable bit. The [next] fields of the deferred calls
    are kept with the queue of the core they are queued on; [stub] is the address of the stub of
    [dpcs]. *)
Record Core : Type := mkCore {
  runLevel : Z;
  stub : Z;
  dpcs : Mpsc.QueueMpSc;
  apcStub : Z;
  apcs : Mpsc.QueueMpSc;
  localEngine : Z;
  localThread : Z;
  interrupts : bool
}.

Definition set_runLevel (l : Z) (c : Core) : Core := mkCore l (stub c) (dpcs c) (apcStub c) (apcs c) (localEngine c) (localThread c) (interrupts c).
Definition set_dpcs (q : Mpsc.QueueMpSc) (c : Core) : Core := mkCore (runLevel c) (stub c) q (apcStub c) (apcs c) (localEngine c) (localThread c) (interrupts c).
Definition set_apcs (q : Mpsc.QueueMpSc) (c : Core) : Core := mkCore (runLevel c) (stub c) (dpcs c) (apcStub c) q (localEngine c) (localThread c) (interrupts c).
Definition set_localEngine (e : Z) (c : Core) : Core := mkCore (runLevel c) (stub c) (dpcs c) (apcStub c) (apcs c) e (localThread c) (interrupts c).
Definition set_localThread (t : Z) (c : Core) : Core := mkCore (runLevel c) (stub c) (dpcs c) (apcStub c) (apcs c) (localEngine c) t (interrupts c).
Definition set_interrupts (b : bool) (c : Core) : Core := mkCore (runLevel c) (stub c) (dpcs c) (apcStub c) (apcs c) (localEngine c) (localThread c) b.

(** The kernel's tasking state. [engines] is the vector of engine pointers by core, 0 where a core
    has none; [ticks] is what the poll timer reads. *)
Record World : Type := mkWorld {
  cores : gmap Z Core;
  engs : gmap Z Engine;
  engines : list Z;
  clusters : list EngineCluster;
  thr : gmap Z Thread;
  dpcData : gmap Z DpcEntry;
  clock : ClockState L;
  ticks : Z;
  ran : list Z
}.

Definition set_cores (m : gmap Z Core) (w : World) : World := mkWorld m (engs w) (engines w) (clusters w) (thr w) (dpcData w) (clock w) (ticks w) (ran w).
Definition set_engs (m : gmap Z Engine) (w : World) : World := mkWorld (cores w) m (engines w) (clusters w) (thr w) (dpcData w) (clock w) (ticks w) (ran w).
Definition set_engines (l : list Z) (w : World) : World := mkWorld (cores w) (engs w) l (clusters w) (thr w) (dpcData w) (clock w) (ticks w) (ran w).
Definition set_clusters (l : list EngineCluster) (w : World) : World := mkWorld (cores w) (engs w) (engines w) l (thr w) (dpcData w) (clock w) (ticks w) (ran w).
Definition set_thr (m : gmap Z Thread) (w : World) : World := mkWorld (cores w) (engs w) (engines w) (clusters w) m (dpcData w) (clock w) (ticks w) (ran w).
Definition set_dpcData (m : gmap Z DpcEntry) (w : World) : World := mkWorld (cores w) (engs w) (engines w) (clusters w) (thr w) m (clock w) (ticks w) (ran w).
Definition set_clock (s : ClockState L) (w : World) : World := mkWorld (cores w) (engs w) (engines w) (clusters w) (thr w) (dpcData w) s (ticks w) (ran w).
(** [ran] is a history variable: the deferred calls that were run. *)
Definition add_ran (d : Z) (w : World) : World := mkWorld (cores w) (engs w) (engines w) (clusters w) (thr w) (dpcData w) (clock w) (ticks w) (ran w ++ [d]).

(** ** State and failure *)

Definition M (A : Type) : Type := World -> res (A * World).
#[export] Instance M_ret : MRet M := fun A a w => Ok (a, w).
#[export] Instance M_bind : MBind M := fun A B f m w => match m w with Ok (a, w) => f a w | Panic => Panic | OutOfFuel => OutOfFuel end.

Definition gets {A} (f : World -> A) : M A := fun w => Ok (f w, w).
Definition modify (f : World -> World) : M unit := fun w => Ok (tt, f w).
Definition lift {A} (r : res A) : M A := fun w => match r with Ok a => Ok (a, w) | Panic => Panic | OutOfFuel => OutOfFuel end.

Definition get_core (c : Z) : M Core := k ← gets cores; lift (deref (k !! c)).
Definition put_core (c : Z) (x : Core) : M unit := modify (fun w => set_cores (<[c := x]> (cores w)) w).
Definition get_engine (e : Z) : M Engine := k ← gets engs; lift (deref (k !! e)).
Definition put_engine (e : Z) (x : Engine) : M unit := modify (fun w => set_engs (<[e := x]> (engs w)) w).
Definition get_thread (t : Z) : M Thread := k ← gets thr; lift (deref (k !! t)).
Definition put_thread (t : Z) (x : Thread) : M unit := modify (fun w => set_thr (<[t := x]> (thr w)) w).
Definition get_cluster (k : nat) : M EngineCluster := l ← gets clusters; lift (deref (l !! k)).

Definition get_queue (q : QueueRef) : M WorkQueue :=
  match q with
  | SharedQueue k => cl ← get_cluster k; mret (sharedQueue cl)
  | LocalQueue e => x ← get_engine e; mret (localQueue x)
  end.
Definition put_queue (q : QueueRef) (x : WorkQueue) : M unit :=
  match q with
  | SharedQueue k => cl ← get_cluster k; modify (fun w => set_clusters (<[k := set_sharedQueue x cl]> (clusters w)) w)
  | LocalQueue e => en ← get_engine e; put_engine e (set_localQueue x en)
  end.

(** [LocalEngine()]: the address of the engine of the core. *)
Definition LocalEngine (c : Z) : M Z := k ← get_core c; mret (localEngine k).

(** ** Run levels *)

Definition RaiseRunLevel (c newLevel : Z) : M Z :=
  k ← get_core c;
  _ ← lift (assert_ (runLevel k <? newLevel));
  _ ← put_core c (set_runLevel newLevel k);
  mret (runLevel k).

Definition EnsureRunLevel (c level : Z) : M (option Z) :=
  k ← get_core c;
  if runLevel k <? level then p ← RaiseRunLevel c level; mret (Some p) else mret None.

Definition SwitchPending (c : Z) : M bool := e ← LocalEngine c; x ← get_engine e; mret (negb (pendingThread x =? 0)).

Definition PushQueue (q : QueueRef) (t : Z) : M unit :=
  x ← get_queue q;
  put_queue q (mkWorkQueue (u64 (depth x + 1)) (PushBack t (threads x))).

(** Puts the current thread of the core back in a queue if it still wants to run. *)
Definition RequeueCurrent (c : Z) (k : Core) (en : Engine) : M unit :=
  let current := localThread k in
  if current =? 0 then mret tt
  else
    t ← get_thread current;
    idle ← get_thread (idleThread en);
    if negb (tid t =? tid idle) && bool_decide (state t = Running) then
      q ← (if negb (affinity t =? NoCoreAffinity) then _ ← lift (assert_ (affinity t =? c)); mret (LocalQueue (localEngine k))
           else mret (SharedQueue (e_cluster en)));
      _ ← put_thread current (set_place Queued (OnQueue q) t);
      PushQueue q current
    else mret tt.

Definition DoPendingSwitch (c : Z) : M unit :=
  k ← get_core c;
  _ ← lift (assert_ (runLevel k =? Normal));
  _ ← lift (assert_ (negb (interrupts k)));
  en ← get_engine (localEngine k);
  _ ← lift (assert_ (negb (pendingThread en =? 0)));
  _ ← RequeueCurrent c k en;
  en ← get_engine (localEngine k);
  _ ← put_core c (set_localThread (pendingThread en) k);
  put_engine (localEngine k) (set_pending 0 en).
End Tasking.
Arguments WorkQueue L : clear implicits.
Arguments Engine L : clear implicits.
Arguments EngineCluster L : clear implicits.
Arguments World L : clear implicits.
Arguments M L : clear implicits.

Section Operations.
Context {L : Type} `{IntrFwdList L}.

(** The timers of the platform, the address of the clock's own event, and the deferred calls of
    drivers, which run on the core of their argument. *)
Variable PollTicksToNanos : Z -> Z.
Variable InterruptTimerMaxNanos : Z.
Variable timekeepingEvent : Z.
Variable other_dpc : Z -> Z -> Z -> M L unit.

Definition on_clock (f : Z -> ClockState L -> res (ClockState L)) : M L unit :=
  s ← gets clock; t ← gets ticks; s ← lift (f t s); modify (set_clock s).

(** ** Rescheduling *)

(** [while (true)] of [GetRunnableThread]; 0 is null. *)
Fixpoint runnable_loop (fuel : nat) (q : QueueRef) : M L Z :=
  x ← get_queue q;
  let '(head, l) := PopFront (threads x) in
  if head =? 0 then mret 0
  else
    _ ← put_queue q (mkWorkQueue (u64 (depth x - 1)) l);
    t ← get_thread head;
    if bool_decide (state t = Queued) then mret head
    else match fuel with O => lift OutOfFuel | S fuel' => runnable_loop fuel' q end.

Definition GetRunnableThread (q : QueueRef) : M L Z := x ← get_queue q; runnable_loop (length (elements (threads x))) q.

(** Takes a thread of the queue, paying for it with a ticket. *)
Definition TakeFrom (q : QueueRef) (pay : Engine L -> Engine L) (e : Z) : M L Z :=
  next ← GetRunnableThread q;
  if negb (next =? 0) then en ← get_engine e; _ ← put_engine e (pay en); mret next else mret next.
Definition pay_local (en : Engine L) : Engine L := set_tickets (u64 (localTickets en - 1)) (sharedTickets en) en.
Definition pay_shared (en : Engine L) : Engine L := set_tickets (localTickets en) (u64 (sharedTickets en - 1)) en.

(** A thread of the local queue while there are local tickets, else one of the shared queue. *)
Definition Pick (e : Z) : M L Z :=
  en ← get_engine e;
  next ← (if 0 <? localTickets en then TakeFrom (LocalQueue e) pay_local e else mret 0);
  if next =? 0 then TakeFrom (SharedQueue (e_cluster en)) pay_shared e else mret next.

Definition MakePending (e next : Z) : M L unit :=
  en ← get_engine e;
  t ← get_thread next;
  _ ← put_thread next (set_place Running (OnEngine (e_id en)) t);
  _ ← modify (fun w => match evs (clock w) !! rescheduleClockEvent en with
      | Some ev => set_clock (set_evs (<[rescheduleClockEvent en := set_duration (mkTime Millis 10) ev]> (evs (clock w))) (clock w)) w
      | None => w end);
  put_engine e (set_flags (snd (Flags.Clear (e_flags en) ReschedulePending)) (set_pending next en)).

Definition ResetTickets (e : Z) : M L unit :=
  en ← get_engine e;
  cl ← get_cluster (e_cluster en);
  if sharedTickets en =? 0 then put_engine e (set_tickets (u64 (depth (localQueue en) * engineCount cl)) (depth (sharedQueue cl)) en)
  else mret tt.

(** The body of [DoReschedule], at the level of deferred calls. *)
Definition Reschedule (c : Z) : M L unit :=
  e ← LocalEngine c;
  en ← get_engine e;
  _ ← on_clock (fun t => DequeueClockEvent PollTicksToNanos InterruptTimerMaxNanos c t (rescheduleClockEvent en));
  _ ← ResetTickets e;
  next ← Pick e;
  MakePending e (if next =? 0 then idleThread en else next).

(** [lower] is [LowerRunLevel], called when the level had to be raised. *)
Definition DoReschedule (lower : Z -> M L unit) (c : Z) : M L unit :=
  prevRl ← EnsureRunLevel c Dpc;
  _ ← Reschedule c;
  match prevRl with Some l => lower l | None => mret tt end.

(** ** Lowering the run level *)

(** [while ((dpc = dpcs.Pop()) != nullptr)]; [run] is the call of the deferred function. *)
Fixpoint drain (run : Z -> Z -> M L unit) (fuel : nat) (c : Z) : M L unit :=
  k ← get_core c;
  let '(dpc, q) := Mpsc.Pop (stub k) (dpcs k) in
  _ ← put_core c (set_dpcs q k);
  if dpc =? 0 then mret tt
  else
    match fuel with
    | O => lift OutOfFuel
    | S fuel' =>
        _ ← put_core c (set_dpcs (Mpsc.set_next dpc 0 q) k);
        _ ← modify (add_ran dpc);
        _ ← run c dpc;
        drain run fuel' c
    end.

(** [while (runLevel > newLevel)]; the accumulators are [restoreInterrupts] and [doThreadSwitch]. *)
Fixpoint lower_loop (run : Z -> Z -> M L unit) (fuel dpcFuel : nat) (c newLevel : Z) (acc : bool * bool) : M L (bool * bool) :=
  k ← get_core c;
  if newLevel <? runLevel k then
    match fuel with
    | O => lift OutOfFuel
    | S fuel' =>
        acc ← (if runLevel k =? Dpc then _ ← drain run dpcFuel c; mret acc
               else if (runLevel k =? Apc) || (runLevel k =? Normal) then
                 pending ← SwitchPending c;
                 if pending : bool then
                   k ← get_core c;
                   _ ← put_core c (set_interrupts false k);
                   mret (interrupts k, true)
                 else mret acc
               else mret acc);
        k ← get_core c;
        _ ← put_core c (set_runLevel (runLevel k - 1) k);
        lower_loop run fuel' dpcFuel c newLevel acc
    end
  else mret acc.

Definition lower_with (run : Z -> Z -> M L unit) (dpcFuel : nat) (c newLevel : Z) : M L unit :=
  k ← get_core c;
  _ ← lift (assert_ (newLevel <? runLevel k));
  '(restoreInterrupts, doThreadSwitch) ← lower_loop run 5 dpcFuel c newLevel (false, false);
  if doThreadSwitch : bool then
    _ ← DoPendingSwitch c;
    if restoreInterrupts : bool then k ← get_core c; put_core c (set_interrupts true k) else mret tt
  else mret tt.

(** The deferred functions; a call nested in a call takes one of [n]. *)
Fixpoint run_dpc (n : nat) (dpcFuel : nat) (c dpc : Z) : M L unit :=
  match n with
  | O => lift OutOfFuel
  | S n' =>
      d ← gets dpcData;
      f ← lift (deref (d !! dpc));
      match f with
      | DoRescheduleDpc => DoReschedule (lower_with (run_dpc n' dpcFuel) dpcFuel c) c
      | ClockUptime => on_clock (fun t => ClockUptimeDpc PollTicksToNanos InterruptTimerMaxNanos timekeepingEvent c t)
      | OtherDpc function arg => other_dpc function arg c
      end
  end.

Definition LowerRunLevel (fuel : nat) (c newLevel : Z) : M L unit := lower_with (run_dpc fuel fuel) fuel c newLevel.

(** ** Deferred calls *)

Definition QueueDpc (fuel : nat) (c dpc : Z) : M L unit :=
  if dpc =? 0 then mret tt
  else
    k ← get_core c;
    if negb (Mpsc.q_next (dpcs k) dpc =? 0) then mret tt
    else
      _ ← put_core c (set_dpcs (Mpsc.Push dpc (dpcs k)) k);
      if Dpc <=? runLevel k then mret tt
      else
        _ ← RaiseRunLevel c Dpc;
        LowerRunLevel fuel c (runLevel k).

Definition QueueApc (fuel : nat) (c apc : Z) : M L unit :=
  if apc =? 0 then mret tt
  else
    k ← get_core c;
    if negb (Mpsc.q_next (apcs k) apc =? 0) then mret tt
    else
      _ ← put_core c (set_apcs (Mpsc.Push apc (apcs k)) k);
      if Apc <=? runLevel k then mret tt
      else
        _ ← RaiseRunLevel c Apc;
        LowerRunLevel fuel c (runLevel k).

Definition SendIpiMail (dest : Z) (m : Mail) : M L unit := modify (fun w => set_clock (send dest m (clock w)) w).

Definition QueueRemoteDpc (fuel : nat) (c coreId dpc : Z) : M L unit :=
  if coreId =? c then QueueDpc fuel c dpc else SendIpiMail coreId (DpcOverIpi dpc).

Definition QueueReschedule (fuel : nat) (c : Z) : M L unit :=
  e ← LocalEngine c;
  en ← get_engine e;
  let '(newly, v) := Flags.Set_ (e_flags en) ReschedulePending in
  _ ← put_engine e (set_flags v en);
  if newly : bool then QueueDpc fuel c (rescheduleDpc en) else mret tt.

(** The interrupt of the clock: the events that are due queue their deferred calls. *)
Fixpoint queue_due (fuel : nat) (c : Z) (due : list (Z * Z)) : M L unit :=
  match due with
  | [] => mret tt
  | (core, dpc) :: due =>
      _ ← (if core =? c then QueueDpc fuel c dpc else QueueRemoteDpc fuel c core dpc);
      queue_due fuel c due
  end.

Definition ClockInterrupt (fuel : nat) (c : Z) : M L unit :=
  k ← get_core c;
  _ ← lift (assert_ (ClockLevel <=? runLevel k));
  s ← gets clock;
  t ← gets ticks;
  '(due, s) ← lift (ClockTickHandler PollTicksToNanos InterruptTimerMaxNanos t s);
  _ ← modify (set_clock s);
  queue_due fuel c due.

(** ** Threads in and out of the queues *)

(** The first engine of the vector with the id; a null entry on the way is dereferenced. *)
Fixpoint find_engine (l : list Z) (id : Z) : M L (option Z) :=
  match l with
  | [] => mret None
  | e :: l => en ← get_engine e; if negb (e_id en =? id) then find_engine l id else mret (Some e)
  end.

(** The cluster with the shortest shared queue. *)
Fixpoint least_worked (l : list (EngineCluster L)) (i : nat) (queueSize : Z) (selected : option nat) : option nat :=
  match l with
  | [] => selected
  | cl :: l =>
      if depth (sharedQueue cl) <? queueSize then least_worked l (S i) (depth (sharedQueue cl)) (Some i)
      else least_worked l (S i) queueSize selected
  end.

Definition EnqueueThread (t : Z) : M L unit :=
  if t =? 0 then mret tt
  else
    th ← get_thread t;
    if negb (bool_decide (state th = Ready)) then mret tt
    else
      queue ← (if negb (affinity th =? NoCoreAffinity) then
                 l ← gets engines; e ← find_engine l (affinity th); mret (LocalQueue <$> e)
               else l ← gets clusters; mret (SharedQueue <$> least_worked l 0 (two64 - 1) None));
      match queue with
      | None => mret tt
      | Some q => _ ← put_thread t (set_place Queued (OnQueue q) th); PushQueue q t
      end.

Definition DequeueThread (fuel : nat) (c t : Z) : M L unit :=
  if t =? 0 then mret tt
  else
    th ← get_thread t;
    if negb (bool_decide (state th = Running) || bool_decide (state th = Queued)) then mret tt
    else
      e ← LocalEngine c;
      en ← get_engine e;
      prevRunlevel ← EnsureRunLevel c Apc;
      _ ← put_thread t (set_state Ready th);
      _ ← (match state th, engineOrQueue th with
           | Running, OnEngine id =>
               if id =? e_id en then
                 k ← get_core c;
                 if t =? localThread k then QueueReschedule fuel c
                 else en ← get_engine e; put_engine e (set_pending 0 en)
               else SendIpiMail id (RemoteDequeue t)
           | Queued, OnQueue q =>
               x ← get_queue q;
               let '(r, l) := ListRemove t (threads x) in
               _ ← lift (assert_ (negb (r =? 0)));
               put_queue q (mkWorkQueue (u64 (depth x - 1)) l)
           | _, _ => lift Panic
           end);
      match prevRunlevel with Some l => LowerRunLevel fuel c l | None => mret tt end.

Definition Yield (fuel : nat) (c : Z) : M L unit :=
  k ← get_core c;
  _ ← lift (assert_ (runLevel k =? Normal));
  _ ← lift (assert_ (negb (localThread k =? 0)));
  QueueReschedule fuel c.

(** [Thread::Start]; [copy_arg] stands for the copy of the argument into the thread's frame, which
    the memory manager of its process makes when there is one. *)
Definition Start (copy_arg : M L unit) (t : Z) : M L unit :=
  th ← get_thread t;
  if negb (bool_decide (state th = Setup)) then mret tt
  else
    _ ← put_thread t (set_state Ready th);
    _ ← copy_arg;
    EnqueueThread t.

(** [Thread::Exit], up to the register switch a thread that ends itself does not return from. *)
Definition Exit (fuel : nat) (c t : Z) : M L unit :=
  k ← get_core c;
  let selfExit := localThread k =? t in
  prevLevel ← RaiseRunLevel c Dpc;
  _ ← DequeueThread fuel c t;
  th ← get_thread t;
  _ ← put_thread t (set_state Dead th);
  _ ← LowerRunLevel fuel c prevLevel;
  if selfExit then Yield fuel c else mret tt.

(** ** Engines *)

(** The first free slot of a cluster. *)
Fixpoint free_slot (l : list Z) : option nat :=
  match l with [] => None | id :: l => if id =? NoCoreAffinity then Some 0%nat else S <$> free_slot l end.

Fixpoint find_cluster (l : list (EngineCluster L)) (k : nat) : option (nat * nat) :=
  match l with
  | [] => None
  | cl :: l => match free_slot (slots cl) with Some i => Some (k, i) | None => find_cluster l (S k) end
  end.

(** [Vector::EmplaceAt]: missing entries are null. *)
Definition emplace_at (l : list Z) (i : nat) (x : Z) : list Z := <[i := x]> (l ++ replicate (S i - length l) 0).

(** The address of the engine in slot [i] of cluster [k]. *)
Definition engine_ptr (k i : nat) : Z := Z.of_nat (k * EnginesPerCluster + i + 1).

Definition empty_queue : WorkQueue L := mkWorkQueue 0 empty_list.

(** [idle] is the thread [ProgramManager::CreateThread] made for the engine, [dpc] and [event] are
    the addresses of the members [rescheduleDpc] and [rescheduleClockEvent]. The result says
    whether this was the first engine, which then runs [LateInit]. *)
Definition AddEngine (c idle dpc event : Z) : M L bool :=
  l ← gets clusters;
  '(k, i) ← (match find_cluster l 0 with
             | Some (k, i) =>
                 cl ← get_cluster k;
                 _ ← modify (fun w => set_clusters (<[k := mkCluster (sharedQueue cl) (engineCount cl + 1) (slots cl)]> (clusters w)) w);
                 mret (k, i)
             | None =>
                 _ ← modify (fun w => set_clusters (clusters w ++ [mkCluster empty_queue 1 (replicate EnginesPerCluster NoCoreAffinity)]) w);
                 mret (length l, 0%nat)
             end);
  es ← gets engines;
  let doLateInit := (length es =? 0)%nat in
  let e := engine_ptr k i in
  _ ← modify (set_engines (emplace_at es (Z.to_nat c) e));
  cl ← get_cluster k;
  _ ← modify (fun w => set_clusters (<[k := mkCluster (sharedQueue cl) (engineCount cl) (<[i := c]> (slots cl))]> (clusters w)) w);
  _ ← modify (fun w => set_dpcData (<[dpc := DoRescheduleDpc]> (dpcData w)) w);
  _ ← modify (fun w => set_clock (set_evs (<[event := mkEvent dpc (mkTime Nanos 0) c]> (evs (clock w))) (clock w)) w);
  core ← get_core c;
  _ ← put_core c (set_localEngine e core);
  _ ← lift (assert_ (negb (idle =? 0)));
  _ ← put_engine e (mkEngine c 0 empty_queue 0 0 k idle 0 dpc event);
  mret doLateInit.

Definition StartEngine (fuel : nat) (c : Z) : M L unit :=
  k ← get_core c;
  _ ← lift (assert_ (runLevel k =? Dpc));
  _ ← QueueReschedule fuel c;
  k ← get_core c;
  _ ← put_core c (set_interrupts false k);
  LowerRunLevel fuel c Normal.
End Operations.
