(* ===== verification/SchedProofs.v ===== *)
(** The invariant of the scheduler: every thread is in at most one place, and every operation of
    [Tasking.v] keeps it so. *)

From stdpp Require Import relations.
From S2P Require Import Prelude Maths Flags Queue QueueProofs IntrList Clock ClockProofs Tasking.

Section Sched.
Context {L : Type} `{HLaws : IntrFwdListLaws L}.

(** ** Views of the state *)

Definition queue_of (w : World L) (q : QueueRef) : option (WorkQueue L) :=
  match q with
  | SharedQueue k => sharedQueue <$> clusters w !! k
  | LocalQueue e => localQueue <$> engs w !! e
  end.

Definition set_queue (q : QueueRef) (x : WorkQueue L) (w : World L) : World L :=
  match q with
  | SharedQueue k => match clusters w !! k with Some cl => set_clusters (<[k := set_sharedQueue x cl]> (clusters w)) w | None => w end
  | LocalQueue e => match engs w !! e with Some en => set_engs (<[e := set_localQueue x en]> (engs w)) w | None => w end
  end.

(** What the invariant reads of an engine and of a core. *)
Record EngineView : Type := mkEView { ev_id : Z; ev_cluster : nat; ev_idle : Z; ev_pending : Z }.
Definition eview (en : Engine L) : EngineView := mkEView (e_id en) (e_cluster en) (idleThread en) (pendingThread en).
Definition engine_of (w : World L) (e : Z) : option EngineView := eview <$> engs w !! e.

(** The engine of a core and the thread it runs. *)
Definition core_of (w : World L) (c : Z) : option (Z * Z) := (fun k => (localEngine k, localThread k)) <$> cores w !! c.

Lemma queue_of_set q x w q' : is_Some (queue_of w q) -> queue_of (set_queue q x w) q' = if decide (q = q') then Some x else queue_of w q'.
Proof.
  intros Hq. destruct q as [k | e]; simpl in *.
  - destruct (clusters w !! k) as [cl |] eqn:E; [| destruct Hq; discriminate]. destruct q' as [k' | e']; simpl.
    + destruct (decide (SharedQueue k = SharedQueue k')) as [[= <-] | Hne].
      * rewrite list_lookup_insert_eq by (apply lookup_lt_Some in E; assumption). reflexivity.
      * rewrite list_lookup_insert_ne by congruence. reflexivity.
    + reflexivity.
  - destruct (engs w !! e) as [en |] eqn:E; [| destruct Hq; discriminate]. destruct q' as [k' | e']; simpl.
    + reflexivity.
    + destruct (decide (LocalQueue e = LocalQueue e')) as [[= <-] | Hne].
      * rewrite lookup_insert_eq. reflexivity.
      * rewrite lookup_insert_ne by congruence. reflexivity.
Qed.

Lemma engine_of_set_queue q x w e : engine_of (set_queue q x w) e = engine_of w e.
Proof.
  destruct q as [k | e']; simpl; [destruct (clusters w !! k); reflexivity |].
  destruct (engs w !! e') as [en |] eqn:E; [| reflexivity]. unfold engine_of. simpl.
  destruct (decide (e' = e)) as [<- | Hne]; [rewrite lookup_insert_eq, E | rewrite lookup_insert_ne by assumption]; reflexivity.
Qed.

Lemma clusters_set_queue q x w k : is_Some (clusters (set_queue q x w) !! k) <-> is_Some (clusters w !! k).
Proof.
  destruct q as [k' | e]; simpl; [| destruct (engs w !! e); reflexivity].
  destruct (clusters w !! k') as [cl |] eqn:E; [| reflexivity]. simpl. rewrite !lookup_lt_is_Some, length_insert. reflexivity.
Qed.

Lemma set_queue_thr q x w : thr (set_queue q x w) = thr w.
Proof. destruct q as [k | e]; simpl; [destruct (clusters w !! k) | destruct (engs w !! e)]; reflexivity. Qed.
Lemma set_queue_cores q x w : cores (set_queue q x w) = cores w.
Proof. destruct q as [k | e]; simpl; [destruct (clusters w !! k) | destruct (engs w !! e)]; reflexivity. Qed.

(** ** Running operations *)

Lemma bind_eq {A B} (m : M L A) (f : A -> M L B) w :
  (m ≫= f) w = match m w with Ok (a, w) => f a w | Panic => Panic | OutOfFuel => OutOfFuel end.
Proof. reflexivity. Qed.
Lemma ret_eq {A} (a : A) (w : World L) : (mret a : M L A) w = Ok (a, w).
Proof. reflexivity. Qed.
Lemma gets_eq {A} (f : World L -> A) w : gets f w = Ok (f w, w).
Proof. reflexivity. Qed.
Lemma modify_eq (f : World L -> World L) w : modify f w = Ok (tt, f w).
Proof. reflexivity. Qed.
Lemma lift_eq {A} (r : res A) (w : World L) : lift r w = match r with Ok a => Ok (a, w) | Panic => Panic | OutOfFuel => OutOfFuel end.
Proof. reflexivity. Qed.
Lemma get_core_eq c (w : World L) : get_core c w = match cores w !! c with Some k => Ok (k, w) | None => Panic end.
Proof. unfold get_core. rewrite bind_eq, gets_eq, lift_eq. destruct (cores w !! c); reflexivity. Qed.
Lemma put_core_eq c k (w : World L) : put_core c k w = Ok (tt, set_cores (<[c := k]> (cores w)) w).
Proof. reflexivity. Qed.
Lemma get_engine_eq e (w : World L) : get_engine e w = match engs w !! e with Some x => Ok (x, w) | None => Panic end.
Proof. unfold get_engine. rewrite bind_eq, gets_eq, lift_eq. destruct (engs w !! e); reflexivity. Qed.
Lemma put_engine_eq e x (w : World L) : put_engine e x w = Ok (tt, set_engs (<[e := x]> (engs w)) w).
Proof. reflexivity. Qed.
Lemma get_thread_eq t (w : World L) : get_thread t w = match thr w !! t with Some x => Ok (x, w) | None => Panic end.
Proof. unfold get_thread. rewrite bind_eq, gets_eq, lift_eq. destruct (thr w !! t); reflexivity. Qed.
Lemma put_thread_eq t x (w : World L) : put_thread t x w = Ok (tt, set_thr (<[t := x]> (thr w)) w).
Proof. reflexivity. Qed.
Lemma get_cluster_eq k (w : World L) : get_cluster k w = match clusters w !! k with Some x => Ok (x, w) | None => Panic end.
Proof. unfold get_cluster. rewrite bind_eq, gets_eq, lift_eq. destruct (clusters w !! k); reflexivity. Qed.

Lemma get_queue_eq q w : get_queue q w = match queue_of w q with Some x => Ok (x, w) | None => Panic end.
Proof.
  destruct q as [k | e]; simpl; rewrite bind_eq, ?get_cluster_eq, ?get_engine_eq.
  - destruct (clusters w !! k); reflexivity.
  - destruct (engs w !! e); reflexivity.
Qed.

Lemma put_queue_eq q x w : put_queue q x w = match queue_of w q with Some _ => Ok (tt, set_queue q x w) | None => Panic end.
Proof.
  destruct q as [k | e]; simpl; rewrite bind_eq, ?get_cluster_eq, ?get_engine_eq.
  - destruct (clusters w !! k); reflexivity.
  - destruct (engs w !! e); reflexivity.
Qed.

(** ** The invariant *)

(** [skip] is a core that is in the middle of a switch. *)
Record sched_inv (skip : option Z) (w : World L) : Prop := mkInv {
  si_queue : forall q x, queue_of w q = Some x ->
    NoDup (elements (threads x)) /\ (0 ∉ elements (threads x)) /\ depth x = Z.of_nat (length (elements (threads x))) /\
    forall t, t ∈ elements (threads x) -> exists th, thr w !! t = Some th /\ state th = Queued /\ engineOrQueue th = OnQueue q;
  si_queued : forall t th, thr w !! t = Some th -> state th = Queued ->
    exists q x, engineOrQueue th = OnQueue q /\ queue_of w q = Some x /\ t ∈ elements (threads x);
  si_idle : forall e v, engine_of w e = Some v -> ev_idle v <> 0 /\
    exists th, thr w !! ev_idle v = Some th /\ (state th = Setup \/ (state th = Running /\ engineOrQueue th = OnEngine (ev_id v)));
  si_cluster : forall e v, engine_of w e = Some v -> is_Some (clusters w !! ev_cluster v);
  si_ids : forall e e' v v', engine_of w e = Some v -> engine_of w e' = Some v' -> ev_id v = ev_id v' -> e = e';
  si_idles : forall e e' v v', engine_of w e = Some v -> engine_of w e' = Some v' -> ev_idle v = ev_idle v' -> e = e';
  si_tids : forall t t' th th', thr w !! t = Some th -> thr w !! t' = Some th' -> tid th = tid th' -> t = t';
  si_pending : forall e v, engine_of w e = Some v -> ev_pending v <> 0 ->
    exists th, thr w !! ev_pending v = Some th /\ state th = Running /\ engineOrQueue th = OnEngine (ev_id v);
  si_core : forall c e t, core_of w c = Some (e, t) -> exists v, engine_of w e = Some v /\ ev_id v = c;
  si_current : forall c e t, core_of w c = Some (e, t) -> skip <> Some c -> t <> 0 ->
    exists th, thr w !! t = Some th /\ (state th = Ready \/ state th = Dead \/ (state th = Running /\ engineOrQueue th = OnEngine c));
  si_alone : forall c c' e e' t, core_of w c = Some (e, t) -> core_of w c' = Some (e', t) -> skip <> Some c -> skip <> Some c' -> t <> 0 -> c = c';
  si_switch : forall c e t v, core_of w c = Some (e, t) -> engine_of w e = Some v -> skip <> Some c -> t <> 0 -> ev_pending v = t -> t = ev_idle v
}.

(** The invariant depends on the views only. *)
Lemma inv_frame skip w w' : sched_inv skip w ->
  (forall q, queue_of w' q = queue_of w q) -> thr w' = thr w -> (forall e, engine_of w' e = engine_of w e) ->
  (forall k, is_Some (clusters w !! k) -> is_Some (clusters w' !! k)) -> (forall c, core_of w' c = core_of w c) -> sched_inv skip w'.
Proof.
  intros [] Hq Ht He Hc Hk. constructor; repeat setoid_rewrite Hq; repeat setoid_rewrite Ht; repeat setoid_rewrite He; repeat setoid_rewrite Hk; eauto.
Qed.

(** ** Changes to one part of the state *)

Lemma thr_lookup (m : gmap Z Thread) t th' s x : <[t := th']> m !! s = Some x -> (s = t /\ x = th') \/ (s <> t /\ m !! s = Some x).
Proof. intros [[<- <-] | [Hne Hx]]%lookup_insert_Some; auto. Qed.

Lemma inv_set_thread skip w t th th' : sched_inv skip w -> thr w !! t = Some th -> state th <> Queued -> state th' <> Queued -> tid th' = tid th ->
  (forall e v, engine_of w e = Some v -> ev_idle v = t -> state th' = Running /\ engineOrQueue th' = OnEngine (ev_id v)) ->
  (forall e v, engine_of w e = Some v -> ev_pending v <> 0 -> ev_pending v = t -> state th' = Running /\ engineOrQueue th' = OnEngine (ev_id v)) ->
  (forall c e, core_of w c = Some (e, t) -> skip <> Some c -> state th' = Ready \/ state th' = Dead \/ (state th' = Running /\ engineOrQueue th' = OnEngine c)) ->
  sched_inv skip (set_thr (<[t := th']> (thr w)) w).
Proof.
  intros [] Ht Hq Hq' Htid Hidle Hpend Hcur. constructor; auto; simpl.
  - intros q x Hx. destruct (si_queue0 q x Hx) as (Hn & H0 & Hd & Hall). split; [assumption |]. split; [assumption |]. split; [assumption |].
    intros s Hs. destruct (Hall s Hs) as (sh & Hsh & Hst & Heq). exists sh. split; [| auto]. rewrite lookup_insert_ne; [assumption |]. intros <-. congruence.
  - intros s sh Hs Hst. apply thr_lookup in Hs as [[-> ->] | [Hne Hs]]; [congruence |]. eauto.
  - intros e v Hv. destruct (si_idle0 e v Hv) as (H0 & ih & Hih & Hst). split; [assumption |].
    destruct (decide (ev_idle v = t)) as [E | Hne]; [exists th'; rewrite E, lookup_insert_eq; split; [reflexivity | right; apply (Hidle e v Hv E)] |].
    exists ih. rewrite lookup_insert_ne by congruence. auto.
  - intros s s' sh sh' Hs Hs'. apply thr_lookup in Hs as [[-> ->] | [Hne Hs]], Hs' as [[-> ->] | [Hne' Hs']]; rewrite ?Htid; eauto.
  - intros e v Hv Hp. destruct (si_pending0 e v Hv Hp) as (ph & Hph & Hst & Heq).
    destruct (decide (ev_pending v = t)) as [E | Hne]; [exists th'; rewrite E, lookup_insert_eq; split; [reflexivity | apply (Hpend e v Hv Hp E)] |].
    exists ph. rewrite lookup_insert_ne by congruence. auto.
  - intros c e s Hc Hsk Hs. destruct (si_current0 c e s Hc Hsk Hs) as (ch & Hch & Hst).
    destruct (decide (s = t)) as [-> | Hne]; [exists th'; rewrite lookup_insert_eq; split; [reflexivity | apply (Hcur c e Hc Hsk)] |].
    exists ch. rewrite lookup_insert_ne by congruence. auto.
Qed.

(** A thread that is queued is nowhere else. *)
Lemma queued_elsewhere skip w t th : sched_inv skip w -> thr w !! t = Some th -> state th = Queued ->
  (forall e v, engine_of w e = Some v -> ev_idle v <> t /\ (ev_pending v <> 0 -> ev_pending v <> t)) /\
  (forall c e, core_of w c = Some (e, t) -> t <> 0 -> skip = Some c).
Proof.
  intros [] Ht Hq. split.
  - intros e v Hv. split.
    + intros E. destruct (si_idle0 e v Hv) as (_ & ih & Hih & Hst). rewrite E, Ht in Hih. injection Hih as <-. destruct Hst as [? | [? _]]; congruence.
    + intros Hp E. destruct (si_pending0 e v Hv Hp) as (ph & Hph & Hst & _). rewrite E, Ht in Hph. injection Hph as <-. congruence.
  - intros c e Hc H0. destruct (decide (skip = Some c)) as [| Hsk]; [assumption |]. exfalso.
    destruct (si_current0 c e t Hc Hsk H0) as (ch & Hch & Hst). rewrite Ht in Hch. injection Hch as <-. destruct Hst as [? | [? | [? _]]]; congruence.
Qed.

(** A thread goes to the end of a queue. *)
Lemma inv_push skip w q x t th : sched_inv skip w -> queue_of w q = Some x -> thr w !! t = Some th -> t <> 0 -> state th <> Queued ->
  (forall e v, engine_of w e = Some v -> ev_idle v <> t /\ ev_pending v <> t) ->
  (forall c e, core_of w c = Some (e, t) -> skip = Some c) ->
  Z.of_nat (length (elements (threads x))) + 1 < two64 ->
  sched_inv skip (set_queue q (mkWorkQueue (u64 (depth x + 1)) (PushBack t (threads x))) (set_thr (<[t := set_place Queued (OnQueue q) th]> (thr w)) w)).
Proof.
  intros [] Hx Ht H0 Hst Hno Hcur Hlen. set (w1 := set_thr _ w).
  assert (Hq1 : forall q', queue_of w1 q' = queue_of w q') by (intros []; reflexivity).
  assert (Hsome : is_Some (queue_of w1 q)) by (rewrite Hq1, Hx; eauto).
  destruct (si_queue0 q x Hx) as (Hn & Hz & Hd & Hall).
  assert (Hout : t ∉ elements (threads x)) by (intros Hin; destruct (Hall t Hin) as (sh & Hsh & Hs & _); congruence).
  constructor; rewrite ?set_queue_thr, ?set_queue_cores; simpl.
  - intros q' x' E. rewrite queue_of_set in E by assumption. destruct (decide (q = q')) as [<- | Hne].
    + injection E as <-. simpl. rewrite PushBack_elements by assumption. rewrite length_app. split; [apply NoDup_app; repeat split; [assumption | set_solver | apply NoDup_singleton] |].
      split; [set_solver |]. split; [rewrite u64_small by lia; simpl; lia |].
      intros s [Hs | ->%list_elem_of_singleton]%elem_of_app; [| exists (set_place Queued (OnQueue q) th); rewrite lookup_insert_eq; auto].
      destruct (Hall s Hs) as (sh & Hsh & Hs' & Heq). exists sh. rewrite lookup_insert_ne; [auto |]. intros <-. contradiction.
    + rewrite Hq1 in E. destruct (si_queue0 q' x' E) as (Hn' & Hz' & Hd' & Hall'). split; [assumption |]. split; [assumption |]. split; [assumption |].
      intros s Hs. destruct (Hall' s Hs) as (sh & Hsh & Hs' & Heq). exists sh. rewrite lookup_insert_ne; [auto |]. intros <-. congruence.
  - intros s sh Hs Hsq. apply thr_lookup in Hs as [[-> ->] | [Hne Hs]].
    + exists q, (mkWorkQueue (u64 (depth x + 1)) (PushBack t (threads x))). split; [reflexivity |]. rewrite queue_of_set, decide_True by auto.
      split; [reflexivity |]. simpl. rewrite PushBack_elements by assumption. set_solver.
    + destruct (si_queued0 s sh Hs Hsq) as (q' & x' & Heq & E & Hin). exists q'. rewrite queue_of_set by assumption.
      destruct (decide (q = q')) as [<- | Hneq]; [| rewrite Hq1; exists x'; auto].
      rewrite Hx in E. injection E as <-. exists (mkWorkQueue (u64 (depth x + 1)) (PushBack t (threads x))). simpl. rewrite PushBack_elements by assumption. set_solver.
  - intros e v Hv. rewrite engine_of_set_queue in Hv. destruct (si_idle0 e v Hv) as (Hi & ih & Hih & Hs). split; [assumption |].
    exists ih. rewrite lookup_insert_ne; [auto |]. intros E. apply (proj1 (Hno e v Hv)). congruence.
  - intros e v Hv. rewrite engine_of_set_queue in Hv. rewrite clusters_set_queue. exact (si_cluster0 e v Hv).
  - intros e e' v v' Hv Hv'. rewrite engine_of_set_queue in Hv, Hv'. eapply si_ids0; eassumption.
  - intros e e' v v' Hv Hv'. rewrite engine_of_set_queue in Hv, Hv'. eapply si_idles0; eassumption.
  - intros s s' sh sh' Hs Hs'. apply thr_lookup in Hs as [[-> ->] | [Hne Hs]], Hs' as [[-> ->] | [Hne' Hs']]; simpl; eauto.
  - intros e v Hv Hp. rewrite engine_of_set_queue in Hv. destruct (si_pending0 e v Hv Hp) as (ph & Hph & Hs).
    exists ph. rewrite lookup_insert_ne; [auto |]. intros E. apply (proj2 (Hno e v Hv)). congruence.
  - intros c e s Hc. unfold core_of in Hc. rewrite set_queue_cores in Hc. destruct (si_core0 c e s Hc) as (v & Hv & Hid). exists v. rewrite engine_of_set_queue. auto.
  - intros c e s Hc Hsk Hs0. unfold core_of in Hc. rewrite set_queue_cores in Hc. destruct (si_current0 c e s Hc Hsk Hs0) as (ch & Hch & Hs).
    exists ch. rewrite lookup_insert_ne; [auto |]. intros <-. apply Hsk. apply (Hcur c e Hc).
  - intros c c' e e' s Hc Hc'. unfold core_of in Hc, Hc'. rewrite set_queue_cores in Hc, Hc'. eapply si_alone0; eassumption.
  - intros c e s v Hc Hv. unfold core_of in Hc. rewrite set_queue_cores in Hc. rewrite engine_of_set_queue in Hv. eapply si_switch0; eassumption.
Qed.

(** A queued thread leaves its queue, to run or to wait. *)
Lemma inv_take skip w q x l t th th' : sched_inv skip w -> queue_of w q = Some x -> t ∈ elements (threads x) -> thr w !! t = Some th ->
  elements l = filter (fun y => y <> t) (elements (threads x)) -> state th' <> Queued -> tid th' = tid th ->
  Z.of_nat (length (elements (threads x))) < two64 ->
  sched_inv skip (set_thr (<[t := th']> (thr w)) (set_queue q (mkWorkQueue (u64 (depth x - 1)) l) w)).
Proof.
  intros Hinv Hx Hin Ht El Hst' Htid Hlen. pose proof Hinv as [].
  destruct (si_queue0 q x Hx) as (Hn & Hz & Hd & Hall). destruct (Hall t Hin) as (th0 & Ht0 & Hst & Heq). rewrite Ht in Ht0. injection Ht0 as <-.
  destruct (queued_elsewhere skip w t th Hinv Ht Hst) as [Hno Hcur].
  assert (Ht0 : t <> 0) by (intros ->; contradiction).
  assert (Hsome : is_Some (queue_of w q)) by (rewrite Hx; eauto).
  set (x' := mkWorkQueue (u64 (depth x - 1)) l).
  assert (Hqs : forall q', queue_of (set_thr (<[t := th']> (thr w)) (set_queue q x' w)) q' = if decide (q = q') then Some x' else queue_of w q')
    by (intros q'; rewrite <- queue_of_set by assumption; destruct q'; reflexivity).
  assert (Hes : forall e, engine_of (set_thr (<[t := th']> (thr w)) (set_queue q x' w)) e = engine_of w e) by (intros e; apply (engine_of_set_queue q x' w e)).
  assert (Hcs : forall c, core_of (set_thr (<[t := th']> (thr w)) (set_queue q x' w)) c = core_of w c) by (intros c; unfold core_of; simpl; rewrite set_queue_cores; reflexivity).
  constructor; repeat setoid_rewrite Hqs; repeat setoid_rewrite Hes; repeat setoid_rewrite Hcs; simpl; auto.
  - intros q' y E. destruct (decide (q = q')) as [<- | Hne].
    + injection E as <-. simpl. rewrite El. split; [apply NoDup_filter; assumption |]. split; [intros H0; apply list_elem_of_filter in H0; apply Hz, H0 |]. split.
      * assert (Hle : length (elements (threads x)) = S (length (filter (fun y => y <> t) (elements (threads x))))).
        { clear -Hn Hin. induction (elements (threads x)) as [| a ys IH]; [set_solver |]. apply NoDup_cons in Hn as [Ha Hn].
          destruct (decide (a = t)) as [-> | Hat].
          - rewrite filter_cons_False by tauto. simpl. f_equal. clear -Ha. induction ys as [| b ys IH]; [reflexivity |]. rewrite filter_cons_True by set_solver. simpl. rewrite <- IH by set_solver. reflexivity.
          - rewrite filter_cons_True by assumption. simpl. rewrite <- IH; [reflexivity | set_solver | assumption]. }
        rewrite Hd, u64_small by lia. lia.
      * intros s [Hs Hsin]%list_elem_of_filter. destruct (Hall s Hsin) as (sh & Hsh & Hs' & Heq'). exists sh. rewrite lookup_insert_ne by congruence. auto.
    + destruct (si_queue0 q' y E) as (Hn' & Hz' & Hd' & Hall'). split; [assumption |]. split; [assumption |]. split; [assumption |].
      intros s Hs. destruct (Hall' s Hs) as (sh & Hsh & Hs' & Heq'). exists sh. rewrite lookup_insert_ne; [auto |]. intros <-. congruence.
  - intros s sh Hs Hsq. apply thr_lookup in Hs as [[-> ->] | [Hne Hs]]; [congruence |].
    destruct (si_queued0 s sh Hs Hsq) as (q' & y & Heq' & E & Hsin). exists q'. destruct (decide (q = q')) as [<- | Hneq].
    + rewrite Hx in E. injection E as <-. exists x'. split; [assumption |]. split; [reflexivity |]. simpl. rewrite El. apply list_elem_of_filter. auto.
    + exists y. auto.
  - intros e v Hv. destruct (si_idle0 e v Hv) as (Hi & ih & Hih & Hs). split; [assumption |]. exists ih.
    rewrite lookup_insert_ne; [auto |]. intros E. apply (proj1 (Hno e v Hv)). congruence.
  - intros e v Hv. rewrite clusters_set_queue. exact (si_cluster0 e v Hv).
  - intros s s' sh sh' Hs Hs'. apply thr_lookup in Hs as [[-> ->] | [Hne Hs]], Hs' as [[-> ->] | [Hne' Hs']]; rewrite ?Htid; eauto.
  - intros e v Hv Hp. destruct (si_pending0 e v Hv Hp) as (ph & Hph & Hs). exists ph.
    rewrite lookup_insert_ne; [auto |]. intros E. apply (proj2 (Hno e v Hv) Hp). congruence.
  - intros c e s Hc Hsk Hs0. destruct (si_current0 c e s Hc Hsk Hs0) as (ch & Hch & Hs). exists ch.
    rewrite lookup_insert_ne; [auto |]. intros <-. apply Hsk. apply (Hcur c e Hc Ht0).
Qed.

(** Tickets, flags and the pending thread of an engine. *)
Lemma inv_set_engine skip w e en en' : sched_inv skip w -> engs w !! e = Some en ->
  e_id en' = e_id en -> e_cluster en' = e_cluster en -> idleThread en' = idleThread en -> localQueue en' = localQueue en ->
  (pendingThread en' <> 0 -> pendingThread en' <> pendingThread en ->
    (exists th, thr w !! pendingThread en' = Some th /\ state th = Running /\ engineOrQueue th = OnEngine (e_id en)) /\
    (forall c, core_of w c = Some (e, pendingThread en') -> skip <> Some c -> pendingThread en' = idleThread en)) ->
  sched_inv skip (set_engs (<[e := en']> (engs w)) w).
Proof.
  intros [] He Hid Hcl Hidle Hlq Hp.
  assert (Hv0 : engine_of w e = Some (eview en)) by (unfold engine_of; rewrite He; reflexivity).
  assert (Hq : forall q, queue_of (set_engs (<[e := en']> (engs w)) w) q = queue_of w q).
  { intros [k | e']; [reflexivity |]. simpl. destruct (decide (e = e')) as [<- | Hne]; [rewrite lookup_insert_eq, He; simpl; rewrite Hlq | rewrite lookup_insert_ne by assumption]; reflexivity. }
  assert (Hes : forall e' v, engine_of (set_engs (<[e := en']> (engs w)) w) e' = Some v -> exists v0, engine_of w e' = Some v0 /\
    ev_id v = ev_id v0 /\ ev_cluster v = ev_cluster v0 /\ ev_idle v = ev_idle v0 /\ (ev_pending v = ev_pending v0 \/ (e' = e /\ v0 = eview en /\ ev_pending v = pendingThread en'))).
  { intros e' v. unfold engine_of at 1. simpl. destruct (decide (e = e')) as [<- | Hne].
    - rewrite lookup_insert_eq. intros [= <-]. exists (eview en). split; [assumption |]. simpl. auto 8.
    - rewrite lookup_insert_ne by assumption. intros Hv. exists v. auto 8. }
  constructor; repeat setoid_rewrite Hq; simpl; auto.
  - intros e' v Hv. destruct (Hes e' v Hv) as (v0 & Hv' & -> & _ & -> & _). eauto.
  - intros e' v Hv. destruct (Hes e' v Hv) as (v0 & Hv' & _ & -> & _). eauto.
  - intros e1 e2 v1 v2 Hv1 Hv2. destruct (Hes _ _ Hv1) as (v1' & Hv1' & -> & _), (Hes _ _ Hv2) as (v2' & Hv2' & -> & _). eauto.
  - intros e1 e2 v1 v2 Hv1 Hv2. destruct (Hes _ _ Hv1) as (v1' & Hv1' & _ & _ & -> & _), (Hes _ _ Hv2) as (v2' & Hv2' & _ & _ & -> & _). eauto.
  - intros e' v Hv H0. destruct (Hes e' v Hv) as (v0 & Hv' & -> & _ & _ & [E | (-> & -> & E)]); rewrite E in *; [eauto |].
    destruct (decide (pendingThread en' = pendingThread en)) as [Ep | Ep]; [rewrite Ep in *; exact (si_pending0 e _ Hv0 H0) |].
    apply (Hp H0 Ep).
  - intros c e' t Hc. destruct (si_core0 c e' t Hc) as (v & Hv & Hvid).
    destruct (decide (e = e')) as [<- | Hne].
    + exists (eview en'). unfold engine_of. simpl. rewrite lookup_insert_eq. split; [reflexivity |]. rewrite Hv0 in Hv. injection Hv as <-. simpl in *. congruence.
    + exists v. split; [| assumption]. unfold engine_of. simpl. rewrite lookup_insert_ne by assumption. exact Hv.
  - intros c e' t v Hc Hv Hsk H0 Ep. destruct (Hes e' v Hv) as (v0 & Hv' & _ & _ & -> & [E | (-> & -> & E)]).
    + apply (si_switch0 c e' t v0 Hc Hv' Hsk H0). congruence.
    + rewrite E in Ep. subst t. destruct (decide (pendingThread en' = pendingThread en)) as [Ep | Ep].
      * apply (si_switch0 c e _ (eview en) Hc Hv0 Hsk H0). simpl. congruence.
      * apply (proj2 (Hp H0 Ep) c Hc Hsk).
Qed.

(** A core takes a thread that was pending on its engine. *)
Lemma inv_set_core skip skip' w c k k' : sched_inv skip w -> cores w !! c = Some k -> localEngine k' = localEngine k ->
  (forall c', c' <> c -> skip' <> Some c' -> skip <> Some c') ->
  (skip' <> Some c -> localThread k' <> 0 ->
    (exists th, thr w !! localThread k' = Some th /\ (state th = Ready \/ state th = Dead \/ (state th = Running /\ engineOrQueue th = OnEngine c))) /\
    (forall c' e', core_of w c' = Some (e', localThread k') -> skip' <> Some c' -> c' = c) /\
    (forall v, engine_of w (localEngine k) = Some v -> ev_pending v = localThread k' -> localThread k' = ev_idle v)) ->
  sched_inv skip' (set_cores (<[c := k']> (cores w)) w).
Proof.
  intros [] Hk Hle Hs' Hnew.
  assert (Hq : forall q, queue_of (set_cores (<[c := k']> (cores w)) w) q = queue_of w q) by (intros []; reflexivity).
  assert (Hcs : forall c' e t, core_of (set_cores (<[c := k']> (cores w)) w) c' = Some (e, t) ->
    (c' = c /\ e = localEngine k /\ t = localThread k') \/ (c' <> c /\ core_of w c' = Some (e, t))).
  { intros c' e t. unfold core_of. simpl. destruct (decide (c = c')) as [<- | Hne].
    - rewrite lookup_insert_eq. intros [= <- <-]. auto.
    - rewrite lookup_insert_ne by assumption. auto. }
  assert (Hc0 : core_of w c = Some (localEngine k, localThread k)) by (unfold core_of; rewrite Hk; reflexivity).
  constructor; repeat setoid_rewrite Hq; simpl; auto.
  - intros c' e t Hc. destruct (Hcs _ _ _ Hc) as [(-> & -> & _) | [_ Hc']]; eauto.
  - intros c' e t Hc Hsk H0. destruct (Hcs _ _ _ Hc) as [(-> & -> & ->) | [Hne Hc']]; [apply (Hnew Hsk H0) |].
    apply (si_current0 c' e t Hc'); auto.
  - intros c1 c2 e1 e2 t Hc1 Hc2 Hs1 Hs2 H0. destruct (Hcs _ _ _ Hc1) as [(-> & -> & ->) | [Hne1 Hc1']], (Hcs _ _ _ Hc2) as [(-> & -> & E) | [Hne2 Hc2']]; auto.
    + symmetry. destruct (Hnew Hs1 H0) as (_ & Hu & _). apply (Hu c2 e2); auto.
    + subst t. destruct (Hnew Hs2 H0) as (_ & Hu & _). apply (Hu c1 e1); auto.
    + apply (si_alone0 c1 c2 e1 e2 t); auto.
  - intros c' e t v Hc Hv Hsk H0 Ep. destruct (Hcs _ _ _ Hc) as [(-> & -> & ->) | [Hne Hc']].
    + destruct (Hnew Hsk H0) as (_ & _ & Hi). apply (Hi v Hv Ep).
    + apply (si_switch0 c' e t v); auto.
Qed.
End Sched.
