(* ===== verification/SchedOps.v ===== *)
(** The operations of the scheduler keep the invariant of [SchedProofs.v]. *)

From stdpp Require Import relations.
From S2P Require Import Prelude Maths Flags Queue QueueProofs IntrList Clock ClockProofs Tasking SchedProofs.

(** Runs one primitive of a computation that is known to return, naming what it read. *)
Ltac mstep H :=
  first
  [ rewrite bind_eq in H
  | rewrite ret_eq in H
  | rewrite gets_eq in H
  | rewrite modify_eq in H
  | rewrite put_core_eq in H
  | rewrite put_engine_eq in H
  | rewrite put_thread_eq in H
  | rewrite get_core_eq in H; let E := fresh "Ek" in
    match type of H with context [match cores ?w !! ?c with _ => _ end] => destruct (cores w !! c) eqn:E; [| discriminate H] end
  | rewrite get_engine_eq in H; let E := fresh "Ee" in
    match type of H with context [match engs ?w !! ?c with _ => _ end] => destruct (engs w !! c) eqn:E; [| discriminate H] end
  | rewrite get_thread_eq in H; let E := fresh "Et" in
    match type of H with context [match thr ?w !! ?c with _ => _ end] => destruct (thr w !! c) eqn:E; [| discriminate H] end
  | rewrite get_cluster_eq in H; let E := fresh "Ec" in
    match type of H with context [match clusters ?w !! ?c with _ => _ end] => destruct (clusters w !! c) eqn:E; [| discriminate H] end
  | rewrite get_queue_eq in H; let E := fresh "Eq" in
    match type of H with context [match queue_of ?w ?q with _ => _ end] => destruct (queue_of w q) eqn:E; [| discriminate H] end
  | rewrite put_queue_eq in H; let E := fresh "Ep" in
    match type of H with context [match queue_of ?w ?q with _ => _ end] => destruct (queue_of w q) eqn:E; [| discriminate H] end
  | rewrite lift_eq in H; let E := fresh "Ea" in
    match type of H with context [assert_ ?b] => destruct b eqn:E; cbn [assert_] in H; [| discriminate H] end ];
  cbv beta iota zeta in H.
Ltac msteps H := repeat mstep H.

Section Ops.
Context {L : Type} `{HLaws : IntrFwdListLaws L}.

(** There are fewer threads than a 64-bit counter counts. *)
Definition few_threads (w : World L) : Prop := Z.of_nat (size (thr w)) + 1 < two64.

Lemma queue_length skip (w : World L) q x : sched_inv skip w -> few_threads w -> queue_of w q = Some x ->
  Z.of_nat (length (elements (threads x))) + 1 < two64.
Proof.
  intros Hinv Hf Hx. destruct (si_queue _ _ Hinv q x Hx) as (Hn & _ & _ & Hall). unfold few_threads in Hf.
  assert (Hsub : (list_to_set (elements (threads x)) : gset Z) ⊆ dom (thr w)).
  { intros t Ht%elem_of_list_to_set. destruct (Hall t Ht) as (th & Hth & _). apply elem_of_dom. eauto. }
  apply subseteq_size in Hsub. rewrite size_list_to_set, size_dom in Hsub by assumption. lia.
Qed.

Lemma few_threads_insert (w w' : World L) t th th' : thr w !! t = Some th -> thr w' = <[t := th']> (thr w) -> few_threads w -> few_threads w'.
Proof. intros Ht E Hf. unfold few_threads in *. rewrite E, map_size_insert_Some by (eauto). exact Hf. Qed.

(** ** Switching *)

Lemma push_queue_eq q t (w : World L) : PushQueue q t w =
  match queue_of w q with Some x => Ok (tt, set_queue q (mkWorkQueue (u64 (depth x + 1)) (PushBack t (threads x))) w) | None => Panic end.
Proof. unfold PushQueue. rewrite bind_eq, get_queue_eq. destruct (queue_of w q) eqn:E; [| reflexivity]. rewrite put_queue_eq, E. reflexivity. Qed.

Lemma inv_skip c (w : World L) : sched_inv None w -> sched_inv (Some c) w.
Proof. intros []. constructor; eauto. Qed.

(** What a step of a core leaves alone. *)
Record same_shape (w w' : World L) : Prop := mkShape {
  sh_cores : cores w' = cores w;
  sh_engine : forall e, engine_of w' e = engine_of w e
}.

Lemma same_shape_refl w : same_shape w w.
Proof. split; reflexivity. Qed.

Lemma requeue_inv c k en (w w' : World L) : sched_inv None w -> few_threads w -> cores w !! c = Some k -> engs w !! localEngine k = Some en ->
  RequeueCurrent c k en w = Ok (tt, w') -> sched_inv (Some c) w' /\ few_threads w' /\ same_shape w w'.
Proof.
  intros Hinv Hf Hk He E. unfold RequeueCurrent in E.
  destruct (Z.eqb_spec (localThread k) 0) as [H0 | H0]; [mstep E; injection E as <-; split; [apply inv_skip; assumption | auto using same_shape_refl] |].
  msteps E. destruct (tid t =? tid t0) eqn:Etid; cbn [negb andb] in E; [mstep E; injection E as <-; split; [apply inv_skip; assumption | auto using same_shape_refl] |].
  apply Z.eqb_neq in Etid. destruct (bool_decide (state t = Running)) eqn:Er; [| mstep E; injection E as <-; split; [apply inv_skip; assumption | auto using same_shape_refl]].
  apply bool_decide_eq_true in Er. mstep E.
  assert (Hc : core_of w c = Some (localEngine k, localThread k)) by (unfold core_of; rewrite Hk; reflexivity).
  assert (Hv : engine_of w (localEngine k) = Some (eview en)) by (unfold engine_of; rewrite He; reflexivity).
  destruct (si_core _ _ Hinv c _ _ Hc) as (v & Hv' & Hid). rewrite Hv in Hv'. injection Hv' as <-. simpl in Hid.
  destruct (si_current _ _ Hinv c _ _ Hc ltac:(discriminate) H0) as (th & Hth & Hst). rewrite Et in Hth. injection Hth as <-.
  assert (Hon : engineOrQueue t = OnEngine c) by (destruct Hst as [? | [? | [_ ?]]]; congruence).
  assert (Hno : forall e v, engine_of w e = Some v -> ev_idle v <> localThread k /\ ev_pending v <> localThread k).
  { intros e v Hve. split.
    - intros Ei. destruct (si_idle _ _ Hinv e v Hve) as (_ & ih & Hih & Hs). rewrite Ei, Et in Hih. injection Hih as <-.
      destruct Hs as [? | [_ Heq]]; [congruence |]. rewrite Hon in Heq. injection Heq as Heq.
      assert (e = localEngine k) as -> by (apply (si_ids _ _ Hinv e _ v (eview en) Hve Hv); simpl; congruence).
      rewrite Hv in Hve. injection Hve as <-. simpl in Ei. rewrite Ei, Et in Et0. injection Et0 as <-. congruence.
    - intros Ep. destruct (si_pending _ _ Hinv e v Hve ltac:(congruence)) as (ph & Hph & _ & Heq). rewrite Ep, Et in Hph. injection Hph as <-.
      rewrite Hon in Heq. injection Heq as Heq.
      assert (e = localEngine k) as -> by (apply (si_ids _ _ Hinv e _ v (eview en) Hve Hv); simpl; congruence).
      pose proof (si_switch _ _ Hinv c _ _ v Hc Hve ltac:(discriminate) H0 Ep) as Ei.
      rewrite Hv in Hve. injection Hve as <-. simpl in Ei. rewrite Ei, Et0 in Et. injection Et as <-. congruence. }
  assert (Hpush : forall q, (put_thread (localThread k) (set_place Queued (OnQueue q) t) ≫= fun _ => PushQueue q (localThread k)) w = Ok (tt, w') ->
    sched_inv (Some c) w' /\ few_threads w' /\ same_shape w w').
  { intros q E'. mstep E'. mstep E'. rewrite push_queue_eq in E'.
    assert (Hq : queue_of (set_thr (<[localThread k := set_place Queued (OnQueue q) t]> (thr w)) w) q = queue_of w q) by (destruct q; reflexivity).
    rewrite Hq in E'. destruct (queue_of w q) as [x |] eqn:Ex; [| discriminate]. injection E' as <-.
    split; [apply inv_push; auto using inv_skip |].
    - congruence.
    - intros c' e' Hc'. f_equal. symmetry. apply (si_alone _ _ Hinv c' c e' (localEngine k) (localThread k)); auto; discriminate.
    - apply (queue_length None w q x); assumption.
    - split; [eapply few_threads_insert; [exact Et | rewrite set_queue_thr; reflexivity | assumption] |].
      split; [rewrite set_queue_cores; reflexivity | intros e; rewrite engine_of_set_queue; reflexivity]. }
  destruct (affinity t =? NoCoreAffinity); cbn [negb] in E; [mstep E; eapply Hpush; exact E |].
  mstep E. mstep E. mstep E. eapply Hpush. exact E.
Qed.

(** A switch makes the pending thread the current one. *)
Lemma switch_inv c (w w' : World L) : sched_inv None w -> few_threads w -> DoPendingSwitch c w = Ok (tt, w') ->
  sched_inv None w' /\ few_threads w' /\
  exists e v, core_of w' c = Some (e, ev_pending v) /\ engine_of w e = Some v /\ ev_pending v <> 0 /\
    engine_of w' e = Some (mkEView (ev_id v) (ev_cluster v) (ev_idle v) 0).
Proof.
  intros Hinv Hf E. unfold DoPendingSwitch in E. msteps E.
  destruct (RequeueCurrent c c0 e w) as [[[] w1] | |] eqn:Er; [| discriminate ..]. 
  destruct (requeue_inv c c0 e w w1 Hinv Hf Ek Ee Er) as (Hi1 & Hf1 & Hc1 & He1). msteps E.
  apply negb_true_iff, Z.eqb_neq in Ea1. injection E as <-.
  assert (Hv : engine_of w (localEngine c0) = Some (eview e)) by (unfold engine_of; rewrite Ee; reflexivity).
  assert (Hv1 : engine_of w1 (localEngine c0) = Some (eview e0)) by (unfold engine_of; rewrite Ee0; reflexivity).
  assert (Hev : eview e0 = eview e) by (rewrite He1, Hv in Hv1; congruence). injection Hev as Hid Hcl Hidle Hpend.
  set (w2 := set_engs (<[localEngine c0 := set_pending 0 e0]> (engs w1)) w1).
  assert (Hi2 : sched_inv (Some c) w2) by (apply (inv_set_engine _ _ _ e0); auto; simpl; congruence).
  assert (Hcore1 : core_of w1 c = Some (localEngine c0, localThread c0)) by (unfold core_of; rewrite Hc1, Ek; reflexivity).
  destruct (si_core _ _ Hi1 c _ _ Hcore1) as (v & Hv' & Hvid). rewrite Hv1 in Hv'. injection Hv' as <-. simpl in Hvid.
  destruct (si_pending _ _ Hi1 _ _ Hv1 ltac:(simpl; congruence)) as (ph & Hph & Hst & Heq). simpl in Hph, Heq.
  split; [| split].
  - apply (inv_set_core (Some c) None w2 c c0); [assumption | | reflexivity | congruence |].
    + change (cores w2) with (cores w1). rewrite Hc1. assumption.
    + simpl. intros _ Hp0. split; [exists ph; split; [exact Hph | right; right; split; congruence] |]. split.
      * intros c' e' Hc' _. destruct (decide (c' = c)) as [| Hne]; [assumption |].
        destruct (si_current _ _ Hi2 c' e' _ Hc' ltac:(congruence) Hp0) as (th & Hth & Hs). change (thr w2) with (thr w1) in Hth. rewrite Hph in Hth. injection Hth as <-.
        destruct Hs as [? | [? | [_ ?]]]; congruence.
      * intros v Hv2 Ep. exfalso. unfold engine_of, w2 in Hv2. simpl in Hv2. rewrite lookup_insert_eq in Hv2. injection Hv2 as <-. simpl in Ep. congruence.
  - exact Hf1.
  - exists (localEngine c0), (eview e). split; [unfold core_of; simpl; rewrite lookup_insert_eq; simpl; congruence |]. split; [assumption |]. split; [assumption |].
    unfold engine_of. simpl. rewrite lookup_insert_eq. simpl. unfold eview. simpl. congruence.
Qed.

(** ** Rescheduling *)

(** Every queued thread can run, so the first one is taken. *)
Lemma runnable_eq skip q x (w : World L) : sched_inv skip w -> queue_of w q = Some x ->
  GetRunnableThread q w = match elements (threads x) with
    | [] => Ok (0, w)
    | t :: _ => Ok (t, set_queue q (mkWorkQueue (u64 (depth x - 1)) (snd (PopFront (threads x)))) w)
    end.
Proof.
  intros Hinv Hx. unfold GetRunnableThread. rewrite bind_eq, get_queue_eq, Hx.
  destruct (si_queue _ _ Hinv q x Hx) as (_ & Hz & _ & Hall).
  pose proof (PopFront_result (threads x)) as Hr. destruct (elements (threads x)) as [| t l] eqn:El.
  - simpl. rewrite bind_eq, get_queue_eq, Hx. destruct (PopFront (threads x)) as [h l']. simpl in Hr. subst h. reflexivity.
  - simpl. rewrite bind_eq, get_queue_eq, Hx. destruct (PopFront (threads x)) as [h l'] eqn:Ep. simpl in Hr. subst h.
    rewrite (proj2 (Z.eqb_neq t 0)) by set_solver. rewrite bind_eq, put_queue_eq, Hx, bind_eq, get_thread_eq, set_queue_thr.
    destruct (Hall t ltac:(set_solver)) as (th & Hth & Hst & _). rewrite Hth, bool_decide_eq_true_2 by assumption. reflexivity.
Qed.

(** What a pick leaves: nothing taken, or the first thread of a queue taken and paid for. *)
Inductive picked (w : World L) (e : Z) (en : Engine L) : Z -> World L -> Prop :=
| picked_none x : queue_of w (SharedQueue (e_cluster en)) = Some x -> elements (threads x) = [] ->
    (localTickets en <= 0 \/ elements (threads (localQueue en)) = []) -> picked w e en 0 w
| picked_from q x t l en1 en2 : queue_of w q = Some x -> elements (threads x) = t :: l ->
    engs (set_queue q (mkWorkQueue (u64 (depth x - 1)) (snd (PopFront (threads x)))) w) !! e = Some en1 ->
    ((q = LocalQueue e /\ 0 < localTickets en /\ en2 = pay_local en1) \/
     (q = SharedQueue (e_cluster en) /\ (localTickets en <= 0 \/ elements (threads (localQueue en)) = []) /\ en2 = pay_shared en1)) ->
    picked w e en t (let w1 := set_queue q (mkWorkQueue (u64 (depth x - 1)) (snd (PopFront (threads x)))) w in set_engs (<[e := en2]> (engs w1)) w1).

Lemma take_from_eq skip q x pay e en (w : World L) : sched_inv skip w -> queue_of w q = Some x -> engs w !! e = Some en ->
  exists en1, engs (set_queue q (mkWorkQueue (u64 (depth x - 1)) (snd (PopFront (threads x)))) w) !! e = Some en1 /\
  TakeFrom q pay e w = match elements (threads x) with
    | [] => Ok (0, w)
    | t :: _ => let w1 := set_queue q (mkWorkQueue (u64 (depth x - 1)) (snd (PopFront (threads x)))) w in Ok (t, set_engs (<[e := pay en1]> (engs w1)) w1)
    end.
Proof.
  intros Hinv Hx He. set (w1 := set_queue _ _ w).
  assert (He1 : is_Some (engs w1 !! e)).
  { pose proof (engine_of_set_queue q (mkWorkQueue (u64 (depth x - 1)) (snd (PopFront (threads x)))) w e) as E. fold w1 in E. unfold engine_of in E.
    rewrite He in E. destruct (engs w1 !! e); [eauto | discriminate]. }
  destruct He1 as [en1 He1]. exists en1. split; [assumption |]. unfold TakeFrom. rewrite bind_eq, (runnable_eq skip q x w Hinv Hx).
  destruct (si_queue _ _ Hinv q x Hx) as (_ & Hz & _ & _). destruct (elements (threads x)) as [| t l]; [reflexivity |]. cbv beta iota zeta.
  rewrite (proj2 (Z.eqb_neq t 0)) by set_solver. cbn [negb]. fold w1. rewrite bind_eq, get_engine_eq, He1. reflexivity.
Qed.

Lemma pick_spec skip e en (w : World L) : sched_inv skip w -> engs w !! e = Some en -> exists next w1, Pick e w = Ok (next, w1) /\ picked w e en next w1.
Proof.
  intros Hinv He. unfold Pick. rewrite bind_eq, get_engine_eq, He. cbv beta iota.
  assert (Hv : engine_of w e = Some (eview en)) by (unfold engine_of; rewrite He; reflexivity).
  destruct (si_cluster _ _ Hinv e _ Hv) as [cl Hcl]. simpl in Hcl.
  assert (Hs : queue_of w (SharedQueue (e_cluster en)) = Some (sharedQueue cl)) by (simpl; rewrite Hcl; reflexivity).
  assert (Hl : queue_of w (LocalQueue e) = Some (localQueue en)) by (simpl; rewrite He; reflexivity).
  destruct (take_from_eq skip _ _ pay_shared e en w Hinv Hs He) as (en1 & He1 & Eshared).
  destruct (take_from_eq skip _ _ pay_local e en w Hinv Hl He) as (en2 & He2 & Elocal).
  assert (Hshared : (localTickets en <= 0 \/ elements (threads (localQueue en)) = []) ->
    exists next w1, TakeFrom (SharedQueue (e_cluster en)) pay_shared e w = Ok (next, w1) /\ picked w e en next w1).
  { intros Hc. rewrite Eshared. destruct (elements (threads (sharedQueue cl))) as [| t l] eqn:El.
    - exists 0, w. split; [reflexivity |]. apply (picked_none w e en (sharedQueue cl)); auto.
    - eexists t, _. split; [reflexivity |]. eapply picked_from; eauto. }
  rewrite bind_eq. destruct (Z.ltb_spec 0 (localTickets en)) as [Hp | Hp]; [| apply Hshared; auto].
  rewrite Elocal. destruct (si_queue _ _ Hinv _ _ Hl) as (_ & Hz & _ & _).
  destruct (elements (threads (localQueue en))) as [| t l] eqn:El; [apply Hshared; auto |]. cbv beta iota zeta.
  rewrite (proj2 (Z.eqb_neq t 0)) by set_solver. eexists t, _. split; [reflexivity |]. eapply picked_from; eauto.
Qed.

Lemma inv_clock skip s (w : World L) : sched_inv skip w -> sched_inv skip (set_clock s w).
Proof. intros Hinv. apply (inv_frame skip w); auto; intros []; reflexivity. Qed.

(** What [MakePending] writes. *)
Definition pending_world (e next : Z) (en : Engine L) (t : Thread) (w : World L) : World L :=
  let w1 := set_thr (<[next := set_place Running (OnEngine (e_id en)) t]> (thr w)) w in
  let w2 := match evs (clock w1) !! rescheduleClockEvent en with
    | Some ev => set_clock (set_evs (<[rescheduleClockEvent en := set_duration (mkTime Millis 10) ev]> (evs (clock w1))) (clock w1)) w1
    | None => w1 end in
  set_engs (<[e := set_flags (snd (Flags.Clear (e_flags en) ReschedulePending)) (set_pending next en)]> (engs w)) w2.

Lemma make_pending_eq e next en t (w : World L) : engs w !! e = Some en -> thr w !! next = Some t -> MakePending e next w = Ok (tt, pending_world e next en t w).
Proof.
  intros He Ht. unfold MakePending. rewrite bind_eq, get_engine_eq, He, bind_eq, get_thread_eq, Ht, bind_eq, put_thread_eq, bind_eq, modify_eq, put_engine_eq.
  unfold pending_world. cbv zeta. destruct (evs _ !! _); reflexivity.
Qed.

(** The last two writes, once the thread runs. *)
Lemma inv_pending_engine skip e next en (w : World L) s : sched_inv skip w -> engs w !! e = Some en ->
  (exists th, thr w !! next = Some th /\ state th = Running /\ engineOrQueue th = OnEngine (e_id en)) ->
  (forall c, core_of w c = Some (e, next) -> skip <> Some c -> next = idleThread en) ->
  sched_inv skip (set_engs (<[e := set_flags (snd (Flags.Clear (e_flags en) ReschedulePending)) (set_pending next en)]> (engs w)) (set_clock s w)).
Proof.
  intros Hinv He Hrun Hcur. apply (inv_clock skip s) in Hinv. change (engs w) with (engs (set_clock s w)).
  apply (inv_set_engine skip _ e en); auto.
Qed.

Lemma pending_world_clock e next en t (w : World L) : exists s, pending_world e next en t w =
  set_engs (<[e := set_flags (snd (Flags.Clear (e_flags en) ReschedulePending)) (set_pending next en)]> (engs w))
    (set_clock s (set_thr (<[next := set_place Running (OnEngine (e_id en)) t]> (thr w)) w)).
Proof.
  unfold pending_world. cbv zeta. cbn [set_thr clock]. destruct (evs (clock w) !! rescheduleClockEvent en) as [ev |]; [eexists; reflexivity |].
  exists (clock w). destruct w; reflexivity.
Qed.

Lemma idle_inv e en th (w : World L) : sched_inv None w -> engs w !! e = Some en -> thr w !! idleThread en = Some th ->
  sched_inv None (pending_world e (idleThread en) en th w).
Proof.
  intros Hinv He Hth. assert (Hv : engine_of w e = Some (eview en)) by (unfold engine_of; rewrite He; reflexivity).
  destruct (si_idle _ _ Hinv e _ Hv) as (H0 & ih & Hih & Hst). simpl in Hih, Hst, H0. rewrite Hth in Hih. injection Hih as <-.
  destruct (pending_world_clock e (idleThread en) en th w) as [s ->]. set (w1 := set_thr _ w). change (engs w) with (engs w1).
  assert (Hi1 : sched_inv None w1).
  { apply (inv_set_thread None w _ th); [assumption | assumption | destruct Hst as [-> | [-> _]]; discriminate | discriminate | reflexivity | | |].
    - intros e' v Hv' Ei. split; [reflexivity |]. simpl. rewrite (si_idles _ _ Hinv e' e v _ Hv' Hv Ei) in Hv'. rewrite Hv in Hv'. injection Hv' as <-. reflexivity.
    - intros e' v Hv' _ Ep. destruct (si_pending _ _ Hinv e' v Hv' ltac:(congruence)) as (ph & Hph & Hs & Heq). rewrite Ep, Hth in Hph. injection Hph as <-.
      split; [reflexivity |]. simpl. destruct Hst as [? | [_ Heq']]; congruence.
    - intros c e' Hc _. destruct (si_current _ _ Hinv c e' _ Hc ltac:(discriminate) H0) as (ch & Hch & Hs). rewrite Hth in Hch. injection Hch as <-.
      right. right. split; [reflexivity |]. simpl. destruct Hst as [? | [? Heq']]; destruct Hs as [? | [? | [? ?]]]; congruence. }
  apply inv_pending_engine; auto. eexists. unfold w1. simpl. rewrite lookup_insert_eq. split; [reflexivity |]. auto.
Qed.

Lemma picked_inv e en q x t l en1 en2 th (w : World L) : sched_inv None w -> few_threads w -> engs w !! e = Some en ->
  queue_of w q = Some x -> elements (threads x) = t :: l ->
  let wq := set_queue q (mkWorkQueue (u64 (depth x - 1)) (snd (PopFront (threads x)))) w in
  engs wq !! e = Some en1 -> eview en2 = eview en1 -> localQueue en2 = localQueue en1 -> thr w !! t = Some th ->
  sched_inv None (pending_world e t en2 th (set_engs (<[e := en2]> (engs wq)) wq)).
Proof.
  intros Hinv Hf He Hx El wq He1 Hev Hlq Hth.
  destruct (si_queue _ _ Hinv q x Hx) as (Hn & Hz & _ & Hall). rewrite El in Hn, Hz, Hall. apply NoDup_cons in Hn as [Htl Hn].
  destruct (Hall t ltac:(set_solver)) as (th' & Hth' & Hst & _). rewrite Hth in Hth'. injection Hth' as <-.
  destruct (queued_elsewhere None w t th Hinv Hth Hst) as [Hno Hcur].
  injection Hev as Hid Hcl Hidle Hpend.
  assert (Hi1 : sched_inv None (set_thr (<[t := set_place Running (OnEngine (e_id en2)) th]> (thr w)) wq)).
  { apply (inv_take None w q x _ t th); [assumption | assumption | rewrite El; set_solver | assumption | | discriminate | reflexivity | pose proof (queue_length None w q x Hinv Hf Hx); lia].
    rewrite PopFront_elements, El. simpl. rewrite filter_cons_False by tauto. symmetry.
    clear -Htl. induction l as [| y l IH]; [reflexivity |]. rewrite filter_cons_True by set_solver. rewrite IH by set_solver. reflexivity. }
  destruct (pending_world_clock e t en2 th (set_engs (<[e := en2]> (engs wq)) wq)) as [s ->].
  assert (Hthr : thr wq = thr w) by apply set_queue_thr.
  set (w1 := set_thr _ _). assert (Ew1 : w1 = set_engs (<[e := en2]> (engs wq)) (set_thr (<[t := set_place Running (OnEngine (e_id en2)) th]> (thr w)) wq))
    by (unfold w1; simpl; rewrite Hthr; reflexivity).
  assert (Hi2 : sched_inv None w1).
  { rewrite Ew1. set (wt := set_thr _ wq) in *. change (engs wq) with (engs wt). apply (inv_set_engine None wt e en1); auto. congruence. }
  change (engs (set_engs (<[e := en2]> (engs wq)) wq)) with (engs w1).
  apply inv_pending_engine; auto.
  - rewrite Ew1. simpl. apply lookup_insert_eq.
  - exists (set_place Running (OnEngine (e_id en2)) th). rewrite Ew1. simpl. rewrite lookup_insert_eq. auto.
  - intros c Hc _. exfalso. rewrite Ew1 in Hc. unfold core_of in Hc. simpl in Hc. unfold wq in Hc. rewrite set_queue_cores in Hc.
    discriminate (Hcur c e Hc). set_solver.
Qed.

(** ** [DoReschedule] as a deferred call *)

Variable PollTicksToNanos : Z -> Z.
Variable InterruptTimerMaxNanos : Z.

(** The engine after its tickets were counted again, if the shared ones are used up. *)
Definition recounted (en : Engine L) (cl : EngineCluster L) : Engine L :=
  if sharedTickets en =? 0 then set_tickets (u64 (depth (localQueue en) * engineCount cl)) (depth (sharedQueue cl)) en else en.

Lemma recounted_same en cl : eview (recounted en cl) = eview en /\ localQueue (recounted en cl) = localQueue en /\
  rescheduleClockEvent (recounted en cl) = rescheduleClockEvent en /\ rescheduleDpc (recounted en cl) = rescheduleDpc en.
Proof. unfold recounted. destruct (_ =? _); auto. Qed.

Lemma reset_tickets_eq e en cl (w : World L) : engs w !! e = Some en -> clusters w !! e_cluster en = Some cl ->
  ResetTickets e w = Ok (tt, set_engs (<[e := recounted en cl]> (engs w)) w).
Proof.
  intros He Hcl. unfold ResetTickets, recounted. rewrite bind_eq, get_engine_eq, He, bind_eq, get_cluster_eq, Hcl.
  destruct (sharedTickets en =? 0); [reflexivity |]. rewrite ret_eq, insert_id by assumption. destruct w; reflexivity.
Qed.

(** The state in which the next thread is picked. *)
Definition before_pick (e : Z) (en : Engine L) (cl : EngineCluster L) (s : ClockState L) (w : World L) : World L :=
  set_engs (<[e := recounted en cl]> (engs w)) (set_clock s w).

(** The choice of [DoReschedule]: the idle thread or a picked one, with the state it leaves. *)
Inductive rescheduled (e : Z) (w0 : World L) (en0 : Engine L) : Z -> World L -> Prop :=
| resched_idle th : picked w0 e en0 0 w0 -> thr w0 !! idleThread en0 = Some th ->
    rescheduled e w0 en0 (idleThread en0) (pending_world e (idleThread en0) en0 th w0)
| resched_thread t w1 en2 th : picked w0 e en0 t w1 -> t <> 0 -> engs w1 !! e = Some en2 -> thr w0 !! t = Some th ->
    rescheduled e w0 en0 t (pending_world e t en2 th w1).

Lemma before_pick_inv e en cl s (w : World L) : sched_inv None w -> engs w !! e = Some en -> sched_inv None (before_pick e en cl s w).
Proof.
  intros Hinv He. apply (inv_clock None s) in Hinv. unfold before_pick. change (engs w) with (engs (set_clock s w)).
  destruct (recounted_same en cl) as (Hv & Hlq & _). injection Hv as Hid Hcl Hidle Hp. apply (inv_set_engine None _ e en); auto. congruence.
Qed.

Lemma picked_zero w e en w1 : sched_inv None w -> picked w e en 0 w1 -> w1 = w.
Proof.
  intros Hinv Hp. inversion Hp as [x Hx El Hc | q x t l en1 en2 Hx El He1 Hq]; subst; [reflexivity |].
  destruct (si_queue _ _ Hinv q x Hx) as (_ & Hz & _). rewrite El in Hz. destruct Hz. left.
Qed.

Lemma picked_engine w e en t w1 : t <> 0 -> picked w e en t w1 -> exists en2, engs w1 !! e = Some en2 /\ thr w1 = thr w.
Proof.
  intros H0 Hp. inversion Hp as [x Hx El Hc | q x t' l en1 en2 Hx El He1 Hq]; subst; [congruence |].
  exists en2. simpl. rewrite lookup_insert_eq, set_queue_thr. auto.
Qed.

Lemma picked_thread w e en t w1 : sched_inv None w -> t <> 0 -> picked w e en t w1 -> exists th, thr w !! t = Some th /\ state th = Queued.
Proof.
  intros Hinv H0 Hp. inversion Hp as [x Hx El Hc | q x t' l en1 en2 Hx El He1 Hq]; subst; [congruence |].
  destruct (si_queue _ _ Hinv q x Hx) as (_ & _ & _ & Hall). destruct (Hall t ltac:(rewrite El; left)) as (th & Hth & Hst & _). eauto.
Qed.

Lemma reschedule_spec c k en cl s' (w : World L) : sched_inv None w -> cores w !! c = Some k ->
  engs w !! localEngine k = Some en -> clusters w !! e_cluster en = Some cl ->
  DequeueClockEvent PollTicksToNanos InterruptTimerMaxNanos c (ticks w) (rescheduleClockEvent en) (clock w) = Ok s' ->
  exists next w', Reschedule PollTicksToNanos InterruptTimerMaxNanos c w = Ok (tt, w') /\
    rescheduled (localEngine k) (before_pick (localEngine k) en cl s' w) (recounted en cl) next w'.
Proof.
  intros Hinv Hk He Hcl Hs. unfold Reschedule, LocalEngine, on_clock.
  rewrite bind_eq, bind_eq, get_core_eq, Hk. cbv beta iota. rewrite ret_eq, bind_eq, get_engine_eq, He. cbv beta iota.
  rewrite bind_eq, bind_eq, gets_eq, bind_eq, gets_eq, bind_eq, lift_eq, Hs. cbv beta iota. rewrite modify_eq. cbv beta iota.
  rewrite bind_eq, (reset_tickets_eq _ en cl) by assumption. cbv beta iota.
  set (w0 := before_pick (localEngine k) en cl s' w). change (set_engs _ (set_clock s' w)) with w0. assert (Hi0 : sched_inv None w0) by (apply before_pick_inv; assumption).
  assert (He0 : engs w0 !! localEngine k = Some (recounted en cl)) by apply lookup_insert_eq.
  destruct (pick_spec None (localEngine k) _ w0 Hi0 He0) as (next & w1 & Ep & Hp). rewrite bind_eq, Ep. cbv beta iota zeta.
  assert (Hv : engine_of w0 (localEngine k) = Some (eview (recounted en cl))) by (unfold engine_of; rewrite He0; reflexivity).
  assert (Hidle : idleThread (recounted en cl) = idleThread en) by (unfold recounted; destruct (_ =? _); reflexivity).
  destruct (Z.eqb_spec next 0) as [-> | Hn].
  - assert (w1 = w0) as -> by (apply (picked_zero w0 (localEngine k) (recounted en cl)); assumption).
    destruct (si_idle _ _ Hi0 _ _ Hv) as (_ & ih & Hih & _). simpl in Hih.
    rewrite (make_pending_eq _ _ (recounted en cl) ih) by (assumption || (rewrite <- Hidle; assumption)). eexists _, _. split; [reflexivity |].
    rewrite <- Hidle. constructor; [exact Hp | exact Hih].
  - destruct (picked_engine _ _ _ _ _ Hn Hp) as (en2 & He2 & Hthr). destruct (picked_thread _ _ _ _ _ Hi0 Hn Hp) as (th & Hth & _).
    rewrite (make_pending_eq _ _ en2 th) by (rewrite ?Hthr; assumption). eexists _, _. split; [reflexivity |]. econstructor; eassumption.
Qed.

Lemma rescheduled_inv e w0 en0 next (w' : World L) : sched_inv None w0 -> few_threads w0 -> engs w0 !! e = Some en0 -> rescheduled e w0 en0 next w' ->
  sched_inv None w' /\ few_threads w'.
Proof.
  intros Hinv Hf He Hr. destruct Hr as [th Hp Hth | t w1 en2 th Hp Hn He2 Hth].
  - split; [apply idle_inv; assumption |]. destruct (pending_world_clock e (idleThread en0) en0 th w0) as [s ->]. eapply few_threads_insert; [exact Hth | reflexivity | exact Hf].
  - inversion Hp as [x Hx El Hc | q x t' l en1 en2' Hx El He1 Hq]; subst; [congruence |].
    simpl in He2. rewrite lookup_insert_eq in He2. injection He2 as ->.
    assert (Hsame : eview en2 = eview en1 /\ localQueue en2 = localQueue en1) by (destruct Hq as [(_ & _ & ->) | (_ & _ & ->)]; split; reflexivity).
    split; [eapply picked_inv; eauto; apply Hsame |].
    match goal with |- few_threads (pending_world _ _ _ _ ?w1) => destruct (pending_world_clock e t en2 th w1) as [s ->] end.
    eapply (few_threads_insert w0); [exact Hth | | exact Hf]. simpl. rewrite set_queue_thr. reflexivity.
Qed.
End Ops.
