(* ===== verification/SchedSafety.v ===== *)
(** Every operation of [Tasking.v] keeps the scheduler's invariant, by rules for the operations it
    is made of. *)

From stdpp Require Import relations.
From S2P Require Import Prelude Maths Flags Queue QueueProofs IntrList Clock ClockProofs Tasking SchedProofs SchedOps.

Create HintDb sched.

Section Safety.
Context {L : Type} `{HLaws : IntrFwdListLaws L}.
Variable PollTicksToNanos : Z -> Z.
Variable InterruptTimerMaxNanos : Z.
Variable timekeepingEvent : Z.
Variable other_dpc : Z -> Z -> Z -> M L unit.

Definition sched_ok (w : World L) : Prop := sched_inv None w /\ few_threads w.

(** [m] keeps the invariant. *)
Definition keeps {A} (m : M L A) : Prop := forall w a w', sched_ok w -> m w = Ok (a, w') -> sched_ok w'.

Lemma keeps_bind {A B} (m : M L A) (f : A -> M L B) : keeps m -> (forall a, keeps (f a)) -> keeps (m ≫= f).
Proof. intros Hm Hf w b w' Hw E. rewrite bind_eq in E. destruct (m w) as [[a w1] | |] eqn:Em; [| discriminate ..]. eapply Hf; [| exact E]. eapply Hm; eauto. Qed.
Lemma keeps_ret {A} (a : A) : keeps (mret a).
Proof. intros w b w' Hw E. injection E as _ <-. assumption. Qed.
Lemma keeps_gets {A} (f : World L -> A) : keeps (gets f).
Proof. intros w b w' Hw E. injection E as _ <-. assumption. Qed.
Lemma keeps_lift {A} (r : res A) : keeps (lift r).
Proof. intros w b w' Hw E. unfold lift in E. destruct r; [| discriminate ..]. injection E as _ <-. assumption. Qed.
Lemma keeps_get_core c : keeps (get_core c).
Proof. apply keeps_bind; [apply keeps_gets | intros; apply keeps_lift]. Qed.
Lemma keeps_get_engine e : keeps (get_engine e).
Proof. apply keeps_bind; [apply keeps_gets | intros; apply keeps_lift]. Qed.
Lemma keeps_get_thread t : keeps (get_thread t).
Proof. apply keeps_bind; [apply keeps_gets | intros; apply keeps_lift]. Qed.
Lemma keeps_local_engine c : keeps (LocalEngine c).
Proof. apply keeps_bind; [apply keeps_get_core | intros; apply keeps_ret]. Qed.

(** Parts of the state the invariant does not read. *)
Lemma keeps_frame f : (forall w, cores (f w) = cores w /\ engs (f w) = engs w /\ clusters (f w) = clusters w /\ thr (f w) = thr w) -> keeps (modify f).
Proof.
  intros Hf w a w' [Hi Hs] E. injection E as _ <-. destruct (Hf w) as (E1 & E2 & E3 & E4). split; [| unfold few_threads in *; rewrite E4; assumption].
  apply (inv_frame None w); auto; try (intros []; simpl; rewrite ?E2, ?E3; reflexivity).
  - intros e. unfold engine_of. rewrite E2. reflexivity.
  - intros k. rewrite E3. auto.
  - intros c. unfold core_of. rewrite E1. reflexivity.
Qed.

(** A core's level, queues and interrupt bit. *)
Lemma core_write (c : Z) k k' (w : World L) : sched_ok w -> cores w !! c = Some k -> localEngine k' = localEngine k -> localThread k' = localThread k ->
  sched_ok (set_cores (<[c := k']> (cores w)) w).
Proof.
  intros [Hi Hs] Hk He Ht. split; [| exact Hs]. apply (inv_frame None w); auto; try (intros []; reflexivity).
  intros c'. unfold core_of. simpl. destruct (decide (c = c')) as [<- | Hne]; [rewrite lookup_insert_eq, Hk; simpl; rewrite He, Ht | rewrite lookup_insert_ne by assumption]; reflexivity.
Qed.

Lemma keeps_update_core {A} c (f : Core -> Core) (g : Core -> M L A) :
  (forall k, localEngine (f k) = localEngine k /\ localThread (f k) = localThread k) -> (forall k, keeps (g k)) ->
  keeps (k ← get_core c; _ ← put_core c (f k); g k).
Proof.
  intros Hf Hg w a w' Hw E. rewrite bind_eq, get_core_eq in E. destruct (cores w !! c) as [k |] eqn:Ek; [| discriminate].
  rewrite bind_eq, put_core_eq in E. eapply (Hg k); [| exact E]. eapply core_write; eauto; apply Hf.
Qed.

(** Tickets and flags of an engine, and taking its pending thread back. *)
Lemma keeps_update_engine {A} e (f : Engine L -> Engine L) (g : Engine L -> M L A) :
  (forall en, e_id (f en) = e_id en /\ e_cluster (f en) = e_cluster en /\ idleThread (f en) = idleThread en /\ localQueue (f en) = localQueue en /\
    (pendingThread (f en) = pendingThread en \/ pendingThread (f en) = 0)) -> (forall en, keeps (g en)) ->
  keeps (en ← get_engine e; _ ← put_engine e (f en); g en).
Proof.
  intros Hf Hg w a w' [Hi Hs] E. rewrite bind_eq, get_engine_eq in E. destruct (engs w !! e) as [en |] eqn:Ee; [| discriminate]. rewrite bind_eq, put_engine_eq in E.
  eapply Hg; [| exact E]. split; [| exact Hs]. destruct (Hf en) as (H1 & H2 & H3 & H4 & H5). apply (inv_set_engine None w e en); auto. intros Hne Hd. destruct H5; contradiction.
Qed.

Lemma keeps_on_clock f : keeps (on_clock (L := L) f).
Proof.
  apply keeps_bind; [apply keeps_gets | intros s]. apply keeps_bind; [apply keeps_gets | intros t]. apply keeps_bind; [apply keeps_lift | intros s']. apply keeps_frame; auto.
Qed.

Lemma keeps_raise c l : keeps (RaiseRunLevel (L := L) c l).
Proof.
  intros w a w' Hw E. unfold RaiseRunLevel in E. rewrite bind_eq, get_core_eq in E. destruct (cores w !! c) as [k |] eqn:Ek; [| discriminate].
  rewrite bind_eq, lift_eq in E. destruct (runLevel k <? l); [| discriminate]. cbn [assert_] in E.
  rewrite bind_eq, put_core_eq in E. injection E as _ <-. eapply core_write; eauto.
Qed.

Lemma keeps_ensure c l : keeps (EnsureRunLevel (L := L) c l).
Proof.
  apply keeps_bind; [apply keeps_get_core | intros k]. destruct (_ <? _); [| apply keeps_ret]. apply keeps_bind; [apply keeps_raise | intros; apply keeps_ret].
Qed.

Lemma keeps_switch_pending c : keeps (SwitchPending (L := L) c).
Proof. apply keeps_bind; [apply keeps_local_engine | intros e]. apply keeps_bind; [apply keeps_get_engine | intros; apply keeps_ret]. Qed.

Lemma keeps_switch c : keeps (DoPendingSwitch (L := L) c).
Proof. intros w [] w' [Hi Hs] E. destruct (switch_inv c w w' Hi Hs E) as (H1 & H2 & _). split; assumption. Qed.

Lemma keeps_reschedule c : keeps (Reschedule (L := L) PollTicksToNanos InterruptTimerMaxNanos c).
Proof.
  intros w [] w' [Hi Hs] E. assert (E' := E). unfold Reschedule, LocalEngine, on_clock in E.
  rewrite bind_eq, bind_eq, get_core_eq in E. destruct (cores w !! c) as [k |] eqn:Ek; [| discriminate]. cbv beta iota in E. rewrite ret_eq in E. cbv beta iota in E.
  rewrite bind_eq, get_engine_eq in E. destruct (engs w !! localEngine k) as [en |] eqn:Ee; [| discriminate]. cbv beta iota in E.
  rewrite bind_eq, bind_eq, gets_eq, bind_eq, gets_eq, bind_eq, lift_eq in E. cbv beta iota in E.
  destruct (DequeueClockEvent _ _ _ _ _ _) as [s' | |] eqn:Ed; [| discriminate ..]. clear E.
  assert (Hv : engine_of w (localEngine k) = Some (eview en)) by (unfold engine_of; rewrite Ee; reflexivity).
  destruct (si_cluster _ _ Hi _ _ Hv) as [cl Hcl]. simpl in Hcl.
  destruct (reschedule_spec PollTicksToNanos InterruptTimerMaxNanos c k en cl s' w Hi Ek Ee Hcl Ed) as (next & w1 & E1 & Hr).
  rewrite E1 in E'. injection E' as ->. eapply rescheduled_inv; [| | | exact Hr].
  - apply before_pick_inv; assumption.
  - exact Hs.
  - apply lookup_insert_eq.
Qed.
End Safety.
#[export] Hint Resolve keeps_bind keeps_ret keeps_gets keeps_lift keeps_get_core keeps_get_engine keeps_get_thread keeps_local_engine
  keeps_raise keeps_ensure keeps_switch_pending keeps_switch keeps_reschedule keeps_on_clock : sched.

Section Lower.
Context {L : Type} `{HLaws : IntrFwdListLaws L}.

(** ** Run levels *)

Lemma keeps_drain run : (forall c d, keeps (L := L) (run c d)) -> forall fuel c, keeps (drain run fuel c).
Proof.
  intros Hr. induction fuel as [| fuel IH]; intros c w a w' Hw E; cbn [drain] in E; rewrite bind_eq, get_core_eq in E;
    (destruct (cores w !! c) as [k |] eqn:Ek; [| discriminate]); destruct (Mpsc.Pop (stub k) (dpcs k)) as [d q];
    rewrite bind_eq, put_core_eq in E; (destruct (d =? 0); [injection E as _ <-; eapply core_write; eauto |]); [discriminate |].
  rewrite bind_eq, put_core_eq in E. simpl in E. rewrite insert_insert_eq in E. eapply keeps_bind; [| | | exact E]; cbv beta.
  - apply keeps_frame. auto.
  - intros _. apply keeps_bind; [apply Hr | intros _; apply IH].
  - eapply (core_write c k (set_dpcs _ k)) in Hw; eauto.
Qed.

Lemma keeps_lower_loop run fuel' : (forall c d, keeps (L := L) (run c d)) -> forall fuel c n acc, keeps (lower_loop run fuel fuel' c n acc).
Proof.
  intros Hr. induction fuel as [| fuel IH]; intros c n acc; cbn [lower_loop]; apply keeps_bind; auto with sched; intros k;
    (destruct (n <? runLevel k); [| auto with sched]); [auto with sched |].
  apply keeps_bind.
  - destruct (runLevel k =? Dpc); [apply keeps_bind; [apply keeps_drain; assumption | intros; apply keeps_ret] |].
    destruct (_ || _); [| apply keeps_ret]. apply keeps_bind; [apply keeps_switch_pending | intros []; [| apply keeps_ret]].
    apply (keeps_update_core c (set_interrupts false)); auto with sched.
  - intros acc'. apply (keeps_update_core c (fun k => set_runLevel (runLevel k - 1) k)); auto.
Qed.

Lemma keeps_lower_with run fuel : (forall c d, keeps (L := L) (run c d)) -> forall c n, keeps (lower_with run fuel c n).
Proof.
  intros Hr c n. apply keeps_bind; auto with sched. intros k. apply keeps_bind; auto with sched. intros _.
  apply keeps_bind; [apply keeps_lower_loop; assumption |]. intros [ri ds]. destruct ds; [| apply keeps_ret].
  apply keeps_bind; [apply keeps_switch |]. intros _. destruct ri; [| apply keeps_ret].
  intros w a w' Hw E. rewrite bind_eq, get_core_eq in E. destruct (cores w !! c) as [k' |] eqn:Ek; [| discriminate].
  rewrite put_core_eq in E. injection E as _ <-. eapply core_write; eauto.
Qed.
End Lower.

Section Calls.
Context {L : Type} `{HLaws : IntrFwdListLaws L}.
Variable PollTicksToNanos : Z -> Z.
Variable InterruptTimerMaxNanos : Z.
Variable timekeepingEvent : Z.
Variable other_dpc : Z -> Z -> Z -> M L unit.
Hypothesis other_keeps : forall f a c, keeps (other_dpc f a c).

Abbreviation lower := (LowerRunLevel PollTicksToNanos InterruptTimerMaxNanos timekeepingEvent other_dpc).

Lemma keeps_run_dpc n fuel : forall c d, keeps (run_dpc PollTicksToNanos InterruptTimerMaxNanos timekeepingEvent other_dpc n fuel c d).
Proof.
  induction n as [| n IH]; intros c d; cbn [run_dpc]; [apply keeps_lift |].
  apply keeps_bind; auto with sched. intros m. apply keeps_bind; auto with sched. intros [| | f a]; auto with sched.
  apply keeps_bind; auto with sched. intros prev. apply keeps_bind; auto with sched. intros _. destruct prev; auto with sched.
  apply keeps_lower_with. assumption.
Qed.

Lemma keeps_lower fuel c n : keeps (lower fuel c n).
Proof. apply keeps_lower_with. intros; apply keeps_run_dpc. Qed.

Lemma keeps_queue_dpc fuel c d : keeps (QueueDpc PollTicksToNanos InterruptTimerMaxNanos timekeepingEvent other_dpc fuel c d).
Proof.
  unfold QueueDpc. destruct (d =? 0); auto with sched. intros w a w' Hw E. rewrite bind_eq, get_core_eq in E.
  destruct (cores w !! c) as [k |] eqn:Ek; [| discriminate]. destruct (negb _); [injection E as _ <-; assumption |].
  rewrite bind_eq, put_core_eq in E. assert (Hw1 : sched_ok (set_cores (<[c := set_dpcs (Mpsc.Push d (dpcs k)) k]> (cores w)) w)) by (eapply core_write; eauto).
  revert Hw1 E. apply (fun H : keeps _ => H _ _ _). destruct (_ <=? _); auto with sched. apply keeps_bind; auto with sched. intros _. apply keeps_lower.
Qed.

Lemma keeps_queue_apc fuel c d : keeps (QueueApc PollTicksToNanos InterruptTimerMaxNanos timekeepingEvent other_dpc fuel c d).
Proof.
  unfold QueueApc. destruct (d =? 0); auto with sched. intros w a w' Hw E. rewrite bind_eq, get_core_eq in E.
  destruct (cores w !! c) as [k |] eqn:Ek; [| discriminate]. destruct (negb _); [injection E as _ <-; assumption |].
  rewrite bind_eq, put_core_eq in E. assert (Hw1 : sched_ok (set_cores (<[c := set_apcs (Mpsc.Push d (apcs k)) k]> (cores w)) w)) by (eapply core_write; eauto).
  revert Hw1 E. apply (fun H : keeps _ => H _ _ _). destruct (_ <=? _); auto with sched. apply keeps_bind; auto with sched. intros _. apply keeps_lower.
Qed.

Lemma keeps_queue_reschedule fuel c : keeps (QueueReschedule PollTicksToNanos InterruptTimerMaxNanos timekeepingEvent other_dpc fuel c).
Proof.
  apply keeps_bind; auto with sched. intros e.
  apply (keeps_update_engine e (fun en => set_flags (snd (Flags.Set_ (e_flags en) ReschedulePending)) en)); [auto 6 |].
  intros en. simpl. destruct (negb _); auto with sched. apply keeps_queue_dpc.
Qed.

Lemma keeps_send d m : keeps (SendIpiMail (L := L) d m).
Proof. apply keeps_frame. auto. Qed.

Lemma keeps_yield fuel c : keeps (Yield PollTicksToNanos InterruptTimerMaxNanos timekeepingEvent other_dpc fuel c).
Proof.
  apply keeps_bind; auto with sched. intros k. apply keeps_bind; auto with sched. intros _. apply keeps_bind; auto with sched. intros _.
  apply keeps_queue_reschedule.
Qed.

Lemma keeps_clock_interrupt fuel c : keeps (ClockInterrupt PollTicksToNanos InterruptTimerMaxNanos timekeepingEvent other_dpc fuel c).
Proof.
  apply keeps_bind; auto with sched. intros k. apply keeps_bind; auto with sched. intros _. apply keeps_bind; auto with sched. intros s.
  apply keeps_bind; auto with sched. intros t. apply keeps_bind; auto with sched. intros [due s']. apply keeps_bind; [apply keeps_frame; auto |]. intros _.
  induction due as [| [core d] due IH]; simpl; auto with sched. apply keeps_bind; [| intros _; exact IH].
  destruct (core =? c) eqn:E; [apply keeps_queue_dpc |]. unfold QueueRemoteDpc. rewrite E. apply keeps_send.
Qed.
End Calls.

(** ** Threads in and out of the queues *)

Section Threads.
Context {L : Type} `{HLaws : IntrFwdListLaws L}.

Definition not_current (w : World L) (t : Z) : Prop := forall c e, core_of w c <> Some (e, t).
Definition not_idle (w : World L) (t : Z) : Prop := forall e v, engine_of w e = Some v -> ev_idle v <> t.

Lemma find_engine_state l id (w : World L) r w' : find_engine l id w = Ok (r, w') -> w' = w.
Proof.
  revert w r w'. induction l as [| e l IH]; intros w r w' E; simpl in E; [injection E as _ <-; reflexivity |].
  rewrite bind_eq, get_engine_eq in E. destruct (engs w !! e) as [en |]; [| discriminate]. destruct (negb _); [eauto | injection E as _ <-; reflexivity].
Qed.

Lemma enqueue_ok t (w w' : World L) : sched_ok w -> not_current w t -> EnqueueThread t w = Ok (tt, w') -> sched_ok w'.
Proof.
  intros [Hi Hs] Hcur E. unfold EnqueueThread in E. destruct (Z.eqb_spec t 0) as [-> | H0]; [injection E as <-; split; assumption |].
  rewrite bind_eq, get_thread_eq in E. destruct (thr w !! t) as [th |] eqn:Et; [| discriminate].
  destruct (bool_decide (state th = Ready)) eqn:Er; cbn [negb] in E; [apply bool_decide_eq_true in Er | injection E as <-; split; assumption].
  rewrite bind_eq in E. set (sel := if _ : bool then _ else _) in E.
  assert (Hsel : forall r w1, sel w = Ok (r, w1) -> w1 = w).
  { intros r w1. unfold sel. destruct (negb _).
    - rewrite bind_eq, gets_eq, bind_eq. destruct (find_engine _ _ w) as [[e w2] | |] eqn:Ef; [| discriminate ..]. intros [= _ <-]. apply (find_engine_state _ _ _ _ _ Ef).
    - rewrite bind_eq, gets_eq. intros [= _ <-]. reflexivity. }
  destruct (sel w) as [[r w1] | |] eqn:Es; [| discriminate ..]. apply Hsel in Es || (rewrite (Hsel r w1 eq_refl) in *).
  destruct r as [q |]; [| injection E as <-; split; assumption].
  rewrite bind_eq, put_thread_eq, push_queue_eq in E.
  assert (Hq : queue_of (set_thr (<[t := set_place Queued (OnQueue q) th]> (thr w)) w) q = queue_of w q) by (destruct q; reflexivity).
  rewrite Hq in E. destruct (queue_of w q) as [x |] eqn:Ex; [| discriminate]. injection E as <-.
  split; [| eapply few_threads_insert; [exact Et | rewrite set_queue_thr; reflexivity | assumption]].
  apply inv_push; auto; [congruence | | intros c e Hc; destruct (Hcur c e Hc) | apply (queue_length None w q x); assumption].
  intros e v Hv. split.
  - intros Ei. destruct (si_idle _ _ Hi e v Hv) as (_ & ih & Hih & Hst). rewrite Ei, Et in Hih. injection Hih as <-. destruct Hst as [? | [? _]]; congruence.
  - intros Ep. destruct (si_pending _ _ Hi e v Hv ltac:(congruence)) as (ph & Hph & Hst & _). rewrite Ep, Et in Hph. injection Hph as <-. congruence.
Qed.

Lemma ensure_same c l (w w' : World L) r : EnsureRunLevel c l w = Ok (r, w') ->
  thr w' = thr w /\ engs w' = engs w /\ clusters w' = clusters w /\ (forall c', core_of w' c' = core_of w c').
Proof.
  unfold EnsureRunLevel, RaiseRunLevel. rewrite bind_eq, get_core_eq. destruct (cores w !! c) as [k |] eqn:Ek; [| discriminate].
  destruct (runLevel k <? l) eqn:El; [| intros [= _ <-]; auto].
  rewrite bind_eq, bind_eq, get_core_eq, Ek, bind_eq, lift_eq, El. cbn [assert_]. rewrite bind_eq, put_core_eq. intros [= _ <-]. repeat split.
  intros c'. unfold core_of. simpl. destruct (decide (c = c')) as [<- | Hne]; [rewrite lookup_insert_eq, Ek | rewrite lookup_insert_ne by assumption]; reflexivity.
Qed.

(** A thread that ran on this core and is not pending becomes ready. *)
Lemma ready_running c e en t th (w : World L) : sched_ok w -> t <> 0 -> not_idle w t -> thr w !! t = Some th -> state th = Running -> engineOrQueue th = OnEngine c ->
  engs w !! e = Some en -> e_id en = c -> pendingThread en <> t -> sched_ok (set_thr (<[t := set_state Ready th]> (thr w)) w).
Proof.
  intros [Hi Hs] H0 Hidle Ht Hst Hon He Hid Hp. split; [| eapply few_threads_insert; [exact Ht | reflexivity | exact Hs]].
  assert (Hv : engine_of w e = Some (eview en)) by (unfold engine_of; rewrite He; reflexivity).
  apply (inv_set_thread None w t th); auto; try (simpl; congruence).
  - intros e' v Hv' Ei. destruct (Hidle e' v Hv' Ei).
  - intros e' v Hv' _ Ep. exfalso. destruct (si_pending _ _ Hi e' v Hv' ltac:(congruence)) as (ph & Hph & _ & Heq). rewrite Ep, Ht in Hph. injection Hph as <-.
    assert (e' = e) as -> by (apply (si_ids _ _ Hi e' e v (eview en) Hv' Hv); simpl; congruence). rewrite Hv in Hv'. injection Hv' as <-. contradiction.
Qed.

Lemma set_queue_set_thr q x m (w : World L) : set_queue q x (set_thr m w) = set_thr m (set_queue q x w).
Proof. destruct q as [k | e]; simpl; [destruct (clusters w !! k) | destruct (engs w !! e)]; reflexivity. Qed.

Variable PollTicksToNanos : Z -> Z.
Variable InterruptTimerMaxNanos : Z.
Variable timekeepingEvent : Z.
Variable other_dpc : Z -> Z -> Z -> M L unit.
Hypothesis other_keeps : forall f a c, keeps (other_dpc f a c).

(** The thread a core may take out: queued, or running on that core. *)
Definition may_dequeue (w : World L) (c t : Z) : Prop :=
  not_idle w t /\ forall th, thr w !! t = Some th -> state th = Running -> engineOrQueue th = OnEngine c.

Lemma dequeue_ok fuel c t (w w' : World L) : sched_ok w -> may_dequeue w c t ->
  DequeueThread PollTicksToNanos InterruptTimerMaxNanos timekeepingEvent other_dpc fuel c t w = Ok (tt, w') -> sched_ok w'.
Proof.
  intros Hok [Hidle Hrun] E. unfold DequeueThread in E. destruct (Z.eqb_spec t 0) as [-> | H0]; [injection E as <-; assumption |].
  rewrite bind_eq, get_thread_eq in E. destruct (thr w !! t) as [th |] eqn:Et; [| discriminate].
  destruct (negb _); [injection E as <-; assumption |]. unfold LocalEngine in E.
  rewrite bind_eq, bind_eq, get_core_eq in E. destruct (cores w !! c) as [k |] eqn:Ek; [| discriminate]. cbv beta iota in E. rewrite ret_eq in E. cbv beta iota in E.
  rewrite bind_eq, get_engine_eq in E. destruct (engs w !! localEngine k) as [en |] eqn:Ee; [| discriminate]. cbv beta iota in E.
  rewrite bind_eq in E. destruct (EnsureRunLevel c Apc w) as [[prev w1] | |] eqn:El; [| discriminate ..]. cbv beta iota in E.
  assert (Hok1 : sched_ok w1) by (eapply keeps_ensure; eauto). destruct (ensure_same _ _ _ _ _ El) as (Hthr & Hengs & Hcl & Hcore).
  rewrite bind_eq, put_thread_eq in E. cbv beta iota in E. rewrite bind_eq in E.
  match type of E with match ?b with _ => _ end = _ => destruct b as [[[] w2] | |] eqn:Eb; [| discriminate ..] end. cbv beta iota in E.
  assert (Hc : core_of w c = Some (localEngine k, localThread k)) by (unfold core_of; rewrite Ek; reflexivity).
  assert (Hv : engine_of w (localEngine k) = Some (eview en)) by (unfold engine_of; rewrite Ee; reflexivity).
  destruct (si_core _ _ (proj1 Hok) c _ _ Hc) as (v & Hv' & Hid). rewrite Hv in Hv'. injection Hv' as <-. simpl in Hid.
  assert (Hidle1 : not_idle w1 t) by (intros e v Hv1; apply (Hidle e v); unfold engine_of in *; rewrite Hengs in Hv1; assumption).
  rewrite <- Hthr in Et. rewrite <- Hengs in Ee.
  assert (Hok2 : sched_ok w2).
  { destruct (state th) eqn:Est; try discriminate.
    - destruct (engineOrQueue th) as [| q] eqn:Eo; [discriminate |]. rewrite bind_eq, get_queue_eq in Eb.
      assert (Hq : queue_of (set_thr (<[t := set_state Ready th]> (thr w1)) w1) q = queue_of w1 q) by (destruct q; reflexivity). rewrite Hq in Eb.
      destruct (queue_of w1 q) as [x |] eqn:Ex; [| discriminate]. destruct (ListRemove t (threads x)) as [r l] eqn:Er.
      rewrite bind_eq, lift_eq in Eb. destruct (negb (r =? 0)); [| discriminate]. cbn [assert_] in Eb. rewrite put_queue_eq, Hq in Eb. injection Eb as <-.
      rewrite set_queue_set_thr. destruct Hok1 as [Hi1 Hs1].
      destruct (si_queue _ _ Hi1 q x Ex) as (Hn & _ & _ & _). destruct (si_queued _ _ Hi1 t th Et Est) as (q' & x' & Heq & Ex' & Hin).
      assert (q' = q) as -> by congruence. rewrite Ex in Ex'. injection Ex' as <-.
      split; [| eapply few_threads_insert; [exact Et | reflexivity | exact Hs1]].
      apply (inv_take None w1 q x l t th); [assumption | assumption | assumption | assumption | | discriminate | reflexivity | pose proof (queue_length None w1 q x Hi1 Hs1 Ex); lia].
      pose proof (Remove_elements t (threads x) Hn) as Hr. rewrite Er in Hr. exact Hr.
    - destruct (engineOrQueue th) as [id |] eqn:Eo; [| discriminate]. assert (Hid' : id = c) by (specialize (Hrun th ltac:(congruence) Est); congruence). subst id.
      rewrite Hid, Z.eqb_refl in Eb. rewrite bind_eq, get_core_eq in Eb. cbn [set_thr cores] in Eb.
      destruct (cores w1 !! c) as [k1 |] eqn:Ek1; [| discriminate].
      assert (Hk1 : localEngine k1 = localEngine k /\ localThread k1 = localThread k).
      { specialize (Hcore c). rewrite Hc in Hcore. unfold core_of in Hcore. rewrite Ek1 in Hcore. injection Hcore as ? ?. auto. }
      destruct (Z.eqb_spec t (localThread k1)) as [Ecur | Ecur].
      + eapply (keeps_queue_reschedule PollTicksToNanos InterruptTimerMaxNanos timekeepingEvent other_dpc other_keeps); [| exact Eb].
        apply (ready_running c (localEngine k) en); auto. intros Ep. destruct Hok1 as [Hi1 _].
        assert (Hc1 : core_of w1 c = Some (localEngine k, t)) by (rewrite Hcore, Hc; f_equal; f_equal; destruct Hk1; congruence).
        assert (Hv1 : engine_of w1 (localEngine k) = Some (eview en)) by (unfold engine_of; rewrite Ee; reflexivity).
        apply (Hidle1 _ _ Hv1). symmetry. apply (si_switch _ _ Hi1 c _ t (eview en) Hc1 Hv1); auto.
      + rewrite bind_eq, get_engine_eq in Eb. cbn [set_thr engs] in Eb. rewrite Ee in Eb. rewrite put_engine_eq in Eb. injection Eb as <-.
        set (w3 := set_engs (<[localEngine k := set_pending 0 en]> (engs w1)) w1).
        assert (Hok3 : sched_ok w3) by (destruct Hok1 as [Hi1 Hs1]; split; [apply (inv_set_engine None w1 _ en); auto; simpl; congruence | exact Hs1]).
        apply (ready_running c (localEngine k) (set_pending 0 en) t th w3); auto.
        * intros e v Hv3. unfold engine_of, w3 in Hv3. simpl in Hv3. destruct (decide (localEngine k = e)) as [<- | Hne].
          -- rewrite lookup_insert_eq in Hv3. injection Hv3 as <-. apply (Hidle1 (localEngine k) (eview en)). unfold engine_of. rewrite Ee. reflexivity.
          -- rewrite lookup_insert_ne in Hv3 by assumption. apply (Hidle1 e v Hv3).
        * apply lookup_insert_eq. }
  destruct prev; [eapply keeps_lower; eauto | injection E as <-; assumption].
Qed.
End Threads.
