(* ===== verification/SchedSpec.v ===== *)
(** What the scheduler promises. *)

From stdpp Require Import relations.
From S2P Require Import Prelude Maths Flags Queue QueueProofs IntrList Clock ClockProofs Tasking SchedProofs SchedOps SchedSafety.

Section Spec.
Context {L : Type} `{HLaws : IntrFwdListLaws L}.

(** ** One place per thread *)

Definition queued_in (w : World L) (q : QueueRef) (t : Z) : Prop := exists x, queue_of w q = Some x /\ t ∈ elements (threads x).
Definition runs_on (w : World L) (c t : Z) : Prop := t <> 0 /\ exists e, core_of w c = Some (e, t).
Definition pending_on (w : World L) (e t : Z) : Prop := t <> 0 /\ exists v, engine_of w e = Some v /\ ev_pending v = t.

Record one_place (w : World L) : Prop := mkOnePlace {
  op_queues : forall q q' t, queued_in w q t -> queued_in w q' t -> q = q';
  op_once : forall q x, queue_of w q = Some x -> NoDup (elements (threads x)) /\ depth x = Z.of_nat (length (elements (threads x)));
  op_not_running : forall q t, queued_in w q t -> (forall c, ~ runs_on w c t) /\ (forall e, ~ pending_on w e t);
  op_one_core : forall c c' t, runs_on w c t -> runs_on w c' t -> c = c';
  op_own_core : forall c e e' t, runs_on w c t -> pending_on w e t -> core_of w c = Some (e', t) -> e = e'
}.

Lemma queued_state w q t : sched_inv None w -> queued_in w q t -> exists th, thr w !! t = Some th /\ state th = Queued /\ engineOrQueue th = OnQueue q.
Proof. intros Hi (x & Hx & Hin). destruct (si_queue _ _ Hi q x Hx) as (_ & _ & _ & Hall). auto. Qed.

Lemma sched_one_place w : sched_ok w -> one_place w.
Proof.
  intros [Hi _]. constructor.
  - intros q q' t Hq Hq'. destruct (queued_state w q t Hi Hq) as (th & Ht & _ & E), (queued_state w q' t Hi Hq') as (th' & Ht' & _ & E'). congruence.
  - intros q x Hx. destruct (si_queue _ _ Hi q x Hx) as (Hn & _ & Hd & _). auto.
  - intros q t Hq. destruct (queued_state w q t Hi Hq) as (th & Ht & Hst & _). destruct (queued_elsewhere None w t th Hi Ht Hst) as [Hno Hcur]. split.
    + intros c [H0 [e He]]. discriminate (Hcur c e He H0).
    + intros e [H0 (v & Hv & Ep)]. apply (proj2 (Hno e v Hv)); congruence.
  - intros c c' t [H0 [e He]] [_ [e' He']]. apply (si_alone _ _ Hi c c' e e' t); auto.
  - intros c e e' t [H0 _] [_ (v & Hv & Ep)] Hc. destruct (si_core _ _ Hi c e' t Hc) as (v' & Hv' & Hid).
    destruct (si_current _ _ Hi c e' t Hc ltac:(discriminate) H0) as (th & Ht & Hst). destruct (si_pending _ _ Hi e v Hv ltac:(congruence)) as (ph & Hph & Hs & Heq).
    rewrite Ep, Ht in Hph. injection Hph as <-. destruct Hst as [? | [? | [_ Heq']]]; [congruence .. |]. apply (si_ids _ _ Hi e e' v v' Hv Hv'). congruence.
Qed.

(** ** Histories *)

Variable PollTicksToNanos : Z -> Z.
Variable InterruptTimerMaxNanos : Z.
Variable timekeepingEvent : Z.
Variable other_dpc : Z -> Z -> Z -> M L unit.

(** The calls of the kernel, on any core, one after the other. A thread is queued only once the
    core that ran it has switched away, and a core takes out only threads that are queued or its
    own; time passes. *)
Inductive sched_step (w : World L) : World L -> Prop :=
| step_enqueue t w' : not_current w t -> EnqueueThread t w = Ok (tt, w') -> sched_step w w'
| step_dequeue fuel c t w' : may_dequeue w c t -> DequeueThread PollTicksToNanos InterruptTimerMaxNanos timekeepingEvent other_dpc fuel c t w = Ok (tt, w') -> sched_step w w'
| step_raise c l p w' : RaiseRunLevel c l w = Ok (p, w') -> sched_step w w'
| step_lower fuel c l w' : LowerRunLevel PollTicksToNanos InterruptTimerMaxNanos timekeepingEvent other_dpc fuel c l w = Ok (tt, w') -> sched_step w w'
| step_dpc fuel c d w' : QueueDpc PollTicksToNanos InterruptTimerMaxNanos timekeepingEvent other_dpc fuel c d w = Ok (tt, w') -> sched_step w w'
| step_apc fuel c d w' : QueueApc PollTicksToNanos InterruptTimerMaxNanos timekeepingEvent other_dpc fuel c d w = Ok (tt, w') -> sched_step w w'
| step_yield fuel c w' : Yield PollTicksToNanos InterruptTimerMaxNanos timekeepingEvent other_dpc fuel c w = Ok (tt, w') -> sched_step w w'
| step_clock fuel c w' : ClockInterrupt PollTicksToNanos InterruptTimerMaxNanos timekeepingEvent other_dpc fuel c w = Ok (tt, w') -> sched_step w w'
| step_start t w' : not_idle w t -> not_current w t -> Start (mret tt) t w = Ok (tt, w') -> sched_step w w'
| step_time t : sched_step w (mkWorld (cores w) (engs w) (engines w) (clusters w) (thr w) (dpcData w) (clock w) t (ran w)).

Hypothesis other_keeps : forall f a c, keeps (other_dpc f a c).

Lemma start_ok t (w w' : World L) : sched_ok w -> not_idle w t -> not_current w t -> Start (mret tt) t w = Ok (tt, w') -> sched_ok w'.
Proof.
  intros [Hi Hs] Hidle Hcur E. unfold Start in E. rewrite bind_eq, get_thread_eq in E. destruct (thr w !! t) as [th |] eqn:Et; [| discriminate].
  destruct (bool_decide (state th = Setup)) eqn:Es; cbn [negb] in E; [apply bool_decide_eq_true in Es | injection E as <-; split; assumption].
  rewrite bind_eq, put_thread_eq, bind_eq, ret_eq in E. eapply enqueue_ok; [| | exact E]; [| exact Hcur].
  split; [| eapply few_threads_insert; [exact Et | reflexivity | exact Hs]].
  apply (inv_set_thread None w t th); auto; try (simpl; congruence).
  - intros e v Hv Ei. destruct (Hidle e v Hv Ei).
  - intros e v Hv Hp Ep. exfalso. destruct (si_pending _ _ Hi e v Hv Hp) as (ph & Hph & Hst & _). rewrite Ep, Et in Hph. injection Hph as <-. congruence.
Qed.

Lemma step_ok w w' : sched_ok w -> sched_step w w' -> sched_ok w'.
Proof.
  intros Hok [t w1 Hc E | fuel c t w1 Hm E | c l p w1 E | fuel c l w1 E | fuel c d w1 E | fuel c d w1 E | fuel c w1 E | fuel c w1 E | t w1 Hi Hc E | t].
  - eapply enqueue_ok; eauto.
  - eapply dequeue_ok; eauto.
  - eapply keeps_raise; eauto.
  - eapply keeps_lower; eauto.
  - eapply keeps_queue_dpc; eauto.
  - eapply keeps_queue_apc; eauto.
  - eapply keeps_yield; eauto.
  - eapply keeps_clock_interrupt; eauto.
  - eapply start_ok; eauto.
  - eapply (keeps_frame (fun w => mkWorld (cores w) (engs w) (engines w) (clusters w) (thr w) (dpcData w) (clock w) t (ran w))); [auto | exact Hok | reflexivity].
Qed.

Lemma steps_ok w w' : sched_ok w -> rtc sched_step w w' -> sched_ok w'.
Proof. intros Hok Hr. induction Hr as [| w w1 w2 Hs _ IH]; [assumption |]. apply IH. eapply step_ok; eauto. Qed.

(** ** The choice *)

(** The thread an engine runs next, after its tickets were counted again. *)
Definition choose (en : Engine L) (shared : list Z) : Z :=
  match (if 0 <? localTickets en then elements (threads (localQueue en)) else []), shared with
  | t :: _, _ => t
  | [], t :: _ => t
  | [], [] => idleThread en
  end.

Lemma picked_none_inv w e en next w1 : sched_inv None w -> picked w e en next w1 -> next = 0 ->
  exists x, queue_of w (SharedQueue (e_cluster en)) = Some x /\ elements (threads x) = [] /\ (localTickets en <= 0 \/ elements (threads (localQueue en)) = []).
Proof using HLaws.
  intros Hi [x Hx El Hc | q x t l en1 en2 Hx El He1 Hq] E0; [eauto |]. exfalso.
  destruct (si_queue _ _ Hi q x Hx) as (_ & Hz & _). rewrite El, E0 in Hz. apply Hz. left.
Qed.

Lemma rescheduled_choice e w0 en0 next w' x : sched_inv None w0 -> engs w0 !! e = Some en0 -> queue_of w0 (SharedQueue (e_cluster en0)) = Some x ->
  rescheduled e w0 en0 next w' ->
  next = choose en0 (elements (threads x)) /\ next <> 0 /\
  engine_of w' e = Some (mkEView (e_id en0) (e_cluster en0) (idleThread en0) next).
Proof using HLaws.
  intros Hi He Hx Hr. assert (Hv : engine_of w0 e = Some (eview en0)) by (unfold engine_of; rewrite He; reflexivity).
  assert (Hl : queue_of w0 (LocalQueue e) = Some (localQueue en0)) by (simpl; rewrite He; reflexivity).
  destruct Hr as [th Hp Hth | t w1 en2 th Hp Hn He2 Hth].
  - destruct (picked_none_inv _ _ _ _ _ Hi Hp eq_refl) as (y & Hy & El & Hc). rewrite Hx in Hy. injection Hy as <-. unfold choose. rewrite El.
    assert (E : (if 0 <? localTickets en0 then elements (threads (localQueue en0)) else []) = []) by (destruct (Z.ltb_spec 0 (localTickets en0)), Hc; auto; lia).
    rewrite E. split; [reflexivity |]. split; [apply (si_idle _ _ Hi e _ Hv) |]. destruct (pending_world_clock e (idleThread en0) en0 th w0) as [s ->].
    unfold engine_of. simpl. rewrite lookup_insert_eq. reflexivity.
  - inversion Hp as [y Hy El Hc | q y t' l en1 en2' Hy El He1 Hq]; subst; [congruence |].
    simpl in He2. rewrite lookup_insert_eq in He2. injection He2 as ->.
    assert (Hview : eview en2 = eview en0).
    { pose proof (engine_of_set_queue q (mkWorkQueue (u64 (depth y - 1)) (snd (PopFront (threads y)))) w0 e) as E. unfold engine_of in E. rewrite He1, He in E.
      injection E as E. destruct Hq as [(_ & _ & ->) | (_ & _ & ->)]; unfold eview in *; simpl in *; congruence. }
    split; [| split; [assumption |]].
    + unfold choose. destruct Hq as [(-> & Hp0 & _) | (-> & Hc & _)].
      * rewrite Hl in Hy. injection Hy as <-. rewrite (proj2 (Z.ltb_lt _ _) Hp0), El. reflexivity.
      * rewrite Hx in Hy. injection Hy as <-. rewrite El.
        assert (E : (if 0 <? localTickets en0 then elements (threads (localQueue en0)) else []) = []) by (destruct (Z.ltb_spec 0 (localTickets en0)), Hc; auto; lia).
        rewrite E. reflexivity.
    + match goal with |- engine_of (pending_world _ _ _ _ ?w1) _ = _ => destruct (pending_world_clock e t en2 th w1) as [s ->] end.
      unfold engine_of. simpl. rewrite lookup_insert_eq. unfold eview in *. simpl in *. congruence.
Qed.

(** ** Waiting for a turn *)

(** The local tickets an engine has left once they are counted again when necessary. *)
Definition local_share (w : World L) (e : Z) : Z :=
  match engs w !! e with
  | Some en => match clusters w !! e_cluster en with Some cl => localTickets (recounted en cl) | None => 0 end
  | None => 0
  end.

(** What the rest of the system may do between two turns of an engine: it leaves the tickets of the
    engine alone and only adds to the shared queue. *)
Record between_turns (e : Z) (w w' : World L) : Prop := mkBetween {
  bt_ok : sched_ok w -> sched_ok w';
  bt_engine : forall en, engs w !! e = Some en -> exists en', engs w' !! e = Some en' /\
    localTickets en' = localTickets en /\ sharedTickets en' = sharedTickets en /\ e_cluster en' = e_cluster en;
  bt_shared : forall k x, queue_of w (SharedQueue k) = Some x -> exists x' more, queue_of w' (SharedQueue k) = Some x' /\ elements (threads x') = elements (threads x) ++ more
}.

(** [n] turns of the engine of core [c], none of which chose [t]. *)
Inductive passed_over (c e t : Z) : nat -> World L -> Prop :=
| passed_none w : passed_over c e t 0 w
| passed_turn n w w1 w2 v : Reschedule PollTicksToNanos InterruptTimerMaxNanos c w = Ok (tt, w1) -> core_of w c = Some (e, v) ->
    (forall v1, engine_of w1 e = Some v1 -> ev_pending v1 <> t) -> between_turns e w1 w2 ->
    passed_over c e t n w2 -> passed_over c e t (S n) w.

Definition tickets_ok (en : Engine L) : Prop := 0 <= localTickets en < two64 /\ 0 <= sharedTickets en < two64.

(** A turn that leaves the head of the shared queue alone costs a local ticket. *)
Lemma turn_costs c e t w w1 v en cl l : sched_ok w -> core_of w c = Some (e, v) -> engs w !! e = Some en -> clusters w !! e_cluster en = Some cl ->
  elements (threads (sharedQueue cl)) = t :: l -> tickets_ok en ->
  Reschedule PollTicksToNanos InterruptTimerMaxNanos c w = Ok (tt, w1) -> (forall v1, engine_of w1 e = Some v1 -> ev_pending v1 <> t) ->
  0 < localTickets (recounted en cl) /\ exists en1, engs w1 !! e = Some en1 /\ tickets_ok en1 /\ localTickets en1 = localTickets (recounted en cl) - 1 /\
    0 < sharedTickets en1 /\ e_cluster en1 = e_cluster en /\ clusters w1 = clusters w.
Proof using HLaws.
  intros Hok Hc He Hcl Hl [Hlt Hst] E Hne. pose proof Hok as [Hi Hf].
  unfold core_of in Hc. destruct (cores w !! c) as [k |] eqn:Ek; [| discriminate]. injection Hc as <- <-.
  assert (Hd : exists s', DequeueClockEvent PollTicksToNanos InterruptTimerMaxNanos c (ticks w) (rescheduleClockEvent en) (clock w) = Ok s').
  { unfold Reschedule, LocalEngine, on_clock in E. rewrite bind_eq, bind_eq, get_core_eq, Ek in E. cbv beta iota in E. rewrite ret_eq in E. cbv beta iota in E.
    rewrite bind_eq, get_engine_eq, He in E. cbv beta iota in E. rewrite bind_eq, bind_eq, gets_eq, bind_eq, gets_eq, bind_eq, lift_eq in E. cbv beta iota in E.
    destruct (DequeueClockEvent _ _ _ _ _ _); [eauto | discriminate ..]. }
  destruct Hd as [s' Hs]. destruct (reschedule_spec PollTicksToNanos InterruptTimerMaxNanos c k en cl s' w Hi Ek He Hcl Hs) as (next & w' & E' & Hr).
  rewrite E in E'. injection E' as <-. set (w0 := before_pick _ _ _ _ _) in *. set (en0 := recounted en cl) in *.
  assert (Hi0 : sched_inv None w0) by (apply before_pick_inv; assumption). assert (He0 : engs w0 !! localEngine k = Some en0) by apply lookup_insert_eq.
  destruct (recounted_same en cl) as (Hview & _). fold en0 in Hview. injection Hview as Hid0 Hcl0 Hidle0 Hp0.
  assert (Hx : queue_of w0 (SharedQueue (e_cluster en0)) = Some (sharedQueue cl)) by (simpl; rewrite Hcl0, Hcl; reflexivity).
  destruct (rescheduled_choice (localEngine k) w0 en0 next w1 _ Hi0 He0 Hx Hr) as (Hch & Hn0 & Hv1). specialize (Hne _ Hv1). simpl in Hne. rewrite Hl in Hch.
  assert (Hst0 : 0 < sharedTickets en0 < two64 /\ 0 <= localTickets en0 < two64).
  { destruct (si_queue _ _ Hi0 _ _ Hx) as (_ & _ & Hdp & _). pose proof (queue_length None w0 _ _ Hi0 Hf Hx) as Hlen. rewrite Hl in Hdp, Hlen. simpl in Hdp, Hlen.
    unfold en0, recounted. destruct (Z.eqb_spec (sharedTickets en) 0) as [E0 | E0]; simpl; [split; [unfold two64 in *; lia | apply u64_range] | lia]. }
  destruct Hr as [th Hp Hth | s w2 en2 th Hp _ He2 Hth].
  - exfalso. destruct (picked_none_inv _ _ _ _ _ Hi0 Hp eq_refl) as (y & Hy & El & _). rewrite Hx in Hy. injection Hy as <-. congruence.
  - inversion Hp as [y Hy El Hc | q y s1 l' en1 en2' Hy El He1 Hq Hs1 Hw2]; [congruence |]. subst s1.
    destruct Hq as [(-> & Hlp & Een) | (-> & _ & _)].
    2:{ exfalso. rewrite Hx in Hy. injection Hy as <-. rewrite Hl in El. congruence. }
    split; [assumption |]. match goal with |- exists en1, engs (pending_world _ _ ?a ?b ?w1) !! _ = _ /\ _ => destruct (pending_world_clock (localEngine k) s a b w1) as [s2 ->] end.
    rewrite <- Hw2 in He2. simpl in He2. rewrite lookup_insert_eq in He2. injection He2 as <-.
    cbn [set_queue] in He1. rewrite He0 in He1. cbn [engs set_engs] in He1. rewrite lookup_insert_eq in He1. injection He1 as <-.
    eexists. simpl. rewrite lookup_insert_eq. split; [reflexivity |]. rewrite Een. unfold tickets_ok, pay_local. cbn [set_flags set_pending set_tickets set_localQueue localTickets sharedTickets e_cluster].
    rewrite (u64_small (localTickets en0 - 1)) by lia. split; [lia |]. split; [reflexivity |]. split; [lia |]. split; [assumption |].
    rewrite lookup_insert_eq. reflexivity.
Qed.

Lemma waiting_bound c e t n w : passed_over c e t n w -> forall en cl l, sched_ok w -> engs w !! e = Some en ->
  clusters w !! e_cluster en = Some cl -> elements (threads (sharedQueue cl)) = t :: l -> tickets_ok en -> Z.of_nat n <= localTickets (recounted en cl).
Proof using HLaws.
  induction 1 as [w | n w w1 w2 v E Hc Hne [Hbok Hben Hbsh] Hrest IH]; intros en cl l Hok He Hcl Hl Htk.
  - simpl. destruct Htk as [Hlt _]. unfold recounted. destruct (_ =? _); simpl; [apply u64_range | lia].
  - destruct (turn_costs c e t w w1 v en cl l Hok Hc He Hcl Hl Htk E Hne) as (Hpos & en1 & He1 & Htk1 & Hlt1 & Hst1 & Hcl1 & Hcs1).
    destruct (Hben en1 He1) as (en2 & He2 & Hlt2 & Hst2 & Hcl2).
    assert (Hok1 : sched_ok w1) by (eapply keeps_reschedule; eauto).
    destruct (Hbsh (e_cluster en2) (sharedQueue cl)) as (x2 & more & Hx2 & El2); [simpl; rewrite Hcs1, Hcl2, Hcl1, Hcl; reflexivity |].
    simpl in Hx2. destruct (clusters w2 !! e_cluster en2) as [cl2 |] eqn:Ec2; [| discriminate]. injection Hx2 as <-. rewrite Hl in El2.
    assert (Htk2 : tickets_ok en2) by (unfold tickets_ok in *; rewrite Hlt2, Hst2; assumption).
    specialize (IH en2 cl2 _ (Hbok Hok1) He2 Ec2 El2 Htk2). unfold recounted at 1 in IH. rewrite (proj2 (Z.eqb_neq (sharedTickets en2) 0)) in IH by lia. lia.
Qed.
End Spec.
