(* ===== verification/SchedClaims.v ===== *)
(** The theorems about the scheduler, with a concrete machine for each. *)

From stdpp Require Import relations.
From S2P Require Import Prelude Maths Flags Queue QueueProofs IntrList Clock ClockProofs Tasking SchedProofs SchedOps SchedSafety SchedSpec.

(** ** A machine with one core: thread 20 runs, 30 waits in the shared queue, 40 in the local one *)

Definition demo_thread (st : ThreadState) (id aff : Z) (p : EngineOrQueue) : Thread := mkThread st id aff p.
Definition demo_engine (lt st : Z) : Engine (list Z) := mkEngine 0 0 (mkWorkQueue 1 [40]) lt st 0 10 0 0x500 0x600.
Definition demo_core (level : Z) : Core := mkCore level 0x700 (Mpsc.init 0x700) 0x710 (Mpsc.init 0x710) 1 20 true.
Definition demo_threads (b : bool) : gmap Z Thread := {[
  10 := demo_thread Setup 1 NoCoreAffinity (OnEngine 0);
  20 := demo_thread Running 2 NoCoreAffinity (OnEngine 0);
  30 := demo_thread (if b then Queued else Ready) 3 NoCoreAffinity (OnQueue (SharedQueue 0));
  40 := demo_thread Queued 4 0 (OnQueue (LocalQueue 1)) ]}.
Definition empty_clock : ClockState (list Z) := mkClock 0 ∅ [] 0 0 None [] false.
Definition demo_shared (l : list Z) : EngineCluster (list Z) := mkCluster (mkWorkQueue (Z.of_nat (length l)) l) 1 [0; NoCoreAffinity; NoCoreAffinity; NoCoreAffinity].
Definition sched_demo (b : bool) (level lt st : Z) : World (list Z) :=
  mkWorld {[0 := demo_core level]} {[1 := demo_engine lt st]} [1] [demo_shared (if b then [30] else [])] (demo_threads b) {[0x500 := DoRescheduleDpc]} empty_clock 0 [].
Definition demo_machine : Z -> Z -> Z -> World (list Z) := sched_demo true.

Lemma demo_threads_cases b t th : demo_threads b !! t = Some th ->
  (t = 10 /\ th = demo_thread Setup 1 NoCoreAffinity (OnEngine 0)) \/ (t = 20 /\ th = demo_thread Running 2 NoCoreAffinity (OnEngine 0)) \/
  (t = 30 /\ th = demo_thread (if b then Queued else Ready) 3 NoCoreAffinity (OnQueue (SharedQueue 0))) \/ (t = 40 /\ th = demo_thread Queued 4 0 (OnQueue (LocalQueue 1))).
Proof.
  unfold demo_threads. intros H. repeat (apply lookup_insert_Some in H as [[<- <-] | [_ H]]; [tauto |]).
  apply lookup_singleton_Some in H as [<- <-]. tauto.
Qed.

Lemma demo_engine_case b level lt st e v : engine_of (sched_demo b level lt st) e = Some v -> e = 1 /\ v = mkEView 0 0 10 0.
Proof. unfold engine_of, sched_demo. cbn [engs]. intros H. apply fmap_Some in H as (en & H & ->). apply lookup_singleton_Some in H as [<- <-]. auto. Qed.

Lemma demo_core_case b level lt st c e t : core_of (sched_demo b level lt st) c = Some (e, t) -> c = 0 /\ e = 1 /\ t = 20.
Proof. unfold core_of, sched_demo. cbn [cores]. intros H. apply fmap_Some in H as (k & H & E). apply lookup_singleton_Some in H as [<- <-]. injection E as -> ->. auto. Qed.

Lemma demo_queue_case b level lt st q x : queue_of (sched_demo b level lt st) q = Some x ->
  (q = SharedQueue 0 /\ x = sharedQueue (demo_shared (if b then [30] else []))) \/ (q = LocalQueue 1 /\ x = mkWorkQueue 1 [40]).
Proof.
  unfold sched_demo. destruct q as [[| k] | e]; simpl; intros H; [injection H as <-; auto | discriminate |].
  apply fmap_Some in H as (en & H & ->). apply lookup_singleton_Some in H as [<- <-]. auto.
Qed.

Lemma sched_demo_ok b level lt st : sched_ok (sched_demo b level lt st).
Proof.
  split; [| reflexivity]. constructor.
  - intros q x Hq. apply demo_queue_case in Hq as [[-> ->] | [-> ->]]; [destruct b |]; simpl; (split; [(apply NoDup_singleton || apply NoDup_nil_2) |]); (split; [set_solver |]); (split; [reflexivity |]);
      intros t Hin; (apply list_elem_of_singleton in Hin as -> || set_solver); eexists; (split; [reflexivity |]); auto.
  - intros t th Ht Hst. apply demo_threads_cases in Ht as [[-> ->] | [[-> ->] | [[-> ->] | [-> ->]]]]; try discriminate.
    + destruct b; [| discriminate]. exists (SharedQueue 0), (mkWorkQueue 1 [30]). split; [reflexivity |]. split; [reflexivity |]. simpl. set_solver.
    + exists (LocalQueue 1), (mkWorkQueue 1 [40]). split; [reflexivity |]. split; [reflexivity |]. simpl. set_solver.
  - intros e v Hv. apply demo_engine_case in Hv as [-> ->]. split; [discriminate |]. eexists. split; [reflexivity |]. auto.
  - intros e v Hv. apply demo_engine_case in Hv as [-> ->]. simpl. eauto.
  - intros e e' v v' Hv Hv' _. apply demo_engine_case in Hv as [-> _], Hv' as [-> _]. reflexivity.
  - intros e e' v v' Hv Hv' _. apply demo_engine_case in Hv as [-> _], Hv' as [-> _]. reflexivity.
  - intros t t' th th' Ht Ht' E. apply demo_threads_cases in Ht as [[-> ->] | [[-> ->] | [[-> ->] | [-> ->]]]], Ht' as [[-> ->] | [[-> ->] | [[-> ->] | [-> ->]]]]; try discriminate; reflexivity.
  - intros e v Hv Hp. apply demo_engine_case in Hv as [-> ->]. contradiction.
  - intros c e t Hc. apply demo_core_case in Hc as (-> & -> & ->). exists (mkEView 0 0 10 0). auto.
  - intros c e t Hc _ _. apply demo_core_case in Hc as (-> & -> & ->). eexists. split; [reflexivity |]. auto.
  - intros c c' e e' t Hc Hc' _ _ _. apply demo_core_case in Hc as (-> & _), Hc' as (-> & _). reflexivity.
  - intros c e t v Hc Hv _ _ Ep. apply demo_core_case in Hc as (-> & -> & ->). apply demo_engine_case in Hv as [_ ->]. discriminate.
Qed.

(** ** The theorems *)

Section Claims.
Context {L : Type} `{HLaws : IntrFwdListLaws L}.
Variables (PollTicksToNanos : Z -> Z) (InterruptTimerMaxNanos timekeepingEvent : Z) (other_dpc : Z -> Z -> Z -> M L unit).


(** C27: a turn of an engine returns and makes pending the oldest thread of the local queue while
    there are local tickets, else the oldest of the shared queue, and the idle thread only when
    neither has one; the scheduler's state stays consistent. *)
Theorem reschedule_chooses (w : World L) c k en cl s' :
  sched_ok w -> cores w !! c = Some k -> engs w !! localEngine k = Some en -> clusters w !! e_cluster en = Some cl ->
  DequeueClockEvent PollTicksToNanos InterruptTimerMaxNanos c (ticks w) (rescheduleClockEvent en) (clock w) = Ok s' ->
  exists w', Reschedule PollTicksToNanos InterruptTimerMaxNanos c w = Ok (tt, w') /\ sched_ok w' /\
    pending_on w' (localEngine k) (choose (recounted en cl) (elements (threads (sharedQueue cl)))).
Proof.
  intros [Hi Hf] Hk He Hcl Hs. destruct (reschedule_spec PollTicksToNanos InterruptTimerMaxNanos c k en cl s' w Hi Hk He Hcl Hs) as (next & w' & E & Hr).
  exists w'. split; [exact E |]. split; [eapply keeps_reschedule; [split; eassumption | exact E] |].
  destruct (recounted_same en cl) as (Hv & _). injection Hv as _ Hc0 _ _.
  assert (Hi0 : sched_inv None (before_pick (localEngine k) en cl s' w)) by (apply before_pick_inv; assumption).
  destruct (rescheduled_choice _ _ _ _ _ (sharedQueue cl) Hi0 (lookup_insert_eq _ _ _) ltac:(simpl; rewrite Hc0, Hcl; reflexivity) Hr) as (-> & Hn & Hv).
  split; [assumption |]. eexists. split; [exact Hv | reflexivity].
Qed.

(** C28: the oldest thread of a shared queue waits for a bounded number of turns of an engine of its
    cluster: it cannot be passed over more often than the engine has local tickets, whatever the
    rest of the system does in between. *)
Theorem shared_thread_waits_bounded (w : World L) c e t n en cl l :
  sched_ok w -> engs w !! e = Some en -> clusters w !! e_cluster en = Some cl -> elements (threads (sharedQueue cl)) = t :: l -> tickets_ok en ->
  passed_over PollTicksToNanos InterruptTimerMaxNanos c e t n w -> Z.of_nat n <= localTickets (recounted en cl).
Proof. intros Hok He Hcl Hl Ht Hp. eapply waiting_bound; eauto. Qed.

(** C29: with shared tickets left and the shared queue empty, an engine without local tickets does not
    run the threads of its local queue: a turn chooses the idle thread and changes nothing about
    that, since the tickets are counted again only when the shared ones are used up. *)
Theorem local_threads_starve (w : World L) c k en cl s' :
  sched_ok w -> cores w !! c = Some k -> engs w !! localEngine k = Some en -> clusters w !! e_cluster en = Some cl ->
  DequeueClockEvent PollTicksToNanos InterruptTimerMaxNanos c (ticks w) (rescheduleClockEvent en) (clock w) = Ok s' ->
  localTickets en = 0 -> sharedTickets en <> 0 -> elements (threads (sharedQueue cl)) = [] ->
  exists w', Reschedule PollTicksToNanos InterruptTimerMaxNanos c w = Ok (tt, w') /\ pending_on w' (localEngine k) (idleThread en) /\ clusters w' = clusters w /\
    exists en', engs w' !! localEngine k = Some en' /\ localTickets en' = 0 /\ sharedTickets en' = sharedTickets en /\ localQueue en' = localQueue en.
Proof.
  intros [Hi Hf] Hk He Hcl Hs Hlt Hst Hl. destruct (reschedule_spec PollTicksToNanos InterruptTimerMaxNanos c k en cl s' w Hi Hk He Hcl Hs) as (next & w' & E & Hr).
  assert (Er : recounted en cl = en) by (unfold recounted; rewrite (proj2 (Z.eqb_neq _ _) Hst); reflexivity).
  assert (Hi0 : sched_inv None (before_pick (localEngine k) en cl s' w)) by (apply before_pick_inv; assumption).
  destruct (rescheduled_choice _ _ _ _ _ (sharedQueue cl) Hi0 (lookup_insert_eq _ _ _) ltac:(rewrite Er; simpl; rewrite Hcl; reflexivity) Hr) as (Hn & Hn0 & Hv).
  unfold choose in Hn. rewrite Hl, Er, Hlt in Hn. simpl in Hn. subst next. exists w'. split; [exact E |]. rewrite Er in *.
  split; [split; [assumption |]; eexists; split; [exact Hv | reflexivity] |].
  inversion Hr as [th Hp Hth E1 E2 | t w1 en2 th Hp Hn He2 Hth E1 E2].
  - destruct (pending_world_clock (localEngine k) (idleThread en) en th (before_pick (localEngine k) en cl s' w)) as [s2 ->].
    split; [reflexivity |]. eexists. simpl. rewrite lookup_insert_eq. split; [reflexivity |]. simpl. auto.
  - exfalso. subst t. destruct (picked_thread _ _ _ _ _ Hi0 Hn0 Hp) as (th' & Hth' & Hst').
    assert (Hve : engine_of (before_pick (localEngine k) en cl s' w) (localEngine k) = Some (eview en)) by (unfold engine_of; simpl; rewrite lookup_insert_eq, Er; reflexivity).
    destruct (si_idle _ _ Hi0 _ _ Hve) as (_ & ih & Hih & Hs2). simpl in Hih. change (thr w !! idleThread en = Some th') in Hth'. rewrite Hih in Hth'. injection Hth' as ->.
    destruct Hs2 as [? | [? _]]; congruence.
Qed.
End Claims.

(** ** The theorems at work *)

Definition after {A} (w : World (list Z)) (r : res (A * World (list Z))) : World (list Z) := match r with Ok (_, w') => w' | _ => w end.




(** At the level of deferred calls the turn itself is left to be looked at. *)
Definition demo_turn (w : World (list Z)) : res (unit * World (list Z)) := Reschedule (fun t => t) 1000000 0 w.

Lemma reschedule_chooses_witness : exists w', demo_turn (demo_machine Dpc 0 0) = Ok (tt, w') /\ sched_ok w' /\ pending_on w' 1 40.
Proof.
  assert (Hc : choose (recounted (demo_engine 0 0) (demo_shared [30])) [30] = 40) by (vm_compute; reflexivity).
  destruct (reschedule_chooses (fun t => t) 1000000 (demo_machine Dpc 0 0) 0 (demo_core Dpc) (demo_engine 0 0) (demo_shared [30]) empty_clock) as (w' & E & Hok & Hp);
    [apply sched_demo_ok | reflexivity | reflexivity | reflexivity | vm_compute; reflexivity |].
  exists w'. split; [exact E |]. split; [exact Hok |]. rewrite <- Hc. exact Hp.
Defined.

Lemma between_turns_refl e (w : World (list Z)) : between_turns e w w.
Proof. constructor; [auto | eauto 10 |]. intros k x Hx. exists x, []. rewrite app_nil_r. auto. Qed.

Lemma shared_thread_waits_bounded_witness : Z.of_nat 1 <= localTickets (recounted (demo_engine 0 0) (demo_shared [30])).
Proof.
  apply (shared_thread_waits_bounded (fun t => t) 1000000 (demo_machine Dpc 0 0) 0 1 30 1 _ _ []); [apply sched_demo_ok | reflexivity | reflexivity | reflexivity | vm_compute; intuition congruence |].
  apply (passed_turn _ _ 0 1 30 0 _ (after (demo_machine Dpc 0 0) (demo_turn (demo_machine Dpc 0 0))) (after (demo_machine Dpc 0 0) (demo_turn (demo_machine Dpc 0 0))) 20).
  - vm_compute. reflexivity.
  - reflexivity.
  - vm_compute. intros v1 [= <-]. discriminate.
  - apply between_turns_refl.
  - constructor.
Defined.

(** Thread 30 waits for something else while a shared ticket is left. *)
Definition demo_starved : World (list Z) := sched_demo false Dpc 0 1.

Lemma local_threads_starve_witness : exists w', demo_turn demo_starved = Ok (tt, w') /\ pending_on w' 1 10 /\ clusters w' = clusters demo_starved /\
  exists en', engs w' !! 1 = Some en' /\ localTickets en' = 0 /\ sharedTickets en' = 1 /\ localQueue en' = mkWorkQueue 1 [40].
Proof.
  apply (local_threads_starve (fun t => t) 1000000 demo_starved 0 (demo_core Dpc) (demo_engine 0 1) (demo_shared []) empty_clock);
    [apply sched_demo_ok | vm_compute; reflexivity .. | discriminate | reflexivity].
Defined.
