(* ===== verification/Locks.v ===== *)
(** The locks of the system library ([Locks.h]). Each lock is the words it keeps and, for every
    thread, the place in the code it is at; a step is one atomic access. *)

From S2P Require Import Prelude.

(** ** Threads *)

(** The threads are numbered, each at a place of the code; how many are at a place of some kind. *)
Fixpoint counted {P} (f : P -> bool) (l : list P) : Z :=
  match l with [] => 0 | p :: l => (if f p then 1 else 0) + counted f l end.

(** ** Spin lock *)

Module Spin.
Inductive place : Type := Outside | TestAndSet | Load | Holding.
Record world : Type := mkWorld { lock : bool; at_ : list place }.

(** One access of a thread. A thread outside calls [Lock], a holder calls [Unlock]. *)
Definition access (lock : bool) (p : place) : bool * place :=
  match p with
  | Outside => (lock, TestAndSet)
  | TestAndSet => (true, if lock then Load else Holding)
  | Load => (lock, if lock then Load else TestAndSet)
  | Holding => (false, Outside)
  end.

(** [TryLock] of a thread outside. *)
Definition TryLock (lock : bool) : bool * place := (true, if lock then Outside else Holding).

Inductive step (w : world) : world -> Prop :=
| step_access t p : at_ w !! t = Some p -> step w (mkWorld (fst (access (lock w) p)) (<[t := snd (access (lock w) p)]> (at_ w)))
| step_try t : at_ w !! t = Some Outside -> step w (mkWorld (fst (TryLock (lock w))) (<[t := snd (TryLock (lock w))]> (at_ w))).

Definition holds (p : place) : bool := match p with Holding => true | _ => false end.
Definition start (n : nat) : world := mkWorld false (replicate n Outside).
End Spin.

(** ** Ticket lock *)

Module Ticket.
Record lock : Type := mkLock { serving : Z; next : Z }.
Definition init : lock := mkLock 0 0.

(** The ticket, and the lock after it is drawn. *)
Definition draw (l : lock) : Z * lock := (next l, mkLock (serving l) (u32 (next l + 1))).
Definition served (l : lock) (ticket : Z) : bool := serving l =? ticket.
Definition Unlock (l : lock) : lock := mkLock (u32 (serving l + 1)) (next l).
End Ticket.

(** ** Reader-writer lock *)

Module Rw.
Record lock : Type := mkLock { writers : Z; readers : Z; inner : Ticket.lock }.
Definition init : lock := mkLock 0 0 Ticket.init.

(** Where a thread is, named by the access it does next; tickets are the local of [TicketLock::Lock]. *)
Inductive place : Type :=
| Outside
| CheckWriters                   (** [ReaderLock]: [while (writers != 0)] *)
| ReaderDraw                     (** takes a ticket *)
| ReaderSpin (ticket : Z)        (** waits to be served *)
| AddReader
| ReaderPass                     (** unlocks the inner lock *)
| Reading
| AddWriter                      (** [WriterLock] *)
| WriterDraw
| WriterSpin (ticket : Z)
| CheckReaders                   (** [while (readers != 0)] *)
| Writing
| WriterPass.                    (** [WriterUnlock], the count already taken back *)

Definition set_inner (i : Ticket.lock) (l : lock) : lock := mkLock (writers l) (readers l) i.
Definition set_readers (n : Z) (l : lock) : lock := mkLock (writers l) (u32 n) (inner l).
Definition set_writers (n : Z) (l : lock) : lock := mkLock (u32 n) (readers l) (inner l).

(** One access of a thread inside a call, or the call of [ReaderUnlock] or [WriterUnlock]. *)
Definition access (l : lock) (p : place) : lock * place :=
  match p with
  | Outside => (l, Outside)
  | CheckWriters => (l, if writers l =? 0 then ReaderDraw else CheckWriters)
  | ReaderDraw => let '(t, i) := Ticket.draw (inner l) in (set_inner i l, ReaderSpin t)
  | ReaderSpin t => (l, if Ticket.served (inner l) t then AddReader else ReaderSpin t)
  | AddReader => (set_readers (readers l + 1) l, ReaderPass)
  | ReaderPass => (set_inner (Ticket.Unlock (inner l)) l, Reading)
  | Reading => (set_readers (readers l - 1) l, Outside)
  | AddWriter => (set_writers (writers l + 1) l, WriterDraw)
  | WriterDraw => let '(t, i) := Ticket.draw (inner l) in (set_inner i l, WriterSpin t)
  | WriterSpin t => (l, if Ticket.served (inner l) t then CheckReaders else WriterSpin t)
  | CheckReaders => (l, if readers l =? 0 then Writing else CheckReaders)
  | Writing => (set_writers (writers l - 1) l, WriterPass)
  | WriterPass => (set_inner (Ticket.Unlock (inner l)) l, Outside)
  end.

Record world : Type := mkWorld { state : lock; at_ : list place }.
Definition start (n : nat) : world := mkWorld init (replicate n Outside).
Definition run (w : world) (t : nat) (p : place) : world := mkWorld (fst (access (state w) p)) (<[t := snd (access (state w) p)]> (at_ w)).

Inductive step (w : world) : world -> Prop :=
| step_read t : at_ w !! t = Some Outside -> step w (mkWorld (state w) (<[t := CheckWriters]> (at_ w)))
| step_write t : at_ w !! t = Some Outside -> step w (mkWorld (state w) (<[t := AddWriter]> (at_ w)))
| step_access t p : at_ w !! t = Some p -> step w (run w t p).
End Rw.

(** ** Locks that raise the run level *)

Module Level.
(** The lock keeps the level its holder came from in a member of its own. *)
Record lock : Type := mkLock { prevLevel : option Z; held : bool }.
Inductive place : Type := Outside | Raised | Holding | Cleared.
Record core : Type := mkCore { runLevel : Z; where_ : place }.
Record world : Type := mkWorld { state : lock; cores : list core }.

(** [CriticalLevel] and the accesses of one core: raise the level and store the one before, take
    the lock, give it back, lower the level. *)
Definition access (CriticalLevel : Z) (l : lock) (c : core) : res (lock * core) :=
  match where_ c with
  | Outside => _ ← assert_ (runLevel c <? CriticalLevel); Ok (mkLock (Some (runLevel c)) (held l), mkCore CriticalLevel Raised)
  | Raised => if held l then Ok (l, c) else Ok (mkLock (prevLevel l) true, mkCore (runLevel c) Holding)
  | Holding => Ok (mkLock (prevLevel l) false, mkCore (runLevel c) Cleared)
  | Cleared =>
      match prevLevel l with
      | Some p => _ ← assert_ (p <? runLevel c); Ok (mkLock None (held l), mkCore p Outside)
      | None => Ok (mkLock None (held l), mkCore (runLevel c) Outside)
      end
  end.

Definition run (CriticalLevel : Z) (t : nat) (w : world) : res world :=
  c ← deref (cores w !! t);
  '(l, c) ← access CriticalLevel (state w) c;
  Ok (mkWorld l (<[t := c]> (cores w))).

Fixpoint runs (CriticalLevel : Z) (ts : list nat) (w : world) : res world :=
  match ts with [] => Ok w | t :: ts => w ← run CriticalLevel t w; runs CriticalLevel ts w end.
End Level.
