(* ===== verification/LocksProofs.v ===== *)
(** Exclusion and progress of the locks. *)

From stdpp Require Import relations.
From S2P Require Import Prelude Locks.

(** ** Counting *)

Section Counting.
Context {P : Type}.
Implicit Types (f : P -> bool) (l : list P).

Lemma counted_insert f l t p q : l !! t = Some p ->
  counted f (<[t := q]> l) = counted f l - (if f p then 1 else 0) + (if f q then 1 else 0).
Proof.
  revert t. induction l as [| x l IH]; intros [| t] H; simpl in H; try discriminate.
  - injection H as ->. simpl. lia.
  - specialize (IH t H). simpl. lia.
Qed.

Lemma counted_le f l : 0 <= counted f l <= Z.of_nat (length l).
Proof. induction l as [| x l IH]; simpl; [lia |]. destruct (f x); lia. Qed.

Lemma counted_pos f l t p : l !! t = Some p -> f p = true -> 0 < counted f l.
Proof.
  revert t. induction l as [| x l IH]; intros [| t] H Hf; simpl in *; try discriminate; pose proof (counted_le f l).
  - injection H as ->. rewrite Hf. lia.
  - specialize (IH t H Hf). destruct (f x); lia.
Qed.

Lemma counted_zero f l t p : l !! t = Some p -> counted f l = 0 -> f p = false.
Proof. intros H E. destruct (f p) eqn:Ef; [| reflexivity]. pose proof (counted_pos f l t p H Ef). lia. Qed.

Lemma counted_some f l : 0 < counted f l -> exists t p, l !! t = Some p /\ f p = true.
Proof.
  induction l as [| x l IH]; simpl; intros H; [lia |]. destruct (f x) eqn:Ef; [exists 0%nat, x; auto |].
  destruct IH as (t & p & Ht & Hp); [lia |]. exists (S t), p. auto.
Qed.

Lemma counted_replicate f n p : f p = false -> counted f (replicate n p) = 0.
Proof. intros Hf. induction n as [| n IH]; simpl; [reflexivity |]. rewrite Hf. lia. Qed.
End Counting.

(** ** Spin lock *)

Section Spin.
Import Spin.

(** The word says whether some thread holds the lock, and at most one does. *)
Definition spin_ok (w : world) : Prop := counted holds (at_ w) = if lock w then 1 else 0.

Lemma spin_step_ok w w' : spin_ok w -> step w w' -> spin_ok w'.
Proof.
  unfold spin_ok. intros Hok [t p Ht | t Ht]; simpl; rewrite (counted_insert holds _ _ _ _ Ht).
  - pose proof (counted_pos holds _ _ _ Ht). destruct p, (lock w); simpl in *; lia.
  - destruct (lock w); simpl in *; lia.
Qed.

Lemma spin_reachable n w : rtc step (start n) w -> spin_ok w.
Proof.
  intros Hr. assert (H0 : spin_ok (start n)) by (apply counted_replicate; reflexivity). revert H0.
  induction Hr as [| x y z Hs _ IH]; intros H0; [assumption |]. eauto using spin_step_ok.
Qed.
End Spin.

(** ** Reader-writer lock *)

Section Rw.
Import Rw.

Definition ticket_of (p : place) : option Z := match p with ReaderSpin t | WriterSpin t => Some t | _ => None end.
(** The thread is served. *)
Definition inside (p : place) : bool := match p with AddReader | ReaderPass | CheckReaders | Writing | WriterPass => true | _ => false end.
Definition drawn (p : place) : bool := inside p || bool_decide (is_Some (ticket_of p)).
Definition reader (p : place) : bool := match p with ReaderPass | Reading => true | _ => false end.
Definition writer (p : place) : bool := match p with WriterDraw | WriterSpin _ | CheckReaders | Writing => true | _ => false end.
(** No reader may be counted while the thread is here. *)
Definition alone (p : place) : bool := match p with Writing | WriterPass => true | _ => false end.

(** [q] is the line of the threads that have drawn a ticket, the one being served first. *)
Record rw_ok (w : world) (q : list nat) : Prop := mkRwOk {
  rw_serving : 0 <= Ticket.serving (inner (state w)) < two32;
  rw_next : Ticket.next (inner (state w)) = u32 (Ticket.serving (inner (state w)) + Z.of_nat (length q));
  rw_line : NoDup q;
  rw_drawn : forall t, t ∈ q <-> exists p, at_ w !! t = Some p /\ drawn p = true;
  rw_ticket : forall i t p k, q !! i = Some t -> at_ w !! t = Some p -> ticket_of p = Some k -> k = u32 (Ticket.serving (inner (state w)) + Z.of_nat i);
  rw_head : forall t p, at_ w !! t = Some p -> inside p = true -> head q = Some t;
  rw_readers : readers (state w) = counted reader (at_ w);
  rw_writers : writers (state w) = counted writer (at_ w);
  rw_alone : forall t p, at_ w !! t = Some p -> alone p = true -> counted reader (at_ w) = 0
}.

Lemma rw_start n : rw_ok (start n) [].
Proof.
  constructor; simpl.
  - unfold two32. lia.
  - reflexivity.
  - constructor.
  - intros t. split; [intros []%not_elem_of_nil |]. intros (p & [-> _]%lookup_replicate & H). discriminate.
  - discriminate.
  - intros t p [-> _]%lookup_replicate H. discriminate.
  - symmetry. apply counted_replicate. reflexivity.
  - symmetry. apply counted_replicate. reflexivity.
  - intros t p [-> _]%lookup_replicate H. discriminate.
Qed.

Lemma line_short w q : rw_ok w q -> Z.of_nat (length q) <= Z.of_nat (length (at_ w)).
Proof.
  intros Hok. assert (Hs : q ⊆+ seq 0 (length (at_ w))).
  { apply NoDup_submseteq; [apply (rw_line _ _ Hok) |]. intros t Ht. apply (rw_drawn _ _ Hok) in Ht as (p & Hp & _). apply elem_of_seq. apply lookup_lt_Some in Hp. lia. }
  apply submseteq_length in Hs. rewrite length_seq in Hs. lia.
Qed.

(** A change of place that draws no ticket and leaves no line. *)
Lemma rw_move w q t p p' (l : lock) :
  rw_ok w q -> at_ w !! t = Some p -> drawn p' = drawn p -> inner l = inner (state w) ->
  (forall k, ticket_of p' = Some k -> ticket_of p = Some k) ->
  (inside p' = true -> head q = Some t) ->
  readers l = counted reader (<[t := p']> (at_ w)) -> writers l = counted writer (<[t := p']> (at_ w)) ->
  (alone p' = true -> counted reader (<[t := p']> (at_ w)) = 0) ->
  (reader p' = true -> reader p = true \/ inside p = true /\ alone p = false) ->
  rw_ok (mkWorld l (<[t := p']> (at_ w))) q.
Proof.
  intros [Hs Hn Hnd Hd Ht Hh Hr Hw Ha] Hp Ed Ei Hk Hi Er Ew Hal Hrd. constructor; cbn [state at_]; rewrite ?Ei; auto.
  - intros t'. rewrite Hd. destruct (decide (t' = t)) as [-> | Hne].
    + rewrite list_lookup_insert_eq by eauto using lookup_lt_Some. split; intros (x & Hx & Hdx); eexists; (split; [reflexivity || eassumption |]); congruence.
    + rewrite list_lookup_insert_ne by congruence. reflexivity.
  - intros i t' x k Hq Hx Hkx. destruct (decide (t' = t)) as [-> | Hne].
    + rewrite list_lookup_insert_eq in Hx by eauto using lookup_lt_Some. injection Hx as <-. eapply Ht; eauto.
    + rewrite list_lookup_insert_ne in Hx by congruence. eapply Ht; eauto.
  - intros t' x Hx Hin. destruct (decide (t' = t)) as [-> | Hne].
    + rewrite list_lookup_insert_eq in Hx by eauto using lookup_lt_Some. injection Hx as <-. auto.
    + rewrite list_lookup_insert_ne in Hx by congruence. eauto.
  - intros t' x Hx Hax. destruct (decide (t' = t)) as [-> | Hne].
    + rewrite list_lookup_insert_eq in Hx by eauto using lookup_lt_Some. injection Hx as <-. auto.
    + rewrite list_lookup_insert_ne in Hx by congruence. pose proof (Ha _ _ Hx Hax) as H0. rewrite (counted_insert reader _ _ _ _ Hp).
      pose proof (counted_zero reader _ _ _ Hp H0) as Hp0. rewrite Hp0, H0. destruct (reader p') eqn:Erp; [| lia]. exfalso.
      destruct (Hrd eq_refl) as [? | [Hin Hna]]; [congruence |]. pose proof (Hh _ _ Hp Hin). assert (Hin' : inside x = true) by (destruct x; simpl in *; congruence).
      pose proof (Hh _ _ Hx Hin'). congruence.
Qed.

Lemma counted_same f (l : list place) t p p' : l !! t = Some p -> f p' = f p -> counted f (<[t := p']> l) = counted f l.
Proof. intros Hp E. rewrite (counted_insert f _ _ _ _ Hp), E. lia. Qed.

Lemma drawn_inside p : inside p = true -> drawn p = true.
Proof. intros H. unfold drawn. rewrite H. reflexivity. Qed.
Lemma drawn_ticket p k : ticket_of p = Some k -> drawn p = true.
Proof. intros H. unfold drawn. rewrite H. simpl. apply orb_true_r. Qed.
Lemma alone_inside p : alone p = true -> inside p = true.
Proof. destruct p; simpl; congruence. Qed.

(** A ticket is drawn: the thread joins the line. *)
Lemma rw_draw w q t p p' :
  rw_ok w q -> Z.of_nat (length (at_ w)) < two32 -> at_ w !! t = Some p -> drawn p = false -> ticket_of p' = Some (Ticket.next (inner (state w))) -> inside p' = false ->
  reader p' = reader p -> writer p' = writer p ->
  rw_ok (mkWorld (set_inner (snd (Ticket.draw (inner (state w)))) (state w)) (<[t := p']> (at_ w))) (q ++ [t]).
Proof.
  intros Hok Hlen Hp Hnd Hk Hin Er Ew. pose proof (line_short w q Hok) as Hshort. destruct Hok as [Hs Hn Hl Hd Ht Hh Hr Hw Ha].
  assert (Hnq : t ∉ q) by (intros Hq; apply Hd in Hq as (x & Hx & Hdx); congruence).
  assert (Hal : alone p' = false) by (destruct (alone p') eqn:E; [apply alone_inside in E; congruence | reflexivity]).
  constructor; cbn [state at_ set_inner inner Ticket.draw snd Ticket.serving Ticket.next readers writers].
  - assumption.
  - rewrite Hn, length_app. simpl. width_lia.
  - apply NoDup_app. split; [assumption |]. split; [intros x Hx ->%list_elem_of_singleton; contradiction | apply NoDup_singleton].
  - intros t'. rewrite elem_of_app, list_elem_of_singleton, Hd. destruct (decide (t' = t)) as [-> | Hne].
    + rewrite list_lookup_insert_eq by eauto using lookup_lt_Some. split; [| auto]. intros _. eexists. split; [reflexivity | eauto using drawn_ticket].
    + rewrite list_lookup_insert_ne by congruence. intuition.
  - intros i t' x k Hq Hx Hkx. apply lookup_snoc_Some in Hq as [[Hi Hq] | [Hi ->]].
    + rewrite list_lookup_insert_ne in Hx by (intros ->; apply Hnq; eauto using list_elem_of_lookup_2). eapply Ht; eauto.
    + rewrite list_lookup_insert_eq in Hx by eauto using lookup_lt_Some. injection Hx as <-. congruence.
  - intros t' x Hx Hix. destruct (decide (t' = t)) as [-> | Hne].
    + rewrite list_lookup_insert_eq in Hx by eauto using lookup_lt_Some. injection Hx as <-. congruence.
    + rewrite list_lookup_insert_ne in Hx by congruence. pose proof (Hh _ _ Hx Hix) as E. destruct q; [discriminate | exact E].
  - rewrite (counted_same reader _ _ _ _ Hp Er). assumption.
  - rewrite (counted_same writer _ _ _ _ Hp Ew). assumption.
  - intros t' x Hx Hax. rewrite (counted_same reader _ _ _ _ Hp Er). destruct (decide (t' = t)) as [-> | Hne].
    + rewrite list_lookup_insert_eq in Hx by eauto using lookup_lt_Some. injection Hx as <-. congruence.
    + rewrite list_lookup_insert_ne in Hx by congruence. eauto.
Qed.

(** The thread being served leaves the line. *)
Lemma rw_leave w q t p p' :
  rw_ok w q -> at_ w !! t = Some p -> inside p = true -> drawn p' = false -> reader p' = reader p -> writer p' = writer p ->
  exists q', q = t :: q' /\ rw_ok (mkWorld (set_inner (Ticket.Unlock (inner (state w))) (state w)) (<[t := p']> (at_ w))) q'.
Proof.
  intros [Hs Hn Hl Hd Ht Hh Hr Hw Ha] Hp Hin Hnd Er Ew. pose proof (Hh _ _ Hp Hin) as Eq. destruct q as [| t0 q]; [discriminate |]. injection Eq as ->.
  exists q. split; [reflexivity |]. apply NoDup_cons in Hl as [Hnq Hl].
  assert (Hni : inside p' = false) by (destruct (inside p') eqn:E; [apply drawn_inside in E; congruence | reflexivity]).
  constructor; cbn [state at_ set_inner inner Ticket.Unlock Ticket.serving Ticket.next readers writers].
  - width_lia.
  - rewrite Hn. simpl length. width_lia.
  - assumption.
  - intros t'. destruct (decide (t' = t)) as [-> | Hne].
    + rewrite list_lookup_insert_eq by eauto using lookup_lt_Some. split; [contradiction |]. intros (x & [= <-] & Hx). congruence.
    + rewrite list_lookup_insert_ne, <- Hd by congruence. rewrite elem_of_cons. intuition.
  - intros i t' x k Hq Hx Hkx. rewrite list_lookup_insert_ne in Hx by (intros ->; apply Hnq; eauto using list_elem_of_lookup_2).
    rewrite (Ht (S i) t' x k Hq Hx Hkx). width_lia.
  - intros t' x Hx Hix. destruct (decide (t' = t)) as [-> | Hne].
    + rewrite list_lookup_insert_eq in Hx by eauto using lookup_lt_Some. injection Hx as <-. congruence.
    + rewrite list_lookup_insert_ne in Hx by congruence. pose proof (Hh _ _ Hx Hix) as E. injection E as ->. congruence.
  - rewrite (counted_same reader _ _ _ _ Hp Er). assumption.
  - rewrite (counted_same writer _ _ _ _ Hp Ew). assumption.
  - intros t' x Hx Hax. pose proof (alone_inside x Hax) as Hix. destruct (decide (t' = t)) as [-> | Hne].
    + rewrite list_lookup_insert_eq in Hx by eauto using lookup_lt_Some. injection Hx as <-. congruence.
    + rewrite list_lookup_insert_ne in Hx by congruence. pose proof (Hh _ _ Hx Hix) as E. injection E as ->. congruence.
Qed.

(** A thread whose ticket is being served is the first of the line. *)
Lemma served_first w q t p k :
  rw_ok w q -> Z.of_nat (length (at_ w)) < two32 -> at_ w !! t = Some p -> ticket_of p = Some k -> Ticket.served (inner (state w)) k = true -> head q = Some t.
Proof.
  intros Hok Hlen Hp Hk E. apply Z.eqb_eq in E. pose proof (line_short w q Hok) as Hshort.
  assert (Hin : t ∈ q) by (apply (rw_drawn _ _ Hok); eauto using drawn_ticket). apply list_elem_of_lookup_1 in Hin as [i Hi].
  pose proof (rw_ticket _ _ Hok i t p k Hi Hp Hk) as Ek. pose proof (rw_serving _ _ Hok). pose proof (lookup_lt_Some _ _ _ Hi).
  assert (i = 0%nat) as -> by width_lia. destruct q; [discriminate | exact Hi].
Qed.

Ltac rw_move_tac Hok Hp :=
  eapply (rw_move _ _ _ _ _ _ Hok Hp); cbn [inner set_readers set_writers readers writers inside alone reader writer ticket_of drawn orb];
  rewrite ?(counted_insert reader _ _ _ _ Hp), ?(counted_insert writer _ _ _ _ Hp), ?(rw_readers _ _ Hok), ?(rw_writers _ _ Hok); cbn [reader writer]; auto;
  try congruence; try lia; try (intros; discriminate).

Lemma rw_access_ok w q t p : rw_ok w q -> Z.of_nat (length (at_ w)) < two32 -> at_ w !! t = Some p -> exists q', rw_ok (run w t p) q'.
Proof.
  intros Hok Hlen Hp. pose proof (counted_le reader (at_ w)) as Hr. pose proof (counted_le writer (at_ w)) as Hw. unfold run.
  pose proof (counted_pos reader _ _ _ Hp) as Hr1. pose proof (counted_pos writer _ _ _ Hp) as Hw1.
  pose proof (lookup_lt_Some _ _ _ Hp) as Hlt.
  destruct p as [| | | k | | | | | | k | | |]; cbn [access fst snd].
  - exists q. rw_move_tac Hok Hp.
  - exists q. destruct (writers (state w) =? 0); rw_move_tac Hok Hp.
  - exists (q ++ [t]). apply (rw_draw w q t _ (ReaderSpin (Ticket.next (inner (state w)))) Hok Hlen Hp); reflexivity.
  - exists q. destruct (Ticket.served _ _) eqn:E; rw_move_tac Hok Hp. intros _. eapply served_first; eauto.
  - exists q. assert (counted reader (at_ w) + 1 <= Z.of_nat (length (at_ w))).
    { pose proof (counted_insert reader _ _ _ ReaderPass Hp) as E. pose proof (counted_le reader (<[t := ReaderPass]> (at_ w))) as Hle. rewrite length_insert in Hle. simpl in E. lia. }
    rw_move_tac Hok Hp; [intros _; apply (rw_head _ _ Hok _ _ Hp); reflexivity | rewrite u32_small; lia].
  - destruct (rw_leave w q t ReaderPass Reading Hok Hp) as (q' & _ & Hok'); eauto.
  - exists q. specialize (Hr1 eq_refl). rw_move_tac Hok Hp. rewrite u32_small; lia.
  - exists q. assert (counted writer (at_ w) + 1 <= Z.of_nat (length (at_ w))).
    { pose proof (counted_insert writer _ _ _ WriterDraw Hp) as E. pose proof (counted_le writer (<[t := WriterDraw]> (at_ w))) as Hle. rewrite length_insert in Hle. simpl in E. lia. }
    rw_move_tac Hok Hp. rewrite u32_small; lia.
  - exists (q ++ [t]). apply (rw_draw w q t _ (WriterSpin (Ticket.next (inner (state w)))) Hok Hlen Hp); reflexivity.
  - exists q. destruct (Ticket.served _ _) eqn:E; rw_move_tac Hok Hp. intros _. eapply served_first; eauto.
  - exists q. pose proof (rw_head _ _ Hok _ _ Hp eq_refl) as Hh. destruct (Z.eqb_spec (readers (state w)) 0) as [E | E]; rw_move_tac Hok Hp. intros _. rewrite <- (rw_readers _ _ Hok). lia.
  - exists q. pose proof (rw_head _ _ Hok _ _ Hp eq_refl) as Hh. pose proof (rw_alone _ _ Hok _ _ Hp eq_refl) as H0. specialize (Hw1 eq_refl). rw_move_tac Hok Hp. rewrite u32_small; lia.
  - destruct (rw_leave w q t WriterPass Outside Hok Hp) as (q' & _ & Hok'); eauto.
Qed.

Lemma rw_step_ok w q w' : rw_ok w q -> Z.of_nat (length (at_ w)) < two32 -> step w w' -> exists q', rw_ok w' q'.
Proof.
  intros Hok Hlen [t Hp | t Hp | t p Hp]; [exists q; rw_move_tac Hok Hp .. |]. eapply rw_access_ok; eauto.
Qed.

Lemma step_length w w' : step w w' -> length (at_ w') = length (at_ w).
Proof. intros [t Hp | t Hp | t p Hp]; simpl; apply length_insert. Qed.

Lemma rw_reachable n w : Z.of_nat n < two32 -> rtc step (start n) w -> (exists q, rw_ok w q) /\ length (at_ w) = n.
Proof.
  intros Hn Hr. assert (H0 : (exists q, rw_ok (start n) q) /\ length (at_ (start n)) = n) by (split; [exists []; apply rw_start | apply length_replicate]).
  revert H0. induction Hr as [| x y z Hs _ IH]; intros H0; [assumption |]. destruct H0 as [[q Hq] Hl]. apply IH. split; [eapply rw_step_ok; eauto; lia |].
  rewrite (step_length _ _ Hs). assumption.
Qed.

(** ** Progress *)

(** The thread is inside the lock's code or between lock and unlock, and its next access moves it on. *)
Definition moves (w : world) (t : nat) : Prop := exists p, at_ w !! t = Some p /\ snd (access (state w) p) <> p.

Lemma first_moves w t q : rw_ok w (t :: q) -> exists t', moves w t'.
Proof.
  intros Hok. destruct (proj1 (rw_drawn _ _ Hok t) ltac:(left)) as (p & Hp & Hd).
  assert (Hserved : forall k, ticket_of p = Some k -> Ticket.served (inner (state w)) k = true).
  { intros k Hk. rewrite (rw_ticket _ _ Hok 0 t p k eq_refl Hp Hk). apply Z.eqb_eq. pose proof (rw_serving _ _ Hok). width_lia. }
  destruct p as [| | | k | | | | | | k | | |]; try discriminate Hd;
    try (exists t; eexists; (split; [exact Hp |]); simpl; rewrite ?(Hserved _ eq_refl); discriminate).
  destruct (Z.eqb_spec (readers (state w)) 0) as [E | E].
  - exists t. eexists. split; [exact Hp |]. simpl. rewrite E. discriminate.
  - rewrite (rw_readers _ _ Hok) in E. pose proof (counted_le reader (at_ w)). destruct (counted_some reader (at_ w)) as (t' & p' & Hp' & Hr'); [lia |].
    exists t', p'. split; [assumption |]. destruct p'; try discriminate Hr'; simpl; discriminate.
Qed.

Lemma none_waits_moves w t p : rw_ok w [] -> at_ w !! t = Some p -> p <> Outside -> exists t', moves w t'.
Proof.
  intros Hok Hp Hne. assert (Hnd : forall t p, at_ w !! t = Some p -> drawn p = false).
  { intros t' p' Hp'. destruct (drawn p') eqn:E; [| reflexivity]. assert (Hin : t' ∈ []) by (apply (rw_drawn _ _ Hok); eauto). set_solver. }
  pose proof (Hnd _ _ Hp) as Hd. destruct p as [| | | k | | | | | | k | | |]; try discriminate Hd; try congruence; try (exists t; eexists; (split; [exact Hp |]); simpl; discriminate).
  destruct (Z.eqb_spec (writers (state w)) 0) as [E | E].
  - exists t. eexists. split; [exact Hp |]. simpl. rewrite E. discriminate.
  - rewrite (rw_writers _ _ Hok) in E. pose proof (counted_le writer (at_ w)). destruct (counted_some writer (at_ w)) as (t' & p' & Hp' & Hr'); [lia |].
    pose proof (Hnd _ _ Hp') as Hd'. exists t', p'. split; [assumption |]. destruct p'; try discriminate; simpl; discriminate.
Qed.
End Rw.
