(* ===== verification/LocksSpec.v ===== *)
(** What the locks promise. *)

From stdpp Require Import relations.
From S2P Require Import Prelude Locks LocksProofs.

(** A spin lock has at most one holder. *)
Lemma spin_exclusive n w t t' : rtc Spin.step (Spin.start n) w -> Spin.at_ w !! t = Some Spin.Holding -> Spin.at_ w !! t' = Some Spin.Holding -> t = t'.
Proof.
  intros Hr Ht Ht'. destruct (decide (t = t')) as [E | Hne]; [assumption |]. exfalso.
  pose proof (spin_reachable n w Hr) as Hok. unfold spin_ok in Hok. pose proof (counted_insert Spin.holds _ _ _ Spin.Outside Ht) as E. simpl in E.
  assert (Ht2 : <[t := Spin.Outside]> (Spin.at_ w) !! t' = Some Spin.Holding) by (rewrite list_lookup_insert_ne by congruence; assumption).
  pose proof (counted_pos Spin.holds _ _ _ Ht2 eq_refl). destruct (Spin.lock w); lia.
Qed.

(** C34: whatever the interleaving of [n] threads that lock and unlock, fewer than the counters can
    number, a thread that has write access is the only one that has any: no other thread has write
    access and none has read access. *)
Theorem rwlock_exclusive n (w : Rw.world) t t' p :
  Z.of_nat n < two32 -> rtc Rw.step (Rw.start n) w -> Rw.at_ w !! t = Some Rw.Writing -> Rw.at_ w !! t' = Some p ->
  p = Rw.Writing \/ p = Rw.Reading -> t = t' /\ p = Rw.Writing.
Proof.
  intros Hn Hr Ht Ht' Hp. destruct (rw_reachable n w Hn Hr) as [[q Hok] _]. pose proof (rw_head _ _ Hok _ _ Ht eq_refl) as Hh. destruct Hp as [-> | ->].
  - pose proof (rw_head _ _ Hok _ _ Ht' eq_refl). split; congruence.
  - pose proof (counted_pos reader _ _ _ Ht' eq_refl). pose proof (rw_alone _ _ Hok _ _ Ht eq_refl). lia.
Qed.

(** C35: the threads cannot block each other: as long as some thread is inside a call or has access,
    there is a thread whose next access is not another turn of a spin loop. *)
Theorem rwlock_progress n (w : Rw.world) t p :
  Z.of_nat n < two32 -> rtc Rw.step (Rw.start n) w -> Rw.at_ w !! t = Some p -> p <> Rw.Outside -> exists t', moves w t'.
Proof.
  intros Hn Hr Ht Hp. destruct (rw_reachable n w Hn Hr) as [[[| t0 q] Hok] _]; [eapply none_waits_moves | eapply first_moves]; eauto.
Qed.

(** [RunLevelLock] stores the level of a core in the lock before it has the lock: when a core at
    level Normal waits for a core that came from level Dpc, the holder is lowered to Normal, and
    the one that waited stays at the level of the lock. *)
Theorem level_lock_mixes_levels :
  let w := Level.mkWorld (Level.mkLock None false) [Level.mkCore 2 Level.Outside; Level.mkCore 0 Level.Outside] in
  Level.runs 3 [0; 0; 1; 0; 0; 1; 1; 1]%nat w =
    Ok (Level.mkWorld (Level.mkLock None false) [Level.mkCore 0 Level.Outside; Level.mkCore 3 Level.Outside]).
Proof. reflexivity. Qed.

(** ** A reader and a writer *)

Definition rw_run (w : Rw.world) (t : nat) : Rw.world := match Rw.at_ w !! t with Some p => Rw.run w t p | None => w end.
Definition rw_called : Rw.world := Rw.mkWorld Rw.init [Rw.AddWriter; Rw.CheckWriters].

Lemma rw_called_reached : rtc Rw.step (Rw.start 2) rw_called.
Proof.
  eapply rtc_l; [apply (Rw.step_write (Rw.start 2) 0); reflexivity |].
  eapply rtc_l; [apply (Rw.step_read _ 1); reflexivity |]. apply rtc_refl.
Qed.

Lemma rw_runs w ts : rtc Rw.step (Rw.start 2) w -> rtc Rw.step (Rw.start 2) (fold_left rw_run ts w).
Proof.
  revert w. induction ts as [| t ts IH]; intros w Hr; [assumption |]. apply IH. unfold rw_run. destruct (Rw.at_ w !! t) as [p |] eqn:E; [| assumption].
  eapply rtc_r; [exact Hr | apply Rw.step_access; assumption].
Qed.

(** The writer has the lock, the reader waits. *)
Definition rw_writing : Rw.world := fold_left rw_run [0; 1; 0; 0; 0; 1]%nat rw_called.

Lemma rwlock_exclusive_witness : Rw.at_ rw_writing = [Rw.Writing; Rw.CheckWriters] /\ (0 = 0)%nat /\ Rw.Writing = Rw.Writing.
Proof.
  split; [reflexivity |].
  apply (rwlock_exclusive 2 rw_writing 0 0 Rw.Writing); [unfold two32; lia | apply rw_runs, rw_called_reached | reflexivity | reflexivity | auto].
Defined.

Lemma rwlock_progress_witness : exists t', moves rw_writing t'.
Proof. apply (rwlock_progress 2 rw_writing 1 Rw.CheckWriters); [unfold two32; lia | apply rw_runs, rw_called_reached | reflexivity | discriminate]. Defined.
