(* ===== verification/SyslibSpec.v ===== *)
(** What the arithmetic and the bitmaps of the system library promise. *)

From S2P Require Import Prelude Maths Bitmap.

(** ** Arithmetic against references *)

Lemma ByteSwap64_rev v : 0 <= v < two64 -> ByteSwap64 v = digits 8 (rev (to_bytes 8 v)).
Proof.
  intros Hv. pose proof (digits_to_bytes 8 v Hv) as E. pose proof (to_bytes_width 8 v) as W. rewrite <- E at 1.
  cbn [to_bytes rev app] in *. rewrite !Forall_cons in W. destruct W as (? & ? & ? & ? & ? & ? & ? & ? & _). apply ByteSwap64_bytes; assumption.
Qed.

(** C36: on every 64-bit value the bit tricks compute what their names say: [PopCount] the number of
    set bits, [SquareRoot] (within its 65 steps) the rounded-down root, [ByteSwap64] the number
    whose bytes come in reverse order, [IsPowerOfTwo] whether one bit is set. *)
Theorem maths_match_references v : 0 <= v < two64 ->
  PopCount v = ones 64 v /\ SquareRoot 65 v = Some (Z.sqrt v) /\ ByteSwap64 v = digits 8 (rev (to_bytes 8 v)) /\
  (IsPowerOfTwo v = true <-> exists k, 0 <= k < 64 /\ v = 2 ^ k).
Proof. intros Hv. auto using PopCount_spec, SquareRoot_spec, ByteSwap64_rev, IsPowerOfTwo_spec. Qed.

Lemma maths_match_references_witness : PopCount 0xF0F1 = ones 64 0xF0F1 /\ SquareRoot 65 0xF0F1 = Some (Z.sqrt 0xF0F1) /\
  ByteSwap64 0xF0F1 = digits 8 (rev (to_bytes 8 0xF0F1)) /\ (IsPowerOfTwo 0xF0F1 = true <-> exists k, 0 <= k < 64 /\ 0xF0F1 = 2 ^ k).
Proof. apply (maths_match_references 0xF0F1). unfold two64. lia. Defined.

(** ** Bitmaps as sets of indices *)

Inductive bitmap_call : Type := CallGet (i : Z) | CallSet (i : Z) | CallClear (i : Z) | CallFindClear (limit : Z).
Inductive answer : Type := Bit (b : bool) | Index (i : Z).

Definition bitmap_do (c : bitmap_call) (bm : list Z) : res (answer * list Z) :=
  match c with
  | CallGet i => b ← BitmapGet bm i; Ok (Bit b, bm)
  | CallSet i => '(b, bm) ← BitmapSet bm i; Ok (Bit b, bm)
  | CallClear i => '(b, bm) ← BitmapClear bm i; Ok (Bit b, bm)
  | CallFindClear limit => i ← BitmapFindClear bm limit; Ok (Index i, bm)
  end.

Fixpoint bitmap_run (cs : list bitmap_call) (bm : list Z) : res (list answer * list Z) :=
  match cs with
  | [] => Ok ([], bm)
  | c :: cs => '(a, bm) ← bitmap_do c bm; '(l, bm) ← bitmap_run cs bm; Ok (a :: l, bm)
  end.

(** The same calls on a set of indices: the answer and the set after the call. *)
Inductive set_do (s : gset Z) : bitmap_call -> answer -> gset Z -> Prop :=
| set_get i : set_do s (CallGet i) (Bit (bool_decide (i ∈ s))) s
| set_set i : set_do s (CallSet i) (Bit (bool_decide (i ∉ s))) ({[i]} ∪ s)
| set_clear i : set_do s (CallClear i) (Bit (bool_decide (i ∈ s))) (s ∖ {[i]})
| set_find limit r : 0 <= r <= limit -> (forall j, 0 <= j < r -> j ∈ s) -> (r < limit -> r ∉ s) -> set_do s (CallFindClear limit) (Index r) s.

Inductive set_run : gset Z -> list bitmap_call -> list answer -> gset Z -> Prop :=
| set_run_nil s : set_run s [] [] s
| set_run_cons s c a s1 cs l s2 : set_do s c a s1 -> set_run s1 cs l s2 -> set_run s (c :: cs) (a :: l) s2.

(** The call stays within [n] bits. *)
Definition within (n : Z) (c : bitmap_call) : Prop :=
  match c with CallGet i | CallSet i | CallClear i => 0 <= i < n | CallFindClear limit => 0 <= limit <= n end.

(** The bytes of [bm] hold the set. *)
Definition holds_set (bm : list Z) (s : gset Z) : Prop := bytes_ok bm /\ forall j, 0 <= j -> bit bm j = bool_decide (j ∈ s).

Lemma updated_holds bm s i v bm' : 0 <= i -> holds_set bm s -> updated bm i v bm' ->
  holds_set bm' (if v then {[i]} ∪ s else s ∖ {[i]}) /\ capacity bm' = capacity bm.
Proof.
  intros Hi [_ Hb] (Hu & Hok & Hlen). split; [| unfold capacity; rewrite Hlen; reflexivity]. split; [assumption |]. intros j Hj. rewrite (Hu j Hj), (Hb j Hj).
  destruct (Z.eqb_spec j i) as [-> | Hne]; destruct v; symmetry; first [apply bool_decide_eq_true_2; set_solver | apply bool_decide_eq_false_2; set_solver | apply bool_decide_ext; set_solver].
Qed.

Lemma bitmap_do_refines c bm s : holds_set bm s -> within (capacity bm) c ->
  exists a bm' s', bitmap_do c bm = Ok (a, bm') /\ set_do s c a s' /\ holds_set bm' s' /\ capacity bm' = capacity bm.
Proof.
  intros Hs Hw. pose proof Hs as [Hok Hb]. destruct c as [i | i | i | limit]; simpl in *.
  - rewrite (BitmapGet_spec bm i Hw). simpl. do 3 eexists. split; [reflexivity |]. rewrite (Hb i) by lia. split; [constructor | auto].
  - destruct (BitmapSet_spec bm i Hok Hw) as (bm' & -> & Hu). simpl. do 3 eexists. split; [reflexivity |]. rewrite (Hb i) by lia.
    rewrite <- bool_decide_not. split; [constructor |]. exact (updated_holds bm s i true bm' ltac:(lia) Hs Hu).
  - destruct (BitmapClear_spec bm i Hok Hw) as (bm' & -> & Hu). simpl. do 3 eexists. split; [reflexivity |]. rewrite (Hb i) by lia.
    split; [constructor |]. exact (updated_holds bm s i false bm' ltac:(lia) Hs Hu).
  - destruct (BitmapFindClear_spec bm limit Hw) as (r & -> & Hr & Hset & Hclear). simpl. do 3 eexists. split; [reflexivity |]. split; [| split; [exact Hs | reflexivity]].
    constructor; [assumption | |].
    + intros j Hj. specialize (Hset j Hj). rewrite Hb in Hset by lia. apply bool_decide_eq_true in Hset. assumption.
    + intros Hlt. specialize (Hclear Hlt). rewrite Hb in Hclear by lia. apply bool_decide_eq_false in Hclear. assumption.
Qed.

(** C37: a bitmap is a set of indices: any sequence of calls within its size returns, keeps its
    elements bytes and its size, and every answer is that of the same call on the set, with
    [BitmapFindClear] the least index that is not in it. *)
Theorem bitmap_refines_set cs bm s :
  holds_set bm s -> Forall (within (capacity bm)) cs ->
  exists l bm' s', bitmap_run cs bm = Ok (l, bm') /\ set_run s cs l s' /\ holds_set bm' s' /\ capacity bm' = capacity bm.
Proof.
  revert bm s. induction cs as [| c cs IH]; intros bm s Hs Hw; [do 3 eexists; split; [reflexivity |]; split; [constructor | auto] |].
  apply Forall_cons in Hw as [Hc Hw]. destruct (bitmap_do_refines c bm s Hs Hc) as (a & bm1 & s1 & E & Hd & Hs1 & Hcap).
  destruct (IH bm1 s1 Hs1) as (l & bm2 & s2 & E2 & Hr & Hs2 & Hcap2); [rewrite Hcap; assumption |].
  cbn [bitmap_run]. rewrite E. cbn [mbind res_bind]. rewrite E2. cbn [mbind res_bind]. do 3 eexists. split; [reflexivity |].
  split; [econstructor; eassumption |]. split; [assumption | congruence].
Qed.

Lemma empty_holds n : holds_set (replicate n 0) ∅.
Proof.
  split; [apply Forall_replicate; lia |]. intros j Hj. rewrite bool_decide_eq_false_2 by set_solver. unfold bit.
  destruct (replicate n 0 !! _) as [b |] eqn:E; [| reflexivity]. apply lookup_replicate in E as [-> _]. apply Z.bits_0.
Qed.

Lemma bitmap_refines_set_witness :
  exists l bm' s', bitmap_run [CallSet 0; CallSet 9; CallGet 9; CallFindClear 16; CallClear 9; CallGet 9] [0; 0] = Ok (l, bm') /\
    set_run ∅ [CallSet 0; CallSet 9; CallGet 9; CallFindClear 16; CallClear 9; CallGet 9] l s' /\ holds_set bm' s' /\ capacity bm' = capacity [0; 0].
Proof.
  apply (bitmap_refines_set [CallSet 0; CallSet 9; CallGet 9; CallFindClear 16; CallClear 9; CallGet 9] [0; 0] ∅); [exact (empty_holds 2) |].
  repeat constructor; vm_compute; congruence.
Defined.
