(* ===== verification/Wait.v ===== *)
(** Waiting and signalling ([kernel/tasking/Waitable.cpp]): events with a count of signals, and the
    threads that wait for one or all of several events. *)

From S2P Require Import Prelude IntrList.

(** What the wait manager asks of run levels and scheduler. The instance for the kernel's own is in
    [WaitSpec.v]. *)
Class SchedCalls (S : Type) : Type := {
  sc_current : Z -> S -> res Z;
  sc_ensure : Z -> S -> res (option Z * S);
  sc_lower : Z -> Z -> S -> res S;
  sc_dequeue : Z -> Z -> S -> res S;
  sc_enqueue : Z -> S -> res S;
  sc_yield : Z -> S -> res S
}.

Module Wait.
Section Wait.
Context {L : Type} `{IntrFwdList L}.

(** The members of [WaitEntry] and [Waitable], by address; [cohort] lists the entries of the span
    they are in. [held] are the event locks that are taken. *)
Record WaitEntry : Type := mkEntry { event : Z; thread : Z; cohort : list Z; signalled : bool; waitAll : bool }.
Record Waitable : Type := mkWaitable { signalCount : Z; waiters : L }.
Record Waits : Type := mkWaits { events : gmap Z Waitable; entries : gmap Z WaitEntry; held : gset Z }.

Definition set_events (m : gmap Z Waitable) (w : Waits) : Waits := mkWaits m (entries w) (held w).
Definition set_entries (m : gmap Z WaitEntry) (w : Waits) : Waits := mkWaits (events w) m (held w).
Definition set_held (s : gset Z) (w : Waits) : Waits := mkWaits (events w) (entries w) s.
Definition set_count (n : Z) (e : Waitable) : Waitable := mkWaitable (u64 n) (waiters e).
Definition set_waiters (l : L) (e : Waitable) : Waitable := mkWaitable (signalCount e) l.
Definition set_signalled (x : WaitEntry) : WaitEntry := mkEntry (event x) (thread x) (cohort x) true (waitAll x).

(** ** [TryFinish] *)

(** [entries[i].event->signalCount--; entries[i].signalled = true]. *)
Definition take (p : Z) (w : Waits) : res Waits :=
  x ← deref (entries w !! p);
  e ← deref (events w !! event x);
  Ok (set_entries (<[p := set_signalled x]> (entries w)) (set_events (<[event x := set_count (signalCount e - 1) e]> (events w)) w)).

(** The first loop; [None] when it ran to the end. *)
Fixpoint finish_scan (es : list Z) (all : bool) (w : Waits) : res (option bool * Waits) :=
  match es with
  | [] => Ok (None, w)
  | p :: es =>
      x ← deref (entries w !! p);
      e ← deref (events w !! event x);
      if signalCount e =? 0 then (if all then Ok (Some false, w) else finish_scan es all w)
      else if all then finish_scan es all w
      else w ← take p w; Ok (Some true, w)
  end.

Fixpoint take_all (es : list Z) (w : Waits) : res Waits :=
  match es with [] => Ok w | p :: es => w ← take p w; take_all es w end.

Definition TryFinish (es : list Z) (all : bool) (w : Waits) : res (bool * Waits) :=
  '(r, w) ← finish_scan es all w;
  match r with
  | Some b => Ok (b, w)
  | None => if negb all then Ok (false, w) else w ← take_all es w; Ok (true, w)
  end.

(** ** Locks; a lock that is taken by the caller itself is waited for without end *)

Definition Lock (e : Z) (w : Waits) : res Waits := if decide (e ∈ held w) then OutOfFuel else Ok (set_held ({[e]} ∪ held w) w).
Definition Unlock (e : Z) (w : Waits) : Waits := set_held (held w ∖ {[e]}) w.

Fixpoint LockAll (es : list Z) (w : Waits) : res Waits :=
  match es with [] => Ok w | p :: es => x ← deref (entries w !! p); w ← Lock (event x) w; LockAll es w end.
Fixpoint UnlockAll (es : list Z) (w : Waits) : res Waits :=
  match es with [] => Ok w | p :: es => x ← deref (entries w !! p); UnlockAll es (Unlock (event x) w) end.

(** ** [WaitMany] *)

Fixpoint setup (evs es : list Z) (t : Z) (whole : list Z) (all : bool) (w : Waits) : Waits :=
  match evs, es with
  | e :: evs, p :: es => setup evs es t whole all (set_entries (<[p := mkEntry e t whole false all]> (entries w)) w)
  | _, _ => w
  end.

Fixpoint count_signalled (es : list Z) (w : Waits) : res Z :=
  match es with [] => Ok 0 | p :: es => x ← deref (entries w !! p); n ← count_signalled es w; Ok ((if signalled x then 1 else 0) + n) end.

Fixpoint enlist (evs es : list Z) (w : Waits) : res Waits :=
  match evs, es with
  | e :: evs, p :: es => x ← deref (events w !! e); enlist evs es (set_events (<[e := set_waiters (PushBack p (waiters x)) x]> (events w)) w)
  | _, _ => Ok w
  end.

Context {S : Type} `{SchedCalls S}.

Definition lower_to (c : Z) (prev : option Z) (s : S) : res S := match prev with Some l => sc_lower c l s | None => Ok s end.

(** The call up to the point where the thread gives up its core; [Some n] when it returns [n]
    without waiting. [events] and [entries] are the addresses of the elements of the two spans. *)
Definition WaitMany (c : Z) (evs es : list Z) (timeout : Z) (all : bool) (w : Waits) (s : S) : res (option Z * Waits * S) :=
  if negb (length evs =? length es)%nat then Ok (Some 0, w, s)
  else if negb ((timeout =? 0) || (timeout =? two64 - 1)) then Ok (Some 0, w, s)
  else
    '(prev, s) ← sc_ensure c s;
    t ← sc_current c s;
    let w := setup evs es t es all w in
    w ← LockAll es w;
    '(done, w) ← TryFinish es all w;
    if (done : bool) || (timeout =? 0) then
      w ← UnlockAll es w;
      completeCount ← count_signalled es w;
      s ← lower_to c prev s;
      Ok (Some completeCount, w, s)
    else
      w ← enlist evs es w;
      t ← sc_current c s;
      s ← sc_dequeue c t s;
      w ← UnlockAll es w;
      s ← lower_to c prev s;
      Ok (None, w, s).

(** The rest of the call, when the thread runs again. *)
Definition WaitMany_resume (c : Z) (es : list Z) (all : bool) (s : S) : res (Z * S) :=
  s ← sc_yield c s;
  Ok (if all then Z.of_nat (length es) else 1, s).

(** ** [Signal] *)

(** The [next] field of an element after it was taken out of the list. *)
Variable removed_next : Z -> L -> Z.

Fixpoint remove_all (es : list Z) (w : Waits) : res Waits :=
  match es with
  | [] => Ok w
  | p :: es =>
      x ← deref (entries w !! p);
      e ← deref (events w !! event x);
      remove_all es (set_events (<[event x := set_waiters (snd (ListRemove p (waiters e))) e]> (events w)) w)
  end.

(** [waiter->next], by the list the entry is in or was removed from. *)
Definition next_waiter (e waiter : Z) (before after : Waits) : res Z :=
  b ← deref (events before !! e);
  a ← deref (events after !! e);
  Ok (if decide (waiter ∈ elements (waiters a)) then following waiter (elements (waiters a)) else removed_next waiter (waiters b)).

(** The body of the [for] loop: [waiter] is woken when its wait can be completed. The first result
    is the count of [e] afterwards, the second how many threads were woken so far. *)
Definition visit (e waiter woke : Z) (w : Waits) (s : S) : res (Z * Z * Waits * S) :=
  x ← deref (entries w !! waiter);
  w ← LockAll (cohort x) w;
  '(done, w) ← TryFinish (cohort x) (waitAll x) w;
  '(woke, w, s) ←
    (if done : bool then
       w ← remove_all (cohort x) w;
       s ← sc_enqueue (thread x) s;
       Ok (u64 (woke + 1), w, s)
     else Ok (woke, w, s));
  w ← UnlockAll (cohort x) w;
  w ← Lock e w;
  ev ← deref (events w !! e);
  Ok (signalCount ev, woke, Unlock e w, s).

(** The [for] loop over the waiters of [e]. *)
Fixpoint signal_loop (fuel : nat) (e waiter : Z) (woke : Z) (w : Waits) (s : S) : res (Z * Waits * S) :=
  if waiter =? 0 then Ok (woke, w, s)
  else
    match fuel with
    | O => OutOfFuel
    | Datatypes.S fuel' =>
        '(n, woke, w', s) ← visit e waiter woke w s;
        if n =? 0 then Ok (woke, w', s)
        else next ← next_waiter e waiter w w'; signal_loop fuel' e next woke w' s
    end.

Definition Signal (c e count : Z) (w : Waits) (s : S) : res (Z * Waits * S) :=
  _ ← assert_ (negb (e =? 0));
  '(prev, s) ← sc_ensure c s;
  w ← Lock e w;
  ev ← deref (events w !! e);
  let w := Unlock e (set_events (<[e := set_count (signalCount ev + count) ev]> (events w)) w) in
  let first := default 0 (head (elements (waiters ev))) in
  '(woke, w, s) ← signal_loop (length (elements (waiters ev))) e first 0 w s;
  s ← lower_to c prev s;
  Ok (woke, w, s).
End Wait.
Arguments Waitable L : clear implicits.
Arguments Waits L : clear implicits.
End Wait.
