(* ===== verification/WaitProofs.v ===== *)
(** The state of the wait manager and what its parts do to it. *)

From S2P Require Import Prelude IntrList Wait.
Import Wait.

Section Proofs.
Context {L : Type} `{HLaws : IntrFwdListLaws L}.
Implicit Types (w : Waits L) (es : list Z).

(** ** Entries and their events *)

Definition event_of w (p : Z) : option Z := event <$> entries w !! p.
(** The signals of the event of an entry. *)
Definition cnt w (p : Z) : Z := default 0 (signalCount <$> (event_of w p ≫= fun e => events w !! e)).
Definition known w (p : Z) : Prop := exists x v, entries w !! p = Some x /\ events w !! event x = Some v.
(** Entries of different events. *)
Definition span_ok w es : Prop :=
  Forall (known w) es /\ NoDup es /\ forall p q, p ∈ es -> q ∈ es -> event_of w p = event_of w q -> p = q.
Definition counts_ok w : Prop := forall e v, events w !! e = Some v -> 0 <= signalCount v < two64.

(** The wait on the entries can be completed. *)
Definition ready w es (all : bool) : Prop :=
  if all then forall p, p ∈ es -> 0 < cnt w p else exists p, p ∈ es /\ 0 < cnt w p.

Definition plain (x : WaitEntry) : WaitEntry := mkEntry (event x) (thread x) (cohort x) false (waitAll x).

(** [w'] is [w] with some signals used up. *)
Record spent w w' : Prop := mkSpent {
  sp_held : held w' = held w;
  sp_events : forall e, match events w !! e, events w' !! e with
    | Some v, Some v' => waiters v' = waiters v /\ 0 <= signalCount v' <= signalCount v
    | None, None => True
    | _, _ => False
    end;
  sp_entries : forall p, plain <$> entries w' !! p = plain <$> entries w !! p
}.

Lemma spent_refl w : counts_ok w -> spent w w.
Proof. intros Hc. constructor; auto. intros e. destruct (events w !! e) eqn:E; [| exact I]. specialize (Hc _ _ E). split; [reflexivity | lia]. Qed.

Lemma spent_trans w1 w2 w3 : spent w1 w2 -> spent w2 w3 -> spent w1 w3.
Proof.
  intros [Hh He Hp] [Hh' He' Hp']. constructor; [congruence | | congruence].
  intros e. specialize (He e). specialize (He' e). destruct (events w1 !! e), (events w2 !! e), (events w3 !! e); try tauto. destruct He, He'. split; [congruence | lia].
Qed.

Lemma spent_event w w' e v : spent w w' -> events w !! e = Some v -> exists v', events w' !! e = Some v' /\ waiters v' = waiters v /\ 0 <= signalCount v' <= signalCount v.
Proof. intros [_ He _] Hv. specialize (He e). rewrite Hv in He. destruct (events w' !! e); [eauto | contradiction]. Qed.
Lemma spent_event_inv w w' e v' : spent w w' -> events w' !! e = Some v' -> exists v, events w !! e = Some v /\ waiters v' = waiters v /\ 0 <= signalCount v' <= signalCount v.
Proof. intros [_ He _] Hv. specialize (He e). rewrite Hv in He. destruct (events w !! e); [eauto | contradiction]. Qed.
Lemma spent_entry w w' p x : spent w w' -> entries w !! p = Some x -> exists x', entries w' !! p = Some x' /\ plain x' = plain x.
Proof. intros [_ _ Hp] Hx. specialize (Hp p). rewrite Hx in Hp. simpl in Hp. apply fmap_Some in Hp as (x' & Hx' & E). eauto. Qed.
Lemma spent_entry_inv w w' p x' : spent w w' -> entries w' !! p = Some x' -> exists x, entries w !! p = Some x /\ plain x' = plain x.
Proof. intros [_ _ Hp] Hx. specialize (Hp p). rewrite Hx in Hp. simpl in Hp. symmetry in Hp. apply fmap_Some in Hp as (x & Hx' & E). eauto. Qed.

Lemma spent_event_of w w' p : spent w w' -> event_of w' p = event_of w p.
Proof.
  intros [_ _ Hp]. specialize (Hp p). unfold event_of. destruct (entries w' !! p), (entries w !! p); simpl in *; try congruence. injection Hp as E. congruence.
Qed.

Lemma spent_cnt w w' p : counts_ok w -> spent w w' -> 0 <= cnt w' p <= cnt w p.
Proof.
  intros Hc Hs. unfold cnt. rewrite (spent_event_of w w' p Hs). destruct (event_of w p) as [e |]; simpl; [| lia].
  pose proof (sp_events _ _ Hs e) as He. destruct (events w !! e), (events w' !! e); simpl; try contradiction; [tauto | lia].
Qed.

Lemma spent_known w w' p : spent w w' -> known w p -> known w' p.
Proof.
  intros Hs (x & v & Hx & Hv). destruct (spent_entry w w' p x Hs Hx) as (x' & Hx' & E). destruct (spent_event w w' _ v Hs Hv) as (v' & Hv' & _).
  exists x', v'. split; [assumption |]. injection E as -> _. assumption.
Qed.

Lemma spent_span w w' es : spent w w' -> span_ok w es -> span_ok w' es.
Proof.
  intros Hs (Hk & Hn & Hd). split; [eapply Forall_impl; [exact Hk |]; intros p; apply spent_known; assumption |]. split; [assumption |].
  intros p q Hp Hq. rewrite !(spent_event_of w w' _ Hs). auto.
Qed.

Lemma spent_counts w w' : counts_ok w -> spent w w' -> counts_ok w'.
Proof. intros Hc Hs e v' Hv'. destruct (spent_event_inv w w' e v' Hs Hv') as (v & Hv & _ & ?). specialize (Hc _ _ Hv). lia. Qed.

(** What is blocked stays blocked when signals are used up. *)
Lemma spent_ready w w' es all : counts_ok w -> spent w w' -> ready w' es all -> ready w es all.
Proof.
  intros Hc Hs. unfold ready. destruct all.
  - intros H' p Hp. specialize (H' p Hp). pose proof (spent_cnt w w' p Hc Hs). lia.
  - intros (p & Hp & H'). exists p. pose proof (spent_cnt w w' p Hc Hs). split; [assumption | lia].
Qed.

(** ** [TryFinish] *)

Lemma known_cnt w p x v : entries w !! p = Some x -> events w !! event x = Some v -> cnt w p = signalCount v.
Proof. intros Hx Hv. unfold cnt, event_of. rewrite Hx. simpl. rewrite Hv. reflexivity. Qed.

Lemma take_spec w p : known w p -> counts_ok w -> 0 < cnt w p ->
  exists w', take p w = Ok w' /\ spent w w' /\ forall q, event_of w q <> event_of w p -> cnt w' q = cnt w q.
Proof.
  intros (x & v & Hx & Hv) Hc Hp. rewrite (known_cnt w p x v Hx Hv) in Hp. pose proof (Hc _ _ Hv). unfold take. rewrite Hx. cbn [deref mbind res_bind]. rewrite Hv. cbn [deref mbind res_bind].
  eexists. split; [reflexivity |]. split.
  - constructor; [reflexivity | |].
    + intros e. simpl. destruct (decide (event x = e)) as [<- | Hne]; [rewrite lookup_insert_eq, Hv; simpl; rewrite u64_small by lia; split; [reflexivity | lia] |].
      rewrite lookup_insert_ne by assumption. destruct (events w !! e) eqn:E; [| exact I]. specialize (Hc _ _ E). split; [reflexivity | lia].
    + intros q. simpl. destruct (decide (p = q)) as [<- | Hne]; [rewrite lookup_insert_eq, Hx; reflexivity | rewrite lookup_insert_ne by assumption; reflexivity].
  - intros q Hq. unfold cnt, event_of in *. simpl. rewrite Hx in Hq. simpl in Hq. destruct (decide (p = q)) as [<- | Hne]; [exfalso; apply Hq; rewrite Hx; reflexivity |].
    rewrite lookup_insert_ne by assumption. destruct (entries w !! q) as [y |]; [| reflexivity]. simpl in *. rewrite lookup_insert_ne by (intros E; apply Hq; rewrite E; reflexivity). reflexivity.
Qed.

Lemma span_tail w p es : span_ok w (p :: es) -> span_ok w es /\ known w p /\ forall q, q ∈ es -> event_of w q <> event_of w p.
Proof.
  intros (Hk & Hn & Hd). apply Forall_cons in Hk as [Hkp Hk]. apply NoDup_cons in Hn as [Hp Hn]. split; [| split; [assumption |]].
  - split; [assumption |]. split; [assumption |]. intros a b Ha Hb. apply Hd; right; assumption.
  - intros q Hq E. apply Hp. rewrite <- (Hd q p ltac:(right; assumption) ltac:(left) E). assumption.
Qed.

Lemma take_all_spec es : forall w, span_ok w es -> counts_ok w -> (forall p, p ∈ es -> 0 < cnt w p) -> exists w', take_all es w = Ok w' /\ spent w w'.
Proof.
  induction es as [| p es IH]; intros w Hsp Hc Hpos; [exists w; split; [reflexivity | apply spent_refl; assumption] |].
  destruct (span_tail w p es Hsp) as (Hsp' & Hk & Hd). destruct (take_spec w p Hk Hc (Hpos p ltac:(left))) as (w1 & E & Hs & Hq).
  destruct (IH w1) as (w2 & E2 & Hs2).
  - eapply spent_span; eassumption.
  - eapply spent_counts; eassumption.
  - intros q Hin. rewrite Hq by auto. apply Hpos. right. assumption.
  - exists w2. simpl. rewrite E. split; [exact E2 | eapply spent_trans; eassumption].
Qed.

(** The first loop: it ends early with no for all, with the first signalled entry otherwise. *)
Lemma finish_scan_spec es all : forall w, Forall (known w) es -> counts_ok w ->
  exists r w', finish_scan es all w = Ok (r, w') /\ spent w w' /\
    match r with
    | Some false => all = true /\ w' = w /\ ~ ready w es all
    | Some true => all = false /\ ready w es all
    | None => w' = w /\ if all then ready w es all else ~ ready w es all
    end.
Proof.
  induction es as [| p es IH]; intros w Hk Hc.
  - exists None, w. simpl. split; [reflexivity |]. split; [apply spent_refl; assumption |]. split; [reflexivity |]. unfold ready. destruct all; [set_solver |]. intros (p & Hp & _). set_solver.
  - apply Forall_cons in Hk as [(x & v & Hx & Hv) Hk]. pose proof (known_cnt w p x v Hx Hv) as Ec. simpl. rewrite Hx. cbn [deref mbind res_bind]. rewrite Hv. cbn [deref mbind res_bind].
    pose proof (Hc _ _ Hv) as Hr. destruct (Z.eqb_spec (signalCount v) 0) as [E0 | E0].
    + destruct all.
      * exists (Some false), w. split; [reflexivity |]. split; [apply spent_refl; assumption |]. split; [reflexivity |]. split; [reflexivity |]. intros Hrd. specialize (Hrd p ltac:(left)). lia.
      * destruct (IH w Hk Hc) as (r & w' & E & Hs & Hm). exists r, w'. split; [exact E |]. split; [exact Hs |].
        assert (Heq : ready w (p :: es) false <-> ready w es false).
        { simpl. split; intros (q & Hq & Hp); exists q; (split; [| assumption]); [| right; assumption]. apply elem_of_cons in Hq as [-> | Hq]; [lia | assumption]. }
        destruct r as [[] |]; rewrite ?Heq; assumption.
    + destruct all.
      * destruct (IH w Hk Hc) as (r & w' & E & Hs & Hm). exists r, w'. split; [exact E |]. split; [exact Hs |].
        assert (Heq : ready w (p :: es) true <-> ready w es true).
        { simpl. split; [intros Hrd q Hq; apply Hrd; right; assumption |]. intros Hrd q Hq. apply elem_of_cons in Hq as [-> | Hq]; [lia | auto]. }
        destruct r as [[] |]; rewrite ?Heq; assumption.
      * destruct (take_spec w p) as (w' & E & Hs & _); [exists x, v; auto | assumption | lia |]. rewrite E. cbn [mbind res_bind].
        exists (Some true), w'. split; [reflexivity |]. split; [assumption |]. split; [reflexivity |]. exists p. split; [left | lia].
Qed.

(** [TryFinish] completes a wait exactly when it can be completed, and changes nothing otherwise. *)
Lemma TryFinish_spec es all w : span_ok w es -> counts_ok w ->
  exists b w', TryFinish es all w = Ok (b, w') /\ spent w w' /\ (b = true <-> ready w es all) /\ (b = false -> w' = w).
Proof.
  intros Hsp Hc. unfold TryFinish. destruct (finish_scan_spec es all w (proj1 Hsp) Hc) as (r & w' & -> & Hs & Hm). cbn [mbind res_bind]. destruct r as [[] |].
  - destruct Hm as [_ Hm]. exists true, w'. split; [reflexivity |]. split; [assumption |]. split; [tauto | discriminate].
  - destruct Hm as (_ & -> & Hm). exists false, w. split; [reflexivity |]. split; [assumption |]. split; [split; [discriminate | tauto] | reflexivity].
  - destruct Hm as [-> Hm]. destruct all; cbn [negb].
    + destruct (take_all_spec es w Hsp Hc Hm) as (w2 & -> & Hs2). exists true, w2. split; [reflexivity |]. split; [assumption |]. split; [tauto | discriminate].
    + exists false, w. split; [reflexivity |]. split; [assumption |]. split; [split; [discriminate | tauto] | reflexivity].
Qed.

(** ** Locks *)

Definition evset w es : gset Z := list_to_set (omap (event_of w) es).

Lemma elem_evset w es e : e ∈ evset w es <-> exists p, p ∈ es /\ event_of w p = Some e.
Proof. unfold evset. rewrite elem_of_list_to_set, list_elem_of_omap. reflexivity. Qed.

Lemma evset_cons w p x es : entries w !! p = Some x -> evset w (p :: es) = {[event x]} ∪ evset w es.
Proof. intros Hx. unfold evset. simpl. unfold event_of at 1. rewrite Hx. reflexivity. Qed.

Lemma LockAll_spec es : forall w, span_ok w es -> evset w es ## held w -> LockAll es w = Ok (set_held (evset w es ∪ held w) w).
Proof.
  induction es as [| p es IH]; intros w Hsp Hd.
  - simpl. unfold evset. simpl. replace (∅ ∪ held w) with (held w) by set_solver. destruct w; reflexivity.
  - destruct (span_tail w p es Hsp) as (Hsp' & (x & v & Hx & Hv) & Hne). rewrite (evset_cons w p x es Hx) in *. simpl. rewrite Hx. cbn [deref mbind res_bind]. unfold Lock.
    destruct (decide (event x ∈ held w)) as [Hin | Hin]; [set_solver |]. cbn [mbind res_bind]. rewrite (IH (set_held _ w)).
    + unfold set_held. simpl. f_equal. f_equal. change (evset (mkWaits _ _ _) es) with (evset w es). set_solver.
    + exact Hsp'.
    + change (evset (set_held _ w) es) with (evset w es). simpl. enough (event x ∉ evset w es) by set_solver. rewrite elem_evset. intros (q & Hq & E).
      apply (Hne q Hq). unfold event_of at 2. rewrite Hx. exact E.
Qed.

Lemma UnlockAll_spec es : forall w, Forall (known w) es -> UnlockAll es w = Ok (set_held (held w ∖ evset w es) w).
Proof.
  induction es as [| p es IH]; intros w Hk.
  - simpl. unfold evset. simpl. replace (held w ∖ ∅) with (held w) by set_solver. destruct w; reflexivity.
  - apply Forall_cons in Hk as [(x & v & Hx & Hv) Hk]. simpl. rewrite Hx. cbn [deref mbind res_bind]. rewrite IH by exact Hk. rewrite (evset_cons w p x es Hx).
    unfold Unlock, set_held. simpl. change (evset (mkWaits _ _ _) es) with (evset w es). f_equal. f_equal. set_solver.
Qed.

(** ** Who waits *)

Definition waiting w (p : Z) (x : WaitEntry) : Prop := entries w !! p = Some x /\ exists v, events w !! event x = Some v /\ p ∈ elements (waiters v).

(** The entries of a wait are all in the lists of their events. *)
Record cohort_ok w (x : WaitEntry) : Prop := mkCohort {
  co_span : span_ok w (cohort x);
  co_members : forall q, q ∈ cohort x -> exists y, waiting w q y /\ cohort y = cohort x /\ waitAll y = waitAll x /\ thread y = thread x
}.

Record struct_ok w : Prop := mkStruct {
  so_counts : counts_ok w;
  so_held : held w = ∅;
  so_list : forall e v, events w !! e = Some v -> NoDup (elements (waiters v)) /\ (0 ∉ elements (waiters v)) /\
    forall p, p ∈ elements (waiters v) -> exists x, entries w !! p = Some x /\ event x = e /\ p ∈ cohort x /\ cohort_ok w x
}.

Definition blocked w : Prop := forall p x, waiting w p x -> ~ ready w (cohort x) (waitAll x).
(** Nobody waits for what has been signalled. *)
Definition waits_ok w : Prop := struct_ok w /\ blocked w.

Lemma waiting_cohort w p x : struct_ok w -> waiting w p x -> p ∈ cohort x /\ cohort_ok w x.
Proof.
  intros Hs (Hx & v & Hv & Hp). destruct (so_list _ Hs _ _ Hv) as (_ & _ & Hl). destruct (Hl p Hp) as (y & Hy & _ & H1 & H2). rewrite Hx in Hy. injection Hy as <-. auto.
Qed.

(** An entry is in the cohort of a waiting entry only as a member of that wait. *)
Lemma same_cohort w p x q y : struct_ok w -> waiting w p x -> q ∈ cohort x -> entries w !! q = Some y -> cohort y = cohort x /\ waitAll y = waitAll x /\ thread y = thread x /\ waiting w q y.
Proof.
  intros Hs Hp Hq Hy. destruct (waiting_cohort w p x Hs Hp) as [_ Hc]. destruct (co_members _ _ Hc q Hq) as (z & Hz & ?). pose proof Hz as [Hz' _]. rewrite Hy in Hz'. injection Hz' as <-. tauto.
Qed.

Lemma spent_waiting w w' p x' : spent w w' -> waiting w' p x' -> exists x, waiting w p x /\ plain x' = plain x.
Proof.
  intros Hs (Hx' & v' & Hv' & Hp). destruct (spent_entry_inv w w' p x' Hs Hx') as (x & Hx & E). destruct (spent_event_inv w w' _ v' Hs Hv') as (v & Hv & Ew & _).
  exists x. split; [| assumption]. split; [assumption |]. exists v. injection E as E1 _ _ _. rewrite <- E1, <- Ew. auto.
Qed.
Lemma spent_waiting_fwd w w' p x : spent w w' -> waiting w p x -> exists x', waiting w' p x' /\ plain x' = plain x.
Proof.
  intros Hs (Hx & v & Hv & Hp). destruct (spent_entry w w' p x Hs Hx) as (x' & Hx' & E). destruct (spent_event w w' _ v Hs Hv) as (v' & Hv' & Ew & _).
  exists x'. split; [| assumption]. split; [assumption |]. exists v'. injection E as E1 _ _ _. rewrite E1, Ew. auto.
Qed.

Lemma spent_cohort w w' x x' : spent w w' -> plain x' = plain x -> cohort_ok w x -> cohort_ok w' x'.
Proof.
  intros Hs E [Hsp Hm]. injection E as E1 E2 E3 E4. constructor; rewrite E3.
  - eapply spent_span; eassumption.
  - intros q Hq. destruct (Hm q Hq) as (y & Hy & H1 & H2 & H3). destruct (spent_waiting_fwd w w' q y Hs Hy) as (y' & Hy' & E'). injection E' as F1 F2 F3 F4. exists y'. split; [assumption |]. split; [congruence |]. split; congruence.
Qed.

Lemma spent_struct w w' : struct_ok w -> spent w w' -> struct_ok w'.
Proof.
  intros [Hc Hh Hl] Hs. constructor; [eapply spent_counts; eassumption | rewrite (sp_held _ _ Hs); assumption |].
  intros e v' Hv'. destruct (spent_event_inv w w' e v' Hs Hv') as (v & Hv & -> & _). destruct (Hl e v Hv) as (Hn & H0 & Hall). split; [assumption |]. split; [assumption |].
  intros p Hp. destruct (Hall p Hp) as (x & Hx & He & Hpc & Hco). destruct (spent_entry w w' p x Hs Hx) as (x' & Hx' & E). exists x'. split; [assumption |].
  pose proof E as E'. injection E' as E1 _ E3 _. split; [congruence |]. split; [congruence |]. eapply spent_cohort; eassumption.
Qed.

Lemma spent_blocked w w' : struct_ok w -> blocked w -> spent w w' -> blocked w'.
Proof.
  intros Hst Hb Hs p x' Hx' Hr. destruct (spent_waiting w w' p x' Hs Hx') as (x & Hx & E). injection E as _ _ E3 E4. rewrite E3, E4 in Hr.
  apply (Hb p x Hx). eapply spent_ready; [apply (so_counts _ Hst) | exact Hs | exact Hr].
Qed.

(** Taking locks is not seen by the rest. *)
Lemma spent_unheld w h w' : spent (set_held h w) w' -> spent w (set_held (held w) w').
Proof. intros [Hh He Hp]. constructor; [reflexivity | exact He | exact Hp]. Qed.
End Proofs.
