(* ===== verification/WaitOps.v ===== *)
(** [Signal] and [WaitMany]. *)

From S2P Require Import Prelude IntrList Wait WaitProofs.
Import Wait.

Section Ops.
Context {L : Type} `{HLaws : IntrFwdListLaws L}.
Implicit Types (w : Waits L) (es : list Z).

Lemma filter_keeps_all (P : Z -> Prop) `{!forall x, Decision (P x)} (l : list Z) : (forall x, x ∈ l -> P x) -> filter P l = l.
Proof.
  induction l as [| x l IH]; intros Ha; [reflexivity |]. rewrite filter_cons_True by (apply Ha; left). rewrite IH; [reflexivity |]. intros y Hy. apply Ha. right. assumption.
Qed.

(** ** Taking the entries of a wait out of the lists *)

Record removed es w w' : Prop := mkRemoved {
  rm_held : held w' = held w;
  rm_entries : entries w' = entries w;
  rm_events : forall e, match events w !! e, events w' !! e with
    | Some v, Some v' => signalCount v' = signalCount v /\ elements (waiters v') = filter (fun p => ~ (p ∈ es /\ event_of w p = Some e)) (elements (waiters v))
    | None, None => True
    | _, _ => False
    end
}.

Definition lists_ok w : Prop := forall e v, events w !! e = Some v -> NoDup (elements (waiters v)).

Lemma remove_all_spec es : forall w, Forall (known w) es -> lists_ok w -> exists w', remove_all es w = Ok w' /\ removed es w w'.
Proof.
  induction es as [| p es IH]; intros w Hk Hl.
  - exists w. split; [reflexivity |]. constructor; auto. intros e. destruct (events w !! e); [| exact I]. split; [reflexivity |].
    symmetry. apply filter_keeps_all. intros p _ [Hp _]. set_solver.
  - apply Forall_cons in Hk as [(x & v & Hx & Hv) Hk]. simpl. rewrite Hx. cbn [deref mbind res_bind]. rewrite Hv. cbn [deref mbind res_bind].
    set (w1 := set_events _ w). pose proof (Remove_elements p (waiters v) (Hl _ _ Hv)) as Er.
    destruct (IH w1) as (w' & E & [Hh He Hev]).
    { eapply Forall_impl; [exact Hk |]. intros q (y & u & Hy & Hu). unfold w1. destruct (decide (event x = event y)) as [Ee | Ee].
      - exists y, (set_waiters (snd (ListRemove p (waiters v))) v). split; [exact Hy |]. simpl. rewrite Ee, lookup_insert_eq. reflexivity.
      - exists y, u. split; [exact Hy |]. simpl. rewrite lookup_insert_ne by assumption. assumption. }
    { intros e u Hu. unfold w1 in Hu. simpl in Hu. apply lookup_insert_Some in Hu as [[<- <-] | [Hne Hu]]; [| eauto]. simpl. rewrite Er. apply NoDup_filter. eauto. }
    exists w'. split; [exact E |]. constructor; [exact Hh | exact He |]. intros e. specialize (Hev e). unfold w1 in Hev. simpl in Hev.
    destruct (decide (event x = e)) as [<- | Hne].
    + rewrite lookup_insert_eq in Hev. rewrite Hv. destruct (events w' !! event x) as [v' |]; [| contradiction]. destruct Hev as [Hc Hev]. split; [exact Hc |].
      rewrite Hev. simpl. rewrite Er, list_filter_filter. apply list_filter_iff. intros q. change (event_of (set_events _ w) q) with (event_of w q).
      split; [intros [H1 H2] [Hq H3]; apply elem_of_cons in Hq as [-> | Hq]; [contradiction | auto] |].
      intros Hn. split; [intros [Hq H3]; apply Hn; split; [right |]; assumption |]. intros ->. apply Hn. split; [left |]. unfold event_of. rewrite Hx. reflexivity.
    + rewrite lookup_insert_ne in Hev by assumption. destruct (events w !! e) as [u |], (events w' !! e) as [v' |]; try assumption. destruct Hev as [Hc Hev]. split; [exact Hc |].
      rewrite Hev. apply list_filter_iff. intros q. change (event_of (set_events _ w) q) with (event_of w q).
      split; intros Hn [Hq H3]; apply Hn; (split; [| assumption]); [| right; assumption]. apply elem_of_cons in Hq as [-> | Hq]; [| assumption].
      exfalso. unfold event_of in H3. rewrite Hx in H3. injection H3 as H3. contradiction.
Qed.

Lemma waiting_event w p x : waiting w p x -> event_of w p = Some (event x).
Proof. intros [Hx _]. unfold event_of. rewrite Hx. reflexivity. Qed.

Lemma removed_cnt es w w' p : removed es w w' -> cnt w' p = cnt w p.
Proof.
  intros [_ He Hev]. unfold cnt, event_of. rewrite He. destruct (entries w !! p) as [x |]; [| reflexivity]. simpl. specialize (Hev (event x)).
  destruct (events w !! event x), (events w' !! event x); try contradiction; [| reflexivity]. destruct Hev as [E _]. simpl. assumption.
Qed.

Lemma removed_ready es w w' es' all : removed es w w' -> ready w' es' all -> ready w es' all.
Proof. intros Hr. unfold ready. destruct all; [intros Ha p Hp; specialize (Ha p Hp) | intros (p & Hp & Ha); exists p; split; [assumption |]]; rewrite (removed_cnt es w w' p Hr) in Ha; assumption. Qed.

Lemma removed_waiting es w w' q y : removed es w w' -> waiting w' q y <-> waiting w q y /\ q ∉ es.
Proof.
  intros [_ He Hev]. unfold waiting. rewrite He. specialize (Hev (event y)). split.
  - intros (Hy & v' & Hv' & Hq). rewrite Hv' in Hev. destruct (events w !! event y) as [v |] eqn:Hv; [| contradiction]. destruct Hev as [_ E]. rewrite E in Hq.
    apply list_elem_of_filter in Hq as [Hn Hq]. split; [eauto |]. intros Hin. apply Hn. split; [assumption |]. unfold event_of. rewrite Hy. reflexivity.
  - intros [(Hy & v & Hv & Hq) Hn]. rewrite Hv in Hev. destruct (events w' !! event y) as [v' |]; [| contradiction]. destruct Hev as [_ E]. split; [assumption |]. exists v'. split; [reflexivity |].
    rewrite E. apply list_elem_of_filter. split; [| assumption]. intros [Hin _]. contradiction.
Qed.

Lemma removed_known es w w' p : removed es w w' -> known w p -> known w' p.
Proof. intros [_ He Hev] (x & v & Hx & Hv). specialize (Hev (event x)). rewrite Hv in Hev. destruct (events w' !! event x) eqn:E; [| contradiction]. exists x. rewrite He. eauto. Qed.

Lemma removed_span es w w' l : removed es w w' -> span_ok w l -> span_ok w' l.
Proof.
  intros Hr (Hk & Hn & Hd). split; [eapply Forall_impl; [exact Hk |]; intros p; eapply removed_known; eassumption |]. split; [assumption |].
  unfold event_of. rewrite (rm_entries _ _ _ Hr). exact Hd.
Qed.

(** Taking out a whole wait leaves the others whole. *)
Lemma removed_struct w w' p x : struct_ok w -> waiting w p x -> removed (cohort x) w w' -> struct_ok w'.
Proof.
  intros Hst Hp Hr. pose proof Hst as [Hc Hh Hl]. constructor.
  - intros e v' Hv'. pose proof (rm_events _ _ _ Hr e) as Hev. rewrite Hv' in Hev. destruct (events w !! e) as [v |] eqn:Hv; [| contradiction]. destruct Hev as [-> _]. eauto.
  - rewrite (rm_held _ _ _ Hr). assumption.
  - intros e v' Hv'. pose proof (rm_events _ _ _ Hr e) as Hev. rewrite Hv' in Hev. destruct (events w !! e) as [v |] eqn:Hv; [| contradiction]. destruct Hev as [_ E].
    destruct (Hl e v Hv) as (Hn & H0 & Hall). rewrite E. split; [apply NoDup_filter; assumption |]. split; [intros Hz; apply list_elem_of_filter in Hz as [_ Hz]; contradiction |].
    intros q Hq. apply list_elem_of_filter in Hq as [Hnq Hq]. destruct (Hall q Hq) as (y & Hy & <- & Hqc & [Hsp Hm]). exists y. rewrite (rm_entries _ _ _ Hr). split; [assumption |]. split; [reflexivity |]. split; [assumption |].
    assert (Hqn : q ∉ cohort x) by (intros Hin; apply Hnq; split; [assumption | unfold event_of; rewrite Hy; reflexivity]).
    constructor; [eapply removed_span; eassumption |]. intros r Hrc. destruct (Hm r Hrc) as (z & Hz & Ez & ?). exists z. split; [| auto]. apply (removed_waiting (cohort x) w w' r z Hr). split; [assumption |].
    intros Hrx. destruct (same_cohort w p x r z Hst Hp Hrx (proj1 Hz)) as (E' & _). apply Hqn. rewrite <- E', Ez. assumption.
Qed.

(** ** The loop of [Signal] *)

Context {S : Type} `{HCalls : SchedCalls S}.
Variable removed_next : Z -> L -> Z.
Hypothesis removed_keeps_next : forall p l, removed_next p l = following p (elements l).

(** The scheduler can queue the thread. *)
Variable serves : S -> Z -> Prop.
Hypothesis enqueue_serves : forall s t, serves s t -> exists s', sc_enqueue t s = Ok s' /\ forall t', serves s t' -> serves s' t'.

Fixpoint enqueue_all (ts : list Z) (s : S) : res S := match ts with [] => Ok s | t :: ts => s ← sc_enqueue t s; enqueue_all ts s end.

Definition thread_of w (p : Z) : option Z := thread <$> entries w !! p.
Definition all_served w (s : S) : Prop := forall p x, waiting w p x -> serves s (thread x).

(** While [e] is being signalled only waits with an entry in [rest] may be ready. *)
Definition almost w (e : Z) (rest : list Z) : Prop := forall p x, waiting w p x ->
  ~ ready w (cohort x) (waitAll x) \/
  (exists q, q ∈ cohort x /\ q ∈ rest) /\ (waitAll x = false -> forall q, q ∈ cohort x -> event_of w q <> Some e -> cnt w q = 0).

Lemma almost_end w e : almost w e [] -> blocked w.
Proof. intros Ha p x Hp. destruct (Ha p x Hp) as [Hn | [(q & _ & Hq) _]]; [assumption | set_solver]. Qed.

Lemma almost_stop w e rest v : almost w e rest -> events w !! e = Some v -> signalCount v = 0 -> (forall q, q ∈ rest -> event_of w q = Some e) -> blocked w.
Proof.
  intros Ha Hv H0 Hrest p x Hp Hr. destruct (Ha p x Hp) as [Hn | [(q & Hqc & Hq) Hother]]; [contradiction |].
  assert (Hz : forall r, event_of w r = Some e -> cnt w r = 0) by (intros r E; unfold cnt; rewrite E; simpl; rewrite Hv; assumption).
  unfold ready in Hr. destruct (waitAll x).
  - specialize (Hr q Hqc). rewrite (Hz q (Hrest q Hq)) in Hr. lia.
  - destruct Hr as (r & Hrc & Hpos). destruct (decide (event_of w r = Some e)) as [E | E]; [rewrite (Hz r E) in Hpos | rewrite (Hother eq_refl r Hrc E) in Hpos]; lia.
Qed.

Lemma spent_almost w w' e rest : struct_ok w -> almost w e rest -> spent w w' -> almost w' e rest.
Proof.
  intros Hst Ha Hs p x' Hp. destruct (spent_waiting w w' p x' Hs Hp) as (x & Hx & E). injection E as _ _ E3 E4. rewrite E3, E4. pose proof (so_counts _ Hst) as Hc.
  destruct (Ha p x Hx) as [Hn | [Hq Ho]]; [left; intros Hr; apply Hn; eapply spent_ready; eassumption | right]. split; [assumption |]. intros Hf q Hqc Hne.
  rewrite (spent_event_of w w' q Hs) in Hne. specialize (Ho Hf q Hqc Hne). pose proof (spent_cnt w w' q Hc Hs). lia.
Qed.

Lemma removed_almost es w w' e rest : almost w e rest -> removed es w w' -> almost w' e rest.
Proof.
  intros Ha Hr p x Hp. apply (removed_waiting es w w' p x Hr) in Hp as [Hp _]. destruct (Ha p x Hp) as [Hn | [Hq Ho]]; [left; intros Hr'; apply Hn; eapply removed_ready; eassumption | right].
  split; [assumption |]. intros Hf q Hqc Hne. rewrite (removed_cnt es w w' q Hr). apply Ho; auto. unfold event_of in *. rewrite (rm_entries _ _ _ Hr) in Hne. assumption.
Qed.

(** The waiter [p] has been dealt with. *)
Lemma almost_next w e p rest : struct_ok w -> almost w e (p :: rest) -> (forall x, waiting w p x -> ~ ready w (cohort x) (waitAll x)) -> almost w e rest.
Proof.
  intros Hst Ha Hp q y Hq. destruct (Ha q y Hq) as [Hn | [(r & Hrc & Hr) Ho]]; [left; assumption |]. apply elem_of_cons in Hr as [-> | Hr]; [left | right; eauto].
  destruct (waiting_cohort w q y Hst Hq) as [_ Hco]. destruct (co_members _ _ Hco p Hrc) as (x & Hx & E1 & E2 & _). rewrite <- E1, <- E2. auto.
Qed.

Lemma struct_lists w : struct_ok w -> lists_ok w.
Proof. intros Hst e v Hv. apply (so_list _ Hst e v Hv). Qed.

Lemma spent_lists w w' : lists_ok w -> spent w w' -> lists_ok w'.
Proof. intros Hl Hs e v' Hv'. destruct (spent_event_inv w w' e v' Hs Hv') as (v & Hv & -> & _). eauto. Qed.

Lemma unheld_id w : held w = ∅ -> set_held ∅ w = w.
Proof. destruct w; simpl; intros ->; reflexivity. Qed.

(** What a visit to a waiter does. *)
Inductive visited w (x : WaitEntry) (s : S) (woke : Z) : Waits L -> S -> Z -> Prop :=
| visit_waits : ~ ready w (cohort x) (waitAll x) -> visited w x s woke w s woke
| visit_wakes wm w' s' : spent w wm -> removed (cohort x) wm w' -> sc_enqueue (thread x) s = Ok s' -> visited w x s woke w' s' (u64 (woke + 1)).

Lemma visit_spec w e p x woke (s : S) : struct_ok w -> waiting w p x -> event x = e -> serves s (thread x) ->
  exists v w' s' woke', visit e p woke w s = Ok (signalCount v, woke', w', s') /\ events w' !! e = Some v /\ visited w x s woke w' s' woke'.
Proof.
  intros Hst Hp He Hsv. destruct (waiting_cohort w p x Hst Hp) as [_ [Hsp _]]. pose proof Hp as (Hx & ve & Hve & _). pose proof (so_held _ Hst) as Hh. pose proof (so_counts _ Hst) as Hc.
  unfold visit. rewrite Hx. cbn [deref mbind res_bind]. rewrite (LockAll_spec (cohort x) w Hsp) by set_solver. cbn [mbind res_bind].
  set (w1 := set_held _ w). assert (Hsp1 : span_ok w1 (cohort x)) by exact Hsp. assert (Hc1 : counts_ok w1) by exact Hc.
  destruct (TryFinish_spec (cohort x) (waitAll x) w1 Hsp1 Hc1) as (b & w2 & -> & Hs & Hb & Hfalse). cbn [mbind res_bind].
  assert (Hh2 : held w2 = evset w (cohort x)) by (rewrite (sp_held _ _ Hs); simpl; set_solver). assert (He2 : evset w2 (cohort x) = evset w (cohort x)).
  { apply set_eq. intros a. rewrite !elem_evset. setoid_rewrite (spent_event_of w1 w2 _ Hs). reflexivity. }
  assert (Hk2 : Forall (known w2) (cohort x)) by (eapply Forall_impl; [apply Hsp1 |]; intros q; apply spent_known; assumption).
  destruct b.
  - destruct (remove_all_spec (cohort x) w2 Hk2) as (w3 & -> & Hr); [apply (spent_lists w1 w2); [exact (struct_lists w Hst) | exact Hs] |]. cbn [mbind res_bind].
    destruct (enqueue_serves s (thread x) Hsv) as (s' & Eq & _). rewrite Eq. cbn [mbind res_bind].
    rewrite UnlockAll_spec by (eapply Forall_impl; [exact Hk2 |]; intros q; eapply removed_known; exact Hr). cbn [mbind res_bind].
    assert (Hz : held w3 ∖ evset w3 (cohort x) = ∅).
    { rewrite (rm_held _ _ _ Hr), Hh2. replace (evset w3 (cohort x)) with (evset w2 (cohort x)) by (unfold evset, event_of; rewrite (rm_entries _ _ _ Hr); reflexivity). rewrite He2. set_solver. }
    rewrite Hz. unfold Lock. rewrite decide_False by set_solver. cbn [mbind res_bind].
    pose proof (spent_event w1 w2 e ve Hs ltac:(subst e; exact Hve)) as (v2 & Hv2 & _). pose proof (rm_events _ _ _ Hr e) as Hev. rewrite Hv2 in Hev.
    destruct (events w3 !! e) as [v3 |] eqn:Hv3; [| contradiction]. simpl. rewrite Hv3. cbn [deref mbind res_bind].
    exists v3, (set_held ∅ w3), s', (u64 (woke + 1)). split; [do 3 f_equal; unfold Unlock; simpl; unfold set_held; simpl; f_equal; set_solver |]. split; [exact Hv3 |].
    apply (visit_wakes _ _ _ _ (set_held ∅ w2)); [rewrite <- Hh; apply spent_unheld with (h := evset w (cohort x) ∪ held w); exact Hs | | exact Eq].
    destruct Hr as [R1 R2 R3]. constructor; [reflexivity | exact R2 | exact R3].
  - rewrite (Hfalse eq_refl) in *. cbn [mbind res_bind]. rewrite UnlockAll_spec by exact Hk2. cbn [mbind res_bind]. rewrite Hh2, He2. rewrite difference_diag_L. unfold Lock.
    rewrite decide_False by set_solver. simpl. subst e. rewrite Hve. cbn [deref mbind res_bind].
    exists ve, w, s, woke. split; [| split; [exact Hve | constructor; intros Hrd; apply Hb in Hrd; discriminate]].
    do 3 f_equal. unfold Unlock, set_held. simpl. rewrite <- (unheld_id w Hh) at 3. unfold set_held. f_equal. set_solver.
Qed.

(** The entry is in the list of some event. *)
Definition waits w (p : Z) : Prop := exists x, waiting w p x.
Definition in_cohort w (ps : list Z) (q : Z) : Prop := exists p x, p ∈ ps /\ entries w !! p = Some x /\ q ∈ cohort x.

Lemma following_head p l1 l2 : NoDup (l1 ++ p :: l2) -> following p (l1 ++ p :: l2) = default 0 (head l2).
Proof. intros Hn. apply (list_remove_following p _ l1 l2 Hn eq_refl). Qed.

Lemma list_events w e v : struct_ok w -> events w !! e = Some v -> forall q, q ∈ elements (waiters v) -> event_of w q = Some e.
Proof. intros Hst Hv q Hq. destruct (so_list _ Hst e v Hv) as (_ & _ & Hall). destruct (Hall q Hq) as (x & Hx & <- & _). unfold event_of. rewrite Hx. reflexivity. Qed.

(** Of the list of an event a wait has one entry at most. *)
Lemma removed_one w wm w' p x e v kept rest : struct_ok w -> waiting w p x -> event x = e -> events w !! e = Some v -> elements (waiters v) = kept ++ p :: rest ->
  spent w wm -> removed (cohort x) wm w' -> exists v', events w' !! e = Some v' /\ elements (waiters v') = kept ++ rest.
Proof.
  intros Hst Hp He Hv El Hs Hr. destruct (spent_event w wm e v Hs Hv) as (vm & Hvm & Ew & _). pose proof (rm_events _ _ _ Hr e) as Hev. rewrite Hvm in Hev.
  destruct (events w' !! e) as [v' |]; [| contradiction]. destruct Hev as [_ E]. exists v'. split; [reflexivity |]. rewrite E, Ew, El.
  destruct (waiting_cohort w p x Hst Hp) as [Hpc [(_ & _ & Hd) _]]. pose proof (list_events w e v Hst Hv) as Hle. rewrite El in Hle.
  destruct (so_list _ Hst e v Hv) as (Hn & _). rewrite El in Hn. apply NoDup_app in Hn as (_ & Hn1 & Hn2). apply NoDup_cons in Hn2 as [Hn2 _].
  assert (Hkeep : forall q, q ∈ kept ++ p :: rest -> q <> p -> ~ (q ∈ cohort x /\ event_of wm q = Some e)).
  { intros q Hq Hne [Hqc _]. apply Hne. apply (Hd q p Hqc Hpc). rewrite (Hle q Hq). symmetry. apply Hle. set_solver. }
  rewrite filter_app, filter_cons_False.
  - rewrite !filter_keeps_all; [reflexivity | |]; intros q Hq; apply Hkeep; try (intros ->; set_solver); set_solver.
  - intros Hf. apply Hf. split; [assumption |]. rewrite (spent_event_of w wm p Hs). apply Hle. set_solver.
Qed.

Lemma wakes_waits w wm w' x q : spent w wm -> removed (cohort x) wm w' -> waits w' q <-> waits w q /\ q ∉ cohort x.
Proof.
  intros Hs Hr. unfold waits. split.
  - intros (y & Hy). apply (removed_waiting _ _ _ _ _ Hr) in Hy as [Hy Hn]. destruct (spent_waiting w wm q y Hs Hy) as (z & Hz & _). eauto.
  - intros [(y & Hy) Hn]. destruct (spent_waiting_fwd w wm q y Hs Hy) as (z & Hz & _). exists z. apply (removed_waiting _ _ _ _ _ Hr). auto.
Qed.

(** The entries keep their threads and cohorts. *)
Lemma wakes_entries w wm w' es : spent w wm -> removed es wm w' -> forall p, plain <$> entries w' !! p = plain <$> entries w !! p.
Proof. intros Hs Hr p. rewrite (rm_entries _ _ _ Hr). apply (sp_entries _ _ Hs). Qed.

Lemma same_thread w w' p : plain <$> entries w' !! p = plain <$> entries w !! p -> thread_of w' p = thread_of w p.
Proof. unfold thread_of. destruct (entries w' !! p), (entries w !! p); simpl; intros E; try congruence. injection E as _ E _ _. congruence. Qed.

Lemma same_in_cohort w w' ps q : (forall p, plain <$> entries w' !! p = plain <$> entries w !! p) -> in_cohort w' ps q <-> in_cohort w ps q.
Proof.
  intros E. unfold in_cohort. split; intros (p & x & Hp & Hx & Hq); specialize (E p); rewrite Hx in E; simpl in E; [symmetry in E |];
    apply fmap_Some in E as (y & Hy & Ey); exists p, y; (split; [assumption |]); (split; [assumption |]); injection Ey as _ _ Ey _; congruence.
Qed.

Lemma signal_loop_spec e fuel : forall kept rest woke w (s : S) v,
  struct_ok w -> almost w e rest -> events w !! e = Some v -> elements (waiters v) = kept ++ rest -> (length rest <= fuel)%nat -> 0 <= woke < two64 -> all_served w s ->
  exists ps w' s', signal_loop removed_next fuel e (default 0 (head rest)) woke w s = Ok (u64 (woke + Z.of_nat (length ps)), w', s') /\ waits_ok w' /\
    sublist ps rest /\ enqueue_all (omap (thread_of w) ps) s = Ok s' /\ forall q, waits w' q <-> waits w q /\ ~ in_cohort w ps q.
Proof.
  induction fuel as [| fuel IH]; intros kept rest woke w s v Hst Ha Hv El Hlen Hw Hsv.
  all: assert (Hnone : forall q, ~ in_cohort w [] q) by (intros q (p & x & Hp & _); set_solver).
  all: destruct rest as [| p rest]; [exists [], w, s; simpl length; rewrite Z.add_0_r, u64_small by assumption;
    (split; [reflexivity |]; split; [split; [assumption | eapply almost_end; exact Ha] |]; split; [constructor |]; split; [reflexivity |]; intros q; specialize (Hnone q); tauto) |].
  { simpl in Hlen. lia. }
  destruct (so_list _ Hst e v Hv) as (Hnd & H0 & Hall). rewrite El in Hnd, H0, Hall. destruct (Hall p ltac:(set_solver)) as (x & Hx & He & Hpc & Hco).
  assert (Hp : waiting w p x) by (split; [assumption |]; exists v; rewrite He, El; split; [assumption | set_solver]).
  destruct (visit_spec w e p x woke s Hst Hp He (Hsv p x Hp)) as (v1 & w1 & s1 & woke1 & E & Hv1 & Hvis).
  change (default 0 (head (p :: rest))) with p. cbn [signal_loop]. rewrite (proj2 (Z.eqb_neq p 0)) by (intros ->; set_solver). rewrite E. cbn [mbind res_bind].
  destruct Hvis as [Hnr | wm w' s' Hs Hr Eq].
  - rewrite Hv in Hv1. injection Hv1 as <-. assert (Ha' : almost w e rest).
    { apply (almost_next w e p rest Hst Ha). intros y [Hy _]. rewrite Hx in Hy. injection Hy as <-. assumption. }
    destruct (Z.eqb_spec (signalCount v) 0) as [Ez | Ez].
    + exists [], w, s. simpl length. rewrite Z.add_0_r, u64_small by assumption. split; [reflexivity |]. split; [split; [assumption |] |].
      { eapply almost_stop; [exact Ha' | exact Hv | exact Ez |]. intros q Hq. eapply list_events; [exact Hst | exact Hv | rewrite El; set_solver]. }
      split; [apply sublist_nil_l |]. split; [reflexivity |]. intros q. specialize (Hnone q). tauto.
    + unfold next_waiter. rewrite Hv. cbn [deref mbind res_bind]. rewrite decide_True by (rewrite El; set_solver). rewrite El, following_head by assumption.
      destruct (IH (kept ++ [p]) rest woke w s v Hst Ha' Hv) as (ps & w' & s' & E' & Hok & Hsub & Henq & Hwt); [rewrite <- app_assoc; exact El | simpl in Hlen; lia | assumption .. |].
      exists ps, w', s'. split; [exact E' |]. split; [assumption |]. split; [apply sublist_cons; assumption |]. auto.
  - assert (Hst' : struct_ok w').
    { destruct (spent_waiting_fwd w wm p x Hs Hp) as (xm & Hxm & Exm). injection Exm as _ _ Exm _. apply (removed_struct wm w' p xm (spent_struct w wm Hst Hs) Hxm). rewrite Exm. exact Hr. }
    destruct (removed_one w wm w' p x e v kept rest Hst Hp He Hv El Hs Hr) as (v' & Hv' & El'). rewrite Hv' in Hv1. injection Hv1 as <-.
    pose proof (wakes_entries w wm w' _ Hs Hr) as Hent. pose proof (wakes_waits w wm w' x) as Hww.
    assert (Ha' : almost w' e rest).
    { apply (almost_next w' e p rest Hst'); [eapply removed_almost; [exact (spent_almost w wm e (p :: rest) Hst Ha Hs) | exact Hr] |]. intros y Hy. apply (removed_waiting _ _ _ _ _ Hr) in Hy as [_ Hn]. contradiction. }
    assert (Hw1 : 0 <= u64 (woke + 1) < two64) by apply u64_range.
    assert (Hone : forall q, in_cohort w [p] q <-> q ∈ cohort x).
    { intros q. split; [intros (r & y & Hr' & Hy & Hq); apply list_elem_of_singleton in Hr' as ->; congruence | intros Hq; exists p, x; split; [left | auto]]. }
    destruct (Z.eqb_spec (signalCount v') 0) as [Ez | Ez].
    + exists [p], w', s'. split; [reflexivity |]. split; [split; [assumption |] |].
      { eapply almost_stop; [exact Ha' | exact Hv' | exact Ez |]. intros q Hq. eapply list_events; [exact Hst' | exact Hv' | rewrite El'; set_solver]. }
      split; [apply sublist_skip, sublist_nil_l |]. split; [simpl; unfold thread_of; rewrite Hx; simpl; rewrite Eq; reflexivity |].
      intros q. rewrite (Hww q Hs Hr), Hone. reflexivity.
    + unfold next_waiter. rewrite Hv, Hv'. cbn [deref mbind res_bind].
      assert (Hpn : p ∉ kept ++ rest) by (apply NoDup_app in Hnd as (_ & Hn1 & Hn2); apply NoDup_cons in Hn2 as [Hn2 _]; specialize (Hn1 p); set_solver).
      rewrite decide_False by (rewrite El'; assumption). rewrite removed_keeps_next, El, following_head by assumption.
      destruct (IH kept rest (u64 (woke + 1)) w' s' v' Hst' Ha' Hv' El') as (ps & w2 & s2 & E' & Hok & Hsub & Henq & Hwt); [simpl in Hlen; lia | assumption | |].
      { intros q y Hq. apply (removed_waiting _ _ _ _ _ Hr) in Hq as [Hq _]. destruct (spent_waiting w wm q y Hs Hq) as (z & Hz & Ez'). injection Ez' as _ Ez' _ _. rewrite Ez'.
        destruct (enqueue_serves s (thread x) (Hsv p x Hp)) as (s3 & Es & Hkeep). rewrite Eq in Es. injection Es as <-. apply Hkeep. eauto. }
      exists (p :: ps), w2, s2. split; [rewrite E'; do 3 f_equal; simpl length; width_lia |]. split; [assumption |]. split; [apply sublist_skip; assumption |].
      split.
      { simpl. unfold thread_of at 1. rewrite Hx. simpl. rewrite Eq. cbn [mbind res_bind]. rewrite <- Henq. f_equal. apply list_omap_ext. apply Forall_Forall2_diag, Forall_forall.
        intros q _. symmetry. apply same_thread, Hent. }
      intros q. rewrite Hwt, (Hww q Hs Hr), (same_in_cohort w w' ps q Hent), <- Hone. unfold in_cohort. split.
      * intros [[Hq Hn] Hn2]. split; [assumption |]. intros (r & y & Hin & Hy & Hyq). apply elem_of_cons in Hin as [-> | Hin]; [apply Hn; exists p, y; split; [left | auto] | apply Hn2; exists r, y; auto].
      * intros [Hq Hn]. split; [split; [assumption |] |]; intros (r & y & Hin & Hy & Hyq); apply Hn; exists r, y; (split; [set_solver | auto]).
Qed.
End Ops.
