(* ===== verification/WaitMany.v ===== *)
(** [Signal] from its start, and [WaitMany]. *)

From S2P Require Import Prelude IntrList Wait WaitProofs WaitOps.
Import Wait.

Section Calls.
Context {L : Type} `{HLaws : IntrFwdListLaws L}.
Implicit Types (w : Waits L) (es evs : list Z).

(** ** The signal itself *)

Lemma cnt_nonneg w p : counts_ok w -> 0 <= cnt w p.
Proof.
  intros Hc. unfold cnt. destruct (event_of w p) as [e |]; simpl; [| lia]. destruct (events w !! e) as [v |] eqn:Hv; simpl; [| lia]. apply (Hc _ _ Hv).
Qed.

Definition add_signals (e n : Z) (v : Waitable L) w : Waits L := set_events (<[e := set_count (signalCount v + n) v]> (events w)) w.

Lemma add_cnt e n v w p : event_of w p <> Some e -> cnt (add_signals e n v w) p = cnt w p.
Proof.
  intros Hne. unfold cnt. change (event_of (add_signals e n v w) p) with (event_of w p). destruct (event_of w p) as [a |]; [| reflexivity]. simpl.
  rewrite lookup_insert_ne by congruence. reflexivity.
Qed.

Lemma add_waiting e n v w p x : events w !! e = Some v -> waiting (add_signals e n v w) p x <-> waiting w p x.
Proof.
  intros Hv. unfold waiting. simpl. split; intros (Hx & u & Hu & Hp); (split; [assumption |]).
  - apply lookup_insert_Some in Hu as [[<- <-] | [_ Hu]]; eauto.
  - destruct (decide (e = event x)) as [E | Hne]; [rewrite <- E in *; rewrite lookup_insert_eq; eexists; (split; [reflexivity |]); simpl; congruence | rewrite lookup_insert_ne by assumption; eauto].
Qed.

Lemma add_struct e n v w : struct_ok w -> events w !! e = Some v -> 0 <= n -> signalCount v + n < two64 -> struct_ok (add_signals e n v w).
Proof.
  intros [Hc Hh Hl] Hv Hn Hmax. pose proof (Hc _ _ Hv) as Hr. constructor.
  - intros a u Hu. simpl in Hu. apply lookup_insert_Some in Hu as [[<- <-] | [_ Hu]]; [simpl; rewrite u64_small; lia | eauto].
  - exact Hh.
  - intros a u Hu. assert (Hw : exists u0, events w !! a = Some u0 /\ waiters u0 = waiters u) by (simpl in Hu; apply lookup_insert_Some in Hu as [[<- <-] | [_ Hu]]; eauto).
    destruct Hw as (u0 & Hu0 & <-). destruct (Hl a u0 Hu0) as (H1 & H2 & Hall). split; [assumption |]. split; [assumption |]. intros p Hp. destruct (Hall p Hp) as (x & Hx & Ha & Hpc & [(Hk & Hsp) Hm]).
    exists x. split; [exact Hx |]. split; [assumption |]. split; [assumption |]. constructor.
    + split; [| exact Hsp]. eapply Forall_impl; [exact Hk |]. intros q (y & z & Hy & Hz). destruct (decide (e = event y)) as [E | E].
      * exists y. eexists. split; [exact Hy |]. simpl. rewrite <- E, lookup_insert_eq. reflexivity.
      * exists y, z. split; [exact Hy |]. simpl. rewrite lookup_insert_ne by assumption. assumption.
    + intros q Hq. destruct (Hm q Hq) as (y & Hy & ?). exists y. split; [apply add_waiting; assumption | assumption].
Qed.

Lemma add_almost e n v w : waits_ok w -> events w !! e = Some v -> almost (add_signals e n v w) e (elements (waiters v)).
Proof.
  intros [Hst Hb] Hv p x Hp. apply (add_waiting e n v w p x Hv) in Hp. pose proof (Hb p x Hp) as Hnr. destruct (waiting_cohort w p x Hst Hp) as [_ Hco]. pose proof (so_counts _ Hst) as Hc.
  destruct (decide (Exists (fun q => event_of w q = Some e) (cohort x))) as [He | He].
  - right. apply Exists_exists in He as (q & Hq & Eq). split.
    + exists q. split; [assumption |]. destruct (co_members _ _ Hco q Hq) as (y & Hy & _). rewrite (waiting_event w q y Hy) in Eq. injection Eq as Eq. destruct Hy as (_ & u & Hu & Hin). congruence.
    + intros Hany r Hr Hne. change (event_of (add_signals e n v w) r) with (event_of w r) in Hne. rewrite add_cnt by assumption.
      destruct (Z.eq_dec (cnt w r) 0) as [E | E]; [assumption |]. exfalso. apply Hnr. rewrite Hany. exists r. pose proof (cnt_nonneg w r Hc). split; [assumption | lia].
  - left. intros Hr. apply Hnr. assert (Hsame : forall q, q ∈ cohort x -> cnt (add_signals e n v w) q = cnt w q).
    { intros q Hq. apply add_cnt. intros E. apply He, Exists_exists. eauto. }
    unfold ready in *. destruct (waitAll x); [intros q Hq; rewrite <- (Hsame q Hq); auto |]. destruct Hr as (q & Hq & Hpos). exists q. rewrite <- (Hsame q Hq). auto.
Qed.

Context {S : Type} `{HCalls : SchedCalls S}.
Variable removed_next : Z -> L -> Z.
Hypothesis removed_keeps_next : forall p l, removed_next p l = following p (elements l).
Variable serves : S -> Z -> Prop.
Hypothesis enqueue_serves : forall s t, serves s t -> exists s', sc_enqueue t s = Ok s' /\ forall t', serves s t' -> serves s' t'.

Lemma Signal_spec c e n w (s s1 : S) prev v :
  waits_ok w -> e <> 0 -> events w !! e = Some v -> 0 <= n -> signalCount v + n < two64 -> sc_ensure c s = Ok (prev, s1) -> all_served serves w s1 ->
  exists ps w' s', Signal removed_next c e n w s = (s2 ← lower_to c prev s'; Ok (u64 (Z.of_nat (length ps)), w', s2)) /\ waits_ok w' /\
    sublist ps (elements (waiters v)) /\ enqueue_all (omap (thread_of w) ps) s1 = Ok s' /\ forall q, waits w' q <-> waits w q /\ ~ in_cohort w ps q.
Proof.
  intros [Hst Hb] He Hv Hn Hmax Hens Hsv. unfold Signal. rewrite (proj2 (Z.eqb_neq e 0) He). cbn [negb assert_ mbind res_bind]. rewrite Hens. cbn [mbind res_bind].
  unfold Lock. rewrite decide_False by (rewrite (so_held _ Hst); set_solver). cbn [mbind res_bind]. simpl. rewrite Hv. cbn [deref mbind res_bind].
  assert (E1 : Unlock e (set_events (<[e := set_count (signalCount v + n) v]> (events w)) (set_held ({[e]} ∪ held w) w)) = add_signals e n v w).
  { unfold Unlock, add_signals, set_events, set_held. simpl. f_equal. rewrite (so_held _ Hst). set_solver. }
  rewrite E1. assert (Hv1 : events (add_signals e n v w) !! e = Some (set_count (signalCount v + n) v)) by apply lookup_insert_eq.
  destruct (signal_loop_spec removed_next removed_keeps_next serves enqueue_serves e (length (elements (waiters v))) [] (elements (waiters v)) 0 (add_signals e n v w) s1 _
    (add_struct e n v w Hst Hv Hn Hmax) (add_almost e n v w (conj Hst Hb) Hv) Hv1 eq_refl ltac:(lia) ltac:(unfold two64; lia)) as (ps & w' & s' & -> & Hok & Hsub & Henq & Hwt).
  { intros p x Hp. apply (add_waiting e n v w p x Hv) in Hp. eauto. }
  cbn [mbind res_bind]. exists ps, w', s'. split; [reflexivity |]. split; [assumption |]. split; [assumption |]. split; [exact Henq |].
  intros q. rewrite Hwt. unfold waits. setoid_rewrite (add_waiting e n v w q _ Hv). reflexivity.
Qed.
End Calls.

(** ** Preparing the entries *)

Section Blocking.
Context {L : Type} `{HLaws : IntrFwdListLaws L}.
Implicit Types (w : Waits L) (es evs : list Z).

Definition pairs evs es (e p : Z) : Prop := exists i, evs !! i = Some e /\ es !! i = Some p.

Lemma pairs_cons e evs p es a q : pairs (e :: evs) (p :: es) a q <-> (a = e /\ q = p) \/ pairs evs es a q.
Proof.
  split; [intros ([| i] & H1 & H2); [left; simpl in *; split; congruence | right; exists i; auto] |]. intros [[-> ->] | (i & H1 & H2)]; [exists 0%nat | exists (S i)]; auto.
Qed.

Lemma pairs_elem evs es e p : pairs evs es e p -> e ∈ evs /\ p ∈ es.
Proof. intros (i & H1 & H2). eauto using list_elem_of_lookup_2. Qed.

Lemma pairs_entry evs es p : length evs = length es -> p ∈ es -> exists e, pairs evs es e p.
Proof.
  intros Hlen Hp. apply list_elem_of_lookup_1 in Hp as [i Hi]. destruct (lookup_lt_is_Some_2 evs i) as [e He]; [rewrite Hlen; eauto using lookup_lt_Some |]. exists e, i. auto.
Qed.

Lemma setup_spec t whole all evs : forall es w, length evs = length es -> NoDup es ->
  events (setup evs es t whole all w) = events w /\ held (setup evs es t whole all w) = held w /\
  (forall e p, pairs evs es e p -> entries (setup evs es t whole all w) !! p = Some (mkEntry e t whole false all)) /\
  (forall p, (p ∉ es) -> entries (setup evs es t whole all w) !! p = entries w !! p).
Proof.
  induction evs as [| e evs IH]; intros [| p es] w Hlen Hn; try discriminate; [simpl; repeat split; auto; intros e p ([] & ? & ?); discriminate |].
  injection Hlen as Hlen. apply NoDup_cons in Hn as [Hp Hn]. simpl. destruct (IH es (set_entries (<[p := mkEntry e t whole false all]> (entries w)) w) Hlen Hn) as (H1 & H2 & H3 & H4).
  split; [exact H1 |]. split; [exact H2 |]. split.
  - intros a q Hq. apply pairs_cons in Hq as [[-> ->] | Hq]; [| auto]. rewrite H4 by assumption. simpl. apply lookup_insert_eq.
  - intros q Hq. rewrite H4 by set_solver. simpl. apply lookup_insert_ne. set_solver.
Qed.

Lemma enlist_spec evs : forall es w, length evs = length es -> NoDup evs -> NoDup es -> (forall e, e ∈ evs -> is_Some (events w !! e)) ->
  (forall p e v, p ∈ es -> events w !! e = Some v -> p ∉ elements (waiters v)) ->
  exists w', enlist evs es w = Ok w' /\ entries w' = entries w /\ held w' = held w /\
    (forall e, (e ∉ evs) -> events w' !! e = events w !! e) /\
    (forall e p v, pairs evs es e p -> events w !! e = Some v -> exists v', events w' !! e = Some v' /\ signalCount v' = signalCount v /\ elements (waiters v') = elements (waiters v) ++ [p]).
Proof.
  induction evs as [| e evs IH]; intros [| p es] w Hlen Hn Hnp Hk Hf; try discriminate; [exists w; simpl; repeat split; auto; intros e p v ([] & ? & ?); discriminate |].
  injection Hlen as Hlen. apply NoDup_cons in Hn as [He Hn], Hnp as [Hin Hnp]. destruct (Hk e ltac:(left)) as [v Hv]. simpl. rewrite Hv. cbn [deref mbind res_bind].
  set (w1 := set_events _ w). assert (Hpush : elements (PushBack p (waiters v)) = elements (waiters v) ++ [p]) by (apply PushBack_elements; eapply Hf; [left | exact Hv]).
  assert (Hother : forall a, a ∈ evs -> events w1 !! a = events w !! a) by (intros a Ha; unfold w1; simpl; apply lookup_insert_ne; intros ->; contradiction).
  destruct (IH es w1 Hlen Hn Hnp) as (w' & E & He' & Hh & Hsame & Hnew).
  - intros a Ha. rewrite Hother by assumption. apply Hk. right. assumption.
  - intros q a u Hq Hu. unfold w1 in Hu. simpl in Hu. apply lookup_insert_Some in Hu as [[<- <-] | [_ Hu]]; [| eapply Hf; [right; exact Hq | exact Hu]].
    simpl. rewrite Hpush. intros Hbad. apply elem_of_app in Hbad as [Hbad | Hbad]; [eapply Hf; [right; exact Hq | exact Hv | exact Hbad] | set_solver].
  - exists w'. split; [exact E |]. split; [exact He' |]. split; [exact Hh |]. split.
    + intros a Ha. rewrite Hsame by set_solver. unfold w1. simpl. apply lookup_insert_ne. set_solver.
    + intros a q u Hq Hu. apply pairs_cons in Hq as [[-> ->] | Hq]; [| apply (Hnew a q u Hq); rewrite Hother; [assumption | apply (pairs_elem _ _ _ _ Hq)]].
        rewrite Hv in Hu. injection Hu as <-. exists (set_waiters (PushBack p (waiters v)) v). split; [rewrite Hsame by assumption; apply lookup_insert_eq |]. split; [reflexivity | exact Hpush].
Qed.

Definition fresh w es : Prop := (0 ∉ es) /\ forall p e v, p ∈ es -> events w !! e = Some v -> p ∉ elements (waiters v).

(** Entries that nobody waits on may change. *)
Lemma entries_frame w w0 : events w0 = events w -> held w0 = held w ->
  (forall e v p, events w !! e = Some v -> p ∈ elements (waiters v) -> entries w0 !! p = entries w !! p) -> waits_ok w ->
  waits_ok w0 /\ forall p x, waiting w0 p x <-> waiting w p x.
Proof.
  intros Hev Hh Hen [Hst Hb]. assert (Hw : forall p x, waiting w0 p x <-> waiting w p x).
  { intros p x. unfold waiting. rewrite Hev. split; intros (Hx & v & Hv & Hp); (split; [| eauto]); [rewrite <- (Hen _ _ _ Hv Hp) | rewrite (Hen _ _ _ Hv Hp)]; assumption. }
  assert (Hwe : forall q y, waiting w q y -> entries w0 !! q = entries w !! q) by (intros q y (_ & v & Hv & Hq); eauto).
  split; [| exact Hw]. destruct Hst as [Hc Hhe Hl]. assert (Hst : struct_ok w) by (constructor; assumption). split; [constructor |].
  - intros e v. rewrite Hev. apply Hc.
  - congruence.
  - intros e v Hv. rewrite Hev in Hv. destruct (Hl e v Hv) as (H1 & H2 & Hall). split; [assumption |]. split; [assumption |]. intros p Hp. destruct (Hall p Hp) as (x & Hx & He & Hpc & [(Hk & Hnd & Hd) Hm]).
    assert (Hsame : forall q, q ∈ cohort x -> entries w0 !! q = entries w !! q) by (intros q Hq; destruct (Hm q Hq) as (y & Hy & _); eauto).
    exists x. rewrite (Hen e v p Hv Hp). split; [assumption |]. split; [assumption |]. split; [assumption |]. constructor.
    + split; [| split; [assumption |]].
      * apply Forall_forall. intros q Hq. destruct (proj1 (Forall_forall _ _) Hk q Hq) as (y & u & Hy & Hu). exists y, u. rewrite Hev, (Hsame q Hq). auto.
      * intros a b Ha Hb'. unfold event_of. rewrite (Hsame a Ha), (Hsame b Hb'). apply Hd; assumption.
    + intros q Hq. destruct (Hm q Hq) as (y & Hy & ?). exists y. split; [apply Hw; assumption | assumption].
  - intros p x Hp Hr. apply Hw in Hp. apply (Hb p x Hp). destruct (waiting_cohort w p x Hst Hp) as [_ [_ Hm]].
    assert (Hcnt : forall q, q ∈ cohort x -> cnt w0 q = cnt w q).
    { intros q Hq. destruct (Hm q Hq) as (y & Hy & _). unfold cnt, event_of. rewrite (Hwe q y Hy), Hev. reflexivity. }
    unfold ready in *. destruct (waitAll x); [intros q Hq; rewrite <- (Hcnt q Hq); auto |]. destruct Hr as (q & Hq & Hpos). exists q. rewrite <- (Hcnt q Hq). auto.
Qed.

(** ** A new wait joins the lists of its events *)

Section Enlisted.
Variables (w w4 : Waits L) (evs es : list Z) (t : Z) (all : bool).
Hypothesis Hst : struct_ok w.
Hypothesis Hlen : length evs = length es.
Hypothesis Hne : NoDup evs.
Hypothesis Hnp : NoDup es.
Hypothesis Hf : fresh w es.
Hypothesis Hk : forall e, e ∈ evs -> is_Some (events w !! e).
Hypothesis Hent : forall e p, pairs evs es e p -> entries w !! p = Some (mkEntry e t es false all).
Hypothesis Een : entries w4 = entries w.
Hypothesis Hsame : forall e, (e ∉ evs) -> events w4 !! e = events w !! e.
Hypothesis Hnew : forall e p v, pairs evs es e p -> events w !! e = Some v ->
  exists v', events w4 !! e = Some v' /\ signalCount v' = signalCount v /\ elements (waiters v') = elements (waiters v) ++ [p].

Lemma pairs_event e : e ∈ evs -> exists p, pairs evs es e p.
Proof.
  intros He. apply list_elem_of_lookup_1 in He as [i Hi]. destruct (lookup_lt_is_Some_2 es i) as [p Hp]; [rewrite <- Hlen; eauto using lookup_lt_Some |]. exists p, i. auto.
Qed.

(** The lists grow at the end, by the entry of the event. *)
Lemma grown e v' : events w4 !! e = Some v' -> exists v new, events w !! e = Some v /\ signalCount v' = signalCount v /\
  elements (waiters v') = elements (waiters v) ++ new /\ NoDup new /\ forall p, p ∈ new -> pairs evs es e p.
Proof.
  intros Hv'. destruct (decide (e ∈ evs)) as [He | He].
  - destruct (pairs_event e He) as [p Hp]. destruct (Hk e He) as [v Hv]. destruct (Hnew e p v Hp Hv) as (v2 & Hv2 & Hc2 & El2). rewrite Hv' in Hv2. injection Hv2 as <-.
    exists v, [p]. split; [assumption |]. split; [assumption |]. split; [assumption |]. split; [apply NoDup_singleton |]. intros q ->%list_elem_of_singleton. assumption.
  - rewrite Hsame in Hv' by assumption. exists v', []. rewrite app_nil_r. split; [assumption |]. split; [reflexivity |]. split; [reflexivity |]. split; [constructor |]. intros p []%not_elem_of_nil.
Qed.

Lemma grown_fwd e v : events w !! e = Some v -> exists v', events w4 !! e = Some v' /\ signalCount v' = signalCount v /\ forall p, p ∈ elements (waiters v) -> p ∈ elements (waiters v').
Proof.
  intros Hv. destruct (decide (e ∈ evs)) as [He | He]; [| rewrite Hsame by assumption; eauto].
  destruct (pairs_event e He) as [p Hp]. destruct (Hnew e p v Hp Hv) as (v2 & Hv2 & Hc2 & El2). exists v2. split; [assumption |]. split; [assumption |]. intros q Hq. rewrite El2. apply elem_of_app. auto.
Qed.

Lemma grown_cnt q : cnt w4 q = cnt w q.
Proof.
  unfold cnt, event_of. rewrite Een. destruct (entries w !! q) as [x |]; [| reflexivity]. simpl. destruct (events w !! event x) as [v |] eqn:Hv.
  - destruct (grown_fwd _ _ Hv) as (v' & -> & E & _). simpl. assumption.
  - destruct (events w4 !! event x) as [v' |] eqn:Hv'; [| reflexivity]. destruct (grown _ _ Hv') as (v & new & Hv2 & _). congruence.
Qed.

Lemma grown_ready l b : ready w4 l b -> ready w l b.
Proof. unfold ready. destruct b; [intros Hr q Hq; rewrite <- grown_cnt; auto | intros (q & Hq & Hpos); exists q; rewrite <- grown_cnt; auto]. Qed.

Lemma grown_span l : span_ok w l -> span_ok w4 l.
Proof.
  intros (Hkl & Hl). split; [| unfold event_of; rewrite Een; exact Hl]. eapply Forall_impl; [exact Hkl |].
  intros q (x & v & Hx & Hv). destruct (grown_fwd _ _ Hv) as (v' & Hv' & _). exists x, v'. rewrite Een. auto.
Qed.

Lemma grown_old q y : waiting w q y -> waiting w4 q y.
Proof. intros (Hy & v & Hv & Hq). destruct (grown_fwd _ _ Hv) as (v' & Hv' & _ & Hin). split; [rewrite Een; assumption | eauto]. Qed.

Lemma grown_new e p : pairs evs es e p -> waiting w4 p (mkEntry e t es false all).
Proof.
  intros Hp. split; [rewrite Een; auto |]. simpl. destruct (Hk e (proj1 (pairs_elem _ _ _ _ Hp))) as [v Hv]. destruct (Hnew e p v Hp Hv) as (v' & Hv' & _ & El).
  exists v'. rewrite El. split; [assumption |]. apply elem_of_app. right. left.
Qed.

Lemma new_span : span_ok w es.
Proof.
  split; [| split; [assumption |]].
  - apply Forall_forall. intros q Hq. destruct (pairs_entry evs es q Hlen Hq) as [a Ha]. destruct (Hk a (proj1 (pairs_elem _ _ _ _ Ha))) as [v Hv]. exists (mkEntry a t es false all), v. auto.
  - intros q r Hq Hr. destruct (pairs_entry evs es q Hlen Hq) as [a Ha], (pairs_entry evs es r Hlen Hr) as [b Hb]. unfold event_of. rewrite (Hent a q Ha), (Hent b r Hb). simpl. intros [= ->].
    destruct Ha as (i & Hi & Hqi), Hb as (j & Hj & Hrj). rewrite (NoDup_lookup _ _ _ _ Hne Hi Hj) in Hqi. congruence.
Qed.

Lemma new_cohort e : cohort_ok w4 (mkEntry e t es false all).
Proof.
  constructor; simpl; [apply grown_span, new_span |]. intros q Hq. destruct (pairs_entry evs es q Hlen Hq) as [a Ha]. exists (mkEntry a t es false all). split; [apply grown_new; assumption | auto].
Qed.

Lemma enlisted_list e v' : events w4 !! e = Some v' -> NoDup (elements (waiters v')) /\ (0 ∉ elements (waiters v')) /\
  forall p, p ∈ elements (waiters v') -> exists x, entries w4 !! p = Some x /\ event x = e /\ p ∈ cohort x /\ cohort_ok w4 x.
Proof.
  intros Hv'. destruct (grown e v' Hv') as (v & new & Hv & _ & El & Hnn & Hn). destruct (so_list _ Hst e v Hv) as (H1 & H2 & Hall). rewrite El. destruct Hf as [H0 Hfr].
  assert (Hx : forall q, q ∈ new -> (q ∉ elements (waiters v)) /\ q <> 0).
  { intros q Hq. destruct (pairs_elem _ _ _ _ (Hn q Hq)) as [_ Hqe]. split; [exact (Hfr q e v Hqe Hv) | intros ->; contradiction]. }
  split; [apply NoDup_app; split; [assumption |]; split; [intros q Hq Hq2; apply (proj1 (Hx q Hq2)); assumption | assumption] |].
  split; [intros Hz; apply elem_of_app in Hz as [Hz | Hz]; [contradiction | destruct (Hx 0 Hz); congruence] |].
  rewrite Een. intros q Hq. apply elem_of_app in Hq as [Hq | Hq].
  - destruct (Hall q Hq) as (x & Hxe & He & Hqc & [Hsp Hm]). exists x. split; [assumption |]. split; [assumption |]. split; [assumption |]. constructor; [apply grown_span; assumption |].
    intros r Hr. destruct (Hm r Hr) as (y & Hy & ?). exists y. split; [apply grown_old; assumption | assumption].
  - pose proof (Hn q Hq) as Hpq. exists (mkEntry e t es false all). split; [apply Hent; assumption |]. split; [reflexivity |]. split; [apply (pairs_elem _ _ _ _ Hpq) | apply new_cohort].
Qed.

Lemma enlisted_ok : blocked w -> ~ ready w es all -> held w4 = ∅ -> waits_ok w4 /\ forall p, p ∈ es -> waits w4 p.
Proof.
  intros Hb Hnr Hh. split; [split; [constructor; [| assumption | exact enlisted_list] |] | intros p Hp; destruct (pairs_entry evs es p Hlen Hp) as [e He]; eexists; apply grown_new; exact He].
  - intros e v' Hv'. destruct (grown e v' Hv') as (v & new & Hv & Ec & _). rewrite Ec. apply (so_counts _ Hst _ _ Hv).
  - intros q y (Hy & v' & Hv' & Hq) Hr. apply grown_ready in Hr. destruct (grown _ _ Hv') as (v & new & Hv & _ & El & _ & Hn). rewrite Een in Hy. rewrite El in Hq. apply elem_of_app in Hq as [Hq | Hq].
    + apply (Hb q y); [split; [assumption | eauto] | assumption].
    + rewrite (Hent _ _ (Hn q Hq)) in Hy. injection Hy as E. apply Hnr.
      replace (cohort y) with es in Hr by (rewrite <- E; reflexivity). replace (waitAll y) with all in Hr by (rewrite <- E; reflexivity). assumption.
Qed.
End Enlisted.

(** ** The number of completed entries *)

Definition flag w (p : Z) (b : bool) : Prop := exists x, entries w !! p = Some x /\ signalled x = b.

Lemma take_flags p w w' : take p w = Ok w' -> flag w' p true /\ forall q b, q <> p -> flag w q b -> flag w' q b.
Proof.
  unfold take. destruct (entries w !! p) as [x |]; [| discriminate]. cbn [deref mbind res_bind]. destruct (events w !! event x) as [v |]; [| discriminate]. cbn [deref mbind res_bind]. intros [= <-]. split.
  - eexists. simpl. rewrite lookup_insert_eq. split; [reflexivity |]. reflexivity.
  - intros q b Hne (y & Hy & E). exists y. simpl. rewrite lookup_insert_ne by congruence. auto.
Qed.

Lemma take_all_flags es : forall w w', take_all es w = Ok w' -> forall p, p ∈ es \/ flag w p true -> flag w' p true.
Proof.
  induction es as [| q es IH]; intros w w' E p Hp; simpl in E.
  - injection E as <-. destruct Hp as [Hp | Hp]; [apply not_elem_of_nil in Hp; contradiction | assumption].
  - destruct (take q w) as [w1 | |] eqn:Et; [| discriminate ..]. cbn [mbind res_bind] in E. destruct (take_flags q w w1 Et) as [Hq Ho]. apply (IH w1 w' E).
    destruct (decide (p = q)) as [-> | Hne]; [right; assumption |]. destruct Hp as [Hp | Hp]; [apply elem_of_cons in Hp as [-> | Hp]; [contradiction | left; assumption] | right; auto].
Qed.

Lemma finish_scan_flags es : forall w w', finish_scan es false w = Ok (Some true, w') -> exists p, p ∈ es /\ flag w' p true /\ forall q b, q <> p -> flag w q b -> flag w' q b.
Proof.
  induction es as [| p es IH]; intros w w' E; simpl in E; [discriminate |]. destruct (entries w !! p) as [x |]; [| discriminate]. cbn [deref mbind res_bind] in E.
  destruct (events w !! event x) as [v |]; [| discriminate]. cbn [deref mbind res_bind] in E. destruct (signalCount v =? 0).
  - destruct (IH w w' E) as (q & Hq & Hr). exists q. split; [right; assumption | assumption].
  - destruct (take p w) as [w1 | |] eqn:Et; [| discriminate ..]. cbn [mbind res_bind] in E. injection E as <-. exists p. split; [left | apply take_flags; assumption].
Qed.

Lemma finish_scan_all es : forall w r w', finish_scan es true w = Ok (r, w') -> r <> Some true.
Proof.
  induction es as [| p es IH]; intros w r w' E; simpl in E; [injection E as <- _; discriminate |]. destruct (entries w !! p) as [x |]; [| discriminate]. cbn [deref mbind res_bind] in E.
  destruct (events w !! event x) as [v |]; [| discriminate]. cbn [deref mbind res_bind] in E. destruct (signalCount v =? 0); [injection E as <- _; discriminate | eauto].
Qed.

Lemma count_flags es w (f : Z -> bool) : (forall p, p ∈ es -> flag w p (f p)) -> count_signalled es w = Ok (foldr (fun p n => (if f p then 1 else 0) + n) 0 es).
Proof.
  induction es as [| p es IH]; intros Hf; [reflexivity |]. simpl. destruct (Hf p ltac:(left)) as (x & -> & E). cbn [deref mbind res_bind].
  rewrite IH by (intros q Hq; apply Hf; right; assumption). cbn [mbind res_bind]. rewrite E. reflexivity.
Qed.

Lemma fold_const es (f : Z -> bool) b : (forall p, p ∈ es -> f p = b) -> foldr (fun p n => (if f p then 1 else 0) + n) 0 es = if b then Z.of_nat (length es) else 0.
Proof.
  induction es as [| p es IH]; intros Hf; [destruct b; reflexivity |]. simpl. rewrite IH by (intros q Hq; apply Hf; right; assumption). rewrite (Hf p ltac:(left)). destruct b; lia.
Qed.

Lemma fold_one es p : NoDup es -> p ∈ es -> foldr (fun q n => (if bool_decide (q = p) then 1 else 0) + n) 0 es = 1.
Proof.
  induction es as [| q es IH]; intros Hn Hp; [apply not_elem_of_nil in Hp; contradiction |]. apply NoDup_cons in Hn as [Hq Hn]. simpl. destruct (decide (q = p)) as [-> | Hne].
  - rewrite bool_decide_eq_true_2 by reflexivity. rewrite (fold_const es (fun q => bool_decide (q = p)) false); [reflexivity |]. intros r Hr. apply bool_decide_eq_false_2. intros ->. contradiction.
  - rewrite bool_decide_eq_false_2 by assumption. rewrite IH; [reflexivity | assumption |]. apply elem_of_cons in Hp as [-> | Hp]; [contradiction | assumption].
Qed.

Lemma finished_count es all w w' : TryFinish es all w = Ok (true, w') -> NoDup es -> (forall p, p ∈ es -> flag w p false) -> count_signalled es w' = Ok (if all then Z.of_nat (length es) else 1).
Proof.
  intros E Hn Hf. unfold TryFinish in E. destruct (finish_scan es all w) as [[r w1] | |] eqn:Es; [| discriminate ..]. cbn [mbind res_bind] in E. destruct all.
  - pose proof (finish_scan_all es w r w1 Es) as Hr. destruct r as [b |]; [injection E as -> _; congruence |]. cbn [negb] in E.
    destruct (take_all es w1) as [w2 | |] eqn:Et; [| discriminate ..]. injection E as <-.
    rewrite (count_flags es w2 (fun _ => true)) by (intros p Hp; apply (take_all_flags es w1 w2 Et); auto). f_equal. apply (fold_const es (fun _ => true) true). reflexivity.
  - destruct r as [b |]; [| discriminate]. injection E as -> ->. destruct (finish_scan_flags es w w' Es) as (p & Hp & Hfp & Ho).
    rewrite (count_flags es w' (fun q => bool_decide (q = p))); [rewrite fold_one by assumption; reflexivity |].
    intros q Hq. destruct (decide (q = p)) as [-> | Hne]; [rewrite bool_decide_eq_true_2 by reflexivity; assumption | rewrite bool_decide_eq_false_2 by assumption; auto].
Qed.

(** ** [WaitMany] *)

Definition count_of w (e : Z) : Z := default 0 (signalCount <$> events w !! e).
Definition enough w evs (all : bool) : Prop := if all then forall e, e ∈ evs -> 0 < count_of w e else exists e, e ∈ evs /\ 0 < count_of w e.

(** What the caller of [WaitMany] provides: distinct events and entries that are not in use. *)
Record call_ok w evs es : Prop := mkCall {
  ca_length : length evs = length es;
  ca_events : NoDup evs;
  ca_entries : NoDup es;
  ca_fresh : fresh w es;
  ca_known : forall e, e ∈ evs -> is_Some (events w !! e)
}.

Section Prepared.
Variables (w : Waits L) (evs es : list Z) (t : Z) (all : bool).
Hypothesis Hok : waits_ok w.
Hypothesis Hcall : call_ok w evs es.
Let w0 := setup evs es t es all w.

Lemma prepared : waits_ok w0 /\ (forall p x, waiting w0 p x <-> waiting w p x) /\ events w0 = events w /\ call_ok w0 evs es /\
  (forall e p, pairs evs es e p -> entries w0 !! p = Some (mkEntry e t es false all)) /\ span_ok w0 es /\ (ready w0 es all <-> enough w evs all).
Proof.
  destruct Hcall as [Hlen Hne Hnp Hf Hk]. destruct (setup_spec t es all evs es w Hlen Hnp) as (Hev & Hh & Hent & Hrest). fold w0 in Hev, Hh, Hent, Hrest.
  destruct (entries_frame w w0 Hev Hh) as [Hok0 Hw]; [| exact Hok |]. { intros e v p Hv Hp. apply Hrest. intros Hin. apply (proj2 Hf p e v Hin Hv). assumption. }
  split; [exact Hok0 |]. split; [exact Hw |]. split; [exact Hev |]. split; [constructor; rewrite ?Hev; auto; unfold fresh in *; rewrite Hev; assumption |]. split; [exact Hent |].
  assert (Hcnt : forall e p, pairs evs es e p -> cnt w0 p = count_of w e) by (intros e p Hp; unfold cnt, event_of, count_of; rewrite (Hent e p Hp), Hev; reflexivity).
  split; [apply (new_span w0 evs es t all); auto; rewrite Hev; assumption |]. unfold ready, enough. destruct all; split.
  - intros Hr e He. destruct (pairs_event evs es Hlen e He) as [p Hp]. rewrite <- (Hcnt e p Hp). apply Hr. apply (pairs_elem _ _ _ _ Hp).
  - intros Hr p Hp. destruct (pairs_entry evs es p Hlen Hp) as [e He]. rewrite (Hcnt e p He). apply Hr. apply (pairs_elem _ _ _ _ He).
  - intros (p & Hp & Hpos). destruct (pairs_entry evs es p Hlen Hp) as [e He]. exists e. rewrite <- (Hcnt e p He). split; [apply (pairs_elem _ _ _ _ He) | assumption].
  - intros (e & He & Hpos). destruct (pairs_event evs es Hlen e He) as [p Hp]. exists p. rewrite (Hcnt e p Hp). split; [apply (pairs_elem _ _ _ _ Hp) | assumption].
Qed.
End Prepared.
End Blocking.
