(* ===== verification/WaitSpec.v ===== *)
(** What waiting and signalling promise, and the kernel's scheduler as the one they call. *)

From S2P Require Import Prelude Maths Flags Queue QueueProofs IntrList Clock ClockProofs Tasking SchedProofs SchedOps Wait WaitProofs WaitOps WaitMany.
Import Wait.

Section Spec.
Context {L : Type} `{HLaws : IntrFwdListLaws L}.
Context {S : Type} `{HCalls : SchedCalls S}.
Implicit Types (w : Waits L) (es evs : list Z).

(** The part of [WaitMany] under the locks. *)
Lemma try_locked w es all : struct_ok w -> span_ok w es ->
  exists b w2, (w1 ← LockAll es w; TryFinish es all w1) = Ok (b, w2) /\ spent w (set_held ∅ w2) /\ (b = true <-> ready w es all) /\ (b = false -> set_held ∅ w2 = w) /\
    (forall w3, entries w3 = entries w2 -> held w3 = held w2 -> (forall e, is_Some (events w2 !! e) -> is_Some (events w3 !! e)) -> UnlockAll es w3 = Ok (set_held ∅ w3)) /\
    (forall w1, LockAll es w = Ok w1 -> TryFinish es all w1 = Ok (b, w2) /\ entries w1 = entries w).
Proof.
  intros Hst Hsp. pose proof (so_held _ Hst) as Hh. rewrite (LockAll_spec es w Hsp) by set_solver. cbn [mbind res_bind]. set (w1 := set_held _ w).
  assert (Hsp1 : span_ok w1 es) by exact Hsp. assert (Hc1 : counts_ok w1) by exact (so_counts _ Hst).
  destruct (TryFinish_spec es all w1 Hsp1 Hc1) as (b & w2 & E & Hs & Hb & Hfalse). exists b, w2. split; [exact E |].
  split; [rewrite <- Hh; apply spent_unheld with (h := evset w es ∪ held w); exact Hs |]. split; [exact Hb |].
  split; [intros Eb; rewrite (Hfalse Eb); unfold w1, set_held; simpl; rewrite <- Hh; destruct w; reflexivity |]. split.
  - intros w3 He Hh3 Hdom. rewrite UnlockAll_spec.
    + f_equal. f_equal. rewrite Hh3, (sp_held _ _ Hs). simpl. assert (Eset : evset w3 es = evset w es); [| rewrite Eset, Hh; set_solver].
      apply set_eq. intros a. rewrite !elem_evset. unfold event_of at 1. rewrite He. fold (event_of w2). setoid_rewrite (spent_event_of w1 w2 _ Hs). reflexivity.
    + eapply Forall_impl; [apply Hsp1 |]. intros q Hq. destruct (spent_known w1 w2 q Hs Hq) as (x & v & Hx & Hv). destruct (Hdom (event x)) as [v3 Hv3]; [eauto |]. exists x, v3. rewrite He. auto.
  - intros w1' [= <-]. split; [exact E | reflexivity].
Qed.

Lemma count_unheld es h w2 : count_signalled es (set_held h w2) = count_signalled es w2.
Proof using Type. induction es as [| p l IH]; simpl; [reflexivity | rewrite IH; reflexivity]. Qed.

(** ** A call of [WaitMany] *)

Section Call.
Variables (c : Z) (evs es : list Z) (all : bool) (w : Waits L) (s s1 s2 : S) (prev : option Z) (t : Z).
Hypothesis Hok : waits_ok w.
Hypothesis Hcall : call_ok w evs es.
Hypothesis Hens : sc_ensure c s = Ok (prev, s1).
Hypothesis Hcur : sc_current c s1 = Ok t.
Let w0 := setup evs es t es all w.

Lemma call_start timeout b w2 : timeout = 0 \/ timeout = two64 - 1 -> (w1 ← LockAll es w0; TryFinish es all w1) = Ok (b, w2) -> WaitMany c evs es timeout all w s =
  if b || (timeout =? 0) then w3 ← UnlockAll es w2; n ← count_signalled es w3; s3 ← lower_to c prev s1; Ok (Some n, w3, s3)
  else w3 ← enlist evs es w2; t ← sc_current c s1; s3 ← sc_dequeue c t s1; w3 ← UnlockAll es w3; s3 ← lower_to c prev s3; Ok (None, w3, s3).
Proof using Hcall Hens Hcur.
  intros Ht E. unfold WaitMany. rewrite (ca_length _ _ _ Hcall), Nat.eqb_refl. replace ((timeout =? 0) || (timeout =? two64 - 1)) with true by (destruct Ht as [-> | ->]; reflexivity). cbn [negb].
  rewrite Hens. cbn [mbind res_bind]. rewrite Hcur. cbn [mbind res_bind]. fold w0. destruct (LockAll es w0) as [w1 | |]; [| discriminate E ..]. cbn [mbind res_bind] in *. rewrite E. reflexivity.
Qed.

(** Using up signals leaves the waits as they are. *)
Lemma call_same w2 : spent w0 w2 -> waits_ok w2 /\ forall q, waits w2 q <-> waits w q.
Proof using Hok Hcall HLaws.
  intros Hs. destruct (prepared w evs es t all Hok Hcall) as ([Hst Hb] & Hw & _). fold w0 in Hst, Hb, Hw. split; [split; [eapply spent_struct | eapply spent_blocked]; eassumption |]. intros q. unfold waits. split.
  - intros (x & Hx). destruct (spent_waiting _ _ _ _ Hs Hx) as (y & Hy & _). exists y. apply Hw. assumption.
  - intros (x & Hx). apply Hw in Hx. destruct (spent_waiting_fwd _ _ _ _ Hs Hx) as (y & Hy & _). eauto.
Qed.

Lemma call_flags p : p ∈ es -> flag w0 p false.
Proof using Hok Hcall HLaws.
  intros Hp. destruct (prepared w evs es t all Hok Hcall) as (_ & _ & _ & _ & Hent & _). destruct (pairs_entry evs es p (ca_length _ _ _ Hcall) Hp) as [e He]. eexists. split; [apply (Hent e p He) | reflexivity].
Qed.

Lemma call_finishes : enough w evs all -> exists w',
  WaitMany c evs es (two64 - 1) all w s = (s' ← lower_to c prev s1; Ok (Some (if all then Z.of_nat (length es) else 1), w', s')) /\ waits_ok w' /\ forall q, waits w' q <-> waits w q.
Proof using Hok Hcall Hens Hcur HLaws.
  intros He. destruct (prepared w evs es t all Hok Hcall) as ([Hst _] & _ & _ & _ & _ & Hsp & Hready). fold w0 in Hst, Hsp, Hready.
  destruct (try_locked w0 es all Hst Hsp) as (b & w2 & E & Hs & Hbr & _ & Hun & Htry). rewrite (call_start _ _ _ (or_intror eq_refl) E).
  destruct b; [| apply Hready, Hbr in He; discriminate]. cbn [orb]. rewrite (Hun w2) by auto. cbn [mbind res_bind]. rewrite count_unheld.
  destruct (LockAll es w0) as [w1 | |] eqn:El; [| discriminate E ..]. destruct (Htry w1 eq_refl) as [Et Een1].
  rewrite (finished_count es all w1 w2 Et (ca_entries _ _ _ Hcall)) by (intros p Hp; unfold flag; rewrite Een1; apply call_flags; assumption).
  cbn [mbind res_bind]. eexists. split; [reflexivity | apply call_same; exact Hs].
Qed.

Lemma call_polls : ~ enough w evs all -> exists w',
  WaitMany c evs es 0 all w s = (s' ← lower_to c prev s1; Ok (Some 0, w', s')) /\ waits_ok w' /\ forall q, waits w' q <-> waits w q.
Proof using Hok Hcall Hens Hcur HLaws.
  intros He. destruct (prepared w evs es t all Hok Hcall) as ([Hst _] & _ & _ & _ & _ & Hsp & Hready). fold w0 in Hst, Hsp, Hready.
  destruct (try_locked w0 es all Hst Hsp) as (b & w2 & E & Hs & Hbr & Hfalse & Hun & _). rewrite (call_start _ _ _ (or_introl eq_refl) E).
  destruct b; [exfalso; apply He, Hready, Hbr; reflexivity |]. cbn [orb Z.eqb]. rewrite (Hun w2) by auto. cbn [mbind res_bind]. rewrite (Hfalse eq_refl) in *.
  rewrite (count_flags es w0 (fun _ => false)) by exact call_flags. rewrite (fold_const es (fun _ => false) false) by reflexivity. cbn [mbind res_bind]. eexists. split; [reflexivity | apply call_same; exact Hs].
Qed.

Lemma call_blocks : ~ enough w evs all -> sc_dequeue c t s1 = Ok s2 -> exists w',
  WaitMany c evs es (two64 - 1) all w s = (s' ← lower_to c prev s2; Ok (None, w', s')) /\ waits_ok w' /\ forall q, waits w' q <-> waits w q \/ q ∈ es.
Proof using Hok Hcall Hens Hcur HLaws.
  intros He Hdeq. destruct (prepared w evs es t all Hok Hcall) as ([Hst Hb] & Hw & _ & [Hlen Hne Hnp Hf Hk] & Hent & Hsp & Hready). fold w0 in Hst, Hb, Hw, Hf, Hk, Hent, Hsp, Hready.
  destruct (try_locked w0 es all Hst Hsp) as (b & w2 & E & _ & Hbr & Hfalse & Hun & _). rewrite (call_start _ _ _ (or_intror eq_refl) E).
  rewrite <- Hready in He. destruct b; [exfalso; apply He, Hbr; reflexivity |]. change (false || (two64 - 1 =? 0)) with false.
  assert (Een : entries w2 = entries w0 /\ events w2 = events w0) by (rewrite <- (Hfalse eq_refl); split; reflexivity). destruct Een as [Een Eev].
  destruct (enlist_spec evs es w2 Hlen Hne Hnp) as (w3 & -> & Een3 & Hh3 & Hsame3 & Hnew3); [rewrite Eev; assumption | rewrite Eev; apply Hf |]. cbn [mbind res_bind]. rewrite Hcur. cbn [mbind res_bind].
  rewrite Hdeq. cbn [mbind res_bind]. rewrite (Hun w3 Een3 Hh3).
  2:{ intros e [v Hv]. destruct (decide (e ∈ evs)) as [Hin | Hin]; [| rewrite Hsame3 by assumption; eauto]. destruct (pairs_event evs es Hlen e Hin) as [p Hp]. destruct (Hnew3 e p v Hp Hv) as (v' & Hv' & _). eauto. }
  cbn [mbind res_bind]. rewrite Een in Een3. rewrite Eev in Hsame3, Hnew3.
  destruct (enlisted_ok w0 (set_held ∅ w3) evs es t all Hst Hlen Hne Hnp Hf Hk Hent Een3 Hsame3 Hnew3 Hb He eq_refl) as [Hok4 Hmine].
  eexists. split; [reflexivity |]. split; [exact Hok4 |]. intros q. split.
  - intros (y & Hy & v' & Hv' & Hq). simpl in Hy, Hv'. destruct (grown w0 (set_held ∅ w3) evs es Hlen Hk Hsame3 Hnew3 _ v' Hv') as (v & new & Hv & _ & El & _ & Hn). rewrite El in Hq.
    apply elem_of_app in Hq as [Hq | Hq]; [left; exists y; apply Hw; split; [rewrite <- Een3; assumption | eauto] | right; apply (pairs_elem _ _ _ _ (Hn q Hq))].
  - intros [(y & Hy) | Hq]; [| auto]. apply Hw in Hy. exists y. apply (grown_old w0 (set_held ∅ w3) evs es Hlen Een3 Hsame3 Hnew3). assumption.
Qed.
End Call.

(** C38: a call of [WaitMany] with distinct events and unused entries returns at once when enough of
    its events are signalled, one for a wait for any and all for a wait for all, and says how many
    it completed; a poll that cannot complete returns nothing; otherwise the thread is taken off
    its core with every entry in the list of its event. In each case no thread is left waiting for
    what has been signalled, and nobody else's wait is changed. *)
Theorem wait_many_spec c evs es all w (s s1 s2 : S) prev t :
  waits_ok w -> call_ok w evs es -> sc_ensure c s = Ok (prev, s1) -> sc_current c s1 = Ok t -> sc_dequeue c t s1 = Ok s2 ->
  (enough w evs all -> exists w', WaitMany c evs es (two64 - 1) all w s = (s' ← lower_to c prev s1; Ok (Some (if all then Z.of_nat (length es) else 1), w', s')) /\
     waits_ok w' /\ forall q, waits w' q <-> waits w q) /\
  (~ enough w evs all -> exists w', WaitMany c evs es 0 all w s = (s' ← lower_to c prev s1; Ok (Some 0, w', s')) /\ waits_ok w' /\ forall q, waits w' q <-> waits w q) /\
  (~ enough w evs all -> exists w', WaitMany c evs es (two64 - 1) all w s = (s' ← lower_to c prev s2; Ok (None, w', s')) /\
     waits_ok w' /\ forall q, waits w' q <-> waits w q \/ q ∈ es).
Proof. intros Hok Hcall Hens Hcur Hdeq. split; [eauto using call_finishes |]. split; [eauto using call_polls | eauto using call_blocks]. Qed.

(** ** A call of [Signal] *)

Variable removed_next : Z -> L -> Z.
Variable serves : S -> Z -> Prop.

(** C39: [Signal] wakes threads in the order in which they came to wait, each once and with its
    entries taken out of all lists, and when it returns nobody is left waiting for what has been
    signalled, on this event or another. A list element keeps its link when it is removed, and the
    scheduler can queue the waiting threads. *)
Theorem signal_spec c e n w (s s1 : S) prev v :
  (forall p l, removed_next p l = following p (elements l)) ->
  (forall s t, serves s t -> exists s', sc_enqueue t s = Ok s' /\ forall t', serves s t' -> serves s' t') ->
  waits_ok w -> e <> 0 -> events w !! e = Some v -> 0 <= n -> signalCount v + n < two64 -> sc_ensure c s = Ok (prev, s1) -> all_served serves w s1 ->
  exists ps w' s', Signal removed_next c e n w s = (s2 ← lower_to c prev s'; Ok (u64 (Z.of_nat (length ps)), w', s2)) /\ waits_ok w' /\
    sublist ps (elements (waiters v)) /\ enqueue_all (omap (thread_of w) ps) s1 = Ok s' /\ forall q, waits w' q <-> waits w q /\ ~ in_cohort w ps q.
Proof. intros Hk He. apply Signal_spec with (serves := serves); assumption. Qed.
End Spec.

(** ** The kernel's scheduler *)

Section Kernel.
Context {L : Type} `{HLaws : IntrFwdListLaws L}.
Variables (PollTicksToNanos : Z -> Z) (InterruptTimerMaxNanos timekeepingEvent : Z) (other_dpc : Z -> Z -> Z -> M L unit) (fuel : nat).

Definition state_of (r : res (unit * World L)) : res (World L) := '(_, w) ← r; Ok w.

Definition kernel_calls : SchedCalls (World L) := {|
  sc_current c w := k ← deref (cores w !! c); Ok (localThread k);
  sc_ensure c w := EnsureRunLevel c Dpc w;
  sc_lower c l w := state_of (LowerRunLevel PollTicksToNanos InterruptTimerMaxNanos timekeepingEvent other_dpc fuel c l w);
  sc_dequeue c t w := state_of (DequeueThread PollTicksToNanos InterruptTimerMaxNanos timekeepingEvent other_dpc fuel c t w);
  sc_enqueue t w := state_of (EnqueueThread t w);
  sc_yield c w := state_of (Yield PollTicksToNanos InterruptTimerMaxNanos timekeepingEvent other_dpc fuel c w)
|}.

(** The thread exists, and so do the engines the vector names. *)
Definition kernel_serves (w : World L) (t : Z) : Prop := is_Some (thr w !! t) /\ forall e, e ∈ engines w -> is_Some (engs w !! e).

Lemma find_engine_total l id (w : World L) : (forall e, e ∈ l -> is_Some (engs w !! e)) -> exists r, find_engine l id w = Ok (r, w) /\ forall e, r = Some e -> e ∈ l.
Proof.
  induction l as [| e l IH]; intros Hl; simpl; [exists None; split; [reflexivity | discriminate] |]. destruct (Hl e ltac:(left)) as [en He]. rewrite bind_eq, get_engine_eq, He.
  destruct (negb _); [| exists (Some e); split; [reflexivity | intros a [= ->]; left]].
  destruct IH as (r & E & Hr); [intros a Ha; apply Hl; right; assumption |]. exists r. split; [exact E | intros a Ea; right; auto].
Qed.

Lemma least_worked_range (l : list (EngineCluster L)) i n sel k : least_worked l i n sel = Some k -> sel = Some k \/ (i <= k < i + length l)%nat.
Proof.
  revert i n sel. induction l as [| cl l IH]; intros i n sel E; simpl in E; [left; assumption |]. destruct (_ <? _); apply IH in E as [E | E]; simpl; try (right; lia); [injection E as <-; right; lia | left; assumption].
Qed.

Lemma engs_set_queue q x (w : World L) e : is_Some (engs w !! e) -> is_Some (engs (set_queue q x w) !! e).
Proof.
  intros He. destruct q as [k | a]; simpl; [destruct (clusters w !! k); exact He |]. destruct (engs w !! a) eqn:Ea; simpl; [| assumption].
  destruct (decide (a = e)) as [<- | Hne]; [rewrite lookup_insert_eq; eauto | rewrite lookup_insert_ne by assumption; assumption].
Qed.

(** What waiting asks of the scheduler holds of the kernel's. *)
Lemma kernel_enqueue_serves (w : World L) t : kernel_serves w t -> exists w', @sc_enqueue _ kernel_calls t w = Ok w' /\ forall t', kernel_serves w t' -> kernel_serves w' t'.
Proof.
  intros [[th Ht] He]. simpl. unfold EnqueueThread. destruct (t =? 0); [exists w; split; [reflexivity | auto] |]. rewrite bind_eq, get_thread_eq, Ht.
  destruct (negb (bool_decide (state th = Ready))); [exists w; split; [reflexivity | auto] |]. rewrite bind_eq.
  match goal with |- context [(if ?b then ?a else ?d) w] => set (sel := if b then a else d) end.
  assert (Hsel : exists r, sel w = Ok (r, w) /\ forall q, r = Some q -> is_Some (queue_of w q)).
  { unfold sel. destruct (negb (affinity th =? _)).
    - rewrite bind_eq, gets_eq, bind_eq. destruct (find_engine_total (engines w) (affinity th) w He) as (r & -> & Hr). exists (LocalQueue <$> r). split; [reflexivity |].
      intros q Eq. apply fmap_Some in Eq as (e & -> & ->). simpl. destruct (He e (Hr e eq_refl)) as [en Hen]. rewrite Hen. simpl. eauto.
    - rewrite bind_eq, gets_eq. exists (SharedQueue <$> least_worked (clusters w) 0 (two64 - 1) None). split; [reflexivity |].
      intros q Eq. apply fmap_Some in Eq as (k & Ek & ->). apply least_worked_range in Ek as [Ek | Ek]; [discriminate |]. simpl. destruct (lookup_lt_is_Some_2 (clusters w) k) as [cl Hcl]; [lia |]. rewrite Hcl. simpl. eauto. }
  destruct Hsel as (r & -> & Hr). destruct r as [q |]; [| exists w; split; [reflexivity | auto]]. rewrite bind_eq, put_thread_eq, push_queue_eq.
  destruct (Hr q eq_refl) as [x Hx]. assert (Hq : queue_of (set_thr (<[t := set_place Queued (OnQueue q) th]> (thr w)) w) q = queue_of w q) by (destruct q; reflexivity). rewrite Hq, Hx.
  eexists. split; [reflexivity |]. intros t' [Ht' _]. split.
  - rewrite set_queue_thr. simpl. destruct (decide (t = t')) as [<- | Hne]; [rewrite lookup_insert_eq; eauto | rewrite lookup_insert_ne by assumption; assumption].
  - intros e Hin. apply engs_set_queue. apply He. destruct q; simpl in Hin; [destruct (clusters w !! _) | destruct (engs w !! _)]; exact Hin.
Qed.
End Kernel.

(** ** Two cores, and one thread that waits *)

(** Core 0 runs thread 20 at the level of deferred calls, core 1 is idle in its thread 11; thread 30
    is ready and waits for event 0x50 with entry 0x60; event 0x51 has one signal. *)
Definition two_engine (id idle : Z) : Engine (list Z) := mkEngine id 0 (mkWorkQueue 0 []) 0 0 0 idle 0 (0x500 + id) (0x600 + id).
Definition two_core (level engine current stub : Z) : Core := mkCore level stub (Mpsc.init stub) (stub + 1) (Mpsc.init (stub + 1)) engine current true.
Definition two_machine : World (list Z) := mkWorld
  {[0 := two_core Dpc 1 20 0x700; 1 := two_core Normal 2 11 0x800]} {[1 := two_engine 0 10; 2 := two_engine 1 11]} [1; 2]
  [mkCluster (mkWorkQueue 0 []) 2 [0; 1; NoCoreAffinity; NoCoreAffinity]]
  {[10 := mkThread Setup 1 NoCoreAffinity (OnEngine 0); 11 := mkThread Running 2 NoCoreAffinity (OnEngine 1); 20 := mkThread Running 3 NoCoreAffinity (OnEngine 0); 30 := mkThread Ready 4 NoCoreAffinity (OnEngine 0)]}
  {[0x500 := DoRescheduleDpc; 0x501 := DoRescheduleDpc]} (mkClock 0 ∅ [] 0 0 None [] false) 0 [].
Definition two_calls : SchedCalls (World (list Z)) := kernel_calls (fun t => t) 1000000 0x900 (fun _ _ _ => mret tt) 3.
Definition two_waits : Waits (list Z) := mkWaits {[0x50 := mkWaitable 0 [0x60]; 0x51 := mkWaitable 1 []]} {[0x60 := mkEntry 0x50 30 [0x60] false false]} ∅.
Definition last_next (p : Z) (l : list Z) : Z := following p l.

Lemma two_waiting p x : waiting two_waits p x -> p = 0x60 /\ x = mkEntry 0x50 30 [0x60] false false.
Proof. intros [Hx _]. simpl in Hx. apply lookup_singleton_Some in Hx as [<- <-]. auto. Qed.

Lemma two_waits_entry : waiting two_waits 0x60 (mkEntry 0x50 30 [0x60] false false).
Proof. split; [reflexivity |]. exists (mkWaitable 0 [0x60]). split; [reflexivity | left]. Qed.

Lemma two_cohort : cohort_ok two_waits (mkEntry 0x50 30 [0x60] false false).
Proof.
  constructor.
  - split; [apply Forall_singleton; do 2 eexists; split; reflexivity |]. split; [apply NoDup_singleton |]. intros p q ->%list_elem_of_singleton ->%list_elem_of_singleton _. reflexivity.
  - intros q ->%list_elem_of_singleton. eexists. split; [apply two_waits_entry | auto].
Qed.

Lemma two_waits_ok : waits_ok two_waits.
Proof.
  split; [constructor |].
  - intros e v Hv. simpl in Hv. apply lookup_insert_Some in Hv as [[_ <-] | [_ Hv]]; [| apply lookup_singleton_Some in Hv as [_ <-]]; vm_compute; intuition congruence.
  - reflexivity.
  - intros e v Hv. simpl in Hv. apply lookup_insert_Some in Hv as [[<- <-] | [_ Hv]]; [| apply lookup_singleton_Some in Hv as [<- <-]; simpl; split; [constructor |]; split; [set_solver |]; intros p Hp; set_solver].
    simpl. split; [apply NoDup_singleton |]. split; [set_solver |]. intros p ->%list_elem_of_singleton. eexists. split; [reflexivity |]. split; [reflexivity |]. split; [left | apply two_cohort].
  - intros p x Hp Hr. apply two_waiting in Hp as [_ ->]. destruct Hr as (q & Hq & Hpos). apply list_elem_of_singleton in Hq as ->. vm_compute in Hpos. discriminate.
Qed.

Lemma two_call_ok : call_ok two_waits [0x50; 0x51] [0x70; 0x71].
Proof.
  constructor.
  - reflexivity.
  - apply NoDup_cons. split; [set_solver | apply NoDup_singleton].
  - apply NoDup_cons. split; [set_solver | apply NoDup_singleton].
  - split; [set_solver |]. intros p e v Hp Hv. simpl in Hv. apply lookup_insert_Some in Hv as [[_ <-] | [_ Hv]]; [| apply lookup_singleton_Some in Hv as [_ <-]]; simpl; set_solver.
  - intros e He. apply elem_of_cons in He as [-> | ->%list_elem_of_singleton]; eexists; reflexivity.
Qed.

Definition two_dequeued : World (list Z) := match @sc_dequeue _ two_calls 0 20 two_machine with Ok s => s | _ => two_machine end.

(** Thread 20 waits for both events, of which one has a signal: it blocks. *)
Lemma wait_many_spec_witness : exists w', @WaitMany (list Z) _ _ two_calls 0 [0x50; 0x51] [0x70; 0x71] (two64 - 1) true two_waits two_machine = Ok (None, w', two_dequeued) /\
  waits_ok w' /\ forall q, waits w' q <-> waits two_waits q \/ q ∈ [0x70; 0x71].
Proof.
  apply (@wait_many_spec (list Z) _ _ _ two_calls 0 [0x50; 0x51] [0x70; 0x71] true two_waits two_machine two_machine two_dequeued None 20 two_waits_ok two_call_ok);
    [vm_compute; reflexivity .. |]. intros Hr. specialize (Hr 0x50 ltac:(left)). vm_compute in Hr. discriminate.
Defined.

(** A signal of event 0x50 wakes thread 30. *)
Lemma signal_spec_witness : exists ps w' s', @Signal (list Z) _ _ two_calls last_next 0 0x50 1 two_waits two_machine = Ok (u64 (Z.of_nat (length ps)), w', s') /\ waits_ok w' /\
  sublist ps [0x60] /\ @enqueue_all _ two_calls (omap (thread_of two_waits) ps) two_machine = Ok s' /\ forall q, waits w' q <-> waits two_waits q /\ ~ in_cohort two_waits ps q.
Proof.
  destruct (@signal_spec (list Z) _ _ _ two_calls last_next kernel_serves 0 0x50 1 two_waits two_machine two_machine None (mkWaitable 0 [0x60])) as (ps & w' & s' & E & R);
    [reflexivity | apply kernel_enqueue_serves | apply two_waits_ok | discriminate | reflexivity | lia | reflexivity | vm_compute; reflexivity | |].
  - intros p x Hp. apply two_waiting in Hp as [_ ->]. split; [eexists; reflexivity |].
    intros e He. apply elem_of_cons in He as [-> | ->%list_elem_of_singleton]; eexists; reflexivity.
  - exists ps, w', s'. split; [exact E | exact R].
Defined.

(** Between [DequeueThread] and the switch of its core the thread already counts as ready: when the
    event is signalled then, another core can run it while it is still the current thread of the
    first. *)
Definition two_raced : World (list Z) :=
  let w := two_dequeued in
  let w := match @sc_enqueue _ two_calls 20 w with Ok w => w | _ => w end in
  match @sc_yield _ two_calls 1 w with Ok w => w | _ => w end.

Lemma woken_before_switch : localThread <$> cores two_raced !! 0 = Some 20 /\ localThread <$> cores two_raced !! 1 = Some 20.
Proof. vm_compute. auto. Qed.
