(* ===== verification/Ipi.v ===== *)
(** Mail between cores ([kernel/interrupts/Ipi.cpp]): a mailbox per core with a fixed number of
    slots, filled by any core and emptied by its owner when it is interrupted. *)

From stdpp Require Import relations.
From S2P Require Import Prelude.

Module Ipi.
Definition MailboxQueueDepth : nat := 64.
Definition EmitErrorOnCount : Z := 50.

(** Callback and argument; a null callback marks a free slot. *)
Record MailboxRpc : Type := mkRpc { callback : Z; arg : Z }.
Record IpiMailbox : Type := mkMailbox { fullErrorCount : Z; callbacks : list MailboxRpc }.

Definition is_free (m : MailboxRpc) : bool := callback m =? 0.
Definition clear_callback (m : MailboxRpc) : MailboxRpc := mkRpc 0 (arg m).

(** The mailboxes by core, [None] for a null pointer. [slots] is what the memory of the new mailbox
    held. *)
Definition InitIpiMailbox (core : nat) (slots : list MailboxRpc) (boxes : list (option IpiMailbox)) : list (option IpiMailbox) :=
  <[core := Some (mkMailbox 0 (clear_callback <$> slots))]> (boxes ++ replicate (S core - length boxes) None).

(** The first free slot takes the mail. *)
Fixpoint place_mail (m : MailboxRpc) (l : list MailboxRpc) : option (list MailboxRpc) :=
  match l with
  | [] => None
  | x :: l => if is_free x then Some (m :: l) else (x ::.) <$> place_mail m l
  end.

(** What sending does to the mailbox of the destination: whether the core is interrupted, and
    whether an error is logged. *)
Definition send_to (m : MailboxRpc) (b : IpiMailbox) : bool * bool * IpiMailbox :=
  match place_mail m (callbacks b) with
  | Some l => (true, false, mkMailbox 0 l)
  | None => (false, fullErrorCount b mod EmitErrorOnCount =? 0, mkMailbox (u64 (fullErrorCount b + 1)) (callbacks b))
  end.

Definition SendIpiMail (dest : nat) (m : MailboxRpc) (boxes : list (option IpiMailbox)) : res (bool * bool * list (option IpiMailbox)) :=
  _ ← assert_ (dest <? length boxes)%nat;
  b ← deref (mjoin (boxes !! dest));
  let '(ipi, log, b) := send_to m b in
  Ok (ipi, log, <[dest := Some b]> boxes).

(** One turn of the loop of [ProcessIpiMail]: the mail of slot [i], when there is some, is taken out
    to be called. *)
Definition process_slot (i : nat) (b : IpiMailbox) : option MailboxRpc * IpiMailbox :=
  match callbacks b !! i with
  | Some m => if is_free m then (None, b) else (Some m, mkMailbox (fullErrorCount b) (<[i := clear_callback m]> (callbacks b)))
  | None => (None, b)
  end.

Definition overwrite (PanicIpiHandler : Z) (m : MailboxRpc) : MailboxRpc := mkRpc PanicIpiHandler (arg m).
Definition BroadcastPanicIpi (PanicIpiHandler : Z) (self : nat) (boxes : list (option IpiMailbox)) : list (option IpiMailbox) :=
  imap (fun i b => if (i =? self)%nat then b else (fun b => mkMailbox (fullErrorCount b) (overwrite PanicIpiHandler <$> callbacks b)) <$> b) boxes.

(** ** One mailbox over time *)

(** [requested] is the interrupt of the owner being asserted, [at_] where its handler is.
    [accepted], [dropped] and [called] are histories. *)
Record world : Type := mkWorld {
  box : IpiMailbox;
  requested : bool;
  at_ : option nat;
  accepted : list MailboxRpc;
  dropped : list MailboxRpc;
  called : list MailboxRpc
}.

Definition send (m : MailboxRpc) (w : world) : world :=
  let '(ipi, _, b) := send_to m (box w) in
  if ipi : bool then mkWorld b true (at_ w) (accepted w ++ [m]) (dropped w) (called w)
  else mkWorld b (requested w) (at_ w) (accepted w) (dropped w ++ [m]) (called w).

(** The handler at slot [i]. The callback runs before the next turn, with the mailbox unlocked. *)
Definition turn (i : nat) (w : world) : world :=
  if (i <? MailboxQueueDepth)%nat then
    let '(m, b) := process_slot i (box w) in
    mkWorld b (requested w) (Some (S i)) (accepted w) (dropped w) (called w ++ option_list m)
  else mkWorld (box w) (requested w) None (accepted w) (dropped w) (called w).

(** Any core sends at any time; the interrupt is taken when the handler is not running. *)
Inductive step (w : world) : world -> Prop :=
| step_send m : callback m <> 0 -> step w (send m w)
| step_interrupt : requested w = true -> at_ w = None -> step w (mkWorld (box w) false (Some 0%nat) (accepted w) (dropped w) (called w))
| step_turn i : at_ w = Some i -> step w (turn i w).

Definition start (slots : list MailboxRpc) : world := mkWorld (mkMailbox 0 (clear_callback <$> slots)) false None [] [] [].
End Ipi.

(** ** Proofs *)

Import Ipi.

Definition pending_mail (b : IpiMailbox) : list MailboxRpc := filter (fun m => is_free m = false) (callbacks b).

Lemma place_mail_spec m l : is_free m = false -> match place_mail m l with
  | Some l' => length l' = length l /\ filter (fun m => is_free m = false) l' ≡ₚ m :: filter (fun m => is_free m = false) l /\
      (forall i, match l !! i with Some x => is_free x = false -> l' !! i = Some x | None => True end) /\ (exists x, x ∈ l /\ is_free x = true)
  | None => forall x, x ∈ l -> is_free x = false
  end.
Proof.
  intros Hm. induction l as [| x l IH]; simpl; [set_solver |]. destruct (is_free x) eqn:Ex.
  - split; [reflexivity |]. split; [rewrite filter_cons_True, (filter_cons_False _ x) by congruence; reflexivity |]. split; [intros [| i]; simpl; [congruence | destruct (l !! i); auto] |]. exists x. split; [left | assumption].
  - destruct (place_mail m l) as [l' |]; simpl.
    + destruct IH as (Hlen & Hp & Hkeep & y & Hy & Hfy). split; [simpl; lia |]. split; [rewrite !(filter_cons_True _ x) by assumption; rewrite Hp; constructor |]. split; [| exists y; split; [right; assumption | assumption]].
      intros [| i]; simpl; [auto | apply Hkeep].
    + intros y Hy. apply elem_of_cons in Hy as [-> | Hy]; auto.
Qed.

(** Every accepted mail was called or is in a slot, and whoever has to call it is on the way: the
    interrupt is asserted, or the handler has not passed the slot. *)
Record mail_ok (w : world) : Prop := mkMailOk {
  mo_length : length (callbacks (box w)) = MailboxQueueDepth;
  mo_history : accepted w ≡ₚ called w ++ pending_mail (box w);
  mo_coming : forall j m, callbacks (box w) !! j = Some m -> is_free m = false -> requested w = true \/ exists i, at_ w = Some i /\ (i <= j)%nat
}.

Lemma cleared_free l : filter (fun m => is_free m = false) (clear_callback <$> l) = [].
Proof. induction l as [| x l IH]; [reflexivity |]. simpl. rewrite filter_cons_False by discriminate. exact IH. Qed.

Lemma mail_start slots : length slots = MailboxQueueDepth -> mail_ok (start slots).
Proof.
  intros Hl. constructor; simpl.
  - rewrite length_fmap. assumption.
  - unfold pending_mail. simpl. rewrite cleared_free. reflexivity.
  - intros j m Hj Hm. rewrite list_lookup_fmap in Hj. apply fmap_Some in Hj as (x & _ & ->). discriminate.
Qed.

Lemma mail_send m w : mail_ok w -> callback m <> 0 -> mail_ok (send m w).
Proof.
  intros [Hl Hh Hc] Hm. assert (Hf : is_free m = false) by (apply Z.eqb_neq; assumption). unfold send, send_to. pose proof (place_mail_spec m (callbacks (box w)) Hf) as Hp.
  destruct (place_mail m (callbacks (box w))) as [l' |]; [| constructor; assumption]. destruct Hp as (Hlen & Hperm & _). constructor; simpl; [congruence | | auto].
  unfold pending_mail. simpl. rewrite Hperm, Hh. unfold pending_mail. rewrite <- app_assoc. apply Permutation_app_head. apply Permutation_app_comm.
Qed.

Lemma process_slot_spec i (l : list MailboxRpc) m : l !! i = Some m -> is_free m = false ->
  filter (fun m => is_free m = false) l ≡ₚ m :: filter (fun m => is_free m = false) (<[i := clear_callback m]> l).
Proof.
  revert i. induction l as [| x l IH]; intros [| i] Hi Hm; simpl in *; try discriminate.
  - injection Hi as ->. rewrite filter_cons_True, (filter_cons_False _ (clear_callback m)) by (assumption || discriminate). reflexivity.
  - specialize (IH i Hi Hm). destruct (is_free x) eqn:Ex; [rewrite !(filter_cons_False _ x) by congruence; exact IH |]. rewrite !(filter_cons_True _ x) by assumption. rewrite IH. apply perm_swap.
Qed.

Lemma mail_turn i w : mail_ok w -> at_ w = Some i -> mail_ok (turn i w).
Proof.
  intros [Hl Hh Hc] Hi. unfold turn. destruct (Nat.ltb_spec i MailboxQueueDepth) as [Hlt | Hge].
  - unfold process_slot. destruct (callbacks (box w) !! i) as [m |] eqn:Em; [| apply lookup_ge_None_1 in Em; lia]. destruct (is_free m) eqn:Ef.
    + constructor; simpl; rewrite ?app_nil_r; auto. intros j x Hj Hx. destruct (Hc j x Hj Hx) as [Hr | (k & Hk & Hle)]; [auto | right]. exists (S i). split; [reflexivity |].
      assert (j <> i) by congruence. assert (k = i) by congruence. lia.
    + constructor; simpl; [rewrite length_insert; assumption | |].
      * rewrite Hh. unfold pending_mail. simpl. rewrite (process_slot_spec i _ m Em Ef), <- app_assoc. reflexivity.
      * intros j x Hj Hx. destruct (decide (j = i)) as [-> | Hne]; [rewrite list_lookup_insert_eq in Hj by (rewrite Hl; assumption); injection Hj as <-; discriminate |].
        rewrite list_lookup_insert_ne in Hj by congruence. destruct (Hc j x Hj Hx) as [Hr | (k & Hk & Hle)]; [auto | right]. exists (S i). split; [reflexivity |]. assert (k = i) by congruence. lia.
  - constructor; simpl; auto. intros j x Hj Hx. destruct (Hc j x Hj Hx) as [Hr | (k & Hk & Hle)]; [auto |]. exfalso. apply lookup_lt_Some in Hj. assert (k = i) by congruence. lia.
Qed.

Lemma mail_reachable slots w : length slots = MailboxQueueDepth -> rtc step (start slots) w -> mail_ok w.
Proof.
  intros Hl Hr. assert (H0 : mail_ok (start slots)) by (apply mail_start; assumption). revert H0. induction Hr as [| x y z Hs _ IH]; intros H0; [assumption |]. apply IH.
  destruct Hs as [m Hm | Hq Ha | i Hi]; [apply mail_send; assumption | | apply mail_turn; assumption]. destruct H0 as [H1 H2 H3]. constructor; simpl; auto.
  intros j m Hj Hm. right. exists 0%nat. split; [reflexivity | lia].
Qed.

(** A send is refused only when every slot is taken. *)
Lemma send_refused m w : callback m <> 0 -> accepted (send m w) = accepted w -> forall x, x ∈ callbacks (box w) -> is_free x = false.
Proof.
  intros Hm. assert (Hf : is_free m = false) by (apply Z.eqb_neq; assumption). unfold send, send_to. pose proof (place_mail_spec m (callbacks (box w)) Hf) as Hp.
  destruct (place_mail m (callbacks (box w))); simpl; [| auto]. intros E. apply (f_equal length) in E. rewrite length_app in E. simpl in E. lia.
Qed.

(** C40: mail between cores is not lost: under any interleaving of senders with the handler of the
    owner, whatever was accepted is called once or still in the mailbox with its interrupt coming,
    so that when no interrupt is asserted and the handler is done all of it was called; mail is
    refused only when all 64 slots are taken. *)
Theorem ipi_mail_delivered slots (w : world) :
  length slots = MailboxQueueDepth -> rtc step (start slots) w ->
  accepted w ≡ₚ called w ++ pending_mail (box w) /\ (requested w = false -> at_ w = None -> accepted w ≡ₚ called w) /\
  forall m, callback m <> 0 -> accepted (send m w) = accepted w -> length (pending_mail (box w)) = MailboxQueueDepth.
Proof.
  intros Hl Hr. destruct (mail_reachable slots w Hl Hr) as [H1 H2 H3]. split; [assumption |]. split.
  - intros Hq Ha. rewrite H2. enough (E : pending_mail (box w) = []) by (rewrite E, app_nil_r; reflexivity). unfold pending_mail.
    destruct (filter _ _) as [| m l] eqn:Ef; [reflexivity |]. assert (Hin : m ∈ filter (fun m => is_free m = false) (callbacks (box w))) by (rewrite Ef; left).
    apply list_elem_of_filter in Hin as [Hm Hin]. apply list_elem_of_lookup_1 in Hin as [j Hj]. destruct (H3 j m Hj Hm) as [? | (i & Hi & _)]; congruence.
  - intros m Hm E. pose proof (send_refused m w Hm E) as Hall. unfold pending_mail. rewrite <- H1. f_equal. clear -Hall. induction (callbacks (box w)) as [| x l IH]; [reflexivity |].
    rewrite filter_cons_True by (apply Hall; left). rewrite IH; [reflexivity |]. intros y Hy. apply Hall. right. assumption.
Qed.

Definition empty_slots : list MailboxRpc := replicate MailboxQueueDepth (mkRpc 0 0).
Definition one_mail : world := send (mkRpc 0x10 0x20) (start empty_slots).

Lemma ipi_mail_delivered_witness : accepted one_mail ≡ₚ called one_mail ++ pending_mail (box one_mail) /\ (requested one_mail = false -> at_ one_mail = None -> accepted one_mail ≡ₚ called one_mail) /\
  forall m, callback m <> 0 -> accepted (send m one_mail) = accepted one_mail -> length (pending_mail (box one_mail)) = MailboxQueueDepth.
Proof.
  apply (ipi_mail_delivered empty_slots one_mail); [reflexivity |]. eapply rtc_l; [apply (step_send (start empty_slots) (mkRpc 0x10 0x20)); discriminate | apply rtc_refl].
Defined.
